(* ===== verification/_CoqProject ===== *)
-Q . S2P
Prelude.v
StateMonad.v
SafeMath.v
Proto.v
BitArray.v
Validator.v
ValidatorSet.v
ValidatorSetUpdate.v
ProposerPriority.v
BlockTypes.v
Merkle.v
PartSet.v
SignBytes.v
Header.v
ValidatorHash.v
Block.v
ProtoDecode.v
ProtoRoundtrip.v
CommitVerify.v
MedianTime.v
Params.v
ChainState.v
StateStore.v
LightVerifier.v
LightStore.v
LightStoreInv.v
LightClient.v
LightSearch.v
LightSafety.v
LightBackwards.v
LightWitness.v
LightChain.v
PrivVal.v
PrivValSafety.v
VoteSet.v
VoteSetInv.v
VoteSetClaims.v
LockChange.v
BlockExec.v
HeightVoteSet.v
VoteOrigin.v
Consensus.v
ConsensusInv.v
ConsensusSteps.v
ConsensusSafety.v
ConsensusClaims.v
