(* ===== verification/Prelude.v ===== *)
(** * TendermintX: a verification development

    TendermintX is a Byzantine fault tolerant replication engine in Go.  Validators
    agree on a block per height by signed votes, the application executes the block,
    and light clients follow the chain through its headers.  This library embeds the
    deciding parts of the program in Rocq and proves what makes them correct.  Paths
    below are relative to src/.

    ** The parts and how they interact

    A validator's key signs votes and proposals (privval/file.go).  Votes of one
    height, round and type are counted in a vote set (types/vote_set.go), those of a
    height in a height vote set (consensus/types/height_vote_set.go), which the state
    machine of consensus/state.go reads to lock, unlock and commit.  Blocks travel as
    parts with Merkle proofs (types/part_set.go, crypto/merkle).  The commit for a
    block, the precommits of more than two thirds of the power, is verified against a
    validator set (types/validator_set.go) by the next block (state/validation.go)
    and by light clients (light).  A committed block is executed by the application;
    its answers give the next state and validators (state/execution.go), which are
    kept in a database (state/store.go).

    ** Files

    Foundations
    - Prelude: machine integers, panics, indexing, sorting, sums, tactics and hints.
    - StateMonad: computations with a state that may panic.
    - SafeMath: libs/math/safemath.go.
    - Proto, ProtoDecode, ProtoRoundtrip: the generated encoders and decoders of the
      canonical messages and libs/protoio.
    - BitArray: libs/bits/bit_array.go.

    Validators
    - Validator, ValidatorSet: types/validator.go and types/validator_set.go.
    - ValidatorSetUpdate: the invariant [VS_wf] and updateWithChangeSet.
    - ProposerPriority: the rotation of the proposer.
    - ValidatorHash: hash and messages of a validator set, crypto/encoding.
    - CommitVerify: VerifyCommit, VerifyCommitLight and VerifyCommitLightTrusting.

    Data
    - BlockTypes, SignBytes: votes, proposals, commits and the bytes that are signed
      (types/vote.go, proposal.go, canonical.go, block.go).
    - Merkle, PartSet: crypto/merkle, types/part_set.go and types/tx.go.
    - Header, Block: headers, signed headers, meta data and blocks of types/block.go.

    State of the chain
    - MedianTime: the time of a block (state/state.go, types/time/time.go).
    - Params: consensus parameters (types/params.go).
    - ChainState: State, genesis, MakeBlock and updateState (state/state.go,
      types/genesis.go, state/execution.go).
    - StateStore: state/store.go and the state of statesync/stateprovider.go.
    - BlockExec: validateBlock, VerifyEvidence and ApplyBlock (state/validation.go,
      state/execution.go, types/protobuf.go).

    Light client
    - LightVerifier: light/verifier.go.
    - LightStore, LightStoreInv: light/store/db/db.go.
    - LightClient: light/client.go.
    - LightSearch, LightSafety, LightChain: termination of bisection, what forward
      verification accepts, and that it stays on the chain.
    - LightBackwards, LightWitness: backwards verification and witnesses.

    Voting and consensus
    - PrivVal, PrivValSafety: privval/file.go.
    - VoteSet, VoteSetInv, VoteSetClaims: types/vote_set.go.
    - LockChange: ProofOfLockChange of types/evidence.go.
    - HeightVoteSet, VoteOrigin: consensus/types/height_vote_set.go.
    - Consensus, ConsensusInv, ConsensusSteps, ConsensusSafety, ConsensusClaims:
      consensus/state.go.

    ** How the code is represented

    A pure function is a Rocq function, with the name it has in the source where no
    other type has a method of that name, and with the type in front otherwise.  A
    run-time panic is [Panic] of the type [outcome]; an error is a value of [option]
    or of a sum.  Methods that change their receiver return it, memoized values
    included; the consensus state, the light client and the block executor are
    threaded by a state monad.  A pointer that may be nil is an [option].  Part sets
    that the consensus state shares live in a heap.  Integers are of type [Z], with
    the wrap-around written where an operation can overflow; a time is a number of
    nanoseconds.  A mutex that is held for a whole operation is left out.

    Code outside the repository is a parameter: a class with the functions the code
    calls, and the laws it relies on as hypotheses where they are needed, each with
    an instance.
    - [Crypto]: addresses and signatures of keys.  [TmHash], [TmHashLaws]: SHA-256 and
      the size of its result.  Binding theorems assume that the strings that were
      hashed, a finite list, do not collide.
    - [StdTime], [Wrappers], [Gogo], [BlockCodec] with their laws: encodings by
      gogo/protobuf and the generated codec of a block.
    - [Signer]: signatures by a private key.
    Interfaces of the program are classes too: [PrivValidator], which the file signer
    implements, [BlockExecutor], [BlockStore], [EvidenceImpl], [EvidenceMethods],
    [EvidencePool], [AppConn], [Mempool] and [Provider] of the light client.  Where a
    class stands for several implementations the theorems hold for all of them, also
    for faulty ones: providers answer anything.

    ** What is proved

    - Agreement (ConsensusClaims): with less than a third of the power faulty, correct
      nodes apply the same block at a height, in every interleaving of messages and
      timeouts.  It rests on invariants of single nodes: votes obey the locking
      rules, steps go forward, a saved block has a commit that verifies, and a block
      is stored and logged before it is applied.
    - Signer (PrivValSafety): no two released messages for a height, round and step
      differ, over all crashes and restarts, and a repeated request is answered.
    - Votes (VoteSetClaims): the invariant of vote sets, every outcome of AddVote,
      what a majority means, and that the commit made from one verifies.
    - Validators: updates accept exactly the valid changes; the rotation never
      overflows and is fair up to a constant; the hash binds keys and powers; what
      the three commit checks guarantee and how they relate.
    - Data: both Merkle algorithms agree; a proof that verifies proves an item; parts
      in any order give the data back; header hash and sign bytes are injective;
      blocks survive the way through parts.
    - State: every state from genesis on is well formed; changes of validators take
      effect two heights later; a block made from a state is valid for it; the store
      gives back every height after any blocks and prunings; an execution that
      succeeds keeps all this; the median time is bounded by correct clocks.
    - Light client: what a verified header implies; bisection terminates; forward
      verification stays on the chain whatever the providers answer; when the
      comparison with the witnesses is clear; the store is well formed.
    - Errors found: AddPart_misplaced, BlockFromProto_unbound_txs, MedianTime_faulty,
      VerifyHeader_accepts_forged, BootstrapState_stale, ApplyBlock_evidence_panics.

    ** Bounds and fuel

    Loops over data are structural.  Where the recursion is not, the fuel is computed
    from the input and proved to be enough, so that no result depends on it: the
    number of leaves for Merkle trees, the length of the input for decoders, the
    number of parts for readers.  Bisection gets [bisectionFuel], the number of
    witnesses plus one times the square of the distance of the heights, since each
    replacement of the primary can restart the search; more fuel changes nothing.
    The search for a primary that answers is bounded by the number of witnesses.
    Heights are assumed to stay a few steps below the maximum of [int64] where the
    code adds to them, and nine times below it in bisection, whose pivot multiplies.

    ** Not modelled

    - Network and processes: p2p, the consensus reactor and its gossip, fast sync,
      state sync but for the state it makes, RPC, ABCI clients and servers, the light
      client's proxy, the remote signer's sockets, the node and the command line.
      They are I/O, goroutines and timing around the parts above; the theorems cover
      them by quantifying over all messages, orders and answers.
    - Files and databases: the write-ahead log and its replay, the block store, the
      indexer, and the encoding of what the stores keep.  Their contents are values.
    - The mempool and the evidence pool are interfaces of the execution.  The types of
      evidence but for duplicate votes and proofs of lock change are too.
    - CreateProposalBlock and CheckBlock of state/execution.go, whose results are those
      of the application, and the start and replay of the consensus state.
    - Generated code but for the messages that are signed or hashed, JSON, String
      printers, logging, metrics and test helpers.
    - Liveness of the consensus, which depends on timing. *)

From Stdlib Require Import ZArith Lia.
From stdpp Require Import base gmap strings list sorting numbers option.

#[global] Arguments Nat.div : simpl never.
#[global] Arguments Nat.modulo : simpl never.
#[global] Arguments Z.pow : simpl never.
#[global] Arguments Z.quot : simpl never.
#[global] Arguments Z.rem : simpl never.

(** ** Machine integers

    Go's [int64], [int32] and [uint64] are integers [Z] kept in their range;
    an arithmetic operation that may leave it is written with the wrap-around
    the language specifies. *)
Module Export Int.

Local Open Scope Z_scope.

Definition MaxInt64 : Z := 2 ^ 63 - 1.
Definition MinInt64 : Z := - 2 ^ 63.
Definition MaxInt32 : Z := 2 ^ 31 - 1.
Definition MinInt32 : Z := - 2 ^ 31.

Definition int64 (z : Z) : Prop := MinInt64 <= z <= MaxInt64.
Definition int32 (z : Z) : Prop := MinInt32 <= z <= MaxInt32.
Definition uint64 (z : Z) : Prop := 0 <= z < 2 ^ 64.
Definition uint32 (z : Z) : Prop := 0 <= z < 2 ^ 32.

(** The value a two's complement [w]-bit register holds after [z] is stored. *)
Definition wrap (w z : Z) : Z := (z + 2 ^ (w - 1)) mod 2 ^ w - 2 ^ (w - 1).
Definition wrap64 (z : Z) : Z := wrap 64 z.
Definition wrap32 (z : Z) : Z := wrap 32 z.
Definition wrapu64 (z : Z) : Z := z mod 2 ^ 64.
Definition wrapu32 (z : Z) : Z := z mod 2 ^ 32.

#[global] Instance int64_dec z : Decision (int64 z).
Proof. unfold int64; apply _. Defined.
#[global] Instance int32_dec z : Decision (int32 z).
Proof. unfold int32; apply _. Defined.
#[global] Instance uint64_dec z : Decision (uint64 z).
Proof. unfold uint64; apply _. Defined.
#[global] Instance uint32_dec z : Decision (uint32 z).
Proof. unfold uint32; apply _. Defined.

Lemma wrap64_id z : int64 z -> wrap64 z = z.
Proof.
  unfold int64, MinInt64, MaxInt64, wrap64, wrap; intros H.
  change (64 - 1) with 63. rewrite Z.mod_small; lia.
Qed.

(** One overflow subtracts [2^64]. *)
Lemma wrap64_high z : MaxInt64 < z <= MaxInt64 + 2 ^ 64 -> wrap64 z = z - 2 ^ 64.
Proof.
  unfold MaxInt64, wrap64, wrap. change (64 - 1) with 63. intros H.
  replace (z + 2 ^ 63) with (z - 2 ^ 63 + 1 * 2 ^ 64) by lia.
  rewrite Z.mod_add, Z.mod_small by lia. lia.
Qed.

Lemma wrap64_range z : int64 (wrap64 z).
Proof.
  unfold int64, MinInt64, MaxInt64, wrap64, wrap. change (64 - 1) with 63.
  pose proof (Z.mod_pos_bound (z + 2 ^ 63) (2 ^ 64) ltac:(lia)). lia.
Qed.

Lemma wrap32_id z : int32 z -> wrap32 z = z.
Proof.
  unfold int32, MinInt32, MaxInt32, wrap32, wrap; intros H.
  change (32 - 1) with 31. rewrite Z.mod_small; lia.
Qed.

Lemma wrap32_range z : int32 (wrap32 z).
Proof.
  unfold int32, MinInt32, MaxInt32, wrap32, wrap. change (32 - 1) with 31.
  pose proof (Z.mod_pos_bound (z + 2 ^ 31) (2 ^ 32) ltac:(lia)). lia.
Qed.

Lemma wrapu64_id z : uint64 z -> wrapu64 z = z.
Proof. unfold uint64, wrapu64; intros; by apply Z.mod_small. Qed.

Lemma wrapu64_range z : uint64 (wrapu64 z).
Proof. unfold uint64, wrapu64. apply Z.mod_pos_bound. lia. Qed.

(** A shift of a [uint64] by a [uint]: a count of 64 or more gives 0. *)
Definition shl64 (x n : Z) : Z := if 64 <=? n then 0 else wrapu64 (Z.shiftl x n).

(** Complement of a [uint64]. *)
Definition not64 (x : Z) : Z := Z.lxor x (2 ^ 64 - 1).

End Int.

(** Unfolds the range predicates and calls [lia]. *)
Ltac int_lia :=
  unfold int64, int32, uint64, uint32, MaxInt64, MinInt64, MaxInt32, MinInt32 in *; lia.

(** ** Panics

    A Go function that can panic returns an [outcome]; [Panic] carries the
    panic's message.  [let! x := m in k] runs [m] and stops at its panic. *)
Inductive outcome (A : Type) : Type :=
  | Done (a : A)
  | Panic (why : string).
Arguments Done {_} _.
Arguments Panic {_} _.

Definition obind {A B} (m : outcome A) (f : A -> outcome B) : outcome B :=
  match m with Done a => f a | Panic w => Panic w end.

Notation "'let!' x := m 'in' k" := (obind m (fun x => k))
  (at level 200, x pattern, m at level 100, k at level 200,
   format "'[v' 'let!'  x  :=  m  'in' '/' k ']'").

Definition panics {A} (m : outcome A) : bool :=
  match m with Done _ => false | Panic _ => true end.

Lemma bind_Done {A B} (f : A -> outcome B) a : obind (Done a) f = f a.
Proof. done. Qed.

Lemma bind_Done_inv {A B} (f : A -> outcome B) (m : outcome A) b :
  obind m f = Done b -> exists a, m = Done a /\ f a = Done b.
Proof. destruct m; simpl; [eauto | discriminate]. Qed.

Lemma Done_inj {A} (x y : A) : Done x = Done y -> x = y.
Proof. by intros [=]. Qed.

(** Whether a run ended without an error *)
Definition succeeded {E A} (r : outcome (option E * A)) : bool :=
  match r with Done (None, _) => true | _ => false end.
Lemma succeeded_Done {E A} (r : outcome (option E * A)) : succeeded r = true -> exists a, r = Done (None, a).
Proof. destruct r as [[[e|] a]|]; try done. by exists a. Qed.

(** Run-time indexing [l[i]] with a Go integer: out of range is a panic. *)
Definition index {A} (l : list A) (i : Z) : outcome A :=
  if decide (0 <= i)%Z then
    match l !! Z.to_nat i with
    | Some x => Done x
    | None => Panic "index out of range"
    end
  else Panic "index out of range".

(** The assignment [l[i] = x]. *)
Definition set_index {A} (l : list A) (i : Z) (x : A) : outcome (list A) :=
  if decide (0 <= i < Z.of_nat (length l))%Z then Done (<[Z.to_nat i := x]> l)
  else Panic "index out of range".

Lemma index_Done {A} (l : list A) i x :
  index l i = Done x <-> (0 <= i)%Z /\ l !! Z.to_nat i = Some x.
Proof.
  unfold index. case_decide; [|naive_solver].
  destruct (l !! _); naive_solver.
Qed.

Lemma index_nat {A} (l : list A) (i : nat) x :
  l !! i = Some x -> index l (Z.of_nat i) = Done x.
Proof. intros. apply index_Done. rewrite Nat2Z.id. split; [lia | done]. Qed.

Lemma index_panic {A} (l : list A) i :
  (i < 0 \/ Z.of_nat (length l) <= i)%Z -> index l i = Panic "index out of range".
Proof.
  intros H. unfold index. case_decide; [|done].
  rewrite (proj2 (lookup_ge_None l (Z.to_nat i))); [done | lia].
Qed.

Lemma set_index_Done {A} (l : list A) i x l' :
  set_index l i x = Done l' <->
  (0 <= i < Z.of_nat (length l))%Z /\ l' = <[Z.to_nat i := x]> l.
Proof. unfold set_index. case_decide; naive_solver. Qed.

(** Inversion of a chain of monadic binds that reached [Done]. *)
Ltac inv_done :=
  repeat match goal with
  | H : obind _ _ = Done _ |- _ => apply bind_Done_inv in H as (? & ? & H)
  | H : index _ _ = Done _ |- _ => apply index_Done in H as [? ?]
  | H : set_index _ _ _ = Done _ |- _ => apply set_index_Done in H as [? ?]
  | H : Done _ = Done _ |- _ => injection H; clear H; intros; subst
  | H : Panic _ = Done _ |- _ => discriminate H
  end.

(** ** Bytes

    A [[]byte] is a list of bytes.  A nil slice and an empty one behave alike
    in every operation the model uses ([len], [bytes.Equal], [append]); where
    the source tells them apart, the model uses [option bytes]. *)
Notation byte := Byte.byte.
Notation bytes := (list Byte.byte).

#[global] Instance byte_eq_dec : EqDecision byte := Byte.byte_eq_dec.
#[global] Instance byte_countable : Countable byte :=
  inj_countable Byte.to_N Byte.of_N Byte.of_to_N.

(** [byte(z)]: the low eight bits. *)
Definition byte_of_Z (z : Z) : byte :=
  match Byte.of_N (Z.to_N (z mod 256)) with Some b => b | None => Byte.x00 end.
Definition byte_to_Z (b : byte) : Z := Z.of_N (Byte.to_N b).

(** [binary.LittleEndian.PutUint64] *)
Definition putUint64LE (x : Z) : bytes :=
  (fun k => byte_of_Z (Z.shiftr x (8 * Z.of_nat k)%Z)) <$> seq 0 8.

#[global] Arguments putUint64LE : simpl never.

Lemma byte_to_Z_range b : (0 <= byte_to_Z b < 256)%Z.
Proof.
  unfold byte_to_Z. pose proof (Byte.to_N_bounded b). lia.
Qed.

Lemma byte_to_of_Z z : byte_to_Z (byte_of_Z z) = (z mod 256)%Z.
Proof.
  unfold byte_to_Z, byte_of_Z.
  pose proof (Z.mod_pos_bound z 256 ltac:(lia)) as Hb.
  destruct (Byte.of_N (Z.to_N (z mod 256))) as [b|] eqn:E.
  - apply Byte.to_of_N in E. rewrite E. lia.
  - exfalso. apply Byte.of_N_None_iff in E. lia.
Qed.

Lemma byte_of_to_Z b : byte_of_Z (byte_to_Z b) = b.
Proof.
  unfold byte_of_Z. pose proof (byte_to_Z_range b) as Hb.
  rewrite Z.mod_small by lia. unfold byte_to_Z. rewrite N2Z.id.
  by rewrite Byte.of_to_N.
Qed.

Lemma byte_to_Z_inj b1 b2 : byte_to_Z b1 = byte_to_Z b2 -> b1 = b2.
Proof. intros H. by rewrite <- (byte_of_to_Z b1), H, byte_of_to_Z. Qed.

(** [bytes.Compare]: lexicographic order on the byte values. *)
Fixpoint bytes_compare (a b : bytes) : comparison :=
  match a, b with
  | [], [] => Eq
  | [], _ :: _ => Lt
  | _ :: _, [] => Gt
  | x :: a', y :: b' =>
    match N.compare (Byte.to_N x) (Byte.to_N y) with
    | Eq => bytes_compare a' b'
    | c => c
    end
  end.

Definition bytes_ltb (a b : bytes) : bool :=
  match bytes_compare a b with Lt => true | _ => false end.

Definition bytes_lt (a b : bytes) : Prop := bytes_compare a b = Lt.

Lemma to_N_inj x y : Byte.to_N x = Byte.to_N y -> x = y.
Proof.
  intros H. apply (f_equal Byte.of_N) in H.
  rewrite !Byte.of_to_N in H. by injection H.
Qed.

Lemma bytes_compare_refl a : bytes_compare a a = Eq.
Proof. induction a as [|x a IH]; simpl; [done|]. by rewrite N.compare_refl. Qed.

Lemma bytes_compare_Eq a b : bytes_compare a b = Eq <-> a = b.
Proof.
  split; [|intros ->; apply bytes_compare_refl].
  revert b. induction a as [|x a IH]; intros [|y b]; simpl; try done.
  destruct (N.compare_spec (Byte.to_N x) (Byte.to_N y)) as [E| |]; try done.
  intros H. f_equal; [by apply to_N_inj | by apply IH].
Qed.

Lemma bytes_compare_antisym a b : bytes_compare b a = CompOpp (bytes_compare a b).
Proof.
  revert b. induction a as [|x a IH]; intros [|y b]; simpl; try done.
  rewrite (N.compare_antisym (Byte.to_N x)).
  destruct (N.compare (Byte.to_N x) (Byte.to_N y)); simpl; auto.
Qed.

Lemma bytes_lt_trans a b c : bytes_lt a b -> bytes_lt b c -> bytes_lt a c.
Proof.
  unfold bytes_lt. revert b c.
  induction a as [|x a IH]; intros [|y b] [|z c]; simpl; try done.
  destruct (N.compare_spec (Byte.to_N x) (Byte.to_N y)) as [E1|E1|E1]; try done;
  destruct (N.compare_spec (Byte.to_N y) (Byte.to_N z)) as [E2|E2|E2]; try done;
  destruct (N.compare_spec (Byte.to_N x) (Byte.to_N z)) as [E3|E3|E3]; try done; try lia.
  apply IH.
Qed.

Lemma bytes_lt_irrefl a : ~ bytes_lt a a.
Proof. unfold bytes_lt. by rewrite bytes_compare_refl. Qed.

Lemma bytes_trichotomy a b : bytes_lt a b \/ a = b \/ bytes_lt b a.
Proof.
  unfold bytes_lt. rewrite (bytes_compare_antisym a b).
  destruct (bytes_compare a b) eqn:E; simpl; auto.
  apply bytes_compare_Eq in E. auto.
Qed.

Lemma bytes_ltb_lt a b : bytes_ltb a b = true <-> bytes_lt a b.
Proof. unfold bytes_ltb, bytes_lt. destruct (bytes_compare a b); naive_solver. Qed.

Lemma bytes_ltb_nlt a b : bytes_ltb a b = false <-> ~ bytes_lt a b.
Proof. rewrite <- bytes_ltb_lt. destruct (bytes_ltb a b); naive_solver. Qed.

#[global] Instance bytes_lt_dec a b : Decision (bytes_lt a b).
Proof. unfold bytes_lt. solve_decision. Defined.

(** ** Loops *)

(** [for _, x := range l { s = f(s, x) }] where the body may panic. *)
Fixpoint foldM {A St} (f : St -> A -> outcome St) (s : St) (l : list A) : outcome St :=
  match l with
  | [] => Done s
  | x :: l' => let! s' := f s x in foldM f s' l'
  end.

Lemma foldM_app {A St} (f : St -> A -> outcome St) s l1 l2 :
  foldM f s (l1 ++ l2) = (let! s' := foldM f s l1 in foldM f s' l2).
Proof.
  revert s. induction l1 as [|x l1 IH]; intros s; simpl; [done|].
  destruct (f s x); simpl; auto.
Qed.

Lemma foldM_pure {A St} (f : St -> A -> St) s l :
  foldM (fun s x => Done (f s x)) s l = Done (foldl f s l).
Proof. revert s. induction l; intros; simpl; auto. Qed.

(** Loop invariant rule: [P i s] holds before iteration [i]. *)
Lemma foldM_inv {A St} (P : nat -> St -> Prop) (f : St -> A -> outcome St) s l :
  P 0%nat s ->
  (forall i x s, l !! i = Some x -> P i s -> exists s', f s x = Done s' /\ P (S i) s') ->
  exists s', foldM f s l = Done s' /\ P (length l) s'.
Proof.
  revert s P. induction l as [|x l IH]; intros s P H0 Hstep; simpl; [eauto|].
  destruct (Hstep 0%nat x s eq_refl H0) as (s' & -> & Hs'). simpl.
  apply (IH s' (fun i => P (S i)) Hs').
  intros i y t Hy. by apply (Hstep (S i)).
Qed.

(** Inversion of a loop that completed. *)
Lemma foldM_Done_inv {A St} (P : nat -> St -> Prop) (f : St -> A -> outcome St) s l r :
  P 0%nat s ->
  (forall i x s s', l !! i = Some x -> P i s -> f s x = Done s' -> P (S i) s') ->
  foldM f s l = Done r -> P (length l) r.
Proof.
  revert s P. induction l as [|x l IH]; intros s P H0 Hstep; simpl.
  - by intros [= ->].
  - intros H. inv_done.
    apply (IH _ (fun i => P (S i)) (Hstep 0%nat x s _ eq_refl H0 ltac:(eassumption)));
      [|done].
    intros i y t t' Hy. by apply (Hstep (S i)).
Qed.

Section zip_update.
Context {A B : Type} (f : A -> B -> A).

(** [for i := start; i < start+n; i++ { l[i] = f(l[i], l2[i]) }] *)
Definition zip_update (l : list A) (l2 : list B) (idxs : list nat) : outcome (list A) :=
  foldM (fun l i =>
    let! x := index l (Z.of_nat i) in
    let! y := index l2 (Z.of_nat i) in
    set_index l (Z.of_nat i) (f x y)) l idxs.

Lemma zip_update_spec l l2 n :
  (n <= length l)%nat -> (n <= length l2)%nat ->
  exists l', zip_update l l2 (seq 0 n) = Done l' /\ length l' = length l /\
    forall i, l' !! i =
      if decide (i < n)%nat then x ← l !! i; y ← l2 !! i; Some (f x y) else l !! i.
Proof.
  intros H1 H2.
  destruct (foldM_inv (fun k l' => length l' = length l /\
    forall i, l' !! i =
      if decide (i < k)%nat then x ← l !! i; y ← l2 !! i; Some (f x y) else l !! i)
    (fun l i => let! x := index l (Z.of_nat i) in let! y := index l2 (Z.of_nat i) in
       set_index l (Z.of_nat i) (f x y)) l (seq 0 n)) as (l' & Hl' & Hlen & Hlook).
  - split; [done|]. intros i. by rewrite decide_False by lia.
  - intros k i s Hk [Hlen Hs].
    apply lookup_seq in Hk as [-> Hk]. simpl in *.
    destruct (lookup_lt_is_Some_2 l k ltac:(lia)) as [x Hx].
    destruct (lookup_lt_is_Some_2 l2 k ltac:(lia)) as [y Hy].
    assert (s !! k = Some x) as Hsx by (rewrite Hs, decide_False by lia; done).
    rewrite (index_nat _ _ _ Hsx). simpl. rewrite (index_nat _ _ _ Hy). simpl.
    unfold set_index. rewrite decide_True by lia.
    eexists; split; [done|]. rewrite length_insert. split; [done|].
    intros j. rewrite Nat2Z.id. destruct (decide (j = k)) as [->|Hne].
    + rewrite list_lookup_insert_eq by lia. rewrite decide_True by lia.
      by rewrite Hx, Hy.
    + rewrite list_lookup_insert_ne by lia. rewrite Hs.
      destruct (decide (j < k)%nat).
      * by rewrite decide_True by lia.
      * by rewrite decide_False by lia.
  - exists l'. split; [done|]. split; [done|].
    intros i. rewrite Hlook, length_seq. done.
Qed.
End zip_update.

(** ** List facts *)

Lemma filter_all {A} (P : A -> Prop) `{forall x, Decision (P x)} (l : list A) :
  (forall x, x ∈ l -> P x) -> filter P l = l.
Proof.
  induction l as [|x l IH]; intros Hall; [done|].
  rewrite filter_cons_True by (apply Hall; set_solver). f_equal. apply IH. set_solver.
Qed.

Lemma filter_none {A} (P : A -> Prop) `{forall x, Decision (P x)} (l : list A) :
  (forall x, x ∈ l -> ~ P x) -> filter P l = [].
Proof.
  induction l as [|x l IH]; intros HP; [done|].
  rewrite filter_cons_False; [apply IH|]; set_solver.
Qed.

(** ** [sort.Sort] and [sort.Slice]

    The library sorts in place by a [Less] function.  Go leaves the order of
    elements that compare equal open; the model takes the stable one.  On
    elements with distinct keys the sorted permutation is unique
    ([StronglySorted_unique]), so there the choice is not visible. *)
Section sort_by.
Context {A : Type} (less : A -> A -> bool).

Fixpoint insert_by (x : A) (l : list A) : list A :=
  match l with
  | [] => [x]
  | y :: l' => if less y x then y :: insert_by x l' else x :: y :: l'
  end.

Definition sort_by (l : list A) : list A := foldr insert_by [] l.

Lemma insert_by_perm x l : insert_by x l ≡ₚ x :: l.
Proof.
  induction l as [|y l IH]; simpl; [done|]. destruct (less y x); [|done].
  rewrite IH. apply Permutation_swap.
Qed.

Lemma sort_by_perm l : sort_by l ≡ₚ l.
Proof. induction l as [|x l IH]; simpl; [done|]. by rewrite insert_by_perm, IH. Qed.

(** [x] may stand before [y]. *)
Definition sort_le (x y : A) : Prop := less y x = false.

Context (less_asym : forall x y, less x y = true -> less y x = false).
Context (le_trans : forall x y z, less y x = false -> less z y = false -> less z x = false).

Lemma insert_by_sorted x l :
  StronglySorted sort_le l -> StronglySorted sort_le (insert_by x l).
Proof.
  induction l as [|y l IH]; simpl; intros Hs.
  - by repeat constructor.
  - apply StronglySorted_inv in Hs as [Hs Hall]. destruct (less y x) eqn:E.
    + constructor; [auto|]. rewrite insert_by_perm. constructor; [by apply less_asym|done].
    + constructor; [by constructor|]. constructor; [done|].
      eapply Forall_impl; [|exact Hall]. intros z Hz. by apply (le_trans x y z).
Qed.

Lemma sort_by_sorted l : StronglySorted sort_le (sort_by l).
Proof. induction l; simpl; [constructor|]. by apply insert_by_sorted. Qed.

End sort_by.

(** ** Sums *)
Definition sumZ {A} (f : A -> Z) (l : list A) : Z := foldr (fun x s => f x + s)%Z 0%Z l.
#[global] Arguments sumZ : simpl never.

Section sumZ.
Context {A : Type} (f : A -> Z).
Local Open Scope Z_scope.

Lemma sumZ_nil : sumZ f [] = 0.
Proof. done. Qed.

Lemma sumZ_cons x l : sumZ f (x :: l) = f x + sumZ f l.
Proof. done. Qed.

Lemma sumZ_app l1 l2 : sumZ f (l1 ++ l2) = sumZ f l1 + sumZ f l2.
Proof. induction l1 as [|x l1 IH]; simpl; [done|]. rewrite !sumZ_cons. lia. Qed.

#[global] Instance sumZ_perm : Proper ((≡ₚ) ==> (=)) (sumZ f).
Proof. induction 1; rewrite ?sumZ_cons in *; lia. Qed.

Lemma sumZ_le g l : (forall x, x ∈ l -> f x <= g x) -> sumZ f l <= sumZ g l.
Proof.
  induction l as [|x l IH]; intros H; [done|].
  pose proof (H x ltac:(set_solver)). pose proof (IH ltac:(set_solver)).
  unfold sumZ in *. cbn [foldr] in *. lia.
Qed.

Lemma sumZ_ext g l : (forall x, x ∈ l -> f x = g x) -> sumZ f l = sumZ g l.
Proof.
  induction l as [|x l IH]; intros H; [done|].
  pose proof (H x ltac:(set_solver)). pose proof (IH ltac:(set_solver)).
  unfold sumZ in *. cbn [foldr] in *. lia.
Qed.

Lemma sumZ_nonneg l : (forall x, x ∈ l -> 0 <= f x) -> 0 <= sumZ f l.
Proof.
  induction l as [|x l IH]; intros H; [done|].
  pose proof (H x ltac:(set_solver)). pose proof (IH ltac:(set_solver)).
  unfold sumZ in *. cbn [foldr] in *. lia.
Qed.

Lemma sumZ_elem_le x l : (forall y, y ∈ l -> 0 <= f y) -> x ∈ l -> f x <= sumZ f l.
Proof.
  intros Hp (l1 & l2 & ->)%list_elem_of_split. rewrite sumZ_app, sumZ_cons.
  pose proof (sumZ_nonneg l1 ltac:(set_solver)). pose proof (sumZ_nonneg l2 ltac:(set_solver)). lia.
Qed.

Lemma sumZ_fmap {B} (g : B -> A) (l : list B) : sumZ f (g <$> l) = sumZ (fun x => f (g x)) l.
Proof. induction l; [done|]. unfold sumZ in *. cbn in *. lia. Qed.

Lemma sumZ_add g l : sumZ (fun x => f x + g x) l = sumZ f l + sumZ g l.
Proof. induction l; [done|]. unfold sumZ in *. cbn in *. lia. Qed.

Lemma sumZ_insert (l : list A) i x y :
  l !! i = Some x -> sumZ f (<[i := y]> l) = sumZ f l - f x + f y.
Proof.
  intros Hi. rewrite <- (take_drop_middle l i x Hi) at 2. rewrite insert_take_drop
    by by eapply lookup_lt_Some. rewrite !sumZ_app, !sumZ_cons. lia.
Qed.

Lemma sumZ_const c (l : list A) : sumZ (fun _ => c) l = c * Z.of_nat (length l).
Proof. induction l; [unfold sumZ; simpl; lia|]. unfold sumZ in *. cbn [foldr length] in *. lia. Qed.
End sumZ.

(** A part of a list of non-negative terms has a smaller sum. *)
Lemma sumZ_submseteq {A} (f : A -> Z) (l k : list A) :
  l ⊆+ k -> (forall x, x ∈ k -> 0 <= f x)%Z -> (sumZ f l <= sumZ f k)%Z.
Proof.
  intros [l' Hp]%submseteq_Permutation Hn. rewrite Hp, sumZ_app.
  pose proof (sumZ_nonneg f l' ltac:(intros x Hx; apply Hn; rewrite Hp; set_solver)). lia.
Qed.

(** Equal sums of pointwise ordered terms are pointwise equal. *)
Lemma sumZ_le_eq {A} (f g : A -> Z) (l : list A) x :
  (forall y, y ∈ l -> f y <= g y)%Z -> sumZ f l = sumZ g l -> x ∈ l -> f x = g x.
Proof.
  intros Hle Heq (l1 & l2 & ->)%list_elem_of_split. rewrite !sumZ_app, !sumZ_cons in Heq.
  pose proof (Hle x ltac:(set_solver)).
  pose proof (sumZ_le f g l1 ltac:(set_solver)). pose proof (sumZ_le f g l2 ltac:(set_solver)). lia.
Qed.

(** ** Errors

    A Go [error] is its message ([option error] is a returned [error] value,
    [None] being nil), a [(T, error)] result is a [result T]. *)
Notation error := string (only parsing).
Notation result A := (string + A)%type (only parsing).
