(* ===== verification/StateMonad.v ===== *)
(** * Computations with a state that may panic

    [stateful S A] threads a state of type [S]; [let& x := m in k] runs [m] and then
    [k].  Used by the components whose operations change one object. *)

From S2P Require Import Prelude.
From stdpp Require Import base strings.

Definition stateful (S A : Type) : Type := S -> outcome (A * S).

Section monad.
Context {S : Type}.
Implicit Types (s : S).

Definition sret {A} (a : A) : stateful S A := fun s => Done (a, s).
Definition sthen {A B} (m : stateful S A) (f : A -> stateful S B) : stateful S B :=
  fun s => match m s with Done (a, s') => f a s' | Panic why => Panic why end.
Definition slift {A} (m : outcome A) : stateful S A :=
  fun s => match m with Done a => Done (a, s) | Panic why => Panic why end.
Definition sget : stateful S S := fun s => Done (s, s).
Definition sput (s : S) : stateful S unit := fun _ => Done (tt, s).
Definition smodify (f : S -> S) : stateful S unit := fun s => Done (tt, f s).
Definition spanic {A} (why : string) : stateful S A := fun _ => Panic why.

Lemma sthen_Done {A B} (m : stateful S A) (f : A -> stateful S B) s b s' :
  sthen m f s = Done (b, s') <-> exists a s1, m s = Done (a, s1) /\ f a s1 = Done (b, s').
Proof.
  unfold sthen. split.
  - destruct (m s) as [[a s1]|]; [eauto|done].
  - intros (a & s1 & -> & E). done.
Qed.

Lemma slift_Done {A} (m : outcome A) s a s' : slift m s = Done (a, s') <-> m = Done a /\ s' = s.
Proof. unfold slift. destruct m; split; [by intros [= <- <-]|by intros [[= ->] ->]|done|by intros [? _]]. Qed.

End monad.

Notation "'let&' x := m 'in' k" := (sthen m (fun x => k))
  (at level 200, x pattern, m at level 100, k at level 200,
   format "'[v' 'let&'  x  :=  m  'in' '/' k ']'").

(** Takes the first step of a run apart. *)
Tactic Notation "step" hyp(E) "as" simple_intropattern(x) ident(s1) ident(E1) :=
  apply sthen_Done in E as (x & s1 & E1 & E).
