(* ===== verification/SafeMath.v ===== *)
(** * Checked integer arithmetic

    libs/math/safemath.go: additions, subtractions and conversions that panic
    or return an error instead of overflowing. *)

From Stdlib Require Import ZArith Lia.
From S2P Require Import Prelude.
From stdpp Require Import base option strings numbers.

Local Open Scope Z_scope.

Definition SafeAddInt32 (a b : Z) : outcome Z :=
  if (0 <? b) && (MaxInt32 - b <? a) then Panic "int32 overflow"
  else if (b <? 0) && (a <? MinInt32 - b) then Panic "int32 overflow"
  else Done (wrap32 (a + b)).

Definition SafeSubInt32 (a b : Z) : outcome Z :=
  if (0 <? b) && (a <? MinInt32 + b) then Panic "int32 overflow"
  else if (b <? 0) && (MaxInt32 + b <? a) then Panic "int32 overflow"
  else Done (wrap32 (a - b)).

Definition SafeConvertInt32 (a : Z) : outcome Z :=
  if MaxInt32 <? a then Panic "int32 overflow"
  else if a <? MinInt32 then Panic "int32 overflow"
  else Done (wrap32 a).

Definition SafeConvertUint8 (a : Z) : result Z :=
  if 255 <? a then inl "uint8 overflow"
  else if a <? 0 then inl "uint8 overflow"
  else inr (a mod 256).

Definition SafeConvertInt8 (a : Z) : result Z :=
  if 127 <? a then inl "int8 overflow"
  else if a <? -128 then inl "int8 overflow"
  else inr (wrap 8 a).

(** The exact result where it is representable, and nothing else. *)
Definition exact32 (z : Z) : outcome Z :=
  if decide (int32 z) then Done z else Panic "int32 overflow".

Lemma SafeAddInt32_exact a b : int32 a -> int32 b -> SafeAddInt32 a b = exact32 (a + b).
Proof.
  unfold SafeAddInt32, exact32, int32, MinInt32, MaxInt32. intros Ha Hb.
  repeat case_decide; destruct (Z.ltb_spec 0 b), (Z.ltb_spec b 0), (Z.ltb_spec (2 ^ 31 - 1 - b) a),
    (Z.ltb_spec a (- 2 ^ 31 - b)); simpl; try lia; try done;
    f_equal; apply wrap32_id; unfold int32, MinInt32, MaxInt32; lia.
Qed.

Lemma SafeSubInt32_exact a b : int32 a -> int32 b -> SafeSubInt32 a b = exact32 (a - b).
Proof.
  unfold SafeSubInt32, exact32, int32, MinInt32, MaxInt32. intros Ha Hb.
  repeat case_decide; destruct (Z.ltb_spec 0 b), (Z.ltb_spec b 0), (Z.ltb_spec a (- 2 ^ 31 + b)),
    (Z.ltb_spec (2 ^ 31 - 1 + b) a); simpl; try lia; try done;
    f_equal; apply wrap32_id; unfold int32, MinInt32, MaxInt32; lia.
Qed.

Lemma SafeConvertInt32_exact a : SafeConvertInt32 a = exact32 a.
Proof.
  unfold SafeConvertInt32, exact32, int32. case_decide;
    destruct (Z.ltb_spec MaxInt32 a), (Z.ltb_spec a MinInt32); try lia; try done.
  f_equal. by apply wrap32_id.
Qed.

Lemma wrap8_id a : -128 <= a <= 127 -> wrap 8 a = a.
Proof. intros Ha. unfold wrap. change (8 - 1) with 7. rewrite Z.mod_small; lia. Qed.

(** ** Claims *)

(** The checked operations return the mathematical result exactly
    when it is representable in the result type, and panic or return an error
    otherwise. *)
Theorem safemath_exact a b :
  int32 a -> int32 b ->
  SafeAddInt32 a b = exact32 (a + b) /\ SafeSubInt32 a b = exact32 (a - b) /\
  (forall n, SafeConvertInt32 n = exact32 n) /\
  (forall n, SafeConvertUint8 n = if decide (0 <= n < 256) then inr n else inl "uint8 overflow") /\
  (forall n, SafeConvertInt8 n = if decide (-128 <= n < 128) then inr n else inl "int8 overflow").
Proof.
  intros Ha Hb. split_and!.
  - by apply SafeAddInt32_exact.
  - by apply SafeSubInt32_exact.
  - apply SafeConvertInt32_exact.
  - intros n. unfold SafeConvertUint8. case_decide;
      destruct (Z.ltb_spec 255 n), (Z.ltb_spec n 0); try lia; try done. by rewrite Z.mod_small by lia.
  - intros n. unfold SafeConvertInt8. case_decide;
      destruct (Z.ltb_spec 127 n), (Z.ltb_spec n (-128)); try lia; try done. by rewrite wrap8_id by lia.
Qed.

Lemma safemath_exact_witness :
  SafeAddInt32 MaxInt32 1 = Panic "int32 overflow" /\ SafeSubInt32 MaxInt32 1 = Done (2 ^ 31 - 2).
Proof.
  destruct (safemath_exact MaxInt32 1) as (-> & -> & _); [by vm_compute|by vm_compute|].
  split; vm_compute; reflexivity.
Defined.
