(* ===== verification/Proto.v ===== *)
(** * Protocol buffer wire format

    The encoding primitives that the generated code of
    proto/tendermint/types/*.pb.go uses (varints, little-endian fixed 64-bit
    integers, length-delimited fields), and the length-prefixed writer of
    libs/protoio/writer.go.

    The generated [MarshalToSizedBuffer] methods fill a buffer from its end
    towards its start.  They are modelled by the bytes written so far, the
    suffix [dAtA[i:]] of the buffer, to which every field prepends. *)

From Stdlib Require Import ZArith Lia.
From S2P Require Import Prelude.
From stdpp Require Import base list option strings numbers.

Local Open Scope Z_scope.

(** ** Primitives *)

(** The loop of [encodeVarint*]; [fuel] bounds the number of groups, of which
    a [uint64] has at most ten. *)
Fixpoint varintLoop (fuel : nat) (v : Z) : bytes :=
  match fuel with
  | O => []
  | S fuel' =>
    if 128 <=? v then byte_of_Z (Z.lor (Z.land v 127) 128) :: varintLoop fuel' (Z.shiftr v 7)
    else [byte_of_Z v]
  end.

(** The bytes that [encodeVarint*] (and [binary.PutUvarint]) writes. *)
Definition encodeVarint (v : Z) : bytes := varintLoop 10 v.

(** [math_bits.Len64] *)
Definition Len64 (x : Z) : Z := if x <=? 0 then 0 else Z.log2 x + 1.

Definition sov (x : Z) : Z := Z.quot (Len64 (Z.lor x 1) + 6) 7.

(** A length-delimited value with its tag in front of what is already written. *)
Definition putDelimited (tag : Z) (value written : bytes) : bytes :=
  byte_of_Z tag :: encodeVarint (Z.of_nat (length value)) ++ value ++ written.

(** A varint with its tag. *)
Definition putVarint (tag v : Z) (written : bytes) : bytes :=
  byte_of_Z tag :: encodeVarint v ++ written.

(** A fixed 64-bit integer with its tag. *)
Definition putSfixed64 (tag v : Z) (written : bytes) : bytes :=
  byte_of_Z tag :: putUint64LE (wrapu64 v) ++ written.

(** The buffer of length [size] after [MarshalToSizedBuffer] has filled it
    from the end; writing past its start is out of range. *)
Definition sizedBuffer (size : Z) (written : bytes) : outcome bytes :=
  if size <? Z.of_nat (length written) then Panic "index out of range"
  else Done (replicate (Z.to_nat size - length written) Byte.x00 ++ written).

(** [Marshal]: [n] bytes were written and [dAtA[:n]] is returned. *)
Definition marshalSized (size : Z) (written : bytes) : outcome bytes :=
  let! dAtA := sizedBuffer size written in Done (take (length written) dAtA).

(** [MarshalDelimited] of a message with a [Size] method. *)
Definition marshalDelimited (size : Z) (written : bytes) : outcome bytes :=
  let! dAtA := sizedBuffer size written in Done (encodeVarint size ++ dAtA).

(** ** Their laws *)

Lemma varintLoop_length fuel v :
  0 <= v < 2 ^ (7 * Z.of_nat fuel) -> (0 < fuel)%nat ->
  Z.of_nat (length (varintLoop fuel v)) = (if v =? 0 then 1 else Z.log2 v / 7 + 1).
Proof.
  revert v. induction fuel as [|fuel IH]; intros v Hv Hf; [lia|]. cbn [varintLoop].
  destruct (Z.leb_spec 128 v) as [Hge|Hlt].
  - cbn [length]. destruct (decide (fuel = 0%nat)) as [->|Hf'].
    { change (2 ^ (7 * Z.of_nat 1)) with 128 in Hv. lia. }
    rewrite Nat2Z.inj_succ, IH; [|split|lia].
    + assert (Z.shiftr v 7 = v / 2 ^ 7) as Es by (apply Z.shiftr_div_pow2; lia).
      assert (0 < v / 2 ^ 7) by (apply Z.div_str_pos; lia).
      rewrite (proj2 (Z.eqb_neq v 0)), (proj2 (Z.eqb_neq (Z.shiftr v 7) 0)) by lia.
      rewrite Z.log2_shiftr by lia.
      assert (7 <= Z.log2 v) by (change 7 with (Z.log2 128); apply Z.log2_le_mono; lia).
      rewrite Z.max_r by lia. replace (Z.log2 v) with (Z.log2 v - 7 + 1 * 7) at 2 by lia.
      rewrite Z.div_add by lia. lia.
    + apply Z.shiftr_nonneg. lia.
    + rewrite Z.shiftr_div_pow2 by lia. apply Z.div_lt_upper_bound; [lia|].
      rewrite <- Z.pow_add_r by lia. replace (7 + 7 * Z.of_nat fuel) with (7 * Z.of_nat (S fuel)) by lia.
      apply Hv.
  - simpl length. destruct (Z.eqb_spec v 0); [done|].
    assert (Z.log2 v < 7) by (apply Z.log2_lt_pow2; lia). pose proof (Z.log2_nonneg v).
    rewrite Z.div_small by lia. done.
Qed.

Lemma encodeVarint_length v : uint64 v -> Z.of_nat (length (encodeVarint v)) = sov v.
Proof.
  intros Hv. unfold encodeVarint, sov, Len64. unfold uint64 in Hv.
  rewrite varintLoop_length; [|split; [lia|change (7 * Z.of_nat 10) with 70; lia]|lia].
  assert (0 < Z.lor v 1) as Hpos.
  { assert (0 <= Z.lor v 1) by (apply Z.lor_nonneg; lia).
    assert (Z.lor v 1 <> 0); [|lia]. intros [_ E]%Z.lor_eq_0_iff. done. }
  rewrite (proj2 (Z.leb_gt _ _)) by lia.
  rewrite Z.log2_lor, Z.max_l by (try lia; apply Z.log2_nonneg). pose proof (Z.log2_nonneg v).
  rewrite Z.quot_div_nonneg by lia. destruct (Z.eqb_spec v 0) as [->|]; [done|].
  replace (Z.log2 v + 1 + 6) with (Z.log2 v + 1 * 7) by lia. by rewrite Z.div_add by lia.
Qed.

Lemma land_127 u : Z.land u 127 = u mod 128.
Proof. change 127 with (Z.ones 7). by rewrite Z.land_ones by lia. Qed.

(** A group with the continuation bit. *)
Lemma varint_group u : byte_to_Z (byte_of_Z (Z.lor (Z.land u 127) 128)) = u mod 128 + 128.
Proof.
  rewrite land_127. pose proof (Z.mod_pos_bound u 128 ltac:(lia)).
  assert (Z.lor (u mod 128) 128 = u mod 128 + 128) as ->.
  { rewrite <- Z.lxor_lor, <- Z.add_nocarry_lxor; try done; apply Z.bits_inj'; intros k Hk;
    rewrite Z.land_spec, Z.bits_0; change 128 with (2 ^ 7); rewrite Z.pow2_bits_eqb by lia;
    destruct (Z.eqb_spec 7 k) as [<-|]; rewrite ?andb_false_r; try done;
    rewrite Z.mod_pow2_bits_high by lia; done. }
  rewrite byte_to_of_Z, Z.mod_small; lia.
Qed.

Lemma varintLoop_prefix fuel v v' r r' :
  0 <= v < 2 ^ (7 * Z.of_nat fuel) -> 0 <= v' < 2 ^ (7 * Z.of_nat fuel) ->
  varintLoop fuel v ++ r = varintLoop fuel v' ++ r' -> v = v' /\ r = r'.
Proof.
  revert v v'. induction fuel as [|fuel IH]; intros v v' Hv Hv' E; [change (2 ^ (7 * Z.of_nat 0)) with 1 in *; simpl in E; split; [lia|done]|].
  cbn [varintLoop] in E.
  assert (forall u, u / 128 < 2 ^ (7 * Z.of_nat fuel) <-> u < 2 ^ (7 * Z.of_nat (S fuel))) as Hpow.
  { intros u. replace (7 * Z.of_nat (S fuel)) with (7 + 7 * Z.of_nat fuel) by lia.
    rewrite Z.pow_add_r by lia. change (2 ^ 7) with 128. set (q := 2 ^ (7 * Z.of_nat fuel)).
    split; intros Hu; [pose proof (Z.mul_succ_div_gt u 128); nia|apply Z.div_lt_upper_bound; lia]. }
  destruct (Z.leb_spec 128 v) as [Hge|Hlt], (Z.leb_spec 128 v') as [Hge'|Hlt'];
    cbn [app] in E; injection E as E1 E2; apply (f_equal byte_to_Z) in E1.
  - rewrite !varint_group in E1. rewrite !Z.shiftr_div_pow2 in E2 by lia. change (2 ^ 7) with 128 in E2.
    apply IH in E2 as [Eq ->].
    + split; [|done]. pose proof (Z.div_mod v 128 ltac:(lia)). pose proof (Z.div_mod v' 128 ltac:(lia)). lia.
    + split; [apply Z.div_pos; lia|apply Hpow; lia].
    + split; [apply Z.div_pos; lia|apply Hpow; lia].
  - rewrite varint_group, byte_to_of_Z, (Z.mod_small v' 256) in E1 by lia. pose proof (Z.mod_pos_bound v 128 ltac:(lia)). lia.
  - rewrite varint_group, byte_to_of_Z, (Z.mod_small v 256) in E1 by lia. pose proof (Z.mod_pos_bound v' 128 ltac:(lia)). lia.
  - rewrite !byte_to_of_Z, !Z.mod_small in E1 by lia. done.
Qed.

Lemma encodeVarint_prefix v v' r r' :
  uint64 v -> uint64 v' -> encodeVarint v ++ r = encodeVarint v' ++ r' -> v = v' /\ r = r'.
Proof.
  unfold uint64. intros Hv Hv'. apply varintLoop_prefix; change (7 * Z.of_nat 10) with 70; lia.
Qed.

Lemma putUint64LE_length x : length (putUint64LE x) = 8%nat.
Proof. done. Qed.

Lemma putUint64LE_inj x y : uint64 x -> uint64 y -> putUint64LE x = putUint64LE y -> x = y.
Proof.
  unfold uint64. intros Hx Hy E. apply Z.bits_inj'. intros n Hn.
  destruct (Z.ltb_spec n 64) as [Hlt|Hge].
  - assert (putUint64LE x !! Z.to_nat (n / 8) = putUint64LE y !! Z.to_nat (n / 8)) as El by by rewrite E.
    unfold putUint64LE in El. rewrite !list_lookup_fmap in El.
    assert (n / 8 < 8) by (apply Z.div_lt_upper_bound; lia).
    assert (0 <= n / 8) by (apply Z.div_pos; lia).
    rewrite lookup_seq_lt in El by lia. simpl in El. injection El as El.
    apply (f_equal byte_to_Z) in El. rewrite !byte_to_of_Z in El.
    rewrite !Z2Nat.id in El by lia.
    apply (f_equal (fun z => Z.testbit z (n mod 8))) in El.
    pose proof (Z.mod_pos_bound n 8 ltac:(lia)).
    change 256 with (2 ^ 8) in El. rewrite !Z.mod_pow2_bits_low, !Z.shiftr_spec in El by lia.
    pose proof (Z.div_mod n 8 ltac:(lia)) as En.
    by replace (n mod 8 + 8 * (n / 8)) with n in El by lia.
  - rewrite <- (Z.mod_small x (2 ^ 64)), <- (Z.mod_small y (2 ^ 64)) by lia.
    by rewrite !Z.mod_pow2_bits_high by lia.
Qed.

Lemma wrapu64_inj64 x y : int64 x -> int64 y -> wrapu64 x = wrapu64 y -> x = y.
Proof.
  unfold int64, MinInt64, MaxInt64, wrapu64. intros Hx Hy E.
  pose proof (Z.div_mod x (2 ^ 64) ltac:(lia)). pose proof (Z.div_mod y (2 ^ 64) ltac:(lia)). lia.
Qed.

Lemma app_inv_same_length {A} (l1 l2 r1 r2 : list A) :
  length l1 = length l2 -> l1 ++ r1 = l2 ++ r2 -> l1 = l2 /\ r1 = r2.
Proof. intros Hl E. apply app_inj_1 in E; [done|done]. Qed.

Lemma cons_tail {A} (x y : A) l k : x :: l = y :: k -> l = k.
Proof. by intros [=]. Qed.

Lemma putSfixed64_inj tag v v' r r' :
  int64 v -> int64 v' -> putSfixed64 tag v r = putSfixed64 tag v' r' -> v = v' /\ r = r'.
Proof.
  intros Hv Hv' E%cons_tail. apply app_inv_same_length in E as [E ->]; [|done]. split; [|done].
  apply putUint64LE_inj in E; [by apply wrapu64_inj64|apply Z.mod_pos_bound; lia..].
Qed.

Lemma putVarint_inj tag v v' r r' :
  uint64 v -> uint64 v' -> putVarint tag v r = putVarint tag v' r' -> v = v' /\ r = r'.
Proof. intros Hv Hv' E%cons_tail. by apply encodeVarint_prefix in E. Qed.

(** Lengths of Go values fit a [uint64]. *)
Definition fits (bz : bytes) : Prop := Z.of_nat (length bz) < 2 ^ 63.

Lemma fits_uint64 bz : fits bz -> uint64 (Z.of_nat (length bz)).
Proof. unfold fits, uint64. lia. Qed.

Lemma putDelimited_inj tag v v' r r' :
  fits v -> fits v' -> putDelimited tag v r = putDelimited tag v' r' -> v = v' /\ r = r'.
Proof.
  intros Hv Hv' E%cons_tail.
  apply encodeVarint_prefix in E as [El E]; [|by apply fits_uint64..].
  apply app_inv_same_length in E as [-> ->]; [done|lia].
Qed.

(** Different tags: the two field sequences differ. *)
Lemma tag_neq (t t' : Z) (r r' : bytes) :
  0 <= t < 256 -> 0 <= t' < 256 -> t <> t' -> byte_of_Z t :: r <> byte_of_Z t' :: r'.
Proof.
  intros Ht Ht' Hne [= E%(f_equal byte_to_Z) _]. rewrite !byte_to_of_Z, !Z.mod_small in E by lia. done.
Qed.

(** A buffer of exactly the right size. *)
Lemma sizedBuffer_exact written :
  sizedBuffer (Z.of_nat (length written)) written = Done written.
Proof.
  unfold sizedBuffer. rewrite (proj2 (Z.ltb_ge _ _)) by lia.
  by rewrite Nat2Z.id, Nat.sub_diag.
Qed.

Lemma marshalSized_exact written :
  marshalSized (Z.of_nat (length written)) written = Done written.
Proof.
  unfold marshalSized. rewrite sizedBuffer_exact, bind_Done. by rewrite firstn_all.
Qed.

Lemma marshalDelimited_exact written :
  marshalDelimited (Z.of_nat (length written)) written
  = Done (encodeVarint (Z.of_nat (length written)) ++ written).
Proof. unfold marshalDelimited. by rewrite sizedBuffer_exact, bind_Done. Qed.

(** ** Lengths of the fields *)

Lemma putDelimited_length tag v w :
  fits v -> Z.of_nat (length (putDelimited tag v w))
            = 1 + Z.of_nat (length v) + sov (Z.of_nat (length v)) + Z.of_nat (length w).
Proof.
  intros Hv. unfold putDelimited. simpl length. rewrite !length_app.
  rewrite <- encodeVarint_length by by apply fits_uint64. lia.
Qed.

Lemma putVarint_length tag v w :
  uint64 v -> Z.of_nat (length (putVarint tag v w)) = 1 + sov v + Z.of_nat (length w).
Proof.
  intros Hv. unfold putVarint. simpl length. rewrite length_app, <- encodeVarint_length by done. lia.
Qed.

Lemma putSfixed64_length tag v w :
  Z.of_nat (length (putSfixed64 tag v w)) = 9 + Z.of_nat (length w).
Proof. unfold putSfixed64. simpl length. lia. Qed.
