(* ===== verification/BitArray.v ===== *)
(** * libs/bits/bit_array.go: the bit array

    A [*BitArray] is an [option BitArray]: [None] is the nil pointer the methods
    accept as a receiver.  [Elems] holds [uint64] words; the loops over words
    and bits are the source's, with every slice access an [index] that panics
    out of range.  The mutex is not modelled: each method runs under it.

    The theorems relate each operation to the bit it gives at each position
    ([bitAt]), for arrays that satisfy the invariant [BitArray_wf] that
    [NewBitArray] establishes. *)

From Stdlib Require Import ZArith Lia Ascii.
From S2P Require Import Prelude.
From stdpp Require Import base list option strings numbers.

Local Open Scope Z_scope.

Record BitArray := mkBitArray { Bits : Z; Elems : list Z }.

#[global] Instance BitArray_eq_dec : EqDecision BitArray.
Proof. solve_decision. Defined.

(** Number of 64-bit words for [bits] bits, [(bits+63)/64]. *)
Definition numWords (bits : Z) : Z := Z.quot (bits + 63) 64.

Definition NewBitArray (bits : Z) : option BitArray :=
  if bits <=? 0 then None
  else Some (mkBitArray bits (replicate (Z.to_nat (numWords bits)) 0)).

Definition BitArray_Size (bA : option BitArray) : Z :=
  match bA with None => 0 | Some b => Bits b end.

(** [uint64(1) << uint(i%64)]; the conversion of a negative remainder to
    [uint] gives a count above 64, and so the mask 0. *)
Definition bitMask (i : Z) : Z := shl64 1 (wrapu64 (Z.rem i 64)).

Definition getIndex (bA : BitArray) (i : Z) : outcome bool :=
  if Bits bA <=? i then Done false
  else let! e := index (Elems bA) (Z.quot i 64) in Done (0 <? Z.land e (bitMask i)).

Definition BitArray_GetIndex (bA : option BitArray) (i : Z) : outcome bool :=
  match bA with None => Done false | Some b => getIndex b i end.

Definition setIndex (bA : BitArray) (i : Z) (v : bool) : outcome (bool * BitArray) :=
  if Bits bA <=? i then Done (false, bA)
  else
    let! e := index (Elems bA) (Z.quot i 64) in
    let e' := if v then Z.lor e (bitMask i) else Z.land e (not64 (bitMask i)) in
    let! es := set_index (Elems bA) (Z.quot i 64) e' in
    Done (true, mkBitArray (Bits bA) es).

Definition BitArray_SetIndex (bA : option BitArray) (i : Z) (v : bool)
    : outcome (bool * option BitArray) :=
  match bA with
  | None => Done (false, None)
  | Some b => let! (r, b') := setIndex b i v in Done (r, Some b')
  end.

(** [make([]uint64, n)] *)
Definition makeWords (n : Z) : outcome (list Z) :=
  if n <? 0 then Panic "makeslice: len out of range"
  else Done (replicate (Z.to_nat n) 0).

(** [copy(dst, src)]: the first [min(len(dst), len(src))] elements. *)
Definition copySlice {A} (dst src : list A) : list A :=
  take (length dst) src ++ drop (length src) dst.

(** A deep copy: on values it is the identity. *)
Definition BitArray_Copy (bA : option BitArray) : option BitArray :=
  match bA with
  | None => None
  | Some b => Some (mkBitArray (Bits b) (copySlice (replicate (length (Elems b)) 0) (Elems b)))
  end.

Definition copyBits (bA : BitArray) (bits : Z) : outcome BitArray :=
  let! c := makeWords (numWords bits) in
  Done (mkBitArray bits (copySlice c (Elems bA))).

Definition BitArray_Or (bA o : option BitArray) : outcome (option BitArray) :=
  match bA, o with
  | None, None => Done None
  | None, Some _ => Done (BitArray_Copy o)
  | Some _, None => Done (BitArray_Copy bA)
  | Some b, Some o' =>
    let! c := copyBits b (Z.max (Bits b) (Bits o')) in
    let smaller := Nat.min (length (Elems b)) (length (Elems o')) in
    let! es := zip_update Z.lor (Elems c) (Elems o') (seq 0 smaller) in
    Done (Some (mkBitArray (Bits c) es))
  end.

Definition BitArray_And (bA o : option BitArray) : outcome (option BitArray) :=
  match bA, o with
  | Some b, Some o' =>
    let! c := copyBits b (Z.min (Bits b) (Bits o')) in
    let! es := zip_update Z.land (Elems c) (Elems o') (seq 0 (length (Elems c))) in
    Done (Some (mkBitArray (Bits c) es))
  | _, _ => Done None
  end.

Definition BitArray_Not (bA : option BitArray) : option BitArray :=
  match BitArray_Copy bA with
  | None => None
  | Some c => Some (mkBitArray (Bits c) (not64 <$> Elems c))
  end.

Definition BitArray_Sub (bA o : option BitArray) : outcome (option BitArray) :=
  match bA, o with
  | Some b, Some o' =>
    let! c := copyBits b (Bits b) in
    let smaller := Nat.min (length (Elems b)) (length (Elems o')) in
    let! es := zip_update Z.ldiff (Elems c) (Elems o') (seq 0 smaller) in
    Done (Some (mkBitArray (Bits c) es))
  | _, _ => Done None
  end.

Definition BitArray_IsEmpty (bA : option BitArray) : bool :=
  match bA with
  | None => true
  | Some b => forallb (fun e => negb (0 <? e)) (Elems b)
  end.

Definition BitArray_IsFull (bA : option BitArray) : outcome bool :=
  match bA with
  | None => Done true
  | Some b =>
    match Elems b with
    | [] => Panic "slice bounds out of range"
    | _ =>
      if forallb (fun e => not64 e =? 0) (take (length (Elems b) - 1) (Elems b)) then
        let lastElemBits := Z.rem (Bits b + 63) 64 + 1 in
        let! lastElem := index (Elems b) (Z.of_nat (length (Elems b)) - 1) in
        Done (Z.land (wrapu64 (lastElem + 1))
                     (wrapu64 (shl64 1 (wrapu64 lastElemBits) - 1)) =? 0)
      else Done false
    end
  end.

(** The loop over the bits [0..n-1] of one word: appends [curBit] for each set
    bit and advances it. *)
Definition scanWord (elem : Z) (n : nat) (st : list Z * Z) : list Z * Z :=
  foldl (fun '(acc, curBit) j =>
           (if 0 <? Z.land elem (shl64 1 (Z.of_nat j)) then acc ++ [curBit] else acc,
            curBit + 1)) st (seq 0 n).

Definition getTrueIndices (bA : BitArray) : outcome (list Z) :=
  let numElems := Z.of_nat (length (Elems bA)) in
  let '(acc, curBit) :=
    foldl (fun '(acc, curBit) elem =>
             if elem =? 0 then (acc, curBit + 64) else scanWord elem 64 (acc, curBit))
          ([], 0) (take (length (Elems bA) - 1) (Elems bA)) in
  let! lastElem := index (Elems bA) (numElems - 1) in
  Done (fst (scanWord lastElem (Z.to_nat (Bits bA - curBit)) (acc, curBit))).

(** [Intn] is [tmrand.Intn]. *)
Definition BitArray_PickRandom (Intn : Z -> Z) (bA : option BitArray) : outcome (Z * bool) :=
  match bA with
  | None => Done (0, false)
  | Some b =>
    let! trueIndices := getTrueIndices b in
    match trueIndices with
    | [] => Done (0, false)
    | _ => let! i := index trueIndices (Intn (Z.of_nat (length trueIndices))) in Done (i, true)
    end
  end.

(** [Update] copies [o]'s words into [bA]'s, in place. *)
Definition BitArray_Update (bA o : option BitArray) : option BitArray :=
  match bA, o with
  | Some b, Some o' => Some (mkBitArray (Bits b) (copySlice (Elems b) (Elems o')))
  | _, _ => bA
  end.

(** ** Encodings *)

(** Slicing [bs[lo:]]: beyond the length is a panic. *)
Definition sliceFrom (bs : bytes) (lo : nat) : outcome bytes :=
  if decide (lo <= length bs)%nat then Done (drop lo bs)
  else Panic "slice bounds out of range".

Definition BitArray_Bytes (bA : BitArray) : outcome bytes :=
  let numBytes := Z.to_nat (Z.quot (Bits bA + 7) 8) in
  foldM (fun bs i =>
           let! e := index (Elems bA) (Z.of_nat i) in
           let! tl := sliceFrom bs (i * 8) in
           Done (take (i * 8) bs ++ copySlice tl (putUint64LE e)))
        (replicate numBytes Byte.x00) (seq 0 (length (Elems bA))).

Definition BitArray_MarshalJSON (bA : option BitArray) : outcome (list ascii) :=
  match bA with
  | None => Done (String.list_ascii_of_string "null")
  | Some b =>
    let! bits := foldM (fun (bits : list ascii) (i : nat) =>
             let! x := getIndex b (Z.of_nat i) in
             Done (bits ++ [if (x : bool) then "x"%char else "_"%char]))
           [] (seq 0 (Z.to_nat (Bits b))) in
    Done ([ascii_of_nat 34] ++ bits ++ [ascii_of_nat 34])
  end.

(** The match of [bitArrayJSONRegexp], [\A"([_x]*)"\z]. *)
Definition matchBitArrayJSON (bz : list ascii) : option (list ascii) :=
  match bz with
  | q :: rest =>
    if decide (q = ascii_of_nat 34) then
      match rest !! pred (length rest) with
      | Some q' =>
        let body := take (length rest - 1) rest in
        if decide (q' = ascii_of_nat 34) then
          if forallb (fun c => bool_decide (c = "_"%char \/ c = "x"%char)) body
          then Some body else None
        else None
      | None => None
      end
    else None
  | [] => None
  end.

(** [UnmarshalJSON] on a non-nil receiver; [inl tt] is the returned error.
    [*bA = *bA2] dereferences [bA2], which [NewBitArray(0)] leaves nil. *)
Definition BitArray_UnmarshalJSON (bz : list ascii) : outcome (unit + BitArray) :=
  if decide (bz = String.list_ascii_of_string "null") then Done (inr (mkBitArray 0 []))
  else
    match matchBitArrayJSON bz with
    | None => Done (inl tt)
    | Some bits =>
      let! bA2 := foldM (fun (bA : option BitArray) (i : nat) =>
               match bits !! i with
               | Some c =>
                 if decide (c = "x"%char) then
                   let! (_, b) := BitArray_SetIndex bA (Z.of_nat i) true in Done b
                 else Done bA
               | None => Panic "index out of range"
               end)
             (NewBitArray (Z.of_nat (length bits))) (seq 0 (length bits)) in
      match bA2 with
      | Some b => Done (inr b)
      | None => Panic "invalid memory address or nil pointer dereference"
      end
    end.

(** The protobuf message [tmprotobits.BitArray]. *)
Record protoBitArray := mkProtoBitArray { pbBits : Z; pbElems : list Z }.

Definition BitArray_ToProto (bA : option BitArray) : option protoBitArray :=
  match bA with
  | None => None
  | Some b => match Elems b with [] => None | _ => Some (mkProtoBitArray (Bits b) (Elems b)) end
  end.

(** [FromProto] with a nil message only overwrites the local pointer; with a
    nil receiver and a message, the first field assignment panics. *)
Definition BitArray_FromProto (bA : option BitArray) (p : option protoBitArray)
    : outcome (option BitArray) :=
  match p with
  | None => Done bA
  | Some pb =>
    match bA with
    | None => Panic "invalid memory address or nil pointer dereference"
    | Some b =>
      Done (Some (mkBitArray (pbBits pb)
                    (match pbElems pb with [] => Elems b | es => es end)))
    end
  end.

(** ** The bit at a position *)

Definition bitAt (bA : BitArray) (i : nat) : bool :=
  Z.testbit (default 0 (Elems bA !! (i / 64)%nat)) (Z.of_nat (i mod 64)).

(** The representation invariant: a positive size, one word per 64 bits, and
    words in range. *)
Record BitArray_wf (bA : BitArray) : Prop := {
  wf_Bits : 0 < Bits bA;
  wf_len : Z.of_nat (length (Elems bA)) = numWords (Bits bA);
  wf_words : Forall uint64 (Elems bA)
}.

Lemma shl64_one k : 0 <= k < 64 -> shl64 1 k = 2 ^ k.
Proof.
  intros H. unfold shl64. rewrite (proj2 (Z.leb_gt 64 k)) by lia.
  rewrite Z.shiftl_1_l. apply wrapu64_id. unfold uint64.
  split; [lia|]. apply Z.pow_lt_mono_r; lia.
Qed.

Lemma bitMask_pow i : 0 <= i -> bitMask i = 2 ^ (i mod 64).
Proof.
  intros H. unfold bitMask. rewrite Z.rem_mod_nonneg by lia.
  pose proof (Z.mod_pos_bound i 64 ltac:(lia)).
  rewrite wrapu64_id by (unfold uint64; lia). apply shl64_one. lia.
Qed.

Lemma land_pow2_pos e k : 0 <= k -> (0 <? Z.land e (2 ^ k)) = Z.testbit e k.
Proof.
  intros Hk. assert (Z.land e (2 ^ k) = if Z.testbit e k then 2 ^ k else 0) as ->.
  { apply Z.bits_inj'. intros n Hn. rewrite Z.land_spec, Z.pow2_bits_eqb by lia.
    destruct (Z.eqb_spec k n) as [->|Hne].
    - rewrite andb_true_r. destruct (Z.testbit e n).
      + by rewrite Z.pow2_bits_true by lia.
      + by rewrite Z.bits_0.
    - rewrite andb_false_r. destruct (Z.testbit e k); [|by rewrite Z.bits_0].
      by rewrite Z.pow2_bits_false by lia. }
  destruct (Z.testbit e k); [|done].
  apply Z.ltb_lt. pose proof (Z.pow_pos_nonneg 2 k ltac:(lia) Hk). lia.
Qed.

Lemma not64_spec x n : 0 <= n < 64 -> Z.testbit (not64 x) n = negb (Z.testbit x n).
Proof.
  intros H. unfold not64. rewrite Z.lxor_spec.
  replace (2 ^ 64 - 1) with (Z.ones 64) by (rewrite Z.ones_equiv; lia).
  by rewrite Z.ones_spec_low, xorb_true_r by lia.
Qed.

Lemma uint64_lt_pow x : uint64 x <-> (0 <= x /\ forall n, 64 <= n -> Z.testbit x n = false).
Proof.
  unfold uint64. split.
  - intros [H1 H2]. split; [done|]. intros n Hn.
    destruct (decide (x = 0)) as [->|Hx]; [apply Z.bits_0|].
    apply Z.bits_above_log2; [done|]. apply Z.log2_lt_pow2; [lia|].
    eapply Z.lt_le_trans; [done|]. by apply Z.pow_le_mono_r.
  - intros [H1 H2]. split; [done|].
    destruct (decide (x = 0)) as [->|Hx]; [lia|].
    apply Z.log2_lt_pow2; [lia|]. destruct (Z.le_gt_cases 64 (Z.log2 x)) as [Hle|]; [|done].
    pose proof (Z.bit_log2 x ltac:(lia)) as Hb. by rewrite H2 in Hb by done.
Qed.

Lemma uint64_binop (f : Z -> Z -> Z) (g : bool -> bool -> bool) a b :
  (forall x y n, Z.testbit (f x y) n = g (Z.testbit x n) (Z.testbit y n)) ->
  g false false = false -> (forall x y, 0 <= x -> 0 <= y -> 0 <= f x y) ->
  uint64 a -> uint64 b -> uint64 (f a b).
Proof.
  intros Hf Hg Hp [Ha Ha']%uint64_lt_pow [Hb Hb']%uint64_lt_pow.
  apply uint64_lt_pow. split; [auto|]. intros n Hn. by rewrite Hf, Ha', Hb'.
Qed.

Lemma uint64_not64 x : uint64 x -> uint64 (not64 x).
Proof.
  unfold not64. intros H. apply (uint64_binop _ xorb); auto using Z.lxor_spec.
  - intros. by apply Z.lxor_nonneg.
  - unfold uint64. lia.
Qed.

Lemma uint64_pow k : 0 <= k < 64 -> uint64 (2 ^ k).
Proof. intros. unfold uint64. split; [lia|]. apply Z.pow_lt_mono_r; lia. Qed.

Lemma uint64_lor a b : uint64 a -> uint64 b -> uint64 (Z.lor a b).
Proof.
  apply (uint64_binop _ orb); auto using Z.lor_spec. intros. by apply Z.lor_nonneg.
Qed.

Lemma uint64_land a b : uint64 a -> uint64 b -> uint64 (Z.land a b).
Proof.
  apply (uint64_binop _ andb); auto using Z.land_spec. intros. apply Z.land_nonneg. auto.
Qed.

Lemma uint64_ldiff a b : uint64 a -> uint64 b -> uint64 (Z.ldiff a b).
Proof.
  apply (uint64_binop _ (fun x y => x && negb y)); auto using Z.ldiff_spec.
  intros. apply Z.ldiff_nonneg. auto.
Qed.

Create HintDb bits.
#[export] Hint Resolve uint64_not64 uint64_pow uint64_lor uint64_land uint64_ldiff : bits.

Section index.
Context (bA : BitArray) (WF : BitArray_wf bA).

Lemma numWords_bound i : 0 <= i < Bits bA -> i / 64 < Z.of_nat (length (Elems bA)).
Proof.
  intros H. rewrite (wf_len _ WF). unfold numWords.
  rewrite Z.quot_div_nonneg by lia.
  apply Z.div_lt_upper_bound; [lia|].
  pose proof (Z.mul_succ_div_gt (Bits bA + 63) 64 ltac:(lia)). lia.
Qed.

Lemma word_lookup i :
  0 <= i < Bits bA -> exists e, Elems bA !! (Z.to_nat i / 64)%nat = Some e /\ uint64 e
    /\ index (Elems bA) (Z.quot i 64) = Done e.
Proof.
  intros H. pose proof (numWords_bound i H) as Hb.
  destruct (lookup_lt_is_Some_2 (Elems bA) (Z.to_nat i / 64)%nat) as [e He].
  { apply Nat2Z.inj_lt. rewrite Nat2Z.inj_div, Z2Nat.id by lia. done. }
  exists e. split; [done|]. split.
  - pose proof (wf_words _ WF) as Hf. rewrite Forall_lookup in Hf. by eapply Hf.
  - apply index_Done. rewrite Z.quot_div_nonneg by lia. split; [apply Z.div_pos; lia|].
    rewrite Z2Nat.inj_div by lia. done.
Qed.

Lemma getIndex_bitAt i : 0 <= i < Bits bA -> getIndex bA i = Done (bitAt bA (Z.to_nat i)).
Proof.
  intros H. unfold getIndex. rewrite (proj2 (Z.leb_gt _ _)) by lia.
  destruct (word_lookup i H) as (e & He & _ & ->). simpl.
  rewrite bitMask_pow by lia. rewrite land_pow2_pos by (apply Z.mod_pos_bound; lia).
  unfold bitAt. rewrite He. simpl. do 2 f_equal.
  rewrite Nat2Z.inj_mod, Z2Nat.id by lia. done.
Qed.

Lemma bitAt_insert es i j x :
  (i < length es)%nat -> es = Elems bA ->
  bitAt (mkBitArray (Bits bA) (<[i:=x]> es)) j =
  if decide (j / 64 = i)%nat then Z.testbit x (Z.of_nat (j mod 64)) else bitAt bA j.
Proof.
  intros Hlt ->. unfold bitAt. simpl. case_decide as E.
  - subst i. by rewrite list_lookup_insert_eq.
  - by rewrite list_lookup_insert_ne by done.
Qed.

(** Writing bit [i] writes that bit and no other, and keeps the invariant. *)
Lemma setIndex_spec i v :
  0 <= i < Bits bA ->
  exists bA', setIndex bA i v = Done (true, bA') /\ BitArray_wf bA' /\
    Bits bA' = Bits bA /\
    forall j, bitAt bA' j = if decide (j = Z.to_nat i) then v else bitAt bA j.
Proof.
  intros H. unfold setIndex. rewrite (proj2 (Z.leb_gt _ _)) by lia.
  destruct (word_lookup i H) as (e & He & Hu & Hidx). rewrite Hidx. simpl.
  apply lookup_lt_Some in He as Hlt.
  unfold set_index. rewrite decide_True; cycle 1.
  { rewrite Z.quot_div_nonneg by lia. split; [apply Z.div_pos; lia|]. by apply numWords_bound. }
  simpl. eexists; split; [done|].
  rewrite bitMask_pow by lia.
  pose proof (Z.mod_pos_bound i 64 ltac:(lia)) as Hmod.
  replace (Z.to_nat (Z.quot i 64)) with (Z.to_nat i / 64)%nat
    by (rewrite Z.quot_div_nonneg, Z2Nat.inj_div by lia; done).
  split; [|split; [done|]].
  - destruct WF as [W1 W2 W3]. split; simpl; [done|by rewrite length_insert|].
    apply Forall_insert; [done|]. destruct v; eauto with bits.
  - intros j. rewrite bitAt_insert by done.
    assert (Z.of_nat (Z.to_nat i mod 64) = i mod 64) as Him
      by (rewrite Nat2Z.inj_mod, Z2Nat.id by lia; done).
    case_decide as Ej; [|rewrite decide_False; [done|congruence]].
    assert (bitAt bA j = Z.testbit e (Z.of_nat (j mod 64))) as Hbj
      by (unfold bitAt; by rewrite Ej, He).
    assert (0 <= Z.of_nat (j mod 64) < 64) as Hj
      by (pose proof (Nat.mod_upper_bound j 64 ltac:(lia)); lia).
    case_decide as Eji.
    + subst j. rewrite Him. destruct v.
      * rewrite Z.lor_spec, Z.pow2_bits_true by lia. apply orb_true_r.
      * rewrite Z.land_spec, not64_spec, Z.pow2_bits_true by lia. apply andb_false_r.
    + assert (i mod 64 <> Z.of_nat (j mod 64)) as Hne.
      { rewrite <- Him. intros E%Nat2Z.inj. apply Eji.
        rewrite (Nat.div_mod_eq j 64), (Nat.div_mod_eq (Z.to_nat i) 64). lia. }
      rewrite Hbj. destruct v.
      * rewrite Z.lor_spec, Z.pow2_bits_false by lia. apply orb_false_r.
      * rewrite Z.land_spec, not64_spec, Z.pow2_bits_false by lia. apply andb_true_r.
Qed.

End index.

Lemma numWords_nonneg b : 0 < b -> 0 <= numWords b.
Proof. intros. unfold numWords. apply Z.quot_pos; lia. Qed.

Lemma numWords_mono a b : 0 < a -> a <= b -> numWords a <= numWords b.
Proof. intros. unfold numWords. rewrite !Z.quot_div_nonneg by lia. apply Z.div_le_mono; lia. Qed.

(** A fresh array satisfies the invariant and has every bit clear. *)
Lemma NewBitArray_spec bits :
  0 < bits -> exists bA, NewBitArray bits = Some bA /\ BitArray_wf bA /\ Bits bA = bits
    /\ forall i, bitAt bA i = false.
Proof.
  intros H. unfold NewBitArray. rewrite (proj2 (Z.leb_gt bits 0)) by lia.
  eexists; split; [done|]. split; [|split; [done|]].
  - split; simpl; [done| |].
    + rewrite length_replicate, Z2Nat.id; [done|]. by apply numWords_nonneg.
    + apply Forall_replicate. unfold uint64; lia.
  - intros i. unfold bitAt. simpl.
    destruct (replicate _ _ !! _) as [x|] eqn:E; simpl; [|apply Z.bits_0].
    apply lookup_replicate in E as [-> _]. apply Z.bits_0.
Qed.

(** ** Word-wise operations *)

Lemma copySlice_length {A} (d s : list A) : length (copySlice d s) = length d.
Proof. unfold copySlice. rewrite length_app, length_take, length_drop. lia. Qed.

Lemma copySlice_lookup {A} (d s : list A) i :
  (i < length d)%nat ->
  copySlice d s !! i = match s !! i with Some x => Some x | None => d !! i end.
Proof.
  intros H. unfold copySlice. destruct (s !! i) as [x|] eqn:E.
  - apply lookup_lt_Some in E as Hlt.
    rewrite lookup_app_l by (rewrite length_take; lia).
    by rewrite lookup_take_lt by lia.
  - apply lookup_ge_None in E.
    rewrite lookup_app_r by (rewrite length_take; lia).
    rewrite length_take, lookup_drop. f_equal. lia.
Qed.

Lemma copySlice_full {A} (d s : list A) : length d = length s -> copySlice d s = s.
Proof.
  intros H. unfold copySlice. rewrite H, firstn_all, drop_ge by lia. apply app_nil_r.
Qed.

Lemma BitArray_Copy_id bA : BitArray_Copy bA = bA.
Proof.
  destruct bA as [[b es]|]; [|done]. simpl.
  by rewrite copySlice_full by apply length_replicate.
Qed.

(** The word at a position, 0 past the end. *)
Definition word (bA : BitArray) (j : nat) : Z := default 0 (Elems bA !! j).

Lemma bitAt_word bA i : bitAt bA i = Z.testbit (word bA (i / 64)) (Z.of_nat (i mod 64)).
Proof. done. Qed.

Lemma word_range bA j : BitArray_wf bA -> uint64 (word bA j).
Proof.
  intros WF. unfold word. destruct (Elems bA !! j) eqn:E; simpl.
  - pose proof (wf_words _ WF) as Hf. rewrite Forall_lookup in Hf. by eapply Hf.
  - unfold uint64; lia.
Qed.

Lemma word_past bA j : (length (Elems bA) <= j)%nat -> word bA j = 0.
Proof. intros H. unfold word. by rewrite (proj2 (lookup_ge_None _ _) H). Qed.

Lemma copyBits_spec bA bits :
  0 < bits -> exists c, copyBits bA bits = Done c /\ Bits c = bits /\
    Z.of_nat (length (Elems c)) = numWords bits /\
    forall j, word c j = if decide (j < length (Elems c))%nat then word bA j else 0.
Proof.
  intros H. pose proof (numWords_nonneg bits H) as Hn.
  unfold copyBits, makeWords. rewrite (proj2 (Z.ltb_ge _ _)) by done. simpl.
  eexists; split; [done|]. simpl. rewrite copySlice_length, length_replicate.
  split; [done|]. split; [lia|]. intros j. case_decide as Hj.
  - unfold word; simpl. rewrite copySlice_lookup by (rewrite length_replicate; lia).
    destruct (Elems bA !! j); simpl; [done|].
    by rewrite lookup_replicate_2 by lia.
  - apply word_past. simpl. rewrite copySlice_length, length_replicate. lia.
Qed.

Section wordwise.
Context (f : Z -> Z -> Z).

(** A loop that combines the first [n] words of [c] with those of [o]. *)
Lemma zip_words (c o : BitArray) n :
  (n <= length (Elems c))%nat -> (n <= length (Elems o))%nat ->
  exists es, zip_update f (Elems c) (Elems o) (seq 0 n) = Done es /\
    length es = length (Elems c) /\
    forall j, word (mkBitArray (Bits c) es) j =
      if decide (j < n)%nat then f (word c j) (word o j) else word c j.
Proof.
  intros H1 H2. destruct (zip_update_spec f (Elems c) (Elems o) n H1 H2)
    as (es & -> & Hlen & Hl).
  exists es. split; [done|]. split; [done|]. intros j. unfold word. simpl. rewrite Hl.
  case_decide; [|done].
  destruct (lookup_lt_is_Some_2 (Elems c) j ltac:(lia)) as [x ->].
  destruct (lookup_lt_is_Some_2 (Elems o) j ltac:(lia)) as [y ->]. done.
Qed.
End wordwise.

Lemma words_wf bits es :
  0 < bits -> Z.of_nat (length es) = numWords bits ->
  (forall j, uint64 (word (mkBitArray bits es) j)) -> BitArray_wf (mkBitArray bits es).
Proof.
  intros H1 H2 H3. split; simpl; [done|done|].
  apply Forall_lookup. intros j x Hx. specialize (H3 j). unfold word in H3.
  simpl in H3. by rewrite Hx in H3.
Qed.

Lemma numWords_max a b : 0 < a -> 0 < b -> numWords (Z.max a b) = Z.max (numWords a) (numWords b).
Proof.
  intros. pose proof (numWords_mono a b). pose proof (numWords_mono b a).
  destruct (Z.max_spec a b) as [[? ->]|[? ->]]; lia.
Qed.

Lemma numWords_min a b : 0 < a -> 0 < b -> numWords (Z.min a b) = Z.min (numWords a) (numWords b).
Proof.
  intros. pose proof (numWords_mono a b). pose proof (numWords_mono b a).
  destruct (Z.min_spec a b) as [[? ->]|[? ->]]; lia.
Qed.

Section binops.
Context (a b : BitArray) (WFa : BitArray_wf a) (WFb : BitArray_wf b).

(** The loop of [Or] stops at the shorter of the two word slices: words of [b]
    past the end of [a] are not merged. *)
Lemma BitArray_Or_spec :
  exists c, BitArray_Or (Some a) (Some b) = Done (Some c) /\ BitArray_wf c /\
    Bits c = Z.max (Bits a) (Bits b) /\
    forall i, bitAt c i =
      bitAt a i || (bool_decide (i / 64 < length (Elems a))%nat && bitAt b i).
Proof.
  destruct WFa as [Wa1 Wa2 Wa3], WFb as [Wb1 Wb2 Wb3].
  destruct (copyBits_spec a (Z.max (Bits a) (Bits b)) ltac:(lia)) as (c & Hc & HB & Hl & Hw).
  rewrite numWords_max in Hl by done.
  destruct (zip_words Z.lor c b (Nat.min (length (Elems a)) (length (Elems b))))
    as (es & Hes & Hlen & Hwz); [lia|lia|].
  unfold BitArray_Or. rewrite Hc. simpl. rewrite Hes. simpl.
  assert (forall j, word (mkBitArray (Bits c) es) j =
    Z.lor (word a j) (if bool_decide (j < length (Elems a))%nat then word b j else 0)) as Hword.
  { intros j. rewrite Hwz, Hw. case_bool_decide as E1; repeat case_decide; try lia; try done.
    - by rewrite (word_past b), Z.lor_0_r by lia.
    - by rewrite Z.lor_0_r.
    - by rewrite (word_past a) by lia. }
  eexists; split; [done|]. split; [|split; [by simpl|]].
  - apply words_wf; [lia| |].
    + rewrite Hlen, HB, numWords_max by done. done.
    + intros j. rewrite Hword. case_bool_decide; auto using word_range with bits.
      apply uint64_lor; [by apply word_range|]. unfold uint64; lia.
  - intros i. rewrite !bitAt_word, Hword, Z.lor_spec.
    case_bool_decide; simpl; [done|]. by rewrite Z.bits_0.
Qed.

Lemma BitArray_And_spec :
  exists c, BitArray_And (Some a) (Some b) = Done (Some c) /\ BitArray_wf c /\
    Bits c = Z.min (Bits a) (Bits b) /\ forall i, bitAt c i = bitAt a i && bitAt b i.
Proof.
  destruct WFa as [Wa1 Wa2 Wa3], WFb as [Wb1 Wb2 Wb3].
  destruct (copyBits_spec a (Z.min (Bits a) (Bits b)) ltac:(lia)) as (c & Hc & HB & Hl & Hw).
  rewrite numWords_min in Hl by done.
  destruct (zip_words Z.land c b (length (Elems c))) as (es & Hes & Hlen & Hwz); [lia|lia|].
  unfold BitArray_And. rewrite Hc. simpl. rewrite Hes. simpl.
  assert (forall j, word (mkBitArray (Bits c) es) j = Z.land (word a j) (word b j)) as Hword.
  { intros j. rewrite Hwz, Hw. case_decide; [done|].
    destruct (decide (length (Elems a) <= j)%nat).
    - by rewrite (word_past a) by done.
    - by rewrite (word_past b), Z.land_0_r by lia. }
  eexists; split; [done|]. split; [|split; [by simpl|]].
  - apply words_wf; [lia| |].
    + rewrite Hlen, HB, numWords_min by done. done.
    + intros j. rewrite Hword. auto using word_range with bits.
  - intros i. rewrite !bitAt_word, Hword. apply Z.land_spec.
Qed.

Lemma BitArray_Sub_spec :
  exists c, BitArray_Sub (Some a) (Some b) = Done (Some c) /\ BitArray_wf c /\
    Bits c = Bits a /\ forall i, bitAt c i = bitAt a i && negb (bitAt b i).
Proof.
  destruct WFa as [Wa1 Wa2 Wa3].
  destruct (copyBits_spec a (Bits a) ltac:(lia)) as (c & Hc & HB & Hl & Hw).
  destruct (zip_words Z.ldiff c b (Nat.min (length (Elems a)) (length (Elems b))))
    as (es & Hes & Hlen & Hwz); [lia|lia|].
  unfold BitArray_Sub. rewrite Hc. simpl. rewrite Hes. simpl.
  assert (forall j, word (mkBitArray (Bits c) es) j = Z.ldiff (word a j) (word b j)) as Hword.
  { intros j. rewrite Hwz, Hw. repeat case_decide; try lia; try done.
    - by rewrite (word_past b), Z.ldiff_0_r by lia.
    - by rewrite (word_past a), Z.ldiff_0_l by lia. }
  eexists; split; [done|]. split; [|split; [by simpl|]].
  - apply words_wf; [lia| |].
    + by rewrite Hlen, HB.
    + intros j. rewrite Hword. auto using word_range with bits.
  - intros i. rewrite !bitAt_word, Hword. apply Z.ldiff_spec.
Qed.

Lemma BitArray_Not_spec :
  exists c, BitArray_Not (Some a) = Some c /\ BitArray_wf c /\ Bits c = Bits a /\
    forall i, (i / 64 < length (Elems a))%nat -> bitAt c i = negb (bitAt a i).
Proof.
  unfold BitArray_Not. rewrite BitArray_Copy_id. eexists; split; [done|].
  destruct WFa as [Wa1 Wa2 Wa3]. split; [|split; [done|]].
  - split; simpl; [done|by rewrite length_fmap|].
    apply Forall_fmap. eapply Forall_impl; [|exact Wa3]. exact uint64_not64.
  - intros i Hi. unfold bitAt. simpl. rewrite list_lookup_fmap.
    destruct (lookup_lt_is_Some_2 _ _ Hi) as [x ->]. simpl.
    apply not64_spec. pose proof (Nat.mod_upper_bound i 64 ltac:(lia)). lia.
Qed.

End binops.

(** ** Enumerating the set bits *)

Section trueIndices.
Context (bA : BitArray).

(** The positions of the set bits below [n], in increasing order. *)
Definition trueBelow (lo n : nat) : list Z :=
  Z.of_nat <$> filter (fun i => bitAt bA i = true) (seq lo n).

Lemma scanWord_spec e lo n acc :
  (n <= 64)%nat ->
  (forall j, (j < n)%nat -> Z.testbit e (Z.of_nat j) = bitAt bA (lo + j)) ->
  scanWord e n (acc, Z.of_nat lo) = (acc ++ trueBelow lo n, Z.of_nat (lo + n)).
Proof.
  intros Hn Hbit. unfold scanWord, trueBelow. induction n as [|n IH].
  - simpl. by rewrite app_nil_r, Nat.add_0_r.
  - rewrite !seq_S, foldl_app, IH by (try lia; intros; apply Hbit; lia). simpl.
    rewrite list.filter_app, fmap_app.
    rewrite shl64_one, land_pow2_pos, Hbit by lia.
    rewrite filter_cons, filter_nil. f_equal; [|lia].
    destruct (bitAt bA (lo + n)); simpl.
    + by rewrite (assoc_L (++)).
    + by rewrite app_nil_r.
Qed.

Lemma bitAt_add k j e :
  Elems bA !! k = Some e -> (j < 64)%nat ->
  Z.testbit e (Z.of_nat j) = bitAt bA (64 * k + j).
Proof.
  intros He Hj. unfold bitAt.
  replace ((64 * k + j) / 64)%nat with k
    by (rewrite Nat.mul_comm, Nat.div_add_l, Nat.div_small by lia; lia).
  rewrite He. change (default 0 (Some e)) with e.
  by rewrite Nat.mul_comm, Nat.add_comm, Nat.Div0.mod_add, Nat.mod_small by lia.
Qed.

Lemma trueBelow_app m n : trueBelow 0 (m + n) = trueBelow 0 m ++ trueBelow m n.
Proof. unfold trueBelow. by rewrite seq_app, list.filter_app, fmap_app. Qed.

Lemma trueBelow_zero k : Elems bA !! k = Some 0 -> trueBelow (64 * k) 64 = [].
Proof.
  intros H. unfold trueBelow.
  rewrite filter_none; [done|]. intros x (i & Hi)%list_elem_of_lookup.
  apply lookup_seq in Hi as [-> Hi].
  rewrite <- (bitAt_add k i 0) by done. by rewrite Z.bits_0.
Qed.

Lemma words_scan k :
  (k <= length (Elems bA))%nat ->
  foldl (fun '(acc, curBit) elem =>
           if elem =? 0 then (acc, curBit + 64) else scanWord elem 64 (acc, curBit))
        ([], 0) (take k (Elems bA))
  = (trueBelow 0 (64 * k), Z.of_nat (64 * k)).
Proof.
  induction k as [|k IH]; intros Hk; [done|].
  destruct (lookup_lt_is_Some_2 (Elems bA) k ltac:(lia)) as [e He].
  rewrite (take_S_r _ _ _ He), foldl_app, IH by lia. cbn [foldl].
  replace (64 * S k)%nat with (64 * k + 64)%nat by lia. rewrite trueBelow_app.
  destruct (Z.eqb_spec e 0) as [->|_].
  - rewrite trueBelow_zero, app_nil_r by done. f_equal. lia.
  - rewrite (scanWord_spec e (64 * k) 64); [done|lia|].
    intros j Hj. by apply bitAt_add.
Qed.

(** [getTrueIndices] lists exactly the set positions below [Bits], in order. *)
Lemma getTrueIndices_spec :
  BitArray_wf bA -> getTrueIndices bA = Done (trueBelow 0 (Z.to_nat (Bits bA))).
Proof.
  intros [W1 W2 W3]. unfold getTrueIndices. rewrite words_scan by lia.
  unfold numWords in W2. rewrite Z.quot_div_nonneg in W2 by lia.
  assert (0 < (Bits bA + 63) / 64) as Hpos by (apply Z.div_str_pos; lia).
  pose proof (Z.mul_succ_div_gt (Bits bA + 63) 64 ltac:(lia)) as Hub.
  pose proof (Z.mul_div_le (Bits bA + 63) 64 ltac:(lia)) as Hlb.
  destruct (lookup_lt_is_Some_2 (Elems bA) (length (Elems bA) - 1)%nat ltac:(lia)) as [e He].
  replace (Z.of_nat (length (Elems bA)) - 1) with (Z.of_nat (length (Elems bA) - 1)) by lia.
  rewrite (index_nat _ _ _ He), bind_Done.
  set (k := (length (Elems bA) - 1)%nat) in *.
  rewrite (scanWord_spec e (64 * k)).
  - cbn [fst]. rewrite <- trueBelow_app. do 2 f_equal. lia.
  - lia.
  - intros j Hj. apply bitAt_add; [done|lia].
Qed.

End trueIndices.

(** ** Emptiness and fullness *)

Lemma word_full e : uint64 e -> (not64 e =? 0) = forallb (fun j => Z.testbit e (Z.of_nat j)) (seq 0 64).
Proof.
  intros Hu. apply eq_true_iff_eq. rewrite Z.eqb_eq, forallb_forall. split.
  - intros H j Hj%in_seq. apply (f_equal (fun z => Z.testbit z (Z.of_nat j))) in H.
    rewrite not64_spec, Z.bits_0 in H by lia. by apply negb_false_iff.
  - intros H. apply Z.bits_inj'. intros n Hn. rewrite Z.bits_0.
    destruct (Z.lt_ge_cases n 64).
    + rewrite not64_spec by lia. apply negb_false_iff.
      rewrite <- (Z2Nat.id n) by lia. apply H. apply in_seq. lia.
    + apply uint64_not64, uint64_lt_pow in Hu as [_ Hu]. auto.
Qed.

Lemma low_bits_full e n :
  uint64 e -> 0 < n <= 64 ->
  (Z.land (wrapu64 (e + 1)) (wrapu64 (shl64 1 (wrapu64 n) - 1)) =? 0)
  = forallb (fun j => Z.testbit e (Z.of_nat j)) (seq 0 (Z.to_nat n)).
Proof.
  intros Hu Hn. assert (wrapu64 (shl64 1 (wrapu64 n) - 1) = Z.ones n) as ->.
  { rewrite (wrapu64_id n) by (unfold uint64; lia). rewrite Z.ones_equiv.
    destruct (decide (n = 64)) as [->|]; [done|]. rewrite shl64_one by lia.
    rewrite wrapu64_id; [lia|]. pose proof (uint64_pow n ltac:(lia)).
    pose proof (Z.pow_pos_nonneg 2 n). unfold uint64 in *. lia. }
  rewrite Z.land_ones by lia. unfold wrapu64.
  rewrite <- Znumtheory.Zmod_div_mod;
    [|lia|lia|exists (2 ^ (64 - n)); rewrite <- Z.pow_add_r by lia; f_equal; lia].
  pose proof (Z.pow_pos_nonneg 2 n ltac:(lia) ltac:(lia)) as Hpos.
  pose proof (Z.mod_pos_bound e (2 ^ n) Hpos) as Hb.
  assert ((e + 1) mod 2 ^ n = 0 <-> e mod 2 ^ n = Z.ones n) as Hiff.
  { rewrite Z.ones_equiv, <- Z.add_mod_idemp_l by lia. split; intros H.
    - destruct (Z.eq_dec (e mod 2 ^ n + 1) (2 ^ n)); [lia|].
      rewrite Z.mod_small in H by lia. lia.
    - rewrite H. replace (Z.pred (2 ^ n) + 1) with (2 ^ n) by lia. apply Z.mod_same. lia. }
  apply eq_true_iff_eq. rewrite Z.eqb_eq, forallb_forall, Hiff. clear Hiff Hb. split.
  - intros H j Hj%in_seq. rewrite <- (Z.mod_pow2_bits_low e n) by lia.
    rewrite H. apply Z.ones_spec_low. lia.
  - intros H. apply Z.bits_inj'. intros k Hk. destruct (Z.lt_ge_cases k n).
    + rewrite Z.mod_pow2_bits_low, Z.ones_spec_low by lia.
      rewrite <- (Z2Nat.id k) by lia. apply H. apply in_seq. lia.
    + by rewrite Z.mod_pow2_bits_high, Z.ones_spec_high by lia.
Qed.

Lemma forallb_seq_app P m n :
  forallb P (seq 0 (m + n)) = forallb P (seq 0 m) && forallb (fun j => P (m + j)%nat) (seq 0 n).
Proof.
  rewrite seq_app, forallb_app. f_equal. rewrite Nat.add_0_l.
  transitivity (forallb P (Nat.add m <$> seq 0 n)).
  - by rewrite fmap_add_seq, Nat.add_0_r.
  - induction (seq 0 n) as [|x l IH]; simpl; [done|]. f_equal. exact IH.
Qed.

Lemma words_full bA k :
  BitArray_wf bA -> (k <= length (Elems bA))%nat ->
  forallb (fun e => not64 e =? 0) (take k (Elems bA)) = forallb (bitAt bA) (seq 0 (64 * k)).
Proof.
  intros WF. induction k as [|k IH]; intros Hk; [done|].
  destruct (lookup_lt_is_Some_2 (Elems bA) k ltac:(lia)) as [e He].
  rewrite (take_S_r _ _ _ He), forallb_app, IH by lia.
  replace (64 * S k)%nat with (64 * k + 64)%nat by lia. rewrite forallb_seq_app. f_equal.
  cbn [forallb]. rewrite andb_true_r, word_full; cycle 1.
  { pose proof (wf_words _ WF) as Hf. rewrite list.Forall_lookup in Hf. by eapply Hf. }
  apply eq_true_iff_eq. rewrite !forallb_forall.
  split; intros H j Hj; pose proof Hj as [? ?]%in_seq; specialize (H j Hj);
    by rewrite (bitAt_add bA k j e He) in * by lia.
Qed.

(** [IsFull] holds exactly when every bit below [Bits] is set. *)
Lemma BitArray_IsFull_spec bA :
  BitArray_wf bA ->
  BitArray_IsFull (Some bA) = Done (forallb (bitAt bA) (seq 0 (Z.to_nat (Bits bA)))).
Proof.
  intros WF. pose proof WF as [W1 W2 W3]. unfold BitArray_IsFull.
  pose proof W2 as W2'. unfold numWords in W2'. rewrite Z.quot_div_nonneg in W2' by lia.
  pose proof (Z.div_mod (Bits bA + 63) 64 ltac:(lia)) as Hdm.
  pose proof (Z.mod_pos_bound (Bits bA + 63) 64 ltac:(lia)) as Hmb.
  assert (0 < (Bits bA + 63) / 64) as Hpos by (apply Z.div_str_pos; lia).
  destruct (lookup_lt_is_Some_2 (Elems bA) (length (Elems bA) - 1)%nat ltac:(lia)) as [e He].
  assert (uint64 e) as Hu by (rewrite list.Forall_lookup in W3; by eapply W3).
  replace (Z.of_nat (length (Elems bA)) - 1) with (Z.of_nat (length (Elems bA) - 1)) by lia.
  rewrite (index_nat _ _ _ He), bind_Done, words_full by (done || lia).
  rewrite Z.rem_mod_nonneg by lia. rewrite low_bits_full by (done || lia).
  set (k := (length (Elems bA) - 1)%nat) in *.
  set (n := Z.to_nat ((Bits bA + 63) mod 64 + 1)).
  replace (Z.to_nat (Bits bA)) with (64 * k + n)%nat by lia. rewrite forallb_seq_app.
  replace (forallb (fun j => bitAt bA (64 * k + j)) (seq 0 n))
    with (forallb (fun j => Z.testbit e (Z.of_nat j)) (seq 0 n)); cycle 1.
  { apply eq_true_iff_eq. rewrite !forallb_forall.
    split; intros H j Hj; pose proof Hj as [? ?]%in_seq; specialize (H j Hj);
      by rewrite (bitAt_add bA k j e He) in * by lia. }
  destruct (Elems bA); [simpl in *; lia|].
  by destruct (forallb (bitAt bA) (seq 0 (64 * k))).
Qed.

(** [IsEmpty] holds exactly when no bit of any word is set, the padding bits
    of the last word included. *)
Lemma BitArray_IsEmpty_spec bA :
  BitArray_wf bA ->
  BitArray_IsEmpty (Some bA) = true <-> forall i, bitAt bA i = false.
Proof.
  intros WF. simpl. rewrite forallb_forall. split.
  - intros H i. rewrite bitAt_word. unfold word.
    destruct (Elems bA !! (i / 64)%nat) as [e|] eqn:E; simpl; [|apply Z.bits_0].
    assert (e = 0) as ->; [|apply Z.bits_0].
    pose proof (wf_words _ WF) as Hf. rewrite list.Forall_lookup in Hf.
    specialize (Hf _ _ E). unfold uint64 in Hf.
    apply list_elem_of_lookup_2, list_elem_of_In, H in E.
    apply negb_true_iff, Z.ltb_ge in E. lia.
  - intros H e (k & Hk)%list_elem_of_In%list_elem_of_lookup.
    assert (e = 0) as ->; [|done]. apply Z.bits_inj'. intros n Hn. rewrite Z.bits_0.
    pose proof (wf_words _ WF) as Hf. rewrite list.Forall_lookup in Hf. specialize (Hf _ _ Hk).
    destruct (Z.lt_ge_cases n 64).
    + rewrite <- (Z2Nat.id n) by lia. rewrite (bitAt_add bA k) by (done || lia). apply H.
    + apply uint64_lt_pow in Hf as [_ Hf]. auto.
Qed.

(** ** JSON *)

Definition quoteChar : ascii := ascii_of_nat 34.
Definition bitChar (b : bool) : ascii := if b then "x"%char else "_"%char.

Lemma MarshalJSON_eq bA :
  BitArray_wf bA ->
  BitArray_MarshalJSON (Some bA) =
  Done ([quoteChar] ++ (bitChar ∘ bitAt bA <$> seq 0 (Z.to_nat (Bits bA))) ++ [quoteChar]).
Proof.
  intros WF. unfold BitArray_MarshalJSON.
  destruct (foldM_inv (fun k bits => bits = bitChar ∘ bitAt bA <$> seq 0 k)
    (fun (bits : list ascii) (i : nat) =>
       let! x := getIndex bA (Z.of_nat i) in
       Done (bits ++ [if (x : bool) then "x"%char else "_"%char]))
    [] (seq 0 (Z.to_nat (Bits bA)))) as (bits & -> & Hb); [done| |].
  - intros k i s Hk ->. apply lookup_seq in Hk as [-> Hk].
    rewrite getIndex_bitAt by (done || lia). rewrite bind_Done, Nat2Z.id.
    eexists; split; [done|]. by rewrite seq_S, fmap_app.
  - rewrite bind_Done. by rewrite length_seq in Hb; subst bits.
Qed.

Lemma match_quoted body :
  (forall c, c ∈ body -> c = "_"%char \/ c = "x"%char) ->
  matchBitArrayJSON ([quoteChar] ++ body ++ [quoteChar]) = Some body.
Proof.
  intros H. unfold matchBitArrayJSON. cbn [app]. rewrite decide_True by done.
  rewrite length_app. cbn [length]. rewrite lookup_app_r by lia.
  replace (pred (length body + 1) - length body)%nat with 0%nat by lia. cbn [lookup list_lookup].
  rewrite decide_True by done.
  replace (length body + 1 - 1)%nat with (length body) by lia. rewrite take_app_length.
  rewrite (proj2 (forallb_forall _ _)); [done|].
  intros c Hc%list_elem_of_In. apply bool_decide_eq_true_2. auto.
Qed.

(** Setting the marked positions of a fresh array. *)
Lemma setMarked_spec (bits : list ascii) bA :
  BitArray_wf bA -> Bits bA = Z.of_nat (length bits) -> (forall i, bitAt bA i = false) ->
  exists b, foldM (fun (bA : option BitArray) (i : nat) =>
      match bits !! i with
      | Some c => if decide (c = "x"%char) then
          let! (_, b) := BitArray_SetIndex bA (Z.of_nat i) true in Done b else Done bA
      | None => Panic "index out of range"
      end) (Some bA) (seq 0 (length bits)) = Done (Some b) /\
    BitArray_wf b /\ Bits b = Bits bA /\
    forall i, bitAt b i = bool_decide (bits !! i = Some "x"%char).
Proof.
  intros WF HB Hf.
  destruct (foldM_inv (fun k (s : option BitArray) => exists b, s = Some b /\ BitArray_wf b /\
      Bits b = Bits bA /\
      forall i, bitAt b i = (bool_decide (i < k)%nat && bool_decide (bits !! i = Some "x"%char)))
    (fun (bA : option BitArray) (i : nat) =>
      match bits !! i with
      | Some c => if decide (c = "x"%char) then
          let! (_, b) := BitArray_SetIndex bA (Z.of_nat i) true in Done b else Done bA
      | None => Panic "index out of range"
      end) (Some bA) (seq 0 (length bits))) as (s & -> & b & -> & Hb1 & Hb2 & Hb3).
  - exists bA. split; [done|]. split; [done|]. split; [done|]. intros i. by rewrite Hf.
  - intros k i s Hk (b & -> & Hb1 & Hb2 & Hb3). apply lookup_seq in Hk as [-> Hk].
    destruct (lookup_lt_is_Some_2 bits k Hk) as [c Hc]. simpl Nat.add. rewrite Hc.
    assert (forall i, (i < S k)%nat <-> (i < k)%nat \/ i = k) as Hlt by (intros; lia).
    case_decide as Ec.
    + destruct (setIndex_spec b Hb1 (Z.of_nat k) true) as (b' & Hs & W' & B' & bit'); [lia|].
      simpl. rewrite Hs, !bind_Done. eexists; split; [done|]. exists b'.
      split; [done|]. split; [done|]. split; [by rewrite B'|]. intros i. rewrite bit', Nat2Z.id.
      case_decide as Ei.
      * subst. rewrite !bool_decide_eq_true_2; auto; congruence.
      * rewrite Hb3. f_equal. apply bool_decide_ext. rewrite Hlt. naive_solver.
    + eexists; split; [done|]. exists b. split; [done|]. split; [done|]. split; [done|].
      intros i. rewrite Hb3. destruct (decide (i = k)) as [->|Hne].
      * rewrite !(bool_decide_eq_false_2 (bits !! k = _)) by congruence.
        by rewrite !andb_false_r.
      * f_equal. apply bool_decide_ext. rewrite Hlt. naive_solver.
  - exists b. split; [done|]. split; [done|]. split; [done|]. intros i. rewrite Hb3, length_seq.
    case_bool_decide as E1; [done|]. simpl. symmetry. apply bool_decide_eq_false_2.
    intros E. apply lookup_lt_Some in E. lia.
Qed.

(** [UnmarshalJSON] of [MarshalJSON] gives back the size and every bit. *)
Lemma BitArray_JSON_roundtrip bA :
  BitArray_wf bA ->
  exists js b, BitArray_MarshalJSON (Some bA) = Done js /\
    BitArray_UnmarshalJSON js = Done (inr b) /\ BitArray_wf b /\ Bits b = Bits bA /\
    forall i, Z.of_nat i < Bits bA -> bitAt b i = bitAt bA i.
Proof.
  intros WF. rewrite MarshalJSON_eq by done.
  set (body := bitChar ∘ bitAt bA <$> seq 0 (Z.to_nat (Bits bA))).
  eexists; unfold BitArray_UnmarshalJSON. pose proof (wf_Bits _ WF) as HB.
  assert (Z.of_nat (length body) = Bits bA) as Hlen
    by (unfold body; rewrite length_fmap, length_seq; lia).
  destruct (NewBitArray_spec (Bits bA) HB) as (b0 & H0 & W0 & B0 & F0).
  destruct (setMarked_spec body b0 W0 ltac:(lia) F0) as (b & Hb & Wb & Bb & bitb).
  exists b. split; [done|]. rewrite decide_False by done. rewrite match_quoted; cycle 1.
  { intros c (i & Hi)%list_elem_of_lookup. unfold body in Hi.
    apply list_lookup_fmap_Some in Hi as (j & -> & _). simpl. unfold bitChar.
    destruct (bitAt bA j); auto. }
  rewrite Hlen, H0, Hb, bind_Done. split; [done|]. split; [done|]. split; [lia|].
  intros i Hi. rewrite bitb. unfold body. rewrite list_lookup_fmap, lookup_seq_lt by lia.
  simpl. unfold bitChar. by destruct (bitAt bA i).
Qed.

Lemma trueBelow_elem bA n i : i ∈ trueBelow bA 0 n <-> 0 <= i < Z.of_nat n /\ bitAt bA (Z.to_nat i) = true.
Proof.
  unfold trueBelow. rewrite list_elem_of_fmap. split.
  - intros (j & -> & [Hj Hs]%list_elem_of_filter). apply elem_of_seq in Hs. rewrite Nat2Z.id.
    split; [lia|done].
  - intros [Hi Hb]. exists (Z.to_nat i). split; [lia|]. apply list_elem_of_filter.
    split; [done|]. apply elem_of_seq. lia.
Qed.

Lemma PickRandom_spec bA Intn :
  BitArray_wf bA -> (forall n, 0 < n -> 0 <= Intn n < n) ->
  exists i ok, BitArray_PickRandom Intn (Some bA) = Done (i, ok) /\
     (ok = true -> 0 <= i < Bits bA /\ bitAt bA (Z.to_nat i) = true) /\
     (ok = false -> forall i, 0 <= i < Bits bA -> bitAt bA (Z.to_nat i) = false).
Proof.
  intros WF HI. simpl. rewrite getTrueIndices_spec, bind_Done by done.
  pose proof (trueBelow_elem bA (Z.to_nat (Bits bA))) as Hel.
  rewrite Z2Nat.id in Hel by (destruct WF; lia).
  destruct (trueBelow bA 0 (Z.to_nat (Bits bA))) as [|t ts].
  - exists 0, false. split_and!; [done..|]. intros _ i Hi.
    destruct (bitAt bA (Z.to_nat i)) eqn:E; [|done].
    exfalso. by apply (not_elem_of_nil i), Hel.
  - set (l := t :: ts) in *. specialize (HI (Z.of_nat (length l)) ltac:(simpl; lia)).
    destruct (lookup_lt_is_Some_2 l (Z.to_nat (Intn (Z.of_nat (length l))))) as [x Hx]; [lia|].
    exists x, true. split_and!; [|intros _|done].
    + rewrite (proj2 (index_Done l _ x)) by (split; [lia|done]). done.
    + by apply Hel, (list_elem_of_lookup_2 _ _ _ Hx).
Qed.

Lemma IsFull_iff bA :
  BitArray_wf bA -> exists f, BitArray_IsFull (Some bA) = Done f /\
     (f = true <-> forall i, 0 <= i < Bits bA -> bitAt bA (Z.to_nat i) = true).
Proof.
  intros WF. rewrite BitArray_IsFull_spec by done. eexists; split; [done|].
  rewrite forallb_forall. split.
  - intros H i Hi. apply H, in_seq. lia.
  - intros H i Hi%in_seq. rewrite <- (Nat2Z.id i). apply H. lia.
Qed.

(** ** Claims *)

(** ** Bit arrays that mirror a list of slots *)

Section slots.
Context {A : Type}.

Definition hasVote (votes : list (option A)) (i : nat) : bool :=
  match votes !! i with Some (Some _) => true | _ => false end.

Definition bits_ok (bA : option BitArray) (votes : list (option A)) : Prop :=
  match bA with
  | None => votes = []
  | Some b => BitArray_wf b /\ Bits b = Z.of_nat (length votes) /\
              forall i, (i < length votes)%nat -> bitAt b i = hasVote votes i
  end.

Lemma bits_ok_new n : bits_ok (NewBitArray (Z.of_nat n)) (replicate n None).
Proof.
  destruct n as [|n]; [done|].
  destruct (NewBitArray_spec (Z.of_nat (S n))) as (b & -> & WF & HB & Hbit); [lia|]. split_and!; [done|by rewrite length_replicate|].
  intros i Hi. rewrite Hbit. unfold hasVote. rewrite length_replicate in Hi.
  by rewrite lookup_replicate_2 by done.
Qed.

Lemma hasVote_insert votes i v j :
  (i < length votes)%nat ->
  hasVote (<[i := Some v]> votes) j = if decide (j = i) then true else hasVote votes j.
Proof.
  intros Hi. unfold hasVote. case_decide as E.
  - subst. by rewrite list_lookup_insert_eq.
  - by rewrite list_lookup_insert_ne.
Qed.

Lemma bits_ok_set bA votes i v :
  bits_ok bA votes -> (i < length votes)%nat ->
  exists bA', BitArray_SetIndex bA (Z.of_nat i) true = Done (true, bA') /\
              bits_ok bA' (<[i := Some v]> votes).
Proof.
  intros Hok Hi. destruct bA as [b|]; [|simpl in Hok; subst; simpl in Hi; lia].
  destruct Hok as (WF & HB & Hbit).
  destruct (setIndex_spec b WF (Z.of_nat i) true) as (b' & E & WF' & HB' & Hbit'); [lia|].
  exists (Some b'). simpl. rewrite E, bind_Done. split; [done|]. split_and!; [done| |].
  - by rewrite length_insert, HB'.
  - intros j Hj. rewrite length_insert in Hj. rewrite Hbit', hasVote_insert, Nat2Z.id by done.
    case_decide; [done|]. by apply Hbit.
Qed.

Lemma hasVote_true (votes : list (option A)) i : hasVote votes i = true <-> exists v, votes !! i = Some (Some v).
Proof. unfold hasVote. destruct (votes !! i) as [[v|]|]; naive_solver. Qed.

End slots.

(** The set operations on bit arrays never panic and are the
    bitwise operations on sizes max/min/left/left.  [Or] is the exception its
    comment does not mention: a bit of the right operand that lies past the
    words of the left one is dropped. *)
Theorem BitArray_algebra a b :
  BitArray_wf a -> BitArray_wf b ->
  (exists c, BitArray_Or (Some a) (Some b) = Done (Some c) /\ BitArray_wf c /\
     Bits c = Z.max (Bits a) (Bits b) /\
     forall i, bitAt c i = bitAt a i || (bool_decide (i / 64 < length (Elems a))%nat && bitAt b i)) /\
  (exists c, BitArray_And (Some a) (Some b) = Done (Some c) /\ BitArray_wf c /\
     Bits c = Z.min (Bits a) (Bits b) /\ forall i, bitAt c i = bitAt a i && bitAt b i) /\
  (exists c, BitArray_Sub (Some a) (Some b) = Done (Some c) /\ BitArray_wf c /\
     Bits c = Bits a /\ forall i, bitAt c i = bitAt a i && negb (bitAt b i)) /\
  (exists c, BitArray_Not (Some a) = Some c /\ BitArray_wf c /\ Bits c = Bits a /\
     forall i, (i / 64 < length (Elems a))%nat -> bitAt c i = negb (bitAt a i)).
Proof.
  intros WFa WFb. split_and!; [by apply BitArray_Or_spec|by apply BitArray_And_spec
    |by apply BitArray_Sub_spec|by apply BitArray_Not_spec].
Qed.

Definition exampleBits (bits : Z) (es : list Z) : BitArray := mkBitArray bits es.

Lemma exampleBits_wf5 : BitArray_wf (exampleBits 5 [19]).
Proof. split; [done|done|]. repeat constructor; by vm_compute. Qed.

Lemma exampleBits_wf70 : BitArray_wf (exampleBits 70 [6; 33]).
Proof. split; [done|done|]. repeat constructor; by vm_compute. Qed.

(** Bit 64 of the right operand is set and is lost. *)
Lemma BitArray_algebra_witness :
  exists c, BitArray_Or (Some (exampleBits 5 [19])) (Some (exampleBits 70 [6; 33])) = Done (Some c) /\
            bitAt (exampleBits 70 [6; 33]) 64 = true /\ bitAt c 64 = false.
Proof.
  destruct (BitArray_algebra _ _ exampleBits_wf5 exampleBits_wf70) as [(c & Hc & _ & _ & Hi) _].
  exists c. split; [exact Hc|]. split; [reflexivity|]. rewrite Hi. reflexivity.
Defined.

(** Point access, enumeration and the fullness test agree
    with the bits of the array: [SetIndex] changes exactly the given bit and
    refuses an index past the end, [GetIndex] reads it, [IsFull] holds exactly
    when all bits below the size are set, and [PickRandom] returns a set bit
    whenever there is one. *)
Theorem BitArray_queries bA (Intn : Z -> Z) :
  BitArray_wf bA -> (forall n, 0 < n -> 0 <= Intn n < n) ->
  (forall i, 0 <= i < Bits bA ->
     BitArray_GetIndex (Some bA) i = Done (bitAt bA (Z.to_nat i))) /\
  (forall i v, 0 <= i < Bits bA -> exists bA',
     BitArray_SetIndex (Some bA) i v = Done (true, Some bA') /\ BitArray_wf bA' /\
     Bits bA' = Bits bA /\
     forall j, bitAt bA' j = if decide (j = Z.to_nat i) then v else bitAt bA j) /\
  (forall i v, Bits bA <= i ->
     BitArray_GetIndex (Some bA) i = Done false /\
     BitArray_SetIndex (Some bA) i v = Done (false, Some bA)) /\
  (exists f, BitArray_IsFull (Some bA) = Done f /\
     (f = true <-> forall i, 0 <= i < Bits bA -> bitAt bA (Z.to_nat i) = true)) /\
  (exists i ok, BitArray_PickRandom Intn (Some bA) = Done (i, ok) /\
     (ok = true -> 0 <= i < Bits bA /\ bitAt bA (Z.to_nat i) = true) /\
     (ok = false -> forall i, 0 <= i < Bits bA -> bitAt bA (Z.to_nat i) = false)).
Proof.
  intros WF HI. split_and!.
  - intros i Hi. by apply getIndex_bitAt.
  - intros i v Hi. destruct (setIndex_spec bA WF i v Hi) as (bA' & E & ?).
    exists bA'. simpl. by rewrite E.
  - intros i v Hi. simpl. unfold getIndex, setIndex. by rewrite (proj2 (Z.leb_le _ _)).
  - by apply IsFull_iff.
  - by apply PickRandom_spec.
Qed.

Lemma BitArray_queries_witness :
  exists i ok, BitArray_PickRandom (fun n => n - 1) (Some (exampleBits 5 [19])) = Done (i, ok) /\
     (ok = true -> 0 <= i < 5 /\ bitAt (exampleBits 5 [19]) (Z.to_nat i) = true) /\
     (ok = false -> forall i, 0 <= i < 5 -> bitAt (exampleBits 5 [19]) (Z.to_nat i) = false).
Proof.
  apply (BitArray_queries (exampleBits 5 [19]) (fun n => n - 1) exampleBits_wf5).
  intros n Hn. lia.
Defined.

(** The JSON form of a bit array reads back as an array of the
    same size with the same bits. *)
Theorem BitArray_JSON_correct bA :
  BitArray_wf bA ->
  exists js b, BitArray_MarshalJSON (Some bA) = Done js /\
    BitArray_UnmarshalJSON js = Done (inr b) /\ BitArray_wf b /\ Bits b = Bits bA /\
    forall i, Z.of_nat i < Bits bA -> bitAt b i = bitAt bA i.
Proof. apply BitArray_JSON_roundtrip. Qed.

Lemma BitArray_JSON_correct_witness :
  exists js b, BitArray_MarshalJSON (Some (exampleBits 5 [19])) = Done js /\
    BitArray_UnmarshalJSON js = Done (inr b) /\ BitArray_wf b /\ Bits b = 5 /\
    forall i, Z.of_nat i < 5 -> bitAt b i = bitAt (exampleBits 5 [19]) i.
Proof. apply (BitArray_JSON_correct (exampleBits 5 [19]) exampleBits_wf5). Defined.
