(* ===== verification/Validator.v ===== *)
(** * types/validator.go and crypto/crypto.go

    A public key is a value of one of the three key types of crypto/; the
    signature check and the address derivation call code outside the
    repository and are the operations of the interface [Crypto].

    A [*Validator] that is never nil is a [Validator]; one that may be nil is
    an [option Validator]. *)

From Stdlib Require Import ZArith Lia.
From S2P Require Import Prelude.
From stdpp Require Import base list option strings numbers.

Local Open Scope Z_scope.

(** crypto.PubKey: the implementations of crypto/ed25519, crypto/secp256k1 and
    crypto/sr25519, each a byte string. *)
Inductive PubKey :=
  | PubKeyEd25519 (key : bytes)
  | PubKeySecp256k1 (key : bytes)
  | PubKeySr25519 (key : bytes).

#[global] Instance PubKey_eq_dec : EqDecision PubKey.
Proof. solve_decision. Defined.

Class Crypto := {
  (** [PubKey.Address] *)
  pkAddress : PubKey -> bytes;
  (** [PubKey.VerifyBytes msg sig] *)
  pkVerifyBytes : PubKey -> bytes -> bytes -> bool
}.

Definition AddressSize : Z := 20.

Record Validator := mkValidator {
  Address : bytes;
  vPubKey : option PubKey;
  VotingPower : Z;
  ProposerPriority : Z
}.

#[global] Instance Validator_eq_dec : EqDecision Validator.
Proof. solve_decision. Defined.

Definition NewValidator `{Crypto} (pubKey : PubKey) (votingPower : Z) : Validator :=
  mkValidator (pkAddress pubKey) (Some pubKey) votingPower 0.

Definition Validator_ValidateBasic (v : option Validator) : option error :=
  match v with
  | None => Some "nil validator"
  | Some v =>
    if bool_decide (vPubKey v = None) then Some "validator does not have a public key"
    else if VotingPower v <? 0 then Some "validator has negative voting power"
    else if negb (Z.of_nat (length (Address v)) =? AddressSize)
      then Some "validator address is the wrong size"
    else None
  end.

(** Assignment to the [ProposerPriority] field. *)
Definition setPriority (p : Z) (v : Validator) : Validator :=
  mkValidator (Address v) (vPubKey v) (VotingPower v) p.

(** The comparison of [CompareProposerPriority] on two non-nil validators:
    [true] when it returns the receiver. *)
Definition keepsReceiver (v other : Validator) : outcome bool :=
  if ProposerPriority other <? ProposerPriority v then Done true
  else if ProposerPriority v <? ProposerPriority other then Done false
  else match bytes_compare (Address v) (Address other) with
       | Lt => Done true
       | Gt => Done false
       | Eq => Panic "Cannot compare identical validators"
       end.

Definition CompareProposerPriority (v : option Validator) (other : Validator)
    : outcome Validator :=
  match v with
  | None => Done other
  | Some v => let! k := keepsReceiver v other in Done (if (k : bool) then v else other)
  end.

(** ** Clipping arithmetic (end of types/validator_set.go) *)

Definition safeAdd (a b : Z) : Z * bool :=
  if (0 <? b) && (wrap64 (MaxInt64 - b) <? a) then (-1, true)
  else if (b <? 0) && (a <? wrap64 (MinInt64 - b)) then (-1, true)
  else (wrap64 (a + b), false).

Definition safeSub (a b : Z) : Z * bool :=
  if (0 <? b) && (a <? wrap64 (MinInt64 + b)) then (-1, true)
  else if (b <? 0) && (wrap64 (MaxInt64 + b) <? a) then (-1, true)
  else (wrap64 (a - b), false).

Definition safeAddClip (a b : Z) : Z :=
  let '(c, overflow) := safeAdd a b in
  if (overflow : bool) then (if b <? 0 then MinInt64 else MaxInt64) else c.

Definition safeSubClip (a b : Z) : Z :=
  let '(c, overflow) := safeSub a b in
  if (overflow : bool) then (if 0 <? b then MinInt64 else MaxInt64) else c.

Definition safeMul (a b : Z) : Z * bool :=
  if (a =? 0) || (b =? 0) then (0, false)
  else
    let absOfB := if b <? 0 then wrap64 (- b) else b in
    let absOfA := if a <? 0 then wrap64 (- a) else a in
    if Z.quot MaxInt64 absOfB <? absOfA then (0, true)
    else (wrap64 (a * b), false).

(** The clipped operations are saturation at the ends of [int64]. *)
Definition clip64 (z : Z) : Z := Z.max MinInt64 (Z.min MaxInt64 z).

Lemma clip64_id z : int64 z -> clip64 z = z.
Proof. unfold clip64. int_lia. Qed.

Lemma clip64_range z : int64 (clip64 z).
Proof. unfold clip64. int_lia. Qed.

Lemma safeAdd_spec a b :
  int64 a -> int64 b ->
  safeAdd a b = if bool_decide (int64 (a + b)) then (a + b, false) else (-1, true).
Proof.
  intros Ha Hb. unfold safeAdd.
  destruct (Z.ltb_spec 0 b); simpl.
  - rewrite (wrap64_id (MaxInt64 - b)) by int_lia.
    destruct (Z.ltb_spec (MaxInt64 - b) a); simpl.
    + rewrite bool_decide_eq_false_2; [done|]. int_lia.
    + rewrite (proj2 (Z.ltb_ge b 0)) by lia. simpl.
      rewrite bool_decide_eq_true_2, wrap64_id; [done|int_lia|int_lia].
  - destruct (Z.ltb_spec b 0); simpl.
    + rewrite (wrap64_id (MinInt64 - b)) by int_lia.
      destruct (Z.ltb_spec a (MinInt64 - b)); simpl.
      * rewrite bool_decide_eq_false_2; [done|]. int_lia.
      * rewrite bool_decide_eq_true_2, wrap64_id; [done|int_lia|int_lia].
    + rewrite bool_decide_eq_true_2, wrap64_id; [done|int_lia|int_lia].
Qed.

Lemma safeSub_spec a b :
  int64 a -> int64 b ->
  safeSub a b = if bool_decide (int64 (a - b)) then (a - b, false) else (-1, true).
Proof.
  intros Ha Hb. unfold safeSub.
  destruct (Z.ltb_spec 0 b); simpl.
  - rewrite (wrap64_id (MinInt64 + b)) by int_lia.
    destruct (Z.ltb_spec a (MinInt64 + b)); simpl.
    + rewrite bool_decide_eq_false_2; [done|]. int_lia.
    + rewrite (proj2 (Z.ltb_ge b 0)) by lia. simpl.
      rewrite bool_decide_eq_true_2, wrap64_id; [done|int_lia|int_lia].
  - destruct (Z.ltb_spec b 0); simpl.
    + rewrite (wrap64_id (MaxInt64 + b)) by int_lia.
      destruct (Z.ltb_spec (MaxInt64 + b) a); simpl.
      * rewrite bool_decide_eq_false_2; [done|]. int_lia.
      * rewrite bool_decide_eq_true_2, wrap64_id; [done|int_lia|int_lia].
    + rewrite bool_decide_eq_true_2, wrap64_id; [done|int_lia|int_lia].
Qed.

Lemma safeAddClip_spec a b : int64 a -> int64 b -> safeAddClip a b = clip64 (a + b).
Proof.
  intros Ha Hb. unfold safeAddClip. rewrite safeAdd_spec by done.
  case_bool_decide as E; simpl; [by rewrite clip64_id|].
  unfold clip64. destruct (Z.ltb_spec b 0); int_lia.
Qed.

Lemma safeSubClip_spec a b : int64 a -> int64 b -> safeSubClip a b = clip64 (a - b).
Proof.
  intros Ha Hb. unfold safeSubClip. rewrite safeSub_spec by done.
  case_bool_decide as E; simpl; [by rewrite clip64_id|].
  unfold clip64. destruct (Z.ltb_spec 0 b); int_lia.
Qed.

(** [safeMul] reports an overflow exactly when the product's magnitude exceeds
    [MaxInt64]; [MinInt64] itself is excluded as an operand, its magnitude not
    being an [int64]. *)
Lemma safeMul_spec a b :
  int64 a -> int64 b -> a <> MinInt64 -> b <> MinInt64 ->
  safeMul a b = if bool_decide (Z.abs (a * b) <= MaxInt64) then (a * b, false) else (0, true).
Proof.
  intros Ha Hb Hna Hnb. unfold safeMul.
  destruct (Z.eqb_spec a 0) as [->|Ha0]; [done|].
  destruct (Z.eqb_spec b 0) as [->|Hb0]; simpl; [by rewrite Z.mul_0_r|].
  assert ((if b <? 0 then wrap64 (- b) else b) = Z.abs b) as ->
    by (destruct (Z.ltb_spec b 0); rewrite ?wrap64_id; int_lia).
  assert ((if a <? 0 then wrap64 (- a) else a) = Z.abs a) as ->
    by (destruct (Z.ltb_spec a 0); rewrite ?wrap64_id; int_lia).
  rewrite Z.quot_div_nonneg by int_lia. rewrite Z.abs_mul.
  destruct (Z.ltb_spec (MaxInt64 / Z.abs b) (Z.abs a)) as [H|H].
  - rewrite bool_decide_eq_false_2; [done|].
    pose proof (Z.mul_succ_div_gt MaxInt64 (Z.abs b) ltac:(lia)). nia.
  - pose proof (Z.mul_div_le MaxInt64 (Z.abs b) ltac:(lia)).
    assert (Z.abs a * Z.abs b <= MaxInt64) as Hle by nia.
    rewrite bool_decide_eq_true_2 by done. rewrite wrap64_id; [done|].
    rewrite <- Z.abs_mul in Hle. int_lia.
Qed.
