(* ===== verification/ValidatorSet.v ===== *)
(** * types/validator_set.go: the validator set and proposer selection

    [ValidatorSet] is the struct: the validators, the proposer and the cached
    total.  The methods that mutate the receiver return the new set; those
    that can panic return an [outcome].

    [Validators] is a slice of pointers and [Proposer] may point to one of its
    elements.  The only field written through a pointer is
    [ProposerPriority], on elements of [Validators]; the set's [Proposer] is
    therefore modelled by the value it had when it was assigned, and its
    address, key and power are those of the pointed-to validator ever after.
    Its priority is not read by any definition or theorem here. *)

From Stdlib Require Import ZArith Lia.
From S2P Require Import Prelude Validator.
From stdpp Require Import base gmap list option strings numbers sorting.

Local Open Scope Z_scope.

Definition MaxTotalVotingPower : Z := Z.quot MaxInt64 8.
Definition PriorityWindowSizeFactor : Z := 2.
Definition ErrTotalVotingPowerOverflow : error :=
  "total voting power of resulting valset exceeds max".

Record ValidatorSet := mkValidatorSet {
  Validators : list Validator;
  Proposer : option Validator;
  totalVotingPower : Z
}.

Definition setValidators (vs : list Validator) (vals : ValidatorSet) : ValidatorSet :=
  mkValidatorSet vs (Proposer vals) (totalVotingPower vals).
Definition setProposer (p : option Validator) (vals : ValidatorSet) : ValidatorSet :=
  mkValidatorSet (Validators vals) p (totalVotingPower vals).
Definition setTotalVotingPower (t : Z) (vals : ValidatorSet) : ValidatorSet :=
  mkValidatorSet (Validators vals) (Proposer vals) t.

Definition IsNilOrEmpty (vals : option ValidatorSet) : bool :=
  match vals with None => true | Some v => bool_decide (Validators v = []) end.

Definition ValidatorSet_ValidateBasic (vals : option ValidatorSet) : option error :=
  match vals with
  | None => Some "validator set is nil or empty"
  | Some v =>
    if IsNilOrEmpty vals then Some "validator set is nil or empty"
    else match list_find (fun x => Validator_ValidateBasic (Some x) <> None) (Validators v) with
         | Some _ => Some "invalid validator"
         | None =>
           match Validator_ValidateBasic (Proposer v) with
           | Some _ => Some "proposer failed validate basic"
           | None => None
           end
         end
  end.

(** A deep copy of the list, and so the identity on values. *)
Definition validatorListCopy (valsList : list Validator) : list Validator :=
  (fun v => mkValidator (Address v) (vPubKey v) (VotingPower v) (ProposerPriority v)) <$> valsList.

Definition ValidatorSet_Copy (vals : ValidatorSet) : ValidatorSet :=
  mkValidatorSet (validatorListCopy (Validators vals)) (Proposer vals) (totalVotingPower vals).

(** ** Lookups *)

Definition HasAddress (vals : ValidatorSet) (address : bytes) : bool :=
  existsb (fun v => bool_decide (Address v = address)) (Validators vals).

Definition GetByAddress (vals : ValidatorSet) (address : bytes) : Z * option Validator :=
  match list_find (fun v => Address v = address) (Validators vals) with
  | Some (idx, v) => (wrap32 (Z.of_nat idx), Some v)
  | None => (-1, None)
  end.

Definition GetByIndex (vals : ValidatorSet) (i : Z) : option (bytes * Validator) :=
  if (i <? 0) || (Z.of_nat (length (Validators vals)) <=? i) then None
  else v ← Validators vals !! Z.to_nat i; Some (Address v, v).

Definition ValidatorSet_Size (vals : ValidatorSet) : Z := Z.of_nat (length (Validators vals)).

(** ** Total voting power *)

Definition updateTotalVotingPower (vals : ValidatorSet) : outcome ValidatorSet :=
  let! sum := foldM (fun sum val =>
          let sum := safeAddClip sum (VotingPower val) in
          if MaxTotalVotingPower <? sum
          then Panic "Total voting power should be guarded to not exceed"
          else Done sum) 0 (Validators vals) in
  Done (setTotalVotingPower sum vals).

Definition TotalVotingPower (vals : ValidatorSet) : outcome (Z * ValidatorSet) :=
  let! vals' := (if totalVotingPower vals =? 0 then updateTotalVotingPower vals else Done vals) in
  Done (totalVotingPower vals', vals').

(** ** Proposer priorities *)

Definition computeMaxMinPriorityDiff (vals : ValidatorSet) : outcome Z :=
  if IsNilOrEmpty (Some vals) then Panic "empty validator set"
  else
    let '(max, min) :=
      foldl (fun '(max, min) v =>
               let min := if ProposerPriority v <? min then ProposerPriority v else min in
               let max := if max <? ProposerPriority v then ProposerPriority v else max in
               (max, min)) (MinInt64, MaxInt64) (Validators vals) in
    let diff := wrap64 (max - min) in
    Done (if diff <? 0 then wrap64 (-1 * diff) else diff).

(** Division of [int64]s. *)
Definition div64 (a b : Z) : outcome Z :=
  if b =? 0 then Panic "integer divide by zero" else Done (wrap64 (Z.quot a b)).

Definition RescalePriorities (diffMax : Z) (vals : ValidatorSet) : outcome ValidatorSet :=
  if IsNilOrEmpty (Some vals) then Panic "empty validator set"
  else if diffMax <=? 0 then Done vals
  else
    let! diff := computeMaxMinPriorityDiff vals in
    let! ratio := div64 (wrap64 (wrap64 (diff + diffMax) - 1)) diffMax in
    if diffMax <? diff then
      let! vs := foldM (fun acc val =>
             let! p := div64 (ProposerPriority val) ratio in Done (acc ++ [setPriority p val]))
           [] (Validators vals) in
      Done (setValidators vs vals)
    else Done vals.

(** The loop of [getValWithMostPriority], keeping the position of the pointer
    it returns. *)
Definition mostPriority (vs : list Validator) : outcome (option (nat * Validator)) :=
  foldM (fun res (iv : nat * Validator) =>
           match res with
           | None => Done (Some iv)
           | Some r => let! k := keepsReceiver (snd r) (snd iv) in Done (if (k : bool) then res else Some iv)
           end) None (zip (seq 0 (length vs)) vs).

Definition getValWithMostPriority (vals : ValidatorSet) : outcome (option Validator) :=
  let! r := mostPriority (Validators vals) in Done (snd <$> r).

(** One step of the proposer selection: every priority grows by the
    validator's power, and the one with the highest priority pays the total. *)
Definition incrementProposerPriority (vals : ValidatorSet) : outcome (Validator * ValidatorSet) :=
  let vs := (fun v => setPriority (safeAddClip (ProposerPriority v) (VotingPower v)) v)
              <$> Validators vals in
  let! most := mostPriority vs in
  match most with
  | None => Panic "invalid memory address or nil pointer dereference"
  | Some (i, mostest) =>
    let! (total, vals) := TotalVotingPower (setValidators vs vals) in
    let mostest' := setPriority (safeSubClip (ProposerPriority mostest) total) mostest in
    Done (mostest', setValidators (<[i := mostest']> vs) vals)
  end.

Definition computeAvgProposerPriority (vals : ValidatorSet) : outcome Z :=
  let n := Z.of_nat (length (Validators vals)) in
  if n =? 0 then Panic "division by zero"
  else
    let avg := sumZ ProposerPriority (Validators vals) / n in
    if bool_decide (int64 avg) then Done avg
    else Panic "Cannot represent avg ProposerPriority as an int64".

Definition shiftByAvgProposerPriority (vals : ValidatorSet) : outcome ValidatorSet :=
  if IsNilOrEmpty (Some vals) then Panic "empty validator set"
  else
    let! avg := computeAvgProposerPriority vals in
    Done (setValidators
            ((fun v => setPriority (safeSubClip (ProposerPriority v) avg) v) <$> Validators vals)
            vals).

(** The loop that calls [incrementProposerPriority] [n] times and keeps the
    last proposer. *)
Fixpoint incrementTimes (n : nat) (proposer : option Validator) (vals : ValidatorSet)
    : outcome (option Validator * ValidatorSet) :=
  match n with
  | O => Done (proposer, vals)
  | S n' => let! (p, vals) := incrementProposerPriority vals in incrementTimes n' (Some p) vals
  end.

Definition IncrementProposerPriority (times : Z) (vals : ValidatorSet) : outcome ValidatorSet :=
  if IsNilOrEmpty (Some vals) then Panic "empty validator set"
  else if times <=? 0
    then Panic "Cannot call IncrementProposerPriority with non-positive times"
  else
    let! (total, vals) := TotalVotingPower vals in
    let! vals := RescalePriorities (wrap64 (PriorityWindowSizeFactor * total)) vals in
    let! vals := shiftByAvgProposerPriority vals in
    let! (proposer, vals) := incrementTimes (Z.to_nat times) None vals in
    Done (setProposer proposer vals).

Definition CopyIncrementProposerPriority (times : Z) (vals : ValidatorSet)
    : outcome ValidatorSet :=
  IncrementProposerPriority times (ValidatorSet_Copy vals).

Definition findProposer (vals : ValidatorSet) : outcome (option Validator) :=
  foldM (fun proposer val =>
           match proposer with
           | Some p =>
             if bool_decide (Address val = Address p) then Done proposer
             else let! w := CompareProposerPriority proposer val in Done (Some w)
           | None => let! w := CompareProposerPriority None val in Done (Some w)
           end) None (Validators vals).

Definition GetProposer (vals : ValidatorSet) : outcome (option Validator * ValidatorSet) :=
  match Validators vals with
  | [] => Done (None, vals)
  | _ =>
    let! vals := (match Proposer vals with
            | None => let! p := findProposer vals in Done (setProposer p vals)
            | Some _ => Done vals
            end) in
    Done (Proposer vals, vals)
  end.

(** ** Applying a change set *)

(** [ValidatorsByAddress.Less] *)
Definition byAddressLess (a b : Validator) : bool := bytes_ltb (Address a) (Address b).

(** [ValidatorsByVotingPower.Less] *)
Definition byVotingPowerLess (a b : Validator) : bool :=
  if VotingPower a =? VotingPower b then bytes_ltb (Address a) (Address b)
  else VotingPower b <? VotingPower a.

(** The scan of [processChanges] over the sorted changes. *)
Fixpoint splitChanges (changes : list Validator) (prevAddr : bytes)
    (updates removals : list Validator) : result (list Validator * list Validator) :=
  match changes with
  | [] => inr (updates, removals)
  | valUpdate :: changes' =>
    if bool_decide (Address valUpdate = prevAddr) then inl "duplicate entry"
    else if VotingPower valUpdate <? 0 then inl "voting power can't be negative"
    else if MaxTotalVotingPower <? VotingPower valUpdate
      then inl "to prevent clipping/overflow, voting power can't be higher"
    else if VotingPower valUpdate =? 0
      then splitChanges changes' (Address valUpdate) updates (removals ++ [valUpdate])
      else splitChanges changes' (Address valUpdate) (updates ++ [valUpdate]) removals
  end.

Definition processChanges (origChanges : list Validator)
    : result (list Validator * list Validator) :=
  splitChanges (sort_by byAddressLess (validatorListCopy origChanges)) [] [] [].

(** The closure [delta] of [verifyUpdates]. *)
Definition delta (vals : ValidatorSet) (update : Validator) : Z :=
  match snd (GetByAddress vals (Address update)) with
  | Some val => wrap64 (VotingPower update - VotingPower val)
  | None => VotingPower update
  end.

(** The loop of [verifyUpdates]. *)
Fixpoint addDeltas (vals : ValidatorSet) (updates : list Validator) (tvpAfterRemovals : Z)
    : result Z :=
  match updates with
  | [] => inr tvpAfterRemovals
  | upd :: updates' =>
    let tvp := wrap64 (tvpAfterRemovals + delta vals upd) in
    if MaxTotalVotingPower <? tvp then inl ErrTotalVotingPowerOverflow
    else addDeltas vals updates' tvp
  end.

Definition verifyUpdates (updates : list Validator) (vals : ValidatorSet) (removedPower : Z)
    : outcome (result Z * ValidatorSet) :=
  let updatesCopy :=
    sort_by (fun a b => delta vals a <? delta vals b) (validatorListCopy updates) in
  let! (total, vals) := TotalVotingPower vals in
  match addDeltas vals updatesCopy (wrap64 (total - removedPower)) with
  | inl err => Done (inl err, vals)
  | inr tvp => Done (inr (wrap64 (tvp + removedPower)), vals)
  end.

Definition numNewValidators (updates : list Validator) (vals : ValidatorSet) : Z :=
  Z.of_nat (length (filter (fun u => HasAddress vals (Address u) = false) updates)).

Definition computeNewPriorities (updates : list Validator) (vals : ValidatorSet)
    (updatedTotalVotingPower : Z) : list Validator :=
  (fun valUpdate =>
     match snd (GetByAddress vals (Address valUpdate)) with
     | None =>
       setPriority (wrap64 (- wrap64 (updatedTotalVotingPower
                                       + Z.shiftr updatedTotalVotingPower 3))) valUpdate
     | Some val => setPriority (ProposerPriority val) valUpdate
     end) <$> updates.

(** The merge loop of [applyUpdates]. *)
Fixpoint mergeUpdates (existing updates : list Validator) {struct existing} : list Validator :=
  let fix go (updates : list Validator) : list Validator :=
    match existing, updates with
    | [], _ => updates
    | _, [] => existing
    | e :: existing', u :: updates' =>
      match bytes_compare (Address e) (Address u) with
      | Lt => e :: mergeUpdates existing' updates
      | Eq => u :: mergeUpdates existing' updates'
      | Gt => u :: go updates'
      end
    end in go updates.

Definition applyUpdates (updates : list Validator) (vals : ValidatorSet) : ValidatorSet :=
  setValidators (mergeUpdates (sort_by byAddressLess (Validators vals)) updates) vals.

(** The loop of [verifyRemovals]. *)
Fixpoint sumRemoved (vals : ValidatorSet) (deletes : list Validator) (removedVotingPower : Z)
    : result Z :=
  match deletes with
  | [] => inr removedVotingPower
  | valUpdate :: deletes' =>
    match snd (GetByAddress vals (Address valUpdate)) with
    | None => inl "failed to find validator to remove"
    | Some val => sumRemoved vals deletes' (wrap64 (removedVotingPower + VotingPower val))
    end
  end.

Definition verifyRemovals (deletes : list Validator) (vals : ValidatorSet) : outcome (result Z) :=
  match sumRemoved vals deletes 0 with
  | inl e => Done (inl e)
  | inr sum =>
    if (length (Validators vals) <? length deletes)%nat
    then Panic "more deletes than validators" else Done (inr sum)
  end.

(** [merged[i] = x; i++] in a slice of length [n]. *)
Definition appendWithin (n : nat) (merged : list Validator) (x : Validator)
    : outcome (list Validator) :=
  if decide (length merged < n)%nat then Done (merged ++ [x])
  else Panic "index out of range".

(** The loop over [deletes] in [applyRemovals]; it consumes [existing]. *)
Fixpoint removeLoop (n : nat) (existing deletes merged : list Validator)
    : outcome (list Validator * list Validator) :=
  match deletes with
  | [] => Done (existing, merged)
  | d :: deletes' =>
    match existing with
    | [] => Panic "index out of range"
    | e :: existing' =>
      if bool_decide (Address e = Address d) then removeLoop n existing' deletes' merged
      else let! merged := appendWithin n merged e in removeLoop n existing' deletes merged
    end
  end.

Definition applyRemovals (deletes : list Validator) (vals : ValidatorSet)
    : outcome ValidatorSet :=
  let existing := Validators vals in
  if decide (length deletes <= length existing)%nat then
    let n := (length existing - length deletes)%nat in
    let! (rest, merged) := removeLoop n existing deletes [] in
    let! merged := foldM (appendWithin n) merged rest in
    Done (setValidators merged vals)
  else Panic "makeslice: len out of range".

(** The returned [error] and the receiver after the call. *)
Definition updateWithChangeSet (changes : list Validator) (allowDeletes : bool)
    (vals : ValidatorSet) : outcome (option error * ValidatorSet) :=
  match changes with
  | [] => Done (None, vals)
  | _ =>
    match processChanges changes with
    | inl err => Done (Some err, vals)
    | inr (updates, deletes) =>
      if negb allowDeletes && negb (bool_decide (deletes = []))
      then Done (Some "cannot process validators with voting power 0", vals)
      else if (numNewValidators updates vals =? 0)
              && (length (Validators vals) =? length deletes)%nat
      then Done (Some "applying the validator changes would result in empty set", vals)
      else
        let! removed := verifyRemovals deletes vals in
        match removed with
        | inl err => Done (Some err, vals)
        | inr removedVotingPower =>
          let! (tvp, vals) := verifyUpdates updates vals removedVotingPower in
          match tvp with
          | inl err => Done (Some err, vals)
          | inr tvpAfterUpdatesBeforeRemovals =>
            let updates := computeNewPriorities updates vals tvpAfterUpdatesBeforeRemovals in
            let vals := applyUpdates updates vals in
            let! vals := applyRemovals deletes vals in
            let! vals := updateTotalVotingPower vals in
            let! (total, vals) := TotalVotingPower vals in
            let! vals := RescalePriorities (wrap64 (PriorityWindowSizeFactor * total)) vals in
            let! vals := shiftByAvgProposerPriority vals in
            Done (None, setValidators (sort_by byVotingPowerLess (Validators vals)) vals)
          end
        end
    end
  end.

Definition UpdateWithChangeSet (changes : list Validator) (vals : ValidatorSet)
    : outcome (option error * ValidatorSet) :=
  updateWithChangeSet changes true vals.

Definition NewValidatorSet (valz : list Validator) : outcome ValidatorSet :=
  let! (err, vals) := updateWithChangeSet valz false (mkValidatorSet [] None 0) in
  match err with
  | Some _ => Panic "Cannot create validator set"
  | None =>
    match valz with
    | [] => Done vals
    | _ => IncrementProposerPriority 1 vals
    end
  end.
