(* ===== verification/ValidatorSetUpdate.v ===== *)
(** * Correctness of the validator set's change-set update

    The invariant [VS_wf] of a validator set, and the proof that
    [updateWithChangeSet] accepts exactly the valid change sets, never panics,
    keeps the invariant and computes the set the changes describe. *)

From Stdlib Require Import ZArith Lia.
From S2P Require Import Prelude Validator ValidatorSet.
From stdpp Require Import base gmap list option strings numbers sorting.

Local Open Scope Z_scope.

Notation addresses vs := (fmap (M:=list) Address vs) (only parsing).

(** The fields that identify a validator in consensus: all but the priority. *)
Definition ident (v : Validator) : bytes * option PubKey * Z :=
  (Address v, vPubKey v, VotingPower v).

Record VS_wf (vals : ValidatorSet) : Prop := {
  vs_nodup : NoDup (addresses (Validators vals));
  vs_addr : forall v, v ∈ Validators vals -> Address v <> [];
  vs_power : forall v, v ∈ Validators vals -> 0 < VotingPower v;
  vs_total : sumZ VotingPower (Validators vals) <= MaxTotalVotingPower;
  vs_cache : totalVotingPower vals = 0 \/
             totalVotingPower vals = sumZ VotingPower (Validators vals);
  vs_prio : forall v, v ∈ Validators vals -> int64 (ProposerPriority v);
  vs_sorted : StronglySorted (sort_le byVotingPowerLess) (Validators vals)
}.

(** The total power is far below the range of [int64]. *)
Lemma MaxTotalVotingPower_bound : 8 * MaxTotalVotingPower <= MaxInt64.
Proof. by vm_compute. Qed.

Ltac power_lia := pose proof MaxTotalVotingPower_bound; int_lia.

(** ** Lookups in a set with distinct addresses *)

Lemma validatorListCopy_id vs : validatorListCopy vs = vs.
Proof.
  unfold validatorListCopy. induction vs as [|[] vs IH]; [done|].
  cbn. f_equal. exact IH.
Qed.

Lemma ValidatorSet_Copy_id vals : ValidatorSet_Copy vals = vals.
Proof. destruct vals. unfold ValidatorSet_Copy. simpl. by rewrite validatorListCopy_id. Qed.

Lemma addresses_elem a vs : a ∈ addresses vs <-> exists v, v ∈ vs /\ Address v = a.
Proof. rewrite list_elem_of_fmap. naive_solver. Qed.

Lemma nodup_address_inj (vs : list Validator) v w :
  NoDup (addresses vs) -> v ∈ vs -> w ∈ vs -> Address v = Address w -> v = w.
Proof.
  intros Hnd (i & Hi)%list_elem_of_lookup (j & Hj)%list_elem_of_lookup E.
  assert (i = j) as ->; [|congruence].
  eapply NoDup_lookup; [done|..].
  - by rewrite list_lookup_fmap, Hi.
  - by rewrite list_lookup_fmap, Hj; simpl; rewrite E.
Qed.

Lemma HasAddress_true vals a : HasAddress vals a = true <-> a ∈ addresses (Validators vals).
Proof.
  unfold HasAddress. rewrite existsb_exists, addresses_elem.
  split; intros (v & Hv & Ha); exists v; rewrite list_elem_of_In, ?bool_decide_eq_true in *;
    auto.
Qed.

Lemma HasAddress_false vals a : HasAddress vals a = false <-> a ∉ addresses (Validators vals).
Proof. rewrite <- HasAddress_true. destruct (HasAddress vals a); naive_solver. Qed.

Lemma GetByAddress_Some vals a v :
  snd (GetByAddress vals a) = Some v -> v ∈ Validators vals /\ Address v = a.
Proof.
  unfold GetByAddress. destruct (list_find _ _) as [[i w]|] eqn:E; simpl; [|done].
  intros [= ->]. apply list_find_Some in E as (Hi & Ha & _).
  split; [by eapply list_elem_of_lookup_2|done].
Qed.

Lemma GetByAddress_None vals a :
  snd (GetByAddress vals a) = None <-> a ∉ addresses (Validators vals).
Proof.
  unfold GetByAddress. destruct (list_find _ _) as [[i w]|] eqn:E; simpl.
  - apply list_find_Some in E as (Hi & Ha & _). apply list_elem_of_lookup_2 in Hi.
    split; [done|]. intros []. apply addresses_elem. eauto.
  - split; [|done]. intros _. apply list_find_None in E. rewrite addresses_elem.
    intros (v & Hv & Ha). rewrite list.Forall_forall in E. by eapply E.
Qed.

Lemma GetByAddress_elem vals v :
  NoDup (addresses (Validators vals)) -> v ∈ Validators vals ->
  snd (GetByAddress vals (Address v)) = Some v.
Proof.
  intros Hnd Hv. destruct (snd (GetByAddress vals (Address v))) as [w|] eqn:E.
  - apply GetByAddress_Some in E as [Hw Ha]. f_equal. by eapply nodup_address_inj.
  - apply GetByAddress_None in E. destruct E. apply addresses_elem. eauto.
Qed.

(** The power recorded for an address, 0 when there is none. *)
Definition powerAt (vals : ValidatorSet) (a : bytes) : Z :=
  match snd (GetByAddress vals a) with Some v => VotingPower v | None => 0 end.

Lemma sumZ_filter_split {A} (f : A -> Z) (P : A -> Prop) `{forall x, Decision (P x)} l :
  sumZ f l = sumZ f (filter P l) + sumZ f (filter (fun x => ~ P x) l).
Proof.
  induction l as [|x l IH]; [done|]. rewrite !filter_cons.
  destruct (decide (P x)).
  - rewrite decide_False by tauto. rewrite !sumZ_cons. lia.
  - rewrite decide_True by tauto. rewrite !sumZ_cons. lia.
Qed.

Lemma sumZ_filter_and {A} (f : A -> Z) (P Q : A -> Prop)
    `{forall x, Decision (P x)} `{forall x, Decision (Q x)} l :
  (forall x, Q x -> P x) -> (forall x, x ∈ l -> 0 <= f x) ->
  sumZ f (filter Q l) <= sumZ f (filter P l).
Proof.
  intros HQP. induction l as [|x l IH]; intros Hp; [done|].
  pose proof (Hp x ltac:(set_solver)). pose proof (IH ltac:(set_solver)).
  rewrite !filter_cons. destruct (decide (Q x)) as [Hq|Hq].
  - rewrite (decide_True _ _ (HQP x Hq)). rewrite !sumZ_cons. lia.
  - destruct (decide (P x)); rewrite ?sumZ_cons; lia.
Qed.

(** Summing the recorded powers over distinct addresses is summing the powers
    of the validators that have one of them. *)
Lemma sum_powerAt vals (l : list bytes) :
  NoDup (addresses (Validators vals)) -> NoDup l ->
  sumZ (powerAt vals) l = sumZ VotingPower (filter (fun v => Address v ∈ l) (Validators vals)).
Proof.
  intros Hnd. induction l as [|a l IH]; intros Hl.
  - rewrite filter_none; [done|]. set_solver.
  - apply NoDup_cons in Hl as [Ha Hl]. rewrite sumZ_cons, IH by done.
    rewrite (sumZ_filter_split VotingPower (fun v => Address v = a)
              (filter (fun v => Address v ∈ a :: l) (Validators vals))).
    rewrite !list_filter_filter. f_equal.
    + unfold powerAt. destruct (snd (GetByAddress vals a)) as [v|] eqn:E.
      * apply GetByAddress_Some in E as [Hv <-].
        apply list_elem_of_split in Hv as (l1 & l2 & Hl12). rewrite Hl12 in Hnd |- *.
        rewrite fmap_app, fmap_cons, NoDup_app, NoDup_cons in Hnd.
        destruct Hnd as (_ & Hn1 & Hn2 & _).
        rewrite list.filter_app, filter_cons_True by set_solver.
        rewrite !filter_none; [simpl; rewrite sumZ_cons, sumZ_nil; lia|..].
        -- intros x Hx [Ex _]. apply Hn2. apply addresses_elem. eauto.
        -- intros x Hx [Ex _]. apply (Hn1 (Address v)); [|set_solver].
           apply addresses_elem. eauto.
      * apply GetByAddress_None in E. rewrite filter_none; [done|].
        intros v Hv [Ev _]. apply E, addresses_elem. eauto.
    + f_equal. apply list_filter_iff. intros v. set_solver.
Qed.

Lemma sum_powerAt_le vals (l : list bytes) :
  NoDup (addresses (Validators vals)) -> (forall v, v ∈ Validators vals -> 0 <= VotingPower v) ->
  NoDup l -> sumZ (powerAt vals) l <= sumZ VotingPower (Validators vals).
Proof.
  intros Hnd Hp Hl. rewrite sum_powerAt by done.
  rewrite (sumZ_filter_split VotingPower (fun v => Address v ∈ l) (Validators vals)).
  pose proof (sumZ_nonneg VotingPower (filter (fun v => Address v ∉ l) (Validators vals))) as Hn.
  rewrite Z.add_comm. apply Z.le_sub_le_add_r. rewrite Z.sub_diag. apply Hn.
  intros v [_ Hv]%list_elem_of_filter. auto.
Qed.

(** ** Order by address *)

Definition addr_lt (v w : Validator) : Prop := bytes_lt (Address v) (Address w).

Lemma byAddress_asym x y : byAddressLess x y = true -> byAddressLess y x = false.
Proof.
  unfold byAddressLess. rewrite bytes_ltb_lt, bytes_ltb_nlt. intros H1 H2.
  by apply (bytes_lt_irrefl (Address x)), (bytes_lt_trans _ (Address y)).
Qed.

Lemma byAddress_trans x y z :
  byAddressLess y x = false -> byAddressLess z y = false -> byAddressLess z x = false.
Proof.
  unfold byAddressLess. rewrite !bytes_ltb_nlt. intros H1 H2 H3.
  destruct (bytes_trichotomy (Address y) (Address z)) as [H|[H|H]]; [|congruence|done].
  apply H1. by eapply bytes_lt_trans.
Qed.

Lemma byPower_asym x y : byVotingPowerLess x y = true -> byVotingPowerLess y x = false.
Proof.
  unfold byVotingPowerLess. rewrite (Z.eqb_sym (VotingPower y)).
  destruct (Z.eqb_spec (VotingPower x) (VotingPower y)).
  - apply byAddress_asym.
  - rewrite Z.ltb_lt, Z.ltb_ge. lia.
Qed.

Lemma byPower_trans x y z :
  byVotingPowerLess y x = false -> byVotingPowerLess z y = false -> byVotingPowerLess z x = false.
Proof.
  unfold byVotingPowerLess.
  destruct (Z.eqb_spec (VotingPower y) (VotingPower x)) as [E1|E1];
  destruct (Z.eqb_spec (VotingPower z) (VotingPower y)) as [E2|E2];
  destruct (Z.eqb_spec (VotingPower z) (VotingPower x)) as [E3|E3];
    try (rewrite ?Z.ltb_ge; lia); try (intros; rewrite ?Z.ltb_ge in *; lia).
  apply byAddress_trans.
Qed.

Lemma sort_byPower_sorted vs : StronglySorted (sort_le byVotingPowerLess) (sort_by byVotingPowerLess vs).
Proof. apply sort_by_sorted; [apply byPower_asym|apply byPower_trans]. Qed.

(** A sorted list with distinct addresses is strictly increasing. *)
Lemma strictly_sorted vs :
  StronglySorted (sort_le byAddressLess) vs -> NoDup (addresses vs) -> StronglySorted addr_lt vs.
Proof.
  induction 1 as [|v vs Hs IH Hall]; intros Hnd; [constructor|].
  rewrite fmap_cons in Hnd. apply NoDup_cons in Hnd as [Hni Hnd].
  constructor; [auto|]. rewrite list.Forall_forall in Hall |- *. intros w Hw.
  specialize (Hall w Hw). unfold sort_le, byAddressLess in Hall. apply bytes_ltb_nlt in Hall.
  destruct (bytes_trichotomy (Address v) (Address w)) as [H|[H|H]]; [done| |done].
  destruct Hni. rewrite H. apply addresses_elem. eauto.
Qed.

Lemma sort_byAddress_strict vs :
  NoDup (addresses vs) -> StronglySorted addr_lt (sort_by byAddressLess vs).
Proof.
  intros H. apply strictly_sorted; [apply sort_by_sorted; [apply byAddress_asym|apply byAddress_trans]|].
  by rewrite (sort_by_perm byAddressLess vs).
Qed.

Lemma addr_lt_nodup vs : StronglySorted addr_lt vs -> NoDup (addresses vs).
Proof.
  induction 1 as [|v vs Hs IH Hall]; [constructor|].
  rewrite fmap_cons. apply NoDup_cons. split; [|done].
  rewrite addresses_elem. intros (w & Hw & E). rewrite list.Forall_forall in Hall.
  specialize (Hall w Hw). unfold addr_lt in Hall. rewrite E in Hall. by apply bytes_lt_irrefl in Hall.
Qed.

Lemma StronglySorted_filter {A} (R : A -> A -> Prop) (P : A -> Prop) `{forall x, Decision (P x)} l :
  StronglySorted R l -> StronglySorted R (filter P l).
Proof.
  induction 1 as [|x l Hs IH Hall]; [constructor|].
  rewrite filter_cons. case_decide; [|done]. constructor; [done|].
  rewrite list.Forall_forall in *. intros y [_ Hy]%list_elem_of_filter. auto.
Qed.

(** ** Splitting the changes *)

Lemma nil_not_gt a : ~ bytes_lt a [].
Proof. unfold bytes_lt. by destruct a. Qed.

Lemma splitChanges_inr l prev u r p :
  StronglySorted (sort_le byAddressLess) l ->
  (forall v, v ∈ l -> ~ bytes_lt (Address v) prev) ->
  splitChanges l prev u r = inr p <->
  NoDup (prev :: addresses l) /\
  (forall v, v ∈ l -> 0 <= VotingPower v <= MaxTotalVotingPower) /\
  p = (u ++ filter (fun v => VotingPower v <> 0) l, r ++ filter (fun v => VotingPower v = 0) l).
Proof.
  revert prev u r. induction l as [|v l IH]; intros prev u r Hs Hlo; simpl.
  - rewrite !app_nil_r. split; [|by intros (_ & _ & ->)]. intros [= <-].
    split; [by apply NoDup_singleton|]. split; [set_solver|done].
  - apply StronglySorted_inv in Hs as [Hs Hall]. rewrite list.Forall_forall in Hall.
    assert (forall w, w ∈ l -> ~ bytes_lt (Address w) (Address v)) as Hlo'.
    { intros w Hw. specialize (Hall w Hw). by apply bytes_ltb_nlt. }
    case_bool_decide as E1.
    { split; [done|]. intros (Hnd & _). apply NoDup_cons in Hnd as [Hnd _]. set_solver. }
    destruct (Z.ltb_spec (VotingPower v) 0).
    { split; [done|]. intros (_ & Hp & _). specialize (Hp v ltac:(set_solver)). lia. }
    destruct (Z.ltb_spec MaxTotalVotingPower (VotingPower v)).
    { split; [done|]. intros (_ & Hp & _). specialize (Hp v ltac:(set_solver)). lia. }
    assert (NoDup (prev :: Address v :: addresses l) <-> NoDup (Address v :: addresses l)) as Hiff.
    { split; [by intros [_ ?]%NoDup_cons|]. intros Hnd. apply NoDup_cons. split; [|done].
      rewrite not_elem_of_cons. split; [congruence|].
      intros (w & Hw & Ew)%addresses_elem. specialize (Hlo' w Hw).
      pose proof (Hlo v ltac:(set_solver)).
      destruct (bytes_trichotomy (Address v) prev) as [?|[?|Hlt]]; [done|congruence|].
      by rewrite Ew in Hlo'. }
    rewrite Hiff, !filter_cons.
    assert (forall Q : Prop, (forall w, w ∈ v :: l -> 0 <= VotingPower w <= MaxTotalVotingPower) /\ Q
      <-> (forall w, w ∈ l -> 0 <= VotingPower w <= MaxTotalVotingPower) /\ Q) as Hpow.
    { intros Q. split; intros [Hp HQ]; (split; [|done]).
      - intros w Hw. apply Hp. set_solver.
      - intros w [->|Hw]%elem_of_cons; [lia|auto]. }
    rewrite Hpow. destruct (Z.eqb_spec (VotingPower v) 0).
    + rewrite IH by done. rewrite decide_False, decide_True by tauto.
      by rewrite <- (assoc_L (++)).
    + rewrite IH by done. rewrite decide_True, decide_False by tauto.
      by rewrite <- (assoc_L (++)).
Qed.

Lemma processChanges_inr changes p :
  let sorted := sort_by byAddressLess changes in
  processChanges changes = inr p <->
  NoDup ([] :: addresses changes) /\
  (forall v, v ∈ changes -> 0 <= VotingPower v <= MaxTotalVotingPower) /\
  p = (filter (fun v => VotingPower v <> 0) sorted, filter (fun v => VotingPower v = 0) sorted).
Proof.
  intros sorted. unfold processChanges. rewrite validatorListCopy_id.
  rewrite splitChanges_inr; cycle 1.
  { apply sort_by_sorted; [apply byAddress_asym|apply byAddress_trans]. }
  { intros v _. apply nil_not_gt. }
  fold sorted. simpl. assert (sorted ≡ₚ changes) as Hp by apply sort_by_perm.
  rewrite Hp at 1. apply Morphisms_Prop.and_iff_morphism; [done|].
  apply Morphisms_Prop.and_iff_morphism; [|done].
  split; intros H v Hv; apply H; [by rewrite Hp|by rewrite <- Hp].
Qed.

(** ** Removals *)

Lemma powerAt_nonneg vals a : (forall v, v ∈ Validators vals -> 0 < VotingPower v) -> 0 <= powerAt vals a.
Proof.
  intros Hp. unfold powerAt. destruct (snd _) as [v|] eqn:E; [|done].
  apply GetByAddress_Some in E as [Hv _]. specialize (Hp v Hv). lia.
Qed.

Lemma powerAt_le vals a : VS_wf vals -> powerAt vals a <= MaxTotalVotingPower.
Proof.
  intros W. unfold powerAt. destruct (snd _) as [v|] eqn:E; [|done].
  apply GetByAddress_Some in E as [Hv _]. etrans; [|apply (vs_total _ W)].
  apply (sumZ_elem_le VotingPower); [|done].
  intros w Hw. apply Z.lt_le_incl. by apply (vs_power _ W).
Qed.

Definition all_found (vals : ValidatorSet) (deletes : list Validator) : Prop :=
  forall d, d ∈ deletes -> Address d ∈ addresses (Validators vals).

Lemma sumRemoved_inr vals deletes acc :
  (forall v, v ∈ Validators vals -> 0 < VotingPower v) ->
  0 <= acc -> acc + sumZ (powerAt vals) (addresses deletes) <= MaxInt64 ->
  all_found vals deletes ->
  sumRemoved vals deletes acc = inr (acc + sumZ (powerAt vals) (addresses deletes)).
Proof.
  intros Hp. revert acc. induction deletes as [|d ds IH]; intros acc H0 Hb Hf; cbn [sumRemoved].
  - rewrite fmap_nil, sumZ_nil. f_equal; lia.
  - rewrite fmap_cons, sumZ_cons in *.
    assert (exists v, snd (GetByAddress vals (Address d)) = Some v) as [v Ev].
    { destruct (snd _) as [v|] eqn:E; [eauto|].
      apply GetByAddress_None in E. destruct E. apply Hf. set_solver. }
    assert (0 <= sumZ (powerAt vals) (addresses ds)) as Hrest.
    { apply sumZ_nonneg. intros a _. by apply powerAt_nonneg. }
    assert (powerAt vals (Address d) = VotingPower v) as Epow by (unfold powerAt; by rewrite Ev).
    pose proof (powerAt_nonneg vals (Address d) Hp).
    rewrite Ev, wrap64_id by int_lia. rewrite IH; [f_equal; lia|lia|lia|].
    intros x Hx. apply Hf. set_solver.
Qed.

Lemma sumRemoved_inl vals deletes acc :
  ~ all_found vals deletes -> exists e, sumRemoved vals deletes acc = inl e.
Proof.
  revert acc. induction deletes as [|d ds IH]; intros acc Hf; cbn [sumRemoved].
  - destruct Hf. intros d. set_solver.
  - destruct (snd _) as [v|] eqn:E; [|eauto]. apply IH. intros Hf'. apply Hf.
    intros x [->|Hx]%elem_of_cons; [|auto].
    apply GetByAddress_Some in E as [Hv <-]. apply addresses_elem. eauto.
Qed.

Lemma length_le_addresses vals deletes :
  NoDup (addresses deletes) -> all_found vals deletes ->
  (length deletes <= length (Validators vals))%nat.
Proof.
  intros Hnd Hf. rewrite <- (length_fmap Address deletes), <- (length_fmap Address (Validators vals)).
  apply submseteq_length, NoDup_submseteq; [done|].
  intros a (d & Hd & <-)%addresses_elem. auto.
Qed.

Lemma verifyRemovals_spec vals deletes :
  VS_wf vals -> NoDup (addresses deletes) ->
  (all_found vals deletes ->
     verifyRemovals deletes vals = Done (inr (sumZ (powerAt vals) (addresses deletes)))) /\
  (~ all_found vals deletes -> exists e, verifyRemovals deletes vals = Done (inl e)).
Proof.
  intros W Hnd. split; intros Hf; unfold verifyRemovals.
  - rewrite sumRemoved_inr; [|apply W|lia| |done].
    + rewrite (proj2 (Nat.ltb_ge _ _)) by by apply length_le_addresses. done.
    + pose proof (sum_powerAt_le vals (addresses deletes) (vs_nodup _ W)) as Hle.
      pose proof (vs_total _ W) as Ht.
      assert (sumZ (powerAt vals) (addresses deletes) <= sumZ VotingPower (Validators vals)); [|power_lia].
      apply Hle; [|done]. intros v Hv. apply Z.lt_le_incl. by apply (vs_power _ W).
  - destruct (sumRemoved_inl vals deletes 0 Hf) as [e ->]. eauto.
Qed.

(** ** Total voting power *)

Lemma updateTotal_fold vs acc :
  (forall v, v ∈ vs -> 0 <= VotingPower v) -> 0 <= acc ->
  acc + sumZ VotingPower vs <= MaxTotalVotingPower ->
  foldM (fun sum val =>
          let sum := safeAddClip sum (VotingPower val) in
          if MaxTotalVotingPower <? sum
          then Panic "Total voting power should be guarded to not exceed"
          else Done sum) acc vs = Done (acc + sumZ VotingPower vs).
Proof.
  revert acc. induction vs as [|v vs IH]; intros acc Hp H0 Hb; cbn [foldM].
  - rewrite sumZ_nil. f_equal; lia.
  - rewrite sumZ_cons in *. pose proof (Hp v ltac:(set_solver)).
    pose proof (sumZ_nonneg VotingPower vs ltac:(set_solver)).
    assert (int64 acc /\ int64 (VotingPower v)) as [? ?] by (split; power_lia).
    rewrite safeAddClip_spec, clip64_id by (done || power_lia).
    rewrite (proj2 (Z.ltb_ge _ _)) by lia. rewrite bind_Done, IH by (set_solver || lia).
    f_equal; lia.
Qed.

Definition powers_ok (vals : ValidatorSet) : Prop :=
  (forall v, v ∈ Validators vals -> 0 <= VotingPower v) /\
  sumZ VotingPower (Validators vals) <= MaxTotalVotingPower.

Lemma updateTotalVotingPower_spec vals :
  powers_ok vals ->
  updateTotalVotingPower vals = Done (setTotalVotingPower (sumZ VotingPower (Validators vals)) vals).
Proof.
  intros [Hp Hb]. unfold updateTotalVotingPower.
  rewrite updateTotal_fold by (done || lia). rewrite bind_Done. by f_equal.
Qed.

Lemma TotalVotingPower_spec vals :
  powers_ok vals ->
  totalVotingPower vals = 0 \/ totalVotingPower vals = sumZ VotingPower (Validators vals) ->
  TotalVotingPower vals =
    Done (sumZ VotingPower (Validators vals),
          setTotalVotingPower (sumZ VotingPower (Validators vals)) vals).
Proof.
  intros Hp Hc. unfold TotalVotingPower. destruct (Z.eqb_spec (totalVotingPower vals) 0).
  - rewrite updateTotalVotingPower_spec by done. by rewrite !bind_Done.
  - destruct Hc as [?|Hc]; [done|]. rewrite !bind_Done, <- Hc. by destruct vals.
Qed.

Lemma wf_powers_ok vals : VS_wf vals -> powers_ok vals.
Proof.
  intros W. split; [|apply W]. intros v Hv. apply Z.lt_le_incl. by apply (vs_power _ W).
Qed.

Create HintDb valset.
#[export] Hint Resolve wf_powers_ok : valset.

(** ** Updates *)

(** An admissible power. *)
Definition power_in_range (v : Validator) : Prop := 0 <= VotingPower v <= MaxTotalVotingPower.

Lemma delta_spec vals u :
  VS_wf vals -> power_in_range u -> delta vals u = VotingPower u - powerAt vals (Address u).
Proof.
  intros W Hr. pose proof (powerAt_le vals (Address u) W) as Hle.
  pose proof (powerAt_nonneg vals (Address u) (vs_power _ W)) as Hn.
  unfold delta, powerAt, power_in_range in *.
  destruct (snd _) as [v|]; [apply wrap64_id; power_lia|lia].
Qed.

Lemma addDeltas_spec vals us t :
  VS_wf vals -> (forall u, u ∈ us -> power_in_range u) ->
  StronglySorted (sort_le (fun a b => delta vals a <? delta vals b)) us ->
  t <= MaxTotalVotingPower -> sumZ (powerAt vals) (addresses us) <= t ->
  let final := t + sumZ VotingPower us - sumZ (powerAt vals) (addresses us) in
  addDeltas vals us t =
    if MaxTotalVotingPower <? final then inl ErrTotalVotingPowerOverflow else inr final.
Proof.
  intros W. revert t. induction us as [|u us IH]; intros t Hr Hs Ht Hlo; cbn zeta; cbn [addDeltas].
  - rewrite fmap_nil, !sumZ_nil. rewrite (proj2 (Z.ltb_ge _ _)) by lia. f_equal; lia.
  - apply StronglySorted_inv in Hs as [Hs Hall]. rewrite list.Forall_forall in Hall.
    rewrite fmap_cons, !sumZ_cons in *.
    pose proof (Hr u ltac:(set_solver)) as Hu. pose proof (delta_spec vals u W Hu) as Hd.
    pose proof (powerAt_nonneg vals (Address u) (vs_power _ W)).
    assert (0 <= sumZ (powerAt vals) (addresses us)) as Hrest.
    { apply sumZ_nonneg. intros a _. apply powerAt_nonneg, W. }
    unfold power_in_range in Hu. rewrite wrap64_id by power_lia.
    destruct (Z.ltb_spec MaxTotalVotingPower (t + delta vals u)) as [Hgt|Hle].
    + rewrite (proj2 (Z.ltb_lt _ _)); [done|].
      assert (sumZ (powerAt vals) (addresses us) <= sumZ VotingPower us); [|lia].
      rewrite sumZ_fmap. apply sumZ_le. intros w Hw.
      pose proof (Hall w Hw) as Hlt. unfold sort_le in Hlt. apply Z.ltb_ge in Hlt.
      rewrite (delta_spec vals w W) in Hlt by (apply Hr; set_solver). simpl. lia.
    + rewrite IH by (set_solver || lia). cbn zeta.
      replace (t + delta vals u + sumZ VotingPower us - sumZ (powerAt vals) (addresses us))
        with (t + (VotingPower u + sumZ VotingPower us) -
              (powerAt vals (Address u) + sumZ (powerAt vals) (addresses us))) by lia.
      done.
Qed.

Lemma addDeltas_ext vals vals' us t :
  Validators vals = Validators vals' -> addDeltas vals us t = addDeltas vals' us t.
Proof.
  intros E. assert (forall u, delta vals u = delta vals' u) as Hd.
  { intros u. unfold delta, GetByAddress. by rewrite E. }
  revert t. induction us as [|u us IH]; intros t; cbn [addDeltas]; [done|].
  rewrite Hd. by destruct (_ <? _).
Qed.

Lemma byDelta_sorted vals us :
  StronglySorted (sort_le (fun a b => delta vals a <? delta vals b))
    (sort_by (fun a b => delta vals a <? delta vals b) us).
Proof.
  apply sort_by_sorted; intros *; rewrite ?Z.ltb_lt, ?Z.ltb_ge; lia.
Qed.

(** The total power after the changes. *)
Definition newTotal (vals : ValidatorSet) (updates deletes : list Validator) : Z :=
  sumZ VotingPower (Validators vals) - sumZ (powerAt vals) (addresses deletes)
  + sumZ VotingPower updates - sumZ (powerAt vals) (addresses updates).

Lemma powerAt_disjoint_le vals updates deletes :
  VS_wf vals -> NoDup (addresses (updates ++ deletes)) ->
  sumZ (powerAt vals) (addresses updates) + sumZ (powerAt vals) (addresses deletes)
    <= sumZ VotingPower (Validators vals).
Proof.
  intros W Hnd. rewrite <- sumZ_app, <- fmap_app. apply sum_powerAt_le; [apply W| |done].
  apply (wf_powers_ok _ W).
Qed.

Lemma verifyUpdates_spec vals updates deletes :
  VS_wf vals -> (forall u, u ∈ updates -> power_in_range u) ->
  NoDup (addresses (updates ++ deletes)) ->
  let removed := sumZ (powerAt vals) (addresses deletes) in
  let vals' := setTotalVotingPower (sumZ VotingPower (Validators vals)) vals in
  verifyUpdates updates vals removed =
    Done (if MaxTotalVotingPower <? newTotal vals updates deletes
          then inl ErrTotalVotingPowerOverflow
          else inr (newTotal vals updates deletes + removed), vals').
Proof.
  intros W Hr Hnd removed vals'.
  pose proof (powerAt_disjoint_le vals updates deletes W Hnd) as Hdis. fold removed in Hdis.
  assert (0 <= removed) by (apply sumZ_nonneg; intros a _; apply powerAt_nonneg, W).
  assert (0 <= sumZ (powerAt vals) (addresses updates))
    by (apply sumZ_nonneg; intros a _; apply powerAt_nonneg, W).
  pose proof (vs_total _ W) as Ht.
  pose proof (sumZ_nonneg VotingPower (Validators vals) (proj1 (wf_powers_ok _ W))).
  unfold verifyUpdates. rewrite validatorListCopy_id.
  rewrite TotalVotingPower_spec by (auto using wf_powers_ok, vs_cache). rewrite bind_Done.
  fold vals'. rewrite (addDeltas_ext vals' vals) by done.
  set (us := sort_by _ updates).
  assert (us ≡ₚ updates) as Hperm by apply sort_by_perm.
  rewrite wrap64_id by power_lia.
  rewrite addDeltas_spec; [|done| |apply byDelta_sorted|lia|].
  - assert (sumZ VotingPower (Validators vals) - removed + sumZ VotingPower us
            - sumZ (powerAt vals) (addresses us) = newTotal vals updates deletes) as E
      by by rewrite Hperm.
    cbn zeta. rewrite E.
    destruct (Z.ltb_spec MaxTotalVotingPower (newTotal vals updates deletes)); [done|].
    rewrite wrap64_id; [done|]. unfold newTotal in *.
    pose proof (sumZ_nonneg VotingPower updates (fun u Hu => proj1 (Hr u Hu))). power_lia.
  - intros u Hu. apply Hr. by rewrite <- Hperm.
  - rewrite Hperm. lia.
Qed.

(** ** Merging the updates and dropping the deletes *)

Lemma addr_lt_above e l : Forall (addr_lt e) l -> Address e ∉ addresses l.
Proof.
  rewrite list.Forall_forall. intros Hall (w & Hw & E)%addresses_elem.
  specialize (Hall w Hw). unfold addr_lt in Hall. rewrite E in Hall.
  by apply bytes_lt_irrefl in Hall.
Qed.

Lemma addr_lt_below e u l :
  addr_lt e u -> StronglySorted addr_lt (u :: l) -> Forall (addr_lt e) (u :: l).
Proof.
  intros Heu [_ Hall]%StronglySorted_inv. constructor; [done|].
  eapply Forall_impl; [exact Hall|]. intros w. unfold addr_lt. by apply bytes_lt_trans.
Qed.

Lemma filter_notin_cons u us l :
  Address u ∉ addresses l ->
  filter (fun v => Address v ∉ addresses (u :: us)) l = filter (fun v => Address v ∉ addresses us) l.
Proof.
  induction l as [|v l IH]; intros Hu; [done|].
  rewrite fmap_cons, not_elem_of_cons in Hu. destruct Hu as [Hne Hu].
  rewrite !filter_cons, (IH Hu). apply decide_ext. rewrite fmap_cons, not_elem_of_cons.
  intuition congruence.
Qed.

Lemma mergeUpdates_perm existing updates :
  StronglySorted addr_lt existing -> StronglySorted addr_lt updates ->
  mergeUpdates existing updates ≡ₚ
    filter (fun v => Address v ∉ addresses updates) existing ++ updates.
Proof.
  intros Hs. revert updates. induction Hs as [|e existing Hs IH Hall]; intros updates Hu.
  { by destruct updates. }
  induction Hu as [|u updates Hu IHu Hallu].
  { simpl. rewrite app_nil_r, filter_all; [done|]. intros x _. apply not_elem_of_nil. }
  cbn [mergeUpdates]. destruct (bytes_compare (Address e) (Address u)) eqn:Hc.
  - apply bytes_compare_Eq in Hc. rewrite IH by done.
    rewrite filter_cons_False by (rewrite fmap_cons, elem_of_cons; auto).
    rewrite (filter_notin_cons u updates existing)
      by (rewrite <- Hc; by apply addr_lt_above).
    by rewrite <- Permutation_middle.
  - assert (Address e ∉ addresses (u :: updates)) as Hni.
    { apply addr_lt_above, addr_lt_below; [exact Hc|by constructor]. }
    rewrite filter_cons_True by done. simpl. rewrite IH by by constructor. done.
  - assert (addr_lt u e) as Hue.
    { unfold addr_lt, bytes_lt. rewrite bytes_compare_antisym, Hc. done. }
    assert (Address u ∉ addresses (e :: existing)) as Hni.
    { apply addr_lt_above, addr_lt_below; [exact Hue|by constructor]. }
    rewrite (filter_notin_cons u updates (e :: existing)) by done.
    rewrite <- Permutation_middle. f_equiv. apply IHu.
Qed.

Lemma mergeUpdates_sorted existing updates :
  StronglySorted addr_lt existing -> StronglySorted addr_lt updates ->
  StronglySorted addr_lt (mergeUpdates existing updates).
Proof.
  intros Hs. revert updates. induction Hs as [|e existing Hs IH Hall]; intros updates Hu.
  { by destruct updates. }
  induction Hu as [|u updates Hu IHu Hallu]; [by constructor|].
  cbn [mergeUpdates]. destruct (bytes_compare (Address e) (Address u)) eqn:Hc.
  - apply bytes_compare_Eq in Hc. constructor; [auto|].
    rewrite mergeUpdates_perm by done. apply list.Forall_app. split; [|done].
    rewrite list.Forall_forall in *. intros w [_ Hw]%list_elem_of_filter.
    unfold addr_lt. rewrite <- Hc. by apply Hall.
  - assert (StronglySorted addr_lt (u :: updates)) as Hu' by by constructor.
    constructor; [auto|]. rewrite mergeUpdates_perm by done. apply list.Forall_app.
    split; [|by apply addr_lt_below]. rewrite list.Forall_forall in *.
    intros w [_ Hw]%list_elem_of_filter. by apply Hall.
  - assert (addr_lt u e) as Hue.
    { unfold addr_lt, bytes_lt. rewrite bytes_compare_antisym, Hc. done. }
    assert (Forall (addr_lt u) (e :: existing)) as Hbelow
      by (apply addr_lt_below; [done|by constructor]).
    constructor; [exact IHu|]. fold (mergeUpdates (e :: existing) updates).
    rewrite (mergeUpdates_perm (e :: existing)) by (done || by constructor).
    apply list.Forall_app. split; [|done]. rewrite list.Forall_forall in *.
    intros w [_ Hw]%list_elem_of_filter. by apply Hbelow.
Qed.

Lemma appendAll n merged rest :
  (length merged + length rest <= n)%nat ->
  foldM (appendWithin n) merged rest = Done (merged ++ rest).
Proof.
  revert merged. induction rest as [|x rest IH]; intros merged Hn; cbn [foldM].
  - by rewrite app_nil_r.
  - simpl in Hn. unfold appendWithin at 1. rewrite decide_True by lia.
    rewrite bind_Done, IH by (rewrite length_app; simpl; lia). by rewrite <- (assoc_L (++)).
Qed.

Lemma removeLoop_spec n existing deletes merged :
  StronglySorted addr_lt existing -> StronglySorted addr_lt deletes ->
  (forall d, d ∈ deletes -> Address d ∈ addresses existing) ->
  (length merged + length (filter (fun v => Address v ∉ addresses deletes) existing) <= n)%nat ->
  exists rest merged',
    removeLoop n existing deletes merged = Done (rest, merged') /\
    merged' ++ rest = merged ++ filter (fun v => Address v ∉ addresses deletes) existing.
Proof.
  intros Hs. revert deletes merged. induction Hs as [|e existing Hs IH Hall]; intros ds merged Hd Hf Hn.
  { destruct ds as [|d ds]; [|specialize (Hf d ltac:(set_solver)); set_solver]. by exists [], merged. }
  destruct ds as [|d ds]; cbn [removeLoop].
  { exists (e :: existing), merged. split; [done|]. f_equal. symmetry. apply filter_all.
    intros x _. apply not_elem_of_nil. }
  apply StronglySorted_inv in Hd as [Hd Halld].
  assert (forall x, x ∈ ds -> Address e <> Address d -> Address e <> Address x) as Hne.
  { intros x Hx Hed Hex. specialize (Hf d ltac:(set_solver)).
    rewrite fmap_cons, elem_of_cons in Hf. destruct Hf as [?|(w & Hw & Ew)%addresses_elem]; [congruence|].
    rewrite list.Forall_forall in Hall, Halld. specialize (Hall w Hw). specialize (Halld x Hx).
    unfold addr_lt in *. rewrite Ew, Hex in Hall.
    by apply (bytes_lt_irrefl (Address d)), (bytes_lt_trans _ (Address x)). }
  case_bool_decide as E.
  - pose proof (addr_lt_above _ _ Hall) as Hni.
    rewrite filter_cons_False in Hn |- * by (rewrite fmap_cons, elem_of_cons; auto).
    rewrite filter_notin_cons in Hn |- * by by rewrite <- E.
    apply IH; [done| |done]. intros x Hx. specialize (Hf x ltac:(set_solver)).
    rewrite fmap_cons, elem_of_cons in Hf. destruct Hf as [Hxe|]; [|done].
    rewrite list.Forall_forall in Halld. specialize (Halld x Hx). unfold addr_lt in Halld.
    rewrite Hxe, E in Halld. by apply bytes_lt_irrefl in Halld.
  - assert (Address e ∉ addresses (d :: ds)) as Hni.
    { rewrite fmap_cons, not_elem_of_cons. split; [done|].
      intros (x & Hx & Ex)%addresses_elem. by apply (Hne x Hx E). }
    rewrite filter_cons_True in Hn |- * by done. simpl in Hn.
    unfold appendWithin. rewrite decide_True by lia. rewrite bind_Done.
    destruct (IH (d :: ds) (merged ++ [e])) as (rest & m' & Hrun & Heq); [by constructor| | |].
    + intros x Hx. specialize (Hf x Hx). rewrite fmap_cons, elem_of_cons in Hf.
      destruct Hf as [Hxe|]; [|done]. destruct Hni. apply addresses_elem. eauto.
    + rewrite length_app. simpl. lia.
    + exists rest, m'. split; [exact Hrun|]. rewrite Heq. by rewrite <- (assoc_L (++)).
Qed.

Lemma length_filter_split {A} (P : A -> Prop) `{forall x, Decision (P x)} (l : list A) :
  length l = (length (filter P l) + length (filter (fun x => ~ P x) l))%nat.
Proof.
  induction l as [|x l IH]; [done|]. rewrite !filter_cons.
  destruct (decide (P x)); [rewrite decide_False by tauto|rewrite decide_True by tauto];
    simpl; lia.
Qed.

Lemma nodup_addresses_filter (P : Validator -> Prop) `{forall x, Decision (P x)} l :
  NoDup (addresses l) -> NoDup (addresses (filter P l)).
Proof.
  induction l as [|v l IH]; [done|]. rewrite fmap_cons, NoDup_cons. intros [Hv Hl].
  rewrite filter_cons. case_decide; [|auto]. rewrite fmap_cons, NoDup_cons. split; [|auto].
  intros (w & Hw & E)%addresses_elem. apply list_elem_of_filter in Hw as [_ Hw].
  apply Hv, addresses_elem. eauto.
Qed.

Lemma applyRemovals_spec vals deletes :
  StronglySorted addr_lt (Validators vals) -> StronglySorted addr_lt deletes ->
  all_found vals deletes ->
  applyRemovals deletes vals =
    Done (setValidators (filter (fun v => Address v ∉ addresses deletes) (Validators vals)) vals).
Proof.
  intros Hs Hd Hf. pose proof (addr_lt_nodup _ Hd) as Hndd. pose proof (addr_lt_nodup _ Hs) as Hnd.
  set (kept := filter (fun v => Address v ∉ addresses deletes) (Validators vals)).
  assert (length (Validators vals) = length deletes + length kept)%nat as Hlen.
  { rewrite (length_filter_split (fun v => Address v ∈ addresses deletes) (Validators vals)).
    f_equal. rewrite <- (length_fmap Address deletes), <- (length_fmap Address (filter _ _)).
    apply Permutation_length, NoDup_Permutation; [|done|].
    - by apply nodup_addresses_filter.
    - intros a. split.
      + intros (v & Hv & <-)%addresses_elem. by apply list_elem_of_filter in Hv as [? _].
      + intros Ha. pose proof Ha as (d & Hd' & E)%addresses_elem.
        specialize (Hf d Hd') as (v & Hv & Ev)%addresses_elem. apply addresses_elem.
        exists v. rewrite list_elem_of_filter, Ev, E. done. }
  unfold applyRemovals. rewrite decide_True by lia.
  replace (length (Validators vals) - length deletes)%nat with (length kept) by lia.
  destruct (removeLoop_spec (length kept) (Validators vals) deletes []) as (rest & merged & -> & E);
    [done..|]. rewrite bind_Done. simpl in E. fold kept in E.
  rewrite appendAll by (rewrite <- E, length_app; lia). by rewrite bind_Done, E.
Qed.

(** ** Priority adjustments only touch the priorities *)

Record reprioritised (vals vals' : ValidatorSet) : Prop := {
  rp_ident : ident <$> Validators vals' = ident <$> Validators vals;
  rp_proposer : Proposer vals' = Proposer vals;
  rp_total : totalVotingPower vals' = totalVotingPower vals;
  rp_prio : forall v, v ∈ Validators vals' -> int64 (ProposerPriority v)
}.

Lemma reprioritised_trans vals1 vals2 vals3 :
  reprioritised vals1 vals2 -> reprioritised vals2 vals3 -> reprioritised vals1 vals3.
Proof. intros [] []. split; congruence || done. Qed.

Definition prios_int64 (vals : ValidatorSet) : Prop :=
  forall v, v ∈ Validators vals -> int64 (ProposerPriority v).

Lemma reprioritised_refl vals : prios_int64 vals -> reprioritised vals vals.
Proof. by split. Qed.

Lemma ident_setPriority p v : ident (setPriority p v) = ident v.
Proof. done. Qed.

Lemma reprioritised_fmap vals f :
  (forall v, v ∈ Validators vals -> int64 (f v)) ->
  reprioritised vals (setValidators ((fun v => setPriority (f v) v) <$> Validators vals) vals).
Proof.
  intros Hf. split; try done.
  - simpl. rewrite <- list_fmap_compose. by apply list_fmap_ext.
  - intros v (w & -> & Hw)%list_elem_of_fmap. by apply Hf.
Qed.

Lemma foldM_append {A B C} (f : A -> outcome B) (g : A -> B) (h : B -> A -> C) l acc :
  (forall x, x ∈ l -> f x = Done (g x)) ->
  foldM (fun acc x => let! y := f x in Done (acc ++ [h y x])) acc l
  = Done (acc ++ ((fun x => h (g x) x) <$> l)).
Proof.
  revert acc. induction l as [|x l IH]; intros acc Hf; cbn [foldM].
  - by rewrite app_nil_r.
  - rewrite Hf by set_solver. rewrite !bind_Done, IH by set_solver.
    by rewrite <- (assoc_L (++)).
Qed.

Lemma nonempty_IsNil vals : Validators vals <> [] -> IsNilOrEmpty (Some vals) = false.
Proof. intros H. simpl. by apply bool_decide_eq_false. Qed.

Lemma div64_Done a b : b <> 0 -> div64 a b = Done (wrap64 (Z.quot a b)).
Proof. intros H. unfold div64. by rewrite (proj2 (Z.eqb_neq _ _)). Qed.

(** The ratio is not 0, also when the sum in its numerator overflows. *)
Lemma ratio_nonzero diff diffMax :
  0 < diffMax <= 2 * MaxTotalVotingPower -> diffMax < diff -> int64 diff ->
  int64 (wrap64 (wrap64 (diff + diffMax) - 1)) /\
  wrap64 (Z.quot (wrap64 (wrap64 (diff + diffMax) - 1)) diffMax) <> 0.
Proof.
  intros HD Hlt Hd. split; [apply wrap64_range|].
  set (num := wrap64 (wrap64 (diff + diffMax) - 1)).
  assert (diffMax <= num \/ num <= - diffMax) as Hnum.
  { subst num. pose proof MaxTotalVotingPower_bound.
    destruct (decide (diff + diffMax <= MaxInt64)).
    - rewrite (wrap64_id (diff + diffMax)) by int_lia. rewrite wrap64_id by int_lia. lia.
    - rewrite (wrap64_high (diff + diffMax)) by int_lia.
      destruct (decide (diff + diffMax = MaxInt64 + 1)) as [->|].
      + left. transitivity MaxInt64; [int_lia|done].
      + rewrite wrap64_id by int_lia. int_lia. }
  assert (int64 num) as Hn by apply wrap64_range.
  assert (num = diffMax * Z.quot num diffMax + Z.rem num diffMax) as E by (apply Z.quot_rem; lia).
  assert (Z.abs (Z.rem num diffMax) < diffMax) as Hr.
  { pose proof (Z.rem_bound_abs num diffMax). lia. }
  rewrite wrap64_id; [intros E0; rewrite E0 in E; lia|]. unfold int64, MinInt64, MaxInt64 in *. nia.
Qed.

Lemma maxMin_fold vs max min :
  int64 max -> int64 min -> (forall v, v ∈ vs -> int64 (ProposerPriority v)) ->
  let '(max', min') :=
      foldl (fun '(max, min) v =>
               let min := if ProposerPriority v <? min then ProposerPriority v else min in
               let max := if max <? ProposerPriority v then ProposerPriority v else max in
               (max, min)) (max, min) vs in
  int64 max' /\ int64 min' /\ max <= max' /\ min' <= min /\
  (forall v, v ∈ vs -> min' <= ProposerPriority v <= max').
Proof.
  revert max min. induction vs as [|v vs IH]; intros max min Hmax Hmin Hp; cbn [foldl].
  - split_and!; [done..|lia|lia|set_solver].
  - pose proof (Hp v ltac:(set_solver)) as Hv.
    set (min1 := if ProposerPriority v <? min then ProposerPriority v else min).
    set (max1 := if max <? ProposerPriority v then ProposerPriority v else max).
    assert (int64 min1 /\ min1 <= min /\ min1 <= ProposerPriority v) as (Hm1 & Hm2 & Hm3)
      by (unfold min1; destruct (Z.ltb_spec (ProposerPriority v) min); repeat split; int_lia).
    assert (int64 max1 /\ max <= max1 /\ ProposerPriority v <= max1) as (Hx1 & Hx2 & Hx3)
      by (unfold max1; destruct (Z.ltb_spec max (ProposerPriority v)); repeat split; int_lia).
    specialize (IH max1 min1 Hx1 Hm1 ltac:(set_solver)). cbn zeta.
    fold min1 max1. destruct (foldl _ _ vs) as [max' min'].
    destruct IH as (? & ? & ? & ? & Hall). split_and!; [done..|lia|lia|].
    intros w [->|Hw]%elem_of_cons; [lia|]. by apply Hall.
Qed.

Lemma computeMaxMinPriorityDiff_Done vals :
  Validators vals <> [] -> exists d, computeMaxMinPriorityDiff vals = Done d /\ int64 d.
Proof.
  intros Hne. unfold computeMaxMinPriorityDiff. rewrite nonempty_IsNil by done.
  destruct (foldl _ _ _) as [max min]. eexists; split; [done|].
  destruct (_ <? 0); apply wrap64_range.
Qed.

Lemma RescalePriorities_Done diffMax vals :
  Validators vals <> [] -> prios_int64 vals -> diffMax <= 2 * MaxTotalVotingPower ->
  exists vals', RescalePriorities diffMax vals = Done vals' /\ reprioritised vals vals'.
Proof.
  intros Hne Hp HD. unfold RescalePriorities. rewrite nonempty_IsNil by done.
  destruct (Z.leb_spec diffMax 0); [eauto using reprioritised_refl|].
  destruct (computeMaxMinPriorityDiff_Done vals Hne) as (d & -> & Hd). rewrite bind_Done.
  rewrite div64_Done by lia. rewrite bind_Done.
  destruct (Z.ltb_spec diffMax d); [|eauto using reprioritised_refl].
  destruct (ratio_nonzero d diffMax) as [_ Hr]; [lia|done|done|].
  set (ratio := wrap64 _) in *.
  rewrite (foldM_append _ (fun val => wrap64 (Z.quot (ProposerPriority val) ratio)))
    by (intros v _; by apply div64_Done).
  rewrite bind_Done. eexists; split; [done|]. simpl.
  apply (reprioritised_fmap vals (fun v => wrap64 (Z.quot (ProposerPriority v) ratio))).
  intros v _. apply wrap64_range.
Qed.

Lemma avg_int64 (l : list Validator) :
  l <> [] -> (forall v, v ∈ l -> int64 (ProposerPriority v)) ->
  int64 (sumZ ProposerPriority l / Z.of_nat (length l)).
Proof.
  intros Hne Hp. assert (0 < Z.of_nat (length l)) by (destruct l; [done|simpl; lia]).
  pose proof (sumZ_le ProposerPriority (fun _ => MaxInt64) l (fun v Hv => proj2 (Hp v Hv))) as Hu.
  pose proof (sumZ_le (fun _ => MinInt64) ProposerPriority l (fun v Hv => proj1 (Hp v Hv))) as Hl.
  rewrite sumZ_const in Hu, Hl. split.
  - apply Z.div_le_lower_bound; lia.
  - apply Z.div_le_upper_bound; lia.
Qed.

Lemma shiftByAvg_Done vals :
  Validators vals <> [] -> prios_int64 vals ->
  exists vals', shiftByAvgProposerPriority vals = Done vals' /\ reprioritised vals vals'.
Proof.
  intros Hne Hp. unfold shiftByAvgProposerPriority, computeAvgProposerPriority.
  rewrite nonempty_IsNil by done. pose proof (avg_int64 _ Hne Hp) as Ha.
  rewrite (proj2 (Z.eqb_neq _ _)) by (destruct (Validators vals); simpl; [done|lia]).
  rewrite bool_decide_eq_true_2 by done. rewrite bind_Done. eexists; split; [done|].
  apply (reprioritised_fmap vals (fun v => safeSubClip (ProposerPriority v) _)).
  intros v Hv. rewrite safeSubClip_spec by (done || by apply Hp). apply clip64_range.
Qed.

(** ** The change-set update as a whole *)

(** The members the changes describe: the old ones no change names, and the
    changes with a positive power. *)
Definition newSet (vals : ValidatorSet) (changes : list Validator) : list Validator :=
  filter (fun v => Address v ∉ addresses changes) (Validators vals)
  ++ filter (fun c => VotingPower c <> 0) changes.

Record valid_changes (allowDeletes : bool) (vals : ValidatorSet) (changes : list Validator)
    : Prop := {
  vc_nodup : NoDup (addresses changes);
  vc_addr : forall c, c ∈ changes -> Address c <> [];
  vc_power : forall c, c ∈ changes -> power_in_range c;
  vc_delete : forall c, c ∈ changes -> VotingPower c = 0 ->
              allowDeletes = true /\ Address c ∈ addresses (Validators vals);
  vc_nonempty : newSet vals changes <> [];
  vc_total : sumZ VotingPower (newSet vals changes) <= MaxTotalVotingPower
}.

(** What a list of validators must satisfy to be a set. *)
Record members_ok (l : list Validator) : Prop := {
  mo_nodup : NoDup (addresses l);
  mo_addr : forall v, v ∈ l -> Address v <> [];
  mo_power : forall v, v ∈ l -> 0 < VotingPower v;
  mo_total : sumZ VotingPower l <= MaxTotalVotingPower
}.

Lemma addresses_ident l : addresses l = (fun i => fst (fst i)) <$> (ident <$> l).
Proof. rewrite <- list_fmap_compose. by apply list_fmap_ext. Qed.

Lemma sum_ident l : sumZ VotingPower l = sumZ snd (ident <$> l).
Proof. by rewrite sumZ_fmap. Qed.

Lemma members_ok_ident l l' : ident <$> l ≡ₚ ident <$> l' -> members_ok l -> members_ok l'.
Proof.
  intros E [Hnd Ha Hp Ht].
  assert (forall v, v ∈ l' -> exists w, w ∈ l /\ ident w = ident v) as Hmem.
  { intros v Hv. assert (ident v ∈ ident <$> l) as Hi by (rewrite E; by apply list_elem_of_fmap_2).
    apply list_elem_of_fmap in Hi as (w & Ew & Hw). eauto. }
  split.
  - by rewrite addresses_ident, <- E, <- addresses_ident.
  - intros v Hv. destruct (Hmem v Hv) as (w & Hw & Ew).
    replace (Address v) with (Address w) by (unfold ident in Ew; congruence). auto.
  - intros v Hv. destruct (Hmem v Hv) as (w & Hw & Ew).
    replace (VotingPower v) with (VotingPower w) by (unfold ident in Ew; congruence). auto.
  - by rewrite sum_ident, <- E, <- sum_ident.
Qed.

Lemma newSet_ok allowDeletes vals changes :
  VS_wf vals -> valid_changes allowDeletes vals changes -> members_ok (newSet vals changes).
Proof.
  intros W V. unfold newSet. split.
  - rewrite fmap_app, NoDup_app. split_and!.
    + apply nodup_addresses_filter, W.
    + intros a (v & Hv & <-)%addresses_elem (c & Hc & E)%addresses_elem.
      apply list_elem_of_filter in Hv as [Hv _], Hc as [_ Hc]. apply Hv, addresses_elem. eauto.
    + apply nodup_addresses_filter, V.
  - intros v [[_ Hv]%list_elem_of_filter|[_ Hv]%list_elem_of_filter]%elem_of_app.
    + by apply (vs_addr _ W).
    + by apply (vc_addr _ _ _ V).
  - intros v [[_ Hv]%list_elem_of_filter|[Hz Hv]%list_elem_of_filter]%elem_of_app.
    + by apply (vs_power _ W).
    + pose proof (vc_power _ _ _ V v Hv) as [? ?]. lia.
  - apply V.
Qed.

(** The sorted changes, split by [processChanges]. *)
Definition updatesOf (changes : list Validator) : list Validator :=
  filter (fun v => VotingPower v <> 0) (sort_by byAddressLess changes).
Definition deletesOf (changes : list Validator) : list Validator :=
  filter (fun v => VotingPower v = 0) (sort_by byAddressLess changes).

Lemma updatesOf_elem changes v : v ∈ updatesOf changes <-> v ∈ changes /\ VotingPower v <> 0.
Proof. unfold updatesOf. rewrite list_elem_of_filter, (sort_by_perm byAddressLess changes). tauto. Qed.

Lemma deletesOf_elem changes v : v ∈ deletesOf changes <-> v ∈ changes /\ VotingPower v = 0.
Proof. unfold deletesOf. rewrite list_elem_of_filter, (sort_by_perm byAddressLess changes). tauto. Qed.

Lemma filter_compl_perm {A} (P : A -> Prop) `{forall x, Decision (P x)} (l : list A) :
  filter (fun x => ~ P x) l ++ filter P l ≡ₚ l.
Proof.
  induction l as [|x l IH]; [done|]. rewrite !filter_cons. destruct (decide (P x)).
  - rewrite decide_False by tauto. by rewrite <- Permutation_middle, IH.
  - rewrite decide_True by tauto. simpl. by rewrite IH.
Qed.

Lemma split_perm changes : updatesOf changes ++ deletesOf changes ≡ₚ changes.
Proof.
  unfold updatesOf, deletesOf. rewrite (filter_compl_perm (fun v => VotingPower v = 0)).
  apply sort_by_perm.
Qed.

Lemma split_addresses changes a :
  a ∈ addresses changes <-> a ∈ addresses (updatesOf changes) \/ a ∈ addresses (deletesOf changes).
Proof. by rewrite <- elem_of_app, <- fmap_app, split_perm. Qed.

Lemma newTotal_sum vals changes :
  VS_wf vals -> NoDup (addresses changes) ->
  newTotal vals (updatesOf changes) (deletesOf changes) = sumZ VotingPower (newSet vals changes).
Proof.
  intros W Hnd. unfold newTotal, newSet. rewrite sumZ_app.
  assert (sumZ VotingPower (updatesOf changes)
          = sumZ VotingPower (filter (fun c => VotingPower c <> 0) changes)) as ->.
  { unfold updatesOf. by rewrite (sort_by_perm byAddressLess changes). }
  assert (sumZ (powerAt vals) (addresses (updatesOf changes))
          + sumZ (powerAt vals) (addresses (deletesOf changes))
          = sumZ (powerAt vals) (addresses changes)) as Hsplit.
  { rewrite <- sumZ_app, <- fmap_app. by rewrite split_perm. }
  rewrite (sumZ_filter_split VotingPower (fun v => Address v ∈ addresses changes) (Validators vals)).
  rewrite (sum_powerAt vals (addresses changes) (vs_nodup _ W) Hnd) in Hsplit. lia.
Qed.

Lemma filter_nil_inv {A} (P : A -> Prop) `{forall x, Decision (P x)} (l : list A) x :
  filter P l = [] -> x ∈ l -> ~ P x.
Proof. intros E Hx HP. apply (not_elem_of_nil x). rewrite <- E. by apply list_elem_of_filter. Qed.

Lemma numNewValidators_zero vals us :
  (numNewValidators us vals =? 0) = true <->
  (forall u, u ∈ us -> Address u ∈ addresses (Validators vals)).
Proof.
  unfold numNewValidators. rewrite Z.eqb_eq. split.
  - intros Hz u Hu. apply HasAddress_true. destruct (HasAddress vals (Address u)) eqn:E; [done|].
    assert (filter (fun u => HasAddress vals (Address u) = false) us = []) as Hnil
      by (apply nil_length_inv; lia).
    by apply (filter_nil_inv _ _ u Hnil) in Hu.
  - intros Hall. rewrite filter_none; [done|]. intros u Hu.
    rewrite (proj2 (HasAddress_true _ _) (Hall u Hu)). done.
Qed.

(** The guard against an empty result, once all deletes are known. *)
Lemma emptyGuard_spec vals changes :
  VS_wf vals -> NoDup (addresses changes) -> all_found vals (deletesOf changes) ->
  (numNewValidators (updatesOf changes) vals =? 0)
    && (length (Validators vals) =? length (deletesOf changes))%nat = true <->
  newSet vals changes = [].
Proof.
  intros W Hnd Hf. rewrite andb_true_iff, numNewValidators_zero, Nat.eqb_eq.
  assert (NoDup (addresses (deletesOf changes))) as Hndd.
  { pose proof Hnd as Hnd'. rewrite <- (split_perm changes), fmap_app, NoDup_app in Hnd'. tauto. }
  assert (addresses (deletesOf changes) ⊆+ addresses (Validators vals)) as Hsub.
  { apply NoDup_submseteq; [done|]. intros a (d & Hd & <-)%addresses_elem. auto. }
  split.
  - intros [Hu Hlen].
    assert (forall a, a ∈ addresses (Validators vals) -> a ∈ addresses (deletesOf changes)) as Hin.
    { intros a Ha. assert (addresses (deletesOf changes) ≡ₚ addresses (Validators vals)) as ->; [|done].
      apply submseteq_length_Permutation; [done|]. rewrite !length_fmap. lia. }
    unfold newSet. rewrite !filter_none; [done|..].
    + intros c Hc Hz. destruct (proj1 (addresses_elem _ _) (Hin _ (Hu c
        (proj2 (updatesOf_elem changes c) (conj Hc Hz))))) as (d & [Hd Hdz]%deletesOf_elem & E).
      apply Hz. by rewrite <- (nodup_address_inj changes d c Hnd Hd Hc E).
    + intros v Hv Hni. apply Hni.
      destruct (proj1 (addresses_elem _ _) (Hin (Address v) ltac:(apply addresses_elem; eauto)))
        as (d & [Hd _]%deletesOf_elem & E). apply addresses_elem. eauto.
  - intros [Hold Hch]%app_nil. split.
    + intros u [Hu Hz]%updatesOf_elem. by apply (filter_nil_inv _ _ u Hch) in Hu.
    + apply Nat.le_antisymm; [|apply submseteq_length in Hsub; by rewrite !length_fmap in Hsub].
      rewrite <- (length_fmap Address (Validators vals)), <- (length_fmap Address (deletesOf _)).
      apply submseteq_length, NoDup_submseteq; [apply W|].
      intros a (v & Hv & <-)%addresses_elem. pose proof (filter_nil_inv _ _ v Hold Hv) as Hin.
      destruct (decide (Address v ∈ addresses changes)) as [(c & Hc & E)%addresses_elem|]; [|done].
      apply addresses_elem. exists c. split; [|done]. apply deletesOf_elem. split; [done|].
      pose proof (filter_nil_inv _ _ c Hch Hc). destruct (decide (VotingPower c = 0)); tauto.
Qed.

Lemma computeNewPriorities_ident us vals tvp :
  ident <$> computeNewPriorities us vals tvp = ident <$> us.
Proof.
  unfold computeNewPriorities. rewrite <- list_fmap_compose. apply list_fmap_ext.
  intros i u _. simpl. by destruct (snd _).
Qed.

Lemma computeNewPriorities_int64 us vals tvp v :
  prios_int64 vals -> v ∈ computeNewPriorities us vals tvp -> int64 (ProposerPriority v).
Proof.
  intros Hp (u & -> & Hu)%list_elem_of_fmap. destruct (snd _) as [w|] eqn:E.
  - apply GetByAddress_Some in E as [Hw _]. by apply (Hp w).
  - apply wrap64_range.
Qed.

Lemma addr_lt_ident l l' : addresses l = addresses l' -> StronglySorted addr_lt l -> StronglySorted addr_lt l'.
Proof.
  revert l'. induction l as [|v l IH]; intros [|v' l'] E; try done.
  rewrite !fmap_cons in E. injection E as E1 E2. intros [Hs Hall]%StronglySorted_inv.
  constructor; [auto|]. rewrite list.Forall_forall in *. intros w' Hw'.
  assert (Address w' ∈ addresses l) as (w & Hw & Ew)%addresses_elem
    by (rewrite E2; apply addresses_elem; eauto).
  specialize (Hall w Hw). unfold addr_lt in *. congruence.
Qed.

(** The list of members that [applyUpdates] and [applyRemovals] leave. *)
Lemma applied_members vals changes us :
  VS_wf vals -> NoDup (addresses changes) -> all_found vals (deletesOf changes) ->
  ident <$> us = ident <$> updatesOf changes ->
  exists l,
    applyRemovals (deletesOf changes) (applyUpdates us vals) = Done (setValidators l vals) /\
    ident <$> l ≡ₚ ident <$> newSet vals changes /\
    (forall v, v ∈ l -> v ∈ Validators vals \/ v ∈ us).
Proof.
  intros W Hnd Hf Eus.
  assert (addresses us = addresses (updatesOf changes)) as Ea by (by rewrite !addresses_ident, Eus).
  assert (StronglySorted addr_lt us) as Hs.
  { apply (addr_lt_ident (updatesOf changes)); [done|].
    by apply StronglySorted_filter, sort_byAddress_strict. }
  assert (StronglySorted addr_lt (sort_by byAddressLess (Validators vals))) as Hso
    by (apply sort_byAddress_strict, W).
  set (merged := mergeUpdates (sort_by byAddressLess (Validators vals)) us).
  assert (merged ≡ₚ filter (fun v => Address v ∉ addresses us) (Validators vals) ++ us) as Hperm.
  { unfold merged. rewrite mergeUpdates_perm by done. by rewrite (sort_by_perm byAddressLess (Validators vals)). }
  pose proof Hnd as Hdis. rewrite <- (split_perm changes), fmap_app, NoDup_app in Hdis.
  destruct Hdis as (_ & Hdis & _).
  exists (filter (fun v => Address v ∉ addresses (deletesOf changes)) merged). split_and!.
  - unfold applyUpdates. fold merged. rewrite applyRemovals_spec; [done|..].
    + by apply mergeUpdates_sorted.
    + by apply StronglySorted_filter, sort_byAddress_strict.
    + intros d Hd. simpl. specialize (Hf d Hd) as (v & Hv & Ev)%addresses_elem.
      apply addresses_elem. exists v. split; [|done]. rewrite Hperm. apply elem_of_app. left.
      apply list_elem_of_filter. split; [|done]. rewrite Ev, Ea. intros Hu.
      apply (Hdis _ Hu), addresses_elem. eauto.
  - rewrite Hperm, list.filter_app, list_filter_filter, fmap_app. unfold newSet. rewrite fmap_app. f_equiv.
    + f_equiv. apply reflexive_eq, list_filter_iff. intros v. rewrite Ea, (split_addresses changes).
      tauto.
    + rewrite filter_all.
      * rewrite Eus. unfold updatesOf. by rewrite (sort_by_perm byAddressLess changes).
      * intros u Hu Hin. apply (Hdis (Address u)); [|done]. rewrite <- Ea. apply addresses_elem. eauto.
  - intros v [_ Hv]%list_elem_of_filter. rewrite Hperm in Hv.
    apply elem_of_app in Hv as [[_ Hv]%list_elem_of_filter|Hv]; auto.
Qed.

Lemma members_powers_ok vals : members_ok (Validators vals) -> powers_ok vals.
Proof. intros M. split; [|apply M]. intros v Hv. apply Z.lt_le_incl. by apply (mo_power _ M). Qed.

Lemma reprioritised_members vals vals' :
  reprioritised vals vals' -> members_ok (Validators vals) -> members_ok (Validators vals').
Proof. intros R. apply members_ok_ident. by rewrite (rp_ident _ _ R). Qed.

Lemma ident_nonempty (l l' : list Validator) : ident <$> l' = ident <$> l -> l <> [] -> l' <> [].
Proof. intros E Hl ->. destruct l; done. Qed.

(** The tail of [updateWithChangeSet]: total power, rescaling, centring and
    the final sort. *)
Lemma settle vals :
  members_ok (Validators vals) -> Validators vals <> [] -> prios_int64 vals ->
  exists vals',
    (let! vals := updateTotalVotingPower vals in
     let! (total, vals) := TotalVotingPower vals in
     let! vals := RescalePriorities (wrap64 (PriorityWindowSizeFactor * total)) vals in
     let! vals := shiftByAvgProposerPriority vals in
     Done (@None error, setValidators (sort_by byVotingPowerLess (Validators vals)) vals))
    = Done (None, vals') /\
    VS_wf vals' /\ ident <$> Validators vals' ≡ₚ ident <$> Validators vals /\
    totalVotingPower vals' = sumZ VotingPower (Validators vals) /\ Proposer vals' = Proposer vals.
Proof.
  intros M Hne Hp. set (total := sumZ VotingPower (Validators vals)).
  rewrite updateTotalVotingPower_spec by by apply members_powers_ok. rewrite bind_Done.
  set (vals1 := setTotalVotingPower total vals).
  change (setTotalVotingPower _ vals) with vals1.
  assert (TotalVotingPower vals1 = Done (total, vals1)) as ->
    by (apply (TotalVotingPower_spec vals1); [by apply members_powers_ok|by right]).
  rewrite bind_Done.
  assert (0 <= total <= MaxTotalVotingPower) as Ht
    by (split; [apply sumZ_nonneg, (members_powers_ok vals M)|apply M]).
  rewrite wrap64_id by (unfold PriorityWindowSizeFactor; power_lia).
  destruct (RescalePriorities_Done (PriorityWindowSizeFactor * total) vals1)
    as (vals2 & -> & R1); [done..|unfold PriorityWindowSizeFactor; lia|]. rewrite bind_Done.
  assert (Validators vals2 <> []) as Hne2 by (by apply (ident_nonempty (Validators vals1)), Hne; apply R1).
  destruct (shiftByAvg_Done vals2 Hne2 (rp_prio _ _ R1)) as (vals3 & -> & R2). rewrite bind_Done.
  pose proof (reprioritised_trans _ _ _ R1 R2) as R. eexists; split; [done|]. simpl.
  pose proof (sort_by_perm byVotingPowerLess (Validators vals3)) as Hperm.
  assert (ident <$> sort_by byVotingPowerLess (Validators vals3) ≡ₚ ident <$> Validators vals) as Hid
    by (rewrite Hperm; by rewrite (rp_ident _ _ R)).
  assert (members_ok (sort_by byVotingPowerLess (Validators vals3))) as M3
    by (by apply (members_ok_ident (Validators vals))).
  assert (totalVotingPower vals3 = total) as Etot by (by rewrite (rp_total _ _ R)).
  split_and!; [|done|done|apply (rp_proposer _ _ R)]. split; simpl; try apply M3.
  - right. rewrite Etot. by rewrite sum_ident, Hid, <- sum_ident.
  - intros v Hv. rewrite Hperm in Hv. by apply (rp_prio _ _ R2).
  - apply sort_byPower_sorted.
Qed.

(** What [updateWithChangeSet] returns for valid changes. *)
Definition accepted (vals : ValidatorSet) (changes : list Validator) (vals' : ValidatorSet) : Prop :=
  VS_wf vals' /\ ident <$> Validators vals' ≡ₚ ident <$> newSet vals changes /\
  totalVotingPower vals' = sumZ VotingPower (newSet vals changes) /\ Proposer vals' = Proposer vals.

Lemma NoDup_nil_addresses changes :
  NoDup ([] :: addresses changes) <->
  NoDup (addresses changes) /\ forall c, c ∈ changes -> Address c <> [].
Proof.
  rewrite NoDup_cons, addresses_elem. split.
  - intros [Hn Hnd]. split; [done|]. intros c Hc E. apply Hn. eauto.
  - intros [Hnd Ha]. split; [|done]. intros (c & Hc & E). by apply (Ha c Hc).
Qed.

Lemma guard_deletes (allowDeletes : bool) changes :
  negb allowDeletes && negb (bool_decide (deletesOf changes = [])) = false <->
  (forall c, c ∈ changes -> VotingPower c = 0 -> allowDeletes = true).
Proof.
  rewrite andb_false_iff, !negb_false_iff, bool_decide_eq_true. split.
  - intros [->|E] c Hc Hz; [done|]. assert (c ∈ deletesOf changes) as Hd by by apply deletesOf_elem.
    rewrite E in Hd. by apply elem_of_nil in Hd.
  - intros H. destruct allowDeletes; [auto|]. right. destruct (deletesOf changes) as [|c cs] eqn:E; [done|].
    assert (c ∈ deletesOf changes) as [Hc Hz]%deletesOf_elem by (rewrite E; set_solver).
    by specialize (H c Hc Hz).
Qed.

Lemma update_accepts allowDeletes changes vals :
  VS_wf vals -> changes <> [] -> valid_changes allowDeletes vals changes ->
  exists vals', updateWithChangeSet changes allowDeletes vals = Done (None, vals') /\
                accepted vals changes vals'.
Proof.
  intros W Hne V. unfold updateWithChangeSet. destruct changes as [|c0 cs]; [done|].
  set (changes := c0 :: cs) in *. pose proof (vc_nodup _ _ _ V) as Hnd.
  assert (processChanges changes = inr (updatesOf changes, deletesOf changes)) as ->.
  { apply processChanges_inr. split_and!; [|apply V|done]. apply NoDup_nil_addresses. split; apply V. }
  rewrite (proj2 (guard_deletes _ _)) by (intros c Hc Hz; by apply (vc_delete _ _ _ V c Hc)).
  assert (all_found vals (deletesOf changes)) as Hf
    by (intros d [Hd Hz]%deletesOf_elem; by apply (vc_delete _ _ _ V)).
  pose proof (emptyGuard_spec vals changes W Hnd Hf) as Hg.
  destruct (_ && _); [by destruct (vc_nonempty _ _ _ V); apply Hg|]. clear Hg.
  assert (NoDup (addresses (updatesOf changes ++ deletesOf changes))) as Hnds
    by (by rewrite split_perm).
  pose proof Hnds as Hnd2. rewrite fmap_app, NoDup_app in Hnd2.
  rewrite (proj1 (verifyRemovals_spec vals (deletesOf changes) W ltac:(tauto)) Hf), bind_Done.
  rewrite (verifyUpdates_spec vals (updatesOf changes) (deletesOf changes) W)
    by first [done | intros u [Hu _]%updatesOf_elem; by apply (vc_power _ _ _ V)].
  rewrite bind_Done, newTotal_sum by done.
  rewrite (proj2 (Z.ltb_ge _ _)) by apply V. cbn beta iota.
  set (vals1 := setTotalVotingPower _ vals). set (tvp := _ + _).
  assert (VS_wf vals1) as W1 by (destruct W; split; try done; by right).
  destruct (applied_members vals1 changes (computeNewPriorities (updatesOf changes) vals1 tvp))
    as (l & -> & Hl & Hin); [done..|apply computeNewPriorities_ident|]. rewrite bind_Done.
  assert (members_ok l) as M
    by (apply (members_ok_ident (newSet vals changes)); [done|by eapply newSet_ok]).
  destruct (settle (setValidators l vals1)) as (vals' & -> & W' & Hid & Ht & Hpr); [done|..].
  - simpl. intros ->. apply (vc_nonempty _ _ _ V). rewrite fmap_nil in Hl.
    apply Permutation_nil_l in Hl. symmetry in Hl. by apply fmap_nil_inv in Hl.
  - intros v Hv. destruct (Hin v Hv) as [Hv'|Hv']; [by apply (vs_prio _ W)|].
    eapply computeNewPriorities_int64; [exact (vs_prio _ W1)|done].
  - exists vals'. split; [done|]. split_and!; [done| | |done].
    + rewrite Hid. exact Hl.
    + rewrite Ht. simpl. by rewrite sum_ident, Hl, <- sum_ident.
Qed.

(** What it returns otherwise: at most the cached total is filled in. *)
Definition unchanged (vals vals' : ValidatorSet) : Prop :=
  Validators vals' = Validators vals /\ Proposer vals' = Proposer vals /\ VS_wf vals'.

Lemma unchanged_refl vals : VS_wf vals -> unchanged vals vals.
Proof. done. Qed.

Ltac refused := eexists _, _; split; [reflexivity|by apply unchanged_refl].

Lemma update_rejects allowDeletes changes vals :
  VS_wf vals -> changes <> [] -> ~ valid_changes allowDeletes vals changes ->
  exists e vals', updateWithChangeSet changes allowDeletes vals = Done (Some e, vals') /\
                  unchanged vals vals'.
Proof.
  intros W Hne V. unfold updateWithChangeSet. destruct changes as [|c0 cs]; [done|].
  set (changes := c0 :: cs) in *.
  destruct (processChanges changes) as [e|p] eqn:Ep; [refused|].
  apply processChanges_inr in Ep as ([Hnd Haddr]%NoDup_nil_addresses & Hpow & ->).
  fold (updatesOf changes) (deletesOf changes).
  destruct (negb allowDeletes && _) eqn:Eg; [refused|].
  pose proof (proj1 (guard_deletes _ _) Eg) as Hallow.
  destruct ((numNewValidators _ _ =? 0) && _) eqn:Ee; [refused|].
  assert (NoDup (addresses (updatesOf changes ++ deletesOf changes))) as Hnds
    by (by rewrite split_perm).
  pose proof Hnds as Hnd2. rewrite fmap_app, NoDup_app in Hnd2.
  destruct (verifyRemovals_spec vals (deletesOf changes) W ltac:(tauto)) as [Hyes Hno].
  assert (Decision (all_found vals (deletesOf changes))) as Hdec.
  { unfold all_found. destruct (decide (Forall (fun d => Address d ∈ addresses (Validators vals))
      (deletesOf changes))) as [H|H]; rewrite list.Forall_forall in H; [by left|by right]. }
  destruct Hdec as [Hf|Hf]; [|destruct (Hno Hf) as [e ->]; rewrite bind_Done; refused].
  rewrite (Hyes Hf), bind_Done.
  rewrite (verifyUpdates_spec vals (updatesOf changes) (deletesOf changes) W)
    by first [done | intros u [Hu _]%updatesOf_elem; by apply Hpow].
  rewrite bind_Done, newTotal_sum by done.
  destruct (Z.ltb_spec MaxTotalVotingPower (sumZ VotingPower (newSet vals changes))).
  - eexists _, _. split; [done|]. split_and!; [done..|]. destruct W; split; try done. by right.
  - destruct V. split; try done.
    + intros c Hc Hz. split; [by eapply Hallow|]. apply Hf. by apply deletesOf_elem.
    + intros E. apply (emptyGuard_spec vals changes W Hnd Hf) in E. congruence.
Qed.

(** [C8] [updateWithChangeSet] decides exactly the validity of a change
    set and never panics.  On a well-formed set, a non-empty list of changes
    with distinct non-empty addresses, powers between 0 and
    [MaxTotalVotingPower], deletes only of known validators (and only where
    allowed), a non-empty result and a total power within the maximum is
    accepted: the new members are the old ones the changes do not name
    together with the changes of positive power, the cached total is their
    sum, and the set is well formed again.  Every other list of changes is
    refused with an error and leaves validators and proposer as they were. *)
Theorem updateWithChangeSet_correct allowDeletes changes vals :
  VS_wf vals -> changes <> [] ->
  (valid_changes allowDeletes vals changes ->
     exists vals', updateWithChangeSet changes allowDeletes vals = Done (None, vals') /\
                   accepted vals changes vals') /\
  (~ valid_changes allowDeletes vals changes ->
     exists e vals', updateWithChangeSet changes allowDeletes vals = Done (Some e, vals') /\
                     unchanged vals vals').
Proof. intros W Hne. split; [by apply update_accepts|by apply update_rejects]. Qed.

(** Proves a property of every element of a concrete list. *)
Ltac each_element :=
  apply list.Forall_forall; repeat constructor; (done || (vm_compute; done) || int_lia).

Ltac concrete_wf :=
  split; [by apply (bool_decide_unpack _); vm_compute | each_element | each_element
         | by vm_compute | by (left; reflexivity) || (right; reflexivity)
         | each_element | repeat constructor ].

Definition exampleAddress (n : Z) : bytes := replicate 20 (byte_of_Z n).
Definition exampleValidator (n power prio : Z) : Validator :=
  mkValidator (exampleAddress n) (Some (PubKeyEd25519 (exampleAddress n))) power prio.
Definition exampleSet : ValidatorSet :=
  mkValidatorSet [exampleValidator 1 10 3; exampleValidator 2 5 (-3)] None 0.

Lemma exampleSet_wf : VS_wf exampleSet.
Proof. concrete_wf. Defined.

Definition exampleChanges : list Validator := [exampleValidator 1 0 0; exampleValidator 3 7 0].

Lemma exampleChanges_valid : valid_changes true exampleSet exampleChanges.
Proof.
  split; [by apply (bool_decide_unpack _); vm_compute | each_element | each_element
         | | by vm_compute | by vm_compute ].
  refine (proj1 (list.Forall_forall _ _) _). apply (bool_decide_unpack _). by vm_compute.
Qed.

Lemma updateWithChangeSet_correct_witness :
  exists vals', updateWithChangeSet exampleChanges true exampleSet = Done (None, vals') /\
                accepted exampleSet exampleChanges vals'.
Proof.
  apply (updateWithChangeSet_correct true exampleChanges exampleSet exampleSet_wf); [done|].
  apply exampleChanges_valid.
Defined.
