(* ===== verification/ProposerPriority.v ===== *)
(** * Proposer selection

    Correctness of the priority arithmetic of types/validator_set.go: one step
    of the selection, [IncrementProposerPriority] as a whole, the window that
    [RescalePriorities] enforces, and the fairness of the rotation. *)

From Stdlib Require Import ZArith Lia.
From S2P Require Import Prelude Validator ValidatorSet ValidatorSetUpdate.
From stdpp Require Import base gmap list option strings numbers sorting.

Local Open Scope Z_scope.

(** ** The validator with the highest priority *)

(** [v] is proposed before [w]: a higher priority, or the lower address. *)
Definition before (v w : Validator) : Prop :=
  ProposerPriority w < ProposerPriority v \/
  (ProposerPriority v = ProposerPriority w /\ bytes_lt (Address v) (Address w)).

Lemma before_trans u v w : before u v -> before v w -> before u w.
Proof.
  unfold before. intros [?|[? ?]] [?|[? ?]]; [left; lia..|].
  right. split; [lia|]. by eapply bytes_lt_trans.
Qed.

Lemma keepsReceiver_spec v w :
  Address v <> Address w ->
  (keepsReceiver v w = Done true /\ before v w) \/ (keepsReceiver v w = Done false /\ before w v).
Proof.
  intros Hne. unfold keepsReceiver, before.
  destruct (Z.ltb_spec (ProposerPriority w) (ProposerPriority v)); [left; auto|].
  destruct (Z.ltb_spec (ProposerPriority v) (ProposerPriority w)); [right; auto|].
  destruct (bytes_compare (Address v) (Address w)) eqn:E.
  - by apply bytes_compare_Eq in E.
  - left. split; [done|]. right. split; [lia|done].
  - right. split; [done|]. right. split; [lia|].
    unfold bytes_lt. by rewrite bytes_compare_antisym, E.
Qed.

Lemma zip_seq_lookup {A} (l : list A) i x :
  zip (seq 0 (length l)) l !! i = Some x <-> exists y, x = (i, y) /\ l !! i = Some y.
Proof.
  rewrite lookup_zip_with_Some. split.
  - intros (j & y & -> & Hj & Hy). apply lookup_seq in Hj as [-> _]. eauto.
  - intros (y & -> & Hy). exists i, y. split_and!; [done| |done].
    apply lookup_seq. split; [done|]. by eapply lookup_lt_Some.
Qed.

Lemma nodup_lookup_ne (vs : list Validator) i j v w :
  NoDup (addresses vs) -> vs !! i = Some v -> vs !! j = Some w -> i <> j -> Address v <> Address w.
Proof.
  intros Hnd Hi Hj Hij E. apply Hij. eapply NoDup_lookup; [done|..].
  - by rewrite list_lookup_fmap, Hi.
  - by rewrite list_lookup_fmap, Hj; simpl; rewrite E.
Qed.

(** Position [i] holds [v], which comes before every other element. *)
Definition is_most (vs : list Validator) (i : nat) (v : Validator) : Prop :=
  vs !! i = Some v /\ forall j w, vs !! j = Some w -> j <> i -> before v w.

Lemma mostPriority_spec vs :
  NoDup (addresses vs) -> vs <> [] ->
  exists i v, mostPriority vs = Done (Some (i, v)) /\ is_most vs i v.
Proof.
  intros Hnd Hne.
  set (P := fun (n : nat) (s : option (nat * Validator)) =>
    match s with
    | None => n = 0%nat
    | Some (i, v) => (i < n)%nat /\ vs !! i = Some v /\
        forall j w, vs !! j = Some w -> (j < n)%nat -> j <> i -> before v w
    end).
  destruct (foldM_inv P
    (fun res (iv : nat * Validator) =>
           match res with
           | None => Done (Some iv)
           | Some r => let! k := keepsReceiver (snd r) (snd iv) in Done (if (k : bool) then res else Some iv)
           end) None (zip (seq 0 (length vs)) vs)) as (s & Hs & HP); [done| |].
  - intros n x s (y & -> & Hy)%zip_seq_lookup HP. destruct s as [[i v]|]; simpl in HP.
    + destruct HP as (Hi & Hv & Hall). simpl.
      destruct (keepsReceiver_spec v y) as [[-> Hb]|[-> Hb]];
        [by eapply (nodup_lookup_ne vs i n); [done..|lia]| |]; rewrite bind_Done; eexists; (split; [done|]); simpl.
      * split_and!; [lia|done|]. intros j w Hj Hlt Hji.
        destruct (decide (j = n)) as [->|]; [by simplify_eq|]. eapply Hall; [done|lia|done].
      * split_and!; [lia|done|]. intros j w Hj Hlt Hjn.
        destruct (decide (j = i)) as [->|]; [by simplify_eq|].
        eapply before_trans; [done|]. eapply Hall; [done|lia|done].
    + subst n. eexists; split; [done|]. simpl. split_and!; [lia|done|]. intros; lia.
  - unfold mostPriority. rewrite Hs. rewrite length_zip, length_seq, Nat.min_id in HP.
    destruct s as [[i v]|]; simpl in HP.
    + destruct HP as (_ & Hv & Hall). exists i, v. split; [done|]. split; [done|].
      intros j w Hj Hji. eapply Hall; [done| |done]. by eapply lookup_lt_Some.
    + by destruct vs.
Qed.

(** ** One step of the selection *)

(** The state after every priority has grown by its validator's power. *)
Definition grown (vs : list Validator) : list Validator :=
  (fun v => setPriority (clip64 (ProposerPriority v + VotingPower v)) v) <$> vs.

(** What [incrementProposerPriority] does to a well-formed set. *)
Definition stepped (vals : ValidatorSet) (p : Validator) (vals' : ValidatorSet) : Prop :=
  let total := sumZ VotingPower (Validators vals) in
  exists i m, is_most (grown (Validators vals)) i m /\
    p = setPriority (clip64 (ProposerPriority m - total)) m /\
    vals' = mkValidatorSet (<[i := p]> (grown (Validators vals))) (Proposer vals) total.

Lemma power_int64 vals v : VS_wf vals -> v ∈ Validators vals -> int64 (VotingPower v).
Proof.
  intros W Hv. pose proof (vs_power _ W v Hv).
  pose proof (sumZ_elem_le VotingPower v (Validators vals)
    (fun w Hw => Z.lt_le_incl _ _ (vs_power _ W w Hw)) Hv).
  pose proof (vs_total _ W). power_lia.
Qed.

Lemma total_range vals : VS_wf vals -> 0 <= sumZ VotingPower (Validators vals) <= MaxTotalVotingPower.
Proof. intros W. split; [apply sumZ_nonneg, (wf_powers_ok _ W)|apply W]. Qed.

Lemma grown_ident vs : ident <$> grown vs = ident <$> vs.
Proof. unfold grown. rewrite <- list_fmap_compose. by apply list_fmap_ext. Qed.

Lemma grown_addresses vs : addresses (grown vs) = addresses vs.
Proof. by rewrite !addresses_ident, grown_ident. Qed.

Lemma grown_int64 vs v : v ∈ grown vs -> int64 (ProposerPriority v).
Proof. intros (w & -> & _)%list_elem_of_fmap. apply clip64_range. Qed.

Lemma incrementProposerPriority_spec vals :
  VS_wf vals -> Validators vals <> [] ->
  exists p vals', incrementProposerPriority vals = Done (p, vals') /\ stepped vals p vals'.
Proof.
  intros W Hne. unfold incrementProposerPriority.
  assert ((fun v => setPriority (safeAddClip (ProposerPriority v) (VotingPower v)) v)
            <$> Validators vals = grown (Validators vals)) as ->.
  { apply list_fmap_ext. intros i v Hv%list_elem_of_lookup_2.
    rewrite safeAddClip_spec; [done|by apply (vs_prio _ W)|by eapply power_int64]. }
  set (vs := grown _).
  assert (ident <$> vs = ident <$> Validators vals) as Eid by apply grown_ident.
  destruct (mostPriority_spec vs) as (i & m & -> & Hm).
  { unfold vs. rewrite grown_addresses. apply W. }
  { by apply (ident_nonempty (Validators vals)). }
  rewrite bind_Done. simpl.
  rewrite TotalVotingPower_spec; cycle 1.
  { split; simpl.
    - intros v (w & -> & Hw)%list_elem_of_fmap. simpl. apply Z.lt_le_incl. by apply (vs_power _ W).
    - rewrite sum_ident, Eid, <- sum_ident. apply W. }
  { simpl. rewrite (sum_ident vs), Eid, <- sum_ident. apply W. }
  rewrite bind_Done. simpl. rewrite (sum_ident vs), Eid, <- sum_ident.
  set (total := sumZ _ _).
  assert (0 <= total <= MaxTotalVotingPower) by by apply total_range.
  rewrite safeSubClip_spec by (power_lia || (eapply grown_int64, list_elem_of_lookup_2, Hm)).
  do 2 eexists. split; [done|]. by exists i, m.
Qed.

Lemma insert_ident (vs : list Validator) i m p :
  vs !! i = Some m -> ident p = ident m -> ident <$> <[i := p]> vs = ident <$> vs.
Proof.
  intros Hi E. rewrite list_fmap_insert, E. apply list_insert_id.
  by rewrite list_lookup_fmap, Hi.
Qed.

Lemma sorted_ident (l l' : list Validator) :
  ident <$> l = ident <$> l' ->
  StronglySorted (sort_le byVotingPowerLess) l -> StronglySorted (sort_le byVotingPowerLess) l'.
Proof.
  revert l'. induction l as [|v l IH]; intros [|v' l'] E; try done.
  rewrite !fmap_cons in E. injection E as E1 E2 E3 E4. intros [Hs Hall]%StronglySorted_inv.
  constructor; [auto|]. rewrite list.Forall_forall in *. intros w' Hw'.
  assert (ident w' ∈ ident <$> l) as (w & Ew & Hw)%list_elem_of_fmap
    by (rewrite E4; by apply list_elem_of_fmap_2).
  specialize (Hall w Hw). unfold sort_le, byVotingPowerLess, byAddressLess in *.
  unfold ident in Ew. injection Ew as -> _ ->. by rewrite <- E1, <- E3.
Qed.

(** Changing priorities, and caching the total, keeps the set well formed. *)
Lemma wf_reprioritised vals vals' :
  VS_wf vals -> ident <$> Validators vals' = ident <$> Validators vals ->
  (totalVotingPower vals' = totalVotingPower vals \/
   totalVotingPower vals' = sumZ VotingPower (Validators vals)) ->
  prios_int64 vals' -> VS_wf vals'.
Proof.
  intros W E Ht Hp.
  assert (members_ok (Validators vals')) as [].
  { apply (members_ok_ident (Validators vals)); [by rewrite E|]. destruct W. by split. }
  split; try done.
  - rewrite sum_ident, E, <- sum_ident. destruct Ht as [->| ->]; [apply W|by right].
  - by apply (sorted_ident (Validators vals)), W.
Qed.

Lemma stepped_ident vals p vals' :
  stepped vals p vals' -> ident <$> Validators vals' = ident <$> Validators vals.
Proof.
  intros (i & m & [Hi _] & -> & ->). simpl.
  by rewrite (insert_ident _ i m _ Hi), grown_ident.
Qed.

Lemma stepped_wf vals p vals' : VS_wf vals -> stepped vals p vals' -> VS_wf vals'.
Proof.
  intros W Hs. eapply wf_reprioritised; [done|by eapply stepped_ident|..].
  - destruct Hs as (i & m & _ & _ & ->). by right.
  - destruct Hs as (i & m & _ & -> & ->). intros v Hv. simpl in Hv.
    apply list_elem_of_lookup in Hv as [j Hj]. apply list_lookup_insert_Some in Hj.
    destruct Hj as [(_ & <- & _)|[_ Hj]]; [apply clip64_range|].
    by eapply grown_int64, list_elem_of_lookup_2.
Qed.

Lemma stepped_proposer vals p vals' : stepped vals p vals' -> p ∈ Validators vals'.
Proof.
  intros (i & m & [Hi _] & -> & ->). simpl. eapply list_elem_of_lookup_2.
  apply list_lookup_insert_eq. by eapply lookup_lt_Some.
Qed.

(** ** [IncrementProposerPriority] *)

Lemma incrementTimes_spec n pr vals :
  VS_wf vals -> Validators vals <> [] -> (0 < n)%nat ->
  exists p prev vals', incrementTimes n pr vals = Done (Some p, vals') /\
    VS_wf prev /\ stepped prev p vals' /\
    ident <$> Validators vals' = ident <$> Validators vals.
Proof.
  revert pr vals. induction n as [|n IH]; intros pr vals W Hne Hn; [lia|]. cbn [incrementTimes].
  destruct (incrementProposerPriority_spec vals W Hne) as (p & vals1 & -> & Hs). rewrite bind_Done.
  pose proof (stepped_ident _ _ _ Hs) as Eid.
  destruct n as [|n]; [by exists p, vals, vals1|].
  destruct (IH (Some p) vals1) as (q & prev & vals' & -> & W' & Hs' & E); [..|lia|].
  - by eapply stepped_wf.
  - by apply (ident_nonempty (Validators vals)).
  - exists q, prev, vals'. split_and!; [done..|congruence].
Qed.

(** The set on which the selection loop starts. *)
Lemma prepare_spec vals :
  VS_wf vals -> Validators vals <> [] ->
  exists vals',
    (let! (total, vals) := TotalVotingPower vals in
     let! vals := RescalePriorities (wrap64 (PriorityWindowSizeFactor * total)) vals in
     shiftByAvgProposerPriority vals) = Done vals' /\
    VS_wf vals' /\ ident <$> Validators vals' = ident <$> Validators vals.
Proof.
  intros W Hne. pose proof (total_range vals W) as Ht.
  rewrite TotalVotingPower_spec by (apply wf_powers_ok, W || apply W). rewrite bind_Done.
  set (total := sumZ _ _) in *. set (vals1 := setTotalVotingPower total vals).
  rewrite wrap64_id by (unfold PriorityWindowSizeFactor; power_lia).
  destruct (RescalePriorities_Done (PriorityWindowSizeFactor * total) vals1)
    as (vals2 & -> & R1); [done|exact (vs_prio _ W)|unfold PriorityWindowSizeFactor; lia|]. rewrite bind_Done.
  destruct (shiftByAvg_Done vals2) as (vals3 & -> & R2).
  { by apply (ident_nonempty (Validators vals1)), Hne; apply R1. }
  { exact (rp_prio _ _ R1). }
  pose proof (reprioritised_trans _ _ _ R1 R2) as R. exists vals3.
  split_and!; [done| |apply (rp_ident _ _ R)].
  eapply wf_reprioritised; [exact W|apply (rp_ident _ _ R)|right; apply (rp_total _ _ R)|exact (rp_prio _ _ R)].
Qed.

Lemma IncrementProposerPriority_spec times vals :
  VS_wf vals -> Validators vals <> [] -> 0 < times ->
  exists p prev last,
    IncrementProposerPriority times vals = Done (setProposer (Some p) last) /\
    VS_wf prev /\ stepped prev p last /\ VS_wf last /\
    ident <$> Validators last = ident <$> Validators vals.
Proof.
  intros W Hne Ht. unfold IncrementProposerPriority.
  rewrite nonempty_IsNil by done. rewrite (proj2 (Z.leb_gt _ _)) by done.
  destruct (prepare_spec vals W Hne) as (vals1 & Hprep & W1 & E1).
  destruct (TotalVotingPower vals) as [[total v1]|]; [|done]. rewrite bind_Done in Hprep |- *.
  destruct (RescalePriorities _ v1) as [v2|]; [|done]. rewrite bind_Done in Hprep |- *.
  rewrite Hprep, bind_Done.
  destruct (incrementTimes_spec (Z.to_nat times) None vals1) as (p & prev & last & -> & Wp & Hs & E).
  { done. } { by apply (ident_nonempty (Validators vals)). } { lia. }
  rewrite bind_Done. exists p, prev, last. split_and!; [done..| |congruence]. by eapply stepped_wf.
Qed.



(** ** Fairness of the rotation *)

(** The addresses that [n] consecutive steps select, in order. *)
Fixpoint selections (n : nat) (vals : ValidatorSet) : outcome (list bytes * ValidatorSet) :=
  match n with
  | O => Done ([], vals)
  | S n' =>
    let! (p, vals) := incrementProposerPriority vals in
    let! (rest, vals) := selections n' vals in
    Done (Address p :: rest, vals)
  end.

(** How often [a] was selected. *)
Definition timesSelected (a : bytes) (sel : list bytes) : Z :=
  Z.of_nat (length (filter (fun b => b = a) sel)).

Lemma timesSelected_app a l1 l2 :
  timesSelected a (l1 ++ l2) = timesSelected a l1 + timesSelected a l2.
Proof. unfold timesSelected. rewrite list.filter_app, length_app. lia. Qed.

Lemma timesSelected_one a b : timesSelected a [b] = if decide (b = a) then 1 else 0.
Proof. unfold timesSelected. rewrite filter_cons. by case_decide. Qed.

(** Every selection counts for exactly one of the distinct members. *)
Lemma timesSelected_sum (vs : list Validator) sel :
  NoDup (addresses vs) -> (forall a, a ∈ sel -> a ∈ addresses vs) ->
  sumZ (fun v => timesSelected (Address v) sel) vs = Z.of_nat (length sel).
Proof.
  intros Hnd. induction sel as [|b sel IH] using rev_ind; intros Hin.
  - rewrite (sumZ_ext _ (fun _ => 0)) by done. rewrite sumZ_const. simpl. lia.
  - rewrite (sumZ_ext _ (fun v => timesSelected (Address v) sel + timesSelected (Address v) [b]))
      by (intros v _; apply timesSelected_app).
    rewrite sumZ_add, IH by set_solver. rewrite length_app.
    assert (b ∈ addresses vs) as (v & Hv & <-)%addresses_elem by set_solver.
    apply list_elem_of_split in Hv as (l1 & l2 & ->).
    rewrite fmap_app, fmap_cons, NoDup_app, NoDup_cons in Hnd. destruct Hnd as (_ & Hn1 & Hn2 & _).
    rewrite sumZ_app, sumZ_cons, timesSelected_one, decide_True by done.
    rewrite (sumZ_ext _ (fun _ => 0) l1), (sumZ_ext _ (fun _ => 0) l2), !sumZ_const; [simpl; lia|..].
    + intros w Hw. rewrite timesSelected_one, decide_False; [done|]. intros E. apply Hn2.
      rewrite E. apply addresses_elem. eauto.
    + intros w Hw. rewrite timesSelected_one, decide_False; [done|]. intros E.
      apply (Hn1 (Address w)); [apply addresses_elem; eauto|]. rewrite E. set_solver.
Qed.

(** With a zero sum and a lower bound, no term is large. *)
Lemma zero_sum_upper {A} (f : A -> Z) (l : list A) P x :
  sumZ f l = 0 -> (forall y, y ∈ l -> - P < f y) -> x ∈ l -> f x <= Z.of_nat (length l) * P - P.
Proof.
  intros Hsum Hlo (l1 & l2 & ->)%list_elem_of_split. rewrite sumZ_app, sumZ_cons in Hsum.
  rewrite length_app. simpl.
  pose proof (sumZ_le (fun _ => - P) f l1 ltac:(intros; apply Z.lt_le_incl, Hlo; set_solver)) as H1.
  pose proof (sumZ_le (fun _ => - P) f l2 ltac:(intros; apply Z.lt_le_incl, Hlo; set_solver)) as H2.
  rewrite sumZ_const in H1, H2. lia.
Qed.

(** With a positive sum the largest term is positive. *)
Lemma max_positive {A} (f : A -> Z) (l : list A) x :
  0 < sumZ f l -> (forall y, y ∈ l -> f y <= f x) -> 0 < f x.
Proof.
  intros Hs Hmax. pose proof (sumZ_le f (fun _ => f x) l Hmax) as H. rewrite sumZ_const in H. nia.
Qed.

Lemma is_most_max vs i m v : is_most vs i m -> v ∈ vs -> ProposerPriority v <= ProposerPriority m.
Proof.
  intros [Hi Hall] [j Hj]%list_elem_of_lookup. destruct (decide (j = i)) as [->|Hne].
  - by simplify_eq.
  - destruct (Hall j v Hj Hne) as [?|[? _]]; lia.
Qed.

Section rotation.
Context (vals0 : ValidatorSet).
Let P := sumZ VotingPower (Validators vals0).
Let size := Z.of_nat (length (Validators vals0)).
Hypothesis nonempty : Validators vals0 <> [].
Hypothesis fits : size * P <= MaxInt64.

(** The state after the selections [sel], started from zero priorities. *)
Record rotated (sel : list bytes) (vals : ValidatorSet) : Prop := {
  ro_wf : VS_wf vals;
  ro_ident : ident <$> Validators vals = ident <$> Validators vals0;
  ro_prio : forall v, v ∈ Validators vals ->
    ProposerPriority v = Z.of_nat (length sel) * VotingPower v - P * timesSelected (Address v) sel;
  ro_low : forall v, v ∈ Validators vals -> - P < ProposerPriority v;
  ro_zero : sumZ ProposerPriority (Validators vals) = 0;
  ro_sel : forall a, a ∈ sel -> a ∈ addresses (Validators vals0)
}.

Lemma rotated_total sel vals : rotated sel vals -> sumZ VotingPower (Validators vals) = P.
Proof. intros R. unfold P. by rewrite !sum_ident, (ro_ident _ _ R). Qed.

Lemma rotated_length sel vals : rotated sel vals -> Z.of_nat (length (Validators vals)) = size.
Proof.
  intros R. unfold size. rewrite <- (length_fmap ident (Validators vals)), (ro_ident _ _ R).
  by rewrite length_fmap.
Qed.

(** No priority is clipped. *)
Lemma rotated_noclip sel vals v :
  rotated sel vals -> v ∈ Validators vals ->
  int64 (ProposerPriority v + VotingPower v) /\ 0 < VotingPower v <= P.
Proof.
  intros R Hv. pose proof (ro_wf _ _ R) as W. pose proof (vs_power _ W v Hv) as Hp.
  pose proof (zero_sum_upper ProposerPriority _ P v (ro_zero _ _ R) (ro_low _ _ R) Hv) as Hu.
  rewrite (rotated_length _ _ R) in Hu. pose proof (ro_low _ _ R v Hv).
  pose proof (sumZ_elem_le VotingPower v (Validators vals)
    (fun w Hw => Z.lt_le_incl _ _ (vs_power _ W w Hw)) Hv) as Hle.
  pose proof (total_range _ W) as Ht. rewrite (rotated_total _ _ R) in Hle, Ht.
  split; [power_lia|lia].
Qed.

Lemma rotated_grown sel vals :
  rotated sel vals ->
  grown (Validators vals) = (fun v => setPriority (ProposerPriority v + VotingPower v) v) <$> Validators vals.
Proof.
  intros R. apply list_fmap_ext. intros i v Hv%list_elem_of_lookup_2.
  by rewrite clip64_id by (by eapply rotated_noclip).
Qed.

Lemma rotated_step sel vals p vals' :
  rotated sel vals -> stepped vals p vals' -> rotated (sel ++ [Address p]) vals'.
Proof.
  intros R Hs. pose proof (stepped_wf _ _ _ (ro_wf _ _ R) Hs) as W'.
  pose proof (stepped_ident _ _ _ Hs) as Eid. rewrite (ro_ident _ _ R) in Eid.
  destruct Hs as (i & m & Hm & Ep & Ev). rewrite (rotated_grown _ _ R) in Hm, Ev.
  rewrite (rotated_total _ _ R) in Ep, Ev. set (vs := _ <$> Validators vals) in *.
  assert (forall v, v ∈ vs -> exists w, w ∈ Validators vals /\
            v = setPriority (ProposerPriority w + VotingPower w) w) as Hvs
    by (intros v (w & -> & Hw)%list_elem_of_fmap; eauto).
  assert (sumZ ProposerPriority vs = P) as Hsum.
  { unfold vs. rewrite sumZ_fmap. simpl. rewrite sumZ_add, (ro_zero _ _ R).
    pose proof (rotated_total _ _ R). lia. }
  destruct (Hvs m (list_elem_of_lookup_2 _ _ _ (proj1 Hm))) as (m0 & Hm0 & Em).
  destruct (rotated_noclip _ _ m0 R Hm0) as [Hc HP].
  assert (0 < ProposerPriority m) as Hpos.
  { apply (max_positive ProposerPriority vs); [lia|]. intros v Hv. by eapply is_most_max. }
  assert (int64 (ProposerPriority m)) as Hmi by (rewrite Em; exact Hc).
  pose proof (total_range _ (ro_wf _ _ R)) as Ht. rewrite (rotated_total _ _ R) in Ht.
  rewrite clip64_id in Ep by power_lia.
  assert (Address p = Address m0 /\ VotingPower p = VotingPower m0) as [Ea Epow]
    by (by rewrite Ep, Em).
  assert (NoDup (addresses vs)) as Hnd.
  { unfold vs. rewrite <- (rotated_grown _ _ R), grown_addresses. apply R. }
  assert (forall v, v ∈ Validators vals' -> v = p \/ (v ∈ vs /\ Address v <> Address p)) as Hcase.
  { intros v [j Hj]%list_elem_of_lookup. rewrite Ev in Hj. simpl in Hj.
    apply list_lookup_insert_Some in Hj as [(_ & -> & _)|[Hij Hj]]; [by left|right].
    split; [by eapply list_elem_of_lookup_2|].
    replace (Address p) with (Address m) by (by rewrite Ep).
    eapply nodup_lookup_ne; [done|exact Hj|apply Hm|done]. }
  split; [done|done| | | |].
  - intros v Hv. rewrite length_app, Nat2Z.inj_add, timesSelected_app, timesSelected_one. simpl.
    destruct (Hcase v Hv) as [->|[Hv' Hne]].
    + rewrite decide_True by done. rewrite Ea, Epow. pose proof (ro_prio _ _ R m0 Hm0) as Hpr.
      rewrite Ep, Em. simpl. lia.
    + rewrite decide_False by done. destruct (Hvs v Hv') as (w & Hw & ->). simpl.
      pose proof (ro_prio _ _ R w Hw). lia.
  - intros v Hv. destruct (Hcase v Hv) as [->|[Hv' Hne]].
    + rewrite Ep. simpl. lia.
    + destruct (Hvs v Hv') as (w & Hw & ->). simpl. pose proof (ro_low _ _ R w Hw).
      pose proof (rotated_noclip _ _ w R Hw). lia.
  - rewrite Ev. simpl. rewrite (sumZ_insert ProposerPriority vs i m p (proj1 Hm)), Ep. simpl. lia.
  - intros a [Ha|Ha]%elem_of_app; [by apply R|]. apply list_elem_of_singleton in Ha as ->.
    rewrite Ea. rewrite addresses_ident, <- (ro_ident _ _ R), <- addresses_ident.
    apply addresses_elem. eauto.
Qed.

Lemma selections_rotated n sel vals :
  rotated sel vals -> exists l vals', selections n vals = Done (l, vals') /\
    length l = n /\ rotated (sel ++ l) vals'.
Proof.
  revert sel vals. induction n as [|n IH]; intros sel vals R; cbn [selections].
  - exists [], vals. by rewrite app_nil_r.
  - destruct (incrementProposerPriority_spec vals) as (p & vals1 & -> & Hs).
    { apply R. } { by apply (ident_nonempty (Validators vals0)), nonempty; apply R. }
    rewrite bind_Done. destruct (IH _ _ (rotated_step _ _ _ _ R Hs)) as (l & vals' & -> & Hl & R').
    rewrite bind_Done. exists (Address p :: l), vals'. split_and!; [done|simpl; lia|].
    by rewrite <- (assoc_L (++)) in R'.
Qed.

Lemma rotated_start :
  VS_wf vals0 -> (forall v, v ∈ Validators vals0 -> ProposerPriority v = 0) -> rotated [] vals0.
Proof.
  intros W Hz. assert (0 < P) as HP.
  { destruct (Validators vals0) as [|v vs] eqn:E; [done|].
    assert (v ∈ Validators vals0) as Hv by (rewrite E; set_solver).
    pose proof (vs_power _ W v Hv). pose proof (sumZ_elem_le VotingPower v (Validators vals0)
      (fun w Hw => Z.lt_le_incl _ _ (vs_power _ W w Hw)) Hv). unfold P. rewrite <- E. lia. }
  split; [done|done| | | |set_solver].
  - intros v Hv. rewrite (Hz v Hv). unfold timesSelected. simpl. lia.
  - intros v Hv. rewrite (Hz v Hv). lia.
  - rewrite (sumZ_ext _ (fun _ => 0)) by done. rewrite sumZ_const. lia.
Qed.

End rotation.

Lemma ident_member (l l' : list Validator) v :
  ident <$> l = ident <$> l' -> v ∈ l' ->
  exists w, w ∈ l /\ Address w = Address v /\ VotingPower w = VotingPower v.
Proof.
  intros E Hv. assert (ident v ∈ ident <$> l) as (w & Ew & Hw)%list_elem_of_fmap
    by (rewrite E; by apply list_elem_of_fmap_2).
  exists w. injection Ew as -> _ ->. done.
Qed.

(** A member is never ahead of its share by a whole turn. *)
Lemma rotated_share vals sel vals' v :
  rotated vals sel vals' -> v ∈ Validators vals ->
  sumZ VotingPower (Validators vals) * (timesSelected (Address v) sel - 1)
    < Z.of_nat (length sel) * VotingPower v.
Proof.
  intros R Hv. destruct (ident_member (Validators vals') (Validators vals) v) as (w & Hw & Ea & Ep);
    [apply R|done|].
  pose proof (ro_prio _ _ _ R w Hw) as Hpr. pose proof (ro_low _ _ _ R w Hw) as Hlo.
  rewrite Ea, Ep in Hpr. lia.
Qed.

Lemma rotated_full_turn vals sel vals' :
  VS_wf vals -> rotated vals sel vals' ->
  Z.of_nat (length sel) = sumZ VotingPower (Validators vals) ->
  (forall v, v ∈ Validators vals -> timesSelected (Address v) sel = VotingPower v) /\
  (forall v, v ∈ Validators vals' -> ProposerPriority v = 0).
Proof.
  intros W R Hlen. set (P := sumZ _ _) in *.
  assert (forall v, v ∈ Validators vals -> timesSelected (Address v) sel = VotingPower v) as Heq.
  { intros v Hv. apply (sumZ_le_eq (fun v => timesSelected (Address v) sel) VotingPower (Validators vals));
      [|rewrite timesSelected_sum; [done|apply W|apply R]|done].
    intros w Hw. pose proof (rotated_share _ _ _ w R Hw) as Hsh. fold P in Hsh.
    pose proof (total_range _ W). fold P in H. rewrite Hlen in Hsh. nia. }
  split; [done|]. intros v Hv. rewrite (ro_prio _ _ _ R v Hv), Hlen. fold P.
  destruct (ident_member (Validators vals) (Validators vals') v) as (w & Hw & Ea & Ep);
    [symmetry; apply R|done|]. rewrite <- Ea, <- Ep, (Heq w Hw). lia.
Qed.


Definition freshSet : ValidatorSet :=
  mkValidatorSet [exampleValidator 1 4 0; exampleValidator 2 2 0; exampleValidator 3 1 0] None 0.

Lemma freshSet_wf : VS_wf freshSet.
Proof. concrete_wf. Qed.


(** ** The priority window *)

Lemma quot_window a b r D :
  0 < r -> b <= a -> a - b <= D * r -> Z.quot b r <= Z.quot a r /\ Z.quot a r - Z.quot b r <= D.
Proof.
  intros Hr Hba Hd. split; [apply Z.quot_le_mono; lia|].
  pose proof (Z.quot_rem a r ltac:(lia)) as Ea. pose proof (Z.quot_rem b r ltac:(lia)) as Eb.
  pose proof (Z.rem_bound_abs a r ltac:(lia)). pose proof (Z.rem_bound_abs b r ltac:(lia)).
  assert (0 <= a -> 0 <= Z.rem a r) by (intros; apply Z.rem_nonneg; lia).
  assert (b <= 0 -> Z.rem b r <= 0) by (intros; apply Z.rem_nonpos; lia).
  assert (a <= 0 -> Z.rem a r <= 0) by (intros; apply Z.rem_nonpos; lia).
  assert (0 <= b -> 0 <= Z.rem b r) by (intros; apply Z.rem_nonneg; lia).
  assert (r * (Z.quot a r - Z.quot b r) < r * (D + 1)) as Hlt; [|nia].
  destruct (Z_le_gt_dec 0 a), (Z_le_gt_dec 0 b); nia.
Qed.

(** The extremes that [computeMaxMinPriorityDiff] finds are attained. *)
Lemma maxMin_attained vs max min :
  let '(max', min') :=
      foldl (fun '(max, min) v =>
               let min := if ProposerPriority v <? min then ProposerPriority v else min in
               let max := if max <? ProposerPriority v then ProposerPriority v else max in
               (max, min)) (max, min) vs in
  (max' = max \/ exists v, v ∈ vs /\ ProposerPriority v = max') /\
  (min' = min \/ exists v, v ∈ vs /\ ProposerPriority v = min').
Proof.
  revert max min. induction vs as [|v vs IH]; intros max min; cbn [foldl]; [auto|].
  set (min1 := if ProposerPriority v <? min then _ else _).
  set (max1 := if max <? ProposerPriority v then _ else _).
  specialize (IH max1 min1). destruct (foldl _ _ vs) as [max' min']. destruct IH as [Hx Hm]. split.
  - destruct Hx as [->|(w & Hw & E)]; [|right; exists w; split; [by apply elem_of_cons; right|done]].
    subst max1; destruct (max <? ProposerPriority v); [right; exists v; split; [by apply elem_of_cons; left|done]|by left].
  - destruct Hm as [->|(w & Hw & E)]; [|right; exists w; split; [by apply elem_of_cons; right|done]].
    subst min1; destruct (ProposerPriority v <? min); [right; exists v; split; [by apply elem_of_cons; left|done]|by left].
Qed.

Lemma computeMaxMinPriorityDiff_spec vals B :
  Validators vals <> [] -> prios_int64 vals -> B <= MaxInt64 ->
  (forall v w, v ∈ Validators vals -> w ∈ Validators vals ->
     ProposerPriority v - ProposerPriority w <= B) ->
  exists d, computeMaxMinPriorityDiff vals = Done d /\ 0 <= d <= B /\
    forall v w, v ∈ Validators vals -> w ∈ Validators vals ->
      ProposerPriority v - ProposerPriority w <= d.
Proof.
  intros Hne Hp HB Hsp. unfold computeMaxMinPriorityDiff. rewrite nonempty_IsNil by done.
  pose proof (maxMin_fold (Validators vals) MinInt64 MaxInt64 ltac:(int_lia) ltac:(int_lia) Hp) as Hb.
  pose proof (maxMin_attained (Validators vals) MinInt64 MaxInt64) as Ha.
  destruct (foldl _ _ _) as [max min]. destruct Hb as (Hx & Hm & _ & _ & Hall), Ha as [Hax Ham].
  assert (exists v0, v0 ∈ Validators vals) as [v0 Hv0]
    by (destruct (Validators vals) as [|v0 ?]; [done|exists v0; set_solver]).
  assert (exists v, v ∈ Validators vals /\ ProposerPriority v = max) as (vx & Hvx & Ex).
  { destruct Hax as [->|]; [|done]. exists v0. split; [done|].
    pose proof (Hall v0 Hv0). pose proof (Hp v0 Hv0). int_lia. }
  assert (exists v, v ∈ Validators vals /\ ProposerPriority v = min) as (vm & Hvm & Em).
  { destruct Ham as [->|]; [|done]. exists v0. split; [done|].
    pose proof (Hall v0 Hv0). pose proof (Hp v0 Hv0). int_lia. }
  pose proof (Hsp vx vm Hvx Hvm). pose proof (Hall v0 Hv0). rewrite wrap64_id by int_lia.
  rewrite (proj2 (Z.ltb_ge _ _)) by lia. eexists; split; [done|]. split; [lia|].
  intros v w Hv Hw. pose proof (Hall v Hv). pose proof (Hall w Hw). lia.
Qed.

(** The new priorities [f] keep the order and are at most [diffMax] apart. *)
Definition window_kept (diffMax : Z) (f : Validator -> Z) (vals : list Validator) : Prop :=
  forall v w, v ∈ vals -> w ∈ vals ->
    ProposerPriority v <= ProposerPriority w -> f v <= f w /\ f w - f v <= diffMax.

(** [RescalePriorities] brings the priorities into the window: as
    long as the arithmetic of the ratio stays within [int64], afterwards no
    two priorities differ by more than [diffMax], and it never reorders two
    validators. *)
Theorem RescalePriorities_window diffMax vals :
  Validators vals <> [] -> prios_int64 vals -> 0 < diffMax <= MaxInt64 ->
  (forall v w, v ∈ Validators vals -> w ∈ Validators vals ->
     ProposerPriority v - ProposerPriority w <= MaxInt64 - diffMax) ->
  exists vals' f, RescalePriorities diffMax vals = Done vals' /\
    Validators vals' = (fun v => setPriority (f v) v) <$> Validators vals /\
    window_kept diffMax f (Validators vals).
Proof.
  intros Hne Hp HD Hsp. unfold window_kept, RescalePriorities. rewrite nonempty_IsNil by done.
  rewrite (proj2 (Z.leb_gt _ _)) by lia.
  destruct (computeMaxMinPriorityDiff_spec vals (MaxInt64 - diffMax)) as (d & -> & Hd & Hdiff);
    [done..|lia|done|]. rewrite bind_Done, div64_Done, bind_Done by lia.
  rewrite (wrap64_id (d + diffMax)) by int_lia. rewrite (wrap64_id (_ - 1)) by int_lia.
  assert (0 <= Z.quot (d + diffMax - 1) diffMax <= d + diffMax - 1) as Hq.
  { rewrite Z.quot_div_nonneg by lia. split; [apply Z.div_pos; lia|apply Z.div_le_upper_bound; nia]. }
  rewrite wrap64_id by int_lia. destruct (Z.ltb_spec diffMax d) as [Hlt|Hle].
  - set (r := Z.quot (d + diffMax - 1) diffMax) in *.
    assert (0 < r /\ d <= diffMax * r) as [Hr Hdr].
    { unfold r. rewrite Z.quot_div_nonneg by lia.
      pose proof (Z.mul_succ_div_gt (d + diffMax - 1) diffMax ltac:(lia)). nia. }
    rewrite (foldM_append _ (fun val => wrap64 (Z.quot (ProposerPriority val) r)))
      by (intros v _; apply div64_Done; lia).
    rewrite bind_Done. eexists _, (fun v => Z.quot (ProposerPriority v) r). split; [done|].
    assert (forall v, v ∈ Validators vals -> int64 (Z.quot (ProposerPriority v) r)) as Hi.
    { intros v Hv. pose proof (Hp v Hv). pose proof (Z.quot_rem (ProposerPriority v) r ltac:(lia)).
      pose proof (Z.rem_bound_abs (ProposerPriority v) r ltac:(lia)).
      pose proof (Z.rem_sign_nz (ProposerPriority v) r ltac:(lia)).
      unfold int64, MinInt64, MaxInt64 in *. nia. }
    split.
    + simpl. apply list_fmap_ext. intros i v Hv%list_elem_of_lookup_2. by rewrite wrap64_id by auto.
    + intros v w Hv Hw Hvw. apply quot_window; [done..|]. pose proof (Hdiff w v Hw Hv). lia.
  - exists vals, ProposerPriority. split_and!; [done| |].
    + symmetry. rewrite <- (list_fmap_id (Validators vals)) at 2. apply list_fmap_ext. by intros i [].
    + intros v w Hv Hw Hvw. pose proof (Hdiff w v Hw Hv). lia.
Qed.

Lemma RescalePriorities_window_witness :
  exists vals' f, RescalePriorities 4 exampleSet = Done vals' /\
    Validators vals' = (fun v => setPriority (f v) v) <$> Validators exampleSet /\
    forall v w, v ∈ Validators exampleSet -> w ∈ Validators exampleSet ->
      ProposerPriority v <= ProposerPriority w -> f v <= f w /\ f w - f v <= 4.
Proof.
  apply (RescalePriorities_window 4 exampleSet); [done|exact (vs_prio _ exampleSet_wf)|done|].
  intros v w Hv Hw.
  assert (forall u, u ∈ Validators exampleSet -> -3 <= ProposerPriority u <= 3) as H
    by (refine (proj1 (list.Forall_forall _ _) _); apply (bool_decide_unpack _); by vm_compute).
  pose proof (H v Hv). pose proof (H w Hw). int_lia.
Defined.
