(* ===== verification/BlockTypes.v ===== *)
(** * Block identifiers, votes, proposals and commits

    The value types of types/block.go, types/part_set.go, types/vote.go and
    types/proposal.go, their basic validation, their conversions to and from
    the protocol buffer types, and the canonical bytes that validators sign
    (types/canonical.go with the generated encoders of
    proto/tendermint/types/canonical.pb.go).

    A [time.Time] is the number of nanoseconds since the Unix epoch; a Go
    string is its bytes. *)

From Stdlib Require Import ZArith Lia.
From S2P Require Import Prelude Proto BitArray Validator.
From stdpp Require Import base list option strings numbers.

Local Open Scope Z_scope.

Notation Time := Z (only parsing).

(** January 1 of year 1, the zero value of [time.Time]. *)
Definition zeroTime : Time := -62135596800000000000.

(** [tmhash.Size], [ed25519.SignatureSize] *)
Definition tmhashSize : Z := 32.
Definition MaxSignatureSize : Z := Z.max 64 64.

(** The enumeration [SignedMsgType] of the wire format; other values arrive
    from peers too. *)
Definition UnknownType : Z := 0.
Definition PrevoteType : Z := 1.
Definition PrecommitType : Z := 2.
Definition ProposalType : Z := 32.

Definition IsVoteTypeValid (t : Z) : bool := (t =? PrevoteType) || (t =? PrecommitType).

Definition ValidateHash (h : bytes) : option error :=
  let n := Z.of_nat (length h) in
  if (0 <? n) && negb (n =? tmhashSize) then Some "expected size to be 32 bytes" else None.

(** ** Part set headers and block identifiers *)

Record PartSetHeader := mkPartSetHeader { pshTotal : Z; pshHash : bytes }.
Record BlockID := mkBlockID { bidHash : bytes; bidPartSetHeader : PartSetHeader }.

#[global] Instance PartSetHeader_eq_dec : EqDecision PartSetHeader.
Proof. solve_decision. Defined.
#[global] Instance BlockID_eq_dec : EqDecision BlockID.
Proof. solve_decision. Defined.

Definition zeroPartSetHeader : PartSetHeader := mkPartSetHeader 0 [].
Definition zeroBlockID : BlockID := mkBlockID [] zeroPartSetHeader.

Definition PartSetHeader_IsZero (psh : PartSetHeader) : bool :=
  (pshTotal psh =? 0) && (length (pshHash psh) =? 0)%nat.

Definition PartSetHeader_Equals (psh other : PartSetHeader) : bool :=
  (pshTotal psh =? pshTotal other) && bool_decide (pshHash psh = pshHash other).

Definition PartSetHeader_ValidateBasic (psh : PartSetHeader) : option error :=
  match ValidateHash (pshHash psh) with
  | Some err => Some ("wrong Hash: " +:+ err)
  | None => None
  end.

(** [tmproto.PartSetHeader] *)
Record protoPartSetHeader := mkProtoPartSetHeader { ppshTotal : Z; ppshHash : bytes }.

Definition PartSetHeader_ToProto (psh : option PartSetHeader) : protoPartSetHeader :=
  match psh with
  | None => mkProtoPartSetHeader 0 []
  | Some psh => mkProtoPartSetHeader (pshTotal psh) (pshHash psh)
  end.

Definition PartSetHeaderFromProto (ppsh : option protoPartSetHeader) : result PartSetHeader :=
  match ppsh with
  | None => inl "nil PartSetHeader"
  | Some p =>
    let psh := mkPartSetHeader (ppshTotal p) (ppshHash p) in
    match PartSetHeader_ValidateBasic psh with Some err => inl err | None => inr psh end
  end.

(** [PartSetHeader.MarshalToSizedBuffer] and [Size] of the generated code. *)
Definition protoPartSetHeader_write (m : protoPartSetHeader) : bytes :=
  let w := [] in
  let w := if (0 <? length (ppshHash m))%nat then putDelimited 18 (ppshHash m) w else w in
  if negb (ppshTotal m =? 0) then putVarint 8 (ppshTotal m) w else w.

Definition protoPartSetHeader_Size (m : protoPartSetHeader) : Z :=
  let n := if negb (ppshTotal m =? 0) then 1 + sov (ppshTotal m) else 0 in
  let l := Z.of_nat (length (ppshHash m)) in
  if 0 <? l then n + (1 + l + sov l) else n.

Definition protoPartSetHeader_Marshal (m : protoPartSetHeader) : outcome bytes :=
  marshalSized (protoPartSetHeader_Size m) (protoPartSetHeader_write m).

Definition BlockID_Equals (blockID other : BlockID) : bool :=
  bool_decide (bidHash blockID = bidHash other)
  && PartSetHeader_Equals (bidPartSetHeader blockID) (bidPartSetHeader other).

Definition BlockID_Key (blockID : BlockID) : outcome bytes :=
  let! bz := protoPartSetHeader_Marshal (PartSetHeader_ToProto (Some (bidPartSetHeader blockID))) in
  Done (bidHash blockID ++ bz).

Definition BlockID_ValidateBasic (blockID : BlockID) : option error :=
  match ValidateHash (bidHash blockID) with
  | Some _ => Some "wrong Hash"
  | None =>
    match PartSetHeader_ValidateBasic (bidPartSetHeader blockID) with
    | Some err => Some ("wrong PartSetHeader: " +:+ err)
    | None => None
    end
  end.

Definition BlockID_IsZero (blockID : BlockID) : bool :=
  (length (bidHash blockID) =? 0)%nat && PartSetHeader_IsZero (bidPartSetHeader blockID).

Definition BlockID_IsComplete (blockID : BlockID) : bool :=
  (Z.of_nat (length (bidHash blockID)) =? tmhashSize)
  && (0 <? pshTotal (bidPartSetHeader blockID))
  && (Z.of_nat (length (pshHash (bidPartSetHeader blockID))) =? tmhashSize).

(** [tmproto.BlockID] *)
Record protoBlockID := mkProtoBlockID { pbidHash : bytes; pbidPartSetHeader : protoPartSetHeader }.

Definition BlockID_ToProto (blockID : option BlockID) : protoBlockID :=
  match blockID with
  | None => mkProtoBlockID [] (mkProtoPartSetHeader 0 [])
  | Some b => mkProtoBlockID (bidHash b) (PartSetHeader_ToProto (Some (bidPartSetHeader b)))
  end.

Definition BlockIDFromProto (bID : option protoBlockID) : result BlockID :=
  match bID with
  | None => inl "nil BlockID"
  | Some b =>
    match PartSetHeaderFromProto (Some (pbidPartSetHeader b)) with
    | inl err => inl err
    | inr ph =>
      let blockID := mkBlockID (pbidHash b) ph in
      match BlockID_ValidateBasic blockID with Some err => inl err | None => inr blockID end
    end
  end.

(** ** Votes and proposals *)

Record Vote := mkVote {
  vType : Z;
  vHeight : Z;
  vRound : Z;
  vBlockID : BlockID;
  vTimestamp : Time;
  vValidatorAddress : bytes;
  vValidatorIndex : Z;
  vSignature : bytes
}.

#[global] Instance Vote_eq_dec : EqDecision Vote.
Proof. solve_decision. Defined.

Definition Vote_ValidateBasic (vote : Vote) : option error :=
  if negb (IsVoteTypeValid (vType vote)) then Some "invalid Type"
  else if vHeight vote <? 0 then Some "negative Height"
  else if vRound vote <? 0 then Some "negative Round"
  else match BlockID_ValidateBasic (vBlockID vote) with
  | Some err => Some ("wrong BlockID: " +:+ err)
  | None =>
    if negb (BlockID_IsZero (vBlockID vote)) && negb (BlockID_IsComplete (vBlockID vote))
    then Some "blockID must be either empty or complete"
    else if negb (Z.of_nat (length (vValidatorAddress vote)) =? AddressSize)
    then Some "expected ValidatorAddress size to be 20 bytes"
    else if vValidatorIndex vote <? 0 then Some "negative ValidatorIndex"
    else if (length (vSignature vote) =? 0)%nat then Some "signature is missing"
    else if MaxSignatureSize <? Z.of_nat (length (vSignature vote)) then Some "signature is too big"
    else None
  end.

(** [DuplicateVoteEvidence] of types/evidence.go *)
Record DuplicateVoteEvidence := mkDuplicateVoteEvidence { VoteA : Vote; VoteB : Vote }.

#[global] Instance DuplicateVoteEvidence_eq_dec : EqDecision DuplicateVoteEvidence.
Proof. solve_decision. Defined.

(** The [ErrVote*] errors, which callers tell apart with [errors.Is]. *)
Inductive VoteError :=
  | ErrVoteUnexpectedStep
  | ErrVoteInvalidValidatorIndex
  | ErrVoteInvalidValidatorAddress
  | ErrVoteInvalidSignature
  | ErrVoteInvalidBlockHash
  | ErrVoteNonDeterministicSignature
  | ErrVoteNil
  | ErrVoteConflictingVotes (evidence : option DuplicateVoteEvidence).

#[global] Instance VoteError_eq_dec : EqDecision VoteError.
Proof. solve_decision. Defined.

Definition NewDuplicateVoteEvidence (vote1 vote2 : option Vote)
    : outcome (option DuplicateVoteEvidence) :=
  match vote1, vote2 with
  | Some vote1, Some vote2 =>
    let! k1 := BlockID_Key (vBlockID vote1) in
    let! k2 := BlockID_Key (vBlockID vote2) in
    match bytes_compare k1 k2 with
    | Lt => Done (Some (mkDuplicateVoteEvidence vote1 vote2))
    | _ => Done (Some (mkDuplicateVoteEvidence vote2 vote1))
    end
  | _, _ => Done None
  end.

Definition NewConflictingVoteError (vote1 vote2 : option Vote) : outcome VoteError :=
  let! ev := NewDuplicateVoteEvidence vote1 vote2 in Done (ErrVoteConflictingVotes ev).

(** [tmproto.Vote] *)
Record protoVote := mkProtoVote {
  pvType : Z;
  pvHeight : Z;
  pvRound : Z;
  pvBlockID : protoBlockID;
  pvTimestamp : Time;
  pvValidatorAddress : bytes;
  pvValidatorIndex : Z;
  pvSignature : bytes
}.

Definition Vote_ToProto (vote : Vote) : protoVote :=
  mkProtoVote (vType vote) (vHeight vote) (vRound vote) (BlockID_ToProto (Some (vBlockID vote)))
    (vTimestamp vote) (vValidatorAddress vote) (vValidatorIndex vote) (vSignature vote).

Definition VoteFromProto (pv : option protoVote) : result Vote :=
  match pv with
  | None => inl "nil vote"
  | Some pv =>
    match BlockIDFromProto (Some (pvBlockID pv)) with
    | inl err => inl err
    | inr blockID =>
      let vote := mkVote (pvType pv) (pvHeight pv) (pvRound pv) blockID (pvTimestamp pv)
                    (pvValidatorAddress pv) (pvValidatorIndex pv) (pvSignature pv) in
      match Vote_ValidateBasic vote with Some err => inl err | None => inr vote end
    end
  end.

Record Proposal := mkProposal {
  pType : Z;
  pHeight : Z;
  pRound : Z;
  pPOLRound : Z;
  pBlockID : BlockID;
  pTimestamp : Time;
  pSignature : bytes
}.

#[global] Instance Proposal_eq_dec : EqDecision Proposal.
Proof. solve_decision. Defined.

(** [now] is [tmtime.Now()]. *)
Definition NewProposal (now : Time) (height round polRound : Z) (blockID : BlockID) : Proposal :=
  mkProposal ProposalType height round polRound blockID now [].

Definition Proposal_ValidateBasic (p : Proposal) : option error :=
  if negb (pType p =? ProposalType) then Some "invalid Type"
  else if pHeight p <? 0 then Some "negative Height"
  else if pRound p <? 0 then Some "negative Round"
  else if pPOLRound p <? -1 then Some "negative POLRound (exception: -1)"
  else match BlockID_ValidateBasic (pBlockID p) with
  | Some err => Some ("wrong BlockID: " +:+ err)
  | None =>
    if negb (BlockID_IsComplete (pBlockID p))
    then Some "expected a complete, non-empty BlockID"
    else if (length (pSignature p) =? 0)%nat then Some "signature is missing"
    else if MaxSignatureSize <? Z.of_nat (length (pSignature p)) then Some "signature is too big"
    else None
  end.

(** [tmproto.Proposal] *)
Record protoProposal := mkProtoProposal {
  ppType : Z;
  ppHeight : Z;
  ppRound : Z;
  ppPolRound : Z;
  ppBlockID : protoBlockID;
  ppTimestamp : Time;
  ppSignature : bytes
}.

Definition Proposal_ToProto (p : option Proposal) : protoProposal :=
  match p with
  | None => mkProtoProposal 0 0 0 0 (BlockID_ToProto None) zeroTime []
  | Some p => mkProtoProposal (pType p) (pHeight p) (pRound p) (pPOLRound p)
                (BlockID_ToProto (Some (pBlockID p))) (pTimestamp p) (pSignature p)
  end.

Definition ProposalFromProto (pp : option protoProposal) : result Proposal :=
  match pp with
  | None => inl "nil proposal"
  | Some pp =>
    match BlockIDFromProto (Some (ppBlockID pp)) with
    | inl err => inl err
    | inr blockID =>
      let p := mkProposal (ppType pp) (ppHeight pp) (ppRound pp) (ppPolRound pp) blockID
                 (ppTimestamp pp) (ppSignature pp) in
      match Proposal_ValidateBasic p with Some err => inl err | None => inr p end
    end
  end.

(** ** Canonical forms and the bytes to sign *)

(** The gogo/protobuf encoding of a [time.Time] as a [Timestamp] message. *)
Class StdTime := {
  SizeOfStdTime : Time -> Z;
  StdTimeMarshal : Time -> result bytes
}.

(** What the sign bytes rely on: the announced size is the length written,
    messages are small, and distinct times have distinct encodings. *)
Record StdTimeLaws (ST : StdTime) : Prop := {
  std_size : forall t bz, StdTimeMarshal t = inr bz -> SizeOfStdTime t = Z.of_nat (length bz);
  std_small : forall t bz, StdTimeMarshal t = inr bz -> Z.of_nat (length bz) < 2 ^ 31;
  std_inj : forall t t' bz, StdTimeMarshal t = inr bz -> StdTimeMarshal t' = inr bz -> t = t'
}.

Record CanonicalBlockID := mkCanonicalBlockID {
  cbidHash : bytes;
  cbidPartSetHeader : protoPartSetHeader   (* [CanonicalPartSetHeader] has the same fields *)
}.

Record CanonicalVote := mkCanonicalVote {
  cvType : Z;
  cvHeight : Z;
  cvRound : Z;
  cvBlockID : option CanonicalBlockID;
  cvTimestamp : Time;
  cvChainID : bytes
}.

Record CanonicalProposal := mkCanonicalProposal {
  cpType : Z;
  cpHeight : Z;
  cpRound : Z;
  cpPOLRound : Z;
  cpBlockID : option CanonicalBlockID;
  cpTimestamp : Time;
  cpChainID : bytes
}.

Definition CanonicalizePartSetHeader (psh : protoPartSetHeader) : protoPartSetHeader := psh.

Definition CanonicalizeBlockID (bid : protoBlockID) : outcome (option CanonicalBlockID) :=
  match BlockIDFromProto (Some bid) with
  | inl err => Panic err
  | inr rbid =>
    if BlockID_IsZero rbid then Done None
    else Done (Some (mkCanonicalBlockID (pbidHash bid)
                       (CanonicalizePartSetHeader (pbidPartSetHeader bid))))
  end.

Definition CanonicalizeVote (chainID : bytes) (vote : protoVote) : outcome CanonicalVote :=
  let! blockID := CanonicalizeBlockID (pvBlockID vote) in
  Done (mkCanonicalVote (pvType vote) (pvHeight vote) (pvRound vote) blockID
          (pvTimestamp vote) chainID).

Definition CanonicalizeProposal (chainID : bytes) (p : protoProposal) : outcome CanonicalProposal :=
  let! blockID := CanonicalizeBlockID (ppBlockID p) in
  Done (mkCanonicalProposal ProposalType (ppHeight p) (ppRound p) (ppPolRound p) blockID
          (ppTimestamp p) chainID).

(** [CanonicalPartSetHeader.MarshalToSizedBuffer], [Size] *)
Definition CanonicalPartSetHeader_write (m : protoPartSetHeader) : bytes :=
  let w := [] in
  let w := if (0 <? length (ppshHash m))%nat then putDelimited 18 (ppshHash m) w else w in
  if negb (ppshTotal m =? 0) then putVarint 8 (ppshTotal m) w else w.

Definition CanonicalPartSetHeader_Size (m : protoPartSetHeader) : Z :=
  let n := if negb (ppshTotal m =? 0) then 1 + sov (ppshTotal m) else 0 in
  let l := Z.of_nat (length (ppshHash m)) in
  if 0 <? l then n + (1 + l + sov l) else n.

(** [CanonicalBlockID.MarshalToSizedBuffer], [Size] *)
Definition CanonicalBlockID_write (m : CanonicalBlockID) : bytes :=
  let w := putDelimited 18 (CanonicalPartSetHeader_write (cbidPartSetHeader m)) [] in
  if (0 <? length (cbidHash m))%nat then putDelimited 10 (cbidHash m) w else w.

Definition CanonicalBlockID_Size (m : CanonicalBlockID) : Z :=
  let l := Z.of_nat (length (cbidHash m)) in
  let n := if 0 <? l then 1 + l + sov l else 0 in
  let l := CanonicalPartSetHeader_Size (cbidPartSetHeader m) in
  n + (1 + l + sov l).

(** [if m.BlockID != nil { ... }] of the two messages below. *)
Definition putBlock (tag : Z) (o : option CanonicalBlockID) (w : bytes) : bytes :=
  match o with Some b => putDelimited tag (CanonicalBlockID_write b) w | None => w end.

Section signbytes.
Context {ST : StdTime}.

(** [CanonicalVote.MarshalToSizedBuffer], [Size] *)
Definition CanonicalVote_write (m : CanonicalVote) : result bytes :=
  let w := [] in
  let w := if (0 <? length (cvChainID m))%nat then putDelimited 50 (cvChainID m) w else w in
  match StdTimeMarshal (cvTimestamp m) with
  | inl err => inl err
  | inr t =>
    let w := putDelimited 42 t w in
    let w := putBlock 34 (cvBlockID m) w in
    let w := if negb (cvRound m =? 0) then putSfixed64 25 (cvRound m) w else w in
    let w := if negb (cvHeight m =? 0) then putSfixed64 17 (cvHeight m) w else w in
    inr (if negb (cvType m =? 0) then putVarint 8 (wrapu64 (cvType m)) w else w)
  end.

Definition CanonicalVote_Size (m : CanonicalVote) : Z :=
  let n := if negb (cvType m =? 0) then 1 + sov (wrapu64 (cvType m)) else 0 in
  let n := if negb (cvHeight m =? 0) then n + 9 else n in
  let n := if negb (cvRound m =? 0) then n + 9 else n in
  let n := match cvBlockID m with
           | Some b => let l := CanonicalBlockID_Size b in n + (1 + l + sov l)
           | None => n
           end in
  let l := SizeOfStdTime (cvTimestamp m) in
  let n := n + (1 + l + sov l) in
  let l := Z.of_nat (length (cvChainID m)) in
  if 0 <? l then n + (1 + l + sov l) else n.

(** [CanonicalProposal.MarshalToSizedBuffer], [Size] *)
Definition CanonicalProposal_write (m : CanonicalProposal) : result bytes :=
  let w := [] in
  let w := if (0 <? length (cpChainID m))%nat then putDelimited 58 (cpChainID m) w else w in
  match StdTimeMarshal (cpTimestamp m) with
  | inl err => inl err
  | inr t =>
    let w := putDelimited 50 t w in
    let w := putBlock 42 (cpBlockID m) w in
    let w := if negb (cpPOLRound m =? 0) then putVarint 32 (wrapu64 (cpPOLRound m)) w else w in
    let w := if negb (cpRound m =? 0) then putSfixed64 25 (cpRound m) w else w in
    let w := if negb (cpHeight m =? 0) then putSfixed64 17 (cpHeight m) w else w in
    inr (if negb (cpType m =? 0) then putVarint 8 (wrapu64 (cpType m)) w else w)
  end.

Definition CanonicalProposal_Size (m : CanonicalProposal) : Z :=
  let n := if negb (cpType m =? 0) then 1 + sov (wrapu64 (cpType m)) else 0 in
  let n := if negb (cpHeight m =? 0) then n + 9 else n in
  let n := if negb (cpRound m =? 0) then n + 9 else n in
  let n := if negb (cpPOLRound m =? 0) then n + (1 + sov (wrapu64 (cpPOLRound m))) else n in
  let n := match cpBlockID m with
           | Some b => let l := CanonicalBlockID_Size b in n + (1 + l + sov l)
           | None => n
           end in
  let l := SizeOfStdTime (cpTimestamp m) in
  let n := n + (1 + l + sov l) in
  let l := Z.of_nat (length (cpChainID m)) in
  if 0 <? l then n + (1 + l + sov l) else n.

Definition VoteSignBytes (chainID : bytes) (vote : protoVote) : outcome bytes :=
  let! pb := CanonicalizeVote chainID vote in
  match CanonicalVote_write pb with
  | inl err => Panic err
  | inr w => marshalDelimited (CanonicalVote_Size pb) w
  end.

Definition ProposalSignBytes (chainID : bytes) (p : protoProposal) : outcome bytes :=
  let! pb := CanonicalizeProposal chainID p in
  match CanonicalProposal_write pb with
  | inl err => Panic err
  | inr w => marshalDelimited (CanonicalProposal_Size pb) w
  end.

(** [Vote.Verify] *)
Context `{Crypto}.

Definition Vote_Verify (vote : Vote) (chainID : bytes) (pubKey : PubKey) : outcome (option VoteError) :=
  if negb (bool_decide (pkAddress pubKey = vValidatorAddress vote))
  then Done (Some ErrVoteInvalidValidatorAddress)
  else
    let! bz := VoteSignBytes chainID (Vote_ToProto vote) in
    if negb (pkVerifyBytes pubKey bz (vSignature vote)) then Done (Some ErrVoteInvalidSignature)
    else Done None.

End signbytes.

(** ** Commits *)

(** [BlockIDFlag], a byte. *)
Definition BlockIDFlagAbsent : Z := 1.
Definition BlockIDFlagCommit : Z := 2.
Definition BlockIDFlagNil : Z := 3.

Record CommitSig := mkCommitSig {
  csBlockIDFlag : Z;
  csValidatorAddress : bytes;
  csTimestamp : Time;
  csSignature : bytes
}.

#[global] Instance CommitSig_eq_dec : EqDecision CommitSig.
Proof. solve_decision. Defined.

Definition NewCommitSigForBlock (signature valAddr : bytes) (ts : Time) : CommitSig :=
  mkCommitSig BlockIDFlagCommit valAddr ts signature.
Definition NewCommitSigAbsent : CommitSig := mkCommitSig BlockIDFlagAbsent [] zeroTime [].

Definition CommitSig_ForBlock (cs : CommitSig) : bool := csBlockIDFlag cs =? BlockIDFlagCommit.
Definition CommitSig_Absent (cs : CommitSig) : bool := csBlockIDFlag cs =? BlockIDFlagAbsent.

Definition CommitSig_BlockID (cs : CommitSig) (commitBlockID : BlockID) : outcome BlockID :=
  if csBlockIDFlag cs =? BlockIDFlagAbsent then Done zeroBlockID
  else if csBlockIDFlag cs =? BlockIDFlagCommit then Done commitBlockID
  else if csBlockIDFlag cs =? BlockIDFlagNil then Done zeroBlockID
  else Panic "Unknown BlockIDFlag".

Definition CommitSig_ValidateBasic (cs : CommitSig) : option error :=
  if negb ((csBlockIDFlag cs =? BlockIDFlagAbsent) || (csBlockIDFlag cs =? BlockIDFlagCommit)
           || (csBlockIDFlag cs =? BlockIDFlagNil))
  then Some "unknown BlockIDFlag"
  else if csBlockIDFlag cs =? BlockIDFlagAbsent then
    if negb (length (csValidatorAddress cs) =? 0)%nat then Some "validator address is present"
    else if negb (csTimestamp cs =? zeroTime) then Some "time is present"
    else if negb (length (csSignature cs) =? 0)%nat then Some "signature is present"
    else None
  else
    if negb (Z.of_nat (length (csValidatorAddress cs)) =? AddressSize)
    then Some "expected ValidatorAddress size to be 20 bytes"
    else if (length (csSignature cs) =? 0)%nat then Some "signature is missing"
    else if MaxSignatureSize <? Z.of_nat (length (csSignature cs)) then Some "signature is too big"
    else None.

(** [Vote.CommitSig] *)
Definition Vote_CommitSig (vote : option Vote) : outcome CommitSig :=
  match vote with
  | None => Done NewCommitSigAbsent
  | Some vote =>
    let! blockIDFlag :=
      (if BlockID_IsComplete (vBlockID vote) then Done BlockIDFlagCommit
       else if BlockID_IsZero (vBlockID vote) then Done BlockIDFlagNil
       else Panic "Invalid vote - expected BlockID to be either empty or complete") in
    Done (mkCommitSig blockIDFlag (vValidatorAddress vote) (vTimestamp vote) (vSignature vote))
  end.

(** The fields of [Commit]; the memoized hash and bit array come last. *)
Record Commit := mkCommit {
  cHeight : Z;
  cRound : Z;
  cBlockID : BlockID;
  cSignatures : list CommitSig;
  cHash : option bytes;
  cBitArray : option BitArray
}.

Definition NewCommit (height round : Z) (blockID : BlockID) (commitSigs : list CommitSig) : Commit :=
  mkCommit height round blockID commitSigs None None.

Definition Commit_GetVote (commit : Commit) (valIdx : Z) : outcome Vote :=
  let! commitSig := index (cSignatures commit) valIdx in
  let! blockID := CommitSig_BlockID commitSig (cBlockID commit) in
  Done (mkVote PrecommitType (cHeight commit) (cRound commit) blockID (csTimestamp commitSig)
          (csValidatorAddress commitSig) valIdx (csSignature commitSig)).

Definition Commit_VoteSignBytes {ST : StdTime} (commit : Commit) (chainID : bytes) (valIdx : Z)
    : outcome bytes :=
  let! v := Commit_GetVote commit valIdx in VoteSignBytes chainID (Vote_ToProto v).

Definition Commit_Size (commit : option Commit) : Z :=
  match commit with None => 0 | Some c => Z.of_nat (length (cSignatures c)) end.

Definition Commit_IsCommit (commit : Commit) : bool :=
  negb (length (cSignatures commit) =? 0)%nat.

(** [Commit.BitArray] and the commit with the memoized array. *)
Definition Commit_BitArray (commit : Commit) : outcome (option BitArray * Commit) :=
  match cBitArray commit with
  | Some bA => Done (Some bA, commit)
  | None =>
    let! bA := foldM (fun bA (ics : nat * CommitSig) =>
           let! (_, bA) := BitArray_SetIndex bA (Z.of_nat (fst ics)) (negb (CommitSig_Absent (snd ics))) in
           Done bA)
         (NewBitArray (Z.of_nat (length (cSignatures commit))))
         (zip (seq 0 (length (cSignatures commit))) (cSignatures commit)) in
    Done (bA, mkCommit (cHeight commit) (cRound commit) (cBlockID commit) (cSignatures commit)
                (cHash commit) bA)
  end.

Definition Commit_ValidateBasic (commit : Commit) : option error :=
  if cHeight commit <? 0 then Some "negative Height"
  else if cRound commit <? 0 then Some "negative Round"
  else if 1 <=? cHeight commit then
    if BlockID_IsZero (cBlockID commit) then Some "commit cannot be for nil block"
    else if (length (cSignatures commit) =? 0)%nat then Some "no signatures in commit"
    else foldl (fun (err : option error) cs =>
                  match err with
                  | Some e => Some e
                  | None => match CommitSig_ValidateBasic cs with
                            | Some e => Some ("wrong CommitSig: " +:+ e)
                            | None => None
                            end
                  end) None (cSignatures commit)
  else None.

(** [tmproto.CommitSig], whose flag is an [int32], and [tmproto.Commit] *)
Record protoCommitSig := mkProtoCommitSig {
  pcsBlockIdFlag : Z;
  pcsValidatorAddress : bytes;
  pcsTimestamp : Time;
  pcsSignature : bytes
}.

Record protoCommit := mkProtoCommit {
  pcHeight : Z;
  pcRound : Z;
  pcBlockID : protoBlockID;
  pcSignatures : list protoCommitSig;
  pcHash : option bytes;
  pcBitArray : option protoBitArray
}.

Definition CommitSig_ToProto (cs : CommitSig) : protoCommitSig :=
  mkProtoCommitSig (csBlockIDFlag cs) (csValidatorAddress cs) (csTimestamp cs) (csSignature cs).

(** The conversion of the flag to a byte keeps its low eight bits. *)
Definition CommitSig_FromProto (csp : protoCommitSig) : result CommitSig :=
  let cs := mkCommitSig (pcsBlockIdFlag csp mod 256) (pcsValidatorAddress csp)
              (pcsTimestamp csp) (pcsSignature csp) in
  match CommitSig_ValidateBasic cs with Some err => inl err | None => inr cs end.

Definition Commit_ToProto (commit : option Commit) : option protoCommit :=
  match commit with
  | None => None
  | Some c =>
    Some (mkProtoCommit (cHeight c) (cRound c) (BlockID_ToProto (Some (cBlockID c)))
            (CommitSig_ToProto <$> cSignatures c) (cHash c) (BitArray_ToProto (cBitArray c)))
  end.

(** The loop over the signatures in [CommitFromProto]. *)
Fixpoint commitSigsFromProto (l : list protoCommitSig) : result (list CommitSig) :=
  match l with
  | [] => inr []
  | csp :: l' =>
    match CommitSig_FromProto csp with
    | inl err => inl err
    | inr cs => match commitSigsFromProto l' with
                | inl err => inl err
                | inr sigs => inr (cs :: sigs)
                end
    end
  end.

(** [bitArray] is a nil pointer when [FromProto] is called on it. *)
Definition CommitFromProto (cp : option protoCommit) : outcome (result Commit) :=
  match cp with
  | None => Done (inl "nil Commit")
  | Some cp =>
    match BlockIDFromProto (Some (pcBlockID cp)) with
    | inl err => Done (inl err)
    | inr bi =>
      let! bitArray := BitArray_FromProto None (pcBitArray cp) in
      match commitSigsFromProto (pcSignatures cp) with
      | inl err => Done (inl err)
      | inr sigs =>
        let commit := mkCommit (pcHeight cp) (pcRound cp) bi sigs (pcHash cp) bitArray in
        match Commit_ValidateBasic commit with
        | Some err => Done (inl err)
        | None => Done (inr commit)
        end
      end
    end
  end.
