(* ===== verification/Merkle.v ===== *)
(** * Merkle trees

    crypto/merkle/hash.go, tree.go and proof.go.  The hash function
    [tmhash.Sum] (SHA-256) is a parameter.  A nil slice is an empty one, as
    [bytes.Equal] sees them; where the code tells a missing hash from an empty
    one ([computeHashFromAunts]) it is an option. *)

From Stdlib Require Import ZArith Lia.
From S2P Require Import Prelude Proto BlockTypes.
From stdpp Require Import base gmap list option strings numbers sorting.

Local Open Scope Z_scope.

(** [tmhash.Sum] *)
Class TmHash := { Sum : bytes -> bytes }.

Definition MaxAunts : Z := 100.

(** SHA-256 has 32 bytes. *)
Class TmHashLaws (TH : TmHash) := { Sum_size : forall bz, Z.of_nat (length (Sum bz)) = tmhashSize }.

Section merkle.
Context {TH : TmHash}.

Definition leafHash (leaf : bytes) : bytes := Sum (Byte.x00 :: leaf).
Definition innerHash (left right : bytes) : bytes := Sum (Byte.x01 :: left ++ right).

(** [bits.Len] is [Len64]. *)
Definition getSplitPoint (length : Z) : outcome Z :=
  if length <? 1 then Panic "Trying to split a tree with size < 1"
  else
    let bitlen := Len64 length in
    let k := Z.shiftl 1 (bitlen - 1) in
    Done (if k =? length then Z.shiftr k 1 else k).

(** The recursion on shorter and shorter slices; [fuel] bounds its depth. *)
Fixpoint hashSlices (fuel : nat) (items : list bytes) : outcome bytes :=
  match fuel with
  | O => Panic "out of fuel"
  | S fuel' =>
    match items with
    | [] => Done []
    | [item] => Done (leafHash item)
    | _ =>
      let! k := getSplitPoint (Z.of_nat (length items)) in
      let! leftH := hashSlices fuel' (take (Z.to_nat k) items) in
      let! rightH := hashSlices fuel' (drop (Z.to_nat k) items) in
      Done (innerHash leftH rightH)
    end
  end.

Definition HashFromByteSlices (items : list bytes) : outcome bytes :=
  hashSlices (S (length items)) items.

(** One pass of the inner loop of [HashFromByteSlicesIterative]: the hashes
    that are left, [items[:wp]]. *)
Fixpoint pairUp (items : list bytes) : list bytes :=
  match items with
  | a :: b :: rest => innerHash a b :: pairUp rest
  | _ => items
  end.

Fixpoint iterateHash (fuel : nat) (items : list bytes) : outcome bytes :=
  match fuel with
  | O => Panic "out of fuel"
  | S fuel' =>
    match items with
    | [] => Done []
    | [item] => Done item
    | _ => iterateHash fuel' (pairUp items)
    end
  end.

(** Every pass shortens a list of two or more. *)
Definition HashFromByteSlicesIterative (input : list bytes) : outcome bytes :=
  let items := leafHash <$> input in iterateHash (S (length items)) items.

(** ** Proofs *)

Record Proof_ := mkProof {
  prTotal : Z;
  prIndex : Z;
  prLeafHash : bytes;
  prAunts : list bytes
}.

(** A node on the way from a leaf to the root: its hash and the hash of its
    left or right sibling. *)
Record ProofNode := mkProofNode {
  pnHash : bytes;
  pnLeft : option bytes;
  pnRight : option bytes
}.

(** A trail is the chain of [Parent] pointers, from the leaf to the root. *)
Definition trail : Type := list ProofNode.

Definition FlattenAunts (spn : trail) : list bytes :=
  flat_map (fun n => match pnLeft n with
                     | Some h => [h]
                     | None => match pnRight n with Some h => [h] | None => [] end
                     end) spn.

(** The assignments to [leftRoot] and [rightRoot], which end the trails of the
    two subtrees, and the new root. *)
Definition extendTrail (left right : option bytes) (root : ProofNode) (t : trail) : trail :=
  match reverse t with
  | [] => [root]
  | top :: below => reverse below ++ [mkProofNode (pnHash top) left right; root]
  end.

Fixpoint trailsLoop (fuel : nat) (items : list bytes) : outcome (list trail * option ProofNode) :=
  match fuel with
  | O => Panic "out of fuel"
  | S fuel' =>
    match items with
    | [] => Done ([], None)
    | [item] =>
      let node := mkProofNode (leafHash item) None None in Done ([[node]], Some node)
    | _ =>
      let! k := getSplitPoint (Z.of_nat (length items)) in
      let! (lefts, leftRoot) := trailsLoop fuel' (take (Z.to_nat k) items) in
      let! (rights, rightRoot) := trailsLoop fuel' (drop (Z.to_nat k) items) in
      match leftRoot, rightRoot with
      | Some l, Some r =>
        let root := mkProofNode (innerHash (pnHash l) (pnHash r)) None None in
        Done ((extendTrail None (Some (pnHash r)) root <$> lefts)
                ++ (extendTrail (Some (pnHash l)) None root <$> rights), Some root)
      | _, _ => Panic "invalid memory address or nil pointer dereference"
      end
    end
  end.

Definition trailsFromByteSlices (items : list bytes) : outcome (list trail * option ProofNode) :=
  trailsLoop (S (length items)) items.

(** [trail.Hash] is the hash of the leaf. *)
Definition proofOf (total : Z) (i : nat) (t : trail) : Proof_ :=
  mkProof total (Z.of_nat i) (match t with n :: _ => pnHash n | [] => [] end) (FlattenAunts t).

Definition ProofsFromByteSlices (items : list bytes) : outcome (bytes * list Proof_) :=
  let! (trails, rootSPN) := trailsFromByteSlices items in
  match rootSPN with
  | None => Panic "invalid memory address or nil pointer dereference"
  | Some root => Done (pnHash root, imap (proofOf (Z.of_nat (length items))) trails)
  end.

(** The recursion takes one aunt at a time from the end; [leafHash] is not nil. *)
Fixpoint computeFrom (rev_aunts : list bytes) (index total : Z) (leafHash : bytes)
    : outcome (option bytes) :=
  if (total <=? index) || (index <? 0) || (total <=? 0) then Done None
  else if total =? 1 then
    match rev_aunts with [] => Done (Some leafHash) | _ => Done None end
  else
    match rev_aunts with
    | [] => Done None
    | last :: rest =>
      let! numLeft := getSplitPoint total in
      if index <? numLeft then
        let! leftH := computeFrom rest index numLeft leafHash in
        Done (option_map (fun l => innerHash l last) leftH)
      else
        let! rightH := computeFrom rest (index - numLeft) (total - numLeft) leafHash in
        Done (option_map (fun r => innerHash last r) rightH)
    end.

Definition computeHashFromAunts (index total : Z) (leafHash : bytes) (innerHashes : list bytes)
    : outcome (option bytes) :=
  computeFrom (reverse innerHashes) index total leafHash.

Definition ComputeRootHash (sp : Proof_) : outcome (option bytes) :=
  computeHashFromAunts (prIndex sp) (prTotal sp) (prLeafHash sp) (prAunts sp).

Definition Proof_Verify (sp : Proof_) (rootHash leaf : bytes) : outcome (option error) :=
  if prTotal sp <? 0 then Done (Some "proof total must be positive")
  else if prIndex sp <? 0 then Done (Some "proof index cannot be negative")
  else if negb (bool_decide (prLeafHash sp = leafHash leaf)) then Done (Some "invalid leaf hash")
  else
    let! computedHash := ComputeRootHash sp in
    if negb (bool_decide (default [] computedHash = rootHash)) then Done (Some "invalid root hash")
    else Done None.

Definition Proof_ValidateBasic (sp : Proof_) : option error :=
  if prTotal sp <? 0 then Some "negative Total"
  else if prIndex sp <? 0 then Some "negative Index"
  else if negb (Z.of_nat (length (prLeafHash sp)) =? tmhashSize) then Some "unexpected LeafHash size"
  else if MaxAunts <? Z.of_nat (length (prAunts sp)) then Some "too many aunts"
  else if negb (forallb (fun a => Z.of_nat (length a) =? tmhashSize) (prAunts sp))
  then Some "unexpected size of an aunt"
  else None.

(** [tmcrypto.Proof] has the same fields. *)
Definition Proof_ToProto (sp : option Proof_) : option Proof_ := sp.

Definition ProofFromProto (pb : option Proof_) : Proof_ * option error :=
  match pb with
  | None => (mkProof 0 0 [] [], Some "nil proof")
  | Some pb => (pb, Proof_ValidateBasic pb)
  end.

(** ** The tree of a list of items

    The reference definition: a binary tree over the items in which the left
    subtree of every node is a complete tree of [2^j] leaves and the right one
    has at most as many. *)
Inductive mtree :=
  | MLeaf (item : bytes)
  | MNode (l r : mtree).

Fixpoint leaves (t : mtree) : list bytes :=
  match t with MLeaf b => [b] | MNode l r => leaves l ++ leaves r end.

Fixpoint mhash (t : mtree) : bytes :=
  match t with MLeaf b => leafHash b | MNode l r => innerHash (mhash l) (mhash r) end.

Definition msize (t : mtree) : nat := length (leaves t).

Fixpoint shaped (t : mtree) : Prop :=
  match t with
  | MLeaf _ => True
  | MNode l r => (exists j : nat, msize l = (2 ^ j)%nat /\ (msize r <= 2 ^ j)%nat) /\ shaped l /\ shaped r
  end.

Lemma msize_pos t : (0 < msize t)%nat.
Proof. induction t; unfold msize in *; simpl; [lia|rewrite length_app; lia]. Qed.

Lemma getSplitPoint_spec n : 2 <= n ->
  exists j : nat, getSplitPoint n = Done (2 ^ Z.of_nat j) /\ 2 ^ Z.of_nat j < n <= 2 * 2 ^ Z.of_nat j.
Proof.
  intros Hn. unfold getSplitPoint, Len64.
  destruct (Z.ltb_spec n 1), (Z.leb_spec n 0); [lia..|].
  replace (Z.log2 n + 1 - 1) with (Z.log2 n) by lia. rewrite Z.shiftl_1_l.
  assert (Hl : 1 <= Z.log2 n) by (apply (Z.log2_le_mono 2); lia).
  pose proof (Z.log2_spec n ltac:(lia)) as Hs. rewrite Z.pow_succ_r in Hs by lia.
  destruct (Z.eqb_spec (2 ^ Z.log2 n) n) as [E|E].
  - exists (Z.to_nat (Z.log2 n - 1)). rewrite Z2Nat.id by lia.
    assert (Hp : 2 ^ Z.log2 n = 2 * 2 ^ (Z.log2 n - 1))
      by (rewrite <- Z.pow_succ_r by lia; f_equal; lia).
    pose proof (Z.pow_pos_nonneg 2 (Z.log2 n - 1) ltac:(lia) ltac:(lia)).
    rewrite Z.shiftr_div_pow2, Hp by lia.
    replace (2 * 2 ^ (Z.log2 n - 1) / 2 ^ 1) with (2 ^ (Z.log2 n - 1))
      by (change (2 ^ 1) with 2; rewrite Z.mul_comm, Z.div_mul; lia).
    split; [done|lia].
  - exists (Z.to_nat (Z.log2 n)). rewrite Z2Nat.id by lia. split; [done|lia].
Qed.

Lemma pow2_between_unique (i j : nat) n :
  2 ^ Z.of_nat i < n <= 2 * 2 ^ Z.of_nat i -> 2 ^ Z.of_nat j < n <= 2 * 2 ^ Z.of_nat j -> i = j.
Proof.
  intros Hi Hj. destruct (lt_eq_lt_dec i j) as [[H|H]|H]; [|done|]; exfalso.
  - assert (2 ^ Z.succ (Z.of_nat i) <= 2 ^ Z.of_nat j) by (apply Z.pow_le_mono_r; lia).
    rewrite Z.pow_succ_r in *; lia.
  - assert (2 ^ Z.succ (Z.of_nat j) <= 2 ^ Z.of_nat i) by (apply Z.pow_le_mono_r; lia).
    rewrite Z.pow_succ_r in *; lia.
Qed.

(** The split point of a shaped node is the size of its left subtree. *)
Lemma getSplitPoint_node l r : shaped (MNode l r) ->
  getSplitPoint (Z.of_nat (msize l + msize r)) = Done (Z.of_nat (msize l)).
Proof.
  intros ((j & Hl & Hr) & _). pose proof (msize_pos r).
  assert (Hz : Z.of_nat (msize l) = 2 ^ Z.of_nat j) by (rewrite Hl, Nat2Z.inj_pow; done).
  assert (Hz' : Z.of_nat (msize r) <= 2 ^ Z.of_nat j) by lia.
  pose proof (Z.pow_pos_nonneg 2 (Z.of_nat j) ltac:(lia) ltac:(lia)).
  destruct (getSplitPoint_spec (Z.of_nat (msize l + msize r)) ltac:(lia)) as (i & -> & Hi).
  rewrite Hz. do 2 f_equal. f_equal. apply (pow2_between_unique _ _ (Z.of_nat (msize l + msize r))); lia.
Qed.

(** The tree of a list of items, built by the same splits. *)
Fixpoint mtreeOf (fuel : nat) (items : list bytes) : mtree :=
  match fuel, items with
  | S fuel', _ :: _ :: _ =>
    match getSplitPoint (Z.of_nat (length items)) with
    | Done k => MNode (mtreeOf fuel' (take (Z.to_nat k) items)) (mtreeOf fuel' (drop (Z.to_nat k) items))
    | Panic _ => MLeaf []
    end
  | _, item :: _ => MLeaf item
  | _, [] => MLeaf []
  end.

Lemma mtreeOf_spec fuel items : items <> [] -> (length items <= fuel)%nat ->
  shaped (mtreeOf fuel items) /\ leaves (mtreeOf fuel items) = items.
Proof.
  revert items. induction fuel as [|fuel IH]; intros items Hne Hf.
  { destruct items; [done|simpl in Hf; lia]. }
  destruct items as [|a [|b rest]]; [done|done|].
  remember (a :: b :: rest) as items eqn:Eit.
  assert (Hlen : 2 <= Z.of_nat (length items)) by (subst; simpl; lia).
  destruct (getSplitPoint_spec _ Hlen) as (j & Hsp & Hj).
  assert (Hm : mtreeOf (S fuel) items = MNode (mtreeOf fuel (take (2 ^ j) items)) (mtreeOf fuel (drop (2 ^ j) items))).
  { cbn [mtreeOf]. rewrite Eit at 1. rewrite Hsp. cbv iota.
    by replace (Z.to_nat (2 ^ Z.of_nat j)) with (2 ^ j)%nat
      by (apply Nat2Z.inj; rewrite Nat2Z.inj_pow, Z2Nat.id; [done|apply Z.pow_nonneg; lia]). }
  rewrite Hm. clear Eit Hm. set (k := (2 ^ j)%nat).
  assert (Hk : Z.of_nat k = 2 ^ Z.of_nat j) by (unfold k; rewrite Nat2Z.inj_pow; done).
  pose proof (Z.pow_pos_nonneg 2 (Z.of_nat j) ltac:(lia) ltac:(lia)).
  assert (Ht : length (take k items) = k) by (rewrite length_take; lia).
  assert (Hd : length (drop k items) = (length items - k)%nat) by apply length_drop.
  destruct (IH (take k items)) as [Hl El]; [intros E; rewrite E in Ht; simpl in Ht; lia|lia|].
  destruct (IH (drop k items)) as [Hr Er]; [intros E; rewrite E in Hd; simpl in Hd; lia|lia|].
  simpl. unfold msize. rewrite El, Er, Ht, Hd, take_drop.
  split; [|done]. split; [|done]. exists j. fold k. lia.
Qed.

Lemma shaped_exists items : items <> [] -> exists t, shaped t /\ leaves t = items.
Proof. intros Hne. exists (mtreeOf (length items) items). by apply mtreeOf_spec. Qed.

(** A slice of two or more is split at the two subtrees. *)
Lemma leaves_node_cases l r : exists a b rest, leaves (MNode l r) = a :: b :: rest.
Proof.
  pose proof (msize_pos l) as Hl. pose proof (msize_pos r) as Hr. unfold msize in *. simpl.
  destruct (leaves l) as [|a [|b rest]]; simpl in *; [lia| |eauto].
  destruct (leaves r) as [|b rest]; simpl in *; [lia|eauto].
Qed.

Lemma take_leaves l r : take (Z.to_nat (Z.of_nat (msize l))) (leaves (MNode l r)) = leaves l.
Proof. rewrite Nat2Z.id. apply take_app_length. Qed.

Lemma drop_leaves l r : drop (Z.to_nat (Z.of_nat (msize l))) (leaves (MNode l r)) = leaves r.
Proof. rewrite Nat2Z.id. apply drop_app_length. Qed.

Lemma length_leaves_node l r : length (leaves (MNode l r)) = (msize l + msize r)%nat.
Proof. apply length_app. Qed.

Lemma hashSlices_shaped t fuel : shaped t -> (msize t < fuel)%nat ->
  hashSlices fuel (leaves t) = Done (mhash t).
Proof.
  revert fuel. induction t as [b|l IHl r IHr]; intros fuel Hs Hf.
  { destruct fuel; [unfold msize in Hf; simpl in Hf; lia|done]. }
  pose proof (msize_pos l). pose proof (msize_pos r).
  unfold msize in Hf. rewrite length_leaves_node in Hf. destruct fuel as [|fuel]; [lia|].
  destruct (leaves_node_cases l r) as (a & b & rest & E).
  cbn [hashSlices]. rewrite E. cbv iota. rewrite <- E.
  rewrite length_leaves_node, (getSplitPoint_node l r Hs), bind_Done, take_leaves, drop_leaves.
  destruct Hs as (_ & Hsl & Hsr).
  rewrite IHl, bind_Done, IHr, bind_Done by (done || lia). done.
Qed.

Lemma HashFromByteSlices_shaped t : shaped t -> HashFromByteSlices (leaves t) = Done (mhash t).
Proof. intros. apply hashSlices_shaped; [done|unfold msize; lia]. Qed.

(** ** The iterative algorithm *)

Fixpoint passes (j : nat) (l : list bytes) : list bytes :=
  match j with O => l | S j' => passes j' (pairUp l) end.

Lemma passes_add i j l : passes (i + j) l = passes j (passes i l).
Proof. revert l. induction i as [|i IH]; intros l; simpl; auto. Qed.

Lemma passes_singleton j h : passes j [h] = [h].
Proof. induction j; done. Qed.

Lemma pairUp_app m l1 l2 : length l1 = (2 * m)%nat ->
  pairUp (l1 ++ l2) = pairUp l1 ++ pairUp l2 /\ length (pairUp l1) = m.
Proof.
  revert l1. induction m as [|m IH]; intros l1 Hl.
  { by destruct l1. }
  destruct l1 as [|a [|b l1]]; simpl in Hl; [lia..|].
  destruct (IH l1) as [H1 H2]; [lia|]. simpl. by rewrite H1, H2.
Qed.

Lemma passes_app i l1 l2 : length l1 = (2 ^ i)%nat ->
  passes i (l1 ++ l2) = passes i l1 ++ passes i l2.
Proof.
  revert l1 l2. induction i as [|i IH]; intros l1 l2 Hl; simpl; [done|].
  destruct (pairUp_app (2 ^ i) l1 l2) as [-> H2]; [simpl in Hl; lia|]. by apply IH.
Qed.

Lemma pairUp_length l : (length (pairUp l) <= length l)%nat.
Proof.
  remember (length l) as n eqn:E. revert l E. induction n as [n IH] using lt_wf_ind.
  intros [|a [|b l]] ->; simpl; [lia..|].
  pose proof (IH (length l) ltac:(simpl; lia) l eq_refl). lia.
Qed.

(** Enough passes leave the root: a tree of [2^j] leaves needs [j]. *)
Lemma passes_shaped t j : shaped t -> (msize t <= 2 ^ j)%nat ->
  passes j (leafHash <$> leaves t) = [mhash t].
Proof.
  revert j. induction t as [b|l IHl r IHr]; intros j Hs Hj; [apply passes_singleton|].
  destruct Hs as ((i & Hl & Hr) & Hsl & Hsr). pose proof (msize_pos r).
  unfold msize in Hj. rewrite length_leaves_node in Hj.
  assert (Hij : (i < j)%nat).
  { destruct (Nat.lt_ge_cases i j) as [|Hge]; [done|].
    pose proof (Nat.pow_le_mono_r 2 j i ltac:(lia) Hge). lia. }
  replace j with (i + (1 + (j - i - 1)))%nat by lia.
  rewrite passes_add. simpl leaves. rewrite fmap_app, passes_app by (by rewrite length_fmap).
  rewrite IHl, IHr by (done || lia). simpl. apply passes_singleton.
Qed.

Lemma iterateHash_passes fuel j items h : (length items < fuel)%nat ->
  passes j items = [h] -> iterateHash fuel items = Done h.
Proof.
  revert j items. induction fuel as [|fuel IH]; intros j items Hf Hp; [lia|].
  destruct items as [|a [|b rest]].
  - exfalso. clear Hf IH. induction j; simpl in Hp; [done|auto].
  - rewrite passes_singleton in Hp. by injection Hp as ->.
  - destruct j as [|j]; [done|]. simpl in Hp. cbn [iterateHash].
    apply (IH j); [|done]. pose proof (pairUp_length rest). simpl in *. lia.
Qed.

Lemma pow2_above n : exists j, (n <= 2 ^ j)%nat.
Proof. exists n. pose proof (Nat.pow_gt_lin_r 2 n ltac:(lia)). lia. Qed.

Lemma HashFromByteSlicesIterative_shaped t : shaped t ->
  HashFromByteSlicesIterative (leaves t) = Done (mhash t).
Proof.
  intros Hs. destruct (pow2_above (msize t)) as [j Hj].
  apply (iterateHash_passes _ j); [lia|by apply passes_shaped].
Qed.

(** ** Building proofs *)

(** The trail of leaf [i] of [t] ends in the root of [t], which has no sibling
    yet, and its aunts lead from the leaf to the root. *)
Definition goodTrail (t : mtree) (i : nat) (tr : trail) : Prop :=
  exists below h, tr = below ++ [mkProofNode (mhash t) None None]
    /\ leaves t !! i = Some h
    /\ pnHash <$> head tr = Some (leafHash h)
    /\ Forall (fun a => exists u, a = mhash u) (FlattenAunts tr)
    /\ computeFrom (reverse (FlattenAunts tr)) (Z.of_nat i) (Z.of_nat (msize t)) (leafHash h)
       = Done (Some (mhash t))
    /\ forall j : nat, (msize t <= 2 ^ j)%nat -> (length (FlattenAunts tr) <= j)%nat.

Lemma FlattenAunts_app t1 t2 : FlattenAunts (t1 ++ t2) = FlattenAunts t1 ++ FlattenAunts t2.
Proof. apply flat_map_app. Qed.

Lemma extendTrail_top below top left right root :
  extendTrail left right root (below ++ [top])
  = below ++ [mkProofNode (pnHash top) left right; root].
Proof. unfold extendTrail. by rewrite reverse_snoc, reverse_involutive. Qed.

Lemma head_app_nonempty {A} (l1 l2 l3 : list A) x y :
  head (l1 ++ x :: l2) = Some y -> l1 <> [] -> head (l1 ++ l3) = Some y.
Proof. by destruct l1. Qed.

Lemma pow2_node_lt l r j : shaped (MNode l r) -> (msize (MNode l r) <= 2 ^ S j)%nat ->
  (msize l <= 2 ^ j)%nat /\ (msize r <= 2 ^ j)%nat.
Proof.
  intros ((i & Hl & Hr) & _) Hj. pose proof (msize_pos r).
  unfold msize in Hj. rewrite length_leaves_node in Hj.
  assert (Hij : (i <= j)%nat).
  { destruct (Nat.lt_ge_cases j i) as [Hlt|]; [|done].
    pose proof (Nat.pow_le_mono_r 2 (S j) i ltac:(lia) Hlt). lia. }
  pose proof (Nat.pow_le_mono_r 2 i j ltac:(lia) Hij). lia.
Qed.

Lemma computeFrom_left ra l r i h last : shaped (MNode l r) -> (i < msize l)%nat ->
  computeFrom ra (Z.of_nat i) (Z.of_nat (msize l)) h = Done (Some (mhash l)) ->
  computeFrom (last :: ra) (Z.of_nat i) (Z.of_nat (msize l + msize r)) h
  = Done (Some (innerHash (mhash l) last)).
Proof.
  intros Hs Hi Hc. pose proof (msize_pos l). pose proof (msize_pos r). cbn [computeFrom].
  destruct (Z.leb_spec (Z.of_nat (msize l + msize r)) (Z.of_nat i)),
    (Z.ltb_spec (Z.of_nat i) 0), (Z.leb_spec (Z.of_nat (msize l + msize r)) 0),
    (Z.eqb_spec (Z.of_nat (msize l + msize r)) 1); try lia.
  simpl orb. cbv iota. rewrite getSplitPoint_node, bind_Done by done.
  destruct (Z.ltb_spec (Z.of_nat i) (Z.of_nat (msize l))); [|lia]. by rewrite Hc.
Qed.

Lemma computeFrom_right ra l r i h last : shaped (MNode l r) -> (i < msize r)%nat ->
  computeFrom ra (Z.of_nat i) (Z.of_nat (msize r)) h = Done (Some (mhash r)) ->
  computeFrom (last :: ra) (Z.of_nat (msize l + i)) (Z.of_nat (msize l + msize r)) h
  = Done (Some (innerHash last (mhash r))).
Proof.
  intros Hs Hi Hc. pose proof (msize_pos l). pose proof (msize_pos r). cbn [computeFrom].
  destruct (Z.leb_spec (Z.of_nat (msize l + msize r)) (Z.of_nat (msize l + i))),
    (Z.ltb_spec (Z.of_nat (msize l + i)) 0), (Z.leb_spec (Z.of_nat (msize l + msize r)) 0),
    (Z.eqb_spec (Z.of_nat (msize l + msize r)) 1); try lia.
  simpl orb. cbv iota. rewrite getSplitPoint_node, bind_Done by done.
  destruct (Z.ltb_spec (Z.of_nat (msize l + i)) (Z.of_nat (msize l))); [lia|].
  replace (Z.of_nat (msize l + i) - Z.of_nat (msize l)) with (Z.of_nat i) by lia.
  replace (Z.of_nat (msize l + msize r) - Z.of_nat (msize l)) with (Z.of_nat (msize r)) by lia.
  by rewrite Hc.
Qed.

(** What the assignments to a subtree's root make of one of its trails. *)
Lemma extendTrail_good t i tr root (sib : mtree) lft rgt :
  goodTrail t i tr ->
  (lft = None /\ rgt = Some (mhash sib)) \/ (lft = Some (mhash sib) /\ rgt = None) ->
  let tr' := extendTrail lft rgt (mkProofNode root None None) tr in
  (exists below, tr' = below ++ [mkProofNode root None None])
  /\ FlattenAunts tr' = FlattenAunts tr ++ [mhash sib]
  /\ pnHash <$> head tr' = pnHash <$> head tr.
Proof.
  intros (below & h & -> & _) Hsib. simpl. rewrite extendTrail_top. simpl.
  split; [exists (below ++ [mkProofNode (mhash t) lft rgt]); by rewrite <- app_assoc|].
  rewrite !FlattenAunts_app. simpl.
  split; [destruct Hsib as [[-> ->]|[-> ->]]; simpl; by rewrite app_nil_r|].
  by destruct below.
Qed.

Lemma goodTrail_left l r i tr : shaped (MNode l r) -> goodTrail l i tr ->
  goodTrail (MNode l r) i
    (extendTrail None (Some (mhash r)) (mkProofNode (mhash (MNode l r)) None None) tr).
Proof.
  intros Hs Hg. destruct (extendTrail_good l i tr (mhash (MNode l r)) r _ _ Hg (or_introl (conj eq_refl eq_refl)))
    as ((below & Hb) & Hf & Hh).
  destruct Hg as (b0 & h & E0 & Hlk & Hhd & Hall & Hc & Hlen).
  exists below, h. rewrite Hf, Hh, reverse_snoc. split; [done|].
  split; [simpl; by apply lookup_app_l_Some|]. split; [done|]. split.
  { apply Forall_app; split; [done|]. apply Forall_singleton. eauto. }
  split.
  - unfold msize at 1. rewrite length_leaves_node. apply computeFrom_left; [done| |done].
    by apply lookup_lt_Some in Hlk.
  - intros [|j] Hj; [|apply (pow2_node_lt l r j Hs) in Hj as [Hj _]; rewrite length_app; simpl;
      specialize (Hlen j Hj); lia].
    unfold msize in Hj. rewrite length_leaves_node in Hj. simpl in Hj.
    pose proof (msize_pos l); pose proof (msize_pos r); lia.
Qed.

Lemma goodTrail_right l r i tr : shaped (MNode l r) -> goodTrail r i tr ->
  goodTrail (MNode l r) (msize l + i)
    (extendTrail (Some (mhash l)) None (mkProofNode (mhash (MNode l r)) None None) tr).
Proof.
  intros Hs Hg. destruct (extendTrail_good r i tr (mhash (MNode l r)) l _ _ Hg (or_intror (conj eq_refl eq_refl)))
    as ((below & Hb) & Hf & Hh).
  destruct Hg as (b0 & h & E0 & Hlk & Hhd & Hall & Hc & Hlen).
  exists below, h. rewrite Hf, Hh, reverse_snoc. split; [done|].
  split; [simpl; unfold msize; rewrite lookup_app_r by lia; rewrite <- Hlk; f_equal; lia|]. split; [done|]. split.
  { apply Forall_app; split; [done|]. apply Forall_singleton. eauto. }
  split.
  - unfold msize at 2. rewrite length_leaves_node. apply computeFrom_right; [done| |done].
    by apply lookup_lt_Some in Hlk.
  - intros [|j] Hj; [|apply (pow2_node_lt l r j Hs) in Hj as [_ Hj]; rewrite length_app; simpl;
      specialize (Hlen j Hj); lia].
    unfold msize in Hj. rewrite length_leaves_node in Hj. simpl in Hj.
    pose proof (msize_pos l); pose proof (msize_pos r); lia.
Qed.

Lemma trailsLoop_shaped t fuel : shaped t -> (msize t < fuel)%nat ->
  exists trails, trailsLoop fuel (leaves t) = Done (trails, Some (mkProofNode (mhash t) None None))
    /\ length trails = msize t
    /\ forall i tr, trails !! i = Some tr -> goodTrail t i tr.
Proof.
  revert fuel. induction t as [b|l IHl r IHr]; intros fuel Hs Hf.
  { destruct fuel; [unfold msize in Hf; simpl in Hf; lia|].
    eexists; split; [done|]. split; [done|]. intros [|i] tr E; [|done].
    injection E as <-. exists [], b. repeat split; first [done|by constructor|intros; simpl; lia]. }
  pose proof (msize_pos l). pose proof (msize_pos r).
  unfold msize in Hf. rewrite length_leaves_node in Hf. destruct fuel as [|fuel]; [lia|].
  destruct (leaves_node_cases l r) as (a & b & rest & E).
  cbn [trailsLoop]. rewrite E. cbv iota. rewrite <- E.
  rewrite length_leaves_node, (getSplitPoint_node l r Hs), bind_Done, take_leaves, drop_leaves.
  destruct (IHl fuel) as (tl & -> & Hll & Hgl); [apply Hs|lia|].
  destruct (IHr fuel) as (tr & -> & Hlr & Hgr); [apply Hs|lia|].
  rewrite !bind_Done. cbv iota beta. simpl pnHash.
  eexists; split; [reflexivity|]. split.
  { rewrite length_app, !length_fmap, Hll, Hlr. unfold msize at 3. by rewrite length_leaves_node. }
  intros i x Hx. apply lookup_app_Some in Hx as [Hx|[Hge Hx]];
    rewrite list_lookup_fmap in Hx; apply fmap_Some in Hx as (y & Hy & ->).
  - by apply goodTrail_left; [|apply Hgl].
  - rewrite length_fmap in *. replace i with (msize l + (i - length tl))%nat by lia.
    by apply goodTrail_right; [|apply Hgr].
Qed.

Lemma mhash_size {L : TmHashLaws TH} t : Z.of_nat (length (mhash t)) = tmhashSize.
Proof. destruct t; apply Sum_size. Qed.

Lemma goodTrail_proof {L : TmHashLaws TH} t i tr : goodTrail t i tr -> (msize t <= 2 ^ 100)%nat ->
  exists item, leaves t !! i = Some item
    /\ Proof_Verify (proofOf (Z.of_nat (msize t)) i tr) (mhash t) item = Done None
    /\ Proof_ValidateBasic (proofOf (Z.of_nat (msize t)) i tr) = None.
Proof.
  intros (below & h & E & Hlk & Hhd & Hall & Hc & Hlen) Hsize.
  exists h. split; [done|].
  assert (Hlf : match tr with n :: _ => pnHash n | [] => [] end = leafHash h)
    by (destruct tr; [done|by injection Hhd]).
  unfold Proof_Verify, Proof_ValidateBasic, proofOf, ComputeRootHash, computeHashFromAunts. simpl.
  rewrite Hlf. destruct (Z.ltb_spec (Z.of_nat (msize t)) 0), (Z.ltb_spec (Z.of_nat i) 0); [lia..|].
  rewrite bool_decide_true by done. rewrite Hc, bind_Done. simpl. rewrite bool_decide_true by done.
  split; [done|]. unfold leafHash at 1. rewrite Sum_size, Z.eqb_refl. simpl.
  specialize (Hlen 100%nat Hsize). unfold MaxAunts.
  destruct (Z.ltb_spec 100 (Z.of_nat (length (FlattenAunts tr)))); [lia|].
  assert (Hf : forallb (fun a => Z.of_nat (length a) =? tmhashSize) (FlattenAunts tr) = true); [|by rewrite Hf].
  apply forallb_forall. intros a Ha%list_elem_of_In. rewrite Forall_forall in Hall.
  destruct (Hall a Ha) as (u & ->). rewrite mhash_size. apply Z.eqb_refl.
Qed.

Lemma ProofsFromByteSlices_shaped {L : TmHashLaws TH} t : shaped t -> (msize t <= 2 ^ 100)%nat ->
  exists proofs, ProofsFromByteSlices (leaves t) = Done (mhash t, proofs)
    /\ length proofs = msize t
    /\ forall i sp, proofs !! i = Some sp ->
         prTotal sp = Z.of_nat (msize t) /\ prIndex sp = Z.of_nat i
         /\ Proof_ValidateBasic sp = None
         /\ exists item, leaves t !! i = Some item /\ Proof_Verify sp (mhash t) item = Done None.
Proof.
  intros Hs Hsize. unfold ProofsFromByteSlices, trailsFromByteSlices.
  destruct (trailsLoop_shaped t (S (length (leaves t))) Hs) as (trails & -> & Hlen & Hg);
    [unfold msize; lia|].
  rewrite bind_Done. cbv beta iota. eexists; split; [reflexivity|].
  split; [by rewrite length_imap|]. intros i sp Hi.
  rewrite list_lookup_imap in Hi. apply fmap_Some in Hi as (tr & Htr & ->).
  destruct (goodTrail_proof t i tr (Hg i tr Htr) Hsize) as (item & H1 & H2 & H3). eauto 6.
Qed.

(** ** Soundness of verification *)

(** No two different strings of the list have the same hash. *)
Definition collision_free (l : list bytes) : Prop :=
  forall x y, x ∈ l -> y ∈ l -> Sum x = Sum y -> x = y.

(** The strings that are hashed when the root of a tree is computed, ... *)
Fixpoint treeInputs (t : mtree) : list bytes :=
  match t with
  | MLeaf b => [Byte.x00 :: b]
  | MNode l r => (Byte.x01 :: mhash l ++ mhash r) :: treeInputs l ++ treeInputs r
  end.

(** ... and those that are hashed when a proof is verified. *)
Fixpoint auntInputs (rev_aunts : list bytes) (index total : Z) (leafHash : bytes) : list bytes :=
  match rev_aunts with
  | [] => []
  | last :: rest =>
    match getSplitPoint total with
    | Done numLeft =>
      if index <? numLeft then
        match computeFrom rest index numLeft leafHash with
        | Done (Some l) => (Byte.x01 :: l ++ last) :: auntInputs rest index numLeft leafHash
        | _ => auntInputs rest index numLeft leafHash
        end
      else
        match computeFrom rest (index - numLeft) (total - numLeft) leafHash with
        | Done (Some r) =>
          (Byte.x01 :: last ++ r) :: auntInputs rest (index - numLeft) (total - numLeft) leafHash
        | _ => auntInputs rest (index - numLeft) (total - numLeft) leafHash
        end
    | Panic _ => []
    end
  end.

Definition verifyInputs (sp : Proof_) (leaf : bytes) : list bytes :=
  (Byte.x00 :: leaf) :: auntInputs (reverse (prAunts sp)) (prIndex sp) (prTotal sp) (prLeafHash sp).

(** [u] is a subtree of [t], [j] leaves from the left. *)
Inductive subtree : mtree -> nat -> mtree -> Prop :=
  | subtree_here t : subtree t 0 t
  | subtree_left l r j u : subtree l j u -> subtree (MNode l r) j u
  | subtree_right l r j u : subtree r j u -> subtree (MNode l r) (msize l + j) u.

Lemma subtree_leaf t j b : subtree t j (MLeaf b) -> leaves t !! j = Some b.
Proof.
  intros H. remember (MLeaf b) as u eqn:E. induction H as [t|l r j u _ IH|l r j u _ IH]; subst.
  - done.
  - simpl. by apply lookup_app_l_Some, IH.
  - simpl. unfold msize. rewrite lookup_app_r by lia. rewrite <- IH by done. f_equal. lia.
Qed.

Lemma subtree_inputs t j u : subtree t j u -> treeInputs u ⊆ treeInputs t.
Proof. induction 1; simpl; set_solver. Qed.

Lemma collision_free_sub l1 l2 : l1 ⊆ l2 -> collision_free l2 -> collision_free l1.
Proof. intros H Hc x y Hx Hy. apply Hc; auto. Qed.

Lemma computeFrom_cases ra index total h v : computeFrom ra index total h = Done (Some v) ->
  0 <= index < total /\
  ((ra = [] /\ total = 1 /\ v = h)
   \/ exists last rest k, ra = last :: rest /\ getSplitPoint total = Done k /\ 2 <= total
      /\ ((index < k /\ exists l, computeFrom rest index k h = Done (Some l) /\ v = innerHash l last)
          \/ (k <= index /\ exists r, computeFrom rest (index - k) (total - k) h = Done (Some r)
              /\ v = innerHash last r))).
Proof.
  destruct ra as [|last rest]; cbn [computeFrom];
    destruct (Z.leb_spec total index), (Z.ltb_spec index 0), (Z.leb_spec total 0); try done; simpl;
    destruct (Z.eqb_spec total 1); try done; intros H'.
  - split; [lia|]. left. by injection H'.
  - split; [lia|]. right.
    destruct (getSplitPoint_spec total ltac:(lia)) as (j & Hk & Hj).
    rewrite Hk, bind_Done in H'. exists last, rest, (2 ^ Z.of_nat j).
    do 3 (split; [done || lia|]). destruct (Z.ltb_spec index (2 ^ Z.of_nat j)).
    + left. split; [done|]. destruct (computeFrom rest _ _ h) as [[l|]|]; simpl in H'; try done.
      exists l. by injection H'.
    + right. split; [done|]. destruct (computeFrom rest _ _ h) as [[l|]|]; simpl in H'; try done.
      exists l. by injection H'.
Qed.

Lemma computeFrom_size {L : TmHashLaws TH} ra index total h v :
  Z.of_nat (length h) = tmhashSize -> computeFrom ra index total h = Done (Some v) ->
  Z.of_nat (length v) = tmhashSize.
Proof.
  intros Hh Hc. apply computeFrom_cases in Hc as (_ & [(_ & _ & ->)|(last & rest & k & _ & _ & _ & H)]);
    [done|]. destruct H as [(_ & l & _ & ->)|(_ & l & _ & ->)]; apply Sum_size.
Qed.

(** Equal inner hashes have equal children, one of which has its full size. *)
Lemma inner_inj_left {L : TmHashLaws TH} l last t1 t2 : Z.of_nat (length l) = tmhashSize ->
  Byte.x01 :: l ++ last = Byte.x01 :: mhash t1 ++ mhash t2 -> l = mhash t1.
Proof.
  intros Hl E. injection E as E. apply app_inj_1 in E; [tauto|].
  pose proof (mhash_size t1). lia.
Qed.

Lemma inner_inj_right {L : TmHashLaws TH} r last t1 t2 : Z.of_nat (length r) = tmhashSize ->
  Byte.x01 :: last ++ r = Byte.x01 :: mhash t1 ++ mhash t2 -> r = mhash t2.
Proof.
  intros Hl E. injection E as E. apply app_inj_2 in E; [tauto|].
  pose proof (mhash_size t2). lia.
Qed.

(** A proof that computes the hash of a tree starts from the hash of one of its
    subtrees, and for a proof of the tree's own size that subtree is the leaf
    the proof's index names. *)
Lemma computeFrom_sound {L : TmHashLaws TH} ra index total h t :
  Z.of_nat (length h) = tmhashSize ->
  collision_free (treeInputs t ++ auntInputs ra index total h) ->
  computeFrom ra index total h = Done (Some (mhash t)) ->
  exists u j, subtree t j u /\ h = mhash u
    /\ (shaped t -> total = Z.of_nat (msize t) -> index = Z.of_nat j /\ msize u = 1%nat).
Proof.
  intros Hh. revert index total t.
  induction ra as [|last rest IH]; intros index total t Hcf Hc;
    pose proof Hc as Hc'; apply computeFrom_cases in Hc as (Hi & [(E & -> & Hv)|(last' & rest' & k & E & Hk & Ht & H)]);
    try done.
  { exists t, 0%nat. split; [constructor|]. split; [done|]. intros _ Hm. lia. }
  injection E as <- <-. cbn [auntInputs] in Hcf. rewrite Hk in Hcf.
  destruct H as [(Hlt & l & Hcl & Hv)|(Hge & r & Hcr & Hv)].
  - destruct (Z.ltb_spec index k) in Hcf; [|lia]. rewrite Hcl in Hcf.
    pose proof (computeFrom_size _ _ _ _ _ Hh Hcl) as Hsz.
    destruct t as [b|t1 t2]; symmetry in Hv; apply Hcf in Hv; try (simpl; set_solver); [].
    apply (inner_inj_left l last t1 t2 Hsz) in Hv. subst l.
    destruct (IH index k t1) as (u & j & Hsub & Hu & Hx); [|done|].
    { eapply collision_free_sub; [|exact Hcf]. simpl. set_solver. }
    exists u, j. split; [by constructor|]. split; [done|]. intros Hs ->.
    unfold msize in Hk at 1. rewrite length_leaves_node, (getSplitPoint_node t1 t2 Hs) in Hk.
    injection Hk as <-. apply Hx; [apply Hs|done].
  - destruct (Z.ltb_spec index k) in Hcf; [lia|]. rewrite Hcr in Hcf.
    pose proof (computeFrom_size _ _ _ _ _ Hh Hcr) as Hsz.
    destruct t as [b|t1 t2]; symmetry in Hv; apply Hcf in Hv; try (simpl; set_solver); [].
    apply (inner_inj_right r last t1 t2 Hsz) in Hv. subst r.
    destruct (IH (index - k) (total - k) t2) as (u & j & Hsub & Hu & Hx); [|done|].
    { eapply collision_free_sub; [|exact Hcf]. simpl. set_solver. }
    exists u, (msize t1 + j)%nat. split; [by constructor|]. split; [done|]. intros Hs ->.
    unfold msize in Hk, Hx at 1. rewrite length_leaves_node in Hk, Hx.
    rewrite (getSplitPoint_node t1 t2 Hs) in Hk. injection Hk as <-.
    destruct Hx; [apply Hs|lia|lia].
Qed.

Lemma computeFrom_total ra index total h : exists r, computeFrom ra index total h = Done r.
Proof.
  revert index total. induction ra as [|last rest IH]; intros index total; cbn [computeFrom];
    destruct (_ || _) eqn:E; eauto; destruct (Z.eqb_spec total 1); eauto.
  apply orb_false_iff in E as [_ E]. apply Z.leb_gt in E.
  destruct (getSplitPoint_spec total ltac:(lia)) as (j & -> & _). rewrite bind_Done.
  destruct (_ <? _); match goal with |- context [computeFrom rest ?i ?n h] =>
    destruct (IH i n) as [x ->] end; simpl; eauto.
Qed.

Lemma Proof_Verify_total sp root leaf : exists r, Proof_Verify sp root leaf = Done r.
Proof.
  unfold Proof_Verify, ComputeRootHash, computeHashFromAunts.
  repeat (case_match; eauto).
  match goal with |- context [computeFrom ?a ?i ?n ?h] => destruct (computeFrom_total a i n h) as [x ->] end.
  rewrite bind_Done. case_match; eauto.
Qed.

Lemma Proof_Verify_inv sp root leaf : root <> [] -> Proof_Verify sp root leaf = Done None ->
  prLeafHash sp = leafHash leaf
  /\ computeFrom (reverse (prAunts sp)) (prIndex sp) (prTotal sp) (prLeafHash sp) = Done (Some root).
Proof.
  intros Hne. unfold Proof_Verify. do 2 (case_match; [done|]).
  case_bool_decide as Hl; [|done]. simpl.
  unfold ComputeRootHash, computeHashFromAunts.
  destruct (computeFrom _ _ _ _) as [[v|]|]; simpl; try done; case_bool_decide as Hv; try done.
  intros _. by subst.
Qed.

(** Trees with the same hash are the same. *)
Lemma mhash_inj {L : TmHashLaws TH} t1 t2 :
  collision_free (treeInputs t1 ++ treeInputs t2) -> mhash t1 = mhash t2 -> t1 = t2.
Proof.
  revert t2. induction t1 as [a|l1 IHl r1 IHr]; intros [b|l2 r2] Hcf E;
    apply Hcf in E; try (simpl; set_solver).
  pose proof (inner_inj_left (mhash l1) (mhash r1) l2 r2 (mhash_size l1) E).
  pose proof (inner_inj_right (mhash r1) (mhash l1) l2 r2 (mhash_size r1) E).
  f_equal; [apply IHl|apply IHr]; try done;
    (eapply collision_free_sub; [|exact Hcf]); simpl; set_solver.
Qed.

Lemma Proof_Verify_sound {L : TmHashLaws TH} t sp leaf :
  collision_free (treeInputs t ++ verifyInputs sp leaf) ->
  Proof_Verify sp (mhash t) leaf = Done None ->
  exists j, leaves t !! j = Some leaf
    /\ (shaped t -> prTotal sp = Z.of_nat (msize t) -> prIndex sp = Z.of_nat j).
Proof.
  intros Hcf Hv. apply Proof_Verify_inv in Hv as [Hl Hc];
    [|intros E; pose proof (mhash_size t) as Hm; rewrite E in Hm; done].
  assert (Hcf' : collision_free (treeInputs t
    ++ auntInputs (reverse (prAunts sp)) (prIndex sp) (prTotal sp) (prLeafHash sp))).
  { eapply collision_free_sub; [|exact Hcf]. unfold verifyInputs. set_solver. }
  apply computeFrom_sound in Hc as (u & j & Hsub & Hu & Hx); [|rewrite Hl; apply Sum_size|done].
  pose proof (subtree_inputs _ _ _ Hsub) as Hin. rewrite Hl in Hu.
  exists j. destruct u as [b|u1 u2]; apply Hcf in Hu;
    try (apply elem_of_app; left; apply Hin; simpl; set_solver);
    try (unfold verifyInputs; set_solver); [].
  injection Hu as ->. split; [by apply subtree_leaf|]. intros Hs Ht. by apply Hx.
Qed.

End merkle.

Lemma slices_bound (items : list bytes) : Z.of_nat (length items) < 2 ^ 63 ->
  (length items <= 2 ^ 100)%nat.
Proof.
  intros H. apply Nat2Z.inj_le. rewrite Nat2Z.inj_pow. change (Z.of_nat 2) with 2.
  replace (Z.of_nat 100) with 100 by reflexivity.
  assert (2 ^ 63 <= 2 ^ 100) by (apply Z.pow_le_mono_r; lia). lia.
Qed.

(** A stand-in for the hash function: 32 bytes of a polynomial hash. *)
Definition exampleDigest (bz : bytes) : Z :=
  foldl (fun acc b => acc * 257 + byte_to_Z b + 1) 7 bz mod (2 ^ 256 - 189).

Definition exampleTmHash : TmHash := {|
  Sum bz := let z := exampleDigest bz in (fun i => byte_of_Z (Z.shiftr z (8 * Z.of_nat i))) <$> seq 0 32
|}.

Lemma exampleTmHash_laws : TmHashLaws exampleTmHash.
Proof. constructor. intros bz. unfold Sum, exampleTmHash. by rewrite length_fmap, length_seq. Qed.

Definition exampleItems : list bytes := [[Byte.x01]; [Byte.x02]; [Byte.x03]].
Definition exampleTree : mtree :=
  MNode (MNode (MLeaf [Byte.x01]) (MLeaf [Byte.x02])) (MLeaf [Byte.x03]).

Lemma exampleTree_shaped : shaped exampleTree.
Proof. simpl. repeat split; [exists 1%nat|exists 0%nat]; unfold msize; simpl; lia. Qed.

(** [C34] The iterative and the recursive Merkle algorithms return
    the same root for every list of items: that of the tree over the items in
    which every left subtree is the largest complete one. *)
Theorem HashFromByteSlices_equiv (TH : TmHash) (items : list bytes) :
  exists root, HashFromByteSlices items = Done root
    /\ HashFromByteSlicesIterative items = Done root
    /\ (items = [] -> root = [])
    /\ (items <> [] -> exists t, shaped t /\ leaves t = items /\ root = mhash t).
Proof.
  destruct items as [|a items]; [by exists []|].
  destruct (shaped_exists (a :: items)) as (t & Hs & <-); [done|].
  exists (mhash t). rewrite HashFromByteSlices_shaped, HashFromByteSlicesIterative_shaped by done.
  split; [done|]. split; [done|]. split; [|eauto].
  intros E. pose proof (msize_pos t) as Hp. unfold msize in Hp. rewrite E in Hp. simpl in Hp. lia.
Qed.

(** For a non-empty list of items [ProofsFromByteSlices]
    returns the root [HashFromByteSlices] computes and one proof per item: the
    proof of item [i] carries the index [i] and the number of items, passes
    [ValidateBasic] (it has at most [MaxAunts] aunts, all of a hash's size) and
    verifies against the root for that item.  For no items it panics. *)
Theorem ProofsFromByteSlices_correct (TH : TmHash) (L : TmHashLaws TH) (items : list bytes) :
  Z.of_nat (length items) < 2 ^ 63 ->
  match items with
  | [] => exists why, ProofsFromByteSlices items = Panic why
  | _ =>
    exists root proofs, ProofsFromByteSlices items = Done (root, proofs)
      /\ HashFromByteSlices items = Done root
      /\ length proofs = length items
      /\ forall i sp, proofs !! i = Some sp ->
           prTotal sp = Z.of_nat (length items) /\ prIndex sp = Z.of_nat i
           /\ Proof_ValidateBasic sp = None
           /\ exists item, items !! i = Some item /\ Proof_Verify sp root item = Done None
  end.
Proof.
  intros Hlen. destruct items as [|a items]; [by eexists|].
  destruct (shaped_exists (a :: items)) as (t & Hs & E); [done|]. rewrite <- E in *.
  destruct (ProofsFromByteSlices_shaped t Hs (slices_bound _ Hlen)) as (proofs & H1 & H2 & H3).
  exists (mhash t), proofs. rewrite HashFromByteSlices_shaped by done. done.
Qed.

Lemma ProofsFromByteSlices_correct_witness :
  exists root proofs, @ProofsFromByteSlices exampleTmHash exampleItems = Done (root, proofs)
    /\ length proofs = 3%nat.
Proof.
  destruct (ProofsFromByteSlices_correct exampleTmHash exampleTmHash_laws exampleItems ltac:(simpl; lia))
    as (root & proofs & H1 & _ & H2 & _).
  exists root, proofs. split; [exact H1|exact H2].
Defined.

(** [C33] Verification always returns, and a proof that verifies
    against the root of a tree proves one of the tree's items: unless two
    different strings among those hashed have the same hash, the leaf is an
    item of the tree, and it is the item at the proof's index when the proof's
    total is the number of items. *)
Theorem Proof_Verify_correct (TH : TmHash) (L : TmHashLaws TH) (t : mtree) (sp : Proof_) (leaf : bytes) :
  shaped t ->
  collision_free (treeInputs t ++ verifyInputs sp leaf) ->
  HashFromByteSlices (leaves t) = Done (mhash t)
  /\ (exists r, Proof_Verify sp (mhash t) leaf = Done r)
  /\ (Proof_Verify sp (mhash t) leaf = Done None ->
      leaf ∈ leaves t
      /\ (prTotal sp = Z.of_nat (length (leaves t)) -> leaves t !! Z.to_nat (prIndex sp) = Some leaf)).
Proof.
  intros Hs Hcf. split; [by apply HashFromByteSlices_shaped|]. split; [apply Proof_Verify_total|].
  intros Hv. destruct (Proof_Verify_sound t sp leaf Hcf Hv) as (j & Hj & Hx).
  split; [by eapply list_elem_of_lookup_2|]. intros Ht. by rewrite (Hx Hs Ht), Nat2Z.id.
Qed.

Definition exampleProof : Proof_ :=
  match @ProofsFromByteSlices exampleTmHash exampleItems with
  | Done (_, [_; sp; _]) => sp
  | _ => mkProof 0 0 [] []
  end.

(** A boolean test for [collision_free]. *)
Definition collision_freeb (TH : TmHash) (l : list bytes) : bool :=
  let hs := (fun x => (x, Sum x)) <$> l in
  forallb (fun p => forallb (fun q =>
    implb (bool_decide (snd p = snd q)) (bool_decide (fst p = fst q))) hs) hs.

Lemma collision_freeb_spec (TH : TmHash) l : collision_freeb TH l = true -> collision_free l.
Proof.
  unfold collision_freeb. rewrite forallb_forall. intros H x y Hx Hy E.
  assert (Hin : forall z, z ∈ l -> In (z, Sum z) ((fun x => (x, Sum x)) <$> l)).
  { intros z Hz. by apply list_elem_of_In, (list_elem_of_fmap_2 (fun x => (x, Sum x))). }
  specialize (H _ (Hin x Hx)). rewrite forallb_forall in H. specialize (H _ (Hin y Hy)). simpl in H.
  rewrite (bool_decide_true (Sum x = Sum y)) in H by done. simpl in H. by apply bool_decide_eq_true in H.
Qed.

Lemma Proof_Verify_correct_witness :
  leaves exampleTree !! Z.to_nat (prIndex exampleProof) = Some [Byte.x02].
Proof.
  apply (Proof_Verify_correct exampleTmHash exampleTmHash_laws exampleTree exampleProof [Byte.x02]).
  - exact exampleTree_shaped.
  - apply collision_freeb_spec. vm_compute. reflexivity.
  - vm_compute. reflexivity.
  - vm_compute. reflexivity.
Defined.
