(* ===== verification/PartSet.v ===== *)
(** * Block parts and transaction proofs

    types/part_set.go (parts, part sets and their reader) and types/tx.go.
    The mutex of a part set is held for the whole of every operation. *)

From Stdlib Require Import ZArith Lia.
From S2P Require Import Prelude BitArray BlockTypes Merkle.
From stdpp Require Import base gmap list option strings numbers sorting.

Local Open Scope Z_scope.

Definition BlockPartSizeBytes : Z := 65536.

(** [data[lo:hi]] for [hi <= len(data)] *)
Definition slice (data : bytes) (lo hi : Z) : outcome bytes :=
  if (0 <=? lo) && (lo <=? hi) && (hi <=? Z.of_nat (length data))
  then Done (take (Z.to_nat (hi - lo)) (drop (Z.to_nat lo) data))
  else Panic "slice bounds out of range".

Record Part := mkPart { partIndex : Z; partBytes : bytes; partProof : Proof_ }.

Definition Part_ValidateBasic (part : Part) : option error :=
  if BlockPartSizeBytes <? Z.of_nat (length (partBytes part)) then Some "too big"
  else match Proof_ValidateBasic (partProof part) with
       | Some _ => Some "wrong Proof"
       | None => None
       end.

(** [tmproto.Part] has the same fields. *)
Definition Part_ToProto (part : option Part) : result Part :=
  match part with None => inl "nil part" | Some p => inr p end.

Definition PartFromProto (pb : option Part) : result Part :=
  match pb with
  | None => inl "nil part"
  | Some pb =>
    match ProofFromProto (Some (partProof pb)) with
    | (_, Some err) => inl err
    | (proof, None) =>
      let part := mkPart (partIndex pb) (partBytes pb) proof in
      match Part_ValidateBasic part with Some err => inl err | None => inr part end
    end
  end.

Record PartSet := mkPartSet {
  psTotal : Z;
  psHash : bytes;
  psParts : list (option Part);
  psPartsBitArray : option BitArray;
  psCount : Z
}.

Inductive PartSetError := ErrPartSetUnexpectedIndex | ErrPartSetInvalidProof.

#[global] Instance PartSetError_eq_dec : EqDecision PartSetError.
Proof. solve_decision. Defined.

Section partset.
Context {TH : TmHash}.

(** The body of the first loop of [NewPartSetFromData]: part [i] of the data,
    in 32-bit arithmetic. *)
Definition cutPart (data : bytes) (partSize : Z) (st : list bytes * option BitArray) (i : nat)
    : outcome (list bytes * option BitArray) :=
  let '(partsBytes, partsBitArray) := st in
  let i := Z.of_nat i in
  let! bz := slice data (wrapu32 (i * partSize))
               (Z.min (Z.of_nat (length data)) (wrapu32 (wrapu32 (i + 1) * partSize))) in
  let! (_, partsBitArray) := BitArray_SetIndex partsBitArray i true in
  Done (partsBytes ++ [bz], partsBitArray).

(** The body of the second loop. *)
Definition addProof (partsBytes : list bytes) (proofs : list Proof_) (parts : list (option Part))
    (i : nat) : outcome (list (option Part)) :=
  let! bz := index partsBytes (Z.of_nat i) in
  let! proof := index proofs (Z.of_nat i) in
  Done (parts ++ [Some (mkPart (Z.of_nat i) bz proof)]).

Definition NewPartSetFromData (data : bytes) (partSize : Z) : outcome PartSet :=
  if partSize =? 0 then Panic "integer divide by zero"
  else
    let total := wrapu32 (wrapu32 (Z.of_nat (length data)) + partSize - 1) / partSize in
    let! (partsBytes, partsBitArray) :=
      foldM (cutPart data partSize) ([], NewBitArray total) (seq 0 (Z.to_nat total)) in
    let! (root, proofs) := ProofsFromByteSlices partsBytes in
    let! parts := foldM (addProof partsBytes proofs) [] (seq 0 (Z.to_nat total)) in
    Done (mkPartSet total root parts partsBitArray total).

Definition NewPartSetFromHeader (header : PartSetHeader) : PartSet :=
  mkPartSet (pshTotal header) (pshHash header) (replicate (Z.to_nat (pshTotal header)) None)
    (NewBitArray (pshTotal header)) 0.

Definition PartSet_Header (ps : option PartSet) : PartSetHeader :=
  match ps with
  | None => zeroPartSetHeader
  | Some ps => mkPartSetHeader (psTotal ps) (psHash ps)
  end.

Definition PartSet_HasHeader (ps : option PartSet) (header : PartSetHeader) : bool :=
  match ps with
  | None => false
  | Some _ => PartSetHeader_Equals (PartSet_Header ps) header
  end.

Definition PartSet_BitArray (ps : PartSet) : option BitArray := BitArray_Copy (psPartsBitArray ps).
Definition PartSet_Hash (ps : option PartSet) : bytes :=
  match ps with None => [] | Some ps => psHash ps end.
Definition PartSet_HashesTo (ps : option PartSet) (hash : bytes) : bool :=
  match ps with None => false | Some ps => bool_decide (psHash ps = hash) end.
Definition PartSet_Count (ps : option PartSet) : Z :=
  match ps with None => 0 | Some ps => psCount ps end.
Definition PartSet_Total (ps : option PartSet) : Z :=
  match ps with None => 0 | Some ps => psTotal ps end.

Definition addPart (ps : PartSet) (part : Part) : outcome (PartSet * bool * option PartSetError) :=
  if psTotal ps <=? partIndex part then Done (ps, false, Some ErrPartSetUnexpectedIndex)
  else
    let! old := index (psParts ps) (partIndex part) in
    match old with
    | Some _ => Done (ps, false, None)
    | None =>
      let! err := Proof_Verify (partProof part) (psHash ps) (partBytes part) in
      match err with
      | Some _ => Done (ps, false, Some ErrPartSetInvalidProof)
      | None =>
        let! parts := set_index (psParts ps) (partIndex part) (Some part) in
        let! (_, bA) := BitArray_SetIndex (psPartsBitArray ps) (partIndex part) true in
        Done (mkPartSet (psTotal ps) (psHash ps) parts bA (wrapu32 (psCount ps + 1)), true, None)
      end
    end.

Definition PartSet_AddPart (ps : option PartSet) (part : Part)
    : outcome (option PartSet * bool * option PartSetError) :=
  match ps with
  | None => Done (None, false, None)
  | Some ps => let! (ps', added, err) := addPart ps part in Done (Some ps', added, err)
  end.

Definition PartSet_GetPart (ps : PartSet) (i : Z) : outcome (option Part) := index (psParts ps) i.

Definition PartSet_IsComplete (ps : PartSet) : bool := psCount ps =? psTotal ps.

(** ** The reader: the part it is in and what is left of it *)

Record PartSetReader := mkPartSetReader {
  psrI : Z;
  psrParts : list (option Part);
  psrReader : bytes
}.

Definition partData (parts : list (option Part)) (i : Z) : outcome bytes :=
  let! part := index parts i in
  match part with
  | None => Panic "invalid memory address or nil pointer dereference"
  | Some p => Done (partBytes p)
  end.

Definition NewPartSetReader (parts : list (option Part)) : outcome PartSetReader :=
  let! bz := partData parts 0 in Done (mkPartSetReader 0 parts bz).

Definition PartSet_GetReader (ps : PartSet) : outcome PartSetReader :=
  if negb (PartSet_IsComplete ps) then Panic "Cannot GetReader() on incomplete PartSet"
  else NewPartSetReader (psParts ps).

(** [bytes.Reader.Read] into a slice of [n] bytes: the bytes read, what is left
    and whether the error is [io.EOF]. *)
Definition bytesRead (reader : bytes) (n : nat) : bytes * bytes * bool :=
  match reader with
  | [] => ([], [], true)
  | _ => (take n reader, drop n reader, false)
  end.

(** [Read(p)] for a slice of [n] bytes; [fuel] bounds the recursion. *)
Fixpoint readLoop (fuel : nat) (psr : PartSetReader) (n : nat) : outcome (PartSetReader * bytes * bool) :=
  match fuel with
  | O => Panic "out of fuel"
  | S fuel' =>
    let readerLen := length (psrReader psr) in
    if (n <=? readerLen)%nat then
      let '(bz, rest, eof) := bytesRead (psrReader psr) n in
      Done (mkPartSetReader (psrI psr) (psrParts psr) rest, bz, eof)
    else if (0 <? readerLen)%nat then
      let! (psr, bz1, eof) := readLoop fuel' psr readerLen in
      if (eof : bool) then Done (psr, bz1, eof)
      else
        let! (psr, bz2, eof) := readLoop fuel' psr (n - readerLen) in
        Done (psr, bz1 ++ bz2, eof)
    else
      let i := psrI psr + 1 in
      let psr := mkPartSetReader i (psrParts psr) (psrReader psr) in
      if Z.of_nat (length (psrParts psr)) <=? i then Done (psr, [], true)
      else
        let! bz := partData (psrParts psr) i in
        readLoop fuel' (mkPartSetReader i (psrParts psr) bz) n
  end.

(** Two calls per part are enough. *)
Definition PartSetReader_Read (psr : PartSetReader) (n : nat) : outcome (PartSetReader * bytes * bool) :=
  readLoop (3 + 2 * (length (psrParts psr) - Z.to_nat (psrI psr))) psr n.

(** [ioutil.ReadAll]: reads into buffers, whose sizes are the buffer's own
    business, until [io.EOF]. *)
Fixpoint ReadAll (sizes : nat -> nat) (fuel : nat) (psr : PartSetReader) (acc : bytes) : outcome bytes :=
  match fuel with
  | O => Panic "out of fuel"
  | S fuel' =>
    let! (psr, bz, eof) := PartSetReader_Read psr (sizes (length acc)) in
    if (eof : bool) then Done (acc ++ bz) else ReadAll sizes fuel' psr (acc ++ bz)
  end.

(** ** Transactions *)

Definition Tx_Hash (tx : bytes) : bytes := Sum tx.

Definition Txs_Hash (txs : list bytes) : outcome bytes := HashFromByteSlices (Tx_Hash <$> txs).

Fixpoint indexFrom (test : bytes -> bool) (txs : list bytes) (i : Z) : Z :=
  match txs with
  | [] => -1
  | tx :: rest => if test tx then i else indexFrom test rest (i + 1)
  end.

Definition Txs_Index (txs : list bytes) (tx : bytes) : Z :=
  indexFrom (fun t => bool_decide (t = tx)) txs 0.
Definition Txs_IndexByHash (txs : list bytes) (hash : bytes) : Z :=
  indexFrom (fun t => bool_decide (Tx_Hash t = hash)) txs 0.

Record TxProof := mkTxProof { tpRootHash : bytes; tpData : bytes; tpProof : Proof_ }.

Definition Txs_Proof (txs : list bytes) (i : Z) : outcome TxProof :=
  let! (root, proofs) := ProofsFromByteSlices (Tx_Hash <$> txs) in
  let! data := index txs i in
  let! proof := index proofs i in
  Done (mkTxProof root data proof).

Definition TxProof_Leaf (tp : TxProof) : bytes := Tx_Hash (tpData tp).

Definition TxProof_Validate (tp : TxProof) (dataHash : bytes) : outcome (option error) :=
  if negb (bool_decide (dataHash = tpRootHash tp)) then Done (Some "proof matches different data hash")
  else if prIndex (tpProof tp) <? 0 then Done (Some "proof index cannot be negative")
  else if prTotal (tpProof tp) <=? 0 then Done (Some "proof total must be positive")
  else
    let! valid := Proof_Verify (tpProof tp) (tpRootHash tp) (TxProof_Leaf tp) in
    match valid with
    | Some _ => Done (Some "proof is not internally consistent")
    | None => Done None
    end.

(** [tmproto.TxProof], whose proof is a pointer *)
Record protoTxProof := mkProtoTxProof { ptpRootHash : bytes; ptpData : bytes; ptpProof : option Proof_ }.

Definition TxProof_ToProto (tp : TxProof) : protoTxProof :=
  mkProtoTxProof (tpRootHash tp) (tpData tp) (Proof_ToProto (Some (tpProof tp))).

Definition TxProofFromProto (pb : protoTxProof) : result TxProof :=
  match ProofFromProto (ptpProof pb) with
  | (_, Some err) => inl err
  | (proof, None) => inr (mkTxProof (ptpRootHash pb) (ptpData pb) proof)
  end.

(** ** What a part set holds *)

Definition slotBytes (o : option Part) : bytes := match o with Some p => partBytes p | None => [] end.
Definition partsBytesOf (parts : list (option Part)) : list bytes := slotBytes <$> parts.

(** The number of filled slots *)
Fixpoint filled {A} (l : list (option A)) : nat :=
  match l with [] => 0 | Some _ :: l => S (filled l) | None :: l => filled l end.

(** The representation invariant of a part set: the bit array mirrors the
    slots, the count is the number of filled ones, and every stored part is in
    the slot of its index with a proof that verifies. *)
Record PSInv (ps : PartSet) : Prop := {
  inv_total : 0 <= psTotal ps < 2 ^ 32;
  inv_length : Z.of_nat (length (psParts ps)) = psTotal ps;
  inv_bits : bits_ok (psPartsBitArray ps) (psParts ps);
  inv_count : psCount ps = Z.of_nat (filled (psParts ps));
  inv_parts : forall i p, psParts ps !! i = Some (Some p) ->
    partIndex p = Z.of_nat i /\ Proof_Verify (partProof p) (psHash ps) (partBytes p) = Done None
}.

Lemma filled_length {A} (l : list (option A)) : (filled l <= length l)%nat.
Proof. induction l as [|[x|] l IH]; simpl; lia. Qed.

Lemma filled_full {A} (l : list (option A)) :
  filled l = length l <-> forall i, (i < length l)%nat -> exists x, l !! i = Some (Some x).
Proof.
  induction l as [|[x|] l IH]; simpl.
  - split; [intros _ i Hi; lia|done].
  - rewrite Nat.succ_inj_wd, IH. split.
    + intros H [|i] Hi; [eauto|]. apply H. lia.
    + intros H i Hi. apply (H (S i)). lia.
  - pose proof (filled_length l). split; [lia|]. intros H'. destruct (H' 0%nat) as [x Hx]; [lia|done].
Qed.

Lemma filled_insert {A} (l : list (option A)) i x : l !! i = Some None ->
  filled (<[i := Some x]> l) = S (filled l).
Proof.
  revert i. induction l as [|o l IH]; intros [|i] Hi; simplify_eq/=; [done|].
  destruct o; simpl; by rewrite IH.
Qed.

Lemma IsComplete_iff ps : PSInv ps ->
  PartSet_IsComplete ps = true <->
  forall i, (i < length (psParts ps))%nat -> exists p, psParts ps !! i = Some (Some p).
Proof.
  intros [H1 H2 H3 H4 H5]. unfold PartSet_IsComplete. rewrite Z.eqb_eq, <- filled_full. lia.
Qed.

Lemma NewPartSetFromHeader_inv header : 0 <= pshTotal header < 2 ^ 32 -> PSInv (NewPartSetFromHeader header).
Proof.
  intros Ht. unfold NewPartSetFromHeader. split; simpl; [done|rewrite length_replicate; lia| | |].
  - rewrite <- (Z2Nat.id (pshTotal header)) at 1 by lia. apply bits_ok_new.
  - induction (Z.to_nat (pshTotal header)); done.
  - intros i p Hi. apply lookup_replicate in Hi as [Hi _]. done.
Qed.

(** Every branch of [AddPart]. *)
Lemma addPart_spec ps part : PSInv ps -> 0 <= partIndex part ->
  let i := Z.to_nat (partIndex part) in
  (psTotal ps <= partIndex part /\ addPart ps part = Done (ps, false, Some ErrPartSetUnexpectedIndex))
  \/ (exists p, psParts ps !! i = Some (Some p) /\ addPart ps part = Done (ps, false, None))
  \/ (psParts ps !! i = Some None
      /\ Proof_Verify (partProof part) (psHash ps) (partBytes part) <> Done None
      /\ addPart ps part = Done (ps, false, Some ErrPartSetInvalidProof))
  \/ (psParts ps !! i = Some None
      /\ Proof_Verify (partProof part) (psHash ps) (partBytes part) = Done None
      /\ exists bA, let ps' := mkPartSet (psTotal ps) (psHash ps) (<[i := Some part]> (psParts ps)) bA (psCount ps + 1) in
         addPart ps part = Done (ps', true, None) /\ PSInv ps').
Proof.
  intros [H1 H2 H3 H4 H5] Hi i. unfold addPart.
  destruct (Z.leb_spec (psTotal ps) (partIndex part)); [by left|right].
  assert (Hlt : (i < length (psParts ps))%nat) by lia.
  destruct (lookup_lt_is_Some_2 (psParts ps) i Hlt) as [o Ho].
  assert (Ei : Z.of_nat i = partIndex part) by lia.
  rewrite (proj2 (index_Done (psParts ps) (partIndex part) o)), bind_Done by done.
  destruct o as [p|]; [left; eauto|right].
  destruct (Proof_Verify_total (partProof part) (psHash ps) (partBytes part)) as [r Hr].
  rewrite Hr, bind_Done. destruct r as [e|]; [left; done|right].
  split; [done|]. split; [done|].
  rewrite (proj2 (set_index_Done (psParts ps) (partIndex part) (Some part) _)) by (split; [lia|done]).
  destruct (bits_ok_set _ _ i part H3 Hlt) as (bA & Hset & Hok). rewrite Ei in Hset.
  rewrite Hset, !bind_Done. exists bA.
  pose proof (filled_insert (psParts ps) i part Ho) as Hc.
  pose proof (filled_length (<[i := Some part]> (psParts ps))) as Hle. rewrite length_insert in Hle.
  split.
  - unfold wrapu32. rewrite Z.mod_small by lia. done.
  - split; simpl; [done|by rewrite length_insert|done|fold i; lia|].
    intros j q Hj. apply list_lookup_insert_Some in Hj as [(-> & E & _)|(_ & Hj)]; [|by apply H5].
    injection E as <-. split; [lia|done].
Qed.

(** ** Reading *)

(** What is left to read. *)
Definition unread (psr : PartSetReader) : bytes :=
  psrReader psr ++ concat (partsBytesOf (drop (S (Z.to_nat (psrI psr))) (psrParts psr))).

Definition allFilled (parts : list (option Part)) : Prop :=
  forall i, (i < length parts)%nat -> exists p, parts !! i = Some (Some p).

Lemma partData_filled parts i : allFilled parts -> 0 <= i < Z.of_nat (length parts) ->
  exists p, parts !! Z.to_nat i = Some (Some p) /\ partData parts i = Done (partBytes p).
Proof.
  intros Hf Hi. destruct (Hf (Z.to_nat i)) as [p Hp]; [lia|]. exists p. split; [done|].
  unfold partData. rewrite (proj2 (index_Done parts i (Some p))); [done|]. split; [lia|done].
Qed.

(** Reading what the current part has left *)
Lemma readLoop_exact fuel i parts rd : rd <> [] ->
  readLoop (S fuel) (mkPartSetReader i parts rd) (length rd) = Done (mkPartSetReader i parts [], rd, false).
Proof.
  intros Hrd. cbn [readLoop psrReader psrI psrParts]. rewrite Nat.leb_refl. unfold bytesRead.
  destruct rd; [done|]. by rewrite firstn_all, skipn_all.
Qed.

Lemma readLoop_spec fuel psr n : allFilled (psrParts psr) -> 0 <= psrI psr -> (0 < n)%nat ->
  (2 * (length (psrParts psr) - S (Z.to_nat (psrI psr))) + (if psrReader psr then 1 else 2) <= fuel)%nat ->
  exists psr', readLoop fuel psr n = Done (psr', take n (unread psr), (length (unread psr) <? n)%nat)
    /\ psrParts psr' = psrParts psr /\ 0 <= psrI psr' /\ unread psr' = drop n (unread psr).
Proof.
  revert psr n. induction fuel as [|fuel IH]; intros psr n Hf Hi Hn Hm.
  { destruct (psrReader psr); lia. }
  destruct psr as [i parts rd]. simpl in *. unfold unread. simpl.
  destruct (Nat.leb_spec n (length rd)) as [Hle|Hgt].
  { destruct rd as [|b rd]; [simpl in Hle; lia|]. simpl bytesRead. cbv iota beta.
    exists (mkPartSetReader i parts (drop n (b :: rd))). split; [|split; [done|split; [done|]]].
    - rewrite take_app_le by done. do 2 f_equal. symmetry. apply Nat.ltb_ge. simpl in *. rewrite length_app. lia.
    - by rewrite drop_app_le. }
  destruct rd as [|b rd].
  - simpl. destruct (Z.leb_spec (Z.of_nat (length parts)) (i + 1)) as [Hend|Hmore].
    + rewrite drop_ge by lia. simpl. exists (mkPartSetReader (i + 1) parts []). split; [|split; [done|split; [simpl; lia|]]].
      * rewrite take_nil. destruct n; [lia|done].
      * simpl. rewrite drop_ge by lia. by rewrite drop_nil.
    + destruct (partData_filled parts (i + 1) Hf ltac:(lia)) as (p & Hp & ->). rewrite bind_Done.
      destruct (IH (mkPartSetReader (i + 1) parts (partBytes p)) n) as (psr' & -> & H1 & H2 & H3);
        simpl; [done|lia|done|destruct (partBytes p); lia|].
      assert (E : unread (mkPartSetReader (i + 1) parts (partBytes p))
                  = concat (partsBytesOf (drop (S (Z.to_nat i)) parts))).
      { unfold unread. simpl. replace (Z.to_nat (i + 1)) with (S (Z.to_nat i)) in * by lia.
        by rewrite (drop_S parts (Some p) (S (Z.to_nat i))). }
      rewrite E in *. eauto.
  - cbn [length] in *. destruct (Nat.ltb_spec 0 (S (length rd))); [|lia].
    destruct fuel as [|fuel]; [lia|]. pose proof (readLoop_exact fuel i parts (b :: rd) ltac:(done)) as Hx. cbn [length] in Hx.
    rewrite Hx, bind_Done. clear Hx. cbv iota.
    destruct (IH (mkPartSetReader i parts []) (n - S (length rd))%nat) as (psr' & -> & H1 & H2 & H3);
      simpl; [done|done|lia|lia|].
    unfold unread in *. simpl in *. exists psr'. split; [|split; [done|split; [done|]]].
    + do 2 f_equal; [f_equal|].
      * destruct n; [lia|]. simpl. f_equal. rewrite take_app_ge by lia. do 2 f_equal.
      * rewrite length_app. destruct n; [lia|]. apply Bool.eq_true_iff_eq. rewrite !Nat.ltb_lt. simpl. lia.
    + rewrite H3. destruct n; [lia|]. simpl. rewrite drop_app_ge by lia. done.
Qed.

Lemma Read_spec psr n : allFilled (psrParts psr) -> 0 <= psrI psr -> (0 < n)%nat ->
  exists psr', PartSetReader_Read psr n = Done (psr', take n (unread psr), (length (unread psr) <? n)%nat)
    /\ psrParts psr' = psrParts psr /\ 0 <= psrI psr' /\ unread psr' = drop n (unread psr).
Proof. intros. apply readLoop_spec; [done..|]. destruct (psrReader psr); lia. Qed.

Lemma ReadAll_spec sizes fuel psr acc : allFilled (psrParts psr) -> 0 <= psrI psr ->
  (forall k, 0 < sizes k)%nat -> (length (unread psr) < fuel)%nat ->
  ReadAll sizes fuel psr acc = Done (acc ++ unread psr).
Proof.
  revert psr acc. induction fuel as [|fuel IH]; intros psr acc Hf Hi Hs Hlen; [lia|]. cbn [ReadAll].
  pose proof (Hs (length acc)).
  destruct (Read_spec psr (sizes (length acc)) Hf Hi) as (psr' & -> & H1 & H2 & H3); [done|].
  rewrite bind_Done. destruct (Nat.ltb_spec (length (unread psr)) (sizes (length acc))).
  - by rewrite take_ge by lia.
  - rewrite IH; [|by rewrite H1|done|done|rewrite H3, length_drop; lia].
    by rewrite H3, <- app_assoc, take_drop.
Qed.

(** ** Cutting data into parts *)

Lemma wrapu32_small z : 0 <= z < 2 ^ 32 -> wrapu32 z = z.
Proof. apply Z.mod_small. Qed.

Lemma cut_loop data partSize total :
  0 < partSize -> Z.of_nat (length data) + partSize <= 2 ^ 32 ->
  total = (Z.of_nat (length data) + partSize - 1) / partSize ->
  exists partsBytes bA,
    foldM (cutPart data partSize) ([], NewBitArray total) (seq 0 (Z.to_nat total)) = Done (partsBytes, bA)
    /\ length partsBytes = Z.to_nat total /\ concat partsBytes = data
    /\ bits_ok bA (Some <$> partsBytes).
Proof.
  intros Hps Hlen Ht.
  pose proof (Z.div_mod (Z.of_nat (length data) + partSize - 1) partSize ltac:(lia)) as Hdm.
  pose proof (Z.mod_pos_bound (Z.of_nat (length data) + partSize - 1) partSize ltac:(lia)) as Hm.
  rewrite <- Ht in Hdm. assert (Ht0 : 0 <= total) by (subst; apply Z.div_pos; lia).
  destruct (foldM_inv (fun i st => let '(pb, bA) := st in
      length pb = i /\ concat pb = take (Z.to_nat (Z.of_nat i * partSize)) data
      /\ bits_ok bA ((Some <$> pb) ++ replicate (Z.to_nat total - i) None))
    (cutPart data partSize) ([], NewBitArray total) (seq 0 (Z.to_nat total)))
    as ([pb bA] & E & H1 & H2 & H3).
  - split; [done|]. split; [done|]. rewrite Nat.sub_0_r. simpl.
    rewrite <- (Z2Nat.id total) at 1 by lia. apply bits_ok_new.
  - intros i x [pb bA] Hi (Hl & Hc & Hb). apply lookup_seq in Hi as [-> Hi]. simpl Nat.add.
    assert (Hi1 : Z.of_nat i + 1 <= total) by lia.
    assert (Hmul : (Z.of_nat i + 1) * partSize <= total * partSize) by (apply Z.mul_le_mono_nonneg_r; lia).
    unfold cutPart. assert (Hib : 0 <= Z.of_nat i * partSize) by (apply Z.mul_nonneg_nonneg; lia).
    assert (Hit : total <= total * partSize) by nia.
    rewrite (wrapu32_small (Z.of_nat i + 1)) by lia. rewrite !wrapu32_small by lia.
    unfold slice. rewrite (proj2 (Z.leb_le 0 _)), (proj2 (Z.leb_le (Z.of_nat i * partSize) _)),
      (proj2 (Z.leb_le (Z.min _ _) _)) by lia. simpl andb. cbv iota. rewrite bind_Done.
    set (bz := take _ (drop _ data)).
    destruct (bits_ok_set bA _ i bz Hb) as (bA' & -> & Hb').
    { rewrite length_app, length_fmap, length_replicate. lia. }
    rewrite bind_Done. eexists; split; [reflexivity|]. split; [rewrite length_app; simpl; lia|]. split.
    + rewrite concat_app, Hc. simpl. rewrite app_nil_r. unfold bz.
      rewrite take_take_drop.
      destruct (Z.le_gt_cases ((Z.of_nat i + 1) * partSize) (Z.of_nat (length data))).
      * f_equal. lia.
      * rewrite !take_ge; [done|lia..].
    + rewrite insert_app_r_alt in Hb' by (rewrite length_fmap; lia). rewrite length_fmap in Hb'.
      replace (Z.to_nat total - i)%nat with (S (Z.to_nat total - S i)) in Hb' by lia.
      rewrite Hl, Nat.sub_diag in Hb'. simpl in Hb'.
      rewrite fmap_app, <- app_assoc. exact Hb'.
  - rewrite length_seq in *. exists pb, bA. split; [done|]. split; [done|].
    rewrite Nat.sub_diag, app_nil_r in H3. split; [|done].
    rewrite H2. apply take_ge. lia.
Qed.

Lemma addProof_loop partsBytes proofs n :
  length partsBytes = n -> length proofs = n ->
  exists parts, foldM (addProof partsBytes proofs) [] (seq 0 n) = Done parts
    /\ length parts = n
    /\ forall i, (i < n)%nat -> exists bz sp, partsBytes !! i = Some bz /\ proofs !! i = Some sp
         /\ parts !! i = Some (Some (mkPart (Z.of_nat i) bz sp)).
Proof.
  intros Hb Hp.
  destruct (foldM_inv (fun i parts => length parts = i /\
      forall j, (j < i)%nat -> exists bz sp, partsBytes !! j = Some bz /\ proofs !! j = Some sp
        /\ parts !! j = Some (Some (mkPart (Z.of_nat j) bz sp)))
    (addProof partsBytes proofs) [] (seq 0 n)) as (parts & E & H1 & H2).
  - split; [done|lia].
  - intros i x parts Hi [Hl Hj]. apply lookup_seq in Hi as [-> Hi]. simpl Nat.add.
    destruct (lookup_lt_is_Some_2 partsBytes i) as [bz Hbz]; [lia|].
    destruct (lookup_lt_is_Some_2 proofs i) as [sp Hsp]; [lia|].
    unfold addProof. rewrite (index_nat _ _ _ Hbz), (index_nat _ _ _ Hsp), !bind_Done.
    eexists; split; [reflexivity|]. split; [rewrite length_app; simpl; lia|].
    intros j Hj'. destruct (decide (j = i)) as [->|Hne].
    + exists bz, sp. split; [done|]. split; [done|].
      by rewrite lookup_app_r, Hl, Nat.sub_diag by lia.
    + destruct (Hj j ltac:(lia)) as (bz' & sp' & A & B & C). exists bz', sp'.
      split; [done|]. split; [done|]. by apply lookup_app_l_Some.
  - rewrite length_seq in *. eauto.
Qed.

Lemma bits_ok_change {A B} (l : list (option A)) (l' : list (option B)) bA :
  length l = length l' -> (forall i, hasVote l i = hasVote l' i) -> bits_ok bA l -> bits_ok bA l'.
Proof.
  intros Hl Hh. destruct bA as [b|]; simpl.
  - rewrite Hl. intros (? & ? & Hb). split_and!; [done..|]. intros i Hi. by rewrite Hb, Hh.
  - intros ->. by destruct l'.
Qed.

Lemma filled_all {A} (l : list (option A)) :
  (forall i, (i < length l)%nat -> exists x, l !! i = Some (Some x)) -> filled l = length l.
Proof. apply filled_full. Qed.

(** The part set of some data: complete, with the data in its parts, and the
    root of the tree of the parts. *)
Lemma NewPartSetFromData_spec {L : TmHashLaws TH} data partSize :
  0 < partSize -> data <> [] -> Z.of_nat (length data) + partSize <= 2 ^ 32 ->
  exists full t, NewPartSetFromData data partSize = Done full
    /\ PSInv full /\ 0 < psTotal full /\ allFilled (psParts full)
    /\ concat (partsBytesOf (psParts full)) = data
    /\ shaped t /\ leaves t = partsBytesOf (psParts full) /\ psHash full = mhash t
    /\ forall i p, psParts full !! i = Some (Some p) ->
         prIndex (partProof p) = partIndex p /\ prTotal (partProof p) = psTotal full.
Proof.
  intros Hps Hne Hlen. unfold NewPartSetFromData.
  assert (Hd : 0 < Z.of_nat (length data)) by (destruct data; [done|simpl; lia]).
  destruct (Z.eqb_spec partSize 0); [lia|]. rewrite (wrapu32_small (Z.of_nat _)), wrapu32_small by lia.
  set (total := (_ + partSize - 1) / partSize).
  assert (Ht : 1 <= total) by (apply Z.div_le_lower_bound; lia).
  assert (Ht32 : total < 2 ^ 32) by (apply Z.div_lt_upper_bound; nia).
  destruct (cut_loop data partSize total Hps Hlen eq_refl) as (pb & bA & -> & Hl & Hc & Hb).
  rewrite bind_Done. destruct (shaped_exists pb) as (t & Hs & El); [intros ->; simpl in Hl; lia|].
  destruct (ProofsFromByteSlices_shaped t Hs) as (proofs & Hpf & Hlp & Hpr).
  { apply slices_bound. rewrite El, Hl. lia. }
  unfold msize in Hlp. rewrite El in Hpf, Hlp, Hpr. rewrite Hpf, bind_Done.
  destruct (addProof_loop pb proofs (Z.to_nat total) Hl ltac:(lia)) as (parts & -> & Hlparts & Hparts).
  rewrite bind_Done. eexists _, t. split; [reflexivity|].
  assert (Hall : allFilled parts).
  { intros i Hi. destruct (Hparts i ltac:(lia)) as (bz & sp & _ & _ & ->). eauto. }
  assert (Hpb : partsBytesOf parts = pb).
  { apply list_eq. intros i. unfold partsBytesOf. rewrite list_lookup_fmap.
    destruct (decide (i < Z.to_nat total)%nat) as [Hi|Hi].
    - destruct (Hparts i Hi) as (bz & sp & -> & _ & ->). done.
    - rewrite !lookup_ge_None_2 by lia. done. }
  assert (Hlook : forall i p, parts !! i = Some (Some p) -> exists bz sp, pb !! i = Some bz
      /\ proofs !! i = Some sp /\ p = mkPart (Z.of_nat i) bz sp).
  { intros i p Hi. pose proof (lookup_lt_Some _ _ _ Hi).
    destruct (Hparts i ltac:(lia)) as (bz & sp & H1 & H2 & H3). rewrite H3 in Hi. injection Hi as <-. eauto. }
  simpl. rewrite Hpb, El. split; [split; simpl|split_and!; try done; [lia|]].
  - lia.
  - lia.
  - eapply bits_ok_change; [| |exact Hb]; [rewrite length_fmap; lia|].
    intros i. unfold hasVote. rewrite list_lookup_fmap.
    destruct (decide (i < Z.to_nat total)%nat) as [Hi|Hi].
    + destruct (Hparts i Hi) as (bz & sp & -> & _ & ->). done.
    + rewrite !lookup_ge_None_2 by lia. done.
  - rewrite filled_all by done. lia.
  - intros i p Hi. destruct (Hlook i p Hi) as (bz & sp & H1 & H2 & ->). split; [done|].
    destruct (Hpr i sp H2) as (_ & _ & _ & item & H3 & H4). simpl. congruence.
  - intros i p Hi. destruct (Hlook i p Hi) as (bz & sp & H1 & H2 & ->). simpl.
    destruct (Hpr i sp H2) as (H3 & H4 & _). unfold msize in H3. rewrite El in H3. split; [done|lia].
Qed.

(** ** Receiving parts *)

(** Parts that arrive one after the other. *)
Definition addParts (ps : PartSet) (l : list Part) : outcome PartSet :=
  foldM (fun ps p => let! (ps', _, _) := addPart ps p in Done ps') ps l.

Definition verifies (ps : PartSet) (p : Part) : Prop :=
  partIndex p < psTotal ps /\ Proof_Verify (partProof p) (psHash ps) (partBytes p) = Done None.

Lemma addParts_spec ps l : PSInv ps -> Forall (fun p => 0 <= partIndex p) l ->
  exists ps', addParts ps l = Done ps' /\ PSInv ps'
    /\ psTotal ps' = psTotal ps /\ psHash ps' = psHash ps
    /\ (forall i p, psParts ps !! i = Some (Some p) -> psParts ps' !! i = Some (Some p))
    /\ (forall i p, psParts ps' !! i = Some (Some p) -> psParts ps !! i = Some (Some p) \/ p ∈ l)
    /\ (forall p, p ∈ l -> verifies ps p -> exists q, psParts ps' !! Z.to_nat (partIndex p) = Some (Some q)).
Proof.
  intros Hinv Hl. revert ps Hinv. induction Hl as [|p l Hp Hl IH]; intros ps Hinv.
  { exists ps. split_and!; try done; [by left|]. intros p Hp. set_solver. }
  unfold addParts. cbn [foldM].
  assert (exists ps1 added err, addPart ps p = Done (ps1, added, err) /\ PSInv ps1
    /\ psTotal ps1 = psTotal ps /\ psHash ps1 = psHash ps
    /\ (forall i q, psParts ps !! i = Some (Some q) -> psParts ps1 !! i = Some (Some q))
    /\ (forall i q, psParts ps1 !! i = Some (Some q) -> psParts ps !! i = Some (Some q) \/ q = p)
    /\ (verifies ps p -> exists q, psParts ps1 !! Z.to_nat (partIndex p) = Some (Some q)))
    as (ps1 & added & err & -> & Hinv1 & Ht & Hh & Hold & Hnew & Hv).
  { destruct (addPart_spec ps p Hinv Hp) as [(H1 & ->)|[(q & H1 & ->)|[(H1 & H2 & ->)|(H1 & H2 & bA & -> & H3)]]];
      eexists _, _, _; (split; [reflexivity|]); split_and!; try done; try (by left); simpl.
    - intros [Hx _]. lia.
    - intros _. eauto.
    - intros [_ Hx]. done.
    - intros i q Hi. rewrite list_lookup_insert_ne; [done|]. intros E. rewrite E in H1. congruence.
    - intros i q [(_ & E & _)|(_ & Hi)]%list_lookup_insert_Some; [right; by injection E|by left].
    - intros _. exists p. apply list_lookup_insert_eq. by apply lookup_lt_Some in H1. }
  rewrite !bind_Done.
  destruct (IH ps1 Hinv1) as (ps' & E' & Hinv' & Ht' & Hh' & Hold' & Hnew' & Hv').
  exists ps'. split_and!; [exact E'|done|congruence|congruence|auto| |].
  - intros i q Hq. destruct (Hnew' i q Hq) as [H1|H1]; [|set_solver].
    destruct (Hnew i q H1) as [H2| ->]; [by left|set_solver].
  - intros q [->|Hq]%elem_of_cons Hver.
    + destruct (Hv Hver) as [q' Hq']. eauto.
    + apply Hv'; [done|]. unfold verifies in *. by rewrite Ht, Hh.
Qed.

(** A part whose proof is for its own index and the set's total. *)
Definition labelled (total : Z) (p : Part) : Prop :=
  0 <= partIndex p /\ prIndex (partProof p) = partIndex p /\ prTotal (partProof p) = total.

Lemma stored_bytes {L : TmHashLaws TH} t ps i p :
  PSInv ps -> shaped t -> psHash ps = mhash t -> psTotal ps = Z.of_nat (msize t) ->
  collision_free (treeInputs t ++ verifyInputs (partProof p) (partBytes p)) ->
  labelled (psTotal ps) p -> psParts ps !! i = Some (Some p) ->
  leaves t !! i = Some (partBytes p).
Proof.
  intros Hinv Hs Hh Ht Hcf (H1 & H2 & H3) Hi. destruct (inv_parts _ Hinv i p Hi) as [Hidx Hv].
  rewrite Hh in Hv. destruct (Proof_Verify_sound t _ _ Hcf Hv) as (j & Hj & Hx).
  rewrite <- Hj. f_equal. specialize (Hx Hs ltac:(congruence)). lia.
Qed.

(** A complete set reads as the concatenation of its parts. *)
Lemma ReadAll_complete ps sizes : PSInv ps -> 0 < psTotal ps -> PartSet_IsComplete ps = true ->
  (forall k, 0 < sizes k)%nat ->
  exists psr, PartSet_GetReader ps = Done psr
    /\ ReadAll sizes (S (length (concat (partsBytesOf (psParts ps))))) psr []
       = Done (concat (partsBytesOf (psParts ps))).
Proof.
  intros Hinv Ht Hc Hs. pose proof (inv_length _ Hinv). unfold PartSet_GetReader. rewrite Hc.
  pose proof (proj1 (IsComplete_iff ps Hinv) Hc) as Hf. unfold NewPartSetReader. simpl negb. cbv iota.
  destruct (partData_filled (psParts ps) 0 Hf ltac:(lia)) as (p & Hp & ->). rewrite bind_Done.
  eexists; split; [reflexivity|]. set (psr := mkPartSetReader _ _ _).
  assert (E : unread psr = concat (partsBytesOf (psParts ps))).
  { unfold unread, psr. simpl. change (Z.to_nat 0) with 0%nat in Hp.
    destruct (psParts ps) as [|o rest]; [done|]. injection Hp as ->. done. }
  rewrite <- E. apply ReadAll_spec; [exact Hf|simpl; lia|done|lia].
Qed.

Lemma collision_free_part t l p : p ∈ l ->
  collision_free (treeInputs t ++ flat_map (fun p => verifyInputs (partProof p) (partBytes p)) l) ->
  collision_free (treeInputs t ++ verifyInputs (partProof p) (partBytes p)).
Proof.
  intros Hp. apply collision_free_sub. intros x Hx. apply elem_of_app in Hx as [Hx|Hx]; apply elem_of_app; [by left|].
  right. apply list_elem_of_In, in_flat_map. exists p. by rewrite <- !list_elem_of_In.
Qed.

(** What a receiver that starts from the header of a full part set makes of the
    parts it is given. *)
Lemma received_parts {L : TmHashLaws TH} data full t received :
  PSInv full -> 0 < psTotal full -> allFilled (psParts full) ->
  concat (partsBytesOf (psParts full)) = data ->
  shaped t -> leaves t = partsBytesOf (psParts full) -> psHash full = mhash t ->
  Forall (labelled (psTotal full)) received ->
  collision_free (treeInputs t
    ++ flat_map (fun p => verifyInputs (partProof p) (partBytes p)) received) ->
  exists ps, addParts (NewPartSetFromHeader (PartSet_Header (Some full))) received = Done ps
    /\ (PartSet_IsComplete ps = true ->
        forall sizes, (forall k, 0 < sizes k)%nat ->
        exists psr, PartSet_GetReader ps = Done psr
          /\ ReadAll sizes (S (length data)) psr [] = Done data)
    /\ ((forall p, Some p ∈ psParts full -> p ∈ received) -> PartSet_IsComplete ps = true).
Proof.
  intros Hinv Ht Hall Hdata Hs Hlv Hh Hlabelled Hcf.
  pose proof (inv_total _ Hinv) as Htot. pose proof (inv_length _ Hinv) as Hfl.
  destruct (addParts_spec (NewPartSetFromHeader (PartSet_Header (Some full))) received)
    as (ps & Eps & Hinv' & Ht' & Hh' & _ & Hnew & Hver).
  { by apply NewPartSetFromHeader_inv. }
  { eapply Forall_impl; [exact Hlabelled|]. intros p Hp. apply Hp. }
  simpl in Ht', Hh'. pose proof (inv_length _ Hinv') as Hlen'.
  exists ps. split; [done|]. split.
  - intros Hc. assert (Hb : partsBytesOf (psParts ps) = leaves t).
    { pose proof (proj1 (IsComplete_iff ps Hinv') Hc) as Hf. apply list_eq. intros i.
      unfold partsBytesOf. rewrite list_lookup_fmap.
      destruct (decide (i < length (psParts ps))%nat) as [Hi|Hi].
      - destruct (Hf i Hi) as [p Hp]. rewrite Hp. symmetry. simpl.
        destruct (Hnew i p Hp) as [H0|Hin].
        { simpl in H0. apply lookup_replicate in H0 as [H0 _]. done. }
        apply (stored_bytes t ps); [done|done|congruence| |by eapply collision_free_part| |done].
        + unfold msize. rewrite Hlv. unfold partsBytesOf. rewrite length_fmap. lia.
        + rewrite Forall_forall in Hlabelled. rewrite Ht'. by apply Hlabelled.
      - rewrite !lookup_ge_None_2; [done|rewrite Hlv; unfold partsBytesOf; rewrite length_fmap; lia|lia]. }
    intros sizes Hsz. destruct (ReadAll_complete ps sizes Hinv' ltac:(lia) Hc Hsz) as (psr & E1 & E2).
    exists psr. split; [done|]. by rewrite Hb, Hlv, Hdata in E2.
  - intros Hevery. apply IsComplete_iff; [done|]. intros i Hi.
    destruct (Hall i ltac:(lia)) as [p Hp]. destruct (inv_parts _ Hinv i p Hp) as [Hidx Hv].
    destruct (Hver p) as [q Hq]; [apply Hevery; by eapply list_elem_of_lookup_2| |].
    + split; simpl; [|done]. pose proof (lookup_lt_Some _ _ _ Hp). lia.
    + exists q. by rewrite Hidx, Nat2Z.id in Hq.
Qed.

End partset.

(** ** Claims *)

(** [AddPart] never panics and preserves the invariant of the part
    set: the bit array mirrors the slots, the count is the number of filled
    slots, every stored part is in the slot of its index and its proof
    verifies.  A part is added exactly when its index is below the total, its
    slot is free and its proof verifies; otherwise the set does not change and
    the error tells the reason.  The set is complete exactly when no slot is
    free. *)
Theorem AddPart_correct (TH : TmHash) (ps : PartSet) (part : Part) :
  PSInv ps -> uint32 (partIndex part) ->
  exists ps' added err, addPart ps part = Done (ps', added, err) /\ PSInv ps'
    /\ psTotal ps' = psTotal ps /\ psHash ps' = psHash ps
    /\ (PartSet_IsComplete ps' = true <-> allFilled (psParts ps'))
    /\ let i := Z.to_nat (partIndex part) in
       if (added : bool) then
         err = None /\ psParts ps !! i = Some None
         /\ Proof_Verify (partProof part) (psHash ps) (partBytes part) = Done None
         /\ psParts ps' = <[i := Some part]> (psParts ps) /\ psCount ps' = psCount ps + 1
       else
         ps' = ps /\
         match err with
         | Some ErrPartSetUnexpectedIndex => psTotal ps <= partIndex part
         | Some ErrPartSetInvalidProof =>
           psParts ps !! i = Some None
           /\ Proof_Verify (partProof part) (psHash ps) (partBytes part) <> Done None
         | None => exists p, psParts ps !! i = Some (Some p)
         end.
Proof.
  intros Hinv [Hi _].
  destruct (addPart_spec ps part Hinv Hi) as [(H1 & ->)|[(q & H1 & ->)|[(H1 & H2 & ->)|(H1 & H2 & bA & -> & H3)]]];
    eexists _, _, _; (split; [reflexivity|]); (split; [done|]); (split; [done|]); (split; [done|]);
    (split; [by apply IsComplete_iff|]); simpl; eauto.
Qed.

Definition exampleData : bytes := [Byte.x01; Byte.x02; Byte.x03; Byte.x04; Byte.x05].

Definition exampleParts : PartSet :=
  match @NewPartSetFromData exampleTmHash exampleData 2 with
  | Done ps => ps
  | Panic _ => NewPartSetFromHeader zeroPartSetHeader
  end.

Definition exampleEmptyParts : PartSet := NewPartSetFromHeader (PartSet_Header (Some exampleParts)).

Definition examplePart (i : nat) : Part :=
  match psParts exampleParts !! i with Some (Some p) => p | _ => mkPart 0 [] (mkProof 0 0 [] []) end.

Lemma AddPart_correct_witness :
  exists ps', @addPart exampleTmHash exampleEmptyParts (examplePart 1) = Done (ps', true, None)
    /\ psCount ps' = 1.
Proof.
  destruct (AddPart_correct exampleTmHash exampleEmptyParts (examplePart 1)) as (ps' & added & err & E & _ & _ & _ & _ & H).
  - apply NewPartSetFromHeader_inv. vm_compute. split; congruence.
  - vm_compute. split; congruence.
  - destruct added; [destruct H as (-> & _ & _ & _ & H); eauto|].
    exfalso. revert E. vm_compute. congruence.
Defined.

(** [C35] A block's data survives its distribution in parts.
    [NewPartSetFromData] returns a complete part set for non-empty data, and a
    receiver that starts from its header and adds parts in any order, with
    repetitions and with parts of other senders whose proofs are for their own
    index, never panics; once its set is complete, reading it gives the data
    back (unless two of the strings hashed collide), and it is complete as soon
    as it was given all the parts. *)
Theorem PartSet_gossip (TH : TmHash) (L : TmHashLaws TH) (data : bytes) (partSize : Z) :
  0 < partSize -> data <> [] -> Z.of_nat (length data) + partSize <= 2 ^ 32 ->
  exists full, NewPartSetFromData data partSize = Done full
    /\ PartSet_IsComplete full = true /\ concat (partsBytesOf (psParts full)) = data
    /\ forall (t : mtree) (received : list Part),
         shaped t -> leaves t = partsBytesOf (psParts full) ->
         Forall (labelled (psTotal full)) received ->
         collision_free (treeInputs t
           ++ flat_map (fun p => verifyInputs (partProof p) (partBytes p)) received) ->
         exists ps, addParts (NewPartSetFromHeader (PartSet_Header (Some full))) received = Done ps
           /\ (PartSet_IsComplete ps = true ->
               forall sizes, (forall k, 0 < sizes k)%nat ->
               exists psr, PartSet_GetReader ps = Done psr
                 /\ ReadAll sizes (S (length data)) psr [] = Done data)
           /\ ((forall p, Some p ∈ psParts full -> p ∈ received) -> PartSet_IsComplete ps = true).
Proof.
  intros Hps Hne Hlen.
  destruct (NewPartSetFromData_spec data partSize Hps Hne Hlen)
    as (full & t0 & E & Hinv & Ht & Hall & Hdata & Hs0 & Hlv0 & Hh & _).
  exists full. split; [done|]. split; [by apply IsComplete_iff|]. split; [done|].
  intros t received Hs Hlv Hlabelled Hcf.
  assert (Ht0 : mhash t0 = mhash t).
  { pose proof (HashFromByteSlices_shaped t0 Hs0) as H0.
    rewrite Hlv0, <- Hlv, (HashFromByteSlices_shaped t Hs) in H0. by injection H0. }
  rewrite Ht0 in Hh. by apply (received_parts data full t).
Qed.

Definition exampleTree3 : mtree :=
  MNode (MNode (MLeaf [Byte.x01; Byte.x02]) (MLeaf [Byte.x03; Byte.x04])) (MLeaf [Byte.x05]).

Definition exampleReceived : list Part :=
  [examplePart 2; examplePart 0; examplePart 2; examplePart 1].

Lemma exampleReceived_all p : Some p ∈ psParts exampleParts -> p ∈ exampleReceived.
Proof.
  assert (exists a b c, psParts exampleParts = [Some a; Some b; Some c]) as (a & b & c & E)
    by (vm_compute; eauto).
  unfold exampleReceived, examplePart. rewrite E. cbn [lookup list_lookup].
  rewrite !elem_of_cons. intros [[= ->]|[[= ->]|[[= ->]|Hn]]]; [by right; left|by do 3 right; left|by left|].
  by apply elem_of_nil in Hn.
Qed.

Lemma PartSet_gossip_witness :
  exists full ps, @NewPartSetFromData exampleTmHash exampleData 2 = Done full
    /\ @addParts exampleTmHash (NewPartSetFromHeader (PartSet_Header (Some full))) exampleReceived = Done ps
    /\ PartSet_IsComplete ps = true
    /\ exists psr, PartSet_GetReader ps = Done psr /\ ReadAll (fun _ => 3%nat) 6 psr [] = Done exampleData.
Proof.
  destruct (PartSet_gossip exampleTmHash exampleTmHash_laws exampleData 2 ltac:(lia) ltac:(done)
    ltac:(simpl; lia)) as (full & E & _ & _ & H).
  assert (Ef : full = exampleParts) by (unfold exampleParts; by rewrite E). subst full.
  destruct (H exampleTree3 exampleReceived) as (ps & E1 & H1 & H2).
  - simpl. repeat split; [exists 1%nat|exists 0%nat]; unfold msize; simpl; lia.
  - vm_compute. reflexivity.
  - repeat constructor; vm_compute; congruence.
  - apply collision_freeb_spec. vm_compute. reflexivity.
  - assert (Hc : PartSet_IsComplete ps = true).
    { apply H2. exact exampleReceived_all. }
    exists exampleParts, ps. split; [exact E|]. split; [exact E1|]. split; [exact Hc|].
    apply (H1 Hc). intros k. lia.
Defined.


(** The proof of the transaction at a valid index validates against the
    root of the block's transactions, carries the transaction and its index,
    and is what its protobuf form decodes to; an index out of range and an
    empty list panic. *)
Theorem Txs_Proof_correct (TH : TmHash) (L : TmHashLaws TH) (txs : list bytes) (i : Z) :
  Z.of_nat (length txs) < 2 ^ 63 ->
  match txs !! Z.to_nat i with
  | Some tx =>
    0 <= i ->
    exists root tp, Txs_Hash txs = Done root /\ Txs_Proof txs i = Done tp
      /\ tpData tp = tx /\ prIndex (tpProof tp) = i /\ tpRootHash tp = root
      /\ TxProof_Validate tp root = Done None
      /\ TxProofFromProto (TxProof_ToProto tp) = inr tp
  | None => panics (Txs_Proof txs i) = true
  end /\ (i < 0 -> panics (Txs_Proof txs i) = true).
Proof.
  intros Hlen. destruct (decide (txs = [])) as [->|Hne]; [done|].
  destruct (shaped_exists (Tx_Hash <$> txs)) as (t & Hs & Et); [by destruct txs|].
  assert (Hl : length (leaves t) = length txs) by (by rewrite Et, length_fmap).
  destruct (ProofsFromByteSlices_shaped t Hs) as (proofs & Hpf & Hlp & Hpr).
  { apply slices_bound. by rewrite Hl. }
  unfold Txs_Proof, Txs_Hash. rewrite <- Et, Hpf, bind_Done.
  split; [|intros Hi; by rewrite index_panic by lia].
  destruct (txs !! Z.to_nat i) as [tx|] eqn:Htx.
  - intros Hi. rewrite (proj2 (index_Done txs i tx)), bind_Done by done.
    apply lookup_lt_Some in Htx as Hlt.
    destruct (lookup_lt_is_Some_2 proofs (Z.to_nat i)) as [sp Hsp]; [unfold msize in Hlp; lia|].
    rewrite (proj2 (index_Done proofs i sp)), bind_Done by done.
    destruct (Hpr _ _ Hsp) as (H1 & H2 & H3 & item & H4 & H5).
    rewrite Et, list_lookup_fmap, Htx in H4. injection H4 as <-.
    exists (mhash t), (mkTxProof (mhash t) tx sp). rewrite HashFromByteSlices_shaped by done.
    split_and!; try done; simpl; [lia| |].
    + unfold TxProof_Validate, TxProof_Leaf. simpl. rewrite bool_decide_true by done. simpl.
      destruct (Z.ltb_spec (prIndex sp) 0); [lia|].
      destruct (Z.leb_spec (prTotal sp) 0); [unfold msize in H1; lia|]. by rewrite H5.
    + unfold TxProofFromProto, TxProof_ToProto, ProofFromProto. simpl. by rewrite H3.
  - apply lookup_ge_None in Htx. by rewrite index_panic by lia.
Qed.

Lemma Txs_Proof_correct_witness :
  exists root tp, @Txs_Hash exampleTmHash exampleItems = Done root
    /\ @Txs_Proof exampleTmHash exampleItems 2 = Done tp /\ tpData tp = [Byte.x03]
    /\ @TxProof_Validate exampleTmHash tp root = Done None.
Proof.
  destruct (Txs_Proof_correct exampleTmHash exampleTmHash_laws exampleItems 2 ltac:(simpl; lia)) as [H _].
  destruct (H ltac:(lia)) as (root & tp & H1 & H2 & H3 & _ & _ & H4 & _).
  exists root, tp. split; [exact H1|]. split; [exact H2|]. split; [exact H3|exact H4].
Defined.
