(* ===== verification/SignBytes.v ===== *)
(** * The bytes to sign determine what is signed

    The generated encoders announce the size they write, so that marshalling
    into the announced buffer succeeds, and the canonical bytes of a valid vote
    or proposal determine its type, height, round, block, time and chain. *)

From Stdlib Require Import ZArith Lia.
From S2P Require Import Prelude Proto BitArray Validator BlockTypes.
From stdpp Require Import base list option strings numbers.

Local Open Scope Z_scope.

(** ** Sequences of fields in increasing tag order *)

(** The bytes are empty or start with a tag of at least [k]. *)
Definition first_ge (k : Z) (w : bytes) : Prop :=
  match w with [] => True | b :: _ => k <= byte_to_Z b end.

Lemma first_ge_mono k k' w : k' <= k -> first_ge k w -> first_ge k' w.
Proof. destruct w; simpl; [done|lia]. Qed.

Lemma first_ge_tag t w : 0 <= t < 256 -> first_ge t (byte_of_Z t :: w).
Proof. intros Ht. simpl. rewrite byte_to_of_Z, Z.mod_small; lia. Qed.

Lemma first_ge_neq t w x : 0 <= t < 256 -> first_ge (t + 1) w -> byte_of_Z t :: x <> w.
Proof.
  intros Ht Hw <-. simpl in Hw. rewrite byte_to_of_Z, Z.mod_small in Hw; lia.
Qed.

(** An optional field in front of later fields is read back unambiguously. *)
Lemma optional_field {A} (put : A -> bytes -> bytes) t (c c' : bool) (v v' : A) w w' :
  0 <= t < 256 -> (forall a r, exists x, put a r = byte_of_Z t :: x) ->
  (c = true -> c' = true -> put v w = put v' w' -> v = v' /\ w = w') ->
  first_ge (t + 1) w -> first_ge (t + 1) w' ->
  (if c then put v w else w) = (if c' then put v' w' else w') ->
  c = c' /\ (c = true -> v = v') /\ w = w'.
Proof.
  intros Ht Hput Hinj Hw Hw' E. destruct c, c'.
  - destruct (Hinj eq_refl eq_refl E). auto.
  - destruct (Hput v w) as [x Hx]. rewrite Hx in E. destruct (first_ge_neq _ _ _ Ht Hw' E).
  - destruct (Hput v' w') as [x Hx]. rewrite Hx in E. destruct (first_ge_neq _ _ _ Ht Hw (eq_sym E)).
  - done.
Qed.

Lemma optional_first {A} (put : A -> bytes -> bytes) t (c : bool) (v : A) w :
  0 <= t < 256 -> (forall a r, exists x, put a r = byte_of_Z t :: x) -> first_ge (t + 1) w ->
  first_ge t (if c then put v w else w).
Proof.
  intros Ht Hput Hw. destruct c; [|by apply (first_ge_mono (t + 1)); [lia|]].
  destruct (Hput v w) as [x ->]. by apply first_ge_tag.
Qed.

Lemma starts_delimited t (a r : bytes) : exists x, putDelimited t a r = byte_of_Z t :: x.
Proof. by eexists. Qed.
Lemma starts_varint t (a : Z) (r : bytes) : exists x, putVarint t a r = byte_of_Z t :: x.
Proof. by eexists. Qed.
Lemma starts_sfixed64 t (a : Z) (r : bytes) : exists x, putSfixed64 t a r = byte_of_Z t :: x.
Proof. by eexists. Qed.

Create HintDb proto.
#[export] Hint Resolve starts_delimited starts_varint starts_sfixed64 : proto.

(** ** Well-typed values

    The ranges that the Go types of the fields guarantee. *)

Definition psh_typed (m : protoPartSetHeader) : Prop := uint32 (ppshTotal m) /\ fits (ppshHash m).

Definition small (bz : bytes) : Prop := Z.of_nat (length bz) < 2 ^ 31.

Lemma uint32_uint64 v : uint32 v -> uint64 v.
Proof. unfold uint32, uint64. lia. Qed.

Lemma small_fits bz : small bz -> fits bz.
Proof. unfold small, fits. lia. Qed.

#[export] Hint Resolve uint32_uint64 small_fits : proto.

Lemma sov_bound v : uint64 v -> 0 < sov v <= 10.
Proof.
  intros Hv. rewrite <- encodeVarint_length by done. unfold encodeVarint.
  unfold uint64 in Hv. rewrite varintLoop_length by (try lia; change (7 * Z.of_nat 10) with 70; lia).
  destruct (Z.eqb_spec v 0); [lia|].
  assert (Z.log2 v < 64) by (apply Z.log2_lt_pow2; lia). pose proof (Z.log2_nonneg v).
  assert (0 <= Z.log2 v / 7) by (apply Z.div_pos; lia).
  assert (Z.log2 v / 7 < 10) by (apply Z.div_lt_upper_bound; lia). lia.
Qed.

Lemma nonempty_ltb (bz : bytes) : (0 <? Z.of_nat (length bz)) = (0 <? length bz)%nat.
Proof. destruct (Z.ltb_spec 0 (Z.of_nat (length bz))), (Nat.ltb_spec 0 (length bz)); lia || done. Qed.

(** ** Announced sizes *)

Lemma psh_Size_length m :
  uint32 (ppshTotal m) -> small (ppshHash m) ->
  CanonicalPartSetHeader_Size m = Z.of_nat (length (CanonicalPartSetHeader_write m)) /\
  CanonicalPartSetHeader_Size m <= 22 + Z.of_nat (length (ppshHash m)).
Proof.
  intros Ht Hh. unfold CanonicalPartSetHeader_Size, CanonicalPartSetHeader_write.
  rewrite nonempty_ltb. pose proof (sov_bound (ppshTotal m) ltac:(eauto with proto)).
  pose proof (sov_bound (Z.of_nat (length (ppshHash m))) ltac:(apply fits_uint64; eauto with proto)).
  destruct (_ <? _)%nat, (negb _); cbn [length];
    rewrite ?putVarint_length, ?putDelimited_length by eauto with proto; cbn [length]; lia.
Qed.

Lemma blockID_Size_length m :
  uint32 (ppshTotal (cbidPartSetHeader m)) -> small (ppshHash (cbidPartSetHeader m)) ->
  small (cbidHash m) ->
  CanonicalBlockID_Size m = Z.of_nat (length (CanonicalBlockID_write m)) /\
  fits (CanonicalPartSetHeader_write (cbidPartSetHeader m)) /\ fits (CanonicalBlockID_write m).
Proof.
  intros Ht Hh Hb. destruct (psh_Size_length _ Ht Hh) as [Es Hs].
  assert (fits (CanonicalPartSetHeader_write (cbidPartSetHeader m))) as Hf
    by (unfold fits, small in *; lia).
  pose proof (sov_bound _ (fits_uint64 _ Hf)) as Hsov.
  pose proof (sov_bound (Z.of_nat (length (cbidHash m))) ltac:(apply fits_uint64; eauto with proto)).
  assert (CanonicalBlockID_Size m = Z.of_nat (length (CanonicalBlockID_write m))) as E.
  { unfold CanonicalBlockID_Size, CanonicalBlockID_write. rewrite nonempty_ltb, Es.
    destruct (_ <? _)%nat; rewrite !putDelimited_length by eauto with proto; cbn [length]; lia. }
  split_and!; [done|done|]. unfold fits. rewrite <- E. unfold CanonicalBlockID_Size. rewrite Es in *.
  rewrite nonempty_ltb. unfold small in *. destruct (_ <? _)%nat; lia.
Qed.

Definition cblock_typed (b : CanonicalBlockID) : Prop :=
  uint32 (ppshTotal (cbidPartSetHeader b)) /\ small (ppshHash (cbidPartSetHeader b)) /\
  small (cbidHash b).

Definition oblock_typed (b : option CanonicalBlockID) : Prop :=
  match b with Some b => cblock_typed b | None => True end.

#[export] Hint Resolve wrapu64_range : proto.

Record cvote_typed (m : CanonicalVote) : Prop := {
  cvt_type : int32 (cvType m);
  cvt_height : int64 (cvHeight m);
  cvt_round : int64 (cvRound m);
  cvt_block : oblock_typed (cvBlockID m);
  cvt_chain : small (cvChainID m)
}.

Record cproposal_typed (m : CanonicalProposal) : Prop := {
  cpt_type : int32 (cpType m);
  cpt_height : int64 (cpHeight m);
  cpt_round : int64 (cpRound m);
  cpt_pol : int64 (cpPOLRound m);
  cpt_block : oblock_typed (cpBlockID m);
  cpt_chain : small (cpChainID m)
}.

Section sizes.
Context {ST : StdTime} (laws : StdTimeLaws ST).

Lemma std_fits t bz : StdTimeMarshal t = inr bz -> fits bz.
Proof. intros E%(std_small _ laws). unfold fits. lia. Qed.

Ltac field_sizes :=
  repeat first
    [ rewrite putVarint_length by eauto with proto
    | rewrite putSfixed64_length
    | rewrite putDelimited_length by eauto with proto ].

Lemma cvote_Size_length m w :
  cvote_typed m -> CanonicalVote_write m = inr w -> CanonicalVote_Size m = Z.of_nat (length w).
Proof.
  intros [_ _ _ Hb Hc] Hw. unfold CanonicalVote_write, putBlock in Hw. unfold CanonicalVote_Size.
  destruct (StdTimeMarshal (cvTimestamp m)) as [|t] eqn:Et; [done|]. injection Hw as <-.
  rewrite (std_size _ laws _ _ Et), nonempty_ltb. pose proof (std_fits _ _ Et) as Hft.
  destruct (cvBlockID m) as [b|]; [destruct Hb as (H1 & H2 & H3);
    destruct (blockID_Size_length b H1 H2 H3) as (-> & _ & Hfb)|];
  destruct (0 <? length _)%nat, (negb (cvRound m =? 0)), (negb (cvHeight m =? 0)), (negb (cvType m =? 0));
    field_sizes; cbn [length]; lia.
Qed.

Lemma cproposal_Size_length m w :
  cproposal_typed m -> CanonicalProposal_write m = inr w ->
  CanonicalProposal_Size m = Z.of_nat (length w).
Proof.
  intros [_ _ _ _ Hb Hc] Hw. unfold CanonicalProposal_write, putBlock in Hw. unfold CanonicalProposal_Size.
  destruct (StdTimeMarshal (cpTimestamp m)) as [|t] eqn:Et; [done|]. injection Hw as <-.
  rewrite (std_size _ laws _ _ Et), nonempty_ltb. pose proof (std_fits _ _ Et) as Hft.
  destruct (cpBlockID m) as [b|]; [destruct Hb as (H1 & H2 & H3);
    destruct (blockID_Size_length b H1 H2 H3) as (-> & _ & Hfb)|];
  destruct (0 <? length _)%nat, (negb (cpRound m =? 0)), (negb (cpHeight m =? 0)),
    (negb (cpPOLRound m =? 0)), (negb (cpType m =? 0));
    field_sizes; cbn [length]; lia.
Qed.

(** ** The encodings are injective *)

(** Optional integers and byte strings, absent when zero or empty. *)
Lemma optional_int (put : Z -> bytes -> bytes) t v v' w w' :
  0 <= t < 256 -> (forall a r, exists x, put a r = byte_of_Z t :: x) ->
  (put v w = put v' w' -> v = v' /\ w = w') ->
  first_ge (t + 1) w -> first_ge (t + 1) w' ->
  (if negb (v =? 0) then put v w else w) = (if negb (v' =? 0) then put v' w' else w') ->
  v = v' /\ w = w'.
Proof.
  intros Ht Hput Hinj Hw Hw' E.
  apply (optional_field put t) in E as (Ec & Ev & ->); [|auto..]. split; [|done].
  destruct (Z.eqb_spec v 0), (Z.eqb_spec v' 0); simpl in *; try done; [congruence|auto].
Qed.

Lemma optional_bytes t (v v' w w' : bytes) :
  0 <= t < 256 -> fits v -> fits v' -> first_ge (t + 1) w -> first_ge (t + 1) w' ->
  (if (0 <? length v)%nat then putDelimited t v w else w)
  = (if (0 <? length v')%nat then putDelimited t v' w' else w') ->
  v = v' /\ w = w'.
Proof.
  intros Ht Hf Hf' Hw Hw' E.
  apply (optional_field (putDelimited t) t) in E as (Ec & Ev & ->);
    [|eauto with proto..|intros _ _; by apply putDelimited_inj|done|done].
  split; [|done]. destruct v, v'; simpl in *; try done. auto.
Qed.

Lemma psh_write_inj m m' :
  uint32 (ppshTotal m) -> uint32 (ppshTotal m') -> small (ppshHash m) -> small (ppshHash m') ->
  CanonicalPartSetHeader_write m = CanonicalPartSetHeader_write m' -> m = m'.
Proof.
  intros Ht Ht' Hh Hh' E. unfold CanonicalPartSetHeader_write in E.
  apply (optional_int (putVarint 8) 8) in E as (Ev & E); [|lia|eauto with proto| | |].
  - apply optional_bytes in E as [Eh _]; [|lia|eauto with proto..|done|done].
    destruct m, m'. simpl in *. congruence.
  - apply putVarint_inj; eauto with proto.
  - apply (first_ge_mono 18); [lia|]. apply (optional_first (putDelimited 18)); [lia|eauto with proto|done].
  - apply (first_ge_mono 18); [lia|]. apply (optional_first (putDelimited 18)); [lia|eauto with proto|done].
Qed.

Lemma block_write_inj b b' :
  cblock_typed b -> cblock_typed b' -> CanonicalBlockID_write b = CanonicalBlockID_write b' -> b = b'.
Proof.
  intros (Ht & Hp & Hh) (Ht' & Hp' & Hh') E.
  destruct (blockID_Size_length b Ht Hp Hh) as (_ & Hf & _).
  destruct (blockID_Size_length b' Ht' Hp' Hh') as (_ & Hf' & _).
  apply optional_bytes in E as [Eh E]; [|lia|by apply small_fits|by apply small_fits
     |by apply (first_ge_mono 18); [lia|apply first_ge_tag; lia]..].
  apply putDelimited_inj in E as [E _]; [|done..]. apply psh_write_inj in E; [|done..].
  destruct b, b'. simpl in *. congruence.
Qed.

Lemma putBlock_inj t o o' w w' :
  0 <= t < 256 -> oblock_typed o -> oblock_typed o' ->
  first_ge (t + 1) w -> first_ge (t + 1) w' -> putBlock t o w = putBlock t o' w' ->
  o = o' /\ w = w'.
Proof.
  intros Ht Ho Ho' Hw Hw' E. destruct o as [b|], o' as [b'|]; simpl in E.
  - pose proof Ho as (H1 & H2 & H3). pose proof Ho' as (H1' & H2' & H3').
    apply putDelimited_inj in E as [E ->]; [|by apply blockID_Size_length..].
    split; [|done]. f_equal. by apply block_write_inj.
  - by apply first_ge_neq in E.
  - symmetry in E. by apply first_ge_neq in E.
  - done.
Qed.

Lemma putBlock_first t o w : 0 <= t < 256 -> first_ge (t + 1) w -> first_ge t (putBlock t o w).
Proof.
  intros Ht Hw. destruct o; simpl; [by apply first_ge_tag|by apply (first_ge_mono (t + 1)); [lia|]].
Qed.

Lemma int_first (put : Z -> bytes -> bytes) t k v w :
  k <= t -> 0 <= t < 256 -> (forall a r, exists x, put a r = byte_of_Z t :: x) -> first_ge (t + 1) w ->
  first_ge k (if negb (v =? 0) then put v w else w).
Proof. intros. apply (first_ge_mono t); [done|]. by apply optional_first. Qed.

Ltac in_order :=
  repeat first
    [ done | lia | solve [eauto with proto]
    | apply (int_first (putSfixed64 25) 25)
    | apply (int_first (putSfixed64 17) 17)
    | apply (int_first (fun v => putVarint 32 (wrapu64 v)) 32)
    | apply (first_ge_mono 34); [lia|apply putBlock_first]
    | apply (first_ge_mono 42); [lia|apply putBlock_first]
    | apply (first_ge_mono 42); [lia|apply first_ge_tag]
    | apply (first_ge_mono 50); [lia|apply first_ge_tag]
    | apply (first_ge_mono 50); [lia|apply (optional_first (putDelimited 50))]
    | apply (first_ge_mono 58); [lia|apply (optional_first (putDelimited 58))] ].

Lemma int32_int64 v : int32 v -> int64 v.
Proof. int_lia. Qed.

Lemma cvote_write_inj m m' w :
  cvote_typed m -> cvote_typed m' ->
  CanonicalVote_write m = inr w -> CanonicalVote_write m' = inr w -> m = m'.
Proof.
  intros [T1 T2 T3 T4 T5] [T1' T2' T3' T4' T5'] Hw Hw'. unfold CanonicalVote_write in Hw, Hw'.
  destruct (StdTimeMarshal (cvTimestamp m)) as [|t] eqn:Et; [done|].
  destruct (StdTimeMarshal (cvTimestamp m')) as [|t'] eqn:Et'; [done|].
  injection Hw as Hw. injection Hw' as <-.
  apply (optional_int (fun v => putVarint 8 (wrapu64 v)) 8) in Hw as [E1 Hw];
    [|lia|eauto with proto| |in_order..].
  2:{ intros [E ->]%putVarint_inj; [|eauto with proto..]. split; [|done].
      by apply wrapu64_inj64; [apply int32_int64..|]. }
  apply (optional_int (putSfixed64 17) 17) in Hw as [E2 Hw];
    [|lia|eauto with proto|by apply putSfixed64_inj|in_order..].
  apply (optional_int (putSfixed64 25) 25) in Hw as [E3 Hw];
    [|lia|eauto with proto|by apply putSfixed64_inj|in_order..].
  apply putBlock_inj in Hw as [E4 Hw]; [|lia|done|done|in_order..].
  apply putDelimited_inj in Hw as [-> Hw]; [|by eapply std_fits..].
  apply optional_bytes in Hw as [E5 _]; [|lia|eauto with proto..|done|done].
  pose proof (std_inj _ laws _ _ _ Et Et') as E6.
  destruct m, m'. simpl in *. congruence.
Qed.

Lemma cproposal_write_inj m m' w :
  cproposal_typed m -> cproposal_typed m' ->
  CanonicalProposal_write m = inr w -> CanonicalProposal_write m' = inr w -> m = m'.
Proof.
  intros [T1 T2 T3 T6 T4 T5] [T1' T2' T3' T6' T4' T5'] Hw Hw'. unfold CanonicalProposal_write in Hw, Hw'.
  destruct (StdTimeMarshal (cpTimestamp m)) as [|t] eqn:Et; [done|].
  destruct (StdTimeMarshal (cpTimestamp m')) as [|t'] eqn:Et'; [done|].
  injection Hw as Hw. injection Hw' as <-.
  apply (optional_int (fun v => putVarint 8 (wrapu64 v)) 8) in Hw as [E1 Hw];
    [|lia|eauto with proto| |in_order..].
  2:{ intros [E ->]%putVarint_inj; [|eauto with proto..]. split; [|done].
      by apply wrapu64_inj64; [apply int32_int64..|]. }
  apply (optional_int (putSfixed64 17) 17) in Hw as [E2 Hw];
    [|lia|eauto with proto|by apply putSfixed64_inj|in_order..].
  apply (optional_int (putSfixed64 25) 25) in Hw as [E3 Hw];
    [|lia|eauto with proto|by apply putSfixed64_inj|in_order..].
  apply (optional_int (fun v => putVarint 32 (wrapu64 v)) 32) in Hw as [E7 Hw];
    [|lia|eauto with proto| |in_order..].
  2:{ intros [E ->]%putVarint_inj; [|eauto with proto..]. split; [|done]. by apply wrapu64_inj64. }
  apply putBlock_inj in Hw as [E4 Hw]; [|lia|done|done|in_order..].
  apply putDelimited_inj in Hw as [-> Hw]; [|by eapply std_fits..].
  apply optional_bytes in Hw as [E5 _]; [|lia|eauto with proto..|done|done].
  pose proof (std_inj _ laws _ _ _ Et Et') as E6.
  destruct m, m'. simpl in *. congruence.
Qed.

(** ** Sign bytes of votes and proposals *)

Definition blockID_typed (b : BlockID) : Prop := uint32 (pshTotal (bidPartSetHeader b)).

Record vote_typed (v : Vote) : Prop := {
  vt_type : int32 (vType v);
  vt_height : int64 (vHeight v);
  vt_round : int32 (vRound v);
  vt_block : blockID_typed (vBlockID v)
}.

Record proposal_typed (p : Proposal) : Prop := {
  pt_height : int64 (pHeight p);
  pt_round : int32 (pRound p);
  pt_pol : int32 (pPOLRound p);
  pt_block : blockID_typed (pBlockID p)
}.

Lemma ValidateHash_small h : ValidateHash h = None -> small h.
Proof.
  unfold ValidateHash, tmhashSize, small. destruct (Z.ltb_spec 0 (Z.of_nat (length h))); simpl; [|lia].
  destruct (Z.eqb_spec (Z.of_nat (length h)) 32); simpl; [lia|done].
Qed.

Lemma blockID_valid_small b :
  BlockID_ValidateBasic b = None -> small (bidHash b) /\ small (pshHash (bidPartSetHeader b)).
Proof.
  unfold BlockID_ValidateBasic, PartSetHeader_ValidateBasic.
  destruct (ValidateHash (bidHash b)) eqn:E1; [done|].
  destruct (ValidateHash (pshHash _)) eqn:E2; [done|]. eauto using ValidateHash_small.
Qed.

Lemma BlockID_roundtrip b :
  BlockIDFromProto (Some (BlockID_ToProto (Some b)))
  = match BlockID_ValidateBasic b with
    | None => inr b
    | Some _ => BlockIDFromProto (Some (BlockID_ToProto (Some b)))
    end.
Proof.
  destruct (BlockID_ValidateBasic b) eqn:E; [done|]. destruct b as [h [t ph]]. simpl.
  unfold BlockID_ValidateBasic in E. simpl in E.
  destruct (ValidateHash h) eqn:E1; [done|].
  destruct (PartSetHeader_ValidateBasic (mkPartSetHeader t ph)) eqn:E2; [done|]. simpl.
  unfold BlockID_ValidateBasic. simpl. by rewrite E1, E2.
Qed.

Lemma BlockIDFromProto_valid b r :
  BlockIDFromProto (Some (BlockID_ToProto (Some b))) = inr r -> r = b /\ BlockID_ValidateBasic b = None.
Proof.
  destruct b as [h [t ph]]. simpl.
  destruct (PartSetHeader_ValidateBasic (mkPartSetHeader t ph)); [done|].
  destruct (BlockID_ValidateBasic _) eqn:E; [done|]. by intros [= <-].
Qed.

Lemma IsZero_eq b : BlockID_IsZero b = true -> b = zeroBlockID.
Proof.
  destruct b as [h [t ph]]. unfold BlockID_IsZero, PartSetHeader_IsZero. simpl.
  rewrite !andb_true_iff, Z.eqb_eq, !Nat.eqb_eq.
  intros (H1 & -> & H2). by destruct h, ph.
Qed.

(** The canonical block of a vote or proposal determines its block. *)
Lemma CanonicalizeBlockID_inj b b' c :
  CanonicalizeBlockID (BlockID_ToProto (Some b)) = Done c ->
  CanonicalizeBlockID (BlockID_ToProto (Some b')) = Done c -> b = b'.
Proof.
  unfold CanonicalizeBlockID.
  destruct (BlockIDFromProto (Some (BlockID_ToProto (Some b)))) as [|r] eqn:E; [done|].
  destruct (BlockIDFromProto (Some (BlockID_ToProto (Some b')))) as [|r'] eqn:E'; [done|].
  apply BlockIDFromProto_valid in E as [-> _]. apply BlockIDFromProto_valid in E' as [-> _].
  destruct (BlockID_IsZero b) eqn:Ez, (BlockID_IsZero b') eqn:Ez'; intros [= <-] [=].
  - by rewrite (IsZero_eq _ Ez), (IsZero_eq _ Ez').
  - destruct b as [h [t ph]], b' as [h' [t' ph']]. simpl in *. congruence.
Qed.

Lemma CanonicalizeBlockID_typed b c :
  blockID_typed b -> CanonicalizeBlockID (BlockID_ToProto (Some b)) = Done c -> oblock_typed c.
Proof.
  intros Ht. unfold CanonicalizeBlockID.
  destruct (BlockIDFromProto (Some (BlockID_ToProto (Some b)))) as [|r] eqn:E; [done|].
  apply BlockIDFromProto_valid in E as [-> Hv]. apply blockID_valid_small in Hv as [H1 H2].
  destruct (BlockID_IsZero b); intros [= <-]; [done|]. by split_and!.
Qed.

Lemma CanonicalizeBlockID_Done b :
  BlockID_ValidateBasic b = None -> exists c, CanonicalizeBlockID (BlockID_ToProto (Some b)) = Done c.
Proof.
  intros Hv. unfold CanonicalizeBlockID. rewrite BlockID_roundtrip, Hv.
  destruct (BlockID_IsZero b); eauto.
Qed.

(** The sign bytes are the length-prefixed canonical encoding. *)
Lemma VoteSignBytes_inv chainID v bz :
  vote_typed v -> small chainID -> VoteSignBytes chainID (Vote_ToProto v) = Done bz ->
  exists c w, CanonicalizeBlockID (BlockID_ToProto (Some (vBlockID v))) = Done c /\
    let m := mkCanonicalVote (vType v) (vHeight v) (vRound v) c (vTimestamp v) chainID in
    cvote_typed m /\ CanonicalVote_write m = inr w /\
    bz = encodeVarint (Z.of_nat (length w)) ++ w.
Proof.
  intros [T1 T2 T3 T4] Hc E. unfold VoteSignBytes, CanonicalizeVote in E. simpl in E.
  change (mkProtoBlockID _ _) with (BlockID_ToProto (Some (vBlockID v))) in E.
  destruct (CanonicalizeBlockID (BlockID_ToProto (Some (vBlockID v)))) as [c|] eqn:Ec; [|done].
  rewrite !bind_Done in E. set (m := mkCanonicalVote _ _ _ _ _ _) in E.
  destruct (CanonicalVote_write m) as [|w] eqn:Ew; [done|].
  assert (cvote_typed m) as Hm.
  { split; simpl; try done; [by apply int32_int64|by eapply CanonicalizeBlockID_typed]. }
  rewrite (cvote_Size_length m w Hm Ew), marshalDelimited_exact in E. injection E as <-. by exists c, w.
Qed.

Lemma ProposalSignBytes_inv chainID p bz :
  proposal_typed p -> small chainID ->
  ProposalSignBytes chainID (Proposal_ToProto (Some p)) = Done bz ->
  exists c w, CanonicalizeBlockID (BlockID_ToProto (Some (pBlockID p))) = Done c /\
    let m := mkCanonicalProposal ProposalType (pHeight p) (pRound p) (pPOLRound p) c
               (pTimestamp p) chainID in
    cproposal_typed m /\ CanonicalProposal_write m = inr w /\
    bz = encodeVarint (Z.of_nat (length w)) ++ w.
Proof.
  intros [T1 T2 T3 T4] Hc E. unfold ProposalSignBytes, CanonicalizeProposal in E. simpl in E.
  change (mkProtoBlockID _ _) with (BlockID_ToProto (Some (pBlockID p))) in E.
  destruct (CanonicalizeBlockID (BlockID_ToProto (Some (pBlockID p)))) as [c|] eqn:Ec; [|done].
  rewrite !bind_Done in E. set (m := mkCanonicalProposal _ _ _ _ _ _ _) in E.
  destruct (CanonicalProposal_write m) as [|w] eqn:Ew; [done|].
  assert (cproposal_typed m) as Hm.
  { split; simpl; try done; [by apply int32_int64..|by eapply CanonicalizeBlockID_typed]. }
  rewrite (cproposal_Size_length m w Hm Ew), marshalDelimited_exact in E. injection E as <-.
  by exists c, w.
Qed.

(** Written messages are small enough for their length prefix. *)
Lemma block_write_small b :
  cblock_typed b -> Z.of_nat (length (CanonicalBlockID_write b)) < 2 ^ 33.
Proof.
  intros (H1 & H2 & H3). destruct (blockID_Size_length b H1 H2 H3) as (E & Hf & _). rewrite <- E.
  destruct (psh_Size_length _ H1 H2) as [Es Hs]. unfold CanonicalBlockID_Size. rewrite nonempty_ltb, Es.
  pose proof (sov_bound _ (fits_uint64 _ Hf)).
  pose proof (sov_bound _ (fits_uint64 _ (small_fits _ H3))). unfold small in *.
  destruct (_ <? _)%nat; lia.
Qed.

Lemma cvote_write_fits m w : cvote_typed m -> CanonicalVote_write m = inr w -> fits w.
Proof.
  intros Hm Hw. pose proof (cvote_Size_length m w Hm Hw) as E. destruct Hm as [_ _ _ Hb Hc].
  unfold fits. rewrite <- E. unfold CanonicalVote_write in Hw. unfold CanonicalVote_Size.
  destruct (StdTimeMarshal (cvTimestamp m)) as [|t] eqn:Et; [done|].
  rewrite (std_size _ laws _ _ Et), nonempty_ltb.
  pose proof (sov_bound _ (wrapu64_range (cvType m))).
  pose proof (sov_bound _ (fits_uint64 _ (small_fits _ Hc))).
  pose proof (std_small _ laws _ _ Et). pose proof (sov_bound _ (fits_uint64 _ (std_fits _ _ Et))).
  unfold small in *. destruct (cvBlockID m) as [b|].
  - pose proof (block_write_small b Hb). destruct Hb as (Hb1 & Hb2 & Hb3).
    destruct (blockID_Size_length b Hb1 Hb2 Hb3) as (-> & _ & Hf).
    pose proof (sov_bound _ (fits_uint64 _ Hf)).
    repeat (match goal with |- context [if ?c then _ else _] => destruct c end); lia.
  - repeat (match goal with |- context [if ?c then _ else _] => destruct c end); lia.
Qed.

Lemma cproposal_write_fits m w : cproposal_typed m -> CanonicalProposal_write m = inr w -> fits w.
Proof.
  intros Hm Hw. pose proof (cproposal_Size_length m w Hm Hw) as E. destruct Hm as [_ _ _ _ Hb Hc].
  unfold fits. rewrite <- E. unfold CanonicalProposal_write in Hw. unfold CanonicalProposal_Size.
  destruct (StdTimeMarshal (cpTimestamp m)) as [|t] eqn:Et; [done|].
  rewrite (std_size _ laws _ _ Et), nonempty_ltb.
  pose proof (sov_bound _ (wrapu64_range (cpType m))).
  pose proof (sov_bound _ (wrapu64_range (cpPOLRound m))).
  pose proof (sov_bound _ (fits_uint64 _ (small_fits _ Hc))).
  pose proof (std_small _ laws _ _ Et). pose proof (sov_bound _ (fits_uint64 _ (std_fits _ _ Et))).
  unfold small in *. destruct (cpBlockID m) as [b|].
  - pose proof (block_write_small b Hb). destruct Hb as (Hb1 & Hb2 & Hb3).
    destruct (blockID_Size_length b Hb1 Hb2 Hb3) as (-> & _ & Hf).
    pose proof (sov_bound _ (fits_uint64 _ Hf)).
    repeat (match goal with |- context [if ?c then _ else _] => destruct c end); lia.
  - repeat (match goal with |- context [if ?c then _ else _] => destruct c end); lia.
Qed.

Lemma delimited_inj w w' :
  fits w -> fits w' ->
  encodeVarint (Z.of_nat (length w)) ++ w = encodeVarint (Z.of_nat (length w')) ++ w' -> w = w'.
Proof. intros Hf Hf' E. by apply encodeVarint_prefix in E as [_ ?]; [|apply fits_uint64..]. Qed.

(** The first field of both messages is the type. *)
Lemma write_type_neq m m' w :
  cvote_typed m -> cproposal_typed m' -> cvType m <> 0 -> cpType m' <> 0 ->
  CanonicalVote_write m = inr w -> CanonicalProposal_write m' = inr w -> cvType m = cpType m'.
Proof.
  intros Tm Tm' Hn Hn' Hw Hw'. unfold CanonicalVote_write in Hw. unfold CanonicalProposal_write in Hw'.
  destruct (StdTimeMarshal (cvTimestamp m)) as [|t]; [done|].
  destruct (StdTimeMarshal (cpTimestamp m')) as [|t']; [done|].
  injection Hw as Hw. injection Hw' as Hw'. rewrite <- Hw in Hw'.
  rewrite (proj2 (Z.eqb_neq (cvType m) 0) Hn), (proj2 (Z.eqb_neq (cpType m') 0) Hn') in Hw'.
  cbn [negb] in Hw'.
  apply putVarint_inj in Hw' as [E _]; [|apply wrapu64_range..]. symmetry.
  apply wrapu64_inj64; [by apply int32_int64, Tm'|by apply int32_int64, Tm|done].
Qed.

End sizes.

Lemma vote_sign_bytes_inj {ST : StdTime} chainID chainID' v v' bz :
  StdTimeLaws ST -> vote_typed v -> vote_typed v' -> small chainID -> small chainID' ->
  VoteSignBytes chainID (Vote_ToProto v) = Done bz ->
  VoteSignBytes chainID' (Vote_ToProto v') = Done bz ->
  chainID = chainID' /\ vType v = vType v' /\ vHeight v = vHeight v' /\ vRound v = vRound v' /\
  vBlockID v = vBlockID v' /\ vTimestamp v = vTimestamp v'.
Proof.
  intros laws Tv Tv' Hc Hc' E E'.
  apply VoteSignBytes_inv in E as (c & w & Ec & Tm & Ew & Eb); [|done..].
  apply VoteSignBytes_inv in E' as (c' & w' & Ec' & Tm' & Ew' & Eb'); [|done..].
  rewrite Eb' in Eb.
  apply delimited_inj in Eb as ->; [|exact (cvote_write_fits laws _ _ Tm' Ew')|exact (cvote_write_fits laws _ _ Tm Ew)].
  pose proof (cvote_write_inj laws _ _ _ Tm Tm' Ew Ew') as [= E1 E2 E3 E4 E5 E6].
  rewrite <- E4 in Ec'. by rewrite (CanonicalizeBlockID_inj _ _ _ Ec Ec').
Qed.

Lemma proposal_sign_bytes_inj {ST : StdTime} chainID chainID' p p' bz :
  StdTimeLaws ST -> proposal_typed p -> proposal_typed p' -> small chainID -> small chainID' ->
  ProposalSignBytes chainID (Proposal_ToProto (Some p)) = Done bz ->
  ProposalSignBytes chainID' (Proposal_ToProto (Some p')) = Done bz ->
  chainID = chainID' /\ pHeight p = pHeight p' /\ pRound p = pRound p' /\
  pPOLRound p = pPOLRound p' /\ pBlockID p = pBlockID p' /\ pTimestamp p = pTimestamp p'.
Proof.
  intros laws Tp Tp' Hc Hc' E E'.
  apply ProposalSignBytes_inv in E as (c & w & Ec & Tm & Ew & Eb); [|done..].
  apply ProposalSignBytes_inv in E' as (c' & w' & Ec' & Tm' & Ew' & Eb'); [|done..].
  rewrite Eb' in Eb.
  apply delimited_inj in Eb as ->; [|exact (cproposal_write_fits laws _ _ Tm' Ew')|exact (cproposal_write_fits laws _ _ Tm Ew)].
  pose proof (cproposal_write_inj laws _ _ _ Tm Tm' Ew Ew') as [= E1 E2 E3 E4 E5 E6].
  rewrite <- E4 in Ec'. by rewrite (CanonicalizeBlockID_inj _ _ _ Ec Ec').
Qed.

(** ** Claims *)

(** [C31] A vote's sign bytes determine the chain, the vote's type,
    height, round, block and time.  A signature over them can therefore not be
    used for a different vote: two votes that differ in any of these, or are
    for different chains, have different sign bytes. *)
Theorem VoteSignBytes_injective {ST : StdTime} chainID chainID' v v' bz :
  StdTimeLaws ST -> vote_typed v -> vote_typed v' -> small chainID -> small chainID' ->
  VoteSignBytes chainID (Vote_ToProto v) = Done bz ->
  VoteSignBytes chainID' (Vote_ToProto v') = Done bz ->
  chainID = chainID' /\ vType v = vType v' /\ vHeight v = vHeight v' /\ vRound v = vRound v' /\
  vBlockID v = vBlockID v' /\ vTimestamp v = vTimestamp v'.
Proof. apply vote_sign_bytes_inj. Qed.

(** An encoding of times with the documented laws: seconds and nanoseconds
    since the zero time, in 64 bits each. *)
Definition exampleStdTime : StdTime := {|
  SizeOfStdTime := fun t => if bool_decide (uint64 ((t - zeroTime) / 10 ^ 9)) then 16 else 0;
  StdTimeMarshal := fun t =>
    if bool_decide (uint64 ((t - zeroTime) / 10 ^ 9))
    then inr (putUint64LE ((t - zeroTime) / 10 ^ 9) ++ putUint64LE ((t - zeroTime) mod 10 ^ 9))
    else inl "out of range"
|}.

Lemma exampleStdTime_laws : StdTimeLaws exampleStdTime.
Proof.
  split; unfold StdTimeMarshal, SizeOfStdTime, exampleStdTime; intros t.
  - intros bz. case_bool_decide; [|done]. by intros [= <-].
  - intros bz. case_bool_decide; [|done]. by intros [= <-].
  - intros t' bz. case_bool_decide; [|done]. case_bool_decide; [|done]. intros Et Et'.
    assert (forall u, uint64 (u mod 10 ^ 9)) as Hm
      by (intros u; pose proof (Z.mod_pos_bound u (10 ^ 9)); unfold uint64; lia).
    apply (inj inr) in Et, Et'. rewrite <- Et' in Et.
    apply app_inv_same_length in Et as [E1 E2]; [|done].
    apply putUint64LE_inj in E1; [|done..]. apply putUint64LE_inj in E2; [|done..].
    pose proof (Z.div_mod (t - zeroTime) (10 ^ 9)). pose proof (Z.div_mod (t' - zeroTime) (10 ^ 9)). lia.
Qed.

Definition exampleHash (n : Z) : bytes := replicate 32 (byte_of_Z n).
Definition exampleBlockID : BlockID := mkBlockID (exampleHash 7) (mkPartSetHeader 1 (exampleHash 8)).
Definition exampleVote : Vote :=
  mkVote PrecommitType 5 1 exampleBlockID 1000 (replicate 20 (byte_of_Z 1)) 0 [byte_of_Z 9].
Definition exampleChain : bytes := [byte_of_Z 97; byte_of_Z 98].

Lemma exampleVote_typed : vote_typed exampleVote.
Proof. split; by vm_compute. Qed.

Lemma VoteSignBytes_injective_witness :
  exists bz, VoteSignBytes (ST := exampleStdTime) exampleChain (Vote_ToProto exampleVote) = Done bz /\
    (forall v', vote_typed v' ->
       VoteSignBytes (ST := exampleStdTime) exampleChain (Vote_ToProto v') = Done bz ->
       vBlockID v' = exampleBlockID).
Proof.
  eexists. split; [vm_compute; reflexivity|]. intros v' Tv E.
  symmetry. eapply (VoteSignBytes_injective (ST := exampleStdTime) exampleChain exampleChain exampleVote v');
    [apply exampleStdTime_laws|apply exampleVote_typed|exact Tv|done|done| |exact E].
  vm_compute. reflexivity.
Defined.

(** A proposal's sign bytes determine the chain, height,
    round, proof-of-lock round, block and time, and the sign bytes of a vote
    are never those of a proposal. *)
Theorem ProposalSignBytes_separate {ST : StdTime} chainID chainID' p bz :
  StdTimeLaws ST -> proposal_typed p -> small chainID -> small chainID' ->
  ProposalSignBytes chainID (Proposal_ToProto (Some p)) = Done bz ->
  (forall p', proposal_typed p' ->
     ProposalSignBytes chainID' (Proposal_ToProto (Some p')) = Done bz ->
     chainID = chainID' /\ pHeight p = pHeight p' /\ pRound p = pRound p' /\
     pPOLRound p = pPOLRound p' /\ pBlockID p = pBlockID p' /\ pTimestamp p = pTimestamp p') /\
  (forall v, vote_typed v -> IsVoteTypeValid (vType v) = true ->
     VoteSignBytes chainID' (Vote_ToProto v) <> Done bz).
Proof.
  intros laws Tp Hc Hc' E. split.
  - intros p' Tp' E'. by eapply proposal_sign_bytes_inj.
  - intros v Tv Hty E'.
    apply ProposalSignBytes_inv in E as (c & w & Ec & Tm & Ew & Eb); [|done..].
    apply VoteSignBytes_inv in E' as (c' & w' & Ec' & Tm' & Ew' & Eb'); [|done..].
    rewrite Eb' in Eb. apply delimited_inj in Eb as ->;
      [|exact (cvote_write_fits laws _ _ Tm' Ew')|exact (cproposal_write_fits laws _ _ Tm Ew)].
    pose proof (fun H1 H2 => write_type_neq _ _ w Tm' Tm H1 H2 Ew' Ew) as Ety. simpl in Ety. unfold ProposalType in Ety.
    apply orb_true_iff in Hty as [Hty%Z.eqb_eq|Hty%Z.eqb_eq]; rewrite Hty in Ety;
      by specialize (Ety ltac:(done) ltac:(done)).
Qed.

Definition exampleProposal : Proposal :=
  mkProposal ProposalType 5 1 (-1) exampleBlockID 1000 [byte_of_Z 9].

Lemma ProposalSignBytes_separate_witness :
  exists bz, ProposalSignBytes (ST := exampleStdTime) exampleChain (Proposal_ToProto (Some exampleProposal))
             = Done bz /\
    VoteSignBytes (ST := exampleStdTime) exampleChain (Vote_ToProto exampleVote) <> Done bz.
Proof.
  eexists. split; [vm_compute; reflexivity|].
  eapply (ProposalSignBytes_separate (ST := exampleStdTime) exampleChain exampleChain exampleProposal);
    [apply exampleStdTime_laws|split; by vm_compute|done|done|vm_compute; reflexivity
    |apply exampleVote_typed|done].
Defined.
