(* ===== verification/Header.v ===== *)
(** * Block headers

    The header, its hash and the signed header of types/block.go, [cdcEncode]
    of types/encoding_helper.go and the block meta data of types/block_meta.go.
    The three hashes that [fillHeader] tests for nil are options. *)

From Stdlib Require Import ZArith Lia.
From S2P Require Import Prelude Proto BitArray Validator BlockTypes SignBytes Merkle PartSet.
From stdpp Require Import base gmap list option strings numbers sorting.

Local Open Scope Z_scope.

Definition MaxChainIDLen : Z := 50.

(** [tmversion.Consensus] and its generated encoder *)
Record Version := mkVersion { verBlock : Z; verApp : Z }.

Definition Version_write (m : Version) : bytes :=
  let w := if negb (verApp m =? 0) then putVarint 16 (verApp m) [] else [] in
  if negb (verBlock m =? 0) then putVarint 8 (verBlock m) w else w.

Definition Version_Size (m : Version) : Z :=
  let n := if negb (verBlock m =? 0) then 1 + sov (verBlock m) else 0 in
  if negb (verApp m =? 0) then n + (1 + sov (verApp m)) else n.

Definition Version_Marshal (m : Version) : outcome bytes :=
  marshalSized (Version_Size m) (Version_write m).

(** [tmproto.BlockID.Marshal] *)
Definition protoBlockID_write (m : protoBlockID) : bytes :=
  let w := putDelimited 18 (protoPartSetHeader_write (pbidPartSetHeader m)) [] in
  if (0 <? length (pbidHash m))%nat then putDelimited 10 (pbidHash m) w else w.

Definition protoBlockID_Size (m : protoBlockID) : Z :=
  let l := Z.of_nat (length (pbidHash m)) in
  let n := if 0 <? l then 1 + l + sov l else 0 in
  let l := protoPartSetHeader_Size (pbidPartSetHeader m) in
  n + (1 + l + sov l).

Definition protoBlockID_Marshal (m : protoBlockID) : outcome bytes :=
  marshalSized (protoBlockID_Size m) (protoBlockID_write m).

(** The wrapper messages of gogo/protobuf: [StringValue], [Int64Value] and
    [BytesValue]. *)
Class Wrappers := {
  StringValue_Marshal : bytes -> result bytes;
  Int64Value_Marshal : Z -> result bytes;
  BytesValue_Marshal : bytes -> result bytes
}.

(** A proto3 scalar has one encoding, which is empty for the zero value. *)
Record WrappersLaws (W : Wrappers) : Prop := {
  string_total : forall x, exists bz, StringValue_Marshal x = inr bz;
  int64_total : forall x, exists bz, Int64Value_Marshal x = inr bz;
  bytes_total : forall x, exists bz, BytesValue_Marshal x = inr bz;
  string_zero : StringValue_Marshal [] = inr [];
  bytes_zero : BytesValue_Marshal [] = inr [];
  string_inj : forall x y, fits x -> fits y -> StringValue_Marshal x = StringValue_Marshal y -> x = y;
  int64_inj : forall x y, int64 x -> int64 y -> Int64Value_Marshal x = Int64Value_Marshal y -> x = y;
  bytes_inj : forall x y, fits x -> fits y -> BytesValue_Marshal x = BytesValue_Marshal y -> x = y
}.

Record Header := mkHeader {
  hVersion : Version;
  hChainID : bytes;
  hHeight : Z;
  hTime : Time;
  hLastBlockID : BlockID;
  hLastCommitHash : option bytes;
  hDataHash : option bytes;
  hValidatorsHash : bytes;
  hNextValidatorsHash : bytes;
  hConsensusHash : bytes;
  hAppHash : bytes;
  hResultsHash : bytes;
  hEvidenceHash : option bytes;
  hProposerAddress : bytes
}.

(** [bytes.Equal] and [len] on a slice that may be nil *)
Definition sliceOf (o : option bytes) : bytes := default [] o.

Definition Header_Populate (h : Header) (version : Version) (chainID : bytes) (timestamp : Time)
    (lastBlockID : BlockID) (valHash nextValHash consensusHash appHash resultsHash proposerAddress : bytes)
    : Header :=
  mkHeader version chainID (hHeight h) timestamp lastBlockID (hLastCommitHash h) (hDataHash h)
    valHash nextValHash consensusHash appHash resultsHash (hEvidenceHash h) proposerAddress.

(** [if err := ValidateHash(x); err != nil { return ... }; rest] *)
Definition checkHash (what : string) (h : bytes) (rest : option error) : option error :=
  match ValidateHash h with Some _ => Some what | None => rest end.

Definition Header_ValidateBasic (h : Header) : option error :=
  if MaxChainIDLen <? Z.of_nat (length (hChainID h)) then Some "chainID is too long"
  else if hHeight h <? 0 then Some "negative Height"
  else if hHeight h =? 0 then Some "zero Height"
  else match BlockID_ValidateBasic (hLastBlockID h) with
  | Some err => Some ("wrong LastBlockID: " +:+ err)
  | None =>
    checkHash "wrong LastCommitHash" (sliceOf (hLastCommitHash h)) (
    checkHash "wrong DataHash" (sliceOf (hDataHash h)) (
    checkHash "wrong EvidenceHash" (sliceOf (hEvidenceHash h)) (
    if negb (Z.of_nat (length (hProposerAddress h)) =? AddressSize)
    then Some "invalid ProposerAddress length"
    else
    checkHash "wrong ValidatorsHash" (hValidatorsHash h) (
    checkHash "wrong NextValidatorsHash" (hNextValidatorsHash h) (
    checkHash "wrong ConsensusHash" (hConsensusHash h) (
    checkHash "wrong ResultsHash" (hResultsHash h) None))))))
  end.

Section header.
Context {TH : TmHash} {ST : StdTime} {W : Wrappers}.

(** [cdcEncode] of a string, an [int64] and a byte slice *)
Definition cdcEncodeString (item : bytes) : bytes :=
  if (length item =? 0)%nat then []
  else match StringValue_Marshal item with inl _ => [] | inr bz => bz end.
Definition cdcEncodeInt64 (item : Z) : bytes :=
  match Int64Value_Marshal item with inl _ => [] | inr bz => bz end.
Definition cdcEncodeBytes (item : bytes) : bytes :=
  if (length item =? 0)%nat then []
  else match BytesValue_Marshal item with inl _ => [] | inr bz => bz end.

(** The leaves of the header's tree *)
Definition headerFields (h : Header) (hbz pbt bzbi : bytes) : list bytes :=
  [hbz; cdcEncodeString (hChainID h); cdcEncodeInt64 (hHeight h); pbt; bzbi;
   cdcEncodeBytes (sliceOf (hLastCommitHash h)); cdcEncodeBytes (sliceOf (hDataHash h));
   cdcEncodeBytes (hValidatorsHash h); cdcEncodeBytes (hNextValidatorsHash h);
   cdcEncodeBytes (hConsensusHash h); cdcEncodeBytes (hAppHash h); cdcEncodeBytes (hResultsHash h);
   cdcEncodeBytes (sliceOf (hEvidenceHash h)); cdcEncodeBytes (hProposerAddress h)].

(** The hash, empty for nil *)
Definition Header_Hash (h : option Header) : outcome bytes :=
  match h with
  | None => Done []
  | Some h =>
    if (length (hValidatorsHash h) =? 0)%nat then Done []
    else
      let! hbz := Version_Marshal (hVersion h) in
      match StdTimeMarshal (hTime h) with
      | inl _ => Done []
      | inr pbt =>
        let! bzbi := protoBlockID_Marshal (BlockID_ToProto (Some (hLastBlockID h))) in
        HashFromByteSlices (headerFields h hbz pbt bzbi)
      end
  end.

(** [tmproto.Header] *)
Record protoHeader := mkProtoHeader {
  phVersion : Version;
  phChainID : bytes;
  phHeight : Z;
  phTime : Time;
  phLastBlockId : protoBlockID;
  phLastCommitHash : option bytes;
  phDataHash : option bytes;
  phValidatorsHash : bytes;
  phNextValidatorsHash : bytes;
  phConsensusHash : bytes;
  phAppHash : bytes;
  phResultsHash : bytes;
  phEvidenceHash : option bytes;
  phProposerAddress : bytes
}.

Definition Header_ToProto (h : option Header) : option protoHeader :=
  match h with
  | None => None
  | Some h =>
    Some (mkProtoHeader (hVersion h) (hChainID h) (hHeight h) (hTime h)
      (BlockID_ToProto (Some (hLastBlockID h))) (hLastCommitHash h) (hDataHash h) (hValidatorsHash h)
      (hNextValidatorsHash h) (hConsensusHash h) (hAppHash h) (hResultsHash h) (hEvidenceHash h)
      (hProposerAddress h))
  end.

Definition HeaderFromProto (ph : option protoHeader) : result Header :=
  match ph with
  | None => inl "nil Header"
  | Some ph =>
    match BlockIDFromProto (Some (phLastBlockId ph)) with
    | inl err => inl err
    | inr bi =>
      let h := mkHeader (phVersion ph) (phChainID ph) (phHeight ph) (phTime ph) bi
        (phLastCommitHash ph) (phDataHash ph) (phValidatorsHash ph) (phNextValidatorsHash ph)
        (phConsensusHash ph) (phAppHash ph) (phResultsHash ph) (phEvidenceHash ph)
        (phProposerAddress ph) in
      match Header_ValidateBasic h with Some err => inl err | None => inr h end
    end
  end.

(** ** Signed headers *)

Record SignedHeader := mkSignedHeader { shHeader : option Header; shCommit : option Commit }.

Definition SignedHeader_ValidateBasic (sh : SignedHeader) (chainID : bytes) : outcome (option error) :=
  match shHeader sh, shCommit sh with
  | None, _ => Done (Some "missing header")
  | _, None => Done (Some "missing commit")
  | Some h, Some c =>
    match Header_ValidateBasic h with
    | Some err => Done (Some ("invalid header: " +:+ err))
    | None =>
      match Commit_ValidateBasic c with
      | Some err => Done (Some ("invalid commit: " +:+ err))
      | None =>
        if negb (bool_decide (hChainID h = chainID)) then Done (Some "header belongs to another chain")
        else if negb (cHeight c =? hHeight h) then Done (Some "header and commit height mismatch")
        else
          let! hhash := Header_Hash (Some h) in
          if negb (bool_decide (hhash = bidHash (cBlockID c)))
          then Done (Some "commit signs another block") else Done None
      end
    end
  end.

Definition SignedHeader_ToProto (sh : option SignedHeader)
    : option (option protoHeader * option protoCommit) :=
  match sh with
  | None => None
  | Some sh => Some (Header_ToProto (shHeader sh), Commit_ToProto (shCommit sh))
  end.

Definition SignedHeaderFromProto (shp : option (option protoHeader * option protoCommit))
    : outcome (result SignedHeader) :=
  match shp with
  | None => Done (inl "nil SignedHeader")
  | Some (ph, pc) =>
    let withCommit (h : option Header) : outcome (result SignedHeader) :=
      match pc with
      | None => Done (inr (mkSignedHeader h None))
      | Some pc =>
        let! c := CommitFromProto (Some pc) in
        match c with
        | inl err => Done (inl err)
        | inr c => Done (inr (mkSignedHeader h (Some c)))
        end
      end in
    match ph with
    | None => withCommit None
    | Some ph =>
      match HeaderFromProto (Some ph) with
      | inl err => Done (inl err)
      | inr h => withCommit (Some h)
      end
    end
  end.

(** ** Block meta data *)

Record BlockMeta := mkBlockMeta { bmBlockID : BlockID; bmBlockSize : Z; bmHeader : Header; bmNumTxs : Z }.

(** [tmproto.BlockMeta] *)
Record protoBlockMeta := mkProtoBlockMeta {
  pbmBlockID : protoBlockID; pbmBlockSize : Z; pbmHeader : protoHeader; pbmNumTxs : Z
}.

Definition BlockMeta_ValidateBasic (bm : BlockMeta) : outcome (option error) :=
  match BlockID_ValidateBasic (bmBlockID bm) with
  | Some err => Done (Some err)
  | None =>
    let! h := Header_Hash (Some (bmHeader bm)) in
    if negb (bool_decide (bidHash (bmBlockID bm) = h))
    then Done (Some "expected BlockID#Hash and Header#Hash to be the same") else Done None
  end.

Definition BlockMeta_ToProto (bm : option BlockMeta) : option protoBlockMeta :=
  match bm with
  | None => None
  | Some bm =>
    match Header_ToProto (Some (bmHeader bm)) with
    | None => None
    | Some ph => Some (mkProtoBlockMeta (BlockID_ToProto (Some (bmBlockID bm))) (bmBlockSize bm) ph (bmNumTxs bm))
    end
  end.

Definition BlockMetaFromProto (pb : option protoBlockMeta) : outcome (result BlockMeta) :=
  match pb with
  | None => Done (inl "blockmeta is empty")
  | Some pb =>
    match BlockIDFromProto (Some (pbmBlockID pb)) with
    | inl err => Done (inl err)
    | inr bi =>
      match HeaderFromProto (Some (pbmHeader pb)) with
      | inl err => Done (inl err)
      | inr h =>
        let bm := mkBlockMeta bi (pbmBlockSize pb) h (pbmNumTxs pb) in
        let! err := BlockMeta_ValidateBasic bm in
        match err with Some err => Done (inl err) | None => Done (inr bm) end
      end
    end
  end.

(** ** The hash binds the header *)

(** Ranges of the Go types *)
Record header_typed (h : Header) : Prop := {
  ht_version : uint64 (verBlock (hVersion h)) /\ uint64 (verApp (hVersion h));
  ht_chain : fits (hChainID h);
  ht_height : int64 (hHeight h);
  ht_block : uint32 (pshTotal (bidPartSetHeader (hLastBlockID h)))
             /\ small (pshHash (bidPartSetHeader (hLastBlockID h))) /\ small (bidHash (hLastBlockID h));
  ht_hashes : Forall fits [sliceOf (hLastCommitHash h); sliceOf (hDataHash h); hValidatorsHash h;
                hNextValidatorsHash h; hConsensusHash h; hAppHash h; hResultsHash h;
                sliceOf (hEvidenceHash h); hProposerAddress h]
}.

Lemma Version_Marshal_exact v : uint64 (verBlock v) -> uint64 (verApp v) ->
  Version_Marshal v = Done (Version_write v).
Proof.
  intros Hb Ha. unfold Version_Marshal.
  assert (Version_Size v = Z.of_nat (length (Version_write v))) as ->; [|apply marshalSized_exact].
  unfold Version_Size, Version_write.
  destruct (negb (verBlock v =? 0)), (negb (verApp v =? 0)); rewrite ?putVarint_length by done; simpl; lia.
Qed.

Lemma Version_write_inj v v' : uint64 (verBlock v) -> uint64 (verApp v) ->
  uint64 (verBlock v') -> uint64 (verApp v') -> Version_write v = Version_write v' -> v = v'.
Proof.
  intros Hb Ha Hb' Ha' E. unfold Version_write in E.
  assert (Hf : forall x : Z, first_ge (8 + 1) (if negb (x =? 0) then putVarint 16 x [] else [])).
  { intros x. apply (first_ge_mono 16); [lia|]. apply (optional_first (putVarint 16)); [lia|eauto with proto|done]. }
  apply (optional_int (putVarint 8) 8) in E as (Ev & E); [|lia|eauto with proto|by apply putVarint_inj|apply Hf..].
  apply (optional_int (putVarint 16) 16) in E as (Ev' & _); [|lia|eauto with proto|by apply putVarint_inj|done..].
  destruct v, v'. simpl in *. congruence.
Qed.

(** The encodings of a block ID and of its canonical form are alike. *)
Definition canonicalOf (m : protoBlockID) : CanonicalBlockID := mkCanonicalBlockID (pbidHash m) (pbidPartSetHeader m).

Lemma protoBlockID_Marshal_exact m : cblock_typed (canonicalOf m) ->
  protoBlockID_Marshal m = Done (CanonicalBlockID_write (canonicalOf m)).
Proof.
  intros (H1 & H2 & H3). destruct (blockID_Size_length (canonicalOf m) H1 H2 H3) as (E & _).
  unfold protoBlockID_Marshal. change (protoBlockID_Size m) with (CanonicalBlockID_Size (canonicalOf m)).
  rewrite E. apply marshalSized_exact.
Qed.

Lemma header_block_typed h : header_typed h ->
  cblock_typed (canonicalOf (BlockID_ToProto (Some (hLastBlockID h)))).
Proof. intros [_ _ _ H _]. exact H. Qed.

Definition headerLeaves (h : Header) (pbt : bytes) : list bytes :=
  headerFields h (Version_write (hVersion h)) pbt
    (CanonicalBlockID_write (canonicalOf (BlockID_ToProto (Some (hLastBlockID h))))).

(** The strings hashed for a header *)
Definition headerInputs (h : Header) : list bytes :=
  match StdTimeMarshal (hTime h) with
  | inl _ => []
  | inr pbt => treeInputs (mtreeOf 14 (headerLeaves h pbt))
  end.

(** A header with a validators hash and a time in range is hashed; without
    them the hash is nil. *)
Lemma Header_Hash_spec h : header_typed h ->
  Header_Hash (Some h) =
  match StdTimeMarshal (hTime h) with
  | inl _ => Done []
  | inr pbt => if (length (hValidatorsHash h) =? 0)%nat then Done []
               else Done (mhash (mtreeOf 14 (headerLeaves h pbt)))
  end.
Proof.
  intros Ht. unfold Header_Hash. pose proof (ht_version h Ht) as [Hv1 Hv2].
  destruct (length (hValidatorsHash h) =? 0)%nat; [by destruct (StdTimeMarshal (hTime h))|].
  rewrite Version_Marshal_exact, bind_Done by done.
  destruct (StdTimeMarshal (hTime h)) as [|pbt]; [done|].
  rewrite protoBlockID_Marshal_exact, bind_Done by (by apply header_block_typed). fold (headerLeaves h pbt).
  destruct (mtreeOf_spec 14 (headerLeaves h pbt)) as [Hs El]; [done|simpl; lia|].
  rewrite <- El at 1. by apply HashFromByteSlices_shaped.
Qed.

Section binding.
Context {L : TmHashLaws TH} (SL : StdTimeLaws ST) (WL : WrappersLaws W).

Lemma cdcEncodeString_inj x y : fits x -> fits y -> cdcEncodeString x = cdcEncodeString y -> x = y.
Proof.
  intros Hx Hy. assert (forall z, exists bz, StringValue_Marshal z = inr bz /\ cdcEncodeString z = bz) as H.
  { intros z. destruct (string_total W WL z) as [bz E]. exists bz. split; [done|]. unfold cdcEncodeString.
    destruct z; [|by rewrite E]. simpl. rewrite (string_zero W WL) in E. by injection E. }
  destruct (H x) as (bx & Ex & ->), (H y) as (byt & Ey & ->). intros ->.
  apply (string_inj W WL); [done..|congruence].
Qed.

Lemma cdcEncodeBytes_inj x y : fits x -> fits y -> cdcEncodeBytes x = cdcEncodeBytes y -> x = y.
Proof.
  intros Hx Hy. assert (forall z, exists bz, BytesValue_Marshal z = inr bz /\ cdcEncodeBytes z = bz) as H.
  { intros z. destruct (bytes_total W WL z) as [bz E]. exists bz. split; [done|]. unfold cdcEncodeBytes.
    destruct z; [|by rewrite E]. simpl. rewrite (bytes_zero W WL) in E. by injection E. }
  destruct (H x) as (bx & Ex & ->), (H y) as (byt & Ey & ->). intros ->.
  apply (bytes_inj W WL); [done..|congruence].
Qed.

Lemma cdcEncodeInt64_inj x y : int64 x -> int64 y -> cdcEncodeInt64 x = cdcEncodeInt64 y -> x = y.
Proof.
  intros Hx Hy. unfold cdcEncodeInt64.
  destruct (int64_total W WL x) as [bx Ex], (int64_total W WL y) as [byt Ey]. rewrite Ex, Ey. intros ->.
  apply (int64_inj W WL); [done..|congruence].
Qed.

(** Headers that differ only in nil and empty hashes. *)
Definition same_header (h h' : Header) : Prop :=
  hVersion h = hVersion h' /\ hChainID h = hChainID h' /\ hHeight h = hHeight h' /\ hTime h = hTime h'
  /\ hLastBlockID h = hLastBlockID h'
  /\ sliceOf (hLastCommitHash h) = sliceOf (hLastCommitHash h')
  /\ sliceOf (hDataHash h) = sliceOf (hDataHash h')
  /\ hValidatorsHash h = hValidatorsHash h' /\ hNextValidatorsHash h = hNextValidatorsHash h'
  /\ hConsensusHash h = hConsensusHash h' /\ hAppHash h = hAppHash h' /\ hResultsHash h = hResultsHash h'
  /\ sliceOf (hEvidenceHash h) = sliceOf (hEvidenceHash h') /\ hProposerAddress h = hProposerAddress h'.

Lemma headerLeaves_inj h h' pbt pbt' : header_typed h -> header_typed h' ->
  StdTimeMarshal (hTime h) = inr pbt -> StdTimeMarshal (hTime h') = inr pbt' ->
  headerLeaves h pbt = headerLeaves h' pbt' -> same_header h h'.
Proof.
  intros Ht Ht' Et Et' E. unfold headerLeaves, headerFields in E. injection E as
    E1 E2 E3 E4 E5 E6 E7 E8 E9 E10 E11 E12 E13 E14.
  pose proof (header_block_typed h Ht) as Hb. pose proof (header_block_typed h' Ht') as Hb'.
  destruct Ht as [[? ?] ? ? _ Hh], Ht' as [[? ?] ? ? _ Hh'].
  rewrite !Forall_cons in Hh, Hh'.
  destruct Hh as (?&?&?&?&?&?&?&?&?&_), Hh' as (?&?&?&?&?&?&?&?&?&_).
  apply block_write_inj in E5; [|done..].
  unfold same_header. split_and!; try (by apply cdcEncodeBytes_inj).
  - by apply Version_write_inj.
  - by apply cdcEncodeString_inj.
  - by apply cdcEncodeInt64_inj.
  - subst pbt'. by apply (std_inj _ SL _ _ pbt).
  - destruct (hLastBlockID h) as [bh [n ph]], (hLastBlockID h') as [bh' [n' ph']].
    unfold canonicalOf in E5. simpl in E5. congruence.
Qed.

Lemma Header_Hash_inj h h' r : header_typed h -> header_typed h' -> r <> [] ->
  Header_Hash (Some h) = Done r -> Header_Hash (Some h') = Done r ->
  collision_free (headerInputs h ++ headerInputs h') -> same_header h h'.
Proof.
  intros Ht Ht' Hr E E' Hcf. rewrite Header_Hash_spec in E, E' by done. unfold headerInputs in Hcf.
  destruct (StdTimeMarshal (hTime h)) as [|pbt] eqn:Et; [congruence|].
  destruct (StdTimeMarshal (hTime h')) as [|pbt'] eqn:Et'; [congruence|].
  destruct (length (hValidatorsHash h) =? 0)%nat; [congruence|].
  destruct (length (hValidatorsHash h') =? 0)%nat; [congruence|].
  assert (E2 : mtreeOf 14 (headerLeaves h pbt) = mtreeOf 14 (headerLeaves h' pbt'))
    by (apply mhash_inj; [done|congruence]).
  apply (headerLeaves_inj h h' pbt pbt'); [done..|].
  destruct (mtreeOf_spec 14 (headerLeaves h pbt)) as [_ <-]; [done|simpl; lia|].
  destruct (mtreeOf_spec 14 (headerLeaves h' pbt')) as [_ <-]; [done|simpl; lia|]. by rewrite E2.
Qed.

End binding.

End header.

(** ** Claims *)

(** Example instances. *)
Definition exampleWrappers : Wrappers := {|
  StringValue_Marshal x := inr (if (0 <? length x)%nat then putDelimited 10 x [] else []);
  Int64Value_Marshal x := inr (if negb (x =? 0) then putVarint 8 (wrapu64 x) [] else []);
  BytesValue_Marshal x := inr (if (0 <? length x)%nat then putDelimited 10 x [] else [])
|}.

Lemma exampleWrappers_laws : WrappersLaws exampleWrappers.
Proof.
  assert (Hb : forall x y, fits x -> fits y ->
    (if (0 <? length x)%nat then putDelimited 10 x [] else [])
    = (if (0 <? length y)%nat then putDelimited 10 y [] else []) -> x = y).
  { intros x y Hx Hy E. apply optional_bytes in E as [E _]; [done|lia|done..]. }
  split; simpl; try done; try (intros; eexists; reflexivity).
  - intros x y Hx Hy [= E]. by apply Hb.
  - intros x y Hx Hy [= E].
    destruct (Z.eqb_spec x 0), (Z.eqb_spec y 0); simpl in E; try done; [congruence|].
    apply putVarint_inj in E as [E _]; [|apply wrapu64_range..]. by apply wrapu64_inj64.
  - intros x y Hx Hy [= E]. by apply Hb.
Qed.

Definition exampleTxs : list bytes := [[Byte.x01]; [Byte.x02]].

Definition exampleHeader : Header :=
  mkHeader (mkVersion 11 1) [Byte.x61] 1 0 zeroBlockID (Some [])
    (Some (match @Txs_Hash exampleTmHash exampleTxs with Done h => h | Panic _ => [] end))
    (replicate 32 Byte.x07) [] [] [] [] (Some []) (replicate 20 Byte.x09).

(** [C37] The header hash binds every field of the header: two headers
    (of values in their Go ranges) with the same non-nil hash agree on all
    fields, a nil hash field counting as an empty one, unless two of the strings
    hashed collide. *)
Theorem Header_Hash_binds (TH : TmHash) (ST : StdTime) (W : Wrappers)
    (L : TmHashLaws TH) (SL : StdTimeLaws ST) (WL : WrappersLaws W) (h h' : Header) (r : bytes) :
  header_typed h -> header_typed h' -> r <> [] ->
  Header_Hash (Some h) = Done r -> Header_Hash (Some h') = Done r ->
  collision_free (headerInputs h ++ headerInputs h') ->
  same_header h h'.
Proof. by apply Header_Hash_inj. Qed.

Lemma exampleHeader_typed : header_typed exampleHeader.
Proof. split; [split; by vm_compute|by vm_compute|by vm_compute|split_and!; by vm_compute|repeat constructor; by vm_compute]. Qed.

Definition exampleHeaderHash : bytes :=
  match @Header_Hash exampleTmHash exampleStdTime exampleWrappers (Some exampleHeader) with
  | Done r => r | Panic _ => [] end.

Lemma Header_Hash_binds_witness : same_header exampleHeader exampleHeader.
Proof.
  apply (Header_Hash_binds exampleTmHash exampleStdTime exampleWrappers exampleTmHash_laws
    exampleStdTime_laws exampleWrappers_laws exampleHeader exampleHeader exampleHeaderHash).
  - exact exampleHeader_typed.
  - exact exampleHeader_typed.
  - vm_compute. discriminate.
  - vm_compute. reflexivity.
  - vm_compute. reflexivity.
  - apply collision_freeb_spec. vm_compute. reflexivity.
Defined.
