(* ===== verification/ValidatorHash.v ===== *)
(** * The hash and the protobuf form of a validator set

    [Validator.Bytes], [ValidatorSet.Hash] and the protobuf conversions of
    types/validator.go and types/validator_set.go, with the key conversion of
    crypto/encoding/codec.go and the generated encoder of [SimpleValidator].  The
    hash binds the keys and powers of the members in their order, and nothing
    else: addresses and priorities are not part of it. *)

From Stdlib Require Import ZArith Lia.
From S2P Require Import Prelude SafeMath Proto BitArray Validator ValidatorSet ValidatorSetUpdate BlockTypes SignBytes Merkle Header.
From stdpp Require Import base list option sets strings numbers sorting.

Local Open Scope Z_scope.

(** ** Public keys *)

(** [pc.PublicKey]: [Sum] is nil or an Ed25519 key.  A key is not a nil slice. *)
Record PublicKey := mkPublicKey { pkSum : option bytes }.

(** crypto/encoding: only Ed25519 keys are supported. *)
Definition PubKeyToProto (k : option PubKey) : result PublicKey :=
  match k with
  | Some (PubKeyEd25519 key) => inr (mkPublicKey (Some key))
  | _ => inl "toproto: key type is not supported"
  end.

Definition PubKeySize : Z := 32.

Definition PubKeyFromProto (k : PublicKey) : result PubKey :=
  match pkSum k with
  | Some key =>
    if negb (Z.of_nat (length key) =? PubKeySize) then inl "invalid size for PubKeyEd25519"
    else inr (PubKeyEd25519 key)
  | None => inl "fromproto: key type is not supported"
  end.

(** [PublicKey.MarshalToSizedBuffer] and [Size] with those of [PublicKey_Ed25519] *)
Definition PublicKey_write (m : PublicKey) : bytes :=
  match pkSum m with Some key => putDelimited 10 key [] | None => [] end.

Definition PublicKey_Size (m : PublicKey) : Z :=
  match pkSum m with
  | Some key => let l := Z.of_nat (length key) in 1 + l + sov l
  | None => 0
  end.

(** ** [SimpleValidator] *)

Record SimpleValidator := mkSimpleValidator { svPubKey : option PublicKey; svVotingPower : Z }.

Definition SimpleValidator_write (m : SimpleValidator) : bytes :=
  let w := if negb (svVotingPower m =? 0) then putVarint 16 (wrapu64 (svVotingPower m)) [] else [] in
  match svPubKey m with Some pk => putDelimited 10 (PublicKey_write pk) w | None => w end.

Definition SimpleValidator_Size (m : SimpleValidator) : Z :=
  let n := match svPubKey m with
           | Some pk => let l := PublicKey_Size pk in 1 + l + sov l
           | None => 0
           end in
  if negb (svVotingPower m =? 0) then n + (1 + sov (wrapu64 (svVotingPower m))) else n.

Definition SimpleValidator_Marshal (m : SimpleValidator) : outcome bytes :=
  marshalSized (SimpleValidator_Size m) (SimpleValidator_write m).

Definition Validator_Bytes (v : Validator) : outcome bytes :=
  match PubKeyToProto (vPubKey v) with
  | inl err => Panic err
  | inr pk => SimpleValidator_Marshal (mkSimpleValidator (Some pk) (VotingPower v))
  end.

(** ** Protobuf conversion *)

(** [tmproto.Validator], [tmproto.ValidatorSet] *)
Record protoValidator := mkProtoValidator {
  pvAddress : bytes; pvPubKey : PublicKey; pvVotingPower : Z; pvProposerPriority : Z
}.
Record protoValidatorSet := mkProtoValidatorSet {
  pvsValidators : list (option protoValidator);
  pvsProposer : option protoValidator;
  pvsTotalVotingPower : Z
}.

Definition Validator_ToProto (v : option Validator) : result protoValidator :=
  match v with
  | None => inl "nil validator"
  | Some v =>
    match PubKeyToProto (vPubKey v) with
    | inl err => inl err
    | inr pk => inr (mkProtoValidator (Address v) pk (VotingPower v) (ProposerPriority v))
    end
  end.

Definition ValidatorFromProto (vp : option protoValidator) : result Validator :=
  match vp with
  | None => inl "nil validator"
  | Some vp =>
    match PubKeyFromProto (pvPubKey vp) with
    | inl err => inl err
    | inr pk => inr (mkValidator (pvAddress vp) (Some pk) (pvVotingPower vp) (pvProposerPriority vp))
    end
  end.

(** The loop over the validators, which stops at the first error *)
Fixpoint mapResult {A B} (f : A -> result B) (l : list A) : result (list B) :=
  match l with
  | [] => inr []
  | x :: l' =>
    match f x with
    | inl err => inl err
    | inr y => match mapResult f l' with inl err => inl err | inr ys => inr (y :: ys) end
    end
  end.

Definition ValidatorSet_ToProto (vals : option ValidatorSet) : result protoValidatorSet :=
  match vals with
  | None => inl "nil validator set"
  | Some v =>
    match ValidatorSet_ValidateBasic vals with
    | Some err => inl ("validator set failed basic: " +:+ err)
    | None =>
      match mapResult (fun x => Validator_ToProto (Some x)) (Validators v) with
      | inl err => inl err
      | inr valsProto =>
        match Validator_ToProto (Proposer v) with
        | inl err => inl ("toProto: validatorSet proposer error: " +:+ err)
        | inr valProposer => inr (mkProtoValidatorSet (Some <$> valsProto) (Some valProposer) (totalVotingPower v))
        end
      end
    end
  end.

Definition ValidatorSetFromProto (vp : option protoValidatorSet) : result ValidatorSet :=
  match vp with
  | None => inl "nil validator set"
  | Some vp =>
    match mapResult ValidatorFromProto (pvsValidators vp) with
    | inl err => inl err
    | inr valsProto =>
      match ValidatorFromProto (pvsProposer vp) with
      | inl err => inl ("fromProto: validatorSet proposer error: " +:+ err)
      | inr p => inr (mkValidatorSet valsProto (Some p) (pvsTotalVotingPower vp))
      end
    end
  end.

Section hash.
Context {TH : TmHash}.

(** The encodings of the members *)
Fixpoint validatorBytes (vals : list Validator) : outcome (list bytes) :=
  match vals with
  | [] => Done []
  | v :: vals' =>
    let! bz := Validator_Bytes v in
    let! bzs := validatorBytes vals' in
    Done (bz :: bzs)
  end.

Definition ValidatorSet_Hash (vals : ValidatorSet) : outcome bytes :=
  match Validators vals with
  | [] => Done []
  | vs => let! bzs := validatorBytes vs in HashFromByteSlices bzs
  end.

(** ** What the hash binds *)

(** A validator with an Ed25519 key *)
Definition validator_typed (v : Validator) : Prop :=
  int64 (VotingPower v) /\ exists key, vPubKey v = Some (PubKeyEd25519 key) /\ Z.of_nat (length key) = PubKeySize.

Lemma key_fits key : Z.of_nat (length key) = PubKeySize -> fits key.
Proof. unfold fits, PubKeySize. lia. Qed.

Lemma PublicKey_sizes key : Z.of_nat (length key) = PubKeySize ->
  PublicKey_Size (mkPublicKey (Some key)) = Z.of_nat (length (PublicKey_write (mkPublicKey (Some key)))) /\
  fits (PublicKey_write (mkPublicKey (Some key))).
Proof.
  intros Hk. pose proof (sov_bound (Z.of_nat (length key)) ltac:(unfold uint64; rewrite Hk; done)) as Hs.
  unfold PublicKey_Size, PublicKey_write, fits. cbn [pkSum].
  rewrite putDelimited_length by (by apply key_fits). cbn [length].
  unfold PubKeySize in Hk. split; lia.
Qed.

Lemma Validator_Bytes_Done v key :
  int64 (VotingPower v) -> vPubKey v = Some (PubKeyEd25519 key) -> Z.of_nat (length key) = PubKeySize ->
  Validator_Bytes v = Done (SimpleValidator_write (mkSimpleValidator (Some (mkPublicKey (Some key))) (VotingPower v))).
Proof.
  intros Hp Hk Hl. unfold Validator_Bytes. rewrite Hk. cbn [PubKeyToProto]. unfold SimpleValidator_Marshal.
  destruct (PublicKey_sizes key Hl) as [Es Hf].
  match goal with |- marshalSized ?n ?w = _ => assert (n = Z.of_nat (length w)) as -> end; [|apply marshalSized_exact].
  unfold SimpleValidator_Size, SimpleValidator_write. cbn [svPubKey svVotingPower]. rewrite Es.
  rewrite putDelimited_length by done. destruct (negb (VotingPower v =? 0)); cbn [length]; [|lia].
  rewrite putVarint_length by apply wrapu64_range. cbn [length]. lia.
Qed.

Lemma Validator_Bytes_inj v v' bz :
  validator_typed v -> validator_typed v' -> Validator_Bytes v = Done bz -> Validator_Bytes v' = Done bz ->
  vPubKey v = vPubKey v' /\ VotingPower v = VotingPower v'.
Proof.
  intros (Hp & key & Hk & Hl) (Hp' & key' & Hk' & Hl') E E'.
  rewrite (Validator_Bytes_Done v key) in E by done. rewrite (Validator_Bytes_Done v' key') in E' by done.
  assert (SimpleValidator_write (mkSimpleValidator (Some (mkPublicKey (Some key))) (VotingPower v))
    = SimpleValidator_write (mkSimpleValidator (Some (mkPublicKey (Some key'))) (VotingPower v'))) as Ew by congruence.
  unfold SimpleValidator_write in Ew. cbn [svPubKey svVotingPower] in Ew.
  apply putDelimited_inj in Ew as [Ek Ew]; [|by apply PublicKey_sizes..].
  unfold PublicKey_write in Ek. cbn [pkSum] in Ek.
  apply putDelimited_inj in Ek as [Ek _]; [|by apply key_fits..]. split; [congruence|].
  assert (forall x, int64 x -> x <> 0 -> wrapu64 x <> 0) as Hnz.
  { intros x Hx Hne E0. apply Hne, wrapu64_inj64; [done|done|]. by rewrite E0. }
  destruct (Z.eqb_spec (VotingPower v) 0) as [E0|E0], (Z.eqb_spec (VotingPower v') 0) as [E0'|E0']; simpl in Ew; try done.
  - congruence.
  - apply putVarint_inj in Ew as [Ew _]; [|apply wrapu64_range..]. by apply wrapu64_inj64.
Qed.

Lemma validatorBytes_Done vs : (forall v, v ∈ vs -> validator_typed v) ->
  exists bzs, validatorBytes vs = Done bzs /\ length bzs = length vs.
Proof.
  induction vs as [|v vs IH]; intros Ht; [by exists []|].
  destruct (Ht v ltac:(set_solver)) as (Hp & key & Hk & Hl).
  destruct IH as (bzs & E & El); [set_solver|]. simpl. rewrite (Validator_Bytes_Done v key), bind_Done, E by done.
  eexists. split; [done|]. simpl. by rewrite El.
Qed.

(** What the hash is computed from *)
Definition keyPowers (vals : ValidatorSet) : list (option PubKey * Z) :=
  (fun v => (vPubKey v, VotingPower v)) <$> Validators vals.

Lemma validatorBytes_inj vs vs' bzs :
  (forall v, v ∈ vs -> validator_typed v) -> (forall v, v ∈ vs' -> validator_typed v) ->
  validatorBytes vs = Done bzs -> validatorBytes vs' = Done bzs ->
  (fun v => (vPubKey v, VotingPower v)) <$> vs = (fun v => (vPubKey v, VotingPower v)) <$> vs'.
Proof.
  revert vs' bzs. induction vs as [|v vs IH]; intros [|v' vs'] bzs Ht Ht' E E'; simpl in E, E'.
  - done.
  - injection E as <-. apply bind_Done_inv in E' as (? & _ & E'). by apply bind_Done_inv in E' as (? & _ & [=]).
  - injection E' as <-. apply bind_Done_inv in E as (? & _ & E). by apply bind_Done_inv in E as (? & _ & [=]).
  - apply bind_Done_inv in E as (bz & Eb & E). apply bind_Done_inv in E as (bs & Es & [= <-]).
    apply bind_Done_inv in E' as (bz' & Eb' & E'). apply bind_Done_inv in E' as (bs' & Es' & [= -> ->]).
    destruct (Validator_Bytes_inj v v' bz) as [Ek Ep]; [set_solver..|done|done|].
    cbn [fmap list_fmap]. rewrite Ek, Ep. f_equal. apply (IH _ bs); [set_solver..|done|done].
Qed.

(** The strings hashed for a validator set *)
Definition valsetInputs (vals : ValidatorSet) : list bytes :=
  match validatorBytes (Validators vals) with
  | Done bzs => treeInputs (mtreeOf (length bzs) bzs)
  | Panic _ => []
  end.

Lemma ValidatorSet_Hash_Done vals : (forall v, v ∈ Validators vals -> validator_typed v) -> Validators vals <> [] ->
  exists bzs, validatorBytes (Validators vals) = Done bzs /\ bzs <> [] /\
    ValidatorSet_Hash vals = Done (mhash (mtreeOf (length bzs) bzs)).
Proof.
  intros Ht Hne. destruct (validatorBytes_Done _ Ht) as (bzs & E & El). exists bzs. split; [done|].
  assert (bzs <> []) as Hb by (intros ->; by destruct (Validators vals)). split; [done|].
  unfold ValidatorSet_Hash. destruct (Validators vals) as [|v vs]; [done|]. rewrite E, bind_Done.
  destruct (mtreeOf_spec (length bzs) bzs Hb) as [Hs Hlv]; [done|]. rewrite <- Hlv at 1. by apply HashFromByteSlices_shaped.
Qed.

Lemma ValidatorSet_Hash_inj {L : TmHashLaws TH} vals vals' r :
  (forall v, v ∈ Validators vals -> validator_typed v) -> (forall v, v ∈ Validators vals' -> validator_typed v) ->
  ValidatorSet_Hash vals = Done r -> ValidatorSet_Hash vals' = Done r ->
  collision_free (valsetInputs vals ++ valsetInputs vals') -> keyPowers vals = keyPowers vals'.
Proof.
  intros Ht Ht' E E' Hcf.
  assert (forall vs, (forall v, v ∈ Validators vs -> validator_typed v) -> Validators vs <> [] ->
    ValidatorSet_Hash vs <> Done []) as Hno.
  { intros vs Hvs Hne Eh. destruct (ValidatorSet_Hash_Done vs Hvs Hne) as (bzs & _ & _ & Eh'). rewrite Eh in Eh'.
    injection Eh' as Eh'. pose proof (mhash_size (mtreeOf (length bzs) bzs)) as Hs. rewrite <- Eh' in Hs. done. }
  unfold keyPowers. destruct (decide (Validators vals = [])) as [En|Hne].
  { assert (r = []) as -> by (unfold ValidatorSet_Hash in E; rewrite En in E; congruence).
    destruct (decide (Validators vals' = [])) as [En'|Hne']; [by rewrite En, En'|]. by destruct (Hno vals'). }
  destruct (decide (Validators vals' = [])) as [En'|Hne'].
  { assert (r = []) as -> by (unfold ValidatorSet_Hash in E'; rewrite En' in E'; congruence). by destruct (Hno vals). }
  destruct (ValidatorSet_Hash_Done vals Ht Hne) as (bzs & Eb & Hb & Eh).
  destruct (ValidatorSet_Hash_Done vals' Ht' Hne') as (bzs' & Eb' & Hb' & Eh').
  unfold valsetInputs in Hcf. rewrite Eb, Eb' in Hcf.
  assert (mtreeOf (length bzs) bzs = mtreeOf (length bzs') bzs') as Et by (apply mhash_inj; [done|congruence]).
  assert (bzs = bzs') as <-.
  { destruct (mtreeOf_spec (length bzs) bzs Hb) as [_ <-]; [done|].
    destruct (mtreeOf_spec (length bzs') bzs' Hb') as [_ <-]; [done|]. by rewrite Et. }
  by eapply validatorBytes_inj.
Qed.

End hash.

(** ** Sets and messages *)

Definition ed25519_key (v : Validator) : Prop :=
  exists key, vPubKey v = Some (PubKeyEd25519 key) /\ Z.of_nat (length key) = PubKeySize.

Lemma Validator_proto v : ed25519_key v ->
  exists pv, Validator_ToProto (Some v) = inr pv /\ ValidatorFromProto (Some pv) = inr v.
Proof.
  intros (key & Hk & Hl). unfold Validator_ToProto. rewrite Hk. cbn [PubKeyToProto]. eexists. split; [done|].
  cbn [ValidatorFromProto pvPubKey]. unfold PubKeyFromProto. cbn [pkSum]. rewrite Hl, Z.eqb_refl. cbn.
  destruct v. cbn in *. by rewrite Hk.
Qed.

Lemma validators_proto vs : Forall ed25519_key vs ->
  exists pvs, mapResult (fun x => Validator_ToProto (Some x)) vs = inr pvs /\ mapResult ValidatorFromProto (Some <$> pvs) = inr vs.
Proof.
  induction 1 as [|v vs Hv _ (pvs & E1 & E2)]; [by exists []|]. destruct (Validator_proto v Hv) as (pv & P1 & P2).
  exists (pv :: pvs). cbn [mapResult fmap list_fmap]. rewrite P1, E1. split; [done|]. by rewrite P2, E2.
Qed.

(** A valid set with Ed25519 keys *)
Definition plain_vals (vals : ValidatorSet) : Prop :=
  ValidatorSet_ValidateBasic (Some vals) = None /\ Forall ed25519_key (Validators vals) /\
  exists p, Proposer vals = Some p /\ ed25519_key p.

Lemma ValidatorSet_proto vals : plain_vals vals ->
  exists pvs, ValidatorSet_ToProto (Some vals) = inr pvs /\ ValidatorSetFromProto (Some pvs) = inr vals.
Proof.
  intros (Hv & Hk & p & Hp & Hkp). unfold ValidatorSet_ToProto. rewrite Hv.
  destruct (validators_proto _ Hk) as (pvs & E1 & E2). destruct (Validator_proto p Hkp) as (pp & P1 & P2).
  rewrite E1, Hp, P1. eexists. split; [done|]. cbn [ValidatorSetFromProto pvsValidators pvsProposer pvsTotalVotingPower].
  rewrite E2, P2. destruct vals. cbn in *. by rewrite Hp.
Qed.

(** ** Claims *)

(** [C26] The hash of a validator set binds its keys and powers: two sets of validators
    with Ed25519 keys that have the same hash list the same keys with the same
    powers in the same order, unless two of the strings hashed collide.  The hash of
    the empty set is that of no other. *)
Theorem ValidatorSet_Hash_binds (TH : TmHash) (L : TmHashLaws TH) (vals vals' : ValidatorSet) (r : bytes) :
  (forall v, v ∈ Validators vals -> validator_typed v) -> (forall v, v ∈ Validators vals' -> validator_typed v) ->
  ValidatorSet_Hash vals = Done r -> ValidatorSet_Hash vals' = Done r ->
  collision_free (valsetInputs vals ++ valsetInputs vals') -> keyPowers vals = keyPowers vals'.
Proof. apply ValidatorSet_Hash_inj. Qed.

Definition exampleKeySet : ValidatorSet :=
  mkValidatorSet [mkValidator (exampleAddress 1) (Some (PubKeyEd25519 (exampleHash 1))) 10 0;
                  mkValidator (exampleAddress 2) (Some (PubKeyEd25519 (exampleHash 2))) 5 0] None 0.

Lemma exampleKeySet_typed v : v ∈ Validators exampleKeySet -> validator_typed v.
Proof.
  intros Hv. repeat (apply elem_of_cons in Hv as [->|Hv]; [split; [by vm_compute|eexists; split; [done|by vm_compute]]|]).
  by apply elem_of_nil in Hv.
Qed.

Lemma ValidatorSet_Hash_binds_witness :
  let other := mkValidatorSet (Validators exampleKeySet) None 15 in
  other <> exampleKeySet /\ keyPowers exampleKeySet = keyPowers other.
Proof.
  split; [done|].
  eapply (ValidatorSet_Hash_binds exampleTmHash exampleTmHash_laws exampleKeySet); [apply exampleKeySet_typed..| | |].
  - vm_compute. reflexivity.
  - vm_compute. reflexivity.
  - apply collision_freeb_spec. vm_compute. reflexivity.
Defined.
