(* ===== verification/Block.v ===== *)
(** * Blocks

    The block, its data and its evidence of types/block.go.  Evidence is an
    interface in the source and a class here.  The generated protobuf codec of
    a block is a parameter.  The memoized hashes of the data, the evidence and
    the last commit are part of the state, and so are returned. *)

From Stdlib Require Import ZArith Lia.
From S2P Require Import Prelude Proto BitArray Validator BlockTypes SignBytes Merkle PartSet Header.
From stdpp Require Import base gmap list option strings numbers sorting.

Local Open Scope Z_scope.

Definition MaxHeaderBytes : Z := 626.
Definition MaxOverheadForBlock : Z := 11.
Definition MaxVoteBytes : Z := 209.
Definition MaxEvidenceBytes : Z := 444.

(** The interface [types.Evidence] as far as blocks use it, with the dynamic
    types that [Block.ValidateBasic] tells apart. *)
Class EvidenceImpl := {
  Evidence : Type;
  protoEvidence : Type;
  evIsConflictingHeaders : Evidence -> bool;
  evIsPotentialAmnesia : Evidence -> bool;
  evBytes : Evidence -> outcome bytes;
  evValidateBasic : Evidence -> outcome (option error);
  EvidenceToProto : Evidence -> outcome (result protoEvidence);
  EvidenceFromProto : protoEvidence -> outcome (result Evidence)
}.

Section block.
Context {TH : TmHash} {ST : StdTime} {W : Wrappers} {EI : EvidenceImpl}.

(** The loop that makes the leaves of a tree *)
Fixpoint mapM {A B} (f : A -> outcome B) (l : list A) : outcome (list B) :=
  match l with
  | [] => Done []
  | x :: l' => let! y := f x in let! ys := mapM f l' in Done (y :: ys)
  end.

(** ** Transactions and evidence of a block *)

Record Data := mkData { dTxs : list bytes; dHash : option bytes }.

(** [Data.Hash] and the data with the memoized hash; [Txs.Hash] of no
    transactions is nil. *)
Definition nilIfEmpty (txs : nat) (h : bytes) : option bytes := if (txs =? 0)%nat then None else Some h.

Definition Data_Hash (data : Data) : outcome (bytes * Data) :=
  match dHash data with
  | Some h => Done (h, data)
  | None =>
    let! h := Txs_Hash (dTxs data) in
    Done (h, mkData (dTxs data) (nilIfEmpty (length (dTxs data)) h))
  end.

(** [tmproto.Data] *)
Definition Data_ToProto (data : Data) : Data := mkData (dTxs data) (dHash data).

Definition DataFromProto (dp : option Data) : result Data :=
  match dp with
  | None => inl "nil data"
  | Some dp => inr (mkData (dTxs dp) (dHash dp))
  end.

Record EvidenceData := mkEvidenceData { edEvidence : list Evidence; edHash : option bytes }.

Definition EvidenceList_Hash (evl : list Evidence) : outcome bytes :=
  let! bzs := mapM evBytes evl in HashFromByteSlices bzs.

Definition EvidenceData_Hash (data : EvidenceData) : outcome (bytes * EvidenceData) :=
  match edHash data with
  | Some h => Done (h, data)
  | None =>
    let! h := EvidenceList_Hash (edEvidence data) in
    Done (h, mkEvidenceData (edEvidence data) (nilIfEmpty (length (edEvidence data)) h))
  end.

Record protoEvidenceData := mkProtoEvidenceData { pedEvidence : list protoEvidence; pedHash : option bytes }.

(** A loop over conversions that may fail *)
Fixpoint convertAll {A B} (f : A -> outcome (result B)) (l : list A) : outcome (result (list B)) :=
  match l with
  | [] => Done (inr [])
  | x :: l' =>
    let! r := f x in
    match r with
    | inl err => Done (inl err)
    | inr y =>
      let! rs := convertAll f l' in
      match rs with inl err => Done (inl err) | inr ys => Done (inr (y :: ys)) end
    end
  end.

Definition EvidenceData_ToProto (data : EvidenceData) : outcome (result protoEvidenceData) :=
  let! r := convertAll EvidenceToProto (edEvidence data) in
  match r with
  | inl err => Done (inl err)
  | inr eviBzs => Done (inr (mkProtoEvidenceData eviBzs (edHash data)))
  end.

Definition EvidenceData_FromProto (data : EvidenceData) (eviData : protoEvidenceData)
    : outcome (EvidenceData * option error) :=
  let! r := convertAll EvidenceFromProto (pedEvidence eviData) in
  match r with
  | inl err => Done (data, Some err)
  | inr eviBzs => Done (mkEvidenceData eviBzs (pedHash eviData), None)
  end.

(** ** The hash of a commit *)

(** [tmproto.CommitSig.Marshal] *)
Definition protoCommitSig_write (m : protoCommitSig) : result bytes :=
  let w := if (0 <? length (pcsSignature m))%nat then putDelimited 34 (pcsSignature m) [] else [] in
  match StdTimeMarshal (pcsTimestamp m) with
  | inl err => inl err
  | inr t =>
    let w := putDelimited 26 t w in
    let w := if (0 <? length (pcsValidatorAddress m))%nat
             then putDelimited 18 (pcsValidatorAddress m) w else w in
    inr (if negb (pcsBlockIdFlag m =? 0) then putVarint 8 (wrapu64 (pcsBlockIdFlag m)) w else w)
  end.

Definition protoCommitSig_Size (m : protoCommitSig) : Z :=
  let n := if negb (pcsBlockIdFlag m =? 0) then 1 + sov (wrapu64 (pcsBlockIdFlag m)) else 0 in
  let l := Z.of_nat (length (pcsValidatorAddress m)) in
  let n := if 0 <? l then n + (1 + l + sov l) else n in
  let l := SizeOfStdTime (pcsTimestamp m) in
  let n := n + (1 + l + sov l) in
  let l := Z.of_nat (length (pcsSignature m)) in
  if 0 <? l then n + (1 + l + sov l) else n.

Definition commitSigBytes (cs : CommitSig) : outcome bytes :=
  let pbcs := CommitSig_ToProto cs in
  match protoCommitSig_write pbcs with
  | inl err => Panic err
  | inr w => marshalSized (protoCommitSig_Size pbcs) w
  end.

Definition Commit_Hash (commit : option Commit) : outcome (bytes * option Commit) :=
  match commit with
  | None => Done ([], None)
  | Some c =>
    match cHash c with
    | Some h => Done (h, Some c)
    | None =>
      let! bs := mapM commitSigBytes (cSignatures c) in
      let! h := HashFromByteSlices bs in
      Done (h, Some (mkCommit (cHeight c) (cRound c) (cBlockID c) (cSignatures c)
                       (nilIfEmpty (length (cSignatures c)) h) (cBitArray c)))
    end
  end.

(** ** The block *)

Record Block := mkBlock {
  bHeader : Header;
  bData : Data;
  bEvidence : EvidenceData;
  bLastCommit : option Commit
}.

(** The loop over the evidence in [ValidateBasic] *)
Fixpoint checkEvidence (evs : list Evidence) : outcome (option error) :=
  match evs with
  | [] => Done None
  | ev :: rest =>
    if evIsConflictingHeaders ev then Done (Some "found ConflictingHeadersEvidence")
    else if evIsPotentialAmnesia ev then Done (Some "found PotentialAmnesiaEvidence")
    else
      let! err := evValidateBasic ev in
      match err with
      | Some err => Done (Some ("invalid evidence: " +:+ err))
      | None => checkEvidence rest
      end
  end.

(** The block is returned with the hashes that were memoized on the way. *)
Definition Block_ValidateBasic (b : option Block) : outcome (option error * option Block) :=
  match b with
  | None => Done (Some "nil block", None)
  | Some b =>
    match Header_ValidateBasic (bHeader b) with
    | Some err => Done (Some ("invalid header: " +:+ err), Some b)
    | None =>
      match bLastCommit b with
      | None => Done (Some "nil LastCommit", Some b)
      | Some lc =>
        let commitErr := if 1 <? hHeight (bHeader b) then Commit_ValidateBasic lc else None in
        match commitErr with
        | Some err => Done (Some ("wrong LastCommit: " +:+ err), Some b)
        | None =>
          let! (ch, lc) := Commit_Hash (Some lc) in
          let b := mkBlock (bHeader b) (bData b) (bEvidence b) lc in
          if negb (bool_decide (sliceOf (hLastCommitHash (bHeader b)) = ch))
          then Done (Some "wrong Header.LastCommitHash", Some b)
          else
            let! (dh, data) := Data_Hash (bData b) in
            let b := mkBlock (bHeader b) data (bEvidence b) (bLastCommit b) in
            if negb (bool_decide (sliceOf (hDataHash (bHeader b)) = dh))
            then Done (Some "wrong Header.DataHash", Some b)
            else
              let! evErr := checkEvidence (edEvidence (bEvidence b)) in
              match evErr with
              | Some err => Done (Some err, Some b)
              | None =>
                let! (eh, evd) := EvidenceData_Hash (bEvidence b) in
                let b := mkBlock (bHeader b) (bData b) evd (bLastCommit b) in
                if negb (bool_decide (sliceOf (hEvidenceHash (bHeader b)) = eh))
                then Done (Some "wrong Header.EvidenceHash", Some b)
                else Done (None, Some b)
              end
        end
      end
    end
  end.

Definition setHeaderHashes (h : Header) (lastCommitHash dataHash evidenceHash : option bytes) : Header :=
  mkHeader (hVersion h) (hChainID h) (hHeight h) (hTime h) (hLastBlockID h) lastCommitHash dataHash
    (hValidatorsHash h) (hNextValidatorsHash h) (hConsensusHash h) (hAppHash h) (hResultsHash h)
    evidenceHash (hProposerAddress h).

(** The nil hash of an empty list is stored as nil. *)
Definition fillHeader (b : Block) : outcome Block :=
  let h := bHeader b in
  let! (lch, lc) := (match hLastCommitHash h with
     | Some x => Done (Some x, bLastCommit b)
     | None => let! (x, lc) := Commit_Hash (bLastCommit b) in
               Done (match lc with Some c => cHash c | None => None end, lc)
     end) in
  let! (dh, data) := (match hDataHash h with
     | Some x => Done (Some x, bData b)
     | None => let! (x, d) := Data_Hash (bData b) in Done (dHash d, d)
     end) in
  let! (eh, evd) := (match hEvidenceHash h with
     | Some x => Done (Some x, bEvidence b)
     | None => let! (x, e) := EvidenceData_Hash (bEvidence b) in Done (edHash e, e)
     end) in
  Done (mkBlock (setHeaderHashes h lch dh eh) data evd lc).

Definition Block_Hash (b : option Block) : outcome (bytes * option Block) :=
  match b with
  | None => Done ([], None)
  | Some b =>
    match bLastCommit b with
    | None => Done ([], Some b)
    | Some _ =>
      let! b := fillHeader b in
      let! h := Header_Hash (Some (bHeader b)) in
      Done (h, Some b)
    end
  end.

Definition Block_HashesTo (b : option Block) (hash : bytes) : outcome (bool * option Block) :=
  if (length hash =? 0)%nat then Done (false, b)
  else match b with
  | None => Done (false, None)
  | Some _ => let! (h, b) := Block_Hash b in Done (bool_decide (h = hash), b)
  end.

(** [tmproto.Block] *)
Record protoBlock := mkProtoBlock {
  pblHeader : protoHeader;
  pblData : Data;
  pblEvidence : protoEvidenceData;
  pblLastCommit : option protoCommit
}.

Definition Block_ToProto (b : option Block) : outcome (result protoBlock) :=
  match b with
  | None => Done (inl "nil Block")
  | Some b =>
    let! r := EvidenceData_ToProto (bEvidence b) in
    match r, Header_ToProto (Some (bHeader b)) with
    | inl err, _ => Done (inl err)
    | inr evd, Some ph =>
      Done (inr (mkProtoBlock ph (Data_ToProto (bData b)) evd (Commit_ToProto (bLastCommit b))))
    | inr _, None => Panic "invalid memory address or nil pointer dereference"
    end
  end.

(** The error of [Evidence.FromProto] is dropped. *)
Definition BlockFromProto (bp : option protoBlock) : outcome (result Block) :=
  match bp with
  | None => Done (inl "nil block")
  | Some bp =>
    match HeaderFromProto (Some (pblHeader bp)) with
    | inl err => Done (inl err)
    | inr h =>
      match DataFromProto (Some (pblData bp)) with
      | inl err => Done (inl err)
      | inr data =>
        let! (evd, _) := EvidenceData_FromProto (mkEvidenceData [] None) (pblEvidence bp) in
        let finish (lc : option Commit) : outcome (result Block) :=
          let! (err, b) := Block_ValidateBasic (Some (mkBlock h data evd lc)) in
          match err, b with
          | Some err, _ => Done (inl err)
          | None, Some b => Done (inr b)
          | None, None => Panic "invalid memory address or nil pointer dereference"
          end in
        match pblLastCommit bp with
        | None => finish None
        | Some pc =>
          let! lc := CommitFromProto (Some pc) in
          match lc with
          | inl err => Done (inl err)
          | inr lc => finish (Some lc)
          end
        end
      end
    end
  end.

(** The generated codec of [tmproto.Block] *)
Class BlockCodec := {
  pbMarshal : protoBlock -> result bytes;
  pbUnmarshal : bytes -> result protoBlock;
  pbSize : protoBlock -> Z
}.

Context {BC : BlockCodec}.

Definition MakePartSet (b : option Block) (partSize : Z) : outcome (option PartSet) :=
  match b with
  | None => Done None
  | Some _ =>
    let! pbb := Block_ToProto b in
    match pbb with
    | inl err => Panic err
    | inr pbb =>
      match pbMarshal pbb with
      | inl err => Panic err
      | inr bz => let! ps := NewPartSetFromData bz partSize in Done (Some ps)
      end
    end
  end.

Definition Block_Size (b : option Block) : outcome Z :=
  let! pbb := Block_ToProto b in
  match pbb with inl _ => Done 0 | inr pbb => Done (pbSize pbb) end.

Definition NewBlockMeta (b : Block) (blockParts : option PartSet) : outcome (BlockMeta * option Block) :=
  let! (h, b') := Block_Hash (Some b) in
  let! size := Block_Size b' in
  match b' with
  | None => Panic "invalid memory address or nil pointer dereference"
  | Some b'' =>
    Done (mkBlockMeta (mkBlockID h (PartSet_Header blockParts)) size (bHeader b'')
            (Z.of_nat (length (dTxs (bData b'')))), b')
  end.

(** ** What a valid block satisfies *)

(** A block whose hashes have not been memoized *)
Definition fresh (b : Block) : Prop :=
  dHash (bData b) = None /\ edHash (bEvidence b) = None
  /\ match bLastCommit b with Some c => cHash c = None | None => True end.

(** [Commit.Hash] computes the Merkle root of the encoded signatures. *)
Definition commitRoot (c : Commit) : outcome bytes :=
  let! bs := mapM commitSigBytes (cSignatures c) in HashFromByteSlices bs.

Lemma ValidateBasic_fresh b b' : fresh b -> Block_ValidateBasic (Some b) = Done (None, Some b') ->
  Header_ValidateBasic (bHeader b) = None
  /\ (exists lc, bLastCommit b = Some lc
      /\ (1 < hHeight (bHeader b) -> Commit_ValidateBasic lc = None)
      /\ commitRoot lc = Done (sliceOf (hLastCommitHash (bHeader b))))
  /\ Txs_Hash (dTxs (bData b)) = Done (sliceOf (hDataHash (bHeader b)))
  /\ checkEvidence (edEvidence (bEvidence b)) = Done None
  /\ EvidenceList_Hash (edEvidence (bEvidence b)) = Done (sliceOf (hEvidenceHash (bHeader b)))
  /\ bHeader b' = bHeader b /\ dTxs (bData b') = dTxs (bData b)
  /\ edEvidence (bEvidence b') = edEvidence (bEvidence b).
Proof.
  intros (Hd & He & Hc) E. unfold Block_ValidateBasic in E.
  destruct (Header_ValidateBasic (bHeader b)) eqn:Eh; [done|].
  destruct (bLastCommit b) as [lc|] eqn:Elc; [|done].
  destruct (if 1 <? hHeight (bHeader b) then Commit_ValidateBasic lc else None) eqn:Ecv; [done|].
  unfold Commit_Hash in E. rewrite Hc in E. fold (commitRoot lc) in E.
  apply bind_Done_inv in E as ([ch lc'] & E1 & E). apply bind_Done_inv in E1 as (bs & Ebs & E1).
  apply bind_Done_inv in E1 as (h & Eroot & E1). injection E1 as <- <-. simpl in E.
  case_bool_decide as Hlch; [|done]. simpl in E.
  unfold Data_Hash in E. rewrite Hd in E. apply bind_Done_inv in E as ([dh d'] & E1 & E).
  apply bind_Done_inv in E1 as (dh' & Etxs & E1). injection E1 as <- <-. simpl in E.
  case_bool_decide as Hdh; [|done]. simpl in E.
  apply bind_Done_inv in E as (ev & Eev & E). destruct ev; [done|].
  unfold EvidenceData_Hash in E. rewrite He in E. apply bind_Done_inv in E as ([eh e'] & E1 & E).
  apply bind_Done_inv in E1 as (eh' & Eevh & E1). injection E1 as <- <-. simpl in E.
  case_bool_decide as Heh; [|done]. simpl in E. injection E as <-. simpl.
  split; [done|]. split.
  - exists lc. split; [done|]. split.
    + intros Hgt. rewrite (proj2 (Z.ltb_lt _ _) Hgt) in Ecv. done.
    + unfold commitRoot. by rewrite Ebs, bind_Done, Eroot, Hlch.
  - by rewrite Hdh, Heh.
Qed.

(** ** The memoized hash of a received block is trusted *)

Definition withTxs (b : Block) (txs : list bytes) : Block :=
  mkBlock (bHeader b) (mkData txs (dHash (bData b))) (bEvidence b) (bLastCommit b).

Lemma ValidateBasic_txs b h txs : dHash (bData b) = Some h ->
  Block_ValidateBasic (Some (withTxs b txs)) =
  (let! (err, b') := Block_ValidateBasic (Some b) in
   Done (err, option_map (fun b' => withTxs b' txs) b')).
Proof.
  destruct b as [hd [txs0 dh] evd lc]. cbn [bData dHash]. intros ->. unfold withTxs, Block_ValidateBasic.
  cbn [bHeader bData bEvidence bLastCommit dHash dTxs].
  destruct (Header_ValidateBasic hd); [done|]. destruct lc as [lc|]; [|done].
  destruct (if 1 <? hHeight hd then Commit_ValidateBasic lc else None); [done|].
  destruct (Commit_Hash (Some lc)) as [[ch lc']|]; [|done]. rewrite !bind_Done. cbn [bHeader bData bEvidence bLastCommit].
  destruct (negb _); [done|]. unfold Data_Hash. cbn [dHash]. rewrite !bind_Done. cbn [bHeader bData bEvidence bLastCommit].
  destruct (negb _); [done|]. destruct (checkEvidence _) as [[err|]|]; [done| |done]. rewrite !bind_Done.
  destruct (EvidenceData_Hash evd) as [[eh evd']|]; [|done]. rewrite !bind_Done. cbn [bHeader bData bEvidence bLastCommit].
  by destruct (negb _).
Qed.

Definition protoWithTxs (bp : protoBlock) (txs : list bytes) : protoBlock :=
  mkProtoBlock (pblHeader bp) (mkData txs (dHash (pblData bp))) (pblEvidence bp) (pblLastCommit bp).

Lemma BlockFromProto_txs bp h txs b : dHash (pblData bp) = Some h ->
  BlockFromProto (Some bp) = Done (inr b) ->
  BlockFromProto (Some (protoWithTxs bp txs)) = Done (inr (withTxs b txs)).
Proof.
  destruct bp as [ph [txs0 dh] pe pc]. cbn [pblData dHash]. intros -> E. unfold BlockFromProto in *. unfold protoWithTxs.
  cbn [pblHeader pblData pblEvidence pblLastCommit dHash dTxs DataFromProto] in *.
  destruct (HeaderFromProto (Some ph)) as [|hd]; [done|].
  apply bind_Done_inv in E as ([evd ?] & Ee & E). rewrite Ee, bind_Done.
  assert (Hfin : forall lc, (let! (err, b) := Block_ValidateBasic (Some (mkBlock hd (mkData txs0 (Some h)) evd lc)) in
      match err, b with
      | Some err, _ => Done (inl err) | None, Some b => Done (inr b)
      | None, None => Panic "invalid memory address or nil pointer dereference" end) = Done (inr b) ->
    (let! (err, b) := Block_ValidateBasic (Some (mkBlock hd (mkData txs (Some h)) evd lc)) in
      match err, b with
      | Some err, _ => Done (inl err) | None, Some b => Done (inr b)
      | None, None => Panic "invalid memory address or nil pointer dereference" end) = Done (inr (withTxs b txs))).
  { intros lc Hb. pose proof (ValidateBasic_txs (mkBlock hd (mkData txs0 (Some h)) evd lc) h txs eq_refl) as Hv.
    unfold withTxs in Hv. cbn [bHeader bData bEvidence bLastCommit dHash] in Hv. rewrite Hv. clear Hv E.
    destruct (Block_ValidateBasic (Some (mkBlock hd (mkData txs0 (Some h)) evd lc))) as [[[err|] [b'|]]|]; try discriminate Hb. injection Hb as ->. done. }
  destruct pc as [pc|]; [|by apply Hfin].
  apply bind_Done_inv in E as (lc & Elc & E). rewrite Elc, bind_Done. destruct lc as [|lc]; [done|]. by apply Hfin.
Qed.

(** ** Round trips *)

Lemma BlockID_valid_roundtrip b : BlockID_ValidateBasic b = None ->
  BlockIDFromProto (Some (BlockID_ToProto (Some b))) = inr b.
Proof. intros Hv. by rewrite BlockID_roundtrip, Hv. Qed.

Lemma Header_roundtrip h : Header_ValidateBasic h = None ->
  exists ph, Header_ToProto (Some h) = Some ph /\ HeaderFromProto (Some ph) = inr h.
Proof.
  intros Hv. eexists; split; [reflexivity|]. unfold HeaderFromProto.
  cbn [phVersion phChainID phHeight phTime phLastBlockId phLastCommitHash phDataHash phValidatorsHash
    phNextValidatorsHash phConsensusHash phAppHash phResultsHash phEvidenceHash phProposerAddress].
  assert (Hb : BlockID_ValidateBasic (hLastBlockID h) = None).
  { unfold Header_ValidateBasic in Hv. do 3 (case_match; [done|]). by destruct (BlockID_ValidateBasic (hLastBlockID h)). }
  rewrite BlockID_valid_roundtrip by done. destruct h. simpl in *. by rewrite Hv.
Qed.

Lemma CommitSig_roundtrip cs : CommitSig_ValidateBasic cs = None ->
  CommitSig_FromProto (CommitSig_ToProto cs) = inr cs.
Proof.
  intros Hv. unfold CommitSig_FromProto, CommitSig_ToProto. simpl.
  assert (Hf : csBlockIDFlag cs mod 256 = csBlockIDFlag cs).
  { unfold CommitSig_ValidateBasic in Hv. case_match eqn:E; [done|]. apply negb_false_iff in E.
    unfold BlockIDFlagAbsent, BlockIDFlagCommit, BlockIDFlagNil in E. apply Z.mod_small. lia. }
  rewrite Hf. destruct cs. simpl in *. by rewrite Hv.
Qed.

Lemma commitSigs_roundtrip sigs : Forall (fun cs => CommitSig_ValidateBasic cs = None) sigs ->
  commitSigsFromProto (CommitSig_ToProto <$> sigs) = inr sigs.
Proof.
  induction 1 as [|cs sigs Hcs _ IH]; [done|]. rewrite fmap_cons. cbn [commitSigsFromProto].
  by rewrite CommitSig_roundtrip, IH by done.
Qed.

(** The commit of a block that can be sent: a memoized bit array makes the
    receiver panic. *)
Definition sendable (c : Commit) : Prop :=
  BlockID_ValidateBasic (cBlockID c) = None /\ Commit_ValidateBasic c = None
  /\ Forall (fun cs => CommitSig_ValidateBasic cs = None) (cSignatures c) /\ cBitArray c = None.

Lemma Commit_roundtrip c : sendable c ->
  exists pc, Commit_ToProto (Some c) = Some pc /\ CommitFromProto (Some pc) = Done (inr c).
Proof.
  intros (Hb & Hv & Hs & Ha). eexists; split; [reflexivity|]. unfold CommitFromProto.
  cbn [pcHeight pcRound pcBlockID pcSignatures pcHash pcBitArray].
  rewrite BlockID_valid_roundtrip by done. rewrite Ha. change (BitArray_ToProto None) with (@None protoBitArray).
  cbn [BitArray_FromProto]. rewrite bind_Done, commitSigs_roundtrip by done.
  destruct c. simpl in *. subst. by rewrite Hv.
Qed.

(** What the conversions of evidence promise *)
Record EvidenceLaws : Prop := {
  evidence_roundtrip : forall ev pe, EvidenceToProto ev = Done (inr pe) -> EvidenceFromProto pe = Done (inr ev)
}.

Lemma convertAll_roundtrip (EL : EvidenceLaws) evs pes :
  convertAll EvidenceToProto evs = Done (inr pes) -> convertAll EvidenceFromProto pes = Done (inr evs).
Proof.
  revert pes. induction evs as [|ev evs IH]; intros pes E; cbn [convertAll] in E.
  { by injection E as <-. }
  apply bind_Done_inv in E as ([|pe] & E1 & E); [done|].
  apply bind_Done_inv in E as ([|pes'] & E2 & E); [done|]. injection E as <-. cbn [convertAll].
  by rewrite (evidence_roundtrip EL _ _ E1), bind_Done, (IH _ E2), bind_Done.
Qed.

Lemma Block_proto_roundtrip (EL : EvidenceLaws) b b' bp :
  Block_ValidateBasic (Some b) = Done (None, Some b') ->
  match bLastCommit b with Some c => sendable c | None => True end ->
  Block_ToProto (Some b) = Done (inr bp) ->
  BlockFromProto (Some bp) = Done (inr b').
Proof.
  intros Hv Hc E. unfold Block_ToProto in E. apply bind_Done_inv in E as ([|evd] & Ee & E); [done|].
  assert (Hh : Header_ValidateBasic (bHeader b) = None).
  { unfold Block_ValidateBasic in Hv. by destruct (Header_ValidateBasic (bHeader b)). }
  destruct (Header_roundtrip _ Hh) as (ph & Eph & Hph). rewrite Eph in E. injection E as <-.
  unfold BlockFromProto. cbn [pblHeader pblData pblEvidence pblLastCommit]. rewrite Hph.
  unfold DataFromProto, Data_ToProto. cbn [dTxs dHash].
  unfold EvidenceData_ToProto in Ee. apply bind_Done_inv in Ee as ([|pes] & Ec & Ee); [done|]. injection Ee as <-.
  unfold EvidenceData_FromProto. cbn [pedEvidence pedHash].
  rewrite (convertAll_roundtrip EL _ _ Ec), bind_Done, bind_Done.
  destruct b as [hd [txs dh] [evs eh] [lc|]]. cbn [bHeader bData bEvidence bLastCommit dTxs dHash edEvidence edHash] in *.
  - destruct (Commit_roundtrip lc Hc) as (pc & Epc & Hpc). rewrite Epc, Hpc, bind_Done, Hv, bind_Done. done.
  - unfold Block_ValidateBasic in Hv. cbn [bHeader bLastCommit] in Hv, Hh. by rewrite Hh in Hv.
Qed.

(** What the generated codec promises *)
Record CodecLaws : Prop := {
  codec_roundtrip : forall pb bz, pbMarshal pb = inr bz -> pbUnmarshal bz = inr pb;
  codec_nonempty : forall pb bz, pbMarshal pb = inr bz -> bz <> []
}.

(** Cutting a block into parts, and reading it back as
    [addProposalBlockPart] does. *)
Lemma MakePartSet_roundtrip {L : TmHashLaws TH} (EL : EvidenceLaws) (CL : CodecLaws) b b' bp bz partSize sizes :
  Block_ValidateBasic (Some b) = Done (None, Some b') ->
  match bLastCommit b with Some c => sendable c | None => True end ->
  Block_ToProto (Some b) = Done (inr bp) -> pbMarshal bp = inr bz ->
  0 < partSize -> Z.of_nat (length bz) + partSize <= 2 ^ 32 -> (forall k, 0 < sizes k)%nat ->
  exists full psr, MakePartSet (Some b) partSize = Done (Some full)
    /\ PartSet_IsComplete full = true /\ PartSet_GetReader full = Done psr
    /\ ReadAll sizes (S (length bz)) psr [] = Done bz
    /\ pbUnmarshal bz = inr bp /\ BlockFromProto (Some bp) = Done (inr b').
Proof.
  intros Hv Hc Ebp Ebz Hps Hlen Hs.
  destruct (NewPartSetFromData_spec bz partSize Hps (codec_nonempty CL _ _ Ebz) Hlen)
    as (full & t & E & Hinv & Ht & Hall & Hdata & _).
  assert (Hcomp : PartSet_IsComplete full = true) by (by apply IsComplete_iff).
  destruct (ReadAll_complete full sizes Hinv Ht Hcomp Hs) as (psr & E1 & E2). rewrite Hdata in E2.
  exists full, psr. unfold MakePartSet. rewrite Ebp, bind_Done, Ebz, E, bind_Done.
  split_and!; try done; [by apply (codec_roundtrip CL)|by apply (Block_proto_roundtrip EL b)].
Qed.

End block.

(** ** Sizes *)

(** [int64] arithmetic, as in the source *)
Definition MaxDataBytes (maxBytes valsCount evidenceCount : Z) : outcome Z :=
  let maxDataBytes := wrap64 (maxBytes - MaxOverheadForBlock - MaxHeaderBytes
    - valsCount * MaxVoteBytes - evidenceCount * MaxEvidenceBytes) in
  if maxDataBytes <? 0 then Panic "Negative MaxDataBytes" else Done maxDataBytes.

Definition MaxDataBytesUnknownEvidence (maxBytes valsCount maxNumEvidence : Z) : outcome Z :=
  let maxEvidenceBytes := wrap64 (maxNumEvidence * MaxEvidenceBytes) in
  let maxDataBytes := wrap64 (maxBytes - MaxOverheadForBlock - MaxHeaderBytes
    - valsCount * MaxVoteBytes - maxEvidenceBytes) in
  if maxDataBytes <? 0 then Panic "Negative MaxDataBytesUnknownEvidence" else Done maxDataBytes.

(** ** Claims *)

(** An example: a block with no evidence at height 1. *)
Definition exampleEvidence : EvidenceImpl := {|
  Evidence := Empty_set;
  protoEvidence := Empty_set;
  evIsConflictingHeaders _ := false;
  evIsPotentialAmnesia _ := false;
  evBytes _ := Done [];
  evValidateBasic _ := Done None;
  EvidenceToProto ev := Done (inr ev);
  EvidenceFromProto ev := Done (inr ev)
|}.

Definition exampleBlock : @Block exampleEvidence :=
  mkBlock exampleHeader (mkData exampleTxs None) (@mkEvidenceData exampleEvidence [] None)
    (Some (NewCommit 0 0 zeroBlockID [])).

(** [C38] A block whose hashes are computed and not received is bound by its
    header: if [ValidateBasic] accepts it, the header is valid and its commit,
    data and evidence hashes are the Merkle roots of the signatures of the last
    commit, of the transactions and of the evidence, all of which is valid on its
    own; the block itself does not change but for memoized hashes. *)
Theorem Block_ValidateBasic_correct (TH : TmHash) (ST : StdTime) (EI : EvidenceImpl) (b b' : Block) :
  fresh b -> Block_ValidateBasic (Some b) = Done (None, Some b') ->
  Header_ValidateBasic (bHeader b) = None
  /\ (exists lc, bLastCommit b = Some lc
      /\ (1 < hHeight (bHeader b) -> Commit_ValidateBasic lc = None)
      /\ commitRoot lc = Done (sliceOf (hLastCommitHash (bHeader b))))
  /\ Txs_Hash (dTxs (bData b)) = Done (sliceOf (hDataHash (bHeader b)))
  /\ checkEvidence (edEvidence (bEvidence b)) = Done None
  /\ EvidenceList_Hash (edEvidence (bEvidence b)) = Done (sliceOf (hEvidenceHash (bHeader b)))
  /\ bHeader b' = bHeader b /\ dTxs (bData b') = dTxs (bData b)
  /\ edEvidence (bEvidence b') = edEvidence (bEvidence b).
Proof. apply ValidateBasic_fresh. Qed.

Definition exampleValidated : @Block exampleEvidence :=
  match @Block_ValidateBasic exampleTmHash exampleStdTime exampleEvidence (Some exampleBlock) with
  | Done (None, Some b) => b
  | _ => exampleBlock
  end.

Lemma Block_ValidateBasic_correct_witness :
  @Txs_Hash exampleTmHash exampleTxs = Done (sliceOf (hDataHash exampleHeader)).
Proof.
  apply (Block_ValidateBasic_correct exampleTmHash exampleStdTime exampleEvidence exampleBlock exampleValidated).
  - vm_compute. repeat split.
  - vm_compute. reflexivity.
Defined.

(** [C39] A received block is not bound by its header's data hash.
    [DataFromProto] takes the memoized hash of the transactions from the message,
    and [ValidateBasic] compares the header with it: if a block message that
    carries such a hash is accepted, so is the same message with any other
    transactions. *)
Theorem BlockFromProto_unbound_txs (TH : TmHash) (ST : StdTime) (EI : EvidenceImpl)
    (bp : protoBlock) (b : Block) (h : bytes) (txs : list bytes) :
  dHash (pblData bp) = Some h -> BlockFromProto (Some bp) = Done (inr b) ->
  BlockFromProto (Some (protoWithTxs bp txs)) = Done (inr (withTxs b txs)).
Proof. intros. by eapply BlockFromProto_txs. Qed.

Definition exampleProtoBlock : @protoBlock exampleEvidence :=
  match @Block_ToProto exampleEvidence (Some exampleValidated) with
  | Done (inr bp) => bp
  | _ => mkProtoBlock (mkProtoHeader (mkVersion 0 0) [] 0 0 (BlockID_ToProto None) None None [] [] [] [] [] None [])
           (mkData [] None) (@mkProtoEvidenceData exampleEvidence [] None) None
  end.

Lemma BlockFromProto_unbound_txs_witness :
  exists b, @BlockFromProto exampleTmHash exampleStdTime exampleEvidence
    (Some (protoWithTxs exampleProtoBlock [[Byte.xff]])) = Done (inr b)
    /\ dTxs (bData b) = [[Byte.xff]]
    /\ @Txs_Hash exampleTmHash (dTxs (bData b)) <> Done (sliceOf (hDataHash (bHeader b))).
Proof.
  exists (withTxs exampleValidated [[Byte.xff]]). split.
  - apply (BlockFromProto_unbound_txs exampleTmHash exampleStdTime exampleEvidence exampleProtoBlock
      exampleValidated (sliceOf (hDataHash exampleHeader))).
    + vm_compute. reflexivity.
    + vm_compute. reflexivity.
  - split; [reflexivity|]. vm_compute. congruence.
Defined.


#[global] Instance protoBlock_eq_dec : EqDecision (@protoBlock exampleEvidence).
Proof.
  assert (EqDecision Version) by solve_decision.
  assert (EqDecision protoPartSetHeader) by solve_decision.
  assert (EqDecision protoBlockID) by solve_decision.
  assert (EqDecision protoBitArray) by solve_decision.
  assert (EqDecision protoCommitSig) by solve_decision.
  assert (EqDecision protoCommit) by solve_decision.
  assert (EqDecision protoHeader) by solve_decision.
  assert (EqDecision Data) by solve_decision.
  assert (EqDecision (@protoEvidence exampleEvidence)) by (intros []).
  assert (EqDecision (@protoEvidenceData exampleEvidence)) by solve_decision.
  solve_decision.
Defined.

(** A codec that knows one block *)
Definition exampleCodec : @BlockCodec exampleEvidence := {|
  pbMarshal pb := if decide (pb = exampleProtoBlock) then inr exampleData else inl "no encoding";
  pbUnmarshal bz := inr exampleProtoBlock;
  pbSize _ := 5
|}.

Lemma exampleCodec_laws : @CodecLaws exampleEvidence exampleCodec.
Proof.
  split; unfold pbMarshal, pbUnmarshal, exampleCodec; intros pb bz; destruct (decide (pb = exampleProtoBlock)) as [->|];
    try discriminate; [reflexivity|]. intros [= <-]. discriminate.
Qed.

Lemma exampleEvidence_laws : @EvidenceLaws exampleEvidence.
Proof. split. intros []. Qed.


(** [MaxDataBytes] is the block size less the overhead, the header,
    one vote per validator and the evidence; when that is negative it panics,
    and for limits in the range of valid consensus parameters it does not
    overflow. *)
Theorem MaxDataBytes_bounds (maxBytes valsCount evidenceCount : Z) :
  0 <= maxBytes <= 2 ^ 40 -> 0 <= valsCount <= 2 ^ 40 -> 0 <= evidenceCount <= 2 ^ 40 ->
  let rest := maxBytes - MaxOverheadForBlock - MaxHeaderBytes - valsCount * MaxVoteBytes
              - evidenceCount * MaxEvidenceBytes in
  MaxDataBytes maxBytes valsCount evidenceCount
    = (if rest <? 0 then Panic "Negative MaxDataBytes" else Done rest)
  /\ MaxDataBytesUnknownEvidence maxBytes valsCount evidenceCount
    = (if rest <? 0 then Panic "Negative MaxDataBytesUnknownEvidence" else Done rest).
Proof.
  intros Hm Hv He rest. unfold MaxDataBytes, MaxDataBytesUnknownEvidence. fold rest.
  assert (Hr : int64 rest).
  { unfold int64, MinInt64, MaxInt64, rest, MaxOverheadForBlock, MaxHeaderBytes, MaxVoteBytes, MaxEvidenceBytes. lia. }
  rewrite (wrap64_id (evidenceCount * MaxEvidenceBytes))
    by (unfold int64, MinInt64, MaxInt64, MaxEvidenceBytes; lia).
  fold rest. by rewrite wrap64_id.
Qed.

Lemma MaxDataBytes_bounds_witness : MaxDataBytes 22020096 100 50 = Done 21976359.
Proof.
  destruct (MaxDataBytes_bounds 22020096 100 50) as [-> _]; [lia|lia|lia|]. vm_compute. reflexivity.
Defined.
