(* ===== verification/ProtoDecode.v ===== *)
(** * Decoding protocol buffers

    The generated [Unmarshal] methods of the canonical messages
    (proto/tendermint/types/canonical.pb.go) and the length-prefixed reader of
    libs/protoio/reader.go, with the round trips of the encoders of
    [BlockTypes].

    The methods share one shape: a loop that reads a tag and hands over to the
    code of the field.  The loop is [fieldsLoop], the cases of its [switch]
    are one function per message.  A position in the input is the pair of
    [iNdEx] and the bytes [dAtA[iNdEx:]]. *)

From Stdlib Require Import ZArith Lia.
From S2P Require Import Prelude Proto BlockTypes SignBytes.
From stdpp Require Import base gmap list option strings numbers sorting.

Local Open Scope Z_scope.

(** Calls that may return an error. *)
Definition rbind {A B} (m : result A) (k : A -> result B) : result B :=
  match m with inl err => inl err | inr x => k x end.

Notation "'let?' x := m 'in' k" := (rbind m (fun x => k))
  (at level 200, x pattern, m at level 100, k at level 200, right associativity).

(** ** Primitives *)

Definition ErrIntOverflow : error := "proto: integer overflow".
Definition ErrUnexpectedEOF : error := "unexpected EOF".
Definition ErrInvalidLength : error := "proto: negative length found during unmarshaling".
Definition ErrWrongWireType : error := "proto: wrong wireType".

Record cursor := mkCursor { iNdEx : Z; rest : bytes }.

(** The loop [for shift := uint(0); ; shift += 7]; [cast] is the conversion to
    the type of the variable that collects the groups. *)
Fixpoint readVarint (cast : Z -> Z) (shift acc i : Z) (bz : bytes) : result (Z * cursor) :=
  if 64 <=? shift then inl ErrIntOverflow
  else match bz with
  | [] => inl ErrUnexpectedEOF
  | b :: bz' =>
    let acc := Z.lor acc (cast (Z.shiftl (Z.land (byte_to_Z b) 127) shift)) in
    if byte_to_Z b <? 128 then inr (acc, mkCursor (i + 1) bz')
    else readVarint cast (shift + 7) acc (i + 1) bz'
  end.

Definition getVarint (cast : Z -> Z) (c : cursor) : result (Z * cursor) :=
  readVarint cast 0 0 (iNdEx c) (rest c).

(** A length and the bytes [dAtA[iNdEx:postIndex]] after it; [cast] is [int]
    or, for strings, [uint64]. *)
Definition getDelimited (cast : Z -> Z) (c : cursor) : result (bytes * cursor) :=
  let l := iNdEx c + Z.of_nat (length (rest c)) in
  let? (n, c) := getVarint cast c in
  let len := wrap64 n in
  if len <? 0 then inl ErrInvalidLength
  else
    let postIndex := wrap64 (iNdEx c + len) in
    if postIndex <? 0 then inl ErrInvalidLength
    else if l <? postIndex then inl ErrUnexpectedEOF
    else inr (take (Z.to_nat len) (rest c), mkCursor postIndex (drop (Z.to_nat len) (rest c))).

(** [binary.LittleEndian.Uint64] *)
Definition getUint64LE (bz : bytes) : Z :=
  fold_right (fun b acc => Z.lor (byte_to_Z b) (Z.shiftl acc 8)) 0 (take 8 bz).

Definition getSfixed64 (c : cursor) : result (Z * cursor) :=
  if (length (rest c) <? 8)%nat then inl ErrUnexpectedEOF
  else inr (wrap64 (getUint64LE (rest c)), mkCursor (iNdEx c + 8) (drop 8 (rest c))).

Definition advance (n : Z) (c : cursor) : cursor :=
  mkCursor (wrap64 (iNdEx c + n)) (drop (Z.to_nat n) (rest c)).

(** [skipCanonical]; every round of the loop reads a byte, so that one more
    than the length of the input bounds the rounds. *)
Fixpoint skipLoop (fuel : nat) (l depth : Z) (c : cursor) : result Z :=
  match fuel with
  | O => inl "out of fuel"
  | S fuel' =>
    if l <=? iNdEx c then inl ErrUnexpectedEOF
    else
      let? (wire, c) := getVarint wrapu64 c in
      let wireType := Z.land wire 7 in
      let? (depth, c) :=
        (if wireType =? 0 then let? (_, c) := getVarint wrapu64 c in inr (depth, c)
         else if wireType =? 1 then inr (depth, advance 8 c)
         else if wireType =? 2 then
           let? (n, c) := getVarint wrap64 c in
           if n <? 0 then inl ErrInvalidLength else inr (depth, advance n c)
         else if wireType =? 3 then inr (depth + 1, c)
         else if wireType =? 4 then
           if depth =? 0 then inl "proto: unexpected end of group" else inr (depth - 1, c)
         else if wireType =? 5 then inr (depth, advance 4 c)
         else inl "proto: illegal wireType") in
      if iNdEx c <? 0 then inl ErrInvalidLength
      else if depth =? 0 then inr (iNdEx c)
      else skipLoop fuel' l depth c
  end.

Definition skipCanonical (dAtA : bytes) : result Z :=
  skipLoop (S (length dAtA)) (Z.of_nat (length dAtA)) 0 (mkCursor 0 dAtA).

(** ** The loop over the fields *)

Section message.
Context {M : Type} (field : Z -> Z -> cursor -> M -> option (result (M * cursor))).

(** [field fieldNum wireType c m] is the case of the [switch] for [fieldNum],
    [None] for the default case. *)
Fixpoint fieldsLoop (fuel : nat) (c : cursor) (m : M) : result M :=
  match fuel with
  | O => inl "out of fuel"
  | S fuel' =>
    match rest c with
    | [] => inr m
    | _ =>
      let? (wire, c') := getVarint wrapu64 c in
      let fieldNum := wrap32 (Z.shiftr wire 3) in
      let wireType := Z.land wire 7 in
      if wireType =? 4 then inl "proto: wiretype end group for non-group"
      else if fieldNum <=? 0 then inl "proto: illegal tag"
      else match field fieldNum wireType c' m with
      | Some r => let? (m, c) := r in fieldsLoop fuel' c m
      | None =>
        let? skippy := skipCanonical (rest c) in
        if skippy <? 0 then inl ErrInvalidLength
        else if wrap64 (iNdEx c + skippy) <? 0 then inl ErrInvalidLength
        else if Z.of_nat (length (rest c)) <? skippy then inl ErrUnexpectedEOF
        else fieldsLoop fuel' (advance skippy c) m
      end
    end
  end.

Definition unmarshal (dAtA : bytes) (m : M) : result M :=
  fieldsLoop (S (length dAtA)) (mkCursor 0 dAtA) m.

End message.

(** The check of the wire type at the head of a case. *)
Definition withType {A} (wireType expected : Z) (r : result A) : option (result A) :=
  Some (if negb (wireType =? expected) then inl ErrWrongWireType else r).

(** ** The messages *)

Definition CanonicalPartSetHeader_field (fieldNum wireType : Z) (c : cursor) (m : protoPartSetHeader)
    : option (result (protoPartSetHeader * cursor)) :=
  if fieldNum =? 1 then withType wireType 0
    (let? (v, c) := getVarint wrapu32 c in inr (mkProtoPartSetHeader v (ppshHash m), c))
  else if fieldNum =? 2 then withType wireType 2
    (let? (bz, c) := getDelimited wrap64 c in inr (mkProtoPartSetHeader (ppshTotal m) bz, c))
  else None.

Definition CanonicalPartSetHeader_Unmarshal := unmarshal CanonicalPartSetHeader_field.

Definition CanonicalBlockID_field (fieldNum wireType : Z) (c : cursor) (m : CanonicalBlockID)
    : option (result (CanonicalBlockID * cursor)) :=
  if fieldNum =? 1 then withType wireType 2
    (let? (bz, c) := getDelimited wrap64 c in inr (mkCanonicalBlockID bz (cbidPartSetHeader m), c))
  else if fieldNum =? 2 then withType wireType 2
    (let? (bz, c) := getDelimited wrap64 c in
     let? psh := CanonicalPartSetHeader_Unmarshal bz (cbidPartSetHeader m) in
     inr (mkCanonicalBlockID (cbidHash m) psh, c))
  else None.

Definition CanonicalBlockID_Unmarshal := unmarshal CanonicalBlockID_field.

Definition zeroCanonicalBlockID : CanonicalBlockID := mkCanonicalBlockID [] (mkProtoPartSetHeader 0 []).

(** The case of a [BlockID] field: the message the pointer refers to, a new
    one if it is nil, is decoded into. *)
Definition getBlockID (o : option CanonicalBlockID) (c : cursor)
    : result (option CanonicalBlockID * cursor) :=
  let? (bz, c) := getDelimited wrap64 c in
  let? b := CanonicalBlockID_Unmarshal bz (default zeroCanonicalBlockID o) in inr (Some b, c).

(** What the decoder and the signer use of gogo/protobuf: the decoding of a
    [Timestamp] message and [proto.Equal]. *)
Class Gogo := {
  StdTimeUnmarshal : bytes -> result Time;
  EqualVote : CanonicalVote -> CanonicalVote -> bool;
  EqualProposal : CanonicalProposal -> CanonicalProposal -> bool
}.

Section decode.
Context {G : Gogo}.

Definition getTime (c : cursor) : result (Time * cursor) :=
  let? (bz, c) := getDelimited wrap64 c in let? t := StdTimeUnmarshal bz in inr (t, c).

Definition CanonicalVote_field (fieldNum wireType : Z) (c : cursor) (m : CanonicalVote)
    : option (result (CanonicalVote * cursor)) :=
  let '(mkCanonicalVote ty h r b t ch) := m in
  if fieldNum =? 1 then withType wireType 0
    (let? (ty, c) := getVarint wrap32 c in inr (mkCanonicalVote ty h r b t ch, c))
  else if fieldNum =? 2 then withType wireType 1
    (let? (h, c) := getSfixed64 c in inr (mkCanonicalVote ty h r b t ch, c))
  else if fieldNum =? 3 then withType wireType 1
    (let? (r, c) := getSfixed64 c in inr (mkCanonicalVote ty h r b t ch, c))
  else if fieldNum =? 4 then withType wireType 2
    (let? (b, c) := getBlockID b c in inr (mkCanonicalVote ty h r b t ch, c))
  else if fieldNum =? 5 then withType wireType 2
    (let? (t, c) := getTime c in inr (mkCanonicalVote ty h r b t ch, c))
  else if fieldNum =? 6 then withType wireType 2
    (let? (ch, c) := getDelimited wrapu64 c in inr (mkCanonicalVote ty h r b t ch, c))
  else None.

Definition CanonicalVote_Unmarshal := unmarshal CanonicalVote_field.

Definition CanonicalProposal_field (fieldNum wireType : Z) (c : cursor) (m : CanonicalProposal)
    : option (result (CanonicalProposal * cursor)) :=
  let '(mkCanonicalProposal ty h r pol b t ch) := m in
  if fieldNum =? 1 then withType wireType 0
    (let? (ty, c) := getVarint wrap32 c in inr (mkCanonicalProposal ty h r pol b t ch, c))
  else if fieldNum =? 2 then withType wireType 1
    (let? (h, c) := getSfixed64 c in inr (mkCanonicalProposal ty h r pol b t ch, c))
  else if fieldNum =? 3 then withType wireType 1
    (let? (r, c) := getSfixed64 c in inr (mkCanonicalProposal ty h r pol b t ch, c))
  else if fieldNum =? 4 then withType wireType 0
    (let? (pol, c) := getVarint wrap64 c in inr (mkCanonicalProposal ty h r pol b t ch, c))
  else if fieldNum =? 5 then withType wireType 2
    (let? (b, c) := getBlockID b c in inr (mkCanonicalProposal ty h r pol b t ch, c))
  else if fieldNum =? 6 then withType wireType 2
    (let? (t, c) := getTime c in inr (mkCanonicalProposal ty h r pol b t ch, c))
  else if fieldNum =? 7 then withType wireType 2
    (let? (ch, c) := getDelimited wrapu64 c in inr (mkCanonicalProposal ty h r pol b t ch, c))
  else None.

Definition CanonicalProposal_Unmarshal := unmarshal CanonicalProposal_field.

End decode.

(** ** Length-prefixed messages *)

(** [binary.ReadUvarint]: the value and the bytes after it. *)
Fixpoint ReadUvarint (i s x : Z) (bz : bytes) : result (Z * bytes) :=
  match bz with
  | [] => inl "EOF"
  | b :: bz' =>
    if byte_to_Z b <? 128 then
      if (9 <? i) || ((i =? 9) && (1 <? byte_to_Z b))
      then inl "binary: varint overflows a 64-bit integer"
      else inr (Z.lor x (wrapu64 (Z.shiftl (byte_to_Z b) s)), bz')
    else ReadUvarint (i + 1) (s + 7)
           (Z.lor x (wrapu64 (Z.shiftl (Z.land (byte_to_Z b) 127) s))) bz'
  end.

(** [varintReader.ReadMsg] as [UnmarshalDelimited] calls it, with the size of
    the input as the maximal size; [proto.Unmarshal] resets the message before
    it decodes into it. *)
Definition UnmarshalDelimited {M} (Unmarshal : bytes -> M -> result M) (zero : M) (data : bytes)
    : result M :=
  let? (length64, bz) := ReadUvarint 0 0 0 data in
  let n := wrap64 length64 in
  if (n <? 0) || (Z.of_nat (length data) <? n) then inl "message exceeds max size"
  else if Z.of_nat (length bz) <? n then inl ErrUnexpectedEOF
  else Unmarshal (take (Z.to_nat n) bz) zero.
