(* ===== verification/ProtoRoundtrip.v ===== *)
(** * Round trips of the canonical messages

    Decoding what the encoders of [BlockTypes] write gives the message back. *)

From Stdlib Require Import ZArith Lia.
From S2P Require Import Prelude Proto BlockTypes SignBytes ProtoDecode.
From stdpp Require Import base gmap list option strings numbers sorting.

Local Open Scope Z_scope.

(** ** Conversions and bits *)

(** A conversion to a machine type, as far as collecting groups of bits goes. *)
Class LorHom (cast : Z -> Z) : Prop :=
  lor_hom : forall a b, cast (Z.lor a b) = Z.lor (cast a) (cast b).

#[global] Instance wrapu64_hom : LorHom wrapu64.
Proof. intros a b. unfold wrapu64. rewrite <- !Z.land_ones by lia. apply Z.land_lor_distr_l. Qed.

#[global] Instance wrapu32_hom : LorHom wrapu32.
Proof. intros a b. unfold wrapu32. rewrite <- !Z.land_ones by lia. apply Z.land_lor_distr_l. Qed.

(** Storing in a two's complement register repeats the sign bit. *)
Lemma wrap_testbit w z n :
  0 < w -> 0 <= n -> Z.testbit (wrap w z) n = Z.testbit z (if n <? w then n else w - 1).
Proof.
  intros Hw Hn. unfold wrap.
  assert (2 ^ w = 2 * 2 ^ (w - 1)) as Ew by (rewrite <- Z.pow_succ_r by lia; f_equal; lia).
  assert (0 < 2 ^ (w - 1)) as Hpos by (apply Z.pow_pos_nonneg; lia).
  set (u := z mod 2 ^ w). assert (0 <= u < 2 ^ w) as Hu by (apply Z.mod_pos_bound; lia).
  assert ((z + 2 ^ (w - 1)) mod 2 ^ w = (u + 2 ^ (w - 1)) mod 2 ^ w) as ->
    by (unfold u; by rewrite Z.add_mod_idemp_l by lia).
  assert (forall k, 0 <= k < w -> Z.testbit z k = Z.testbit u k) as Hlow
    by (intros k Hk; unfold u; by rewrite Z.mod_pow2_bits_low by lia).
  assert (forall k, w <= k -> Z.testbit u k = false) as Hhigh
    by (intros k Hk; unfold u; by rewrite Z.mod_pow2_bits_high by lia).
  assert (Z.testbit u (w - 1) = (2 ^ (w - 1) <=? u)) as Hsign.
  { rewrite Z.testbit_eqb by lia.
    destruct (Z.leb_spec (2 ^ (w - 1)) u).
    - assert (u / 2 ^ (w - 1) = 1) as -> by (symmetry; apply Z.div_unique with (u - 2 ^ (w - 1)); lia). done.
    - by rewrite Z.div_small by lia. }
  destruct (Z.leb_spec (2 ^ (w - 1)) u) as [Hge|Hlt].
  - assert ((u + 2 ^ (w - 1)) mod 2 ^ w = u - 2 ^ (w - 1)) as ->
      by (replace (u + 2 ^ (w - 1)) with (u - 2 ^ (w - 1) + 1 * 2 ^ w) by lia;
          rewrite Z.mod_add, Z.mod_small by lia; done).
    assert (u - 2 ^ (w - 1) - 2 ^ (w - 1) = - Z.succ (Z.lnot u + 2 ^ w)) as -> by (unfold Z.lnot; lia).
    rewrite <- Z.add_1_r, Z.opp_add_distr.
    change (- (Z.lnot u + 2 ^ w) + - (1)) with (Z.lnot (Z.lnot u + 2 ^ w)). rewrite Z.lnot_spec by lia.
    assert (Z.lnot u + 2 ^ w = 2 ^ w - 1 - u) as -> by (unfold Z.lnot; lia).
    replace (2 ^ w - 1) with (Z.ones w) by (rewrite Z.ones_equiv; lia).
    rewrite Z.sub_nocarry_ldiff.
    2:{ apply Z.bits_inj'. intros k Hk. rewrite Z.ldiff_spec, Z.bits_0, Z.testbit_ones_nonneg by lia.
        destruct (Z.ltb_spec k w); simpl; [by rewrite andb_false_r|]. by rewrite Hhigh. }
    rewrite Z.ldiff_spec, Z.testbit_ones_nonneg by lia.
    destruct (Z.ltb_spec n w); simpl; [by rewrite negb_involutive, Hlow|].
    rewrite Hlow by lia. by rewrite Hsign.
  - rewrite Z.mod_small by lia. replace (u + 2 ^ (w - 1) - 2 ^ (w - 1)) with u by lia.
    destruct (Z.ltb_spec n w); [by rewrite Hlow|]. rewrite Hhigh, Hlow, Hsign by lia. done.
Qed.

Lemma wrap_hom w : 0 < w -> LorHom (wrap w).
Proof.
  intros Hw a b. apply Z.bits_inj'. intros n Hn.
  rewrite Z.lor_spec, !wrap_testbit by done. by rewrite Z.lor_spec.
Qed.

#[global] Instance wrap64_hom : LorHom wrap64.
Proof. by apply wrap_hom. Qed.
#[global] Instance wrap32_hom : LorHom wrap32.
Proof. by apply wrap_hom. Qed.

Lemma wrap_mod w v z : 0 < v <= w -> wrap v (z mod 2 ^ w) = wrap v z.
Proof.
  intros Hv. unfold wrap. f_equal. rewrite Z.add_mod by lia.
  rewrite <- Znumtheory.Zmod_div_mod by (try apply Z.pow_pos_nonneg; try lia; exists (2 ^ (w - v));
    rewrite <- Z.pow_add_r by lia; f_equal; lia).
  by rewrite <- Z.add_mod by lia.
Qed.

(** ** Primitives *)

Lemma low_group v : v = Z.lor (v mod 128) (Z.shiftl (Z.shiftr v 7) 7).
Proof.
  apply Z.bits_inj'. intros n Hn. rewrite Z.lor_spec, Z.shiftl_spec by lia.
  change 128 with (2 ^ 7). destruct (Z.ltb_spec n 7).
  - rewrite Z.mod_pow2_bits_low, (Z.testbit_neg_r _ (n - 7)), orb_false_r by lia. done.
  - rewrite Z.mod_pow2_bits_high, Z.shiftr_spec by lia. simpl. f_equal. lia.
Qed.

Lemma shift_groups v s :
  0 <= s -> Z.shiftl v s = Z.lor (Z.shiftl (v mod 128) s) (Z.shiftl (Z.shiftr v 7) (s + 7)).
Proof.
  intros Hs. rewrite (low_group v) at 1. rewrite Z.shiftl_lor, Z.shiftl_shiftl by lia.
  by rewrite (Z.add_comm 7).
Qed.

(** Reading one varint group by group. *)
Lemma group_step v :
  128 <= v -> byte_to_Z (byte_of_Z (Z.lor (Z.land v 127) 128)) <? 128 = false /\
  Z.land (byte_to_Z (byte_of_Z (Z.lor (Z.land v 127) 128))) 127 = v mod 128.
Proof.
  intros Hv. rewrite varint_group. pose proof (Z.mod_pos_bound v 128 ltac:(lia)). split; [lia|].
  rewrite land_127. replace (v mod 128 + 128) with (v mod 128 + 1 * 128) by lia.
  rewrite Z.mod_add, Z.mod_mod; lia.
Qed.

Lemma group_last v :
  0 <= v < 128 -> byte_to_Z (byte_of_Z v) = v.
Proof. intros Hv. rewrite byte_to_of_Z, Z.mod_small; lia. Qed.

Lemma shiftr_bound v k : 128 <= v < 2 ^ k -> 7 < k /\ 0 <= Z.shiftr v 7 < 2 ^ (k - 7).
Proof.
  intros Hv. assert (7 < k).
  { destruct (Z.ltb_spec 7 k); [done|]. assert (2 ^ k <= 2 ^ 7) by (apply Z.pow_le_mono_r; lia). lia. }
  split; [done|]. rewrite Z.shiftr_div_pow2 by lia. split; [apply Z.div_pos; lia|].
  apply Z.div_lt_upper_bound; [lia|]. rewrite <- Z.pow_add_r by lia.
  replace (7 + (k - 7)) with k by lia. apply Hv.
Qed.

Lemma readVarint_encode cast `{!LorHom cast} fuel v shift acc i w :
  0 <= v < 2 ^ (7 * Z.of_nat fuel) -> (0 < fuel)%nat -> 0 <= shift < 64 -> v < 2 ^ (64 - shift) ->
  readVarint cast shift acc i (varintLoop fuel v ++ w)
  = inr (Z.lor acc (cast (Z.shiftl v shift)), mkCursor (i + Z.of_nat (length (varintLoop fuel v))) w).
Proof.
  revert v shift acc i. induction fuel as [|fuel IH]; intros v shift acc i Hv Hf Hs Hlt; [lia|].
  cbn [varintLoop]. destruct (Z.leb_spec 128 v) as [Hge|Hsmall].
  - cbn [app readVarint]. rewrite (proj2 (Z.leb_gt 64 shift)) by lia.
    destruct (group_step v Hge) as [-> ->].
    destruct (shiftr_bound v (7 * Z.of_nat (S fuel)) ltac:(lia)) as [Hk Hsh].
    destruct (shiftr_bound v (64 - shift) ltac:(lia)) as [Hk' Hsh'].
    rewrite IH; [| |lia|lia|].
    + do 2 f_equal; [|f_equal; cbn [length]; lia].
      rewrite (shift_groups v shift), (lor_hom (cast := cast)), Z.lor_assoc by lia. done.
    + split; [lia|]. replace (7 * Z.of_nat fuel) with (7 * Z.of_nat (S fuel) - 7) by lia. lia.
    + replace (64 - (shift + 7)) with (64 - shift - 7) by lia. lia.
  - cbn [app readVarint]. rewrite (proj2 (Z.leb_gt 64 shift)) by lia.
    rewrite group_last, land_127, Z.mod_small, (proj2 (Z.ltb_lt v 128)) by lia. done.
Qed.

Lemma getVarint_encode cast `{!LorHom cast} v i w :
  uint64 v ->
  getVarint cast (mkCursor i (encodeVarint v ++ w))
  = inr (cast v, mkCursor (i + Z.of_nat (length (encodeVarint v))) w).
Proof.
  intros Hv. unfold getVarint, encodeVarint, uint64 in *. cbn [iNdEx rest].
  rewrite readVarint_encode by (try done; try lia; change (7 * Z.of_nat 10) with 70; lia).
  by rewrite Z.shiftl_0_r, Z.lor_0_l.
Qed.

Lemma ReadUvarint_encode fuel v i x w :
  0 <= v < 2 ^ (7 * Z.of_nat fuel) -> (0 < fuel)%nat -> 0 <= i <= 9 -> v < 2 ^ (64 - 7 * i) ->
  ReadUvarint i (7 * i) x (varintLoop fuel v ++ w) = inr (Z.lor x (Z.shiftl v (7 * i)), w).
Proof.
  revert v i x. induction fuel as [|fuel IH]; intros v i x Hv Hf Hi Hlt; [lia|].
  assert (forall u, 0 <= u <= v -> wrapu64 (Z.shiftl u (7 * i)) = Z.shiftl u (7 * i)) as Hw.
  { intros u Hu. unfold wrapu64. rewrite Z.shiftl_mul_pow2 by lia. apply Z.mod_small.
    replace 64 with (64 - 7 * i + 7 * i) by lia. rewrite Z.pow_add_r by lia.
    assert (0 < 2 ^ (7 * i)) by (apply Z.pow_pos_nonneg; lia). nia. }
  cbn [varintLoop]. destruct (Z.leb_spec 128 v) as [Hge|Hsmall].
  - cbn [app ReadUvarint]. destruct (group_step v Hge) as [-> ->].
    destruct (shiftr_bound v (7 * Z.of_nat (S fuel)) ltac:(lia)) as [Hk Hsh].
    destruct (shiftr_bound v (64 - 7 * i) ltac:(lia)) as [Hk' Hsh'].
    replace (7 * i + 7) with (7 * (i + 1)) by lia. rewrite IH; [| |lia|lia|].
    + rewrite Hw by (split; [apply Z.mod_pos_bound; lia|apply Z.mod_le; lia]).
      rewrite (shift_groups v (7 * i)), Z.lor_assoc by lia.
      by replace (7 * i + 7) with (7 * (i + 1)) by lia.
    + split; [lia|]. replace (7 * Z.of_nat fuel) with (7 * Z.of_nat (S fuel) - 7) by lia. lia.
    + replace (64 - 7 * (i + 1)) with (64 - 7 * i - 7) by lia. lia.
  - cbn [app ReadUvarint]. rewrite group_last, (proj2 (Z.ltb_lt v 128)) by lia.
    rewrite (proj2 (Z.ltb_ge 9 i)) by lia. simpl.
    destruct (Z.eqb_spec i 9) as [->|]; simpl.
    + change (2 ^ (64 - 7 * 9)) with 2 in Hlt. rewrite (proj2 (Z.ltb_ge 1 v)) by lia. by rewrite Hw by lia.
    + by rewrite Hw by lia.
Qed.

(** Little-endian bytes. *)
Fixpoint leBytes (n : nat) (x : Z) : bytes :=
  match n with O => [] | S n' => byte_of_Z x :: leBytes n' (Z.shiftr x 8) end.

Lemma leBytes_value n x :
  fold_right (fun b acc => Z.lor (byte_to_Z b) (Z.shiftl acc 8)) 0 (leBytes n x) = x mod 2 ^ (8 * Z.of_nat n).
Proof.
  revert x. induction n as [|n IH]; intros x.
  - change (2 ^ (8 * Z.of_nat 0)) with 1. simpl. by rewrite Z.mod_1_r.
  - cbn [leBytes fold_right]. rewrite IH, byte_to_of_Z. apply Z.bits_inj'. intros k Hk.
    rewrite Z.lor_spec, Z.shiftl_spec by lia. change 256 with (2 ^ 8).
    destruct (Z.ltb_spec k 8).
    + rewrite Z.mod_pow2_bits_low, (Z.testbit_neg_r _ (k - 8)), orb_false_r by lia.
      by rewrite Z.mod_pow2_bits_low by lia.
    + rewrite Z.mod_pow2_bits_high by lia. simpl.
      destruct (Z.ltb_spec k (8 * Z.of_nat (S n))).
      * rewrite !Z.mod_pow2_bits_low, Z.shiftr_spec by lia. f_equal. lia.
      * by rewrite !Z.mod_pow2_bits_high by lia.
Qed.

Lemma putUint64LE_leBytes x : putUint64LE x = leBytes 8 x.
Proof.
  unfold putUint64LE. cbn [seq fmap list_fmap leBytes].
  rewrite !Z.shiftr_shiftr by lia. by rewrite Z.shiftr_0_r.
Qed.

Lemma getUint64LE_put x w : uint64 x -> getUint64LE (putUint64LE x ++ w) = x.
Proof.
  intros Hx. unfold getUint64LE. rewrite take_app_le by done.
  rewrite putUint64LE_leBytes. change (take 8 (leBytes 8 x)) with (leBytes 8 x).
  rewrite leBytes_value. by apply Z.mod_small.
Qed.

Lemma wrap64_wrapu64 x : int64 x -> wrap64 (wrapu64 x) = x.
Proof. intros Hx. unfold wrap64, wrapu64. rewrite wrap_mod by lia. by apply wrap64_id. Qed.

Lemma getSfixed64_put x i w :
  int64 x -> getSfixed64 (mkCursor i (putUint64LE (wrapu64 x) ++ w)) = inr (x, mkCursor (i + 8) w).
Proof.
  intros Hx. unfold getSfixed64. cbn [rest iNdEx].
  rewrite (proj2 (Nat.ltb_ge _ _)) by (rewrite length_app, putUint64LE_length; lia).
  rewrite getUint64LE_put by (apply Z.mod_pos_bound; lia). by rewrite wrap64_wrapu64.
Qed.

Lemma getDelimited_put cast `{!LorHom cast} v i w :
  (forall n, int64 n -> wrap64 (cast n) = n) ->
  0 <= i -> i + Z.of_nat (length (encodeVarint (Z.of_nat (length v)) ++ v ++ w)) < 2 ^ 63 ->
  getDelimited cast (mkCursor i (encodeVarint (Z.of_nat (length v)) ++ v ++ w))
  = inr (v, mkCursor (i + Z.of_nat (length (encodeVarint (Z.of_nat (length v)) ++ v))) w).
Proof.
  intros Hcast Hi Hlen. rewrite !length_app in Hlen. unfold getDelimited. cbn [iNdEx rest].
  assert (uint64 (Z.of_nat (length v))) as Hu by (unfold uint64; lia).
  rewrite getVarint_encode by done. cbn [rbind iNdEx rest].
  rewrite Hcast by (unfold int64, MinInt64, MaxInt64; lia).
  destruct (Z.ltb_spec (Z.of_nat (length v)) 0); [lia|].
  rewrite wrap64_id by (unfold int64, MinInt64, MaxInt64; lia).
  destruct (Z.ltb_spec (i + Z.of_nat (length (encodeVarint (Z.of_nat (length v)))) + Z.of_nat (length v)) 0); [lia|].
  rewrite !length_app. rewrite (proj2 (Z.ltb_ge _ (_ + _))) by lia. rewrite Nat2Z.id, take_app_length, drop_app_length.
  do 3 f_equal. lia.
Qed.

(** ** Messages *)

Section parses.
Context {M : Type} (field : Z -> Z -> cursor -> M -> option (result (M * cursor))).

(** Decoding [bz] into [m] gives [r], at every position where an [int] can
    index the input. *)
Definition parses (bz : bytes) (m : M) (r : result M) : Prop :=
  forall i fuel, 0 <= i -> i + Z.of_nat (length bz) < 2 ^ 63 -> (length bz < fuel)%nat ->
    fieldsLoop field fuel (mkCursor i bz) m = r.

Lemma parses_nil m : parses [] m (inr m).
Proof. intros i [|fuel] _ _ Hf; [simpl in Hf; lia|done]. Qed.

Lemma parses_unmarshal bz m r : fits bz -> parses bz m r -> unmarshal field bz m = r.
Proof. intros Hf P. apply P; unfold fits in Hf; lia. Qed.

(** A field with a one-byte tag. *)
Lemma parses_field tag num ty payload w m m' r :
  Z.shiftr tag 3 = num -> Z.land tag 7 = ty -> 0 < num -> tag < 128 -> ty <> 4 ->
  (forall i, 0 <= i -> i + Z.of_nat (length (payload ++ w)) < 2 ^ 63 ->
     field num ty (mkCursor i (payload ++ w)) m
     = Some (inr (m', mkCursor (i + Z.of_nat (length payload)) w))) ->
  parses w m' r -> parses (byte_of_Z tag :: payload ++ w) m r.
Proof.
  intros <- <- Hnum Htag Hty Hfield P i [|fuel] Hi Hlen Hf; [simpl in Hf; lia|]. cbn [length] in Hlen, Hf.
  assert (0 <= tag) as Htag0.
  { destruct (Z.leb_spec 0 tag); [done|]. assert (Z.shiftr tag 3 < 0) by (by apply Z.shiftr_neg). lia. }
  cbn [fieldsLoop rest]. unfold getVarint. cbn [rest iNdEx readVarint].
  rewrite group_last, land_127, Z.mod_small, (proj2 (Z.ltb_lt tag 128)), Z.shiftl_0_r, Z.lor_0_l by lia.
  change (64 <=? 0) with false. cbn match. cbn [rbind].
  assert (wrapu64 tag = tag) as -> by (apply Z.mod_small; lia).
  assert (Z.shiftr tag 3 < 128) by (rewrite Z.shiftr_div_pow2 by lia; apply Z.div_lt_upper_bound; lia).
  rewrite wrap32_id by (unfold int32, MinInt32, MaxInt32; lia).
  rewrite (proj2 (Z.eqb_neq _ _)) by done. rewrite (proj2 (Z.leb_gt _ _)) by done.
  rewrite Hfield by lia. cbn [rbind]. rewrite length_app in *. apply P; lia.
Qed.

End parses.

Lemma wrap64_cast64 n : int64 n -> wrap64 (wrap64 n) = n.
Proof. intros Hn. by rewrite (wrap64_id n), wrap64_id. Qed.

Lemma wrap32_wrapu64 x : int32 x -> wrap32 (wrapu64 x) = x.
Proof. intros Hx. unfold wrap32, wrapu64. rewrite wrap_mod by lia. by apply wrap32_id. Qed.

Lemma putDelimited_eq tag (v w : bytes) :
  putDelimited tag v w = byte_of_Z tag :: (encodeVarint (Z.of_nat (length v)) ++ v) ++ w.
Proof. unfold putDelimited. by rewrite <- app_assoc. Qed.

Lemma getDelimited_at (cast : Z -> Z) (v : bytes) i w :
  cast = wrap64 \/ cast = wrapu64 ->
  0 <= i -> i + Z.of_nat (length ((encodeVarint (Z.of_nat (length v)) ++ v) ++ w)) < 2 ^ 63 ->
  getDelimited cast (mkCursor i ((encodeVarint (Z.of_nat (length v)) ++ v) ++ w))
  = inr (v, mkCursor (i + Z.of_nat (length (encodeVarint (Z.of_nat (length v)) ++ v))) w).
Proof.
  rewrite <- app_assoc. intros [-> | ->] Hi Hl.
  - apply getDelimited_put; [apply _|apply wrap64_cast64|done..].
  - apply getDelimited_put; [apply _|apply wrap64_wrapu64|done..].
Qed.

Lemma psh_roundtrip m :
  uint32 (ppshTotal m) -> small (ppshHash m) ->
  CanonicalPartSetHeader_Unmarshal (CanonicalPartSetHeader_write m) (mkProtoPartSetHeader 0 []) = inr m.
Proof.
  intros Ht Hh. destruct (psh_Size_length m Ht Hh) as [Es Hs].
  apply parses_unmarshal; [unfold small in Hh; unfold fits; lia|]. destruct m as [total hash]. simpl in *.
  assert (parses CanonicalPartSetHeader_field
            (if (0 <? length hash)%nat then putDelimited 18 hash [] else [])
            (mkProtoPartSetHeader total []) (inr (mkProtoPartSetHeader total hash))) as P.
  { destruct hash as [|b hash]; [apply parses_nil|]. cbn [length Nat.ltb Nat.leb].
    rewrite putDelimited_eq. eapply (parses_field _ _ 2 2); [done..| |apply parses_nil].
    intros i Hi Hl. cbn [CanonicalPartSetHeader_field Z.eqb Pos.eqb withType negb].
    rewrite getDelimited_at by auto. done. }
  unfold CanonicalPartSetHeader_write. cbn [ppshTotal ppshHash].
  destruct (Z.eqb_spec total 0) as [->|]; [done|]. cbn [negb].
  eapply (parses_field _ _ 1 0); [done..| |exact P].
  intros i Hi Hl. cbn [CanonicalPartSetHeader_field Z.eqb Pos.eqb withType negb].
  rewrite (getVarint_encode wrapu32) by by apply uint32_uint64. cbn [rbind ppshHash].
  assert (wrapu32 total = total) as -> by by apply Z.mod_small. done.
Qed.

Lemma block_roundtrip b :
  cblock_typed b ->
  CanonicalBlockID_Unmarshal (CanonicalBlockID_write b) zeroCanonicalBlockID = inr b.
Proof.
  intros Hb. pose proof (block_write_small b Hb) as Hsm. destruct Hb as (Ht & Hh & Hbh).
  apply parses_unmarshal; [unfold fits; lia|]. destruct b as [hash psh]. simpl in *.
  assert (parses CanonicalBlockID_field
            (putDelimited 18 (CanonicalPartSetHeader_write psh) [])
            (mkCanonicalBlockID hash (mkProtoPartSetHeader 0 [])) (inr (mkCanonicalBlockID hash psh))) as P.
  { rewrite putDelimited_eq. eapply (parses_field _ _ 2 2); [done..| |apply parses_nil].
    intros i Hi Hl. cbn [CanonicalBlockID_field Z.eqb Pos.eqb withType negb].
    rewrite getDelimited_at by auto. cbn [rbind].
    by rewrite psh_roundtrip. }
  unfold CanonicalBlockID_write. cbn [cbidHash cbidPartSetHeader].
  destruct hash as [|x hash]; [done|]. cbn [length Nat.ltb Nat.leb].
  rewrite putDelimited_eq. eapply (parses_field _ _ 1 2); [done..| |exact P].
  intros i Hi Hl. cbn [CanonicalBlockID_field Z.eqb Pos.eqb withType negb].
  rewrite getDelimited_at by auto. done.
Qed.

(** The decoder of times inverts the encoder, and [proto.Equal] is equality. *)
Record GogoLaws (ST : StdTime) (G : Gogo) : Prop := {
  gogo_time : forall t bz, StdTimeMarshal t = inr bz -> StdTimeUnmarshal bz = inr t;
  gogo_vote : forall v v', EqualVote v v' = true <-> v = v';
  gogo_proposal : forall p p', EqualProposal p p' = true <-> p = p'
}.

Definition zeroCanonicalVote : CanonicalVote := mkCanonicalVote 0 0 0 None zeroTime [].
Definition zeroCanonicalProposal : CanonicalProposal := mkCanonicalProposal 0 0 0 0 None zeroTime [].

Section roundtrip.
Context {ST : StdTime} {G : Gogo} (laws : StdTimeLaws ST) (glaws : GogoLaws ST G).

Ltac delimited_case n :=
  rewrite putDelimited_eq; eapply (parses_field _ _ n 2); [done..| |];
  [intros i Hi Hl; cbn [CanonicalVote_field CanonicalProposal_field Z.eqb Pos.eqb withType negb];
   unfold getBlockID, getTime; rewrite getDelimited_at by auto; cbn [rbind default] |].
Ltac int_case n ty :=
  eapply (parses_field _ _ n ty); [done..| |];
  [intros i Hi Hl; cbn [CanonicalVote_field CanonicalProposal_field Z.eqb Pos.eqb withType negb] |].

Lemma cvote_roundtrip m w :
  cvote_typed m -> CanonicalVote_write m = inr w ->
  CanonicalVote_Unmarshal w zeroCanonicalVote = inr m.
Proof.
  intros T Ew. pose proof (cvote_write_fits laws m w T Ew) as Hf.
  apply parses_unmarshal; [done|]. clear Hf. destruct T as [T1 T2 T3 T4 T5].
  destruct m as [ty h r b t ch]. unfold CanonicalVote_write in Ew. simpl in *.
  destruct (StdTimeMarshal t) as [|tb] eqn:Et; [done|]. injection Ew as <-.
  pose proof (gogo_time _ _ glaws t tb Et) as Ht. unfold zeroCanonicalVote.
  destruct (Z.eqb_spec ty 0) as [->|]; cbn [negb]; [|int_case 1 0;
    [rewrite (getVarint_encode wrap32) by apply wrapu64_range; cbn [rbind];
     rewrite wrap32_wrapu64 by done; reflexivity|]].
  all: destruct (Z.eqb_spec h 0) as [->|]; cbn [negb]; [|int_case 2 1;
    [rewrite getSfixed64_put by done; reflexivity|]].
  all: destruct (Z.eqb_spec r 0) as [->|]; cbn [negb]; [|int_case 3 1;
    [rewrite getSfixed64_put by done; reflexivity|]].
  all: destruct b as [b|]; cbn [putBlock]; [delimited_case 4; [by rewrite block_roundtrip|]|].
  all: delimited_case 5; [by rewrite Ht|].
  all: destruct ch as [|x ch]; [apply parses_nil|]; cbn [length Nat.ltb Nat.leb].
  all: delimited_case 6; [reflexivity|apply parses_nil].
Qed.

Lemma cproposal_roundtrip m w :
  cproposal_typed m -> CanonicalProposal_write m = inr w ->
  CanonicalProposal_Unmarshal w zeroCanonicalProposal = inr m.
Proof.
  intros T Ew. pose proof (cproposal_write_fits laws m w T Ew) as Hf.
  apply parses_unmarshal; [done|]. clear Hf. destruct T as [T1 T2 T3 T3' T4 T5].
  destruct m as [ty h r pol b t ch]. unfold CanonicalProposal_write in Ew. simpl in *.
  destruct (StdTimeMarshal t) as [|tb] eqn:Et; [done|]. injection Ew as <-.
  pose proof (gogo_time _ _ glaws t tb Et) as Ht. unfold zeroCanonicalProposal.
  destruct (Z.eqb_spec ty 0) as [->|]; cbn [negb]; [|int_case 1 0;
    [rewrite (getVarint_encode wrap32) by apply wrapu64_range; cbn [rbind];
     rewrite wrap32_wrapu64 by done; reflexivity|]].
  all: destruct (Z.eqb_spec h 0) as [->|]; cbn [negb]; [|int_case 2 1;
    [rewrite getSfixed64_put by done; reflexivity|]].
  all: destruct (Z.eqb_spec r 0) as [->|]; cbn [negb]; [|int_case 3 1;
    [rewrite getSfixed64_put by done; reflexivity|]].
  all: destruct (Z.eqb_spec pol 0) as [->|]; cbn [negb]; [|int_case 4 0;
    [rewrite (getVarint_encode wrap64) by apply wrapu64_range; cbn [rbind];
     rewrite wrap64_wrapu64 by done; reflexivity|]].
  all: destruct b as [b|]; cbn [putBlock]; [delimited_case 5; [by rewrite block_roundtrip|]|].
  all: delimited_case 6; [by rewrite Ht|].
  all: destruct ch as [|x ch]; [apply parses_nil|]; cbn [length Nat.ltb Nat.leb].
  all: delimited_case 7; [reflexivity|apply parses_nil].
Qed.

(** The length-prefixed form. *)
Lemma UnmarshalDelimited_exact {M} (Unmarshal : bytes -> M -> result M) zero w :
  fits w ->
  UnmarshalDelimited Unmarshal zero (encodeVarint (Z.of_nat (length w)) ++ w) = Unmarshal w zero.
Proof.
  intros Hf. pose proof (fits_uint64 w Hf) as Hu. unfold fits, uint64 in *. unfold UnmarshalDelimited, encodeVarint.
  change (ReadUvarint 0 0) with (ReadUvarint 0 (7 * 0)).
  rewrite ReadUvarint_encode by (try lia; change (7 * Z.of_nat 10) with 70; lia). cbn [rbind].
  rewrite Z.shiftl_0_r, Z.lor_0_l, wrap64_id by (unfold int64, MinInt64, MaxInt64; lia).
  rewrite length_app. rewrite (proj2 (Z.ltb_ge _ 0)), (proj2 (Z.ltb_ge (Z.of_nat (_ + _)) _)) by lia.
  cbn [orb]. rewrite Z.ltb_irrefl. by rewrite Nat2Z.id, firstn_all.
Qed.

End roundtrip.
