(* ===== verification/CommitVerify.v ===== *)
(** * Verification of commits against a validator set

    [VerifyCommit], [VerifyCommitLight] and [VerifyCommitLightTrusting] of
    types/validator_set.go: what their acceptance guarantees, how they relate,
    and that two accepted commits for different blocks have more than a third
    of the voting power in common. *)

From Stdlib Require Import ZArith Lia.
From S2P Require Import Prelude Proto BitArray Validator ValidatorSet ValidatorSetUpdate BlockTypes.
From S2P Require Import SignBytes.
From stdpp Require Import base gmap list option strings numbers sorting.

Local Open Scope Z_scope.

(** The errors of the three methods; [ErrNotEnoughVotingPowerSigned] is the
    one callers distinguish. *)
Inductive VerifyError :=
  | ErrInvalidCommitSignatures (expected actual : Z)
  | ErrInvalidCommitHeight (expected actual : Z)
  | ErrWrongBlockID
  | ErrWrongSignature (idx : Z)
  | ErrNotEnoughVotingPowerSigned (got needed : Z)
  | ErrZeroDenominator
  | ErrTrustLevelOverflow
  | ErrDoubleVote (first second : Z).

Definition IsErrNotEnoughVotingPowerSigned (err : VerifyError) : bool :=
  match err with ErrNotEnoughVotingPowerSigned _ _ => true | _ => false end.

(** [tmmath.Fraction] *)
Record Fraction := mkFraction { Numerator : Z; Denominator : Z }.

Section verify.
Context `{Crypto} {ST : StdTime}.

(** [val.PubKey.VerifyBytes(commit.VoteSignBytes(chainID, int32(idx)), sig)] *)
Definition verifySig (chainID : bytes) (commit : Commit) (idx : nat) (val : Validator)
    (sig : bytes) : outcome bool :=
  let! voteSignBytes := Commit_VoteSignBytes commit chainID (wrap32 (Z.of_nat idx)) in
  match vPubKey val with
  | None => Panic "invalid memory address or nil pointer dereference"
  | Some pk => Done (pkVerifyBytes pk voteSignBytes sig)
  end.

(** The loop of [VerifyCommit] from index [idx] on: the tallied power. *)
Fixpoint tallyCommit (vals : ValidatorSet) (chainID : bytes) (commit : Commit) (idx : nat)
    (sigs : list CommitSig) (tallied : Z) : outcome (VerifyError + Z) :=
  match sigs with
  | [] => Done (inr tallied)
  | commitSig :: sigs' =>
    if CommitSig_Absent commitSig then tallyCommit vals chainID commit (S idx) sigs' tallied
    else
      let! val := index (Validators vals) (Z.of_nat idx) in
      let! ok := verifySig chainID commit idx val (csSignature commitSig) in
      if negb ok then Done (inl (ErrWrongSignature (Z.of_nat idx)))
      else
        let tallied := if CommitSig_ForBlock commitSig
                       then wrap64 (tallied + VotingPower val) else tallied in
        tallyCommit vals chainID commit (S idx) sigs' tallied
  end.

(** The checks on size, height and block that come before the loops. *)
Definition commitMismatch (vals : ValidatorSet) (blockID : BlockID) (height : Z) (commit : Commit)
    : option VerifyError :=
  let size := Z.of_nat (length (Validators vals)) in
  let n := Z.of_nat (length (cSignatures commit)) in
  if negb (size =? n) then Some (ErrInvalidCommitSignatures size n)
  else if negb (height =? cHeight commit) then Some (ErrInvalidCommitHeight height (cHeight commit))
  else if negb (BlockID_Equals blockID (cBlockID commit)) then Some ErrWrongBlockID
  else None.

(** The error, if any, and the set, whose total power is cached. *)
Definition VerifyCommit (chainID : bytes) (blockID : BlockID) (height : Z) (commit : Commit)
    (vals : ValidatorSet) : outcome (option VerifyError * ValidatorSet) :=
  match commitMismatch vals blockID height commit with
  | Some err => Done (Some err, vals)
  | None =>
    let! (total, vals) := TotalVotingPower vals in
    let votingPowerNeeded := Z.quot (wrap64 (total * 2)) 3 in
    let! r := tallyCommit vals chainID commit 0 (cSignatures commit) 0 in
    match r with
    | inl err => Done (Some err, vals)
    | inr got =>
      if got <=? votingPowerNeeded
      then Done (Some (ErrNotEnoughVotingPowerSigned got votingPowerNeeded), vals)
      else Done (None, vals)
    end
  end.

(** The loop of [VerifyCommitLight], which returns as soon as it has enough. *)
Fixpoint tallyLight (vals : ValidatorSet) (chainID : bytes) (commit : Commit) (needed : Z)
    (idx : nat) (sigs : list CommitSig) (tallied : Z) : outcome (option VerifyError) :=
  match sigs with
  | [] => Done (Some (ErrNotEnoughVotingPowerSigned tallied needed))
  | commitSig :: sigs' =>
    if negb (CommitSig_ForBlock commitSig)
    then tallyLight vals chainID commit needed (S idx) sigs' tallied
    else
      let! val := index (Validators vals) (Z.of_nat idx) in
      let! ok := verifySig chainID commit idx val (csSignature commitSig) in
      if negb ok then Done (Some (ErrWrongSignature (Z.of_nat idx)))
      else
        let tallied := wrap64 (tallied + VotingPower val) in
        if needed <? tallied then Done None
        else tallyLight vals chainID commit needed (S idx) sigs' tallied
  end.

Definition VerifyCommitLight (chainID : bytes) (blockID : BlockID) (height : Z) (commit : Commit)
    (vals : ValidatorSet) : outcome (option VerifyError * ValidatorSet) :=
  match commitMismatch vals blockID height commit with
  | Some err => Done (Some err, vals)
  | None =>
    let! (total, vals) := TotalVotingPower vals in
    let! r := tallyLight vals chainID commit (Z.quot (wrap64 (total * 2)) 3) 0
                (cSignatures commit) 0 in
    Done (r, vals)
  end.

(** The loop of [VerifyCommitLightTrusting]; [seenVals] maps the validators
    already counted to the position of their signature. *)
Fixpoint tallyTrusting (vals : ValidatorSet) (chainID : bytes) (commit : Commit) (needed : Z)
    (idx : nat) (sigs : list CommitSig) (seenVals : gmap Z Z) (tallied : Z)
    : outcome (option VerifyError) :=
  match sigs with
  | [] => Done (Some (ErrNotEnoughVotingPowerSigned tallied needed))
  | commitSig :: sigs' =>
    if negb (CommitSig_ForBlock commitSig)
    then tallyTrusting vals chainID commit needed (S idx) sigs' seenVals tallied
    else
      match GetByAddress vals (csValidatorAddress commitSig) with
      | (_, None) => tallyTrusting vals chainID commit needed (S idx) sigs' seenVals tallied
      | (valIdx, Some val) =>
        match seenVals !! valIdx with
        | Some firstIndex => Done (Some (ErrDoubleVote firstIndex (Z.of_nat idx)))
        | None =>
          let seenVals := <[valIdx := Z.of_nat idx]> seenVals in
          let! ok := verifySig chainID commit idx val (csSignature commitSig) in
          if negb ok then Done (Some (ErrWrongSignature (Z.of_nat idx)))
          else
            let tallied := wrap64 (tallied + VotingPower val) in
            if needed <? tallied then Done None
            else tallyTrusting vals chainID commit needed (S idx) sigs' seenVals tallied
        end
      end
  end.

Definition VerifyCommitLightTrusting (chainID : bytes) (commit : Commit) (trustLevel : Fraction)
    (vals : ValidatorSet) : outcome (option VerifyError * ValidatorSet) :=
  if Denominator trustLevel =? 0 then Done (Some ErrZeroDenominator, vals)
  else
    let! (total, vals) := TotalVotingPower vals in
    let '(mul, overflow) := safeMul total (Numerator trustLevel) in
    if overflow : bool then Done (Some ErrTrustLevelOverflow, vals)
    else
      let votingPowerNeeded := wrap64 (Z.quot mul (Denominator trustLevel)) in
      let! r := tallyTrusting vals chainID commit votingPowerNeeded 0 (cSignatures commit) ∅ 0 in
      Done (r, vals).

End verify.

(** ** What the loops compute *)

Section tally.
Context `{Crypto} {ST : StdTime}.
Context (vals : ValidatorSet) (W : VS_wf vals) (chainID : bytes) (commit : Commit).

(** The signature at [i] of the commit is valid under the key of validator [v]. *)
Definition sigValid (i : nat) (v : Validator) : Prop :=
  exists cs, cSignatures commit !! i = Some cs /\
             verifySig chainID commit i v (csSignature cs) = Done true.

(** The power of the validators of [vs] whose signature in [sigs] is for the block. *)
Definition blockPower (vs : list Validator) (sigs : list CommitSig) : Z :=
  sumZ (fun vc => if CommitSig_ForBlock (snd vc) then VotingPower (fst vc) else 0) (zip vs sigs).

Lemma blockPower_cons v vs cs sigs :
  blockPower (v :: vs) (cs :: sigs)
  = (if CommitSig_ForBlock cs then VotingPower v else 0) + blockPower vs sigs.
Proof. unfold blockPower. simpl. by rewrite sumZ_cons. Qed.

Lemma blockPower_bounds vs sigs :
  (forall v, v ∈ vs -> 0 <= VotingPower v) -> 0 <= blockPower vs sigs <= sumZ VotingPower vs.
Proof.
  revert sigs. induction vs as [|v vs IH]; intros sigs Hp.
  - unfold blockPower. simpl. rewrite !sumZ_nil. lia.
  - destruct sigs as [|cs sigs].
    + unfold blockPower. simpl. rewrite sumZ_nil. split; [lia|]. by apply sumZ_nonneg.
    + rewrite blockPower_cons, sumZ_cons. specialize (IH sigs ltac:(set_solver)).
      pose proof (Hp v ltac:(set_solver)). destruct (CommitSig_ForBlock cs); lia.
Qed.

(** A suffix of the validators and signatures that starts at [idx]. *)
Definition suffix_at (idx : nat) (vs : list Validator) (sigs : list CommitSig) : Prop :=
  vs = drop idx (Validators vals) /\ sigs = drop idx (cSignatures commit) /\
  length vs = length sigs.

Lemma suffix_cons idx vs cs sigs :
  suffix_at idx vs (cs :: sigs) ->
  exists v vs', vs = v :: vs' /\ Validators vals !! idx = Some v /\
    cSignatures commit !! idx = Some cs /\ suffix_at (S idx) vs' sigs.
Proof.
  intros (Hvs & Hs & Hlen). destruct vs as [|v vs']; [done|]. exists v, vs'.
  assert (drop idx (Validators vals) !! 0%nat = Some v) as Hv by by rewrite <- Hvs.
  assert (drop idx (cSignatures commit) !! 0%nat = Some cs) as Hc by by rewrite <- Hs.
  rewrite lookup_drop, Nat.add_0_r in Hv. rewrite lookup_drop, Nat.add_0_r in Hc. split_and!; try done. split_and!.
  - symmetry in Hvs. apply (f_equal (drop 1)) in Hvs. rewrite drop_drop in Hvs.
    by rewrite <- Nat.add_1_r, Hvs.
  - symmetry in Hs. apply (f_equal (drop 1)) in Hs. rewrite drop_drop in Hs.
    by rewrite <- Nat.add_1_r, Hs.
  - by injection Hlen.
Qed.

Lemma index_at idx v : Validators vals !! idx = Some v -> index (Validators vals) (Z.of_nat idx) = Done v.
Proof. intros Hv. apply index_Done. split; [lia|]. by rewrite Nat2Z.id. Qed.

Lemma suffix_power_bound idx vs sigs :
  suffix_at idx vs sigs ->
  (forall v, v ∈ vs -> 0 <= VotingPower v) /\ sumZ VotingPower vs <= MaxTotalVotingPower.
Proof.
  intros (-> & _ & _). destruct (wf_powers_ok _ W) as [Hp Ht].
  assert (forall v, v ∈ drop idx (Validators vals) -> v ∈ Validators vals) as Hsub.
  { intros v Hv. rewrite <- (take_drop idx (Validators vals)). set_solver. }
  split; [auto|]. rewrite <- (take_drop idx (Validators vals)), sumZ_app in Ht.
  pose proof (sumZ_nonneg VotingPower (take idx (Validators vals))) as Hn.
  assert (forall v, v ∈ take idx (Validators vals) -> 0 <= VotingPower v) as Ht'.
  { intros v Hv. apply Hp. rewrite <- (take_drop idx (Validators vals)). set_solver. }
  specialize (Hn Ht'). lia.
Qed.

(** Every signature that is present from [idx] on is valid. *)
Definition presentValid (idx : nat) : Prop :=
  forall i v cs, (idx <= i)%nat -> Validators vals !! i = Some v -> cSignatures commit !! i = Some cs ->
    CommitSig_Absent cs = false -> verifySig chainID commit i v (csSignature cs) = Done true.

Lemma presentValid_cons idx v cs :
  Validators vals !! idx = Some v -> cSignatures commit !! idx = Some cs ->
  presentValid idx <->
  (CommitSig_Absent cs = false -> verifySig chainID commit idx v (csSignature cs) = Done true) /\
  presentValid (S idx).
Proof.
  intros Hv Hc. split.
  - intros P. split; [by apply P|]. intros i v' cs' Hi. apply P. lia.
  - intros [Hhd P] i v' cs' Hi Hv' Hc'. destruct (decide (i = idx)) as [->|]; [by simplify_eq|].
    apply P; [lia|done..].
Qed.

Lemma tallyCommit_inr idx vs sigs t r :
  suffix_at idx vs sigs -> 0 <= t -> t + sumZ VotingPower vs <= MaxTotalVotingPower ->
  tallyCommit vals chainID commit idx sigs t = Done (inr r) <->
  presentValid idx /\ r = t + blockPower vs sigs.
Proof.
  revert idx vs t. induction sigs as [|cs sigs IH]; intros idx vs t Hs Ht Hb; cbn [tallyCommit].
  - destruct Hs as (Hvs & Hsg & Hlen). destruct vs; [|done]. unfold blockPower. simpl. rewrite sumZ_nil.
    split; [intros [= <-]; split; [|lia]|intros [_ ->]; do 2 f_equal; lia].
    intros i v c Hi Hv. apply (f_equal length) in Hvs. rewrite length_drop in Hvs. simpl in Hvs.
    apply lookup_lt_Some in Hv. lia.
  - destruct (suffix_cons _ _ _ _ Hs) as (v & vs' & -> & Hv & Hc & Hs').
    rewrite (presentValid_cons idx v cs Hv Hc), blockPower_cons.
    destruct (suffix_power_bound _ _ _ Hs) as [Hp _]. rewrite sumZ_cons in Hb.
    pose proof (Hp v ltac:(set_solver)). pose proof (sumZ_nonneg VotingPower vs' ltac:(set_solver)).
    destruct (CommitSig_Absent cs) eqn:Ea.
    + assert (CommitSig_ForBlock cs = false) as Ef.
      { unfold CommitSig_Absent, CommitSig_ForBlock, BlockIDFlagAbsent, BlockIDFlagCommit in *. lia. }
      rewrite IH by (done || lia). rewrite Ef. rewrite Z.add_0_l.
      split; [intros [? ?]; split; [split; done|done]|intros [[_ ?] ?]; by split].
    + rewrite (index_at _ _ Hv), bind_Done.
      destruct (verifySig chainID commit idx v (csSignature cs)) as [[]|] eqn:Ev.
      * rewrite bind_Done. simpl negb. cbn iota.
        destruct (CommitSig_ForBlock cs).
        -- rewrite wrap64_id by power_lia. rewrite IH by (done || lia).
           rewrite Z.add_assoc. split; [intros [? ?]; by split|intros [[_ ?] ?]; by split].
        -- rewrite IH by (done || lia).
           split; [intros [? ?]; by split|intros [[_ ?] ?]; by split].
      * rewrite bind_Done. split; [done|]. intros [[Hok _] _]. by specialize (Hok eq_refl).
      * split; [done|]. intros [[Hok _] _]. by specialize (Hok eq_refl).
Qed.

(** The signatures for the block among the next [k] are valid. *)
Definition blockValid (idx k : nat) : Prop :=
  forall i v cs, (idx <= i < idx + k)%nat -> Validators vals !! i = Some v ->
    cSignatures commit !! i = Some cs -> CommitSig_ForBlock cs = true ->
    verifySig chainID commit i v (csSignature cs) = Done true.

Lemma blockValid_cons idx k v cs :
  Validators vals !! idx = Some v -> cSignatures commit !! idx = Some cs ->
  blockValid idx (S k) <->
  (CommitSig_ForBlock cs = true -> verifySig chainID commit idx v (csSignature cs) = Done true) /\
  blockValid (S idx) k.
Proof.
  intros Hv Hc. split.
  - intros P. split; [apply P; [lia|done..]|]. intros i v' cs' Hi. apply P. lia.
  - intros [Hhd P] i v' cs' Hi Hv' Hc'. destruct (decide (i = idx)) as [->|]; [by simplify_eq|].
    apply P; [lia|done..].
Qed.

(** Some prefix of the remaining signatures is valid and has enough power. *)
Definition enough (needed t : Z) (idx : nat) (vs : list Validator) (sigs : list CommitSig) : Prop :=
  exists k, (k <= length sigs)%nat /\ blockValid idx k /\
            needed < t + blockPower (take k vs) (take k sigs).

Lemma enough_cons needed t idx v vs cs sigs :
  Validators vals !! idx = Some v -> cSignatures commit !! idx = Some cs -> t <= needed ->
  0 <= VotingPower v ->
  let t' := t + (if CommitSig_ForBlock cs then VotingPower v else 0) in
  enough needed t idx (v :: vs) (cs :: sigs) <->
  (CommitSig_ForBlock cs = true -> verifySig chainID commit idx v (csSignature cs) = Done true) /\
  (needed < t' \/ enough needed t' (S idx) vs sigs).
Proof.
  intros Hv Hc Hn Hp t'. split.
  - intros (k & Hk & Hval & Hlt). destruct k as [|k].
    { unfold blockPower in Hlt. simpl in Hlt. rewrite sumZ_nil in Hlt. lia. }
    rewrite (blockValid_cons idx k v cs Hv Hc) in Hval. cbn [take] in Hlt.
    rewrite blockPower_cons in Hlt. split; [tauto|]. right. exists k.
    split_and!; [simpl in Hk; lia|tauto|unfold t'; lia].
  - intros [Hok [Hlt|(k & Hk & Hval & Hlt)]].
    + exists 1%nat. rewrite (blockValid_cons idx 0 v cs Hv Hc). simpl.
      rewrite blockPower_cons. unfold blockPower. simpl. rewrite sumZ_nil.
      split_and!; [lia|done|intros i ? ? ?; lia|unfold t' in Hlt; lia].
    + exists (S k). rewrite (blockValid_cons idx k v cs Hv Hc). cbn [take]. rewrite blockPower_cons.
      split_and!; [simpl; lia|done|done|unfold t' in Hlt; lia].
Qed.

Lemma tallyLight_None needed idx vs sigs t :
  suffix_at idx vs sigs -> 0 <= t -> t + sumZ VotingPower vs <= MaxTotalVotingPower -> t <= needed ->
  tallyLight vals chainID commit needed idx sigs t = Done None <-> enough needed t idx vs sigs.
Proof.
  revert idx vs t. induction sigs as [|cs sigs IH]; intros idx vs t Hs Ht Hb Hn; cbn [tallyLight].
  - split; [done|]. intros (k & Hk & _ & Hlt). destruct k; [|simpl in Hk; lia].
    unfold blockPower in Hlt. simpl in Hlt. rewrite sumZ_nil in Hlt. lia.
  - destruct (suffix_cons _ _ _ _ Hs) as (v & vs' & -> & Hv & Hc & Hs').
    destruct (suffix_power_bound _ _ _ Hs) as [Hp _]. rewrite sumZ_cons in Hb.
    pose proof (Hp v ltac:(set_solver)). pose proof (sumZ_nonneg VotingPower vs' ltac:(set_solver)).
    rewrite (enough_cons _ _ _ _ _ _ _ Hv Hc) by done. cbn zeta.
    destruct (CommitSig_ForBlock cs) eqn:Ef; cbn [negb].
    + rewrite (index_at _ _ Hv), bind_Done.
      destruct (verifySig chainID commit idx v (csSignature cs)) as [[]|] eqn:Ev.
      * rewrite bind_Done. cbn [negb]. rewrite wrap64_id by power_lia.
        destruct (Z.ltb_spec needed (t + VotingPower v)); [naive_solver|].
        rewrite IH by (done || lia). split; [auto|]. intros [_ [?|?]]; [lia|done].
      * rewrite bind_Done. cbn [negb]. split; [done|]. intros [Hok _]. by specialize (Hok eq_refl).
      * split; [done|]. intros [Hok _]. by specialize (Hok eq_refl).
    + rewrite IH, Z.add_0_r by (done || lia). split; [intros He; split; [done|by right]|]. intros [_ [?|?]]; [lia|done].
Qed.

End tally.

(** ** Acceptance *)

Lemma BlockID_Equals_eq b b' : BlockID_Equals b b' = true <-> b = b'.
Proof.
  unfold BlockID_Equals, PartSetHeader_Equals. rewrite !andb_true_iff, !bool_decide_eq_true, Z.eqb_eq.
  destruct b as [h [t p]], b' as [h' [t' p']]. simpl. naive_solver.
Qed.

Lemma commitMismatch_None vals blockID height commit :
  commitMismatch vals blockID height commit = None <->
  length (Validators vals) = length (cSignatures commit) /\ height = cHeight commit /\
  blockID = cBlockID commit.
Proof.
  unfold commitMismatch. rewrite <- BlockID_Equals_eq.
  destruct (Z.eqb_spec (Z.of_nat (length (Validators vals))) (Z.of_nat (length (cSignatures commit))));
    simpl; [|split; [done|lia]].
  destruct (Z.eqb_spec height (cHeight commit)); simpl; [|split; [done|lia]].
  destruct (BlockID_Equals _ _); simpl; split; try done; [|lia]. intros _. split_and!; [lia|done..].
Qed.

(** [Z.quot (2 * total) 3] is the bound for more than two thirds. *)
Lemma two_thirds total got :
  0 <= total <= MaxTotalVotingPower ->
  Z.quot (wrap64 (total * 2)) 3 < got <-> 2 * total < 3 * got.
Proof.
  intros Ht. rewrite wrap64_id by power_lia. rewrite Z.quot_div_nonneg by lia.
  pose proof (Z.div_mod (total * 2) 3 ltac:(lia)). pose proof (Z.mod_pos_bound (total * 2) 3 ltac:(lia)). lia.
Qed.

Section accept.
Context `{Crypto} {ST : StdTime}.
Context (vals : ValidatorSet) (W : VS_wf vals) (chainID : bytes) (commit : Commit).

Let total := sumZ VotingPower (Validators vals).
Let cached := setTotalVotingPower total vals.

Lemma cached_wf : VS_wf cached.
Proof. destruct W. split; try done. by right. Qed.

Lemma start_suffix :
  length (Validators vals) = length (cSignatures commit) ->
  suffix_at vals commit 0 (Validators vals) (cSignatures commit).
Proof. by split. Qed.

Lemma total_bound : 0 <= total <= MaxTotalVotingPower.
Proof. split; [apply sumZ_nonneg, (wf_powers_ok _ W)|apply W]. Qed.

Lemma VerifyCommit_accepts blockID height vals' :
  VerifyCommit chainID blockID height commit vals = Done (None, vals') <->
  vals' = cached /\
  length (Validators vals) = length (cSignatures commit) /\ height = cHeight commit /\
  blockID = cBlockID commit /\ presentValid vals chainID commit 0 /\
  2 * total < 3 * blockPower (Validators vals) (cSignatures commit).
Proof.
  unfold VerifyCommit. pose proof (commitMismatch_None vals blockID height commit) as Hm.
  destruct (commitMismatch vals blockID height commit); [split; [done|naive_solver]|].
  destruct (proj1 Hm eq_refl) as (Hlen & Hh & Hb).
  rewrite TotalVotingPower_spec by (apply wf_powers_ok, W || apply W). rewrite bind_Done.
  fold total. fold cached. pose proof total_bound as Ht.
  pose proof (fun r => tallyCommit_inr cached cached_wf chainID commit 0 (Validators vals)
    (cSignatures commit) 0 r (start_suffix Hlen) ltac:(lia) ltac:(fold total; lia)) as Htally.
  setoid_rewrite Z.add_0_l in Htally.
  change (presentValid cached chainID commit 0) with (presentValid vals chainID commit 0) in Htally.
  destruct (tallyCommit cached chainID commit 0 (cSignatures commit) 0) as [[e|got]|] eqn:E.
  - rewrite bind_Done. split; [done|]. intros (_ & _ & _ & _ & Hv & _).
    by pose proof (proj2 (Htally _) (conj Hv eq_refl)).
  - rewrite bind_Done. destruct (proj1 (Htally got) eq_refl) as [Hv ->].
    rewrite <- (two_thirds total) by done.
    destruct (Z.leb_spec (blockPower (Validators vals) (cSignatures commit))
                (Z.quot (wrap64 (total * 2)) 3)); [split; [done|lia]|].
    split; [intros [= <-]; by split_and!|by intros (-> & _)].
  - split; [done|]. intros (_ & _ & _ & _ & Hv & _).
    by pose proof (proj2 (Htally _) (conj Hv eq_refl)).
Qed.

Lemma VerifyCommitLight_accepts blockID height vals' :
  VerifyCommitLight chainID blockID height commit vals = Done (None, vals') <->
  vals' = cached /\
  length (Validators vals) = length (cSignatures commit) /\ height = cHeight commit /\
  blockID = cBlockID commit /\
  exists k, (k <= length (cSignatures commit))%nat /\ blockValid vals chainID commit 0 k /\
    2 * total < 3 * blockPower (take k (Validators vals)) (take k (cSignatures commit)).
Proof.
  unfold VerifyCommitLight. pose proof (commitMismatch_None vals blockID height commit) as Hm.
  destruct (commitMismatch vals blockID height commit); [split; [done|naive_solver]|].
  destruct (proj1 Hm eq_refl) as (Hlen & Hh & Hb).
  rewrite TotalVotingPower_spec by (apply wf_powers_ok, W || apply W). rewrite bind_Done.
  fold total. fold cached. pose proof total_bound as Ht.
  assert (0 <= Z.quot (wrap64 (total * 2)) 3) as Hq
    by (rewrite wrap64_id by power_lia; apply Z.quot_pos; lia).
  pose proof (tallyLight_None cached cached_wf chainID commit (Z.quot (wrap64 (total * 2)) 3) 0
    (Validators vals) (cSignatures commit) 0 (start_suffix Hlen) ltac:(lia) ltac:(fold total; lia) Hq) as Htally.
  unfold enough in Htally. setoid_rewrite Z.add_0_l in Htally. setoid_rewrite two_thirds in Htally; [|done].
  change (blockValid cached chainID commit) with (blockValid vals chainID commit) in Htally.
  destruct (tallyLight _ _ _ _ _ _ _) as [[e|]|].
  - rewrite bind_Done. split; [done|]. intros (_ & _ & _ & _ & Hk). by apply Htally in Hk.
  - rewrite bind_Done. split; [|by intros (-> & _)]. intros [= <-]. split_and!; [done..|]. by apply Htally.
  - split; [done|]. intros (_ & _ & _ & _ & Hk). by apply Htally in Hk.
Qed.

End accept.

(** ** Trusting verification *)

Section trusting.
Context `{Crypto} {ST : StdTime}.
Context (vals : ValidatorSet) (W : VS_wf vals) (chainID : bytes) (commit : Commit).

(** Validator [v] signed the commit's block: some signature for the block
    carries its address and verifies under its key. *)
Definition signedBlock (v : Validator) : Prop :=
  exists i cs, cSignatures commit !! i = Some cs /\ CommitSig_ForBlock cs = true /\
    csValidatorAddress cs = Address v /\ verifySig chainID commit i v (csSignature cs) = Done true.

(** The validators counted so far are distinct members that signed, their
    power is the tally, and all of them are marked as seen. *)
Record counted (signers : list Validator) (seen : gmap Z Z) (t : Z) : Prop := {
  co_nodup : NoDup signers;
  co_member : forall v, v ∈ signers -> v ∈ Validators vals;
  co_signed : forall v, v ∈ signers -> signedBlock v;
  co_seen : forall v, v ∈ signers -> is_Some (seen !! fst (GetByAddress vals (Address v)));
  co_power : t = sumZ VotingPower signers
}.

Lemma signers_bound signers :
  NoDup signers -> (forall v, v ∈ signers -> v ∈ Validators vals) ->
  0 <= sumZ VotingPower signers <= MaxTotalVotingPower.
Proof.
  intros Hnd Hsub. destruct (wf_powers_ok _ W) as [Hp Ht]. split; [apply sumZ_nonneg; auto|].
  etrans; [|exact Ht]. apply sumZ_submseteq; [|done]. by apply NoDup_submseteq.
Qed.

Lemma tallyTrusting_sound needed idx sigs seen t signers :
  sigs = drop idx (cSignatures commit) -> counted signers seen t ->
  tallyTrusting vals chainID commit needed idx sigs seen t = Done None ->
  exists signers', NoDup signers' /\ (forall v, v ∈ signers' -> v ∈ Validators vals /\ signedBlock v) /\
    needed < sumZ VotingPower signers'.
Proof.
  revert idx seen t signers. induction sigs as [|cs sigs IH]; intros idx seen t signers Hs Hc E;
    cbn [tallyTrusting] in E; [done|].
  assert (cSignatures commit !! idx = Some cs) as Hcs
    by (rewrite <- (Nat.add_0_r idx), <- lookup_drop, <- Hs; done).
  assert (sigs = drop (S idx) (cSignatures commit)) as Hs'.
  { apply (f_equal (drop 1)) in Hs. rewrite drop_drop in Hs. by rewrite <- Nat.add_1_r, <- Hs. }
  destruct (CommitSig_ForBlock cs) eqn:Ef; [|by eapply IH]. cbn [negb] in E.
  destruct (GetByAddress vals (csValidatorAddress cs)) as [valIdx [val|]] eqn:Eg; [|by eapply IH].
  destruct (seen !! valIdx) eqn:Eseen; [done|].
  destruct (verifySig chainID commit idx val (csSignature cs)) as [[]|] eqn:Ev; [|done..].
  rewrite bind_Done in E. cbn [negb] in E.
  assert (val ∈ Validators vals /\ Address val = csValidatorAddress cs) as [Hval Haddr]
    by (apply GetByAddress_Some; by rewrite Eg).
  assert (counted (val :: signers) (<[valIdx := Z.of_nat idx]> seen) (sumZ VotingPower (val :: signers))) as Hc'.
  { destruct Hc as [C1 C2 C3 C4 C5]. split; [| | | |done].
    - apply NoDup_cons. split; [|done]. intros Hin. apply C4 in Hin as [x Hx].
      rewrite Haddr, Eg in Hx. simpl in Hx. congruence.
    - intros v [->|Hv]%elem_of_cons; auto.
    - intros v [->|Hv]%elem_of_cons; [|auto]. exists idx, cs. by rewrite Haddr.
    - intros v [->|Hv]%elem_of_cons.
      + rewrite Haddr, Eg. simpl. rewrite lookup_insert_eq. eauto.
      + destruct (C4 v Hv) as [x Hx]. destruct (decide (fst (GetByAddress vals (Address v)) = valIdx)) as [->|].
        * rewrite lookup_insert_eq. eauto.
        * rewrite lookup_insert_ne by done. eauto. }
  pose proof (signers_bound _ (co_nodup _ _ _ Hc') (co_member _ _ _ Hc')) as Hb.
  assert (wrap64 (t + VotingPower val) = sumZ VotingPower (val :: signers)) as Et.
  { rewrite wrap64_id; rewrite (co_power _ _ _ Hc); rewrite sumZ_cons in *; [lia|power_lia]. }
  rewrite Et in E. destruct (Z.ltb_spec needed (sumZ VotingPower (val :: signers))); [|by eapply IH].
  exists (val :: signers). destruct Hc'. split_and!; [done|by auto|done].
Qed.

End trusting.

Lemma VerifyCommitLightTrusting_sound `{Crypto} {ST : StdTime} vals chainID commit trustLevel vals' :
  VS_wf vals ->
  0 < Numerator trustLevel <= MaxInt64 -> 0 < Denominator trustLevel <= MaxInt64 ->
  VerifyCommitLightTrusting chainID commit trustLevel vals = Done (None, vals') ->
  exists signers, NoDup signers /\ (forall v, v ∈ signers -> v ∈ Validators vals /\ signedBlock chainID commit v) /\
    sumZ VotingPower (Validators vals) * Numerator trustLevel
      < sumZ VotingPower signers * Denominator trustLevel.
Proof.
  intros W Hn Hd. unfold VerifyCommitLightTrusting. rewrite (proj2 (Z.eqb_neq _ _)) by lia.
  rewrite TotalVotingPower_spec by (apply wf_powers_ok, W || apply W). rewrite bind_Done.
  set (total := sumZ VotingPower (Validators vals)).
  assert (0 <= total <= MaxTotalVotingPower) as Ht
    by (split; [apply sumZ_nonneg, (wf_powers_ok _ W)|apply W]).
  rewrite safeMul_spec by (power_lia || (unfold MinInt64; lia)).
  case_bool_decide as Hov; simpl; [|done].
  assert (0 <= Z.quot (total * Numerator trustLevel) (Denominator trustLevel)
          <= total * Numerator trustLevel) as Hq.
  { rewrite Z.quot_div_nonneg by nia. split; [apply Z.div_pos; nia|apply Z.div_le_upper_bound; nia]. }
  rewrite wrap64_id by (unfold int64, MinInt64; nia).
  destruct (tallyTrusting _ _ _ _ _ _ _ _) as [[e|]|] eqn:E; [done| |done]. intros _.
  apply (tallyTrusting_sound _ (cached_wf vals W) chainID commit _ _ _ _ _ []) in E as (signers & Hnd & Hmem & Hlt); [| |].
  - exists signers. split_and!; [done..|]. rewrite Z.quot_div_nonneg in Hlt by nia.
    pose proof (Z.mul_succ_div_gt (total * Numerator trustLevel) (Denominator trustLevel) ltac:(lia)). nia.
  - done.
  - split; try done; [constructor|set_solver..].
Qed.

(** ** Overlap of two commits *)

Section overlap.
Context `{Crypto} {ST : StdTime}.

(** The validators whose signatures in both lists are for the block. *)
Fixpoint bothFor (vs : list Validator) (s1 s2 : list CommitSig) : list Validator :=
  match vs, s1, s2 with
  | v :: vs', c1 :: s1', c2 :: s2' =>
    if CommitSig_ForBlock c1 && CommitSig_ForBlock c2 then v :: bothFor vs' s1' s2'
    else bothFor vs' s1' s2'
  | _, _, _ => []
  end.

Lemma bothFor_power vs s1 s2 :
  (forall v, v ∈ vs -> 0 <= VotingPower v) -> length vs = length s1 -> length vs = length s2 ->
  blockPower vs s1 + blockPower vs s2 <= sumZ VotingPower vs + sumZ VotingPower (bothFor vs s1 s2).
Proof.
  revert s1 s2. induction vs as [|v vs IH]; intros [|c1 s1] [|c2 s2] Hp H1 H2; try done.
  rewrite !blockPower_cons, sumZ_cons. simpl in H1, H2. cbn [bothFor].
  specialize (IH s1 s2 ltac:(set_solver) ltac:(lia) ltac:(lia)).
  pose proof (Hp v ltac:(set_solver)).
  destruct (CommitSig_ForBlock c1), (CommitSig_ForBlock c2); simpl; rewrite ?sumZ_cons; lia.
Qed.

Lemma bothFor_sublist vs s1 s2 : bothFor vs s1 s2 `sublist_of` vs.
Proof.
  revert s1 s2. induction vs as [|v vs IH]; intros [|c1 s1] [|c2 s2]; simpl;
    try apply sublist_nil_l.
  destruct (_ && _); by constructor.
Qed.

Lemma bothFor_elem vs s1 s2 v :
  v ∈ bothFor vs s1 s2 ->
  exists i c1 c2, vs !! i = Some v /\ s1 !! i = Some c1 /\ s2 !! i = Some c2 /\
    CommitSig_ForBlock c1 = true /\ CommitSig_ForBlock c2 = true.
Proof.
  revert s1 s2. induction vs as [|w vs IH]; intros [|c1 s1] [|c2 s2] Hv; simpl in Hv;
    try by apply elem_of_nil in Hv.
  destruct (CommitSig_ForBlock c1 && CommitSig_ForBlock c2) eqn:E.
  - apply elem_of_cons in Hv as [->|Hv].
    + apply andb_true_iff in E as [? ?]. by exists 0%nat, c1, c2.
    + destruct (IH _ _ Hv) as (i & d1 & d2 & ?). by exists (S i), d1, d2.
  - destruct (IH _ _ Hv) as (i & d1 & d2 & ?). by exists (S i), d1, d2.
Qed.

(** A signature for the commit's block that is present is valid. *)
Lemma present_forBlock vals chainID commit i v cs :
  presentValid vals chainID commit 0 -> Validators vals !! i = Some v ->
  cSignatures commit !! i = Some cs -> CommitSig_ForBlock cs = true ->
  verifySig chainID commit i v (csSignature cs) = Done true.
Proof.
  intros P Hv Hc Hf. apply P; [lia|done..|].
  unfold CommitSig_Absent, CommitSig_ForBlock, BlockIDFlagAbsent, BlockIDFlagCommit in *. lia.
Qed.

Lemma present_blockValid vals chainID commit k :
  presentValid vals chainID commit 0 -> blockValid vals chainID commit 0 k.
Proof. intros P i v cs _ Hv Hc Hf. by eapply present_forBlock. Qed.

End overlap.

(** ** Claims *)

(** [C10] [VerifyCommit] accepts a commit exactly when it has one entry
    per validator, is for the given height and block, every signature that is
    present verifies under the key of the validator at its position, and the
    validators that signed for the block hold more than two thirds of the
    power. *)
Theorem VerifyCommit_correct `{Crypto} {ST : StdTime} vals chainID blockID height commit :
  VS_wf vals ->
  (exists vals', VerifyCommit chainID blockID height commit vals = Done (None, vals')) <->
  length (Validators vals) = length (cSignatures commit) /\ height = cHeight commit /\
  blockID = cBlockID commit /\ presentValid vals chainID commit 0 /\
  2 * sumZ VotingPower (Validators vals) < 3 * blockPower (Validators vals) (cSignatures commit).
Proof.
  intros W. setoid_rewrite VerifyCommit_accepts; [|done]. split; [naive_solver|eauto].
Qed.

(** [C32] The light check is sound and is implied by the full one.  When
    [VerifyCommitLight] accepts, the block's valid signers within the part it
    looked at hold more than two thirds of the power; and whatever
    [VerifyCommit] accepts it accepts as well. *)
Theorem VerifyCommitLight_correct `{Crypto} {ST : StdTime} vals chainID blockID height commit :
  VS_wf vals ->
  (forall vals', VerifyCommitLight chainID blockID height commit vals = Done (None, vals') ->
     height = cHeight commit /\ blockID = cBlockID commit /\
     exists k, blockValid vals chainID commit 0 k /\
       2 * sumZ VotingPower (Validators vals)
         < 3 * blockPower (take k (Validators vals)) (take k (cSignatures commit))) /\
  (forall vals', VerifyCommit chainID blockID height commit vals = Done (None, vals') ->
     VerifyCommitLight chainID blockID height commit vals = Done (None, vals')).
Proof.
  intros W. split; intros vals'.
  - rewrite VerifyCommitLight_accepts by done. intros (_ & _ & ? & ? & k & _ & ? & ?). eauto.
  - rewrite VerifyCommit_accepts, VerifyCommitLight_accepts by done.
    intros (-> & Hlen & ? & ? & Hv & Hp). split_and!; [done..|].
    exists (length (cSignatures commit)). split_and!; [done|by apply present_blockValid|].
    by rewrite (firstn_all (cSignatures commit)), <- Hlen, firstn_all.
Qed.

(** [VerifyCommitLightTrusting] counts every validator once: when
    it accepts with a positive trust level, distinct members of the set with
    more than that fraction of the total power each have a valid signature
    for the block in the commit. *)
Theorem VerifyCommitLightTrusting_correct `{Crypto} {ST : StdTime} vals chainID commit trustLevel vals' :
  VS_wf vals -> 0 < Numerator trustLevel <= MaxInt64 -> 0 < Denominator trustLevel <= MaxInt64 ->
  VerifyCommitLightTrusting chainID commit trustLevel vals = Done (None, vals') ->
  exists signers, NoDup signers /\
    (forall v, v ∈ signers -> v ∈ Validators vals /\ signedBlock chainID commit v) /\
    sumZ VotingPower (Validators vals) * Numerator trustLevel
      < sumZ VotingPower signers * Denominator trustLevel.
Proof. apply VerifyCommitLightTrusting_sound. Qed.

(** [C11] Two commits that verify against the same validator set,
    whatever their blocks and rounds, have valid signatures of distinct
    validators with more than a third of the power in common.  If the blocks
    differ, these validators signed precommits for both. *)
Theorem commits_overlap `{Crypto} {ST : StdTime} vals chainID b1 b2 h1 h2 c1 c2 vals1 vals2 :
  VS_wf vals ->
  VerifyCommit chainID b1 h1 c1 vals = Done (None, vals1) ->
  VerifyCommit chainID b2 h2 c2 vals = Done (None, vals2) ->
  exists signers, NoDup signers /\ sumZ VotingPower (Validators vals) < 3 * sumZ VotingPower signers /\
    forall v, v ∈ signers -> exists i cs1 cs2, Validators vals !! i = Some v /\
      cSignatures c1 !! i = Some cs1 /\ CommitSig_ForBlock cs1 = true /\
      verifySig chainID c1 i v (csSignature cs1) = Done true /\
      cSignatures c2 !! i = Some cs2 /\ CommitSig_ForBlock cs2 = true /\
      verifySig chainID c2 i v (csSignature cs2) = Done true.
Proof.
  intros W A1 A2. apply VerifyCommit_accepts in A1 as (_ & L1 & _ & _ & P1 & Q1); [|done].
  apply VerifyCommit_accepts in A2 as (_ & L2 & _ & _ & P2 & Q2); [|done].
  exists (bothFor (Validators vals) (cSignatures c1) (cSignatures c2)). split_and!.
  - eapply sublist_NoDup; [|apply bothFor_sublist]. eapply NoDup_fmap_1, (vs_nodup _ W).
  - pose proof (bothFor_power _ _ _ (proj1 (wf_powers_ok _ W)) L1 L2). lia.
  - intros v (i & cs1 & cs2 & Hv & H1 & H2 & F1 & F2)%bothFor_elem. exists i, cs1, cs2.
    split_and!; try done; by eapply present_forBlock.
Qed.

(** ** A concrete instance

    A signature scheme for the witnesses: a checksum with the first byte of
    the key. *)

Definition keyOf (pk : PubKey) : bytes :=
  match pk with PubKeyEd25519 k | PubKeySecp256k1 k | PubKeySr25519 k => k end.

Definition exampleSign (pk : PubKey) (msg : bytes) : bytes :=
  take 1 (keyOf pk) ++ [byte_of_Z (sumZ byte_to_Z msg)].

Definition exampleCrypto : Crypto := {|
  pkAddress := fun pk => take 20 (keyOf pk);
  pkVerifyBytes := fun pk msg sig => bool_decide (sig = exampleSign pk msg)
|}.

(** The precommit of [v] for [exampleBlockID] at height 5 and [round]. *)
Definition examplePrecommit (round : Z) (i : Z) (v : Validator) : Vote :=
  let unsigned := mkVote PrecommitType 5 round exampleBlockID 1000 (Address v) i [] in
  let sig := match VoteSignBytes (ST := exampleStdTime) exampleChain (Vote_ToProto unsigned), vPubKey v with
             | Done bz, Some pk => exampleSign pk bz
             | _, _ => []
             end in
  mkVote PrecommitType 5 round exampleBlockID 1000 (Address v) i sig.

Definition exampleCommitSig (round : Z) (v : Validator) : CommitSig :=
  NewCommitSigForBlock (vSignature (examplePrecommit round 0 v)) (Address v) 1000.

Definition exampleCommit (round : Z) : Commit :=
  NewCommit 5 round exampleBlockID
    (exampleCommitSig round <$> Validators exampleSet).

Lemma exampleCommit_verifies round :
  round = 0 \/ round = 1 ->
  VerifyCommit (H := exampleCrypto) (ST := exampleStdTime) exampleChain exampleBlockID 5
    (exampleCommit round) exampleSet
  = Done (None, setTotalVotingPower 15 exampleSet).
Proof. intros [-> | ->]; vm_compute; reflexivity. Qed.

Lemma VerifyCommit_correct_witness :
  presentValid (H := exampleCrypto) (ST := exampleStdTime) exampleSet exampleChain (exampleCommit 0) 0 /\
  2 * sumZ VotingPower (Validators exampleSet)
    < 3 * blockPower (Validators exampleSet) (cSignatures (exampleCommit 0)).
Proof.
  destruct (VerifyCommit_correct (H := exampleCrypto) (ST := exampleStdTime) exampleSet exampleChain
    exampleBlockID 5 (exampleCommit 0) exampleSet_wf) as [Hsound _].
  destruct (Hsound (ex_intro _ _ (exampleCommit_verifies 0 (or_introl eq_refl)))) as (_ & _ & _ & ? & ?).
  by split.
Defined.

Lemma VerifyCommitLight_correct_witness :
  VerifyCommitLight (H := exampleCrypto) (ST := exampleStdTime) exampleChain exampleBlockID 5
    (exampleCommit 0) exampleSet = Done (None, setTotalVotingPower 15 exampleSet).
Proof.
  apply (VerifyCommitLight_correct (H := exampleCrypto) (ST := exampleStdTime) exampleSet exampleChain
    exampleBlockID 5 (exampleCommit 0) exampleSet_wf).
  apply (exampleCommit_verifies 0). by left.
Defined.

Lemma VerifyCommitLightTrusting_correct_witness :
  exists signers, NoDup signers /\
    (forall v, v ∈ signers -> v ∈ Validators exampleSet /\
       signedBlock (H := exampleCrypto) (ST := exampleStdTime) exampleChain (exampleCommit 0) v) /\
    sumZ VotingPower (Validators exampleSet) * 1 < sumZ VotingPower signers * 3.
Proof.
  eapply (VerifyCommitLightTrusting_correct (H := exampleCrypto) (ST := exampleStdTime) exampleSet
    exampleChain (exampleCommit 0) (mkFraction 1 3)); [apply exampleSet_wf|done|done|].
  vm_compute. reflexivity.
Defined.

Lemma commits_overlap_witness :
  exists signers, NoDup signers /\ sumZ VotingPower (Validators exampleSet) < 3 * sumZ VotingPower signers /\
    forall v, v ∈ signers -> exists i cs1 cs2, Validators exampleSet !! i = Some v /\
      cSignatures (exampleCommit 0) !! i = Some cs1 /\ CommitSig_ForBlock cs1 = true /\
      verifySig (H := exampleCrypto) (ST := exampleStdTime) exampleChain (exampleCommit 0) i v
        (csSignature cs1) = Done true /\
      cSignatures (exampleCommit 1) !! i = Some cs2 /\ CommitSig_ForBlock cs2 = true /\
      verifySig (H := exampleCrypto) (ST := exampleStdTime) exampleChain (exampleCommit 1) i v
        (csSignature cs2) = Done true.
Proof.
  exact (commits_overlap (H := exampleCrypto) (ST := exampleStdTime) exampleSet exampleChain
    exampleBlockID exampleBlockID 5 5 (exampleCommit 0) (exampleCommit 1) _ _ exampleSet_wf
    (exampleCommit_verifies 0 (or_introl eq_refl)) (exampleCommit_verifies 1 (or_intror eq_refl))).
Defined.
