(* ===== verification/MedianTime.v ===== *)
(** * The time of a block

    MedianTime of state/state.go and WeightedMedian of types/time/time.go: the time
    of a block is a weighted median of the times in the commit for the previous
    block.  It is bounded by the times of correct validators, with two exceptions
    that are shown at the end. *)

From Stdlib Require Import ZArith Lia.
From S2P Require Import Prelude SafeMath Proto BitArray Validator ValidatorSet ValidatorSetUpdate BlockTypes SignBytes.
From S2P Require Import CommitVerify.
From stdpp Require Import base gmap sets list option strings numbers sorting.

Local Open Scope Z_scope.

Record WeightedTime := mkWeightedTime { wtTime : Time; wtWeight : Z }.

(** [Time.UnixNano], an [int64] *)
Definition UnixNano (t : Time) : Z := wrap64 t.

(** The comparison of [sort.Slice]; nil goes last. *)
Definition timeLess (a b : option WeightedTime) : bool :=
  match a, b with
  | None, _ => false
  | Some _, None => true
  | Some a, Some b => UnixNano (wtTime a) <? UnixNano (wtTime b)
  end.

(** The loop; without a break the result is the zero time. *)
Fixpoint medianLoop (median : Z) (weightedTimes : list (option WeightedTime)) : Time :=
  match weightedTimes with
  | [] => zeroTime
  | None :: l => medianLoop median l
  | Some wt :: l => if median <=? wtWeight wt then wtTime wt else medianLoop (wrap64 (median - wtWeight wt)) l
  end.

Definition WeightedMedian (weightedTimes : list (option WeightedTime)) (totalVotingPower : Z) : Time :=
  medianLoop (Z.quot totalVotingPower 2) (sort_by timeLess weightedTimes).

(** The loop over the signatures of [MedianTime] *)
Fixpoint weighSignatures (validators : ValidatorSet) (sigs : list CommitSig) (totalVotingPower : Z)
    : list (option WeightedTime) * Z :=
  match sigs with
  | [] => ([], totalVotingPower)
  | commitSig :: sigs' =>
    let '(wt, total) :=
      (if CommitSig_Absent commitSig then (None, totalVotingPower)
       else match snd (GetByAddress validators (csValidatorAddress commitSig)) with
            | Some validator => (Some (mkWeightedTime (csTimestamp commitSig) (VotingPower validator)),
                                 wrap64 (totalVotingPower + VotingPower validator))
            | None => (None, totalVotingPower)
            end) in
    let '(wts, total) := weighSignatures validators sigs' total in
    (wt :: wts, total)
  end.

Definition MedianTime (commit : Commit) (validators : ValidatorSet) : Time :=
  let '(weightedTimes, totalVotingPower) := weighSignatures validators (cSignatures commit) 0 in
  WeightedMedian weightedTimes totalVotingPower.

(** ** The weighted median

    The entries are tagged with whether the validator is faulty. *)

Definition weight (wt : option WeightedTime) : Z := match wt with Some wt => wtWeight wt | None => 0 end.
Definition weightOf (l : list (option WeightedTime)) : Z := sumZ weight l.

Notation entry := (bool * option WeightedTime)%type.
Definition faultyWeight (es : list entry) : Z := sumZ (fun e : entry => if e.1 then weight e.2 else 0) es.
Definition entriesWeight (es : list entry) : Z := weightOf (es.*2).

Lemma entriesWeight_app es1 es2 : entriesWeight (es1 ++ es2) = entriesWeight es1 + entriesWeight es2.
Proof. unfold entriesWeight, weightOf. by rewrite fmap_app, sumZ_app. Qed.
Lemma faultyWeight_app es1 es2 : faultyWeight (es1 ++ es2) = faultyWeight es1 + faultyWeight es2.
Proof. unfold faultyWeight. by rewrite sumZ_app. Qed.

Definition positive (l : list (option WeightedTime)) : Prop :=
  forall wt, Some wt ∈ l -> 0 < wtWeight wt.

Lemma weightOf_nonneg l : positive l -> 0 <= weightOf l.
Proof.
  intros Hp. apply sumZ_nonneg. intros [wt|] Hin; simpl; [|lia]. specialize (Hp wt Hin). lia.
Qed.

Lemma positive_cons x l : positive (x :: l) -> positive l.
Proof. intros Hp wt Hin. apply Hp. by apply elem_of_cons; right. Qed.

(** Where the loop stops *)
Lemma medianLoop_split median l : positive l -> 0 <= median <= weightOf l -> weightOf l <= MaxInt64 -> 0 < weightOf l ->
  exists l1 wt l2, l = l1 ++ Some wt :: l2 /\ medianLoop median l = wtTime wt /\
    weightOf l1 <= Z.max 0 (median - 1) /\ median <= weightOf l1 + wtWeight wt.
Proof.
  revert median. induction l as [|[wt|] l IH]; intros median Hp Hm Hmax Hpos.
  - unfold weightOf in Hpos. rewrite sumZ_nil in Hpos. lia.
  - pose proof (Hp wt ltac:(by constructor)) as Hw. pose proof (weightOf_nonneg l (positive_cons _ _ Hp)) as Hl.
    unfold weightOf in *. rewrite sumZ_cons in Hm, Hmax, Hpos. simpl in Hm, Hmax, Hpos |- *.
    destruct (Z.leb_spec median (wtWeight wt)) as [Hle|Hgt].
    + exists [], wt, l. rewrite sumZ_nil. split_and!; (done || lia).
    + rewrite wrap64_id by (unfold int64, MinInt64; lia).
      destruct (IH (median - wtWeight wt) (positive_cons _ _ Hp)) as (l1 & wt' & l2 & -> & E & H1 & H2); [lia..|].
      exists (Some wt :: l1), wt', l2. rewrite sumZ_cons. simpl. split_and!; (done || lia).
  - unfold weightOf in *. rewrite sumZ_cons in Hm, Hmax, Hpos. simpl in Hm, Hmax, Hpos |- *.
    destruct (IH median (positive_cons _ _ Hp)) as (l1 & wt' & l2 & -> & E & H1 & H2); [lia..|].
    exists (None :: l1), wt', l2. rewrite sumZ_cons. simpl. split_and!; (done || lia).
Qed.

(** Entries with the time of a correct validator *)
Lemma correct_or_faulty (es : list entry) :
  (exists wt, (false, Some wt) ∈ es) \/ faultyWeight es = entriesWeight es.
Proof.
  induction es as [|[f wt] es IH]; [by right|]. destruct IH as [[wt' Hin]|IH]; [left; exists wt'; by apply elem_of_cons; right|].
  unfold faultyWeight, entriesWeight, weightOf in *. destruct f, wt as [wt|];
    try (right; rewrite fmap_cons, !sumZ_cons, IH; simpl; lia). left. exists wt. by constructor.
Qed.

Lemma faulty_le (es : list entry) : positive (es.*2) -> 0 <= faultyWeight es <= entriesWeight es.
Proof.
  intros Hp. unfold faultyWeight, entriesWeight, weightOf. rewrite sumZ_fmap.
  assert (forall e, e ∈ es -> 0 <= weight e.2) as Hw.
  { intros [f [wt|]] He; simpl; [|lia]. apply (list_elem_of_fmap_2 snd) in He. specialize (Hp wt He). lia. }
  split; [apply sumZ_nonneg|apply sumZ_le]; intros e He; specialize (Hw e He); destruct e.1; simpl; lia.
Qed.

Lemma positive_app l1 l2 : positive (l1 ++ l2) <-> positive l1 /\ positive l2.
Proof. unfold positive. setoid_rewrite elem_of_app. naive_solver. Qed.

Lemma StronglySorted_app_le {A} (R : A -> A -> Prop) l1 l2 x y :
  StronglySorted R (l1 ++ l2) -> x ∈ l1 -> y ∈ l2 -> R x y.
Proof.
  induction l1 as [|z l1 IH]; simpl; intros Hs Hx Hy; [by apply elem_of_nil in Hx|].
  apply StronglySorted_inv in Hs as [Hs Hd]. apply elem_of_cons in Hx as [->|Hx]; [|by apply IH].
  rewrite Forall_forall in Hd. apply Hd, elem_of_app. by right.
Qed.

Lemma time_le (a b : WeightedTime) : sort_le timeLess (Some a) (Some b) -> UnixNano (wtTime a) <= UnixNano (wtTime b).
Proof. unfold sort_le. simpl. lia. Qed.

(** The median of a sorted list is at most some correct time if less than half the
    weight is faulty, and at least some correct time if even one more than twice
    the faulty weight is less than all. *)
Lemma sorted_median (es : list entry) : StronglySorted (sort_le timeLess) (es.*2) -> positive (es.*2) ->
  0 < entriesWeight es <= MaxInt64 ->
  let median := medianLoop (Z.quot (entriesWeight es) 2) (es.*2) in
  (2 * faultyWeight es < entriesWeight es ->
   exists wt, (false, Some wt) ∈ es /\ UnixNano median <= UnixNano (wtTime wt)) /\
  (2 * faultyWeight es + 1 < entriesWeight es ->
   exists wt, (false, Some wt) ∈ es /\ UnixNano (wtTime wt) <= UnixNano median).
Proof.
  intros Hs Hp Hw median. pose proof (Z.quot_div_nonneg (entriesWeight es) 2 ltac:(lia) ltac:(lia)) as Hq.
  pose proof (Z.div_mod (entriesWeight es) 2 ltac:(lia)) as Hd. pose proof (Z.mod_pos_bound (entriesWeight es) 2 ltac:(lia)) as Hm.
  destruct (medianLoop_split (Z.quot (entriesWeight es) 2) (es.*2)) as (l1 & wt & l2 & El & E & H1 & H2);
    [done|fold (entriesWeight es); lia..|].
  apply fmap_app_inv in El as (es1 & es' & E1 & E2 & ->). destruct es' as [|[f x] es2]; [done|].
  rewrite fmap_cons in E2. injection E2 as Ex El2. simpl in Ex. subst x l2. unfold median. rewrite E. clear median E.
  rewrite fmap_app in Hs, Hp. apply positive_app in Hp as [Hp1 Hp2]. rewrite entriesWeight_app, faultyWeight_app in *.
  pose proof (faulty_le es1 Hp1) as Hf1. pose proof (faulty_le ((f, Some wt) :: es2) Hp2) as Hf2. split; intros HF.
  - destruct (correct_or_faulty ((f, Some wt) :: es2)) as [(wt' & Hin)|Hall].
    + exists wt'. split; [by apply elem_of_app; right|]. apply elem_of_cons in Hin as [[= _ <-]|Hin]; [done|].
      apply time_le. cbn [fmap list_fmap snd] in Hs.
      change (Some wt :: es2.*2) with ([Some wt] ++ es2.*2) in Hs. rewrite (assoc_L (++)) in Hs.
      eapply StronglySorted_app_le; [exact Hs|set_solver|by apply (list_elem_of_fmap_2 snd) in Hin].
    + subst l1. unfold entriesWeight in *. lia.
  - destruct (correct_or_faulty (es1 ++ [(f, Some wt)])) as [(wt' & Hin)|Hall].
    + exists wt'. apply elem_of_app in Hin as [Hin|[= <- <-]%list_elem_of_singleton];
        [|split; [set_solver|done]].
      split; [by apply elem_of_app; left|]. apply time_le.
      eapply StronglySorted_app_le; [exact Hs|by apply (list_elem_of_fmap_2 snd) in Hin|set_solver].
    + rewrite faultyWeight_app, entriesWeight_app in Hall. subst l1.
      change ((f, Some wt) :: es2) with ([(f, Some wt)] ++ es2) in *. rewrite faultyWeight_app, entriesWeight_app in *.
      change (([(f, Some wt)] ++ es2).*2) with ([Some wt] ++ es2.*2) in Hp2. apply positive_app in Hp2 as [_ Hp2].
      pose proof (faulty_le es2 Hp2).
      assert (entriesWeight [(f, Some wt)] = wtWeight wt) by (unfold entriesWeight, weightOf, sumZ; simpl; lia).
      unfold entriesWeight in *. lia.
Qed.

Lemma timeLess_asym a b : timeLess a b = true -> timeLess b a = false.
Proof. destruct a as [a|], b as [b|]; simpl; try done. lia. Qed.
Lemma timeLess_le_trans a b c : timeLess b a = false -> timeLess c b = false -> timeLess c a = false.
Proof. destruct a as [a|], b as [b|], c as [c|]; simpl; try done. lia. Qed.

Lemma WeightedMedian_between (es : list entry) : positive (es.*2) -> 0 < entriesWeight es <= MaxInt64 ->
  let median := WeightedMedian (es.*2) (entriesWeight es) in
  (2 * faultyWeight es < entriesWeight es ->
   exists wt, (false, Some wt) ∈ es /\ UnixNano median <= UnixNano (wtTime wt)) /\
  (2 * faultyWeight es + 1 < entriesWeight es ->
   exists wt, (false, Some wt) ∈ es /\ UnixNano (wtTime wt) <= UnixNano median).
Proof.
  intros Hp Hw. unfold WeightedMedian. cbv zeta.
  destruct (Permutation_map_inv snd es (sort_by_perm timeLess (es.*2))) as (es' & E' & Hperm).
  assert (sort_by timeLess (es.*2) = es'.*2) as E by exact E'. clear E'. rewrite E.
  assert (entriesWeight es = entriesWeight es') as Ew by (unfold entriesWeight, weightOf; by rewrite Hperm).
  rewrite Ew in Hw |- *.
  assert (faultyWeight es = faultyWeight es') as -> by (unfold faultyWeight; by rewrite Hperm).
  setoid_rewrite Hperm. apply sorted_median.
  - rewrite <- E. apply sort_by_sorted; [exact timeLess_asym|exact timeLess_le_trans].
  - rewrite <- E. intros wt Hin. rewrite sort_by_perm in Hin. by apply Hp.
  - done.
Qed.

(** ** The median of a commit *)

(** The entries of a commit whose signatures name their validators *)
Definition entriesOf (faulty : Validator -> bool) (vs : list Validator) (sigs : list CommitSig) : list entry :=
  zip_with (fun v cs => (faulty v, if CommitSig_Absent cs then None
                                   else Some (mkWeightedTime (csTimestamp cs) (VotingPower v)))) vs sigs.

(** The power of the validators that [p] selects among those whose signature is
    present *)
Definition presentPower (p : Validator -> bool) (vs : list Validator) (sigs : list CommitSig) : Z :=
  sumZ (fun vc => if negb (CommitSig_Absent (snd vc)) && p (fst vc) then VotingPower (fst vc) else 0) (zip vs sigs).

Lemma presentPower_cons p v vs cs sigs : presentPower p (v :: vs) (cs :: sigs)
  = (if negb (CommitSig_Absent cs) && p v then VotingPower v else 0) + presentPower p vs sigs.
Proof. unfold presentPower. simpl. by rewrite sumZ_cons. Qed.

Lemma presentPower_nonneg p vs sigs : (forall v, v ∈ vs -> 0 < VotingPower v) -> 0 <= presentPower p vs sigs.
Proof.
  intros Hv. apply sumZ_nonneg. intros [v cs] Hin. apply elem_of_zip_l in Hin. specialize (Hv v Hin). simpl.
  destruct (_ && _); lia.
Qed.

(** The signatures that are present name their validators. *)
Definition addressed (vs : list Validator) (sigs : list CommitSig) : Prop :=
  Forall2 (fun v cs => CommitSig_Absent cs = true \/ csValidatorAddress cs = Address v) vs sigs.

Lemma weighSignatures_addressed vals faulty : VS_wf vals -> forall vs sigs t,
  addressed vs sigs -> vs ⊆ Validators vals -> 0 <= t -> t + presentPower (fun _ => true) vs sigs <= MaxInt64 ->
  weighSignatures vals sigs t = ((entriesOf faulty vs sigs).*2, t + presentPower (fun _ => true) vs sigs).
Proof.
  intros Wf vs sigs t Ha. revert t. induction Ha as [|v cs vs sigs Hv Ha IH]; intros t Hsub Ht Hmax.
  { simpl. f_equal. unfold presentPower. simpl. rewrite sumZ_nil. lia. }
  assert (v ∈ Validators vals) as Hin by (apply Hsub; by constructor). pose proof (vs_power _ Wf v Hin) as Hpow.
  assert (vs ⊆ Validators vals) as Hsub' by (intros x Hx; apply Hsub; by constructor).
  pose proof (presentPower_nonneg (fun _ => true) vs sigs ltac:(intros x Hx; apply (vs_power _ Wf), Hsub', Hx)) as Hnn.
  rewrite presentPower_cons in *. cbn [weighSignatures entriesOf zip_with fmap list_fmap]. fold (entriesOf faulty vs sigs).
  destruct (CommitSig_Absent cs) eqn:Eabs; cbn [negb andb] in *.
  - rewrite IH by (done || lia). simpl. f_equal.
  - destruct Hv as [Hv|Hv]; [done|]. rewrite Hv, GetByAddress_elem by (done || apply Wf).
    rewrite wrap64_id by (unfold int64, MinInt64; lia). rewrite IH by (done || lia). simpl. f_equal. lia.
Qed.

Lemma entriesOf_weight faulty vs sigs : length vs = length sigs ->
  entriesWeight (entriesOf faulty vs sigs) = presentPower (fun _ => true) vs sigs /\
  faultyWeight (entriesOf faulty vs sigs) = presentPower faulty vs sigs.
Proof.
  revert sigs. induction vs as [|v vs IH]; intros [|cs sigs] El; try done. injection El as El.
  destruct (IH sigs El) as [E1 E2]. rewrite !presentPower_cons, <- E1, <- E2.
  unfold entriesWeight, faultyWeight, weightOf. cbn [entriesOf zip_with fmap list_fmap]. rewrite !sumZ_cons.
  fold (entriesOf faulty vs sigs). simpl. destruct (CommitSig_Absent cs), (faulty v); simpl; split; lia.
Qed.

Lemma entriesOf_elem faulty vs sigs f wt : (f, Some wt) ∈ entriesOf faulty vs sigs ->
  exists i v cs, vs !! i = Some v /\ sigs !! i = Some cs /\ CommitSig_Absent cs = false /\ faulty v = f /\
    wt = mkWeightedTime (csTimestamp cs) (VotingPower v).
Proof.
  intros [i Hi]%list_elem_of_lookup. unfold entriesOf in Hi. apply lookup_zip_with_Some in Hi as (v & cs & E & Hv & Hc).
  exists i, v, cs. destruct (CommitSig_Absent cs); [done|]. injection E as <- <-. done.
Qed.

Lemma blockPower_present vs sigs : (forall v, v ∈ vs -> 0 < VotingPower v) ->
  blockPower vs sigs <= presentPower (fun _ => true) vs sigs.
Proof.
  intros Hv. apply sumZ_le. intros [v cs] Hin. apply elem_of_zip_l in Hin. specialize (Hv v Hin). simpl.
  unfold CommitSig_ForBlock, CommitSig_Absent. destruct (Z.eqb_spec (csBlockIDFlag cs) BlockIDFlagCommit) as [->|]; simpl; [lia|].
  destruct (negb _ && _); lia.
Qed.

Lemma presentPower_le p vs sigs : (forall v, v ∈ vs -> 0 < VotingPower v) ->
  presentPower p vs sigs <= sumZ VotingPower (filter (fun v => p v = true) vs).
Proof.
  intros Hv. revert sigs. induction vs as [|v vs IH]; intros sigs; [by destruct sigs|]. destruct sigs as [|cs sigs].
  { unfold presentPower. simpl. rewrite sumZ_nil. apply sumZ_nonneg. intros x [_ Hx]%list_elem_of_filter. specialize (Hv x Hx). lia. }
  rewrite presentPower_cons. specialize (IH ltac:(intros x Hx; apply Hv; by constructor) sigs). pose proof (Hv v ltac:(by constructor)).
  rewrite filter_cons. destruct (p v) eqn:Ep; case_decide as Hd; rewrite ?Ep in Hd; try done; rewrite ?sumZ_cons, ?andb_true_r, ?andb_false_r; [|lia].
  destruct (negb _); lia.
Qed.

(** ** Claims *)

(** [C24] The median time of a commit that [VerifyCommit] accepts, and whose signatures name
    their own validators, is bounded by the times of correct validators.  With less
    than a third of the power faulty it is at most the time of some correct signer;
    it is at least the time of some correct signer if also twice the faulty power
    that signed, plus one, is less than all the power that signed. *)
Theorem MedianTime_between `{Crypto} (ST : StdTime) (chainID : bytes) (blockID : BlockID) (height : Z) (commit : Commit)
    (vals vals' : ValidatorSet) (faulty : Validator -> bool) :
  VS_wf vals -> VerifyCommit chainID blockID height commit vals = Done (None, vals') ->
  addressed (Validators vals) (cSignatures commit) ->
  3 * sumZ VotingPower (filter (fun v => faulty v = true) (Validators vals)) < sumZ VotingPower (Validators vals) ->
  let correct v cs := exists i, Validators vals !! i = Some v /\ cSignatures commit !! i = Some cs /\
    CommitSig_Absent cs = false /\ faulty v = false in
  (exists v cs, correct v cs /\ UnixNano (MedianTime commit vals) <= UnixNano (csTimestamp cs)) /\
  (2 * presentPower faulty (Validators vals) (cSignatures commit) + 1
     < presentPower (fun _ => true) (Validators vals) (cSignatures commit) ->
   exists v cs, correct v cs /\ UnixNano (csTimestamp cs) <= UnixNano (MedianTime commit vals)).
Proof.
  intros Wf E Ha Hf correct. apply VerifyCommit_accepts in E as (_ & El & _ & _ & _ & Hp); [|done].
  pose proof (blockPower_present (Validators vals) (cSignatures commit) (vs_power _ Wf)) as H1.
  pose proof (presentPower_le faulty (Validators vals) (cSignatures commit) (vs_power _ Wf)) as H2.
  pose proof (presentPower_le (fun _ => true) (Validators vals) (cSignatures commit) (vs_power _ Wf)) as H3.
  pose proof (presentPower_nonneg faulty (Validators vals) (cSignatures commit) (vs_power _ Wf)) as H4.
  rewrite filter_all in H3 by done. pose proof (vs_total _ Wf) as Ht. pose proof MaxTotalVotingPower_bound.
  set (es := entriesOf faulty (Validators vals) (cSignatures commit)).
  destruct (entriesOf_weight faulty (Validators vals) (cSignatures commit) El) as [Ew Ef]. fold es in Ew, Ef.
  assert (MedianTime commit vals = WeightedMedian (es.*2) (entriesWeight es)) as ->.
  { unfold MedianTime. rewrite (weighSignatures_addressed vals faulty Wf (Validators vals)) by (done || lia). by rewrite Ew. }
  assert (positive (es.*2)) as Hpos.
  { intros wt ([f x] & Ex & Hin)%list_elem_of_fmap. simpl in Ex. subst x.
    destruct (entriesOf_elem _ _ _ _ _ Hin) as (i & v & cs & Hv & _ & _ & _ & ->). simpl.
    eapply (vs_power _ Wf), list_elem_of_lookup_2, Hv. }
  assert (forall wt, (false, Some wt) ∈ es -> exists v cs, correct v cs /\ csTimestamp cs = wtTime wt) as Hc.
  { intros wt Hin. destruct (entriesOf_elem _ _ _ _ _ Hin) as (i & v & cs & ? & ? & ? & ? & ->). exists v, cs. split; [|done]. by exists i. }
  destruct (WeightedMedian_between es Hpos) as [Hup Hlo]; [lia|]. split.
  - destruct Hup as (wt & Hin & Hle); [lia|]. destruct (Hc wt Hin) as (v & cs & ? & Et). exists v, cs. by rewrite Et.
  - intros Hs. destruct Hlo as (wt & Hin & Hle); [lia|]. destruct (Hc wt Hin) as (v & cs & ? & Et). exists v, cs. by rewrite Et.
Qed.

Section example.
Local Existing Instances exampleCrypto exampleStdTime.

(** Four validators of the same power, of whom the first is faulty *)
Definition fourSet : ValidatorSet :=
  mkValidatorSet [exampleValidator 1 1 0; exampleValidator 2 1 0; exampleValidator 3 1 0; exampleValidator 4 1 0] None 0.
Definition firstFaulty (v : Validator) : bool := bool_decide (Address v = exampleAddress 1).

Lemma fourSet_wf : VS_wf fourSet.
Proof. concrete_wf. Qed.

(** The precommit of [v] at the time [t] *)
Definition timedSig (v : Validator) (t : Time) : CommitSig :=
  let unsigned := mkVote PrecommitType 5 0 exampleBlockID t (Address v) 0 [] in
  let sig := match VoteSignBytes exampleChain (Vote_ToProto unsigned), vPubKey v with
             | Done bz, Some pk => exampleSign pk bz
             | _, _ => []
             end in
  NewCommitSigForBlock sig (Address v) t.

Definition timedCommit (ts : list Time) : Commit :=
  NewCommit 5 0 exampleBlockID
    (zip_with timedSig (Validators fourSet) ts ++ replicate (4 - length ts) NewCommitSigAbsent).

(** The same signatures under the name of somebody else, but for the first one *)
Definition renamed (c : Commit) : Commit :=
  NewCommit (cHeight c) (cRound c) (cBlockID c)
    (match cSignatures c with
     | cs :: sigs => cs :: ((fun cs => mkCommitSig (csBlockIDFlag cs) (exampleAddress 99) (csTimestamp cs) (csSignature cs)) <$> sigs)
     | [] => []
     end).

Lemma MedianTime_between_witness :
  exists v cs, v ∈ Validators fourSet /\ v <> exampleValidator 1 1 0 /\ UnixNano (csTimestamp cs) <= MedianTime (timedCommit [0; 100; 101; 102]) fourSet.
Proof.
  destruct (MedianTime_between exampleStdTime exampleChain exampleBlockID 5 (timedCommit [0; 100; 101; 102]) fourSet
    (setTotalVotingPower 4 fourSet) firstFaulty) as [_ Hlo].
  - exact fourSet_wf.
  - vm_compute. reflexivity.
  - repeat (constructor; [right; reflexivity|]). constructor.
  - vm_compute. reflexivity.
  - destruct Hlo as (v & cs & (i & Hv & _ & _ & Hf) & Hle); [vm_compute; reflexivity|]. exists v, cs.
    split; [by eapply list_elem_of_lookup_2|]. split; [by intros ->|exact Hle].
Defined.


End example.
