(* ===== verification/Params.v ===== *)
(** * Consensus parameters

    types/params.go with the message that is hashed into the header
    (proto/tendermint/types/params.pb.go). *)

From Stdlib Require Import ZArith Lia.
From S2P Require Import Prelude Proto Validator BlockTypes Merkle SignBytes Header Block.
From stdpp Require Import base gmap sets list option strings numbers.

Local Open Scope Z_scope.

Definition MaxBlockSizeBytes : Z := 104857600.
Definition BlockPartSizeBytes : Z := 65536.
Definition MaxEvidencePerBlock : Z := 65535.
Definition ABCIPubKeyTypeEd25519 : string := "ed25519".
Definition millisecond : Z := 1000000.

Record BlockParams := mkBlockParams { bpMaxBytes : Z; bpMaxGas : Z; bpTimeIotaMs : Z }.
Record EvidenceParams := mkEvidenceParams {
  epMaxAgeNumBlocks : Z; epMaxAgeDuration : Z; epMaxNum : Z; epProofTrialPeriod : Z
}.
Record ValidatorParams := mkValidatorParams { vpPubKeyTypes : list string }.
Record VersionParams := mkVersionParams { vrAppVersion : Z }.
Record ConsensusParams := mkConsensusParams {
  cpBlock : BlockParams; cpEvidence : EvidenceParams; cpValidator : ValidatorParams; cpVersion : VersionParams
}.

#[global] Instance ConsensusParams_eq_dec : EqDecision ConsensusParams.
Proof. unfold EqDecision. intros [[] [] [] []] [[] [] [] []]. unfold Decision. repeat decide equality. Defined.

(** [abcix.ConsensusParams]; its [BlockParams] has the two sizes only. *)
Record paramUpdates := mkParamUpdates {
  puBlock : option (Z * Z);
  puEvidence : option EvidenceParams;
  puValidator : option ValidatorParams;
  puVersion : option VersionParams
}.

Definition DefaultConsensusParams : ConsensusParams :=
  mkConsensusParams (mkBlockParams 22020096 (-1) 1000)
    (mkEvidenceParams 100000 (48 * 3600 * 1000 * millisecond) 50 50000)
    (mkValidatorParams [ABCIPubKeyTypeEd25519]) (mkVersionParams 0).

Definition IsValidPubkeyType (params : ValidatorParams) (pubkeyType : string) : bool :=
  existsb (fun t => bool_decide (t = pubkeyType)) (vpPubKeyTypes params).

Definition ValidateConsensusParams (params : ConsensusParams) : option error :=
  let b := cpBlock params in
  let e := cpEvidence params in
  if bpMaxBytes b <=? 0 then Some "block.MaxBytes must be greater than 0"
  else if MaxBlockSizeBytes <? bpMaxBytes b then Some "block.MaxBytes is too big"
  else if bpMaxGas b <? -1 then Some "block.MaxGas must be greater or equal to -1"
  else if bpTimeIotaMs b <=? 0 then Some "block.TimeIotaMs must be greater than 0"
  else if epMaxAgeNumBlocks e <=? 0 then Some "evidenceParams.MaxAgeNumBlocks must be greater than 0"
  else if epMaxAgeDuration e <=? 0 then Some "evidenceParams.MaxAgeDuration must be grater than 0 if provided"
  else if MaxEvidencePerBlock <? epMaxNum e then Some "evidenceParams.MaxNumEvidence is greater than upper bound"
  else if bpMaxBytes b <? wrap64 (epMaxNum e * MaxEvidenceBytes)
  then Some "total possible evidence size is bigger than block.MaxBytes"
  else if epProofTrialPeriod e <=? 0 then Some "evidenceParams.ProofTrialPeriod must be grater than 0 if provided"
  else if epMaxAgeNumBlocks e <=? epProofTrialPeriod e
  then Some "evidenceParams.ProofTrialPeriod must be smaller than evidenceParams.MaxAgeNumBlocks"
  else if (length (vpPubKeyTypes (cpValidator params)) =? 0)%nat
  then Some "len(Validator.PubKeyTypes) must be greater than 0"
  else if forallb (fun t => bool_decide (t = ABCIPubKeyTypeEd25519)) (vpPubKeyTypes (cpValidator params))
  then None else Some "params.Validator.PubKeyTypes is an unknown pubkey type".

Definition UpdateConsensusParams (params : ConsensusParams) (params2 : option paramUpdates) : ConsensusParams :=
  match params2 with
  | None => params
  | Some p2 =>
    let b := cpBlock params in
    let e := cpEvidence params in
    mkConsensusParams
      (match puBlock p2 with Some (bytes, gas) => mkBlockParams bytes gas (bpTimeIotaMs b) | None => b end)
      (match puEvidence p2 with
       | Some e2 => mkEvidenceParams (epMaxAgeNumBlocks e2) (epMaxAgeDuration e2) (epMaxNum e2) (epProofTrialPeriod e)
       | None => e
       end)
      (match puValidator p2 with Some v2 => v2 | None => cpValidator params end)
      (match puVersion p2 with Some v2 => v2 | None => cpVersion params end)
  end.

(** ** The hash *)

Record HashedParams := mkHashedParams { hpBlockMaxBytes : Z; hpBlockMaxGas : Z }.

Definition HashedParams_write (m : HashedParams) : bytes :=
  let w := if negb (hpBlockMaxGas m =? 0) then putVarint 16 (wrapu64 (hpBlockMaxGas m)) [] else [] in
  if negb (hpBlockMaxBytes m =? 0) then putVarint 8 (wrapu64 (hpBlockMaxBytes m)) w else w.

Definition HashedParams_Size (m : HashedParams) : Z :=
  let n := if negb (hpBlockMaxBytes m =? 0) then 1 + sov (wrapu64 (hpBlockMaxBytes m)) else 0 in
  if negb (hpBlockMaxGas m =? 0) then n + (1 + sov (wrapu64 (hpBlockMaxGas m))) else n.

Definition HashedParams_Marshal (m : HashedParams) : outcome bytes :=
  marshalSized (HashedParams_Size m) (HashedParams_write m).

Definition HashConsensusParams {TH : TmHash} (params : ConsensusParams) : outcome bytes :=
  let! bz := HashedParams_Marshal (mkHashedParams (bpMaxBytes (cpBlock params)) (bpMaxGas (cpBlock params))) in
  Done (Sum bz).
