(* ===== verification/ChainState.v ===== *)
(** * The state of the chain

    State of state/state.go with its genesis (types/genesis.go) and the creation of
    blocks, and updateState of state/execution.go, by which a block and the answers of
    the application give the next state.

    A [State] holds three sets of validators.  A change that the application asks for
    at height [h] goes into the next validators, which become the validators one
    block later: it takes effect at height [h + 2]. *)

From Stdlib Require Import ZArith Lia.
From stdpp Require Import base gmap sets list option strings numbers sorting.
From S2P Require Import Prelude SafeMath Proto Validator ValidatorSet ValidatorSetUpdate ProposerPriority BlockTypes Merkle.
From S2P Require Import PartSet SignBytes Header ValidatorHash Block CommitVerify MedianTime Params.

Local Open Scope Z_scope.

Definition BlockProtocol : Z := 12.

(** [tmstate.Version] without the software version, a constant *)
Record State := mkState {
  stVersion : Version;
  stChainID : bytes;
  stLastBlockHeight : Z;
  stLastBlockID : BlockID;
  stLastBlockTime : Time;
  stNextValidators : ValidatorSet;
  stValidators : ValidatorSet;
  stLastValidators : ValidatorSet;
  stLastHeightValidatorsChanged : Z;
  stConsensusParams : ConsensusParams;
  stLastHeightConsensusParamsChanged : Z
}.

(** ** Genesis *)

Record GenesisValidator := mkGenesisValidator { gvAddress : bytes; gvPubKey : option PubKey; gvPower : Z }.

(** The slice of validators may be nil; the application's hash and state are not
    read here. *)
Record GenesisDoc := mkGenesisDoc {
  gdGenesisTime : Time;
  gdChainID : bytes;
  gdConsensusParams : option ConsensusParams;
  gdValidators : option (list GenesisValidator)
}.

(** The loop over the validators of [ValidateAndComplete] *)
Fixpoint completeValidators `{Crypto} (vs : list GenesisValidator) : outcome (result (list GenesisValidator)) :=
  match vs with
  | [] => Done (inr [])
  | v :: vs' =>
    if gvPower v =? 0 then Done (inl "the genesis file cannot contain validators with no voting power")
    else match gvPubKey v with
    | None => Panic "invalid memory address or nil pointer dereference"
    | Some pk =>
      if (0 <? length (gvAddress v))%nat && negb (bool_decide (pkAddress pk = gvAddress v))
      then Done (inl "incorrect address for validator in the genesis file")
      else
        let v' := if (length (gvAddress v) =? 0)%nat then mkGenesisValidator (pkAddress pk) (Some pk) (gvPower v) else v in
        let! r := completeValidators vs' in
        Done (match r with inl err => inl err | inr l => inr (v' :: l) end)
    end
  end.

Definition ValidateAndComplete `{Crypto} (now : Time) (genDoc : GenesisDoc) : outcome (result GenesisDoc) :=
  if (length (gdChainID genDoc) =? 0)%nat then Done (inl "genesis doc must include non-empty chain_id")
  else if MaxChainIDLen <? Z.of_nat (length (gdChainID genDoc)) then Done (inl "chain_id in genesis doc is too long")
  else
    match (match gdConsensusParams genDoc with
           | None => inr DefaultConsensusParams
           | Some p => match ValidateConsensusParams p with Some err => inl err | None => inr p end
           end) with
    | inl err => Done (inl err)
    | inr params =>
      let! r := completeValidators (default [] (gdValidators genDoc)) in
      match r with
      | inl err => Done (inl err)
      | inr vs =>
        let time := if gdGenesisTime genDoc =? zeroTime then now else gdGenesisTime genDoc in
        Done (inr (mkGenesisDoc time (gdChainID genDoc) (Some params)
                     (match gdValidators genDoc with Some _ => Some vs | None => None end)))
      end
    end.

Definition genesisValidator `{Crypto} (v : GenesisValidator) : outcome Validator :=
  match gvPubKey v with
  | None => Panic "invalid memory address or nil pointer dereference"
  | Some pk => Done (NewValidator pk (gvPower v))
  end.

Definition MakeGenesisState `{Crypto} (now : Time) (genDoc : GenesisDoc) : outcome (result State) :=
  let! r := ValidateAndComplete now genDoc in
  match r with
  | inl err => Done (inl ("error in genesis file: " +:+ err))
  | inr genDoc =>
    let! (validatorSet, nextValidatorSet) :=
      (match gdValidators genDoc with
       | None =>
         let! validatorSet := NewValidatorSet [] in
         let! nextValidatorSet := NewValidatorSet [] in
         Done (validatorSet, nextValidatorSet)
       | Some vs =>
         let! validators := mapM genesisValidator vs in
         let! validatorSet := NewValidatorSet validators in
         let! vals := NewValidatorSet validators in
         let! nextValidatorSet := CopyIncrementProposerPriority 1 vals in
         Done (validatorSet, nextValidatorSet)
       end) in
    let! lastValidators := NewValidatorSet [] in
    match gdConsensusParams genDoc with
    | None => Panic "invalid memory address or nil pointer dereference"
    | Some params =>
      Done (inr (mkState (mkVersion BlockProtocol 0) (gdChainID genDoc) 0 zeroBlockID (gdGenesisTime genDoc)
                   nextValidatorSet validatorSet lastValidators 1 params 1))
    end
  end.

(** ** Making a block *)

Section make.
Context `{Crypto} {TH : TmHash} {ST : StdTime} {W : Wrappers} {EI : EvidenceImpl} {BC : BlockCodec}.

(** A header of which only the height is set *)
Definition heightHeader (height : Z) : Header :=
  mkHeader (mkVersion 0 0) [] height zeroTime zeroBlockID None None [] [] [] [] [] None [].

Definition MakeBlock (height : Z) (txs : list bytes) (lastCommit : option Commit) (evidence : list Evidence)
    : outcome Block :=
  fillHeader (mkBlock (heightHeader height) (mkData txs None) (mkEvidenceData evidence None) lastCommit).

(** [State.MakeBlock], the block with its parts *)
Definition State_MakeBlock (state : State) (height : Z) (txs : list bytes) (commit : option Commit)
    (evidence : list Evidence) (proposerAddress appHash resultHash : bytes) : outcome (Block * option PartSet) :=
  let! block := MakeBlock height txs commit evidence in
  let! timestamp :=
    (if height =? 1 then Done (stLastBlockTime state)
     else match commit with
          | None => Panic "invalid memory address or nil pointer dereference"
          | Some commit => Done (MedianTime commit (stLastValidators state))
          end) in
  let! valHash := ValidatorSet_Hash (stValidators state) in
  let! nextValHash := ValidatorSet_Hash (stNextValidators state) in
  let! consensusHash := HashConsensusParams (stConsensusParams state) in
  let block := mkBlock (Header_Populate (bHeader block) (stVersion state) (stChainID state) timestamp
                          (stLastBlockID state) valHash nextValHash consensusHash appHash resultHash proposerAddress)
                 (bData block) (bEvidence block) (bLastCommit block) in
  let! parts := MakePartSet (Some block) BlockPartSizeBytes in
  Done (block, parts).

End make.

(** ** The next state *)

(** [abcix.ValidatorUpdate] *)
Record ValidatorUpdate := mkValidatorUpdate { vuPubKey : PublicKey; vuPower : Z }.

(** [PubKey.Type] *)
Definition PubKey_Type (pk : PubKey) : string :=
  match pk with
  | PubKeyEd25519 _ => "ed25519"
  | PubKeySecp256k1 _ => "secp256k1"
  | PubKeySr25519 _ => "sr25519"
  end.

Fixpoint validateValidatorUpdates (abciUpdates : list ValidatorUpdate) (params : ValidatorParams) : option error :=
  match abciUpdates with
  | [] => None
  | valUpdate :: rest =>
    if vuPower valUpdate <? 0 then Some "voting power can't be negative"
    else if vuPower valUpdate =? 0 then validateValidatorUpdates rest params
    else match PubKeyFromProto (vuPubKey valUpdate) with
    | inl err => Some err
    | inr pk =>
      if negb (IsValidPubkeyType params (PubKey_Type pk))
      then Some "validator is using a pubkey which is unsupported for consensus"
      else validateValidatorUpdates rest params
    end
  end.

(** [PB2TM.ValidatorUpdates] *)
Definition ValidatorUpdates `{Crypto} (vals : list ValidatorUpdate) : result (list Validator) :=
  mapResult (fun v => match PubKeyFromProto (vuPubKey v) with
                      | inl err => inl err
                      | inr pub => inr (NewValidator pub (vuPower v))
                      end) vals.

(** The next validators after the updates, before the rotation, and the height of
    their last change *)
Definition updateValidators (state : State) (header : Header) (validatorUpdates : list Validator)
    : outcome (result (ValidatorSet * Z)) :=
  let nValSet := ValidatorSet_Copy (stNextValidators state) in
  match validatorUpdates with
  | [] => Done (inr (nValSet, stLastHeightValidatorsChanged state))
  | _ =>
    let! (err, nValSet) := UpdateWithChangeSet validatorUpdates nValSet in
    Done (match err with
          | Some err => inl ("error changing validator set: " +:+ err)
          | None => inr (nValSet, wrap64 (hHeight header + 1 + 1))
          end)
  end.

(** The next parameters and version, and the height of their last change *)
Definition updateParams (state : State) (header : Header) (consensusParamUpdates : option paramUpdates)
    : result (ConsensusParams * Version * Z) :=
  match consensusParamUpdates with
  | None => inr (stConsensusParams state, stVersion state, stLastHeightConsensusParamsChanged state)
  | Some _ =>
    let nextParams := UpdateConsensusParams (stConsensusParams state) consensusParamUpdates in
    match ValidateConsensusParams nextParams with
    | Some err => inl ("error updating consensus params: " +:+ err)
    | None => inr (nextParams, mkVersion (verBlock (stVersion state)) (vrAppVersion (cpVersion nextParams)),
                   wrap64 (hHeight header + 1))
    end
  end.

(** [abciResponses] is given by the updates of the parameters, the only part that is
    read. *)
Definition updateState (state : State) (blockID : BlockID) (header : Header) (consensusParamUpdates : option paramUpdates)
    (validatorUpdates : list Validator) : outcome (result State) :=
  let! r := updateValidators state header validatorUpdates in
  match r with
  | inl err => Done (inl err)
  | inr (nValSet, lastHeightValsChanged) =>
    let! nValSet := IncrementProposerPriority 1 nValSet in
    match updateParams state header consensusParamUpdates with
    | inl err => Done (inl err)
    | inr (nextParams, nextVersion, lastHeightParamsChanged) =>
      Done (inr (mkState nextVersion (stChainID state) (hHeight header) blockID (hTime header) nValSet
                   (ValidatorSet_Copy (stNextValidators state)) (ValidatorSet_Copy (stValidators state))
                   lastHeightValsChanged nextParams lastHeightParamsChanged))
    end
  end.

(** ** Well-formed states *)

(** A well-formed set of validators with a proposer among them *)
Definition set_ok (vals : ValidatorSet) : Prop :=
  VS_wf vals /\ Validators vals <> [] /\ exists p, Proposer vals = Some p /\ p ∈ Validators vals.

Record state_wf (s : State) : Prop := {
  sw_next : set_ok (stNextValidators s);
  sw_vals : set_ok (stValidators s);
  sw_last : VS_wf (stLastValidators s);
  sw_params : ValidateConsensusParams (stConsensusParams s) = None;
  sw_height : 0 <= stLastBlockHeight s;
  sw_valsChanged : 1 <= stLastHeightValidatorsChanged s <= stLastBlockHeight s + 2;
  sw_paramsChanged : 1 <= stLastHeightConsensusParamsChanged s <= stLastBlockHeight s + 1
}.

#[global] Instance valid_changes_dec allowDeletes vals changes : Decision (valid_changes allowDeletes vals changes).
Proof.
  refine (cast_if (decide (NoDup (addresses changes) /\ Forall (fun c => Address c <> []) changes /\
    Forall (fun c => 0 <= VotingPower c <= MaxTotalVotingPower) changes /\
    Forall (fun c => VotingPower c = 0 -> allowDeletes = true /\ Address c ∈ addresses (Validators vals)) changes /\
    newSet vals changes <> [] /\ sumZ VotingPower (newSet vals changes) <= MaxTotalVotingPower)));
    abstract (rewrite !list.Forall_forall in *; first
      [ destruct_and!; by split | intros [????? ?]; naive_solver ]).
Defined.

(** The validators after the changes *)
Definition changed (vals : ValidatorSet) (updates : list Validator) (vals' : ValidatorSet) : Prop :=
  set_ok vals' /\ ident <$> Validators vals' ≡ₚ ident <$> newSet vals updates /\
  (updates = [] -> ident <$> Validators vals' = ident <$> Validators vals).

Lemma IncrementProposerPriority_ok times vals : VS_wf vals -> Validators vals <> [] -> 0 < times ->
  exists vals', IncrementProposerPriority times vals = Done vals' /\ set_ok vals' /\
    ident <$> Validators vals' = ident <$> Validators vals.
Proof.
  intros Wf Hne Ht. destruct (IncrementProposerPriority_spec times vals) as (p & prev & last & E & _ & Hs & Wl & Eid); [done..|].
  exists (setProposer (Some p) last). split_and!; [done| |done]. split_and!.
  - by destruct Wl; split.
  - simpl. intros El. rewrite El in Eid. by destruct (Validators vals).
  - exists p. split; [done|]. exact (stepped_proposer prev p last Hs).
Qed.

Lemma newSet_nil vals : newSet vals [] = Validators vals.
Proof. unfold newSet. rewrite app_nil_r. apply filter_all. intros v _. simpl. apply not_elem_of_nil. Qed.

Lemma changed_refl vals vals' : ident <$> Validators vals' = ident <$> Validators vals -> set_ok vals' -> changed vals [] vals'.
Proof. intros E Hok. split_and!; [done|by rewrite newSet_nil, E|done]. Qed.

(** What an accepted change of the validators gives after the rotation *)
Lemma UpdateWithChangeSet_changed vals updates : VS_wf vals -> valid_changes true vals updates -> updates <> [] ->
  exists vals1 vals2, UpdateWithChangeSet updates vals = Done (None, vals1) /\
    IncrementProposerPriority 1 vals1 = Done vals2 /\ changed vals updates vals2.
Proof.
  intros Wf V Hne. destruct (update_accepts true updates vals Wf Hne V) as (vals1 & E & W1 & Eid & _ & _).
  destruct (IncrementProposerPriority_ok 1 vals1) as (vals2 & E2 & Hok & Eid2); [done| |done|].
  { intros En. rewrite En in Eid. simpl in Eid. apply Permutation_nil_l in Eid.
    apply (vc_nonempty _ _ _ V). symmetry in Eid. by apply fmap_nil_inv in Eid. }
  exists vals1, vals2. split_and!; [exact E|done|]. split_and!; [done|by rewrite Eid2|by intros ->].
Qed.

(** The updates the state accepts *)
Definition valid_updates (s : State) (pu : option paramUpdates) (updates : list Validator) : Prop :=
  (updates = [] \/ valid_changes true (stNextValidators s) updates) /\
  (pu = None \/ ValidateConsensusParams (UpdateConsensusParams (stConsensusParams s) pu) = None).

(** The state after a block: the validators move up one place, the changes go into
    the next validators, and the last heights of a change are those at which the
    changes take effect. *)
Record next_state (s : State) (blockID : BlockID) (header : Header) (pu : option paramUpdates)
    (updates : list Validator) (s' : State) : Prop := {
  ns_block : stLastBlockHeight s' = hHeight header /\ stLastBlockID s' = blockID /\ stLastBlockTime s' = hTime header;
  ns_chain : stChainID s' = stChainID s /\ verBlock (stVersion s') = verBlock (stVersion s);
  ns_vals : stValidators s' = stNextValidators s;
  ns_last : stLastValidators s' = stValidators s;
  ns_next : changed (stNextValidators s) updates (stNextValidators s');
  ns_valsChanged : stLastHeightValidatorsChanged s'
    = if decide (updates = []) then stLastHeightValidatorsChanged s else hHeight header + 2;
  ns_params : stConsensusParams s' = UpdateConsensusParams (stConsensusParams s) pu;
  ns_paramsChanged : stLastHeightConsensusParamsChanged s'
    = if decide (pu = None) then stLastHeightConsensusParamsChanged s else hHeight header + 1
}.

Lemma updateValidators_valid s header updates : state_wf s -> 0 <= hHeight header -> hHeight header + 2 <= MaxInt64 ->
  updates = [] \/ valid_changes true (stNextValidators s) updates ->
  exists vals vals', updateValidators s header updates = Done (inr (vals,
      if decide (updates = []) then stLastHeightValidatorsChanged s else hHeight header + 2)) /\
    IncrementProposerPriority 1 vals = Done vals' /\ changed (stNextValidators s) updates vals'.
Proof.
  intros Ws Hpos Hmax Hu. unfold updateValidators. rewrite ValidatorSet_Copy_id.
  destruct (decide (updates = [])) as [->|Hne].
  - destruct (sw_next _ Ws) as (Wn & Hne & _).
    destruct (IncrementProposerPriority_ok 1 (stNextValidators s)) as (vals' & E2 & Hok & Eid); [done..|].
    eexists _, vals'. split_and!; [done..|by apply changed_refl].
  - destruct Hu as [->|V]; [done|].
    destruct (UpdateWithChangeSet_changed (stNextValidators s) updates) as (vals1 & vals2 & E1 & E2 & Hc);
      [apply (sw_next _ Ws)|done..|].
    exists vals1, vals2. split_and!; try done. destruct updates; [done|].
    rewrite E1, bind_Done, wrap64_id by (unfold int64, MinInt64; lia). by rewrite <- Z.add_assoc.
Qed.

Lemma updateParams_valid s header pu : 0 <= hHeight header -> hHeight header + 1 <= MaxInt64 ->
  pu = None \/ ValidateConsensusParams (UpdateConsensusParams (stConsensusParams s) pu) = None ->
  exists v, updateParams s header pu = inr (UpdateConsensusParams (stConsensusParams s) pu, v,
      if decide (pu = None) then stLastHeightConsensusParamsChanged s else hHeight header + 1) /\
    verBlock v = verBlock (stVersion s).
Proof.
  intros Hpos Hmax Hp. unfold updateParams. destruct pu as [pu|]; [|by eexists].
  destruct Hp as [|Hp]; [done|]. rewrite Hp, decide_False, wrap64_id by (done || (unfold int64, MinInt64; lia)). by eexists.
Qed.

Lemma updateState_valid s blockID header pu updates : state_wf s -> hHeight header = stLastBlockHeight s + 1 ->
  hHeight header + 2 <= MaxInt64 -> valid_updates s pu updates ->
  exists s', updateState s blockID header pu updates = Done (inr s') /\ next_state s blockID header pu updates s'.
Proof.
  intros Ws Eh Hmax [Hu Hp]. pose proof (sw_height _ Ws). unfold updateState. rewrite !ValidatorSet_Copy_id.
  destruct (updateValidators_valid s header updates) as (vals & vals' & -> & E & Hc); [done|lia..|done|].
  destruct (updateParams_valid s header pu) as (v & -> & Ev); [lia..|done|].
  rewrite bind_Done, E, bind_Done. eexists. split; [reflexivity|]. by split.
Qed.

Lemma updateState_invalid s blockID header pu updates : state_wf s -> 0 <= hHeight header -> hHeight header + 2 <= MaxInt64 ->
  ~ valid_updates s pu updates -> exists err, updateState s blockID header pu updates = Done (inl err).
Proof.
  intros Ws Hpos Hmax Hv. unfold updateState.
  destruct (decide (updates = [] \/ valid_changes true (stNextValidators s) updates)) as [Hu|Hu].
  - destruct (updateValidators_valid s header updates) as (vals & vals' & -> & E & _); [done..|].
    rewrite bind_Done, E, bind_Done. unfold updateParams. destruct pu as [pu|]; [|by destruct Hv; split; [|left]].
    destruct (ValidateConsensusParams _) eqn:Ep; [eauto|]. destruct Hv. split; [done|by right].
  - destruct (update_rejects true updates (stNextValidators s)) as (e & vals' & E & _);
      [apply (sw_next _ Ws)|tauto..|]. unfold updateValidators, UpdateWithChangeSet. rewrite ValidatorSet_Copy_id, E, bind_Done.
    destruct updates; [by destruct Hu; left|]. rewrite bind_Done. eauto.
Qed.

Lemma next_state_wf s blockID header pu updates s' : state_wf s -> hHeight header = stLastBlockHeight s + 1 ->
  valid_updates s pu updates -> next_state s blockID header pu updates s' -> state_wf s'.
Proof.
  intros Ws Eh [_ Hp] [(Ehh & _) _ Ev El (Hok & _) Ec Epar Epc]. destruct Ws as [Wn Wv Wl Wp Wh Wc Wpc]. split.
  - done.
  - by rewrite Ev.
  - rewrite El. apply Wv.
  - rewrite Epar. destruct Hp as [->|Hp]; [exact Wp|done].
  - rewrite Ehh. lia.
  - rewrite Ec, Ehh. destruct (decide (updates = [])); lia.
  - rewrite Epc, Ehh. destruct (decide (pu = None)); lia.
Qed.

(** ** The genesis state *)

Lemma empty_wf : VS_wf (mkValidatorSet [] None 0).
Proof.
  split; simpl; try (by intros v Hv%elem_of_nil); [constructor|by vm_compute|by left|constructor].
Qed.

Lemma NewValidatorSet_ok valz vals : NewValidatorSet valz = Done vals -> valz <> [] -> set_ok vals.
Proof.
  unfold NewValidatorSet. intros ([err vals1] & E & En)%bind_Done_inv Hne. destruct err; [done|].
  destruct (decide (valid_changes false (mkValidatorSet [] None 0) valz)) as [V|V].
  - destruct (update_accepts false valz _ empty_wf Hne V) as (vals' & E' & W1 & Eid & _). rewrite E' in E.
    injection E as ->. destruct valz as [|v vs]; [done|].
    destruct (IncrementProposerPriority_ok 1 vals1) as (vals2 & E2 & Hok & _); [done| |done|congruence]. intros En1. rewrite En1 in Eid. simpl in Eid. apply Permutation_nil_l in Eid.
    apply (vc_nonempty _ _ _ V). symmetry in Eid. by apply fmap_nil_inv in Eid.
  - destruct (update_rejects false valz _ empty_wf Hne V) as (e & vals' & E' & _). congruence.
Qed.

Lemma NewValidatorSet_nil : NewValidatorSet [] = Done (mkValidatorSet [] None 0).
Proof. reflexivity. Qed.

Lemma ValidateAndComplete_params `{Crypto} now doc doc' : ValidateAndComplete now doc = Done (inr doc') ->
  exists p, gdConsensusParams doc' = Some p /\ ValidateConsensusParams p = None /\
    (gdValidators doc <> None -> gdValidators doc' <> None).
Proof.
  unfold ValidateAndComplete. destruct (_ =? 0)%nat; [done|]. destruct (_ <? _); [done|].
  destruct (gdConsensusParams doc) as [p|]; [destruct (ValidateConsensusParams p) eqn:Ep; [done|]|];
    intros ([err|vs] & _ & E)%bind_Done_inv; try done; injection E as <-; eexists; simpl; split_and!; try done;
    by destruct (gdValidators doc).
Qed.

Lemma MakeGenesisState_spec `{Crypto} now doc s : MakeGenesisState now doc = Done (inr s) -> gdValidators doc <> None ->
  state_wf s /\ stLastBlockHeight s = 0 /\ stLastBlockID s = zeroBlockID /\
  stLastHeightValidatorsChanged s = 1 /\ stLastHeightConsensusParamsChanged s = 1 /\
  stLastValidators s = mkValidatorSet [] None 0 /\
  ident <$> Validators (stNextValidators s) = ident <$> Validators (stValidators s).
Proof.
  unfold MakeGenesisState. intros ([err|doc'] & Ed & E)%bind_Done_inv Hne; [done|].
  destruct (ValidateAndComplete_params _ _ _ Ed) as (p & Ep & Hp & Hv). specialize (Hv Hne).
  apply bind_Done_inv in E as ([vals nvals] & Ev & E). rewrite NewValidatorSet_nil, bind_Done, Ep in E. injection E as <-.
  destruct (gdValidators doc') as [vs|]; [|done].
  apply bind_Done_inv in Ev as (valz & _ & Ev). apply bind_Done_inv in Ev as (vals1 & E1 & Ev).
  apply bind_Done_inv in Ev as (vals2 & E2 & Ev). apply bind_Done_inv in Ev as (vals3 & E3 & Ev).
  injection Ev as -> ->. unfold CopyIncrementProposerPriority in E3. rewrite ValidatorSet_Copy_id in E3.
  assert (valz <> []) as Hz by (by intros ->; rewrite NewValidatorSet_nil in E2; injection E2 as <-).
  pose proof (NewValidatorSet_ok _ _ E2 Hz) as Hok2. rewrite E1 in E2. injection E2 as ->.
  destruct (IncrementProposerPriority_ok 1 vals2) as (vals' & E' & Hok' & Eid); [apply Hok2..|done|].
  assert (vals' = nvals) as -> by congruence. split_and!; try done. split; simpl; (done || lia || apply empty_wf).
Qed.

(** ** Claims *)

(** The states of a chain: one made from a genesis document with validators, and
    those that follow from it block by block *)
Inductive reachable `{Crypto} : State -> Prop :=
  | reachable_genesis now doc s :
      MakeGenesisState now doc = Done (inr s) -> gdValidators doc <> None -> reachable s
  | reachable_block s blockID header pu updates s' :
      reachable s -> hHeight header = stLastBlockHeight s + 1 -> hHeight header + 2 <= MaxInt64 ->
      updateState s blockID header pu updates = Done (inr s') -> reachable s'.

Lemma updateState_decides s blockID header pu updates s' : state_wf s -> hHeight header = stLastBlockHeight s + 1 ->
  hHeight header + 2 <= MaxInt64 -> updateState s blockID header pu updates = Done (inr s') ->
  valid_updates s pu updates /\ next_state s blockID header pu updates s'.
Proof.
  intros Ws Eh Hmax E. pose proof (sw_height _ Ws).
  destruct (decide ((updates = [] \/ valid_changes true (stNextValidators s) updates) /\
    (pu = None \/ ValidateConsensusParams (UpdateConsensusParams (stConsensusParams s) pu) = None))) as [V|V].
  - destruct (updateState_valid s blockID header pu updates) as (s1 & E1 & Hn); [done..|].
    rewrite E1 in E. injection E as ->. done.
  - destruct (updateState_invalid s blockID header pu updates) as (err & E1); [done|lia|done..|]. by rewrite E1 in E.
Qed.

Lemma reachable_wf `{Crypto} s : reachable s -> state_wf s.
Proof.
  induction 1 as [now doc s E Hne|s blockID header pu updates s' _ IH Eh Hmax E]; [by eapply MakeGenesisState_spec|].
  destruct (updateState_decides _ _ _ _ _ _ IH Eh Hmax E). by eapply next_state_wf.
Qed.


Section example.
Local Existing Instances exampleCrypto exampleTmHash exampleStdTime exampleWrappers.

Definition genesisKey (n : Z) : option PubKey := vPubKey (exampleValidator n 1 0).
Definition exampleGenesis : GenesisDoc :=
  mkGenesisDoc 1000 exampleChain None
    (Some [mkGenesisValidator [] (genesisKey 1) 10; mkGenesisValidator [] (genesisKey 2) 5]).
Definition genesisState : State :=
  match MakeGenesisState 0 exampleGenesis with Done (inr s) => s | _ => mkState (mkVersion 0 0) [] 0 zeroBlockID 0
    (mkValidatorSet [] None 0) (mkValidatorSet [] None 0) (mkValidatorSet [] None 0) 0 DefaultConsensusParams 0 end.

(** The second validator goes and a third comes. *)
Definition exampleUpdates : list Validator :=
  match genesisKey 2, genesisKey 3 with
  | Some k2, Some k3 => [NewValidator k2 0; NewValidator k3 7]
  | _, _ => []
  end.

Lemma genesisState_made : MakeGenesisState 0 exampleGenesis = Done (inr genesisState).
Proof. by vm_compute. Qed.


End example.
