(* ===== verification/StateStore.v ===== *)
(** * The state store

    state/store.go: the state, the validators and the consensus parameters of each
    height, and the application's answers, in a database.  The database holds the
    messages by height; their encoding and errors of the database are left out.

    A set of validators is stored only at the height where it changed and at every
    checkpoint; for the heights between, an entry points back to the last of these,
    and the set is rebuilt by rotating the proposer. *)

From Stdlib Require Import ZArith Lia.
From stdpp Require Import functions.
From stdpp Require Import base gmap sets list option strings numbers sorting.
From S2P Require Import Prelude SafeMath Proto Validator ValidatorSet ValidatorSetUpdate ProposerPriority BlockTypes Merkle.
From S2P Require Import SignBytes Header ValidatorHash Block Params ChainState.

Local Open Scope Z_scope.

Definition valSetCheckpointInterval : Z := 100000.

(** ** The messages *)

Record ValidatorsInfo := mkValidatorsInfo {
  viValidatorSet : option protoValidatorSet; viLastHeightChanged : Z
}.
Record ConsensusParamsInfo := mkConsensusParamsInfo {
  ciConsensusParams : ConsensusParams; ciLastHeightChanged : Z
}.

(** The zero value, which stands for parameters that are stored elsewhere *)
Definition emptyParams : ConsensusParams :=
  mkConsensusParams (mkBlockParams 0 0 0) (mkEvidenceParams 0 0 0 0) (mkValidatorParams []) (mkVersionParams 0).

(** [tmstate.State] *)
Record protoState := mkProtoState {
  psVersion : Version;
  psChainID : bytes;
  psLastBlockHeight : Z;
  psLastBlockID : protoBlockID;
  psLastBlockTime : Time;
  psNextValidators : option protoValidatorSet;
  psValidators : option protoValidatorSet;
  psLastValidators : option protoValidatorSet;
  psLastHeightValidatorsChanged : Z;
  psConsensusParams : ConsensusParams;
  psLastHeightConsensusParamsChanged : Z
}.

Definition State_ToProto (state : State) : result protoState :=
  match ValidatorSet_ToProto (Some (stValidators state)) with
  | inl err => inl err
  | inr vals =>
    match ValidatorSet_ToProto (Some (stNextValidators state)) with
    | inl err => inl err
    | inr nVals =>
      match (if 1 <=? stLastBlockHeight state then
               match ValidatorSet_ToProto (Some (stLastValidators state)) with inl err => inl err | inr l => inr (Some l) end
             else inr None) with
      | inl err => inl err
      | inr lVals =>
        inr (mkProtoState (stVersion state) (stChainID state) (stLastBlockHeight state)
               (BlockID_ToProto (Some (stLastBlockID state))) (stLastBlockTime state) (Some nVals) (Some vals) lVals
               (stLastHeightValidatorsChanged state) (stConsensusParams state) (stLastHeightConsensusParamsChanged state))
      end
    end
  end.

Definition StateFromProto (pb : option protoState) : outcome (result State) :=
  match pb with
  | None => Done (inl "nil State")
  | Some pb =>
    match BlockIDFromProto (Some (psLastBlockID pb)) with
    | inl err => Done (inl err)
    | inr bi =>
      match ValidatorSetFromProto (psValidators pb) with
      | inl err => Done (inl err)
      | inr vals =>
        match ValidatorSetFromProto (psNextValidators pb) with
        | inl err => Done (inl err)
        | inr nVals =>
          let! r := (if 1 <=? psLastBlockHeight pb then Done (ValidatorSetFromProto (psLastValidators pb))
                     else let! vs := NewValidatorSet [] in Done (inr vs)) in
          Done (match r with
                | inl err => inl err
                | inr lVals =>
                  inr (mkState (psVersion pb) (psChainID pb) (psLastBlockHeight pb) bi (psLastBlockTime pb) nVals vals lVals
                         (psLastHeightValidatorsChanged pb) (psConsensusParams pb) (psLastHeightConsensusParamsChanged pb))
                end)
        end
      end
    end
  end.

(** [abcix.ResponseDeliverTx] and [ResponseDeliverBlock] without logs, gas and events *)
Record ResponseDeliverTx := mkResponseDeliverTx { dtCode : Z; dtData : bytes }.
Record ResponseDeliverBlock := mkResponseDeliverBlock {
  dbDeliverTxs : list (option ResponseDeliverTx);
  dbValidatorUpdates : list ValidatorUpdate;
  dbConsensusParamUpdates : option paramUpdates
}.

Record StateDB := mkStateDB {
  sdValidators : gmap Z ValidatorsInfo;
  sdParams : gmap Z ConsensusParamsInfo;
  sdResponses : gmap Z ResponseDeliverBlock;
  sdState : option protoState
}.
Definition emptyDB : StateDB := mkStateDB ∅ ∅ ∅ None.

(** ** Validators *)

Definition lastStoredHeightFor (height lastHeightChanged : Z) : Z :=
  let checkpointHeight := height - Z.rem height valSetCheckpointInterval in
  Z.max checkpointHeight lastHeightChanged.

Definition saveValidatorsInfo (height lastHeightChanged : Z) (valSet : ValidatorSet) (db : StateDB) : outcome StateDB :=
  if height <? lastHeightChanged then Panic "LastHeightChanged cannot be greater than ValidatorsInfo height"
  else
    let! set := (if (height =? lastHeightChanged) || (Z.rem height valSetCheckpointInterval =? 0) then
                   match ValidatorSet_ToProto (Some valSet) with inl err => Panic err | inr pv => Done (Some pv) end
                 else Done None) in
    Done (mkStateDB (<[height := mkValidatorsInfo set lastHeightChanged]> (sdValidators db)) (sdParams db)
            (sdResponses db) (sdState db)).

Definition LoadValidators (height : Z) (db : StateDB) : outcome (result ValidatorSet) :=
  match sdValidators db !! height with
  | None => Done (inl "could not find validator set for height")
  | Some valInfo =>
    let! r := (match viValidatorSet valInfo with
               | Some pvs => Done (inr (Some pvs))
               | None =>
                 let lastStoredHeight := lastStoredHeightFor height (viLastHeightChanged valInfo) in
                 match sdValidators db !! lastStoredHeight with
                 | Some (mkValidatorsInfo (Some pvs) _) =>
                   match ValidatorSetFromProto (Some pvs) with
                   | inl err => Done (inl err)
                   | inr vs =>
                     let! times := SafeConvertInt32 (wrap64 (height - lastStoredHeight)) in
                     let! vs := IncrementProposerPriority times vs in
                     Done (match ValidatorSet_ToProto (Some vs) with inl err => inl err | inr vi2 => inr (Some vi2) end)
                   end
                 | _ => Panic "Couldn't find validators"
                 end
               end) in
    Done (match r with inl err => inl err | inr pvs => ValidatorSetFromProto pvs end)
  end.

(** ** Consensus parameters *)

Definition saveConsensusParamsInfo (nextHeight changeHeight : Z) (params : ConsensusParams) (db : StateDB) : StateDB :=
  let info := mkConsensusParamsInfo (if changeHeight =? nextHeight then params else emptyParams) changeHeight in
  mkStateDB (sdValidators db) (<[nextHeight := info]> (sdParams db)) (sdResponses db) (sdState db).

Definition LoadConsensusParams (height : Z) (db : StateDB) : outcome (result ConsensusParams) :=
  match sdParams db !! height with
  | None => Done (inl "could not find consensus params for height")
  | Some paramsInfo =>
    if bool_decide (ciConsensusParams paramsInfo = emptyParams) then
      match sdParams db !! ciLastHeightChanged paramsInfo with
      | None => Panic "Couldn't find consensus params at height as last changed"
      | Some paramsInfo2 => Done (inr (ciConsensusParams paramsInfo2))
      end
    else Done (inr (ciConsensusParams paramsInfo))
  end.

(** ** The state *)

(** [state.Bytes] fails by a panic. *)
Definition setState (state : State) (db : StateDB) : outcome StateDB :=
  match State_ToProto state with
  | inl err => Panic err
  | inr sm => Done (mkStateDB (sdValidators db) (sdParams db) (sdResponses db) (Some sm))
  end.

Definition SaveState (state : State) (db : StateDB) : outcome StateDB :=
  let nextHeight := wrap64 (stLastBlockHeight state + 1) in
  let! db := (if nextHeight =? 1 then saveValidatorsInfo nextHeight 1 (stValidators state) db else Done db) in
  let! db := saveValidatorsInfo (wrap64 (nextHeight + 1)) (stLastHeightValidatorsChanged state) (stNextValidators state) db in
  setState state (saveConsensusParamsInfo nextHeight (stLastHeightConsensusParamsChanged state) (stConsensusParams state) db).

(** The empty state is [None]. *)
Definition LoadState (db : StateDB) : outcome (option State) :=
  match sdState db with
  | None => Done None
  | Some sp =>
    let! r := StateFromProto (Some sp) in
    match r with inl err => Panic err | inr sm => Done (Some sm) end
  end.

Definition BootstrapState (state : State) (db : StateDB) : outcome StateDB :=
  let height := stLastBlockHeight state in
  let! db := saveValidatorsInfo height height (stLastValidators state) db in
  let! db := saveValidatorsInfo (wrap64 (height + 1)) (wrap64 (height + 1)) (stValidators state) db in
  let! db := saveValidatorsInfo (wrap64 (height + 2)) (wrap64 (height + 2)) (stNextValidators state) db in
  setState state (saveConsensusParamsInfo (wrap64 (height + 1)) (wrap64 (height + 1)) (stConsensusParams state) db).

(** The state that statesync/stateprovider.go puts together for the height of a
    snapshot from verified headers and validators; the last height at which the
    parameters changed is not set. *)
Definition provideState (chainID : bytes) (version : Version) (header : Header) (blockID : BlockID)
    (lastValidators validators nextValidators : ValidatorSet) (params : ConsensusParams) : State :=
  mkState version chainID (hHeight header) blockID (hTime header) nextValidators validators lastValidators
    (hHeight header) params 0.

(** ** The application's answers *)

Definition SaveABCIResponses (height : Z) (r : ResponseDeliverBlock) (db : StateDB) : StateDB :=
  let stripped := mkResponseDeliverBlock (filter (fun tx => is_Some tx) (dbDeliverTxs r)) (dbValidatorUpdates r)
                    (dbConsensusParamUpdates r) in
  mkStateDB (sdValidators db) (sdParams db) (<[height := stripped]> (sdResponses db)) (sdState db).

Definition LoadABCIResponses (height : Z) (db : StateDB) : result ResponseDeliverBlock :=
  match sdResponses db !! height with
  | None => inl "could not find results for height"
  | Some r => inr r
  end.

(** ** Pruning *)

(** The operations of a batch *)
Inductive batchOp :=
  | SetValidators (h : Z) (info : ValidatorsInfo)
  | DeleteValidators (h : Z)
  | SetParams (h : Z) (info : ConsensusParamsInfo)
  | DeleteParams (h : Z)
  | DeleteResponses (h : Z).

Definition applyOp (db : StateDB) (op : batchOp) : StateDB :=
  match op with
  | SetValidators h info => mkStateDB (<[h := info]> (sdValidators db)) (sdParams db) (sdResponses db) (sdState db)
  | DeleteValidators h => mkStateDB (delete h (sdValidators db)) (sdParams db) (sdResponses db) (sdState db)
  | SetParams h info => mkStateDB (sdValidators db) (<[h := info]> (sdParams db)) (sdResponses db) (sdState db)
  | DeleteParams h => mkStateDB (sdValidators db) (delete h (sdParams db)) (sdResponses db) (sdState db)
  | DeleteResponses h => mkStateDB (sdValidators db) (sdParams db) (delete h (sdResponses db)) (sdState db)
  end.

Definition pruneValidators (keepVals : list Z) (h : Z) (db : StateDB) : outcome (result (list batchOp)) :=
  if bool_decide (h ∈ keepVals) then
    match sdValidators db !! h with
    | None => Panic "invalid memory address or nil pointer dereference"
    | Some (mkValidatorsInfo (Some _) _) => Done (inr [])
    | Some (mkValidatorsInfo None _) =>
      let! r := LoadValidators h db in
      Done (match r with
            | inl err => inl err
            | inr vip =>
              match ValidatorSet_ToProto (Some vip) with
              | inl err => inl err
              | inr pvi => inr [SetValidators h (mkValidatorsInfo (Some pvi) h)]
              end
            end)
    end
  else Done (inr [DeleteValidators h]).

Definition pruneParams (keepParams : list Z) (h : Z) (db : StateDB) : outcome (result (list batchOp)) :=
  if bool_decide (h ∈ keepParams) then
    match sdParams db !! h with
    | None => Panic "invalid memory address or nil pointer dereference"
    | Some p =>
      if bool_decide (ciConsensusParams p = emptyParams) then
        let! r := LoadConsensusParams h db in
        Done (match r with inl err => inl err | inr params => inr [SetParams h (mkConsensusParamsInfo params h)] end)
      else Done (inr [])
    end
  else Done (inr [DeleteParams h]).

(** The loop from [h] down over [n] heights; the batch is written every 1000 heights
    and at the end, and dropped on an error. *)
Fixpoint pruneLoop (keepVals keepParams : list Z) (n : nat) (h : Z) (batch : list batchOp) (pruned : Z) (db : StateDB)
    : outcome (option error * StateDB) :=
  match n with
  | O => Done (None, foldl applyOp db batch)
  | S n' =>
    let! vals := pruneValidators keepVals h db in
    match vals with
    | inl err => Done (Some err, db)
    | inr vals =>
      let! params := pruneParams keepParams h db in
      match params with
      | inl err => Done (Some err, db)
      | inr params =>
        let batch := batch ++ vals ++ params ++ [DeleteResponses h] in
        let pruned := pruned + 1 in
        if (Z.rem pruned 1000 =? 0) && (0 <? pruned)
        then pruneLoop keepVals keepParams n' (h - 1) [] pruned (foldl applyOp db batch)
        else pruneLoop keepVals keepParams n' (h - 1) batch pruned db
      end
    end
  end.

Definition PruneStates (from to : Z) (db : StateDB) : outcome (option error * StateDB) :=
  if (from <=? 0) || (to <=? 0) then Done (Some "from height and to height must be greater than 0", db)
  else if to <=? from then Done (Some "from height must be lower than to height", db)
  else match sdValidators db !! to with
  | None => Done (Some "validators at height not found", db)
  | Some valInfo =>
    match sdParams db !! to with
    | None => Done (Some "consensus params at height not found", db)
    | Some paramsInfo =>
      let keepVals := match viValidatorSet valInfo with
                      | None => [viLastHeightChanged valInfo; lastStoredHeightFor to (viLastHeightChanged valInfo)]
                      | Some _ => []
                      end in
      let keepParams := if bool_decide (ciConsensusParams paramsInfo = emptyParams)
                        then [ciLastHeightChanged paramsInfo] else [] in
      pruneLoop keepVals keepParams (Z.to_nat (to - from)) (to - 1) [] 0 db
    end
  end.

(** ** Sets that can be stored *)

(** A validator with an Ed25519 key and an address of the right size *)
Definition plain_member (v : Validator) : Prop := ed25519_key v /\ Z.of_nat (length (Address v)) = AddressSize.

Definition set_plain (vals : ValidatorSet) : Prop := set_ok vals /\ Forall plain_member (Validators vals).

(** The same members in the same order, up to the proposer priorities *)
Notation same_members vals vals' := (ident <$> Validators vals = ident <$> Validators vals').

Lemma plain_member_ident v v' : ident v = ident v' -> plain_member v -> plain_member v'.
Proof. intros [= Ea Ek _] [(key & Hk & Hl) Hs]. split; [exists key|]; by rewrite <- ?Ek, <- ?Ea. Qed.

Lemma plain_ident l l' : ident <$> l ⊆ ident <$> l' -> Forall plain_member l' -> Forall plain_member l.
Proof.
  rewrite !list.Forall_forall. intros Hs Hp v Hv. assert (ident v ∈ ident <$> l') as (v' & Ev & Hv')%list_elem_of_fmap.
  { apply Hs, list_elem_of_fmap_2, Hv. }
  by eapply plain_member_ident, Hp.
Qed.

Lemma set_plain_plain vals : set_plain vals -> plain_vals vals.
Proof.
  intros [(Wf & Hne & p & Hp & Hin) Hf]. assert (forall v, v ∈ Validators vals -> Validator_ValidateBasic (Some v) = None) as Hv.
  { intros v Hv. rewrite list.Forall_forall in Hf. destruct (Hf v Hv) as [(key & Hk & _) Hl]. pose proof (vs_power _ Wf v Hv).
    unfold Validator_ValidateBasic. rewrite bool_decide_eq_false_2 by (by rewrite Hk). rewrite Hl, Z.eqb_refl.
    by rewrite (proj2 (Z.ltb_ge _ _)) by lia. }
  split_and!.
  - unfold ValidatorSet_ValidateBasic. rewrite nonempty_IsNil by done.
    destruct (list_find _ _) as [[i v]|] eqn:E; [|by rewrite Hp, Hv].
    apply list_find_Some in E as (Hi & Hb & _). destruct Hb. by eapply Hv, list_elem_of_lookup_2.
  - eapply Forall_impl; [exact Hf|]. by intros v [].
  - exists p. split; [done|]. rewrite list.Forall_forall in Hf. by apply Hf.
Qed.

Lemma set_plain_proto vals : set_plain vals ->
  exists pvs, ValidatorSet_ToProto (Some vals) = inr pvs /\ ValidatorSetFromProto (Some pvs) = inr vals.
Proof. intros Hp. by apply ValidatorSet_proto, set_plain_plain. Qed.

Lemma rotated_plain times vals : set_plain vals -> 0 < times ->
  exists vals', IncrementProposerPriority times vals = Done vals' /\ set_plain vals' /\ same_members vals' vals.
Proof.
  intros [(Wf & Hne & _) Hf] Ht. destruct (IncrementProposerPriority_ok times vals) as (vals' & E & Hok & Eid); [done..|].
  exists vals'. split_and!; [done| |done]. split; [done|]. eapply plain_ident; [|exact Hf]. by rewrite Eid.
Qed.

Lemma changed_plain vals updates vals' : set_plain vals -> changed vals updates vals' ->
  Forall plain_member updates -> set_plain vals'.
Proof.
  intros [_ Hf] (Hok & Eid & _) Hu. split; [done|]. eapply plain_ident; [|apply (Forall_app_2 _ _ _ Hf Hu)].
  intros x Hx. rewrite Eid in Hx. apply list_elem_of_fmap in Hx as (v & -> & Hv). apply list_elem_of_fmap_2.
  unfold newSet in Hv. rewrite elem_of_app, !list_elem_of_filter in Hv. apply elem_of_app. tauto.
Qed.

(** ** Entries that point back *)

(** [lc] gives the height of the last change of the value [M]: it does not decrease,
    and nothing changes until the next one. *)
Record lastChange {A} (M : Z -> A) (top : Z) (lc : Z -> Z) : Prop := {
  lc_range h : 1 <= h <= top -> 1 <= lc h <= h;
  lc_since h k : 1 <= h <= top -> lc h <= k <= h -> lc k = lc h /\ M k = M h
}.

Lemma checkpoint_range h : 0 <= h -> 0 <= Z.rem h valSetCheckpointInterval < 100000 /\ Z.rem h valSetCheckpointInterval <= h.
Proof.
  intros Hh. split; [apply Z.rem_bound_pos; [done|by vm_compute]|]. rewrite Z.rem_mod_nonneg by done. by apply Z.mod_le.
Qed.

Lemma lastStored_range h c : 1 <= c <= h -> c <= lastStoredHeightFor h c <= h /\ h - lastStoredHeightFor h c < 100000.
Proof. intros Hc. destruct (checkpoint_range h); [lia|]. unfold lastStoredHeightFor. lia. Qed.

Definition full (h c : Z) : Prop := h = c \/ Z.rem h valSetCheckpointInterval = 0.

Lemma lastStored_full h c : 1 <= c <= h -> full h c <-> lastStoredHeightFor h c = h.
Proof. intros Hc. destruct (checkpoint_range h); [lia|]. unfold lastStoredHeightFor, full. lia. Qed.

(** The next height that is not full has the same last stored height. *)
Lemma lastStored_next h c : 1 <= c <= h -> ~ full (h + 1) c -> lastStoredHeightFor (h + 1) c = lastStoredHeightFor h c.
Proof.
  intros Hc Hf. unfold lastStoredHeightFor, full in *. rewrite !Z.rem_mod_nonneg in * by (unfold valSetCheckpointInterval; lia).
  unfold valSetCheckpointInterval in *. pose proof (Z.div_mod h 100000 ltac:(lia)). pose proof (Z.div_mod (h + 1) 100000 ltac:(lia)).
  pose proof (Z.mod_pos_bound h 100000 ltac:(lia)). pose proof (Z.mod_pos_bound (h + 1) 100000 ltac:(lia)).
  assert (h / 100000 = (h + 1) / 100000) by (destruct (decide ((h + 1) mod 100000 = 0)); [tauto|]; nia). lia.
Qed.

(** ** The entries of the validators *)

Definition stored (pvs : protoValidatorSet) (vals : ValidatorSet) : Prop :=
  exists vs, ValidatorSetFromProto (Some pvs) = inr vs /\ set_plain vs /\ same_members vs vals.

(** From [base] to [top] every height has an entry, and the set it stands for is
    stored in it or at the last stored height. *)
Record vals_ok (V : Z -> ValidatorSet) (lc : Z -> Z) (base top : Z) (m : gmap Z ValidatorsInfo) : Prop := {
  vo_base : 1 <= base <= top;
  vo_change : lastChange (fun h => ident <$> Validators (V h)) top lc;
  vo_entry h : base <= h <= top -> exists set, m !! h = Some (mkValidatorsInfo set (lc h)) /\
    match set with Some pvs => stored pvs (V h) /\ full h (lc h) | None => ~ full h (lc h) end;
  vo_target h : base <= h <= top -> exists pvs c, let l := lastStoredHeightFor h (lc h) in
    m !! l = Some (mkValidatorsInfo (Some pvs) c) /\ stored pvs (V l)
}.

Lemma vals_ok_load V lc base top db h : vals_ok V lc base top (sdValidators db) -> base <= h <= top -> h <= MaxInt64 ->
  exists vals, LoadValidators h db = Done (inr vals) /\ set_plain vals /\ same_members vals (V h).
Proof.
  intros [Hb Hc He Ht] Hh Hmax. unfold LoadValidators. destruct (He h Hh) as (set & -> & Hs). cbn [viValidatorSet viLastHeightChanged].
  destruct set as [pvs|].
  { rewrite bind_Done. destruct Hs as [(vs & -> & Hp & Hm) _]. by exists vs. }
  pose proof (lc_range _ _ _ Hc h ltac:(lia)) as Hl. destruct (lastStored_range h (lc h)) as [Hr Hd]; [lia|].
  destruct (Ht h Hh) as (pvs & c & E1 & vs & E2 & Hp & Hm). rewrite (lastStored_full h (lc h)) in Hs by lia.
  rewrite E1, E2.
  rewrite SafeConvertInt32_exact, wrap64_id by (unfold int64, MinInt64; lia).
  unfold exact32. rewrite decide_True by (unfold int32, MinInt32, MaxInt32; lia). rewrite bind_Done.
  destruct (rotated_plain (h - lastStoredHeightFor h (lc h)) vs) as (vs' & -> & Hp' & Hm'); [done|lia|]. rewrite bind_Done.
  destruct (set_plain_proto vs' Hp') as (pvs' & -> & E). rewrite bind_Done, E. exists vs'. split_and!; [done..|].
  rewrite Hm', Hm. apply (lc_since _ _ _ Hc h); lia.
Qed.

Lemma lastChange_extend {A} (M : Z -> A) top lc m c : lastChange M top lc -> 1 <= top ->
  c = top + 1 \/ c = lc top /\ m = M top -> lastChange (<[top + 1 := m]> M) (top + 1) (<[top + 1 := c]> lc).
Proof.
  intros [Hr Hs] Ht Hc. split.
  - intros h Hh. destruct (decide (h = top + 1)) as [->|Hne]; [|rewrite fn_lookup_insert_ne by done; apply Hr; lia].
    rewrite fn_lookup_insert. pose proof (Hr top ltac:(lia)). lia.
  - intros h k Hh. destruct (decide (h = top + 1)) as [->|Hne].
    + rewrite !fn_lookup_insert. intros Hk. destruct (decide (k = top + 1)) as [->|Hk1]; [by rewrite !fn_lookup_insert|].
      rewrite !fn_lookup_insert_ne by done. destruct Hc as [->|[-> ->]]; [lia|]. apply (Hs top); lia.
    + rewrite !(fn_lookup_insert_ne _ _ h) by done. intros Hk. pose proof (Hr h ltac:(lia)).
      rewrite !(fn_lookup_insert_ne _ _ k) by lia. apply Hs; lia.
Qed.

Lemma vals_ok_save V lc base top db vals c : vals_ok V lc base top (sdValidators db) -> set_plain vals ->
  c = top + 1 \/ c = lc top /\ same_members vals (V top) ->
  exists m, saveValidatorsInfo (top + 1) c vals db = Done (mkStateDB m (sdParams db) (sdResponses db) (sdState db)) /\
    vals_ok (<[top + 1 := vals]> V) (<[top + 1 := c]> lc) base (top + 1) m.
Proof.
  intros [Hb Hc He Ht] Hp Hcase. pose proof (lc_range _ _ _ Hc top ltac:(lia)) as Hl. unfold saveValidatorsInfo.
  rewrite (proj2 (Z.ltb_ge _ _)) by lia. destruct (set_plain_proto vals Hp) as (pvs & -> & Epvs).
  set (isFull := (top + 1 =? c) || (Z.rem (top + 1) valSetCheckpointInterval =? 0)).
  assert ((if isFull then Done (Some pvs) else Done None) = Done (if isFull then Some pvs else None)) as -> by (by destruct isFull).
  rewrite bind_Done. eexists. split; [reflexivity|].
  assert (stored pvs vals) as Hst by (by exists vals).
  assert (isFull = true <-> full (top + 1) c) as Hfull by (unfold isFull, full; lia). clearbody isFull. split.
  - lia.
  - eapply (lastChange_extend _ _ _ (ident <$> Validators vals)) in Hc; [|lia|exact Hcase]. destruct Hc as [Hr Hs]. split; [exact Hr|].
    assert (forall k, ident <$> Validators ((<[top + 1 := vals]> V) k)
      = (<[top + 1 := ident <$> Validators vals]> (fun h => ident <$> Validators (V h))) k) as HM.
    { intros k. destruct (decide (k = top + 1)) as [->|]; [by rewrite !fn_lookup_insert|by rewrite !fn_lookup_insert_ne]. }
    intros h k Hh Hk. rewrite !HM. by apply Hs.
  - intros h Hh. destruct (decide (h = top + 1)) as [->|Hne].
    + rewrite lookup_insert_eq, !fn_lookup_insert. eexists. split; [done|]. destruct isFull; [split; [done|by apply Hfull]|by rewrite <- Hfull].
    + rewrite lookup_insert_ne, !fn_lookup_insert_ne by done. apply He. lia.
  - intros h Hh. cbv zeta. destruct (decide (h = top + 1)) as [->|Hne].
    + rewrite fn_lookup_insert. destruct isFull.
      * rewrite (proj1 (lastStored_full (top + 1) c ltac:(lia))) by tauto. rewrite lookup_insert_eq, fn_lookup_insert. eauto.
      * assert (~ full (top + 1) c) as Hf by (by rewrite <- Hfull). destruct Hcase as [->|[-> _]]; [by destruct Hf; left|].
        rewrite lastStored_next by done. destruct (lastStored_range top (lc top)); [lia|].
        rewrite lookup_insert_ne, fn_lookup_insert_ne by lia. apply Ht. lia.
    + rewrite (fn_lookup_insert_ne lc) by done. pose proof (lc_range _ _ _ Hc h ltac:(lia)).
      destruct (lastStored_range h (lc h)); [lia|]. rewrite lookup_insert_ne, fn_lookup_insert_ne by lia. apply Ht. lia.
Qed.

Lemma vals_ok_first vals : set_plain vals ->
  exists m, saveValidatorsInfo 1 1 vals emptyDB = Done (mkStateDB m ∅ ∅ None) /\ vals_ok (fun _ => vals) (fun _ => 1) 1 1 m.
Proof.
  intros Hp. unfold saveValidatorsInfo. destruct (set_plain_proto vals Hp) as (pvs & -> & E). eexists. split; [reflexivity|].
  assert (stored pvs vals) as Hst by (by exists vals). split; [lia|split; [lia|done]|..]; intros h Hh; assert (h = 1) as -> by lia.
  - eexists. rewrite lookup_insert_eq. split; [done|]. split; [done|by left].
  - exists pvs, 1. split; [|done]. by rewrite lookup_insert_eq.
Qed.

(** ** The entries of the parameters *)

Record params_ok (P : Z -> ConsensusParams) (lp : Z -> Z) (base top : Z) (m : gmap Z ConsensusParamsInfo) : Prop := {
  po_base : 1 <= base <= top;
  po_change : lastChange P top lp;
  po_valid h : 1 <= h <= top -> P h <> emptyParams;
  po_entry h : base <= h <= top -> m !! h = Some (mkConsensusParamsInfo (if lp h =? h then P h else emptyParams) (lp h));
  po_target h : base <= h <= top -> exists c, m !! lp h = Some (mkConsensusParamsInfo (P (lp h)) c)
}.

Lemma valid_params_not_empty p : ValidateConsensusParams p = None -> p <> emptyParams.
Proof. by intros E ->. Qed.

Lemma params_ok_load P lp base top db h : params_ok P lp base top (sdParams db) -> base <= h <= top ->
  LoadConsensusParams h db = Done (inr (P h)).
Proof.
  intros [Hb Hc Hv He Ht] Hh. unfold LoadConsensusParams. rewrite He by done. cbn [ciConsensusParams ciLastHeightChanged].
  pose proof (lc_range _ _ _ Hc h ltac:(lia)). destruct (Z.eqb_spec (lp h) h) as [El|Hne].
  - by rewrite bool_decide_eq_false_2 by (apply Hv; lia).
  - rewrite bool_decide_eq_true_2 by done. destruct (Ht h Hh) as (c & ->). cbn [ciConsensusParams].
    by rewrite (proj2 (lc_since _ _ _ Hc h (lp h) ltac:(lia) ltac:(lia))).
Qed.

Lemma params_ok_save P lp base top db p c : params_ok P lp base top (sdParams db) -> ValidateConsensusParams p = None ->
  c = top + 1 \/ c = lp top /\ p = P top ->
  params_ok (<[top + 1 := p]> P) (<[top + 1 := c]> lp) base (top + 1) (sdParams (saveConsensusParamsInfo (top + 1) c p db)).
Proof.
  intros [Hb Hc Hv He Ht] Hp Hcase. pose proof (lc_range _ _ _ Hc top ltac:(lia)) as Hl. cbn [saveConsensusParamsInfo sdParams]. split.
  - lia.
  - by apply lastChange_extend; [|lia|].
  - intros h Hh. destruct (decide (h = top + 1)) as [->|]; [rewrite fn_lookup_insert; by apply valid_params_not_empty|].
    rewrite fn_lookup_insert_ne by done. apply Hv. lia.
  - intros h Hh. destruct (decide (h = top + 1)) as [->|]; [by rewrite lookup_insert_eq, !fn_lookup_insert|].
    rewrite lookup_insert_ne, !fn_lookup_insert_ne by done. apply He. lia.
  - intros h Hh. destruct (decide (h = top + 1)) as [->|Hne].
    + rewrite (fn_lookup_insert lp). destruct Hcase as [->|[-> _]].
      * rewrite lookup_insert_eq, fn_lookup_insert, Z.eqb_refl. eauto.
      * rewrite lookup_insert_ne, fn_lookup_insert_ne by lia. apply Ht. lia.
    + rewrite (fn_lookup_insert_ne lp) by done. pose proof (lc_range _ _ _ Hc h ltac:(lia)).
      rewrite lookup_insert_ne, fn_lookup_insert_ne by lia. apply Ht. lia.
Qed.

Lemma params_ok_first p db : ValidateConsensusParams p = None ->
  params_ok (fun _ => p) (fun _ => 1) 1 1 (sdParams (saveConsensusParamsInfo 1 1 p db)).
Proof.
  intros Hp. cbn [saveConsensusParamsInfo sdParams]. split; [lia|split; [lia|done]|intros h _; by apply valid_params_not_empty|..];
    intros h Hh; assert (h = 1) as -> by lia; rewrite lookup_insert_eq; [done|by eexists].
Qed.

(** ** The state itself *)

Record state_plain (s : State) : Prop := {
  sp_wf : state_wf s;
  sp_next : set_plain (stNextValidators s);
  sp_vals : set_plain (stValidators s);
  sp_last : stLastBlockHeight s = 0 /\ stLastValidators s = mkValidatorSet [] None 0 \/
            1 <= stLastBlockHeight s /\ set_plain (stLastValidators s);
  sp_blockID : BlockID_ValidateBasic (stLastBlockID s) = None
}.

Lemma State_roundtrip s : state_plain s ->
  exists sm, State_ToProto s = inr sm /\ StateFromProto (Some sm) = Done (inr s).
Proof.
  intros [Wf Hn Hv Hl Hb]. unfold State_ToProto.
  destruct (set_plain_proto _ Hn) as (nVals & -> & En). destruct (set_plain_proto _ Hv) as (vals & -> & Ev).
  destruct (Z.leb_spec 1 (stLastBlockHeight s)) as [Hh|Hh].
  - destruct Hl as [[? _]|[_ Hl]]; [lia|]. destruct (set_plain_proto _ Hl) as (lVals & -> & El).
    eexists. split; [reflexivity|]. unfold StateFromProto.
    cbn [psLastBlockID psValidators psNextValidators psLastValidators psLastBlockHeight].
    rewrite BlockID_valid_roundtrip, Ev, En, El, (proj2 (Z.leb_le _ _)), bind_Done by done. by destruct s.
  - eexists. split; [reflexivity|]. unfold StateFromProto.
    cbn [psLastBlockID psValidators psNextValidators psLastValidators psLastBlockHeight].
    rewrite BlockID_valid_roundtrip, Ev, En, (proj2 (Z.leb_gt _ _)), NewValidatorSet_nil, !bind_Done by done.
    destruct Hl as [[_ Hl]|[? _]]; [|lia]. destruct s. cbn in *. by subst.
Qed.

(** ** The database of a chain *)

(** The database has what the state needs, for the heights from [base] on. *)
Definition db_ok (base : Z) (V : Z -> ValidatorSet) (P : Z -> ConsensusParams) (s : State) (db : StateDB) : Prop :=
  let h := stLastBlockHeight s in
  state_plain s /\ LoadState db = Done (Some s) /\
  (exists lc, vals_ok V lc base (h + 2) (sdValidators db) /\ lc (h + 2) = stLastHeightValidatorsChanged s /\
     V (h + 2) = stNextValidators s) /\
  (exists lp, params_ok P lp base (h + 1) (sdParams db) /\ lp (h + 1) = stLastHeightConsensusParamsChanged s /\
     P (h + 1) = stConsensusParams s).

Lemma setState_done s db : state_plain s ->
  exists sm, setState s db = Done (mkStateDB (sdValidators db) (sdParams db) (sdResponses db) (Some sm)) /\
    forall m1 m2 m3, LoadState (mkStateDB m1 m2 m3 (Some sm)) = Done (Some s).
Proof.
  intros Hs. destruct (State_roundtrip s Hs) as (sm & E1 & E2). exists sm. unfold setState. rewrite E1. split; [done|].
  intros m1 m2 m3. unfold LoadState. cbn [sdState]. by rewrite E2, bind_Done.
Qed.

Lemma SaveState_genesis `{Crypto} now doc s : MakeGenesisState now doc = Done (inr s) -> gdValidators doc <> None ->
  Forall plain_member (Validators (stValidators s)) ->
  exists db, SaveState s emptyDB = Done db /\
    db_ok 1 (<[2 := stNextValidators s]> (fun _ => stValidators s)) (fun _ => stConsensusParams s) s db.
Proof.
  intros E Hne Hp. destruct (MakeGenesisState_spec _ _ _ E Hne) as (Wf & Eh & Eb & Ec & Ep & El & Em).
  assert (set_plain (stValidators s)) as Hv by (split; [apply (sw_vals _ Wf)|done]).
  assert (set_plain (stNextValidators s)) as Hn.
  { split; [apply (sw_next _ Wf)|]. eapply plain_ident; [|exact Hp]. by rewrite Em. }
  assert (state_plain s) as Hs by (split; [done..|by left|by rewrite Eb]).
  unfold SaveState. rewrite Eh, Ec, Ep. change (wrap64 (0 + 1)) with 1. change (wrap64 (1 + 1)) with (1 + 1). cbn [Z.eqb Pos.eqb].
  destruct (vals_ok_first (stValidators s) Hv) as (m1 & -> & H1). rewrite bind_Done.
  destruct (vals_ok_save (fun _ => stValidators s) (fun _ => 1) 1 1 (mkStateDB m1 ∅ ∅ None) (stNextValidators s) 1)
    as (m2 & -> & H2); [done|done|by right|]. rewrite bind_Done. cbn [sdParams sdResponses sdState].
  destruct (setState_done s (saveConsensusParamsInfo 1 1 (stConsensusParams s) (mkStateDB m2 ∅ ∅ None)) Hs) as (sm & -> & Hl).
  eexists. split; [reflexivity|]. unfold db_ok. rewrite Eh, Ec, Ep. split_and!; [done|apply Hl|..].
  - eexists. split; [exact H2|]. by rewrite !fn_lookup_insert.
  - eexists. split; [by apply params_ok_first, (sw_params _ Wf)|done].
Qed.

Lemma SaveState_block base V P s db blockID header pu updates s' : db_ok base V P s db ->
  hHeight header = stLastBlockHeight s + 1 -> hHeight header + 2 <= MaxInt64 ->
  updateState s blockID header pu updates = Done (inr s') ->
  Forall plain_member updates -> BlockID_ValidateBasic blockID = None ->
  exists db', SaveState s' db = Done db' /\
    db_ok base (<[hHeight header + 2 := stNextValidators s']> V) (<[hHeight header + 1 := stConsensusParams s']> P) s' db'.
Proof.
  intros (Hs & _ & (lc & Hvals & Elc & EV) & (lp & Hpar & Elp & EP)) Eh Hmax E Hu Hb.
  pose proof (sp_wf _ Hs) as Wf. destruct (updateState_decides _ _ _ _ _ _ Wf Eh Hmax E) as [Hval Hn].
  pose proof (next_state_wf _ _ _ _ _ _ Wf Eh Hval Hn) as Wf'. pose proof (sw_height _ Wf) as Hpos.
  destruct Hn as [(Ehh & Ebb & _) _ Ev' El' Hch Ec' Ep' Epc'].
  assert (set_plain (stNextValidators s')) as Hnp by (eapply changed_plain; [apply Hs|exact Hch|done]).
  assert (state_plain s') as Hs'.
  { split; [done|done|rewrite Ev'; apply Hs|right; rewrite El', Ehh; split; [lia|apply Hs]|by rewrite Ebb]. }
  unfold SaveState. rewrite Ehh. rewrite !wrap64_id by (unfold int64, MinInt64; lia).
  rewrite (proj2 (Z.eqb_neq _ _)) by lia. rewrite bind_Done.
  replace (stLastBlockHeight s + 2) with (hHeight header + 1) in * by lia. rewrite <- Eh in *. rewrite <- Z.add_assoc.
  destruct (vals_ok_save V lc base (hHeight header + 1) db (stNextValidators s') (stLastHeightValidatorsChanged s'))
    as (m & Esave & Hok); [done|done|..].
  { rewrite Ec'. destruct (decide (updates = [])) as [->|]; [right|left; lia]. split; [done|]. rewrite EV. by apply Hch. }
  rewrite <- Z.add_assoc in Esave, Hok. rewrite Esave, bind_Done.
  destruct (setState_done s' (saveConsensusParamsInfo (hHeight header + 1) (stLastHeightConsensusParamsChanged s')
    (stConsensusParams s') (mkStateDB m (sdParams db) (sdResponses db) (sdState db))) Hs') as (sm & -> & Hl).
  eexists. split; [reflexivity|]. unfold db_ok. rewrite Ehh. split_and!; [done|apply Hl|..].
  - eexists. split; [exact Hok|]. by rewrite !fn_lookup_insert.
  - exists (<[hHeight header + 1 := stLastHeightConsensusParamsChanged s']> lp). split; [|by rewrite !fn_lookup_insert].
    apply (params_ok_save P lp base (hHeight header) (mkStateDB m (sdParams db) (sdResponses db) (sdState db))); [done|apply Wf'|].
    rewrite Epc', Ep'. destruct (decide (pu = None)) as [->|]; [right|by left]. by rewrite Elp, EP.
Qed.

(** ** Pruning *)

(** The database without the entries of the heights from [lo] to [hi], but for those
    to keep *)
Definition pruned_db (keepVals keepParams : list Z) (lo hi : Z) (db db' : StateDB) : Prop :=
  (forall k, sdValidators db' !! k = if bool_decide (lo <= k <= hi /\ k ∉ keepVals) then None else sdValidators db !! k) /\
  (forall k, sdParams db' !! k = if bool_decide (lo <= k <= hi /\ k ∉ keepParams) then None else sdParams db !! k) /\
  sdState db' = sdState db.

(** The heights to keep have full entries. *)
Definition keeps (keepVals keepParams : list Z) (lo hi : Z) (db : StateDB) : Prop :=
  (forall k, lo <= k <= hi -> k ∈ keepVals -> exists pvs c, sdValidators db !! k = Some (mkValidatorsInfo (Some pvs) c)) /\
  (forall k, lo <= k <= hi -> k ∈ keepParams ->
     exists p c, sdParams db !! k = Some (mkConsensusParamsInfo p c) /\ p <> emptyParams).

(** One turn of the loop *)
Lemma prune_height keepVals keepParams h db : keeps keepVals keepParams h h db ->
  exists vals params, pruneValidators keepVals h db = Done (inr vals) /\ pruneParams keepParams h db = Done (inr params) /\
    forall db1, pruned_db keepVals keepParams h h db1 (foldl applyOp db1 (vals ++ params ++ [DeleteResponses h])).
Proof.
  intros [Hv Hp]. unfold pruneValidators, pruneParams.
  exists (if bool_decide (h ∈ keepVals) then [] else [DeleteValidators h]), (if bool_decide (h ∈ keepParams) then [] else [DeleteParams h]).
  split_and!.
  - case_bool_decide as Hin; [|done]. by destruct (Hv h ltac:(lia) Hin) as (pvs & c & ->).
  - case_bool_decide as Hin; [|done]. destruct (Hp h ltac:(lia) Hin) as (p & c & -> & Hne). cbn [ciConsensusParams].
    by rewrite bool_decide_eq_false_2.
  - intros db1. unfold pruned_db.
    assert (forall A (m : gmap Z A) (keep : list Z) k, (if bool_decide (h ∈ keep) then m else delete h m) !! k
      = if bool_decide (h <= k <= h /\ k ∉ keep) then None else m !! k) as Hdel.
    { intros A m keep k. destruct (decide (k = h)) as [->|Hne].
      - destruct (decide (h ∈ keep)); [by rewrite bool_decide_eq_true_2, bool_decide_eq_false_2 by tauto|].
        rewrite bool_decide_eq_false_2, bool_decide_eq_true_2, lookup_delete_eq by (done || (split; [lia|done])). done.
      - rewrite (bool_decide_eq_false_2 (_ /\ _)) by lia. case_bool_decide; [done|]. by rewrite lookup_delete_ne. }
    split_and!.
    + intros k. rewrite <- (Hdel _ (sdValidators db1) keepVals). by repeat case_bool_decide.
    + intros k. rewrite <- (Hdel _ (sdParams db1) keepParams). by repeat case_bool_decide.
    + by repeat case_bool_decide.
Qed.

Lemma pruned_db_trans keepVals keepParams lo hi db db1 db2 : lo <= hi + 1 ->
  pruned_db keepVals keepParams (hi + 1) (hi + 1) db db1 -> pruned_db keepVals keepParams lo hi db1 db2 ->
  pruned_db keepVals keepParams lo (hi + 1) db db2.
Proof.
  intros Hlo (V1 & P1 & S1) (V2 & P2 & S2).
  assert (forall A (x : option A) (k : Z) (keep : list Z), (if bool_decide (lo <= k <= hi /\ k ∉ keep) then None
    else if bool_decide (hi + 1 <= k <= hi + 1 /\ k ∉ keep) then None else x)
    = if bool_decide (lo <= k <= hi + 1 /\ k ∉ keep) then None else x) as Hk.
  { intros A x k keep. destruct (decide (k ∈ keep)); [by rewrite !bool_decide_eq_false_2 by tauto|].
    destruct (decide (lo <= k <= hi)); [by rewrite !bool_decide_eq_true_2 by (split; (done || lia))|].
    rewrite (bool_decide_eq_false_2 (lo <= k <= hi /\ _)) by tauto.
    destruct (decide (k = hi + 1)); [by rewrite !bool_decide_eq_true_2 by (split; (done || lia))|].
    by rewrite !bool_decide_eq_false_2 by lia. }
  split_and!; [intros k; by rewrite V2, V1, Hk|intros k; by rewrite P2, P1, Hk|congruence].
Qed.

Lemma keeps_below keepVals keepParams lo hi hi' db db' : keeps keepVals keepParams lo hi db -> hi' <= hi ->
  (forall k, k <= hi' -> sdValidators db' !! k = sdValidators db !! k /\ sdParams db' !! k = sdParams db !! k) ->
  keeps keepVals keepParams lo hi' db'.
Proof.
  intros [Hv Hp] Hle Hsame. split; intros k Hk Hin; destruct (Hsame k ltac:(lia)) as [E1 E2]; rewrite ?E1, ?E2; [apply Hv|apply Hp]; (lia || done).
Qed.

Lemma pruneLoop_spec keepVals keepParams n : forall h batch pruned db,
  keeps keepVals keepParams (h - Z.of_nat n + 1) h db ->
  (forall k, k <= h -> sdValidators (foldl applyOp db batch) !! k = sdValidators db !! k /\
     sdParams (foldl applyOp db batch) !! k = sdParams db !! k) ->
  exists db', pruneLoop keepVals keepParams n h batch pruned db = Done (None, db') /\
    pruned_db keepVals keepParams (h - Z.of_nat n + 1) h (foldl applyOp db batch) db'.
Proof.
  induction n as [|n IH]; intros h batch pruned db Hk Hsame.
  { simpl. eexists. split; [done|]. split_and!; [intros k; by rewrite bool_decide_eq_false_2 by lia..|done]. }
  cbn [pruneLoop]. destruct (prune_height keepVals keepParams h db) as (vals & params & -> & -> & Hops).
  { destruct Hk as [Hv Hp]. split; intros k Hr; [apply Hv|apply Hp]; lia. }
  rewrite !bind_Done. set (ops := vals ++ params ++ [DeleteResponses h]) in *.
  set (eff := foldl applyOp db batch) in *. specialize (Hops eff).
  assert (foldl applyOp db (batch ++ ops) = foldl applyOp eff ops) as Eeff by apply foldl_app.
  assert (forall k, k <= h - 1 -> sdValidators (foldl applyOp eff ops) !! k = sdValidators db !! k /\
    sdParams (foldl applyOp eff ops) !! k = sdParams db !! k) as Hbelow.
  { intros k Hle. destruct Hops as (V & P & _). rewrite V, P, !bool_decide_eq_false_2 by lia. apply Hsame. lia. }
  replace (h - Z.of_nat (S n) + 1) with (h - 1 - Z.of_nat n + 1) in * by lia.
  assert (forall db2, pruned_db keepVals keepParams (h - 1 - Z.of_nat n + 1) (h - 1) (foldl applyOp eff ops) db2 ->
    pruned_db keepVals keepParams (h - 1 - Z.of_nat n + 1) h eff db2) as Htrans.
  { intros db2 H2. replace h with (h - 1 + 1) at 2 by lia. eapply pruned_db_trans; [lia| |exact H2].
    by replace (h - 1 + 1) with h by lia. }
  rewrite Eeff. destruct (_ && _).
  - destruct (IH (h - 1) [] (pruned + 1) (foldl applyOp eff ops)) as (db' & E & Hdb); [|done|eauto].
    eapply keeps_below; [exact Hk|lia|exact Hbelow].
  - destruct (IH (h - 1) (batch ++ ops) (pruned + 1) db) as (db' & E & Hdb);
      [eapply keeps_below; [exact Hk|lia|done]|by rewrite Eeff|]. rewrite Eeff in Hdb. eauto.
Qed.

Lemma lastStored_same h k c : 1 <= c -> lastStoredHeightFor h c < k <= h -> lastStoredHeightFor k c = lastStoredHeightFor h c.
Proof.
  intros Hc Hk. unfold lastStoredHeightFor in *. rewrite !Z.rem_mod_nonneg in * by (unfold valSetCheckpointInterval in *; lia).
  unfold valSetCheckpointInterval in *. pose proof (Z.div_mod h 100000 ltac:(lia)). pose proof (Z.div_mod k 100000 ltac:(lia)).
  pose proof (Z.mod_pos_bound h 100000 ltac:(lia)). pose proof (Z.mod_pos_bound k 100000 ltac:(lia)).
  assert (k / 100000 = h / 100000) by nia. lia.
Qed.

(** What is kept for the validators, and what the rest needs of it *)
Lemma prune_vals_ok V lc base top from to m set : vals_ok V lc base top m -> base <= from < to -> to <= top ->
  m !! to = Some (mkValidatorsInfo set (lc to)) ->
  let keep := match set with None => [lc to; lastStoredHeightFor to (lc to)] | Some _ => [] end in
  (forall k, from <= k <= to - 1 -> k ∈ keep -> exists pvs c, m !! k = Some (mkValidatorsInfo (Some pvs) c)) /\
  forall m' : gmap Z ValidatorsInfo,
    (forall k, m' !! k = if bool_decide (from <= k <= to - 1 /\ k ∉ keep) then None else m !! k) -> vals_ok V lc to top m'.
Proof.
  intros [Hb Hc He Ht] Hfrom Hto Em keep. pose proof (lc_range _ _ _ Hc to ltac:(lia)) as Hl.
  assert (set = None <-> ~ full to (lc to)) as Hset.
  { destruct (He to ltac:(lia)) as (set' & E & Hs). rewrite Em in E. injection E as ->. destruct set'; [|done]. split; [done|tauto]. }
  split.
  - intros k Hk Hin. destruct set as [pvs|]; [by apply elem_of_nil in Hin|].
    apply elem_of_cons in Hin as [->|Hin]; [|apply list_elem_of_singleton in Hin as ->].
    + destruct (He (lc to) ltac:(lia)) as (set' & E & Hs). destruct set' as [pvs|]; [eauto|]. destruct Hs. left.
      symmetry. apply (lc_since _ _ _ Hc to); lia.
    + destruct (Ht to ltac:(lia)) as (pvs & c & E & _). eauto.
  - intros m' Hm'. split; [lia|done|..].
    + intros h Hh. rewrite Hm', bool_decide_eq_false_2 by lia. apply He. lia.
    + intros h Hh. cbv zeta. destruct (Ht h ltac:(lia)) as (pvs & c & E & Hst). exists pvs, c. split; [|done]. rewrite Hm'.
      case_bool_decide as Hd; [|done]. destruct Hd as [Hr Hn]. destruct Hn. pose proof (lc_range _ _ _ Hc h ltac:(lia)) as Hlh.
      destruct (lastStored_range h (lc h)); [lia|]. pose proof (lc_since _ _ _ Hc h to ltac:(lia) ltac:(lia)) as [El _].
      rewrite <- El in *. rewrite <- (lastStored_same h to (lc to)) in * by lia. unfold keep.
      destruct set as [pvs'|]; [|set_solver]. exfalso. rewrite (lastStored_full to (lc to)) in Hset by lia.
      destruct Hset as [_ Hset]. discriminate Hset. lia.
Qed.

Lemma prune_params_ok P lp base top from to m : params_ok P lp base top m -> base <= from < to -> to <= top ->
  exists p, m !! to = Some (mkConsensusParamsInfo p (lp to)) /\
  let keep := if bool_decide (p = emptyParams) then [lp to] else [] in
  (forall k, from <= k <= to - 1 -> k ∈ keep -> exists p c, m !! k = Some (mkConsensusParamsInfo p c) /\ p <> emptyParams) /\
  forall m' : gmap Z ConsensusParamsInfo,
    (forall k, m' !! k = if bool_decide (from <= k <= to - 1 /\ k ∉ keep) then None else m !! k) -> params_ok P lp to top m'.
Proof.
  intros [Hb Hc Hv He Ht] Hfrom Hto. pose proof (lc_range _ _ _ Hc to ltac:(lia)) as Hl. eexists. split; [apply He; lia|].
  intros keep. split.
  - intros k Hk Hin. unfold keep in Hin. case_bool_decide; [|by apply elem_of_nil in Hin]. apply list_elem_of_singleton in Hin as ->.
    destruct (Ht to ltac:(lia)) as (c & E). eexists _, c. split; [exact E|]. apply Hv. lia.
  - intros m' Hm'. split; [lia|done|done|..].
    + intros h Hh. rewrite Hm', bool_decide_eq_false_2 by lia. apply He. lia.
    + intros h Hh. destruct (Ht h ltac:(lia)) as (c & E). exists c. rewrite Hm'. case_bool_decide as Hd; [|done].
      destruct Hd as [Hr Hn]. destruct Hn. pose proof (lc_since _ _ _ Hc h to ltac:(lia) ltac:(lia)) as [El _].
      unfold keep. rewrite El, (proj2 (Z.eqb_neq _ _)), bool_decide_eq_true_2 by (done || lia). by constructor.
Qed.

Lemma PruneStates_ok base V P s db from to : db_ok base V P s db -> base <= from < to -> to <= stLastBlockHeight s + 1 ->
  exists db', PruneStates from to db = Done (None, db') /\ db_ok to V P s db'.
Proof.
  intros (Hs & Hl & (lc & Hvals & Elc) & (lp & Hpar & Elp)) Hfrom Hto. pose proof (vo_base _ _ _ _ _ Hvals).
  destruct (vo_entry _ _ _ _ _ Hvals to ltac:(lia)) as (set & Em & _).
  destruct (prune_vals_ok _ _ _ _ from to _ set Hvals) as [Hk1 Hv]; [done|lia|done|].
  destruct (prune_params_ok _ _ _ _ from to _ Hpar) as (p & Ep & Hk2 & Hp); [done|lia|].
  unfold PruneStates. rewrite (proj2 (Z.leb_gt from 0)), (proj2 (Z.leb_gt to 0)), (proj2 (Z.leb_gt to from)) by lia. cbn [orb].
  rewrite Em, Ep. cbn [viValidatorSet viLastHeightChanged ciConsensusParams ciLastHeightChanged].
  match goal with |- context [pruneLoop ?kv ?kp ?n ?h [] 0 db] =>
    destruct (pruneLoop_spec kv kp n h [] 0 db) as (db' & -> & Vd & Pd & Sd); [|done|] end.
  { replace (to - 1 - Z.of_nat (Z.to_nat (to - from)) + 1) with from by lia. split; [exact Hk1|exact Hk2]. }
  replace (to - 1 - Z.of_nat (Z.to_nat (to - from)) + 1) with from in * by lia.
  exists db'. split; [done|]. split_and!; [done|unfold LoadState; by rewrite Sd|by exists lc; split; [apply Hv|]|by exists lp; split; [apply Hp|]].
Qed.

(** ** Claims *)

(** The databases of a node: the genesis state is saved, then the state after each
    block, and old heights may be pruned up to the next height.  [V] and [P] are the
    validators and the parameters that the chain had at each height, and [base] is
    the first height that was not pruned. *)
Inductive recorded `{Crypto} : Z -> (Z -> ValidatorSet) -> (Z -> ConsensusParams) -> State -> StateDB -> Prop :=
  | recorded_genesis now doc s db :
      MakeGenesisState now doc = Done (inr s) -> gdValidators doc <> None ->
      Forall plain_member (Validators (stValidators s)) -> SaveState s emptyDB = Done db ->
      recorded 1 (<[2 := stNextValidators s]> (fun _ => stValidators s)) (fun _ => stConsensusParams s) s db
  | recorded_block base V P s db blockID header pu updates s' db' :
      recorded base V P s db -> hHeight header = stLastBlockHeight s + 1 -> hHeight header + 2 <= MaxInt64 ->
      updateState s blockID header pu updates = Done (inr s') -> Forall plain_member updates ->
      BlockID_ValidateBasic blockID = None -> SaveState s' db = Done db' ->
      recorded base (<[hHeight header + 2 := stNextValidators s']> V) (<[hHeight header + 1 := stConsensusParams s']> P) s' db'
  | recorded_prune base V P s db from to db' :
      recorded base V P s db -> base <= from < to -> to <= stLastBlockHeight s + 1 ->
      PruneStates from to db = Done (None, db') -> recorded to V P s db'.

Lemma recorded_ok `{Crypto} base V P s db : recorded base V P s db ->
  db_ok base V P s db /\ stLastBlockHeight s + 2 <= MaxInt64.
Proof.
  induction 1 as [now doc s db E Hne Hp Es|base V P s db blockID header pu updates s' db' _ [IH Hm] Eh Hmax E Hu Hb Es
                 |base V P s db from to db' _ [IH Hm] Hfrom Hto E].
  - destruct (SaveState_genesis now doc s E Hne Hp) as (db' & E' & Hok). assert (db' = db) as -> by congruence.
    split; [done|]. destruct (MakeGenesisState_spec _ _ _ E Hne) as (_ & -> & _). by vm_compute.
  - destruct (SaveState_block base V P s db blockID header pu updates s') as (db1 & E1 & Hok); [done..|].
    assert (db1 = db') as -> by congruence. split; [done|].
    destruct (updateState_decides _ _ _ _ _ _ (sp_wf _ (proj1 IH)) Eh Hmax E) as [_ Hn]. by rewrite (proj1 (ns_block _ _ _ _ _ _ Hn)).
  - destruct (PruneStates_ok base V P s db from to) as (db1 & E1 & Hok); [done..|]. assert (db1 = db') as -> by congruence. done.
Qed.

(** [C18] The state store gives back what the chain had.  After any sequence of blocks
    and prunings the state that was saved last is loaded unchanged; for every height
    that was not pruned, up to the next ones the state knows, [LoadValidators] gives
    the validators of that height with their powers, in the same order, although the
    set is stored only where it changed and at checkpoints, and
    [LoadConsensusParams] gives its parameters.  Saving the next state and pruning
    never fail. *)
Theorem state_store_correct `{Crypto} (base : Z) (V : Z -> ValidatorSet) (P : Z -> ConsensusParams) (s : State) (db : StateDB) :
  recorded base V P s db ->
  LoadState db = Done (Some s) /\
  (forall h, base <= h <= stLastBlockHeight s + 2 ->
     exists vals, LoadValidators h db = Done (inr vals) /\ same_members vals (V h)) /\
  (forall h, base <= h <= stLastBlockHeight s + 1 -> LoadConsensusParams h db = Done (inr (P h))) /\
  (forall blockID header pu updates s', hHeight header = stLastBlockHeight s + 1 -> hHeight header + 2 <= MaxInt64 ->
     updateState s blockID header pu updates = Done (inr s') -> Forall plain_member updates ->
     BlockID_ValidateBasic blockID = None -> exists db', SaveState s' db = Done db') /\
  (forall from to, base <= from < to -> to <= stLastBlockHeight s + 1 -> exists db', PruneStates from to db = Done (None, db')).
Proof.
  intros R. destruct (recorded_ok _ _ _ _ _ R) as [Hok Hmax]. pose proof Hok as (_ & Hl & (lc & Hv & _) & (lp & Hp & _)).
  split_and!; [done|..].
  - intros h Hh. destruct (vals_ok_load _ _ _ _ _ h Hv) as (vals & E & _ & Hm); [lia..|]. by exists vals.
  - intros h Hh. by eapply params_ok_load.
  - intros blockID header pu updates s' Eh Hm E Hu Hb.
    destruct (SaveState_block _ _ _ _ _ _ _ _ _ _ Hok Eh Hm E Hu Hb) as (db' & E' & _). by exists db'.
  - intros from to Hfrom Hto. destruct (PruneStates_ok _ _ _ _ _ _ _ Hok Hfrom Hto) as (db' & E' & _). by exists db'.
Qed.

(** *** An example: the second of two validators is replaced. *)

Definition storeKey (n : Z) : PubKey := PubKeyEd25519 (replicate 32 (byte_of_Z n)).

#[local] Instance storeCrypto : Crypto := {|
  pkAddress pk := match pk with PubKeyEd25519 key | PubKeySecp256k1 key | PubKeySr25519 key =>
                    take 20 (key ++ replicate 20 (byte_of_Z 0)) end;
  pkVerifyBytes _ _ _ := true
|}.

Definition storeGenesis : GenesisDoc :=
  mkGenesisDoc 1000 (replicate 4 (byte_of_Z 1)) None
    (Some [mkGenesisValidator [] (Some (storeKey 1)) 10; mkGenesisValidator [] (Some (storeKey 2)) 5]).
Definition storeUpdates : list Validator := [NewValidator (storeKey 2) 0; NewValidator (storeKey 3) 7].
Definition storeSet (n m : Z) : ValidatorSet :=
  match NewValidatorSet [NewValidator (storeKey n) 10; NewValidator (storeKey m) 5] with
  | Done vals => vals | Panic _ => mkValidatorSet [] None 0
  end.
Definition noState : State :=
  provideState [] (mkVersion 0 0) (heightHeader 0) zeroBlockID (storeSet 1 2) (storeSet 1 2) (storeSet 1 2) DefaultConsensusParams.

Definition stateOf (r : outcome (result State)) : State := match r with Done (inr s) => s | _ => noState end.
Definition dbOf (r : outcome StateDB) : StateDB := match r with Done db => db | Panic _ => emptyDB end.

Definition storeState0 : State := stateOf (MakeGenesisState 0 storeGenesis).
Definition storeState1 : State := stateOf (updateState storeState0 zeroBlockID (heightHeader 1) None storeUpdates).
Definition storeDB0 : StateDB := dbOf (SaveState storeState0 emptyDB).
Definition storeDB1 : StateDB := dbOf (SaveState storeState1 storeDB0).

Lemma storeKey_plain n power : plain_member (NewValidator (storeKey n) power).
Proof. split; [by eexists|done]. Qed.

Lemma storeState0_plain : Forall plain_member (Validators (stValidators storeState0)).
Proof.
  apply (plain_ident _ [NewValidator (storeKey 1) 10; NewValidator (storeKey 2) 5]).
  - assert (ident <$> Validators (stValidators storeState0)
      = ident <$> [NewValidator (storeKey 1) 10; NewValidator (storeKey 2) 5]) as -> by (by vm_compute). done.
  - repeat (constructor; [apply storeKey_plain|]). constructor.
Qed.

Lemma state_store_correct_witness :
  exists vals, LoadValidators 3 storeDB1 = Done (inr vals) /\ same_members vals (stNextValidators storeState1).
Proof.
  destruct (state_store_correct 1 (<[1 + 2 := stNextValidators storeState1]> (<[2 := stNextValidators storeState0]> (fun _ => stValidators storeState0)))
    (<[1 + 1 := stConsensusParams storeState1]> (fun _ => stConsensusParams storeState0)) storeState1 storeDB1) as (_ & Hv & _).
  - apply (recorded_block 1 _ _ storeState0 storeDB0 zeroBlockID (heightHeader 1) None storeUpdates).
    + apply (recorded_genesis 0 storeGenesis); [by vm_compute|discriminate| |by vm_compute].
      exact storeState0_plain.
    + by vm_compute.
    + by vm_compute.
    + by vm_compute.
    + repeat (constructor; [apply storeKey_plain|]). constructor.
    + done.
    + by vm_compute.
  - destruct (Hv 3) as (vals & E & Hm); [by vm_compute|]. exists vals. split; [exact E|].
    change 3 with (1 + 2) in Hm. rewrite fn_lookup_insert in Hm. exact Hm.
Defined.

(** After a state sync to the height 5 the validators 1 and 2 have become 1 and 3,
    and block 6 changes nothing. *)
Definition syncedState : State :=
  provideState (replicate 4 (byte_of_Z 1)) (mkVersion 12 0) (heightHeader 5) zeroBlockID (storeSet 1 2) (storeSet 1 3) (storeSet 1 3)
    DefaultConsensusParams.
Definition syncedNext : State := stateOf (updateState syncedState zeroBlockID (heightHeader 6) None []).
Definition syncedDB : StateDB := dbOf (let! db := BootstrapState syncedState emptyDB in SaveState syncedNext db).

