(* ===== verification/LightVerifier.v ===== *)
(** * The light client's verifier

    light/verifier.go: the verification of an untrusted header against a trusted
    one, adjacent, non-adjacent and backwards.  An accepted header was signed by
    correct validators of the set that is trusted, if less than a third of that set
    is faulty. *)

From Stdlib Require Import ZArith Lia.
From S2P Require Import Prelude SafeMath Proto BitArray Validator ValidatorSet ValidatorSetUpdate BlockTypes SignBytes Merkle Header.
From S2P Require Import ValidatorHash CommitVerify.
From stdpp Require Import base gmap list option strings numbers sorting.

Local Open Scope Z_scope.

(** The errors of light/errors.go; the others are made by [errors.New] and
    [fmt.Errorf] or come from the verification of a commit. *)
Inductive LightError :=
  | ErrOldHeaderExpired (At Now : Time)
  | ErrNewValSetCantBeTrusted (Reason : VerifyError)
  | ErrInvalidHeader (Reason : error + VerifyError)
  | ErrVerify (err : VerifyError)
  | ErrText (err : error).

Definition DefaultTrustLevel : Fraction := mkFraction 1 3.

(** The fields of the embedded header *)
Definition theHeader (sh : SignedHeader) : outcome Header :=
  match shHeader sh with
  | None => Panic "invalid memory address or nil pointer dereference"
  | Some h => Done h
  end.
Definition theCommit (sh : SignedHeader) : outcome Commit :=
  match shCommit sh with
  | None => Panic "invalid memory address or nil pointer dereference"
  | Some c => Done c
  end.

Definition ValidateTrustLevel (lvl : Fraction) : option LightError :=
  if (wrap64 (Numerator lvl * 3) <? Denominator lvl) || (Denominator lvl <? Numerator lvl) || (Denominator lvl =? 0)
  then Some (ErrText "trustLevel must be within [1/3, 1]") else None.

Definition HeaderExpired (h : Header) (trustingPeriod : Z) (now : Time) : bool :=
  negb (now <? hTime h + trustingPeriod).

Section verifier.
Context `{Crypto} {TH : TmHash} {ST : StdTime} {W : Wrappers}.

Definition verifyNewHeaderAndVals (chainID : bytes) (untrustedHeader : SignedHeader) (untrustedVals : ValidatorSet)
    (trustedHeader : SignedHeader) (now : Time) (maxClockDrift : Z) : outcome (option error) :=
  let! err := SignedHeader_ValidateBasic untrustedHeader chainID in
  match err with
  | Some err => Done (Some ("untrustedHeader.ValidateBasic failed: " +:+ err))
  | None =>
    let! uh := theHeader untrustedHeader in
    let! th := theHeader trustedHeader in
    if hHeight uh <=? hHeight th then Done (Some "expected new header height to be greater than one of old header")
    else if negb (hTime th <? hTime uh) then Done (Some "expected new header time to be after old header time")
    else if negb (hTime uh <? now + maxClockDrift) then Done (Some "new header has a time from the future")
    else
      let! vh := ValidatorSet_Hash untrustedVals in
      if negb (bool_decide (hValidatorsHash uh = vh))
      then Done (Some "expected new header validators to match those that were supplied")
      else Done None
  end.

Definition VerifyNonAdjacent (chainID : bytes) (trustedHeader : SignedHeader) (trustedVals : ValidatorSet)
    (untrustedHeader : SignedHeader) (untrustedVals : ValidatorSet) (trustingPeriod : Z) (now : Time)
    (maxClockDrift : Z) (trustLevel : Fraction) : outcome (option LightError) :=
  let! uh := theHeader untrustedHeader in
  let! th := theHeader trustedHeader in
  if hHeight uh =? wrap64 (hHeight th + 1) then Done (Some (ErrText "headers must be non adjacent in height"))
  else if HeaderExpired th trustingPeriod now then Done (Some (ErrOldHeaderExpired (hTime th + trustingPeriod) now))
  else
    let! err := verifyNewHeaderAndVals chainID untrustedHeader untrustedVals trustedHeader now maxClockDrift in
    match err with
    | Some err => Done (Some (ErrInvalidHeader (inl err)))
    | None =>
      let! c := theCommit untrustedHeader in
      let! (err, _) := VerifyCommitLightTrusting chainID c trustLevel trustedVals in
      match err with
      | Some e => Done (Some (if IsErrNotEnoughVotingPowerSigned e then ErrNewValSetCantBeTrusted e else ErrVerify e))
      | None =>
        let! (err, _) := VerifyCommitLight chainID (cBlockID c) (hHeight uh) c untrustedVals in
        match err with
        | Some e => Done (Some (ErrInvalidHeader (inr e)))
        | None => Done None
        end
      end
    end.

Definition VerifyAdjacent (chainID : bytes) (trustedHeader untrustedHeader : SignedHeader)
    (untrustedVals : ValidatorSet) (trustingPeriod : Z) (now : Time) (maxClockDrift : Z)
    : outcome (option LightError) :=
  let! uh := theHeader untrustedHeader in
  let! th := theHeader trustedHeader in
  if negb (hHeight uh =? wrap64 (hHeight th + 1)) then Done (Some (ErrText "headers must be adjacent in height"))
  else if HeaderExpired th trustingPeriod now then Done (Some (ErrOldHeaderExpired (hTime th + trustingPeriod) now))
  else
    let! err := verifyNewHeaderAndVals chainID untrustedHeader untrustedVals trustedHeader now maxClockDrift in
    match err with
    | Some err => Done (Some (ErrInvalidHeader (inl err)))
    | None =>
      if negb (bool_decide (hValidatorsHash uh = hNextValidatorsHash th))
      then Done (Some (ErrText "expected old header next validators to match those from new header"))
      else
        let! c := theCommit untrustedHeader in
        let! (err, _) := VerifyCommitLight chainID (cBlockID c) (hHeight uh) c untrustedVals in
        match err with
        | Some e => Done (Some (ErrInvalidHeader (inr e)))
        | None => Done None
        end
    end.

Definition Verify (chainID : bytes) (trustedHeader : SignedHeader) (trustedVals : ValidatorSet)
    (untrustedHeader : SignedHeader) (untrustedVals : ValidatorSet) (trustingPeriod : Z) (now : Time)
    (maxClockDrift : Z) (trustLevel : Fraction) : outcome (option LightError) :=
  let! uh := theHeader untrustedHeader in
  let! th := theHeader trustedHeader in
  if negb (hHeight uh =? wrap64 (hHeight th + 1))
  then VerifyNonAdjacent chainID trustedHeader trustedVals untrustedHeader untrustedVals trustingPeriod now
         maxClockDrift trustLevel
  else VerifyAdjacent chainID trustedHeader untrustedHeader untrustedVals trustingPeriod now maxClockDrift.

Definition VerifyBackwards (chainID : bytes) (untrustedHeader trustedHeader : SignedHeader)
    : outcome (option LightError) :=
  let! err := SignedHeader_ValidateBasic untrustedHeader chainID in
  match err with
  | Some err => Done (Some (ErrInvalidHeader (inl err)))
  | None =>
    let! uh := theHeader untrustedHeader in
    let! th := theHeader trustedHeader in
    if negb (hTime uh <? hTime th)
    then Done (Some (ErrInvalidHeader (inl "expected older header time to be before new header time")))
    else
      let! hash := Header_Hash (Some uh) in
      if negb (bool_decide (hash = bidHash (hLastBlockID th)))
      then Done (Some (ErrInvalidHeader (inl "older header hash does not match trusted header's last block")))
      else Done None
  end.

(** ** Signers of a commit *)

(** The key of [v] has signed a precommit for the block of the commit. *)
Definition signedFor (chainID : bytes) (commit : Commit) (v : Validator) : Prop :=
  exists i cs, cSignatures commit !! i = Some cs /\ CommitSig_ForBlock cs = true /\
    verifySig chainID commit i v (csSignature cs) = Done true.

(** The validators at the positions of signatures for the block *)
Fixpoint signersAt (vs : list Validator) (sigs : list CommitSig) : list Validator :=
  match vs, sigs with
  | v :: vs', cs :: sigs' => if CommitSig_ForBlock cs then v :: signersAt vs' sigs' else signersAt vs' sigs'
  | _, _ => []
  end.

Lemma signersAt_power vs sigs : sumZ VotingPower (signersAt vs sigs) = blockPower vs sigs.
Proof.
  revert sigs. induction vs as [|v vs IH]; intros [|cs sigs]; try done.
  rewrite blockPower_cons. simpl. destruct (CommitSig_ForBlock cs); rewrite ?sumZ_cons, IH; lia.
Qed.

Lemma signersAt_sublist vs sigs : signersAt vs sigs `sublist_of` vs.
Proof.
  revert sigs. induction vs as [|v vs IH]; intros [|cs sigs]; simpl; try apply sublist_nil_l.
  destruct (CommitSig_ForBlock cs); by constructor.
Qed.

Lemma signersAt_elem vs sigs v : v ∈ signersAt vs sigs ->
  exists i cs, vs !! i = Some v /\ sigs !! i = Some cs /\ CommitSig_ForBlock cs = true.
Proof.
  revert sigs. induction vs as [|w vs IH]; intros [|cs sigs] Hv; simpl in Hv; try by apply elem_of_nil in Hv.
  destruct (CommitSig_ForBlock cs) eqn:E.
  - apply elem_of_cons in Hv as [->|Hv]; [by exists 0%nat, cs|].
    destruct (IH _ Hv) as (i & d & ?). by exists (S i), d.
  - destruct (IH _ Hv) as (i & d & ?). by exists (S i), d.
Qed.

Lemma VerifyCommitLight_signers chainID b height c vals vals' :
  VS_wf vals -> VerifyCommitLight chainID b height c vals = Done (None, vals') ->
  exists signers, NoDup signers /\ (forall v, v ∈ signers -> v ∈ Validators vals /\ signedFor chainID c v) /\
    2 * sumZ VotingPower (Validators vals) < 3 * sumZ VotingPower signers.
Proof.
  intros Wf. rewrite VerifyCommitLight_accepts by done. intros (_ & Hl & _ & _ & k & Hk & Hv & Hp).
  exists (signersAt (take k (Validators vals)) (take k (cSignatures c))).
  assert (signersAt (take k (Validators vals)) (take k (cSignatures c)) `sublist_of` Validators vals) as Hs
    by (etrans; [apply signersAt_sublist|apply sublist_take]).
  split_and!; [eapply sublist_NoDup; [|exact Hs]; eapply NoDup_fmap_1, (vs_nodup _ Wf)| |by rewrite signersAt_power].
  intros v Hin. split; [by eapply (elem_of_submseteq _ _ _ Hin), sublist_submseteq|].
  apply signersAt_elem in Hin as (i & cs & Hvi & Hci & Hf).
  apply lookup_take_Some in Hvi as [Hvi Hi]. apply lookup_take_Some in Hci as [Hci _].
  exists i, cs. split_and!; [done..|]. apply (Hv i); [lia|done..].
Qed.

(** ** What is accepted *)

Record new_header_ok (chainID : bytes) (uh th : Header) (c : Commit) (vals : ValidatorSet) (now : Time) (drift : Z)
    : Prop := {
  nh_height : hHeight th < hHeight uh;
  nh_time : hTime th < hTime uh < now + drift;
  nh_chain : hChainID uh = chainID;
  nh_hash : Header_Hash (Some uh) = Done (bidHash (cBlockID c));
  nh_commit : cHeight c = hHeight uh;
  nh_vals : ValidatorSet_Hash vals = Done (hValidatorsHash uh)
}.

Lemma SignedHeader_valid sh chainID : SignedHeader_ValidateBasic sh chainID = Done None ->
  exists h c, shHeader sh = Some h /\ shCommit sh = Some c /\ hChainID h = chainID /\ cHeight c = hHeight h /\
    Header_Hash (Some h) = Done (bidHash (cBlockID c)) /\ Header_ValidateBasic h = None /\ Commit_ValidateBasic c = None.
Proof.
  unfold SignedHeader_ValidateBasic. destruct (shHeader sh) as [h|]; [|done]. destruct (shCommit sh) as [c|]; [|done].
  destruct (Header_ValidateBasic h) eqn:Eh; [done|]. destruct (Commit_ValidateBasic c) eqn:Ec; [done|].
  case_bool_decide as E1; [|done]. cbn [negb]. destruct (Z.eqb_spec (cHeight c) (hHeight h)) as [E2|]; [|done]. cbn [negb].
  intros E. apply bind_Done_inv in E as (hash & E3 & E). case_bool_decide as E4; [|done].
  exists h, c. split_and!; try done. by rewrite E3, E4.
Qed.

Lemma verifyNewHeaderAndVals_ok chainID u vals t now drift :
  verifyNewHeaderAndVals chainID u vals t now drift = Done None ->
  exists uh th c, shHeader u = Some uh /\ shHeader t = Some th /\ shCommit u = Some c /\
    new_header_ok chainID uh th c vals now drift.
Proof.
  unfold verifyNewHeaderAndVals. intros E. apply bind_Done_inv in E as (e & Ev & E). destruct e; [done|].
  destruct (SignedHeader_valid _ _ Ev) as (uh & c & Hu & Hc & H1 & H2 & H3 & _).
  unfold theHeader in E. rewrite Hu in E. rewrite bind_Done in E. destruct (shHeader t) as [th|] eqn:Ht; [|done].
  rewrite bind_Done in E. destruct (Z.leb_spec (hHeight uh) (hHeight th)); [done|].
  destruct (Z.ltb_spec (hTime th) (hTime uh)); [|done]. destruct (Z.ltb_spec (hTime uh) (now + drift)); [|done].
  cbn [negb] in E. apply bind_Done_inv in E as (vh & Evh & E). case_bool_decide as Eq; [|done].
  exists uh, th, c. split_and!; try done. split; try done. by rewrite Evh, Eq.
Qed.

(** What an accepted header satisfies: it is a new header of the chain, more than
    two thirds of the supplied validators have signed it, and it follows from the
    trusted header either by the announced validators or by the signatures of
    the trusted ones. *)
Definition accepted (chainID : bytes) (uh th : Header) (c : Commit) (trustedVals untrustedVals : ValidatorSet)
    (period : Z) (now : Time) (drift : Z) (lvl : Fraction) : Prop :=
  new_header_ok chainID uh th c untrustedVals now drift /\ now < hTime th + period /\
  (exists signers, NoDup signers /\ (forall v, v ∈ signers -> v ∈ Validators untrustedVals /\ signedFor chainID c v) /\
     2 * sumZ VotingPower (Validators untrustedVals) < 3 * sumZ VotingPower signers) /\
  (if hHeight uh =? hHeight th + 1 then hValidatorsHash uh = hNextValidatorsHash th
   else exists signers, NoDup signers /\ (forall v, v ∈ signers -> v ∈ Validators trustedVals /\ signedFor chainID c v) /\
     sumZ VotingPower (Validators trustedVals) * Numerator lvl < sumZ VotingPower signers * Denominator lvl).

Lemma not_expired th period now : HeaderExpired th period now = false -> now < hTime th + period.
Proof. unfold HeaderExpired. destruct (Z.ltb_spec now (hTime th + period)); [done|by intros [=]]. Qed.

Lemma trust_level_range lvl : ValidateTrustLevel lvl = None -> int64 (Numerator lvl) -> int64 (Denominator lvl) ->
  0 < Numerator lvl -> 0 < Numerator lvl <= MaxInt64 /\ 0 < Denominator lvl <= MaxInt64 /\
    Denominator lvl <= 3 * Numerator lvl /\ Numerator lvl <= Denominator lvl.
Proof.
  unfold ValidateTrustLevel, int64. intros E Hn Hd Hp.
  destruct (Z.ltb_spec (wrap64 (Numerator lvl * 3)) (Denominator lvl)) as [|Hw]; [done|].
  destruct (Z.ltb_spec (Denominator lvl) (Numerator lvl)); [done|].
  destruct (Z.eqb_spec (Denominator lvl) 0); [done|].
  assert (wrap64 (Numerator lvl * 3) <= Numerator lvl * 3); [|lia].
  unfold wrap64, wrap.
  change (64 - 1) with 63. pose proof (Z.mod_le (Numerator lvl * 3 + 2 ^ 63) (2 ^ 64)). lia.
Qed.

Lemma Verify_accepted chainID t tv u uv period now drift lvl :
  VS_wf tv -> VS_wf uv -> ValidateTrustLevel lvl = None -> int64 (Numerator lvl) -> int64 (Denominator lvl) ->
  0 < Numerator lvl -> (forall th, shHeader t = Some th -> 0 <= hHeight th < MaxInt64) ->
  Verify chainID t tv u uv period now drift lvl = Done None ->
  exists uh th c, shHeader u = Some uh /\ shHeader t = Some th /\ shCommit u = Some c /\
    accepted chainID uh th c tv uv period now drift lvl.
Proof.
  intros Wt Wu Hl Hn Hd Hp Hh E. destruct (trust_level_range lvl Hl Hn Hd Hp) as (R1 & R2 & _).
  unfold Verify, theHeader in E.
  destruct (shHeader u) as [uh|] eqn:Hu; [|done]. destruct (shHeader t) as [th|] eqn:Ht; [|done].
  rewrite !bind_Done in E. specialize (Hh th eq_refl).
  assert (wrap64 (hHeight th + 1) = hHeight th + 1) as Ew by (apply wrap64_id; unfold int64, MinInt64 in *; lia).
  rewrite Ew in E. unfold accepted.
  destruct (Z.eqb_spec (hHeight uh) (hHeight th + 1)) as [Ea|Ea]; cbn [negb] in E.
  - unfold VerifyAdjacent, theHeader in E. rewrite Hu, Ht, !bind_Done, Ew, Ea, Z.eqb_refl in E. cbn [negb] in E.
    destruct (HeaderExpired th period now) eqn:Ex; [done|]. apply bind_Done_inv in E as (e & Ev & E). destruct e; [done|].
    destruct (verifyNewHeaderAndVals_ok _ _ _ _ _ _ Ev) as (uh' & th' & c & Hu' & Ht' & Hc & Hok).
    assert (uh' = uh) as -> by congruence. assert (th' = th) as -> by congruence.
    case_bool_decide as Eq; [|done]. cbn [negb] in E. unfold theCommit in E. rewrite Hc, bind_Done in E.
    apply bind_Done_inv in E as ([e vals'] & El & E). destruct e; [done|].
    exists uh, th, c. split_and!; try done; [by apply not_expired|by eapply VerifyCommitLight_signers|by rewrite Ea, Z.eqb_refl].
  - unfold VerifyNonAdjacent, theHeader in E. rewrite Hu, Ht, !bind_Done, Ew in E.
    destruct (Z.eqb_spec (hHeight uh) (hHeight th + 1)); [lia|].
    destruct (HeaderExpired th period now) eqn:Ex; [done|]. apply bind_Done_inv in E as (e & Ev & E). destruct e; [done|].
    destruct (verifyNewHeaderAndVals_ok _ _ _ _ _ _ Ev) as (uh' & th' & c & Hu' & Ht' & Hc & Hok).
    assert (uh' = uh) as -> by congruence. assert (th' = th) as -> by congruence.
    unfold theCommit in E. rewrite Hc, bind_Done in E.
    apply bind_Done_inv in E as ([e vals1] & Et & E). destruct e as [e|]; [by destruct (IsErrNotEnoughVotingPowerSigned e)|].
    apply bind_Done_inv in E as ([e vals'] & El & E). destruct e; [done|].
    exists uh, th, c. split_and!; try done; [by apply not_expired|by eapply VerifyCommitLight_signers|].
    rewrite (proj2 (Z.eqb_neq _ _) Ea).
    destruct (VerifyCommitLightTrusting_sound _ _ _ _ _ Wt R1 R2 Et) as (signers & N & Hs & Hpow).
    exists signers. split_and!; [done| |done]. intros v Hv. destruct (Hs v Hv) as [? (i & cs & ? & ? & ? & ?)].
    split; [done|]. by exists i, cs.
Qed.

End verifier.

(** ** A correct signer *)

(** If less than a third of the power is faulty, signers with more than a third of
    it include a correct one. *)
Lemma correct_signer (vals : ValidatorSet) (faulty : Validator -> bool) (signers : list Validator) (P : Validator -> Prop) :
  VS_wf vals -> NoDup signers -> (forall v, v ∈ signers -> v ∈ Validators vals /\ P v) ->
  3 * sumZ VotingPower (filter (fun v => faulty v = true) (Validators vals)) < sumZ VotingPower (Validators vals) ->
  sumZ VotingPower (Validators vals) < 3 * sumZ VotingPower signers ->
  exists v, v ∈ Validators vals /\ faulty v = false /\ P v.
Proof.
  intros Wf N Hs Hf Hp. destruct (existsb (fun v => negb (faulty v)) signers) eqn:He.
  - apply existsb_exists in He as (v & Hv%list_elem_of_In & Ef%negb_true_iff). exists v. destruct (Hs v Hv). done.
  - exfalso.
    assert (sumZ VotingPower signers <= sumZ VotingPower (filter (fun v => faulty v = true) (Validators vals))); [|lia].
    apply sumZ_submseteq.
    + apply NoDup_submseteq; [done|]. intros v Hv. apply list_elem_of_filter. split; [|by apply Hs].
      destruct (faulty v) eqn:Ef; [done|]. apply not_true_iff_false in He. destruct He. apply existsb_exists.
      exists v. split; [by apply list_elem_of_In|by rewrite Ef].
    + intros v [_ Hv]%list_elem_of_filter. pose proof (vs_power _ Wf v Hv). lia.
Qed.

(** ** Claims *)

(** [C13] A header that [Verify] accepts is a new header of the chain: its height and
    time are above those of the trusted header, which has not expired, its commit is
    for its hash and it names the supplied validators, of whom signers with more
    than two thirds of the power have signed the commit.  If its height is the next
    one the trusted header has announced its validators; otherwise trusted
    validators with more than the trust level have signed, so that a correct one
    has if less than a third of the trusted power is faulty. *)
Theorem Verify_correct `{Crypto} {TH : TmHash} {ST : StdTime} {W : Wrappers} (chainID : bytes) (t : SignedHeader)
    (tv : ValidatorSet) (u : SignedHeader) (uv : ValidatorSet) (period : Z) (now : Time) (drift : Z) (lvl : Fraction)
    (faulty : Validator -> bool) :
  VS_wf tv -> VS_wf uv -> ValidateTrustLevel lvl = None -> int64 (Numerator lvl) -> int64 (Denominator lvl) ->
  0 < Numerator lvl -> (forall th, shHeader t = Some th -> 0 <= hHeight th < MaxInt64) ->
  Verify chainID t tv u uv period now drift lvl = Done None ->
  exists uh th c, shHeader u = Some uh /\ shHeader t = Some th /\ shCommit u = Some c /\
    accepted chainID uh th c tv uv period now drift lvl /\
    (hHeight uh <> hHeight th + 1 ->
     3 * sumZ VotingPower (filter (fun v => faulty v = true) (Validators tv)) < sumZ VotingPower (Validators tv) ->
     exists v, v ∈ Validators tv /\ faulty v = false /\ signedFor chainID c v).
Proof.
  intros Wt Wu Hl Hn Hd Hp Hh E.
  destruct (Verify_accepted chainID t tv u uv period now drift lvl) as (uh & th & c & Hu & Ht & Hc & A); [done..|].
  exists uh, th, c. split_and!; [done..|]. intros Hne Hf. destruct A as (_ & _ & _ & A).
  rewrite (proj2 (Z.eqb_neq _ _) Hne) in A. destruct A as (signers & N & Hs & Hpow).
  destruct (trust_level_range lvl Hl Hn Hd Hp) as (_ & _ & Hthird & _).
  eapply correct_signer; [done|exact N|exact Hs|done|].
  assert (0 <= sumZ VotingPower signers).
  { apply sumZ_nonneg. intros v Hv. pose proof (vs_power _ Wt v (proj1 (Hs v Hv))). lia. }
  nia.
Qed.

(** *** An example chain *)

Section example.
Local Existing Instances exampleCrypto exampleTmHash exampleStdTime exampleWrappers.

(** A header of the example chain, and its commit signed by all of [exampleSet] *)
Definition chainHeader (vals : ValidatorSet) (height : Z) (time : Time) (last : BlockID) : Header :=
  let hash := match ValidatorSet_Hash vals with Done h => h | Panic _ => [] end in
  mkHeader (mkVersion 11 1) exampleChain height time last (Some []) (Some []) hash hash [] [] [] (Some []) (exampleAddress 1).

Definition headerID (h : Header) : BlockID :=
  mkBlockID (match Header_Hash (Some h) with Done r => r | Panic _ => [] end) (mkPartSetHeader 1 (exampleHash 8)).

Definition signHeader (h : Header) (vs : list Validator) : SignedHeader :=
  let b := headerID h in
  let sign (v : Validator) :=
    let unsigned := mkVote PrecommitType (hHeight h) 0 b (hTime h) (Address v) 0 [] in
    let sig := match VoteSignBytes exampleChain (Vote_ToProto unsigned), vPubKey v with
               | Done bz, Some pk => exampleSign pk bz
               | _, _ => []
               end in
    NewCommitSigForBlock sig (Address v) (hTime h) in
  mkSignedHeader (Some h) (Some (NewCommit (hHeight h) 0 b (sign <$> vs))).

Definition lightSet : ValidatorSet :=
  mkValidatorSet [exampleValidator 1 10 0; exampleValidator 2 5 0; exampleValidator 3 4 0] (Some (exampleValidator 1 10 0)) 0.

Lemma lightSet_wf : VS_wf lightSet.
Proof. concrete_wf. Defined.

Definition chainAt (height : Z) : SignedHeader :=
  signHeader (chainHeader lightSet height (10 * height) zeroBlockID) (Validators lightSet).

Lemma chainAt_verifies : Verify exampleChain (chainAt 1) lightSet (chainAt 5) lightSet 1000 60 1 DefaultTrustLevel = Done None.
Proof. vm_compute. reflexivity. Qed.

Lemma Verify_correct_witness :
  exists v c, v ∈ Validators lightSet /\ Address v <> exampleAddress 2 /\ shCommit (chainAt 5) = Some c /\
    signedFor exampleChain c v.
Proof.
  destruct (Verify_correct exampleChain (chainAt 1) lightSet (chainAt 5) lightSet 1000 60 1 DefaultTrustLevel
    (fun v => bool_decide (Address v = exampleAddress 2))) as (uh & th & c & Eu & Et & Ec & _ & Hs).
  - exact lightSet_wf.
  - exact lightSet_wf.
  - done.
  - done.
  - done.
  - done.
  - intros th [= <-]. done.
  - exact chainAt_verifies.
  - injection Eu as <-. injection Et as <-.
    destruct (Hs ltac:(done) ltac:(by vm_compute)) as (v & Hv & Hf & Hsig).
    exists v, c. split_and!; [done|by apply bool_decide_eq_false in Hf|done|done].
Defined.

End example.
