(* ===== verification/LightStore.v ===== *)
(** * The light client's store

    light/store/db/db.go: trusted headers and validator sets by height.  The
    database is modelled by the messages it holds (their encoding by generated code
    and the key-value database are outside): [SignedHeader_ToProto] and
    [ValidatorSet_ToProto] go in, and the conversions back with their validation
    come out.  The keys of a store sort by height. *)

From Stdlib Require Import ZArith Lia.
From S2P Require Import Prelude SafeMath Proto BitArray Validator ValidatorSet ValidatorSetUpdate BlockTypes SignBytes Merkle Header.
From S2P Require Import ValidatorHash.
From stdpp Require Import base gmap list option strings numbers sorting.

Local Open Scope Z_scope.

(** The two messages of a height *)
Notation storedHeader := (option (option protoHeader * option protoCommit)).

Record LightStore := mkLightStore {
  lsHeaders : gmap Z storedHeader;
  lsVals : gmap Z protoValidatorSet;
  lsSize : Z
}.

Definition wrapu16 (z : Z) : Z := z mod 2 ^ 16.

(** [New] of an empty database *)
Definition emptyStore : LightStore := mkLightStore ∅ ∅ 0.

Inductive StoreError := ErrSignedHeaderNotFound | ErrValidatorSetNotFound | ErrStored (err : error).

(** The stored heights in increasing order *)
Definition heights (s : LightStore) : list Z := merge_sort Z.le ((map_to_list (lsHeaders s)).*1).

Definition SaveSignedHeaderAndValidatorSet (sh : SignedHeader) (valSet : ValidatorSet) (s : LightStore)
    : outcome (option StoreError * LightStore) :=
  match shHeader sh with
  | None => Panic "invalid memory address or nil pointer dereference"
  | Some h =>
    if hHeight h <=? 0 then Panic "negative or zero height"
    else
      let pbsh := SignedHeader_ToProto (Some sh) in
      match ValidatorSet_ToProto (Some valSet) with
      | inl err => Done (Some (ErrStored ("unable to transition validator set to protobuf: " +:+ err)), s)
      | inr pbvs =>
        Done (None, mkLightStore (<[hHeight h := pbsh]> (lsHeaders s)) (<[hHeight h := pbvs]> (lsVals s))
                      (wrapu16 (lsSize s + 1)))
      end
  end.

Definition DeleteSignedHeaderAndValidatorSet (height : Z) (s : LightStore) : outcome LightStore :=
  if height <=? 0 then Panic "negative or zero height"
  else Done (mkLightStore (delete height (lsHeaders s)) (delete height (lsVals s)) (wrapu16 (lsSize s - 1))).

Section lightstore.
Context `{Crypto} {TH : TmHash} {ST : StdTime} {W : Wrappers}.

Definition store_SignedHeader (height : Z) (s : LightStore) : outcome (StoreError + SignedHeader) :=
  if height <=? 0 then Panic "negative or zero height"
  else match lsHeaders s !! height with
       | None => Done (inl ErrSignedHeaderNotFound)
       | Some pbsh =>
         let! r := SignedHeaderFromProto pbsh in
         Done (match r with inl err => inl (ErrStored err) | inr sh => inr sh end)
       end.

Definition store_ValidatorSet (height : Z) (s : LightStore) : outcome (StoreError + ValidatorSet) :=
  if height <=? 0 then Panic "negative or zero height"
  else match lsVals s !! height with
       | None => Done (inl ErrValidatorSetNotFound)
       | Some pbvs =>
         Done (match ValidatorSetFromProto (Some pbvs) with inl err => inl (ErrStored err) | inr vs => inr vs end)
       end.

(** The iterators go over the keys of the heights from 1 on. *)
Definition LastSignedHeaderHeight (s : LightStore) : Z :=
  match last (filter (fun h => 1 <= h) (heights s)) with Some h => h | None => -1 end.
Definition FirstSignedHeaderHeight (s : LightStore) : Z :=
  match head (filter (fun h => 1 <= h) (heights s)) with Some h => h | None => -1 end.

Definition SignedHeaderBefore (height : Z) (s : LightStore) : outcome (StoreError + SignedHeader) :=
  if height <=? 0 then Panic "negative or zero height"
  else match last (filter (fun h => 1 <= h < height) (heights s)) with
       | Some existingHeight => store_SignedHeader existingHeight s
       | None => Done (inl ErrSignedHeaderNotFound)
       end.

End lightstore.

(** [Prune]: the oldest pairs go until [size] are left. *)
Definition deleteAll (hs : list Z) (s : LightStore) : LightStore :=
  mkLightStore (foldr delete (lsHeaders s) hs) (foldr delete (lsVals s) hs) (lsSize s).

Definition Prune (size : Z) (s : LightStore) : LightStore :=
  if lsSize s <=? size then s
  else
    let numToPrune := wrapu16 (lsSize s - size) in
    let pruned := take (Z.to_nat numToPrune) (filter (fun h => 1 <= h) (heights s)) in
    let s' := deleteAll pruned s in
    mkLightStore (lsHeaders s') (lsVals s') (wrapu16 (lsSize s - Z.of_nat (length pruned))).
