(* ===== verification/LightStoreInv.v ===== *)
(** * What the light client's store holds

    The well-formedness of the store of LightStore.v and its preservation by every
    operation, and the round trip of what is saved. *)

From Stdlib Require Import ZArith Lia.
From S2P Require Import Prelude SafeMath Proto BitArray Validator ValidatorSet ValidatorSetUpdate BlockTypes SignBytes Merkle Header.
From S2P Require Import ValidatorHash PartSet Block CommitVerify LightVerifier LightStore.
From stdpp Require Import base gmap sets list option strings numbers sorting.

Local Open Scope Z_scope.

(** ** Round trips of the messages *)

Lemma Commit_sigs_valid c : Commit_ValidateBasic c = None -> 1 <= cHeight c ->
  Forall (fun cs => CommitSig_ValidateBasic cs = None) (cSignatures c).
Proof.
  intros Hv Hh. unfold Commit_ValidateBasic in Hv. destruct (cHeight c <? 0); [done|]. destruct (cRound c <? 0); [done|].
  destruct (Z.leb_spec 1 (cHeight c)); [|lia]. destruct (BlockID_IsZero _); [done|]. destruct (_ =? _)%nat; [done|].
  clear Hh H. revert Hv. generalize (cSignatures c). intros l.
  assert (forall (f : option error -> CommitSig -> option error) l e, (forall x cs, f (Some x) cs = Some x) ->
    foldl f (Some e) l = None -> False) as Hstop.
  { intros f l'. induction l' as [|x l' IH]; intros e Hf E; [done|]. simpl in E. rewrite Hf in E. by eapply IH. }
  induction l as [|cs l IH]; intros Hv; [constructor|]. simpl in Hv.
  destruct (CommitSig_ValidateBasic cs) as [e|] eqn:E; [by apply Hstop in Hv|]. constructor; [done|by apply IH].
Qed.

(** A commit as it is received: without a memoized bit array, and for a block
    identifier of the right form *)
Definition plain_commit (c : Commit) : Prop := cBitArray c = None /\ BlockID_ValidateBasic (cBlockID c) = None.

Lemma SignedHeader_proto `{TmHash} {ST : StdTime} {W : Wrappers} sh chainID h c :
  SignedHeader_ValidateBasic sh chainID = Done None -> shHeader sh = Some h -> shCommit sh = Some c -> plain_commit c ->
  SignedHeaderFromProto (SignedHeader_ToProto (Some sh)) = Done (inr sh).
Proof.
  intros Hv Eh Ec Hp. destruct (SignedHeader_valid _ _ Hv) as (h' & c' & Eh' & Ec' & _ & Hch & _ & Hhv & Hcv).
  assert (h' = h) as -> by congruence. assert (c' = c) as -> by congruence.
  assert (1 <= hHeight h).
  { unfold Header_ValidateBasic in Hhv. destruct (MaxChainIDLen <? _); [done|]. destruct (Z.ltb_spec (hHeight h) 0); [done|].
    destruct (Z.eqb_spec (hHeight h) 0); [done|]. lia. }
  destruct sh as [oh oc]. cbn [shHeader shCommit] in Eh, Ec. subst. unfold SignedHeader_ToProto. cbn [shHeader shCommit].
  destruct (Header_roundtrip h Hhv) as (ph & -> & E1).
  destruct (Commit_roundtrip c) as (pc & -> & E2); [split_and!; [apply Hp|done|apply Commit_sigs_valid; [done|lia]|apply Hp]|].
  unfold SignedHeaderFromProto. by rewrite E1, E2, bind_Done.
Qed.

(** ** The invariant of the store *)

(** Both messages of a height are there or none is, the heights are positive, a
    header is stored at its height, and the size is an [uint16]. *)
Record store_typed (s : LightStore) : Prop := {
  st_both k : is_Some (lsHeaders s !! k) <-> is_Some (lsVals s !! k);
  st_height k m : lsHeaders s !! k = Some m -> 0 < k /\ exists ph pc, m = Some (Some ph, pc) /\ phHeight ph = k;
  st_size : 0 <= lsSize s < 2 ^ 16
}.

Lemma wrapu16_range z : 0 <= wrapu16 z < 2 ^ 16.
Proof. unfold wrapu16. by apply Z.mod_pos_bound. Qed.

Lemma emptyStore_typed : store_typed emptyStore.
Proof. split; cbn [emptyStore lsHeaders lsVals lsSize]; [|by intros k m; rewrite lookup_empty|done].
  intros k. rewrite !lookup_empty. by split; intros [? ?].
Qed.

Lemma Save_typed sh vals s e s' : store_typed s -> SaveSignedHeaderAndValidatorSet sh vals s = Done (e, s') -> store_typed s'.
Proof.
  intros [T1 T2 T3] E. unfold SaveSignedHeaderAndValidatorSet in E. destruct (shHeader sh) as [h|] eqn:Eh; [|done].
  destruct (Z.leb_spec (hHeight h) 0); [done|]. destruct (ValidatorSet_ToProto (Some vals)); [by injection E as <- <-|].
  injection E as <- <-. split; [| |apply wrapu16_range]; cbn [lsHeaders lsVals].
  - intros k. rewrite !lookup_insert_is_Some. naive_solver.
  - intros k m [[<- <-]|[_ Hm]]%lookup_insert_Some; [|by apply T2]. split; [done|].
    unfold SignedHeader_ToProto. rewrite Eh. eexists _, _. split; [done|]. done.
Qed.

Lemma Delete_typed k s s' : store_typed s -> DeleteSignedHeaderAndValidatorSet k s = Done s' -> store_typed s'.
Proof.
  intros [T1 T2 T3] E. unfold DeleteSignedHeaderAndValidatorSet in E. destruct (k <=? 0); [done|]. injection E as <-.
  split; [| |apply wrapu16_range]; cbn [lsHeaders lsVals].
  - intros j. rewrite !lookup_delete_is_Some. naive_solver.
  - intros j m [_ Hm]%lookup_delete_Some. by apply T2.
Qed.

Lemma lookup_deletes {A} (m : gmap Z A) ks k : foldr delete m ks !! k = if bool_decide (k ∈ ks) then None else m !! k.
Proof.
  induction ks as [|j ks IH]; [done|]. cbn [foldr]. destruct (decide (k = j)) as [->|Hne].
  - rewrite lookup_delete_eq, bool_decide_true by set_solver. done.
  - rewrite lookup_delete_ne, IH by done. repeat case_bool_decide; set_solver.
Qed.

Lemma Prune_typed n s : store_typed s -> store_typed (Prune n s).
Proof.
  intros [T1 T2 T3]. unfold Prune. destruct (_ <=? _); [done|]. split; [| |apply wrapu16_range]; cbn [lsHeaders lsVals deleteAll].
  - intros k. rewrite !lookup_deletes. by case_bool_decide.
  - intros k m. rewrite lookup_deletes. case_bool_decide; [done|]. apply T2.
Qed.

(** ** Pruning *)

Lemma heights_elem s k : k ∈ heights s <-> is_Some (lsHeaders s !! k).
Proof.
  unfold heights. rewrite merge_sort_Permutation, list_elem_of_fmap. split.
  - intros ([j m] & -> & Hm%elem_of_map_to_list). by exists m.
  - intros [m Hm]. exists (k, m). split; [done|]. by apply elem_of_map_to_list.
Qed.

Lemma heights_sorted s : StronglySorted Z.le (heights s).
Proof. apply StronglySorted_merge_sort; apply _. Qed.

Lemma heights_nodup s : NoDup (heights s).
Proof. unfold heights. rewrite merge_sort_Permutation. apply NoDup_fst_map_to_list. Qed.

Lemma heights_positive s : store_typed s -> filter (fun h => 1 <= h) (heights s) = heights s.
Proof.
  intros [_ T2 _]. assert (Forall (fun h => 1 <= h) (heights s)) as Hf.
  { apply Forall_forall. intros k [m Hm]%heights_elem. destruct (T2 k m Hm) as [? _]. lia. }
  induction Hf as [|k l Hk _ IH]; [done|]. by rewrite filter_cons_True, IH.
Qed.

(** The size is the number of headers. *)
Definition counted (s : LightStore) : Prop := lsSize s = Z.of_nat (length (heights s)).

(** Sorted lists without duplicates are determined by their elements. *)
Lemma heights_unique (l k : list Z) : StronglySorted Z.le l -> StronglySorted Z.le k -> NoDup l -> NoDup k ->
  (forall x, x ∈ l <-> x ∈ k) -> l = k.
Proof. intros. apply (StronglySorted_unique Z.le); [done|done|by apply NoDup_Permutation]. Qed.

Lemma StronglySorted_drop {A} (R : A -> A -> Prop) n l : StronglySorted R l -> StronglySorted R (drop n l).
Proof. revert l. induction n as [|n IH]; intros [|x l] Hs; try done. apply StronglySorted_inv in Hs as [Hs _]. by apply IH. Qed.

Lemma Prune_keeps n s : store_typed s -> counted s -> 0 <= n ->
  heights (Prune n s) = drop (length (heights s) - Z.to_nat n) (heights s) /\ counted (Prune n s).
Proof.
  intros T C Hn. pose proof (st_size _ T) as Hs. unfold counted in C. unfold Prune. destruct (Z.leb_spec (lsSize s) n) as [Hle|Hgt].
  { replace (_ - _)%nat with 0%nat by lia. done. }
  rewrite heights_positive by done. replace (wrapu16 (lsSize s - n)) with (lsSize s - n) by (unfold wrapu16; rewrite Z.mod_small; lia).
  set (m := (length (heights s) - Z.to_nat n)%nat). replace (Z.to_nat (lsSize s - n)) with m by lia.
  set (s' := mkLightStore _ _ _).
  assert (heights s' = drop m (heights s)) as Eh.
  - apply heights_unique; [apply heights_sorted|apply StronglySorted_drop, heights_sorted|apply heights_nodup
      |eapply sublist_NoDup; [apply heights_nodup|apply sublist_drop]|].
    intros k. rewrite heights_elem. unfold s'. cbn [lsHeaders deleteAll]. rewrite lookup_deletes.
    pose proof (heights_nodup s) as N. pose proof (heights_elem s k) as He.
    rewrite <- (take_drop m (heights s)) in N, He at 1. apply NoDup_app in N as (_ & Hdis & _). rewrite elem_of_app in He.
    case_bool_decide as Hin; [|naive_solver]. split; [by intros [? ?]|]. intros Hd. by destruct (Hdis k).
  - split; [done|]. unfold counted. rewrite Eh. unfold s'. cbn [lsSize]. rewrite length_take, length_drop.
    unfold wrapu16. rewrite Z.mod_small; lia.
Qed.

(** ** Claims *)

(** [C23] Every operation of the store keeps it well formed: the header and the validators of
    a height are both there or both missing, a header is stored at its own positive
    height, and the size stays in the range of [uint16].  If the size is the number
    of headers, pruning leaves exactly the newest ones. *)
Theorem store_operations_typed (s : LightStore) : store_typed s ->
  (forall sh vals e s', SaveSignedHeaderAndValidatorSet sh vals s = Done (e, s') -> store_typed s') /\
  (forall k s', DeleteSignedHeaderAndValidatorSet k s = Done s' -> store_typed s') /\
  (forall n, store_typed (Prune n s)) /\
  (forall n, 0 <= n -> counted s ->
     heights (Prune n s) = drop (length (heights s) - Z.to_nat n) (heights s) /\ counted (Prune n s)).
Proof.
  intros T. split_and!.
  - intros sh vals e s'. by apply Save_typed.
  - intros k s'. by apply Delete_typed.
  - intros n. by apply Prune_typed.
  - intros n Hn C. by apply Prune_keeps.
Qed.

(** What is saved is what is loaded: a signed header that passes [ValidateBasic], with a
    commit for a block identifier of the right form and without a memoized bit array, and a
    valid set of validators with Ed25519 keys are stored without an error and come
    back unchanged, and the other heights keep what they had. *)
Theorem store_roundtrip `{Crypto} (TH : TmHash) (ST : StdTime) (W : Wrappers) (s : LightStore) (sh : SignedHeader)
    (vals : ValidatorSet) (chainID : bytes) (h : Header) (c : Commit) :
  SignedHeader_ValidateBasic sh chainID = Done None -> shHeader sh = Some h -> shCommit sh = Some c ->
  plain_commit c -> plain_vals vals ->
  exists s', SaveSignedHeaderAndValidatorSet sh vals s = Done (None, s') /\
    store_SignedHeader (hHeight h) s' = Done (inr sh) /\ store_ValidatorSet (hHeight h) s' = Done (inr vals) /\
    (forall k, k <> hHeight h -> store_SignedHeader k s' = store_SignedHeader k s /\ store_ValidatorSet k s' = store_ValidatorSet k s).
Proof.
  intros Hv Eh Ec Hc Hvals. destruct (ValidatorSet_proto vals Hvals) as (pvs & P1 & P2).
  pose proof (SignedHeader_proto sh chainID h c Hv Eh Ec Hc) as P3.
  assert (0 < hHeight h) as Hpos.
  { destruct (SignedHeader_valid _ _ Hv) as (h' & c' & Eh' & _ & _ & _ & _ & Hhv & _). assert (h' = h) as -> by congruence.
    unfold Header_ValidateBasic in Hhv. destruct (MaxChainIDLen <? _); [done|]. destruct (Z.ltb_spec (hHeight h) 0); [done|].
    destruct (Z.eqb_spec (hHeight h) 0); [done|]. lia. }
  unfold SaveSignedHeaderAndValidatorSet. rewrite Eh, P1. destruct (Z.leb_spec (hHeight h) 0); [lia|]. eexists. split; [done|].
  unfold store_SignedHeader, store_ValidatorSet. cbn [lsHeaders lsVals]. rewrite !lookup_insert_eq, P3, P2, !bind_Done.
  destruct (Z.leb_spec (hHeight h) 0); [lia|]. split_and!; [done..|]. intros k Hk. by rewrite !lookup_insert_ne by done.
Qed.

Section example.
Local Existing Instances exampleCrypto exampleTmHash exampleStdTime exampleWrappers.

Definition storedSet : ValidatorSet :=
  mkValidatorSet (Validators exampleKeySet) (head (Validators exampleKeySet)) 0.

Lemma storedSet_plain : plain_vals storedSet.
Proof.
  split; [by vm_compute|]. split; [repeat constructor; eexists; by split|]. eexists. split; [reflexivity|]. eexists. by split.
Qed.

Lemma store_roundtrip_witness :
  exists s', SaveSignedHeaderAndValidatorSet (chainAt 5) storedSet emptyStore = Done (None, s') /\
    store_SignedHeader 5 s' = Done (inr (chainAt 5)) /\ store_ValidatorSet 5 s' = Done (inr storedSet).
Proof.
  destruct (store_roundtrip exampleTmHash exampleStdTime exampleWrappers emptyStore (chainAt 5) storedSet exampleChain
    (chainHeader lightSet 5 50 zeroBlockID) (default (NewCommit 0 0 zeroBlockID []) (shCommit (chainAt 5)))) as (s' & E & E1 & E2 & _).
  - vm_compute. reflexivity.
  - reflexivity.
  - reflexivity.
  - split; [reflexivity|vm_compute; reflexivity].
  - exact storedSet_plain.
  - exists s'. split; [exact E|]. split; [exact E1|exact E2].
Defined.

(** The store after headers of the given heights have been saved *)
Definition savedAt (ks : list Z) : LightStore :=
  foldl (fun s k => match SaveSignedHeaderAndValidatorSet (mkSignedHeader (Some (chainHeader lightSet k (10 * k) zeroBlockID)) None)
                            storedSet s with Done (_, s') => s' | Panic _ => s end) emptyStore ks.

Lemma savedAt_typed ks : store_typed (savedAt ks).
Proof.
  unfold savedAt. generalize emptyStore_typed. generalize emptyStore.
  induction ks as [|k ks IH]; intros s T; simpl; [done|]. apply IH.
  destruct (SaveSignedHeaderAndValidatorSet _ _ _) as [[e s']|] eqn:E; [by eapply Save_typed|done].
Qed.

Lemma store_operations_typed_witness : heights (Prune 2 (savedAt [7; 3; 5; 4])) = [5; 7].
Proof.
  destruct (store_operations_typed (savedAt [7; 3; 5; 4]) (savedAt_typed _)) as (_ & _ & _ & Hp).
  destruct (Hp 2) as [E _]; [discriminate|by vm_compute|]. rewrite E. vm_compute. reflexivity.
Defined.

End example.
