(* ===== verification/LightClient.v ===== *)
(** * The light client

    light/client.go: a client gets headers from a primary provider, verifies them
    against a trusted header by the functions of LightVerifier.v, sequentially, by
    bisection or backwards, compares them with witnesses and keeps them in the
    store of LightStore.v.  Providers may answer anything, and differently at each
    call: a provider is a function of the number of the call. *)

From Stdlib Require Import ZArith Lia.
From S2P Require Import Prelude StateMonad SafeMath Proto BitArray Validator ValidatorSet ValidatorSetUpdate BlockTypes.
From S2P Require Import SignBytes Merkle Header ValidatorHash CommitVerify LightVerifier LightStore.
From stdpp Require Import base gmap list option strings numbers sorting relations.

Local Open Scope Z_scope.

(** ** Providers *)

(** The result of a request: a value, which may be nil, the error of the provider
    package for a missing value, or another error. *)
Inductive Answer (A : Type) := Answered (a : option A) | NotFound | Failed (err : error).
Arguments Answered {_} _.
Arguments NotFound {_}.
Arguments Failed {_} _.

Record Provider := mkProvider {
  prChainID : bytes;
  prSignedHeader : nat -> Z -> Answer SignedHeader;
  prValidatorSet : nat -> Z -> Answer ValidatorSet
}.

(** ** Errors and options *)

Inductive ClientError :=
  | ErrLight (err : LightError)
  | ErrNoWitnesses
  | ErrConflictingHeaders (H1 H2 : SignedHeader)
  | ErrProviderNotFound
  | ErrInStore (err : StoreError)
  | ErrNew (err : error)
  | ErrWrap (text : error) (err : ClientError).

Inductive mode := sequential | skipping.

(** The fields of [Client] that do not change.  The confirmation function may
    answer differently at each call. *)
Record ClientConfig := mkClientConfig {
  lcChainID : bytes;
  lcTrustingPeriod : Z;
  lcMode : mode;
  lcTrustLevel : Fraction;
  lcMaxRetryAttempts : Z;
  lcMaxClockDrift : Z;
  lcPruningSize : Z;
  lcConfirm : nat -> bool
}.

(** [TrustOptions] *)
Record TrustOptions := mkTrustOptions { toPeriod : Z; toHeight : Z; toHash : bytes }.

Definition TrustOptions_ValidateBasic (opts : TrustOptions) : option ClientError :=
  if toPeriod opts <=? 0 then Some (ErrNew "negative or zero period")
  else if toHeight opts <=? 0 then Some (ErrNew "negative or zero height")
  else if negb (Z.of_nat (length (toHash opts)) =? tmhashSize) then Some (ErrNew "expected hash size to be 32 bytes")
  else None.

(** ** The client

    [clCalls] counts the calls of providers, and [clReported] records the
    conflicting headers that were sent to all providers as evidence. *)
Record Client := mkClient {
  clPrimary : Provider;
  clWitnesses : list Provider;
  clStore : LightStore;
  clLatestHeader : option SignedHeader;
  clLatestVals : option ValidatorSet;
  clCalls : nat;
  clReported : list (SignedHeader * SignedHeader)
}.

Definition L (A : Type) : Type := stateful Client A.

Definition setProviders (p : Provider) (ws : list Provider) : L unit :=
  smodify (fun c => mkClient p ws (clStore c) (clLatestHeader c) (clLatestVals c) (clCalls c) (clReported c)).
Definition setStore (s : LightStore) : L unit :=
  smodify (fun c => mkClient (clPrimary c) (clWitnesses c) s (clLatestHeader c) (clLatestVals c) (clCalls c) (clReported c)).
Definition setLatest (h : option SignedHeader) (v : option ValidatorSet) : L unit :=
  smodify (fun c => mkClient (clPrimary c) (clWitnesses c) (clStore c) h v (clCalls c) (clReported c)).
(** The number of the next call *)
Definition nextCall : L nat :=
  fun c => Done (clCalls c, mkClient (clPrimary c) (clWitnesses c) (clStore c) (clLatestHeader c) (clLatestVals c)
                              (S (clCalls c)) (clReported c)).
Definition report (h1 h2 : SignedHeader) : L unit :=
  smodify (fun c => mkClient (clPrimary c) (clWitnesses c) (clStore c) (clLatestHeader c) (clLatestVals c) (clCalls c)
                      (clReported c ++ [(h1, h2)])).

Definition derefOption {A} (p : option A) : L A :=
  match p with None => spanic "invalid memory address or nil pointer dereference" | Some x => sret x end.

Definition replacePrimaryProvider : L (option ClientError) :=
  let& c := sget in
  match clWitnesses c with
  | w :: ((_ :: _) as ws) => let& _ := setProviders w ws in sret None
  | _ => sret (Some ErrNoWitnesses)
  end.

Section client.
Context `{Crypto} {TH : TmHash} {ST : StdTime} {W : Wrappers}.
Variable cfg : ClientConfig.

(** ** Requests to the primary *)

Definition validateHeader (h : option SignedHeader) (expectedHeight : Z) : outcome (option ClientError) :=
  match h with
  | None => Done (Some (ErrNew "nil header"))
  | Some sh =>
    let! wrongHeight := (if 0 <? expectedHeight
                         then let! h := theHeader sh in Done (negb (hHeight h =? expectedHeight)) else Done false) in
    if (wrongHeight : bool) then Done (Some (ErrNew "height mismatch"))
    else
      let! err := SignedHeader_ValidateBasic sh (lcChainID cfg) in
      Done (match err with Some err => Some (ErrNew err) | None => None end)
  end.

Definition validateValidatorSet (vals : option ValidatorSet) : option ClientError :=
  match vals with
  | None => Some (ErrNew "validator set is nil")
  | Some _ => match ValidatorSet_ValidateBasic vals with Some err => Some (ErrNew err) | None => None end
  end.

(** The loop over the attempts; [None] if all of them fail. *)
Fixpoint tryPrimary {A} (request : Provider -> nat -> Answer A) (attempts : nat) : L (option (Answer A)) :=
  match attempts with
  | O => sret None
  | S attempts' =>
    let& c := sget in
    let& k := nextCall in
    match request (clPrimary c) k with
    | Failed _ => tryPrimary request attempts'
    | a => sret (Some a)
    end
  end.

(** The function calls itself after the primary has been replaced; the fuel is
    the number of witnesses, of which each replacement takes one.  As in all the
    loops below, [None] stands for the end of the fuel. *)
Fixpoint fromPrimary {A} (request : Provider -> nat -> Answer A) (validate : option A -> outcome (option ClientError))
    (fuel : nat) : L (option (ClientError + option A)) :=
  let again (text : error) : L (option (ClientError + option A)) :=
    let& err := replacePrimaryProvider in
    match err with
    | Some err => sret (Some (inl (ErrWrap text err)))
    | None => match fuel with O => sret None | S fuel' => fromPrimary request validate fuel' end
    end in
  let& r := tryPrimary request (Z.to_nat (lcMaxRetryAttempts cfg)) in
  match r with
  | Some (Answered a) =>
    let& err := slift (validate a) in
    match err with
    | None => sret (Some (inr a))
    | Some _ => again "Tried to replace primary but"
    end
  | Some NotFound => sret (Some (inl ErrProviderNotFound))
  | _ => again "primary dropped out. Tried to replace but"
  end.

(** Turns the end of the fuel into a panic *)
Definition ended {A} (m : L (option A)) : L A :=
  let& r := m in match r with None => spanic "out of fuel" | Some r => sret r end.

Definition signedHeaderFromPrimary (height : Z) : L (ClientError + SignedHeader) :=
  let& c := sget in
  let& r := ended (fromPrimary (fun p k => prSignedHeader p k height) (fun h => validateHeader h height)
                     (length (clWitnesses c))) in
  match r with
  | inl err => sret (inl err)
  | inr h => let& h := derefOption h in sret (inr h)
  end.

Definition validatorSetFromPrimary (height : Z) : L (ClientError + ValidatorSet) :=
  let& c := sget in
  let& r := ended (fromPrimary (fun p k => prValidatorSet p k height) (fun v => Done (validateValidatorSet v))
                     (length (clWitnesses c))) in
  match r with
  | inl err => sret (inl err)
  | inr v => let& v := derefOption v in sret (inr v)
  end.

Definition fetchHeaderAndValsAtHeight (height : Z) : L (ClientError + SignedHeader * ValidatorSet) :=
  let& h := signedHeaderFromPrimary height in
  match h with
  | inl err => sret (inl (ErrWrap "failed to obtain the header" err))
  | inr h =>
    let& vals := validatorSetFromPrimary height in
    match vals with
    | inl err => sret (inl (ErrWrap "failed to obtain the vals" err))
    | inr vals => sret (inr (h, vals))
    end
  end.

(** ** Witnesses *)

Inductive badWitnessCode := noResponse | invalidHeader.

(** What the goroutine of a witness sends *)
Inductive witnessResult :=
  | HeaderMatched
  | Conflicting (H2 : SignedHeader)
  | BadWitness (code : badWitnessCode) (witnessIndex : nat).

(** [sh.Hash()]: the method of the embedded header, which may be nil *)
Definition headerHash (sh : SignedHeader) : outcome bytes := Header_Hash (shHeader sh).

(** Everything that [compareNewHeaderWithWitness] sends: after a conflict it goes
    on and sends nil as well. *)
Definition compareNewHeaderWithWitness (h : SignedHeader) (latestVals : option ValidatorSet) (k : nat)
    (witness : Provider) (witnessIndex : nat) : outcome (list witnessResult) :=
  let! hh := theHeader h in
  match prSignedHeader witness k (hHeight hh) with
  | Answered altH =>
    match altH with
    | None => Panic "invalid memory address or nil pointer dereference"
    | Some altH =>
      let! err := SignedHeader_ValidateBasic altH (lcChainID cfg) in
      match err with
      | Some _ => Done [BadWitness invalidHeader witnessIndex]
      | None =>
        let! hash := headerHash h in
        let! altHash := headerHash altH in
        if negb (bool_decide (hash = altHash)) then
          match latestVals with
          | None => Panic "invalid memory address or nil pointer dereference"
          | Some vals =>
            let! c := theCommit altH in
            let! (err, _) := VerifyCommitLightTrusting (lcChainID cfg) c (lcTrustLevel cfg) vals in
            match err with
            | Some _ => Done [BadWitness invalidHeader witnessIndex]
            | None => Done [Conflicting altH; HeaderMatched]
            end
          end
        else Done [HeaderMatched]
      end
    end
  | _ => Done [BadWitness noResponse witnessIndex]
  end.

(** One goroutine per witness *)
Fixpoint askWitnesses (h : SignedHeader) (latestVals : option ValidatorSet) (ws : list Provider) (i : nat)
    : L (list (list witnessResult)) :=
  match ws with
  | [] => sret []
  | w :: ws' =>
    let& k := nextCall in
    let& r := slift (compareNewHeaderWithWitness h latestVals k w i) in
    let& rs := askWitnesses h latestVals ws' (S i) in
    sret (r :: rs)
  end.

(** The first [n] results in some order in which the goroutines send them; [sched]
    chooses the goroutine that is next. *)
Fixpoint arrivals (sched : nat -> nat) (n : nat) (queues : list (list witnessResult)) : list witnessResult :=
  match n with
  | O => []
  | S n' =>
    let ready := filter (fun q => q <> []) queues in
    match ready !! (sched n mod length ready)%nat with
    | Some (r :: q) =>
      r :: arrivals sched n' (<[(sched n mod length ready)%nat := q]> ready)
    | _ => []
    end
  end.

Definition removeWitness (idx : nat) : L unit :=
  let& c := sget in
  match clWitnesses c with
  | [] => spanic "wanted to remove an element from empty witnesses slice"
  | [_] => setProviders (clPrimary c) []
  | ws =>
    let& lastW := slift (index ws (Z.of_nat (length ws) - 1)) in
    let& ws' := slift (set_index ws (Z.of_nat idx) lastW) in
    setProviders (clPrimary c) (take (length ws - 1) ws')
  end.

Fixpoint removeWitnesses (idxs : list nat) : L unit :=
  match idxs with
  | [] => sret tt
  | i :: idxs' => let& _ := removeWitness i in removeWitnesses idxs'
  end.

(** The handling of the results that were read: whether one matched, the last
    conflict, and the witnesses to remove *)
Fixpoint handleResults (h : SignedHeader) (rs : list witnessResult) (matched : bool) (conflict : option SignedHeader)
    (toRemove : list nat) : L (bool * option SignedHeader * list nat) :=
  match rs with
  | [] => sret (matched, conflict, toRemove)
  | HeaderMatched :: rs' => handleResults h rs' true conflict toRemove
  | Conflicting h2 :: rs' => let& _ := report h h2 in handleResults h rs' matched (Some h2) toRemove
  | BadWitness invalidHeader i :: rs' => handleResults h rs' matched conflict (toRemove ++ [i])
  | BadWitness noResponse i :: rs' => handleResults h rs' matched conflict toRemove
  end.

Fixpoint compareLoop (sched : nat -> nat) (h : SignedHeader) (attempts : nat) (matched : bool)
    (conflict : option SignedHeader) : L (option ClientError) :=
  match attempts with
  | O => sret (Some (ErrNew "awaiting response from all witnesses exceeded dropout time"))
  | S attempts' =>
    let& c := sget in
    if (length (clWitnesses c) =? 0)%nat then sret (Some ErrNoWitnesses)
    else
      let& queues := askWitnesses h (clLatestVals c) (clWitnesses c) 0 in
      let& (matched, conflict, toRemove) :=
        handleResults h (arrivals (fun n => sched (clCalls c + n)%nat) (length (clWitnesses c)) queues) matched conflict [] in
      let& _ := removeWitnesses toRemove in
      match conflict with
      | Some h2 => sret (Some (ErrConflictingHeaders h h2))
      | None => if (matched : bool) then sret None else compareLoop sched h attempts' matched conflict
      end
  end.

Definition compareNewHeaderWithWitnesses (sched : nat -> nat) (h : SignedHeader) : L (option ClientError) :=
  compareLoop sched h (Z.to_nat (lcMaxRetryAttempts cfg)) false None.

(** ** Sequential verification *)

Definition isErrInvalidHeader (err : LightError) : bool :=
  match err with ErrInvalidHeader _ => true | _ => false end.

(** [height--; continue] keeps the height. *)
Fixpoint sequenceLoop (fuel : nat) (newHeader : SignedHeader) (newVals : ValidatorSet) (newHeight : Z) (now : Time)
    (trustedHeader : SignedHeader) (height : Z) : L (option (option ClientError)) :=
  if newHeight <? height then sret (Some None)
  else match fuel with
  | O => sret None
  | S fuel' =>
    let& interim := (if height =? newHeight then sret (inr (newHeader, newVals)) else fetchHeaderAndValsAtHeight height) in
    match interim with
    | inl err => sret (Some (Some err))
    | inr (interimHeader, interimVals) =>
      let& err := slift (VerifyAdjacent (lcChainID cfg) trustedHeader interimHeader interimVals
                           (lcTrustingPeriod cfg) now (lcMaxClockDrift cfg)) in
      match err with
      | Some err =>
        if isErrInvalidHeader err then
          let& replaceErr := replacePrimaryProvider in
          match replaceErr with
          | Some replaceErr => sret (Some (Some (ErrWrap "Tried to replace primary but" replaceErr)))
          | None => sequenceLoop fuel' newHeader newVals newHeight now trustedHeader height
          end
        else sret (Some (Some (ErrWrap "verify adjacent failed" (ErrLight err))))
      | None => sequenceLoop fuel' newHeader newVals newHeight now interimHeader (wrap64 (height + 1))
      end
    end
  end.

Definition sequence (initiallyTrustedHeader newHeader : SignedHeader) (newVals : ValidatorSet) (now : Time)
    : L (option ClientError) :=
  let& c := sget in
  let& ih := slift (theHeader initiallyTrustedHeader) in
  let& nh := slift (theHeader newHeader) in
  ended (sequenceLoop (Z.to_nat (hHeight nh - hHeight ih) + length (clWitnesses c)) newHeader newVals (hHeight nh) now
           initiallyTrustedHeader (wrap64 (hHeight ih + 1))).

(** ** Bisection *)

Definition bisectionNumerator : Z := 9.
Definition bisectionDenominator : Z := 16.

(** The arithmetic is on int64. *)
Definition pivotHeight (trustedHeight height : Z) : Z :=
  wrap64 (trustedHeight + Z.quot (wrap64 (wrap64 (height - trustedHeight) * bisectionNumerator)) bisectionDenominator).

Definition isErrNewValSetCantBeTrusted (err : LightError) : bool :=
  match err with ErrNewValSetCantBeTrusted _ => true | _ => false end.

Section bisection.
Variables (sched : nat -> nat) (initH : SignedHeader) (initV : ValidatorSet).
Variables (newHeader : SignedHeader) (newVals : ValidatorSet) (now : Time).

(** The loop; a restart after the replacement of the primary begins again with the
    first values. *)
Fixpoint bisectionLoop (fuel : nat) (headerCache : list (SignedHeader * ValidatorSet)) (depth : nat)
    (trustedHeader : SignedHeader) (trustedVals : ValidatorSet) : L (option (option ClientError)) :=
  match fuel with
  | O => sret None
  | S fuel' =>
    let& (sh, valSet) := slift (index headerCache (Z.of_nat depth)) in
    let& err := slift (Verify (lcChainID cfg) trustedHeader trustedVals sh valSet (lcTrustingPeriod cfg) now
                         (lcMaxClockDrift cfg) (lcTrustLevel cfg)) in
    match err with
    | None =>
      if (depth =? 0)%nat then
        let& err := compareNewHeaderWithWitnesses sched newHeader in sret (Some err)
      else bisectionLoop fuel' (take depth headerCache) 0 sh valSet
    | Some err =>
      if isErrNewValSetCantBeTrusted err then
        if (depth =? length headerCache - 1)%nat then
          let& th := slift (theHeader trustedHeader) in
          let& h := slift (theHeader sh) in
          let& interim := fetchHeaderAndValsAtHeight (pivotHeight (hHeight th) (hHeight h)) in
          match interim with
          | inl err => sret (Some (Some err))
          | inr interim => bisectionLoop fuel' (headerCache ++ [interim]) (S depth) trustedHeader trustedVals
          end
        else bisectionLoop fuel' headerCache (S depth) trustedHeader trustedVals
      else if isErrInvalidHeader err then
        let& replaceErr := replacePrimaryProvider in
        match replaceErr with
        | Some _ => sret (Some (Some (ErrWrap "verify non adjacent failed" (ErrLight err))))
        | None =>
          let& nh := slift (theHeader newHeader) in
          let& r := fetchHeaderAndValsAtHeight (hHeight nh) in
          match r with
          | inl err => sret (Some (Some err))
          | inr (newProviderHeader, newProviderVals) =>
            let& h1 := slift (headerHash newProviderHeader) in
            let& h2 := slift (headerHash newHeader) in
            let& v1 := slift (ValidatorSet_Hash newProviderVals) in
            let& v2 := slift (ValidatorSet_Hash newVals) in
            if negb (bool_decide (h1 = h2)) || negb (bool_decide (v1 = v2))
            then sret (Some (Some (ErrWrap "verify non adjacent failed"
                                     (ErrNew "replacement provider has a different header and/or vals"))))
            else bisectionLoop fuel' [(newHeader, newVals)] 0 initH initV
          end
        end
      else sret (Some (Some (ErrWrap "verify non adjacent failed" (ErrLight err))))
    end
  end.

(** Every replacement of the primary starts a search of at most [d * d + d] steps,
    where [d] is the distance of the heights. *)
Definition bisectionFuel (d witnesses : nat) : nat := (S witnesses * (d * d + d + 1))%nat.

Definition bisection : L (option ClientError) :=
  let& c := sget in
  let& ih := slift (theHeader initH) in
  let& nh := slift (theHeader newHeader) in
  ended (bisectionLoop (bisectionFuel (Z.to_nat (hHeight nh - hHeight ih)) (length (clWitnesses c)))
           [(newHeader, newVals)] 0 initH initV).

End bisection.

(** ** Backwards verification *)

(** After a failed verification and the replacement of the primary, the header
    becomes the trusted one all the same. *)
Fixpoint backwardsLoop (fuel : nat) (newHeight : Z) (trustedHeader : SignedHeader) : L (option (option ClientError)) :=
  let& th := slift (theHeader trustedHeader) in
  if negb (newHeight <? hHeight th) then sret (Some None)
  else match fuel with
  | O => sret None
  | S fuel' =>
    let& interim := signedHeaderFromPrimary (wrap64 (hHeight th - 1)) in
    match interim with
    | inl err => sret (Some (Some (ErrWrap "failed to obtain the header" err)))
    | inr interimHeader =>
      let& err := slift (VerifyBackwards (lcChainID cfg) interimHeader trustedHeader) in
      match err with
      | Some err =>
        let& replaceErr := replacePrimaryProvider in
        match replaceErr with
        | Some _ => sret (Some (Some (ErrWrap "verify backwards failed" (ErrLight err))))
        | None => backwardsLoop fuel' newHeight interimHeader
        end
      | None => backwardsLoop fuel' newHeight interimHeader
      end
    end
  end.

Definition backwards (initiallyTrustedHeader newHeader : SignedHeader) (now : Time) : L (option ClientError) :=
  let& ih := slift (theHeader initiallyTrustedHeader) in
  let expired := Some (ErrLight (ErrOldHeaderExpired (hTime ih + lcTrustingPeriod cfg) now)) in
  if HeaderExpired ih (lcTrustingPeriod cfg) now then sret expired
  else
    let& nh := slift (theHeader newHeader) in
    let& err := ended (backwardsLoop (Z.to_nat (hHeight ih - hHeight nh)) (hHeight nh) initiallyTrustedHeader) in
    match err with
    | Some err => sret (Some err)
    | None => if HeaderExpired ih (lcTrustingPeriod cfg) now then sret expired else sret None
    end.

(** ** The trusted store *)

Definition compareWithLatestHeight (height : Z) : L (ClientError + Z) :=
  let& c := sget in
  let latestHeight := LastSignedHeaderHeight (clStore c) in
  sret (if latestHeight =? -1 then inl (ErrNew "no headers exist")
        else if latestHeight <? height then inl (ErrNew "unverified header/valset requested")
        else if height =? 0 then inr latestHeight
        else if height <? 0 then inl (ErrNew "negative height")
        else inr height).

Definition inStore {A} (r : StoreError + A) : ClientError + A :=
  match r with inl err => inl (ErrInStore err) | inr a => inr a end.

Definition TrustedHeader (height : Z) : L (ClientError + SignedHeader) :=
  let& r := compareWithLatestHeight height in
  match r with
  | inl err => sret (inl err)
  | inr height => let& c := sget in let& r := slift (store_SignedHeader height (clStore c)) in sret (inStore r)
  end.

Definition TrustedValidatorSet (height : Z) : L (ClientError + ValidatorSet * Z) :=
  let& r := compareWithLatestHeight height in
  match r with
  | inl err => sret (inl err)
  | inr heightUsed =>
    let& c := sget in
    let& r := slift (store_ValidatorSet heightUsed (clStore c)) in
    sret (match r with inl err => inl (ErrInStore err) | inr v => inr (v, heightUsed) end)
  end.

Definition restoreTrustedHeaderAndVals : L (option ClientError) :=
  let& c := sget in
  let lastHeight := LastSignedHeaderHeight (clStore c) in
  if 0 <? lastHeight then
    let& h := slift (store_SignedHeader lastHeight (clStore c)) in
    match h with
    | inl err => sret (Some (ErrWrap "can't get last trusted header" (ErrInStore err)))
    | inr h =>
      let& v := slift (store_ValidatorSet lastHeight (clStore c)) in
      match v with
      | inl err => sret (Some (ErrWrap "can't get last trusted validators" (ErrInStore err)))
      | inr v => let& _ := setLatest (Some h) (Some v) in sret None
      end
    end
  else sret None.

Definition updateTrustedHeaderAndVals (h : SignedHeader) (vals : ValidatorSet) : L (option ClientError) :=
  let& hh := slift (theHeader h) in
  let& vhash := slift (ValidatorSet_Hash vals) in
  if negb (bool_decide (hValidatorsHash hh = vhash)) then sret (Some (ErrNew "expected validator's hash"))
  else
    let& c := sget in
    let& (err, st) := slift (SaveSignedHeaderAndValidatorSet h vals (clStore c)) in
    let& _ := setStore st in
    match err with
    | Some err => sret (Some (ErrWrap "failed to save trusted header" (ErrInStore err)))
    | None =>
      let& _ := (if 0 <? lcPruningSize cfg then setStore (Prune (lcPruningSize cfg) st) else sret tt) in
      let& newer := (match clLatestHeader c with
                     | None => sret true
                     | Some l => let& lh := slift (theHeader l) in sret (hHeight lh <? hHeight hh)
                     end) in
      let& _ := (if (newer : bool) then setLatest (Some h) (Some vals) else sret tt) in
      sret None
    end.

Definition Cleanup : L (option ClientError) :=
  let& _ := setLatest None None in
  let& c := sget in
  let& _ := setStore (Prune 0 (clStore c)) in
  sret None.

(** The loop of [cleanupAfter]; the fuel is the number of headers in the store,
    of which each turn deletes one. *)
Fixpoint cleanupLoop (fuel : nat) (height prevHeight : Z) : L (option (option ClientError)) :=
  let& c := sget in
  let& r := slift (SignedHeaderBefore prevHeight (clStore c)) in
  match r with
  | inl ErrSignedHeaderNotFound => sret (Some None)
  | inl err => sret (Some (Some (ErrWrap "failed to get header" (ErrInStore err))))
  | inr h =>
    let& hh := slift (theHeader h) in
    if hHeight hh <=? height then sret (Some None)
    else match fuel with
    | O => sret None
    | S fuel' =>
      let& st := slift (DeleteSignedHeaderAndValidatorSet (hHeight hh) (clStore c)) in
      let& _ := setStore st in
      cleanupLoop fuel' height (hHeight hh)
    end
  end.

Definition cleanupAfter (height : Z) : L (option ClientError) :=
  let& c := sget in
  let& l := derefOption (clLatestHeader c) in
  let& lh := slift (theHeader l) in
  let& err := ended (cleanupLoop (size (lsHeaders (clStore c))) height (hHeight lh)) in
  match err with
  | Some err => sret (Some err)
  | None => let& _ := setLatest None None in restoreTrustedHeaderAndVals
  end.

(** ** Verification of a header *)

Variable sched : nat -> nat.

Definition verifyForward (c : Client) (newHeader : SignedHeader) (newVals : ValidatorSet) (now : Time) : L (option ClientError) :=
  let& latest := derefOption (clLatestHeader c) in
  match lcMode cfg with
  | sequential => sequence latest newHeader newVals now
  | skipping => let& latestVals := derefOption (clLatestVals c) in bisection sched latest latestVals newHeader newVals now
  end.

(** Before the latest trusted header *)
Definition verifyOlder (c : Client) (newHeader : SignedHeader) (newVals : ValidatorSet) (now : Time) : L (option ClientError) :=
  let& latest := derefOption (clLatestHeader c) in
  let& nh := slift (theHeader newHeader) in
  let firstHeaderHeight := FirstSignedHeaderHeight (clStore c) in
  if hHeight nh <? firstHeaderHeight then
    let& r := TrustedHeader firstHeaderHeight in
    match r with
    | inl err => sret (Some (ErrWrap "can't get first signed header" err))
    | inr closestHeader =>
      let& ch := slift (theHeader closestHeader) in
      backwards (if HeaderExpired ch (lcTrustingPeriod cfg) now then latest else closestHeader) newHeader now
    end
  else
    let& r := slift (SignedHeaderBefore (hHeight nh) (clStore c)) in
    match r with
    | inl err => sret (Some (ErrWrap "can't get signed header" (ErrInStore err)))
    | inr closestHeader =>
      let& ch := slift (theHeader closestHeader) in
      if (match lcMode cfg with sequential => true | skipping => false end) || HeaderExpired ch (lcTrustingPeriod cfg) now
      then backwards latest newHeader now
      else
        let& r := TrustedValidatorSet (hHeight ch) in
        match r with
        | inl err => sret (Some (ErrWrap "can't get validator set" err))
        | inr (closestValidatorSet, _) => bisection sched closestHeader closestValidatorSet newHeader newVals now
        end
    end.

Definition verifyHeader (newHeader : SignedHeader) (newVals : ValidatorSet) (now : Time) : L (option ClientError) :=
  let& c := sget in
  let& _ := slift (headerHash newHeader) in
  let& _ := slift (ValidatorSet_Hash newVals) in
  let& latest := derefOption (clLatestHeader c) in
  let& lh := slift (theHeader latest) in
  let& nh := slift (theHeader newHeader) in
  let& err := (if hHeight lh <=? hHeight nh then verifyForward c newHeader newVals now
               else verifyOlder c newHeader newVals now) in
  match err with
  | Some err => sret (Some err)
  | None => updateTrustedHeaderAndVals newHeader newVals
  end.

Definition VerifyHeader (newHeader : SignedHeader) (newVals : ValidatorSet) (now : Time) : L (option ClientError) :=
  let& nh := slift (theHeader newHeader) in
  if hHeight nh <=? 0 then sret (Some (ErrNew "negative or zero height"))
  else
    let& r := TrustedHeader (hHeight nh) in
    match r with
    | inr h =>
      let& h1 := slift (headerHash h) in
      let& h2 := slift (headerHash newHeader) in
      sret (if negb (bool_decide (h1 = h2)) then Some (ErrNew "existing trusted header does not match newHeader") else None)
    | inl _ => verifyHeader newHeader newVals now
    end.

Definition VerifyHeaderAtHeight (height : Z) (now : Time) : L (option SignedHeader * option ClientError) :=
  if height <=? 0 then sret (None, Some (ErrNew "negative or zero height"))
  else
    let& r := TrustedHeader height in
    match r with
    | inr h => sret (Some h, None)
    | inl _ =>
      let& r := fetchHeaderAndValsAtHeight height in
      match r with
      | inl err => sret (None, Some err)
      | inr (newHeader, newVals) => let& err := verifyHeader newHeader newVals now in sret (Some newHeader, err)
      end
    end.

Definition Update (now : Time) : L (option SignedHeader * option ClientError) :=
  let& c := sget in
  let lastTrustedHeight := LastSignedHeaderHeight (clStore c) in
  if lastTrustedHeight =? -1 then sret (None, None)
  else
    let& r := fetchHeaderAndValsAtHeight 0 in
    match r with
    | inl err => sret (None, Some err)
    | inr (latestHeader, latestVals) =>
      let& lh := slift (theHeader latestHeader) in
      if lastTrustedHeight <? hHeight lh then
        let& err := VerifyHeader latestHeader latestVals now in
        sret (match err with Some err => (None, Some err) | None => (Some latestHeader, None) end)
      else sret (None, None)
    end.

(** ** A new client *)

Definition confirm : L bool :=
  let& k := nextCall in sret (lcConfirm cfg k).

Definition checkTrustedHeaderUsingOptions (options : TrustOptions) : L (option ClientError) :=
  let& c := sget in
  let& latest := derefOption (clLatestHeader c) in
  let& lh := slift (theHeader latest) in
  (* the hash to compare with, or the result *)
  let& r := (if hHeight lh <? toHeight options then
      let& h := signedHeaderFromPrimary (hHeight lh) in
      match h with
      | inl err => sret (inl (Some err))
      | inr h => let& hash := slift (headerHash h) in sret (inr hash)
      end
    else if toHeight options =? hHeight lh then sret (inr (toHash options))
    else
      let& yes := confirm in
      if (yes : bool) then
        let& err := cleanupAfter (toHeight options) in
        sret (match err with Some err => inl (Some (ErrWrap "cleanupAfter" err)) | None => inr (toHash options) end)
      else sret (inl None)) in
  match r with
  | inl res => sret res
  | inr primaryHash =>
    let& c := sget in
    let& latest := derefOption (clLatestHeader c) in
    let& hash := slift (headerHash latest) in
    if negb (bool_decide (primaryHash = hash)) then
      let& yes := confirm in
      if (yes : bool) then
        let& err := Cleanup in
        sret (match err with Some err => Some (ErrWrap "failed to cleanup" err) | None => None end)
      else sret (Some (ErrNew "refused to remove the stored headers despite hashes mismatch"))
    else sret None
  end.

Definition initializeWithTrustOptions (options : TrustOptions) : L (option ClientError) :=
  let& h := signedHeaderFromPrimary (toHeight options) in
  match h with
  | inl err => sret (Some err)
  | inr h =>
    let& err := slift (SignedHeader_ValidateBasic h (lcChainID cfg)) in
    match err with
    | Some err => sret (Some (ErrNew err))
    | None =>
      let& hash := slift (headerHash h) in
      if negb (bool_decide (hash = toHash options)) then sret (Some (ErrNew "expected header's hash"))
      else
        let& err := compareNewHeaderWithWitnesses sched h in
        match err with
        | Some err => sret (Some err)
        | None =>
          let& vals := validatorSetFromPrimary (toHeight options) in
          match vals with
          | inl err => sret (Some err)
          | inr vals =>
            let& hh := slift (theHeader h) in
            let& vhash := slift (ValidatorSet_Hash vals) in
            if negb (bool_decide (hValidatorsHash hh = vhash)) then sret (Some (ErrNew "expected header's validators"))
            else
              let& c := slift (theCommit h) in
              let& (err, _) := slift (VerifyCommitLight (lcChainID cfg) (cBlockID c) (hHeight hh) c vals) in
              match err with
              | Some err => sret (Some (ErrWrap "invalid commit" (ErrLight (ErrVerify err))))
              | None => updateTrustedHeaderAndVals h vals
              end
          end
        end
    end
  end.

(** [NewClientFromTrustedStore], with the options already applied to the
    configuration *)
Definition NewClientFromTrustedStore (primary : Provider) (witnesses : list Provider) (trustedStore : LightStore)
    : outcome (ClientError + Client) :=
  let c := mkClient primary witnesses trustedStore None None 0 [] in
  if (length witnesses <? 1)%nat && (match lcMode cfg with skipping => true | sequential => false end)
  then Done (inl ErrNoWitnesses)
  else if existsb (fun w => negb (bool_decide (prChainID w = lcChainID cfg))) witnesses
  then Done (inl (ErrNew "witness is on another chain"))
  else match ValidateTrustLevel (lcTrustLevel cfg) with
  | Some err => Done (inl (ErrLight err))
  | None =>
    let! (err, c) := restoreTrustedHeaderAndVals c in
    Done (match err with Some err => inl err | None => inr c end)
  end.

(** The part of [NewClient] after the client is made *)
Definition startClient (options : TrustOptions) : L (option ClientError) :=
  let& c := sget in
  let& err := (match clLatestHeader c with
               | Some _ => checkTrustedHeaderUsingOptions options
               | None => sret None
               end) in
  match err with
  | Some err => sret (Some err)
  | None =>
    let& c := sget in
    let& missing := (match clLatestHeader c with
                     | None => sret true
                     | Some l => let& lh := slift (theHeader l) in sret (hHeight lh <? toHeight options)
                     end) in
    if (missing : bool) then initializeWithTrustOptions options else sret None
  end.

Definition NewClient (options : TrustOptions) (primary : Provider) (witnesses : list Provider) (trustedStore : LightStore)
    : outcome (ClientError + Client) :=
  match TrustOptions_ValidateBasic options with
  | Some err => Done (inl (ErrWrap "invalid TrustOptions" err))
  | None =>
    let! r := NewClientFromTrustedStore primary witnesses trustedStore in
    match r with
    | inl err => Done (inl err)
    | inr c =>
      let! (err, c) := startClient options c in
      Done (match err with Some err => inl err | None => inr c end)
    end
  end.

End client.
