(* ===== verification/LightSearch.v ===== *)
(** * The searches of the light client

    The loops of LightClient.v return within the fuel they are given, and what
    bisection and sequential verification accept is linked to the trusted header
    by verified steps. *)

From Stdlib Require Import ZArith Lia.
From S2P Require Import Prelude StateMonad SafeMath Proto BitArray Validator ValidatorSet ValidatorSetUpdate BlockTypes.
From S2P Require Import SignBytes Merkle Header ValidatorHash CommitVerify LightVerifier LightStore LightClient.
From stdpp Require Import base gmap list option strings numbers sorting relations.

Local Open Scope Z_scope.

(** ** Witnesses are never added *)

Definition fewer {A} (m : L A) : Prop :=
  forall c a c', m c = Done (a, c') -> (length (clWitnesses c') <= length (clWitnesses c))%nat.

Create HintDb fewer.

Lemma fewer_ret {A} (a : A) : fewer (sret a).
Proof. by intros c b c' [= <- <-]. Qed.
Lemma fewer_panic {A} why : fewer (spanic (A := A) why).
Proof. by intros c b c' [=]. Qed.
Lemma fewer_lift {A} (m : outcome A) : fewer (slift m).
Proof. by intros c b c' [_ ->]%slift_Done. Qed.
Lemma fewer_get : fewer sget.
Proof. by intros c b c' [= <- <-]. Qed.
Lemma fewer_nextCall : fewer nextCall.
Proof. by intros c b c' [= <- <-]. Qed.
Lemma fewer_report h1 h2 : fewer (report h1 h2).
Proof. by intros c b c' [= <- <-]. Qed.
Lemma fewer_deref {A} (p : option A) : fewer (derefOption p).
Proof. destruct p; [apply fewer_ret|apply fewer_panic]. Qed.

Lemma fewer_then {A B} (m : L A) (f : A -> L B) : fewer m -> (forall a, fewer (f a)) -> fewer (sthen m f).
Proof. intros Hm Hf c b c' E. step E as a c1 E1. specialize (Hm _ _ _ E1). specialize (Hf _ _ _ _ E). lia. Qed.

#[export] Hint Resolve fewer_ret fewer_panic fewer_lift fewer_get fewer_nextCall fewer_report fewer_deref : fewer.

(** Goes through a program whose parts only lose witnesses. *)
Ltac go_fewer :=
  repeat first
    [ progress eauto with fewer nocore
    | apply fewer_then; [|intros]
    | match goal with
      | |- fewer (match ?x with _ => _ end) => destruct x
      | |- fewer (let '(_, _) := ?x in _) => destruct x
      end ].

(** A replacement takes a witness. *)
Lemma replacePrimaryProvider_takes c e c' : replacePrimaryProvider c = Done (e, c') ->
  match e with
  | None => S (length (clWitnesses c')) = length (clWitnesses c)
  | Some e => e = ErrNoWitnesses /\ c' = c
  end.
Proof.
  unfold replacePrimaryProvider, sthen, sget, setProviders, smodify, sret.
  destruct (clWitnesses c) as [|w [|w' ws]] eqn:E; intros [= <- <-]; [done..|]. simpl. lia.
Qed.

Lemma fewer_replacePrimaryProvider : fewer replacePrimaryProvider.
Proof.
  intros c e c' E. pose proof (replacePrimaryProvider_takes _ _ _ E) as Ht.
  destruct e; [by destruct Ht as [_ ->]|lia].
Qed.
#[export] Hint Resolve fewer_replacePrimaryProvider : fewer.

Section search.
Context `{Crypto} {TH : TmHash} {ST : StdTime} {W : Wrappers}.
Variable cfg : ClientConfig.

Lemma fewer_tryPrimary {A} (request : Provider -> nat -> Answer A) n : fewer (tryPrimary request n).
Proof. induction n; simpl; go_fewer. Qed.
Hint Resolve fewer_tryPrimary : fewer.

Lemma fewer_fromPrimary {A} (request : Provider -> nat -> Answer A) validate n : fewer (fromPrimary cfg request validate n).
Proof. induction n; simpl; go_fewer. Qed.

Lemma fewer_ended {A} (m : L (option A)) : fewer m -> fewer (ended m).
Proof. intros. unfold ended. go_fewer. Qed.
Hint Resolve fewer_fromPrimary fewer_ended : fewer.

Lemma fewer_signedHeaderFromPrimary h : fewer (signedHeaderFromPrimary cfg h).
Proof. unfold signedHeaderFromPrimary. go_fewer. Qed.
Lemma fewer_validatorSetFromPrimary h : fewer (validatorSetFromPrimary cfg h).
Proof. unfold validatorSetFromPrimary. go_fewer. Qed.
Hint Resolve fewer_signedHeaderFromPrimary fewer_validatorSetFromPrimary : fewer.

Lemma fewer_fetch h : fewer (fetchHeaderAndValsAtHeight cfg h).
Proof. unfold fetchHeaderAndValsAtHeight. go_fewer. Qed.

(** ** Requests to the primary return *)

(** Each turn takes a witness, and there is none left to take at the end. *)
Lemma fromPrimary_ends {A} (request : Provider -> nat -> Answer A) validate fuel c c' :
  (length (clWitnesses c) <= S fuel)%nat -> fromPrimary cfg request validate fuel c <> Done (None, c').
Proof.
  revert c. induction fuel as [|fuel IH]; intros c Hl E; simpl in E;
    step E as r c1 E1; pose proof (fewer_tryPrimary _ _ _ _ _ E1) as Hw;
    (destruct r as [[a| |err]|];
      [step E as e c2 E2; apply slift_Done in E2 as [_ ->]; destruct e; [|done]| done | |]);
    step E as e2 c3 E3; pose proof (replacePrimaryProvider_takes _ _ _ E3) as Ht;
    (destruct e2; [done|]); try (eapply IH; [|exact E]; lia).
  all: unfold replacePrimaryProvider, sthen, sget in E3; destruct (clWitnesses c1) as [|? [|? ?]] eqn:Ew; simpl in *; (discriminate || lia).
Qed.

(** ** What the primary answered *)

Lemma fromPrimary_valid {A} (request : Provider -> nat -> Answer A) validate fuel c a c' :
  fromPrimary cfg request validate fuel c = Done (Some (inr a), c') -> validate a = Done None.
Proof.
  revert c. induction fuel as [|fuel IH]; intros c E; simpl in E;
    step E as r c1 E1;
    (destruct r as [[a'| |err]|];
      [step E as e c2 E2; apply slift_Done in E2 as [Ev ->]; destruct e; [|by injection E as <- <-]| done | |]);
    step E as e2 c3 E3; (destruct e2; [done|]); first [done | by eapply IH].
Qed.

Lemma signedHeaderFromPrimary_valid height c sh c' :
  signedHeaderFromPrimary cfg height c = Done (inr sh, c') -> validateHeader cfg (Some sh) height = Done None.
Proof.
  unfold signedHeaderFromPrimary. intros E. step E as c0 c1 E0. step E as r c2 E1. unfold ended in E1.
  step E1 as r' c3 E2. destruct r' as [r'|]; [|done]. injection E1 as <- <-.
  destruct r' as [e|a]; [done|]. step E as h c4 E3. injection E as <- <-.
  destruct a as [a|]; [|done]. injection E3 as <- <-. by apply (fromPrimary_valid _ _ _ _ _ _ E2).
Qed.

Lemma validateHeader_height sh height : 0 < height -> validateHeader cfg (Some sh) height = Done None ->
  exists h, shHeader sh = Some h /\ hHeight h = height.
Proof.
  intros Hp E. unfold validateHeader, theHeader in E. destruct (Z.ltb_spec 0 height); [|lia].
  destruct (shHeader sh) as [h|]; [|done]. rewrite !bind_Done in E. exists h. split; [done|].
  destruct (Z.eqb_spec (hHeight h) height); [done|]. done.
Qed.

Lemma fetch_height height c sh vals c' : 0 < height ->
  fetchHeaderAndValsAtHeight cfg height c = Done (inr (sh, vals), c') ->
  exists h, shHeader sh = Some h /\ hHeight h = height.
Proof.
  intros Hp E. unfold fetchHeaderAndValsAtHeight in E. step E as h c1 E1. destruct h as [e|h]; [done|].
  step E as v c2 E2. destruct v as [e|v]; [done|]. injection E as <- <- <-.
  eapply validateHeader_height; [done|]. by eapply signedHeaderFromPrimary_valid.
Qed.
Hint Resolve fewer_fetch : fewer.

(** ** Heights in a verification *)

Lemma Verify_heights chainID t tv u uv period now drift lvl e :
  Verify chainID t tv u uv period now drift lvl = Done e ->
  match e with None => True | Some e => isErrNewValSetCantBeTrusted e = true end ->
  exists uh th, shHeader u = Some uh /\ shHeader t = Some th /\ hHeight th < hHeight uh /\
    (e <> None -> hHeight uh <> wrap64 (hHeight th + 1)).
Proof.
  intros E He. unfold Verify, VerifyAdjacent, VerifyNonAdjacent, theHeader in E.
  destruct (shHeader u) as [uh|] eqn:Hu; [|done]. destruct (shHeader t) as [th|] eqn:Ht; [|done]. rewrite !bind_Done in E.
  exists uh, th. split_and!; [done..| |].
  - destruct (negb _) eqn:Eadj in E; rewrite ?Eadj in E; [apply negb_true_iff in Eadj; rewrite Eadj in E|];
      (destruct (HeaderExpired th period now); [by injection E as <-|]);
      apply bind_Done_inv in E as (v & Ev & E); (destruct v; [by injection E as <-|]);
      destruct (verifyNewHeaderAndVals_ok _ _ _ _ _ _ Ev) as (uh' & th' & c & Hu' & Ht' & _ & Hok);
      pose proof (nh_height _ _ _ _ _ _ _ Hok); congruence.
  - intros Hne. destruct (Z.eqb_spec (hHeight uh) (wrap64 (hHeight th + 1))) as [Eq|]; [|done]. exfalso.
    cbn [negb] in E. destruct (HeaderExpired th period now); [by injection E as <-|].
    apply bind_Done_inv in E as (v & Ev & E). destruct v; [by injection E as <-|].
    case_bool_decide; [|by injection E as <-]. apply bind_Done_inv in E as (c & _ & E).
    apply bind_Done_inv in E as ([r ?] & _ & E). destruct r; by injection E as <-.
Qed.

(** ** The cache of bisection

    The heights in the cache decrease from the height of the new header and stay
    above the trusted height. *)
Definition heightOf (p : SignedHeader * ValidatorSet) : option Z := hHeight <$> shHeader p.1.

Record descending (top t : Z) (hs : list Z) : Prop := {
  de_top : hs !! 0%nat = Some top;
  de_sorted : StronglySorted Z.gt hs;
  de_above : Forall (fun h => t < h) hs
}.

Lemma descending_length top t hs : descending top t hs -> Z.of_nat (length hs) <= top - t.
Proof.
  intros [Ht Hs Ha]. destruct hs as [|h hs]; [done|]. injection Ht as ->.
  revert top Hs Ha. induction hs as [|h hs IH]; intros top Hs Ha.
  - apply Forall_cons in Ha as [? _]. simpl. lia.
  - apply StronglySorted_inv in Hs as [Hs Hd]. apply Forall_cons in Ha as [_ Ha]. apply Forall_cons in Hd as [? _].
    specialize (IH h Hs Ha). simpl in *. lia.
Qed.

Lemma StronglySorted_app_gt (hs1 hs2 : list Z) : StronglySorted Z.gt (hs1 ++ hs2) ->
  StronglySorted Z.gt hs1 /\ forall x y, x ∈ hs1 -> y ∈ hs2 -> y < x.
Proof.
  induction hs1 as [|h hs1 IH]; simpl; intros Hs; [split; [constructor|by intros ?? ?%elem_of_nil]|].
  apply StronglySorted_inv in Hs as [Hs Hd]. apply Forall_app in Hd as [Hd1 Hd2]. destruct (IH Hs) as [Hs1 Hx].
  split; [by constructor|]. intros x y [->|Hin]%elem_of_cons Hy; [|by apply Hx].
  rewrite Forall_forall in Hd2. specialize (Hd2 y Hy). lia.
Qed.

(** A verified header in the cache becomes the trusted one. *)
Lemma descending_take top t hs k h : descending top t hs -> hs !! S k = Some h -> descending top h (take (S k) hs).
Proof.
  intros [Ht Hs Ha] Hk. rewrite <- (take_drop (S k) hs) in Hs. apply StronglySorted_app_gt in Hs as [Hs Hx].
  split; [by rewrite lookup_take_lt by lia|done|]. apply Forall_forall. intros x Hin. apply (Hx x h Hin).
  apply list_elem_of_lookup. exists 0%nat. by rewrite lookup_drop, Nat.add_0_r.
Qed.

(** A new pivot goes to the end. *)
Lemma descending_snoc top t hs h p : descending top t hs -> last hs = Some h -> t < p < h -> descending top t (hs ++ [p]).
Proof.
  intros [Ht Hs Ha] Hl Hp. split.
  - rewrite lookup_app_l; [done|]. destruct hs; [done|simpl; lia].
  - clear Ht Ha. induction hs as [|x hs IH]; [done|]. apply StronglySorted_inv in Hs as [Hs Hd]. simpl. constructor.
    + destruct hs as [|y hs]; [repeat constructor|]. by apply IH.
    + apply Forall_app. split; [done|]. apply Forall_singleton. destruct hs as [|y hs]; [injection Hl as ->; lia|].
      rewrite Forall_forall in Hd. cut (h ∈ (y :: hs)); [intros Hin; specialize (Hd h Hin); lia|].
      apply last_Some_elem_of. by rewrite last_cons_cons in Hl.
  - apply Forall_app. split; [done|]. apply Forall_singleton. lia.
Qed.

Lemma pivotHeight_between t h : 0 <= t -> t + 1 < h -> 9 * h <= MaxInt64 -> t < pivotHeight t h < h.
Proof.
  intros Ht Hh Hm. unfold pivotHeight, bisectionNumerator, bisectionDenominator.
  rewrite (wrap64_id (h - t)) by (unfold int64, MinInt64, MaxInt64 in *; lia).
  rewrite (wrap64_id ((h - t) * 9)) by (unfold int64, MinInt64, MaxInt64 in *; lia).
  rewrite Z.quot_div_nonneg by lia.
  assert (1 <= (h - t) * 9 / 16 < h - t) by (split; [apply Z.div_le_lower_bound|apply Z.div_lt_upper_bound]; lia).
  rewrite wrap64_id by (unfold int64, MinInt64, MaxInt64 in *; lia). lia.
Qed.

(** ** Bisection returns *)

Section bisection.
Variables (sched : nat -> nat) (initH : SignedHeader) (initV : ValidatorSet).
Variables (newHeader : SignedHeader) (newVals : ValidatorSet) (now : Time).
Variables (ih nh : Header).
Hypothesis Hih : shHeader initH = Some ih.
Hypothesis Hnh : shHeader newHeader = Some nh.
Hypothesis Hlow : 0 <= hHeight ih < hHeight nh.
Hypothesis Hhigh : 9 * hHeight nh <= MaxInt64.

Notation D := (hHeight nh - hHeight ih).

(** The steps that are left when [w] witnesses are *)
Definition stepsLeft (w : nat) (t : Z) (depth : nat) : Z :=
  Z.of_nat w * (D * D + D + 1) + (hHeight nh - t) * D + D - Z.of_nat depth.

Lemma fewer_steps w w' k : (w' + k <= w)%nat ->
  Z.of_nat w' * (D * D + D + 1) + Z.of_nat k * (D * D + D + 1) <= Z.of_nat w * (D * D + D + 1).
Proof. intros. rewrite <- Z.mul_add_distr_r. apply Z.mul_le_mono_nonneg_r; nia. Qed.

Lemma stepsLeft_accept w w' t t' depth : (w' <= w)%nat -> t < t' -> Z.of_nat depth < D ->
  stepsLeft w' t' 0 < stepsLeft w t depth.
Proof.
  intros Hw Ht Hd. unfold stepsLeft. pose proof (fewer_steps w w' 0 ltac:(lia)).
  pose proof (Z.mul_le_mono_nonneg_r (hHeight nh - t') (hHeight nh - t - 1) D). lia.
Qed.
Lemma stepsLeft_deeper w w' t depth : (w' <= w)%nat -> stepsLeft w' t (S depth) < stepsLeft w t depth.
Proof. intros Hw. unfold stepsLeft. pose proof (fewer_steps w w' 0 ltac:(lia)). lia. Qed.
Lemma stepsLeft_restart w w' t depth : (S w' <= w)%nat -> t <= hHeight nh -> Z.of_nat depth < D ->
  stepsLeft w' (hHeight ih) 0 < stepsLeft w t depth.
Proof.
  intros Hw Ht Hd. unfold stepsLeft. pose proof (fewer_steps w w' 1 ltac:(lia)).
  pose proof (Z.mul_nonneg_nonneg (hHeight nh - t) D). lia.
Qed.

(** The state of the loop *)
Record searching (cache : list (SignedHeader * ValidatorSet)) (depth : nat) (trusted : SignedHeader) (t : Z) : Prop := {
  se_trusted : exists th, shHeader trusted = Some th /\ hHeight th = t;
  se_low : hHeight ih <= t;
  se_depth : (depth < length cache)%nat;
  se_cache : exists hs, heightOf <$> cache = Some <$> hs /\ descending (hHeight nh) t hs
}.

Lemma searching_start : searching [(newHeader, newVals)] 0 initH (hHeight ih).
Proof.
  split; [by exists ih|lia|simpl; lia|]. exists [hHeight nh]. split; [unfold heightOf; simpl; by rewrite Hnh|].
  split; [done|repeat constructor|]. apply Forall_singleton. lia.
Qed.

Lemma searching_bound cache depth trusted t : searching cache depth trusted t ->
  Z.of_nat depth < D /\ t <= hHeight nh.
Proof.
  intros [_ Hl Hd (hs & Hc & De)]. pose proof (descending_length _ _ _ De).
  apply (f_equal length) in Hc. rewrite !length_fmap in Hc. lia.
Qed.

(** The height of an entry *)
Lemma searching_entry cache depth trusted t p h : searching cache depth trusted t ->
  cache !! depth = Some p -> shHeader p.1 = Some h ->
  exists hs, heightOf <$> cache = Some <$> hs /\ descending (hHeight nh) t hs /\ hs !! depth = Some (hHeight h).
Proof.
  intros [_ _ _ (hs & Hc & De)] Hp Hh. exists hs. split_and!; [done..|].
  apply (f_equal (.!! depth)) in Hc. rewrite !list_lookup_fmap, Hp in Hc. simpl in Hc. unfold heightOf in Hc. rewrite Hh in Hc.
  destruct (hs !! depth); [|done]. simpl in Hc. congruence.
Qed.

Lemma searching_accept cache depth trusted t p h : searching cache (S depth) trusted t ->
  cache !! S depth = Some p -> shHeader p.1 = Some h -> t < hHeight h ->
  searching (take (S depth) cache) 0 p.1 (hHeight h).
Proof.
  intros Hs Hp Hh Ht. destruct (searching_entry _ _ _ _ _ _ Hs Hp Hh) as (hs & Hc & De & Hl).
  destruct Hs as [_ Hlo Hd _]. split; [by exists h|lia|rewrite length_take; lia|].
  exists (take (S depth) hs). split; [by rewrite !fmap_take, Hc|]. by eapply descending_take.
Qed.

Lemma searching_deeper cache depth trusted t : searching cache depth trusted t -> (depth <> length cache - 1)%nat ->
  searching cache (S depth) trusted t.
Proof. intros [? ? ? ?] Hn. split; [done..|lia|done]. Qed.

Lemma searching_pivot cache depth trusted t p h pivot ph : searching cache depth trusted t ->
  cache !! depth = Some p -> shHeader p.1 = Some h -> depth = (length cache - 1)%nat ->
  shHeader pivot.1 = Some ph -> t < hHeight ph < hHeight h ->
  searching (cache ++ [pivot]) (S depth) trusted t.
Proof.
  intros Hs Hp Hh Hd Hph Hb. destruct (searching_entry _ _ _ _ _ _ Hs Hp Hh) as (hs & Hc & De & Hl).
  destruct Hs as [? ? ? _]. split; [done..|rewrite length_app; simpl; lia|].
  exists (hs ++ [hHeight ph]). split; [rewrite !fmap_app, Hc; f_equal; unfold heightOf; simpl; by rewrite Hph|].
  eapply descending_snoc; [done| |done]. pose proof (f_equal length Hc) as El. rewrite !length_fmap in El.
  rewrite last_lookup, <- El. by rewrite <- Hl, Hd, Nat.sub_1_r.
Qed.

(** A pivot that the primary sends is strictly between. *)
Lemma searching_fetched cache depth trusted th p h pivot c c' : searching cache depth trusted (hHeight th) ->
  cache !! depth = Some p -> shHeader p.1 = Some h -> depth = (length cache - 1)%nat ->
  hHeight th < hHeight h -> hHeight h <> wrap64 (hHeight th + 1) ->
  fetchHeaderAndValsAtHeight cfg (pivotHeight (hHeight th) (hHeight h)) c = Done (inr pivot, c') ->
  searching (cache ++ [pivot]) (S depth) trusted (hHeight th).
Proof.
  intros Hs Hp Hh Hd Hlt Hadj E. destruct (searching_entry _ _ _ _ _ _ Hs Hp Hh) as (hs & _ & De & Hl).
  pose proof (se_low _ _ _ _ Hs) as Hlo.
  assert (hHeight h <= hHeight nh) as Htop.
  { destruct De as [Ht Hso _]. destruct hs as [|x hs]; [done|]. injection Ht as ->. destruct depth; [by injection Hl as ->; lia|].
    apply StronglySorted_inv in Hso as [_ Hf]. apply (Forall_lookup_1 _ _ depth (hHeight h)) in Hf; [lia|done]. }
  rewrite wrap64_id in Hadj by (unfold int64, MinInt64, MaxInt64 in *; lia).
  pose proof (pivotHeight_between (hHeight th) (hHeight h) ltac:(lia) ltac:(lia) ltac:(lia)) as Hb.
  destruct pivot as [ph pv]. destruct (fetch_height (pivotHeight (hHeight th) (hHeight h)) c ph pv c' ltac:(lia) E) as (x & Ex & Hx).
  eapply (searching_pivot _ _ _ _ p h (ph, pv)); try done. by rewrite Hx.
Qed.

Lemma bisectionLoop_ends fuel c c' cache depth trusted tv t :
  searching cache depth trusted t -> stepsLeft (length (clWitnesses c)) t depth <= Z.of_nat fuel ->
  bisectionLoop cfg sched initH initV newHeader newVals now fuel cache depth trusted tv c <> Done (None, c').
Proof.
  revert c cache depth trusted tv t. induction fuel as [|fuel IH]; intros c cache depth trusted tv t Hs Hm E;
    pose proof (searching_bound _ _ _ _ Hs) as [Hb1 Hb2].
  { unfold stepsLeft in Hm. pose proof (Z.mul_nonneg_nonneg (hHeight nh - t) D ltac:(lia) ltac:(lia)).
    pose proof (fewer_steps (length (clWitnesses c)) 0 0 ltac:(lia)). lia. }
  cbn [bisectionLoop] in E. step E as [sh valSet] c1 E1. apply slift_Done in E1 as [Ei ->].
  apply index_Done in Ei as [_ Ei]. rewrite Nat2Z.id in Ei.
  step E as e c1 E1. apply slift_Done in E1 as [Ev ->]. pose proof (Verify_heights _ _ _ _ _ _ _ _ _ _ Ev) as Hv.
  destruct (se_trusted _ _ _ _ Hs) as (th & Eth & <-). destruct e as [e|].
  - destruct (isErrNewValSetCantBeTrusted e) eqn:Ee; [|destruct (isErrInvalidHeader e); [|done]].
    + destruct (Hv eq_refl) as (uh & th' & Eu & Eth' & Hh & Hadj). assert (th' = th) as -> by congruence.
      destruct (Nat.eqb_spec depth (length cache - 1)) as [Hd|Hd].
      * step E as x c1 E1. apply slift_Done in E1 as [Ex ->]. unfold theHeader in Ex. rewrite Eth in Ex. injection Ex as <-.
        step E as x c1 E1. apply slift_Done in E1 as [Ex ->]. unfold theHeader in Ex. rewrite Eu in Ex. injection Ex as <-.
        step E as r c1 E1. destruct r as [r|pivot]; [done|]. pose proof (fewer_fetch _ _ _ _ E1) as Hw.
        refine (IH _ _ _ _ _ _ (searching_fetched _ _ _ _ _ _ _ _ _ Hs Ei Eu Hd Hh (Hadj ltac:(done)) E1) _ E).
        pose proof (stepsLeft_deeper _ _ (hHeight th) depth Hw). lia.
      * refine (IH _ _ _ _ _ _ (searching_deeper _ _ _ _ Hs Hd) _ E).
        pose proof (stepsLeft_deeper _ _ (hHeight th) depth (le_n (length (clWitnesses c)))). lia.
    + step E as r c1 E1. destruct r; [done|]. apply replacePrimaryProvider_takes in E1.
      step E as x c2 E2. apply slift_Done in E2 as [_ ->]. step E as r c2 E2. apply fewer_fetch in E2.
      destruct r as [r|[ph pv]]; [done|].
      step E as h1 c3 E3. apply slift_Done in E3 as [_ ->]. step E as h2 c3 E3. apply slift_Done in E3 as [_ ->].
      step E as v1 c3 E3. apply slift_Done in E3 as [_ ->]. step E as v2 c3 E3. apply slift_Done in E3 as [_ ->].
      destruct (_ || _); [done|].
      refine (IH _ _ _ _ _ _ searching_start _ E).
      pose proof (stepsLeft_restart (length (clWitnesses c)) (length (clWitnesses c2)) (hHeight th) depth ltac:(lia) Hb2 Hb1). lia.
  - destruct (Hv I) as (uh & th' & Eu & Eth' & Hh & _). assert (th' = th) as -> by congruence.
    destruct depth as [|depth]; [by step E as r c1 E1|].
    refine (IH _ _ _ _ _ _ (searching_accept _ _ _ _ _ _ Hs Ei Eu Hh) _ E).
    pose proof (stepsLeft_accept _ _ (hHeight th) (hHeight uh) (S depth) (le_n (length (clWitnesses c))) Hh Hb1). lia.
Qed.

Lemma bisection_fuel_enough c c' :
  bisectionLoop cfg sched initH initV newHeader newVals now (bisectionFuel (Z.to_nat D) (length (clWitnesses c)))
    [(newHeader, newVals)] 0 initH initV c <> Done (None, c').
Proof.
  apply (bisectionLoop_ends _ _ _ _ _ _ _ _ searching_start). unfold stepsLeft, bisectionFuel.
  rewrite !Nat2Z.inj_mul, !Nat2Z.inj_add, !Nat2Z.inj_mul, !Z2Nat.id by lia. nia.
Qed.

(** More fuel changes only runs that had too little. *)
Definition no_less {A} (m m' : L (option A)) : Prop :=
  forall c, m c = m' c \/ exists c', m c = Done (None, c').

Lemma no_less_refl {A} (m : L (option A)) : no_less m m.
Proof. by left. Qed.
Lemma no_less_then {A B} (m : L A) (f f' : A -> L (option B)) :
  (forall a, no_less (f a) (f' a)) -> no_less (sthen m f) (sthen m f').
Proof. intros Hf c. unfold sthen. destruct (m c) as [[a c1]|]; [apply Hf|by left]. Qed.

Lemma bisectionLoop_more fuel cache depth trusted tv :
  no_less (bisectionLoop cfg sched initH initV newHeader newVals now fuel cache depth trusted tv)
    (bisectionLoop cfg sched initH initV newHeader newVals now (S fuel) cache depth trusted tv).
Proof.
  revert cache depth trusted tv. induction fuel as [|fuel IH]; intros cache depth trusted tv.
  - intros c. right. by exists c.
  - remember (S fuel) as fuel1 eqn:Ef. rewrite Ef at 1. cbn [bisectionLoop].
    repeat first
      [ apply IH | apply no_less_refl | apply no_less_then; intros
      | match goal with
        | |- no_less (match ?x with _ => _ end) _ => destruct x
        | |- no_less (let '(_, _) := ?x in _) _ => destruct x
        end ].
Qed.

Lemma bisectionLoop_le fuel fuel' cache depth trusted tv : (fuel <= fuel')%nat ->
  no_less (bisectionLoop cfg sched initH initV newHeader newVals now fuel cache depth trusted tv)
    (bisectionLoop cfg sched initH initV newHeader newVals now fuel' cache depth trusted tv).
Proof.
  induction 1 as [|fuel' _ IH]; [apply no_less_refl|]. intros c. destruct (IH c) as [->|?]; [apply bisectionLoop_more|by right].
Qed.

End bisection.

End search.

(** ** Claims *)

(** [C14] Bisection returns, whatever the providers answer.  Let [d] be the distance from
    the trusted header to the new one, whose height times nine is in the range of
    [int64], and [w] the number of witnesses: then the loop ends within
    [bisectionFuel d w] turns, more fuel changes nothing, and a request to the
    primary replaces it at most [w] times. *)
Theorem bisection_terminates `{Crypto} (TH : TmHash) (ST : StdTime) (W : Wrappers) (cfg : ClientConfig) (sched : nat -> nat)
    (initH : SignedHeader) (initV : ValidatorSet) (newHeader : SignedHeader) (newVals : ValidatorSet) (now : Time)
    (ih nh : Header) (c : Client) (fuel : nat) :
  shHeader initH = Some ih -> shHeader newHeader = Some nh -> 0 <= hHeight ih < hHeight nh -> 9 * hHeight nh <= MaxInt64 ->
  (bisectionFuel (Z.to_nat (hHeight nh - hHeight ih)) (length (clWitnesses c)) <= fuel)%nat ->
  bisection cfg sched initH initV newHeader newVals now c
    = ended (bisectionLoop cfg sched initH initV newHeader newVals now fuel [(newHeader, newVals)] 0 initH initV) c /\
  (forall c', bisectionLoop cfg sched initH initV newHeader newVals now fuel [(newHeader, newVals)] 0 initH initV c
     <> Done (None, c')) /\
  (forall A (request : Provider -> nat -> Answer A) validate c1 c1',
     fromPrimary cfg request validate (length (clWitnesses c1)) c1 <> Done (None, c1')).
Proof.
  intros Hih Hnh Hlow Hhigh Hf.
  pose proof (bisection_fuel_enough cfg sched initH initV newHeader newVals now ih nh Hih Hnh Hlow Hhigh c) as Hend.
  destruct (bisectionLoop_le cfg sched initH initV newHeader newVals now _ _ [(newHeader, newVals)] 0 initH initV Hf c)
    as [E|[c' E]]; [|by destruct (Hend c')].
  split_and!.
  - unfold bisection, sthen, sget, theHeader, slift. rewrite Hih, Hnh. unfold ended, sthen. by rewrite E.
  - intros c'. rewrite <- E. apply Hend.
  - intros A request validate c1 c1'. apply fromPrimary_ends. lia.
Qed.

Section example.
Local Existing Instances exampleCrypto exampleTmHash exampleStdTime exampleWrappers.

(** A provider with the headers of the example chain, and a client that trusts the
    first one *)
Definition chainNode : Provider := {|
  prChainID := exampleChain;
  prSignedHeader := fun _ k => Answered (Some (chainAt k));
  prValidatorSet := fun _ _ => Answered (Some lightSet)
|}.
Definition chainConfig : ClientConfig := mkClientConfig exampleChain 1000 skipping DefaultTrustLevel 2 1 0 (fun _ => true).
Definition chainClient : Client :=
  mkClient chainNode [chainNode; chainNode] emptyStore (Some (chainAt 1)) (Some lightSet) 0 [].

Lemma bisection_terminates_witness : ~ exists c',
  bisectionLoop chainConfig id (chainAt 1) lightSet (chainAt 5) lightSet 60 63 [(chainAt 5, lightSet)] 0 (chainAt 1) lightSet chainClient
    = Done (None, c').
Proof.
  intros [c' E]. revert c' E.
  eapply (bisection_terminates exampleTmHash exampleStdTime exampleWrappers chainConfig id (chainAt 1) lightSet (chainAt 5) lightSet 60).
  - reflexivity.
  - reflexivity.
  - split; [discriminate|reflexivity].
  - discriminate.
  - apply Nat.leb_le. reflexivity.
Defined.

End example.
