(* ===== verification/LightSafety.v ===== *)
(** * What the light client trusts

    A header that bisection or sequential verification accepts is linked to the
    trusted one by verified steps.  If less than a third of the power of every
    validator set is faulty during the trusting period, such a header is the one of
    the chain.  Witnesses that have another header are noticed. *)

From Stdlib Require Import ZArith Lia.
From S2P Require Import Prelude StateMonad SafeMath Proto BitArray Validator ValidatorSet ValidatorSetUpdate BlockTypes.
From S2P Require Import SignBytes Merkle Header ValidatorHash CommitVerify LightVerifier LightStore LightClient LightSearch.
From stdpp Require Import base gmap list option strings numbers sorting relations.

Local Open Scope Z_scope.

Section safety.
Context `{Crypto} {TH : TmHash} {ST : StdTime} {W : Wrappers}.
Variable cfg : ClientConfig.

(** ** Answers

    [Qh] and [Qv] hold of the headers and validator sets that providers send. *)

Section answers.
Variables (Qh : SignedHeader -> Prop) (Qv : ValidatorSet -> Prop).

Definition provider_ok (p : Provider) : Prop :=
  (forall k h sh, prSignedHeader p k h = Answered (Some sh) -> Qh sh) /\
  (forall k h vs, prValidatorSet p k h = Answered (Some vs) -> Qv vs).

Definition client_ok (c : Client) : Prop := provider_ok (clPrimary c) /\ Forall provider_ok (clWitnesses c).

(** What a request leaves as it is *)
Definition same_trust (c c' : Client) : Prop :=
  clStore c' = clStore c /\ clLatestHeader c' = clLatestHeader c /\ clLatestVals c' = clLatestVals c.

#[local] Instance same_trust_preorder : PreOrder same_trust.
Proof. split; [by intros c|]. intros c1 c2 c3 (? & ? & ?) (? & ? & ?). repeat split; congruence. Qed.

Definition asks {A} (m : L A) (Post : A -> Prop) : Prop :=
  forall c a c', client_ok c -> m c = Done (a, c') -> client_ok c' /\ same_trust c c' /\ Post a.

Lemma asks_ret {A} (a : A) (Post : A -> Prop) : Post a -> asks (sret a) Post.
Proof. by intros ? c b c' ? [= <- <-]. Qed.
Lemma asks_panic {A} why (Post : A -> Prop) : asks (spanic why) Post.
Proof. by intros c b c' ? [=]. Qed.
Lemma asks_lift {A} (m : outcome A) (Post : A -> Prop) : (forall a, m = Done a -> Post a) -> asks (slift m) Post.
Proof. by intros Hp c b c' ? [E ->]%slift_Done; split_and!; [| |apply Hp]. Qed.
Lemma asks_get (Post : Client -> Prop) : (forall c, client_ok c -> Post c) -> asks sget Post.
Proof. by intros Hp c b c' ? [= <- <-]; split_and!; [| |apply Hp]. Qed.
Lemma asks_nextCall (Post : nat -> Prop) : (forall k, Post k) -> asks nextCall Post.
Proof. by intros Hp c b c' ? [= <- <-]; split_and!; [| |apply Hp]. Qed.
Lemma asks_report h1 h2 (Post : unit -> Prop) : Post tt -> asks (report h1 h2) Post.
Proof. by intros Hp c b c' ? [= <- <-]. Qed.

Lemma asks_then {A B} (m : L A) (f : A -> L B) (Mid : A -> Prop) (Post : B -> Prop) :
  asks m Mid -> (forall a, Mid a -> asks (f a) Post) -> asks (sthen m f) Post.
Proof.
  intros Hm Hf c b c' Hc E. step E as a c1 E1. destruct (Hm _ _ _ Hc E1) as (Hc1 & Hs1 & Ha).
  destruct (Hf _ Ha _ _ _ Hc1 E) as (Hc2 & Hs2 & Hb). split_and!; [done|by etrans|done].
Qed.

Lemma asks_any {A B} (m : L A) (f : A -> L B) (Post : B -> Prop) :
  asks m (fun _ => True) -> (forall a, asks (f a) Post) -> asks (sthen m f) Post.
Proof. intros Hm Hf. eapply asks_then; [exact Hm|]. intros a _. apply Hf. Qed.

Lemma asks_weaken {A} (m : L A) (P Q : A -> Prop) : asks m P -> (forall a, P a -> Q a) -> asks m Q.
Proof. intros Hm Hi c a c' Hc E. destruct (Hm _ _ _ Hc E) as (? & ? & ?). auto. Qed.

Lemma asks_replacePrimaryProvider : asks replacePrimaryProvider (fun _ => True).
Proof.
  intros c e c' [Hp Hw] E. unfold replacePrimaryProvider, sthen, sget, setProviders, smodify, sret in E.
  destruct (clWitnesses c) as [|w [|w' ws]] eqn:Ew; injection E as <- <-;
    [split_and!; [split; [done|by rewrite Ew]|done|done]..|].
  apply Forall_cons in Hw as [Hw Hws]. by split_and!.
Qed.

Section request.
Context {A : Type} (request : Provider -> nat -> Answer A) (Q : A -> Prop).
Hypothesis Hrequest : forall p k a, provider_ok p -> request p k = Answered (Some a) -> Q a.

Lemma asks_tryPrimary n :
  asks (tryPrimary request n) (fun r => forall a, r = Some (Answered (Some a)) -> Q a).
Proof.
  induction n as [|n IH]; simpl; [by apply asks_ret|].
  apply (asks_then _ _ client_ok); [by apply asks_get|]. intros c [Hc _]. apply asks_any; [by apply asks_nextCall|].
  intros k. destruct (request (clPrimary c) k) as [a| |e] eqn:Er; [|by apply asks_ret|exact IH].
  apply asks_ret. intros a' [= ->]. by eapply Hrequest.
Qed.

Lemma asks_fromPrimary validate n :
  asks (fromPrimary cfg request validate n) (fun r => forall a, r = Some (inr (Some a)) -> Q a).
Proof.
  induction n as [|n IH]; simpl; (eapply asks_then; [apply asks_tryPrimary|]); intros [[a| |e]|] Ha;
    try (by apply asks_ret);
    try (apply asks_any; [apply asks_replacePrimaryProvider|]; intros [e'|]; [by apply asks_ret|first [by apply asks_ret|exact IH]]);
    (apply asks_any; [by apply asks_lift|]; intros [e|];
      [apply asks_any; [apply asks_replacePrimaryProvider|]; intros [e'|]; [by apply asks_ret|first [by apply asks_ret|exact IH]]|]).
  all: apply asks_ret; intros a' [= ->]; by apply Ha.
Qed.

End request.

Lemma asks_ended {A} (m : L (option A)) (Post : A -> Prop) :
  asks m (fun r => forall a, r = Some a -> Post a) -> asks (ended m) Post.
Proof. intros Hm. eapply asks_then; [exact Hm|]. intros [a|] Ha; [apply asks_ret; by apply Ha|apply asks_panic]. Qed.

Lemma asks_signedHeader height : asks (signedHeaderFromPrimary cfg height) (fun r => forall sh, r = inr sh -> Qh sh).
Proof.
  apply asks_any; [by apply asks_get|]. intros c.
  apply (asks_then _ _ (fun r => forall sh, r = inr (Some sh) -> Qh sh)).
  - apply asks_ended. eapply asks_weaken; [apply (asks_fromPrimary _ Qh); by intros p k a [Hh _]; apply Hh|].
    intros r Hr a -> sh ->. by apply Hr.
  - intros [e|[h|]] Hr; [by apply asks_ret| |by intros ????].
    apply asks_ret. intros sh [= <-]. by apply Hr.
Qed.

Lemma asks_validatorSet height : asks (validatorSetFromPrimary cfg height) (fun r => forall vs, r = inr vs -> Qv vs).
Proof.
  apply asks_any; [by apply asks_get|]. intros c.
  apply (asks_then _ _ (fun r => forall vs, r = inr (Some vs) -> Qv vs)).
  - apply asks_ended. eapply asks_weaken; [apply (asks_fromPrimary _ Qv); by intros p k a [_ Hv]; apply Hv|].
    intros r Hr a -> vs ->. by apply Hr.
  - intros [e|[v|]] Hr; [by apply asks_ret| |by intros ????].
    apply asks_ret. intros vs [= <-]. by apply Hr.
Qed.

Lemma asks_fetch height :
  asks (fetchHeaderAndValsAtHeight cfg height) (fun r => forall sh vs, r = inr (sh, vs) -> Qh sh /\ Qv vs).
Proof.
  eapply asks_then; [apply asks_signedHeader|]. intros [e|sh] Hs; [by apply asks_ret|].
  eapply asks_then; [apply asks_validatorSet|]. intros [e|vs] Hv; [by apply asks_ret|].
  apply asks_ret. intros ?? [= <- <-]. by split; [apply Hs|apply Hv].
Qed.

Lemma asks_askWitnesses h vals ws i : asks (askWitnesses cfg h vals ws i) (fun _ => True).
Proof.
  revert i. induction ws as [|w ws IH]; intros i; simpl; [by apply asks_ret|].
  apply asks_any; [by apply asks_nextCall|]. intros k. apply asks_any; [by apply asks_lift|]. intros r.
  apply asks_any; [apply IH|]. intros rs. by apply asks_ret.
Qed.

Lemma asks_handleResults h rs matched conflict toRemove :
  asks (handleResults h rs matched conflict toRemove) (fun _ => True).
Proof.
  revert matched conflict toRemove. induction rs as [|[|h2|[] i] rs IH]; intros; simpl;
    [by apply asks_ret|apply IH| |apply IH..]. apply asks_any; [by apply asks_report|intros; apply IH].
Qed.

Lemma asks_removeWitness idx : asks (removeWitness idx) (fun _ => True).
Proof.
  intros c u c' [Hp Hw] E. unfold removeWitness, sthen, sget in E.
  destruct (clWitnesses c) as [|w [|w' ws]]; [done|injection E as <- <-; by split_and!; [split; [|constructor]|..]|].
  unfold slift in E. destruct (index _ _) as [lastW|] eqn:Ei; [|done]. destruct (set_index _ _ _) as [ws'|] eqn:Es; [|done].
  injection E as <- <-. split_and!; [split; [done|]|done..]. cbn [clWitnesses]. apply Forall_take.
  apply index_Done in Ei as [_ Ei]. apply set_index_Done in Es as [_ ->].
  apply Forall_insert; [done|]. by eapply Forall_lookup_1.
Qed.

Lemma asks_removeWitnesses idxs : asks (removeWitnesses idxs) (fun _ => True).
Proof.
  induction idxs as [|i idxs IH]; simpl; [by apply asks_ret|]. apply asks_any; [apply asks_removeWitness|intros; apply IH].
Qed.

Lemma asks_compareLoop sched h n matched conflict : asks (compareLoop cfg sched h n matched conflict) (fun _ => True).
Proof.
  revert matched conflict. induction n as [|n IH]; intros; simpl; [by apply asks_ret|].
  apply asks_any; [by apply asks_get|]. intros c. destruct (_ =? _)%nat; [by apply asks_ret|].
  apply asks_any; [apply asks_askWitnesses|]. intros queues. apply asks_any; [apply asks_handleResults|].
  intros [[m cf] rm]. apply asks_any; [apply asks_removeWitnesses|]. intros _.
  destruct cf; [by apply asks_ret|]. destruct m; [by apply asks_ret|apply IH].
Qed.

(** ** Paths of verified headers *)

Section path.
Variable now : Time.

Notation answer := (SignedHeader * ValidatorSet)%type.

Definition answer_ok (p : answer) : Prop := Qh p.1 /\ Qv p.2.

Definition verified (p q : answer) : Prop :=
  Verify (lcChainID cfg) p.1 p.2 q.1 q.2 (lcTrustingPeriod cfg) now (lcMaxClockDrift cfg) (lcTrustLevel cfg) = Done None /\
  answer_ok q.

Lemma asks_bisectionLoop sched initH initV newHeader newVals fuel cache depth trusted tv :
  answer_ok (newHeader, newVals) -> cache !! 0%nat = Some (newHeader, newVals) -> Forall answer_ok cache ->
  rtc verified (initH, initV) (trusted, tv) ->
  asks (bisectionLoop cfg sched initH initV newHeader newVals now fuel cache depth trusted tv)
    (fun r => r = Some None -> tc verified (initH, initV) (newHeader, newVals)).
Proof.
  intros Hnew. revert cache depth trusted tv. induction fuel as [|fuel IH]; intros cache depth trusted tv H0 Hok Hp; [by apply asks_ret|].
  cbn [bisectionLoop]. apply (asks_then _ _ (fun p => cache !! depth = Some p)).
  { apply asks_lift. intros p [_ Ei]%index_Done. by rewrite Nat2Z.id in Ei. }
  intros [sh valSet] Hc. assert (answer_ok (sh, valSet)) as Hsh by (by eapply Forall_lookup_1).
  eapply asks_then; [apply asks_lift; intros e E; exact E|]. intros [e|] Ev.
  - destruct (isErrNewValSetCantBeTrusted e); [|destruct (isErrInvalidHeader e); [|by apply asks_ret]].
    + destruct (_ =? _)%nat; [|by apply IH]. do 2 (apply asks_any; [by apply asks_lift|]; intros ?).
      eapply asks_then; [apply asks_fetch|]. intros [e'|[ph pv]] Ha; [by apply asks_ret|].
      apply IH; [by rewrite lookup_app_l by (eapply lookup_lt_Some; exact H0)| |done].
      apply Forall_app. split; [done|]. apply Forall_singleton. by apply Ha.
    + apply asks_any; [apply asks_replacePrimaryProvider|]. intros [e'|]; [by apply asks_ret|].
      apply asks_any; [by apply asks_lift|]. intros nh. eapply asks_then; [apply asks_fetch|].
      intros [e'|[ph pv]] Ha; [by apply asks_ret|]. do 4 (apply asks_any; [by apply asks_lift|]; intros ?).
      destruct (_ || _); [by apply asks_ret|]. apply IH; [done|by apply Forall_singleton|done].
  - assert (rtc verified (initH, initV) (sh, valSet)) as Hp' by (eapply rtc_r; [exact Hp|by split]).
    destruct depth as [|depth]; cbn [Nat.eqb].
    + apply asks_any; [apply asks_compareLoop|]. intros [e|]; apply asks_ret; [done|]. intros _.
      rewrite H0 in Hc. injection Hc as <- <-. eapply tc_rtc_l; [exact Hp|]. apply tc_once. by split.
    + apply IH; [by rewrite lookup_take_lt by lia|by apply Forall_take|done].
Qed.

(** In a step to the next height the trusted validators do not matter. *)
Lemma VerifyAdjacent_verified t tv u uv :
  VerifyAdjacent (lcChainID cfg) t u uv (lcTrustingPeriod cfg) now (lcMaxClockDrift cfg) = Done None ->
  answer_ok (u, uv) -> verified (t, tv) (u, uv).
Proof.
  intros E Ho. split; [|done]. unfold Verify. simpl. pose proof E as E'. unfold VerifyAdjacent in E'.
  apply bind_Done_inv in E' as (uh & Eu & E'). apply bind_Done_inv in E' as (th & Et & E').
  rewrite Eu, Et, !bind_Done. destruct (hHeight uh =? wrap64 (hHeight th + 1)); [done|]. by simpl in E'.
Qed.

Lemma asks_sequenceLoop fuel initial newHeader newVals newHeight trusted tv height :
  answer_ok (newHeader, newVals) -> rtc verified initial (trusted, tv) -> newHeight < MaxInt64 -> 0 <= height ->
  (newHeight < height -> tc verified initial (newHeader, newVals)) ->
  asks (sequenceLoop cfg fuel newHeader newVals newHeight now trusted height)
    (fun r => r = Some None -> tc verified initial (newHeader, newVals)).
Proof.
  intros Hnew. revert trusted tv height. induction fuel as [|fuel IH]; intros trusted tv height Hp Hmax H0 Hend; cbn [sequenceLoop];
    (destruct (Z.ltb_spec newHeight height) as [Hlt|Hge]; [apply asks_ret; intros _; by apply Hend|]); [by apply asks_ret|].
  apply (asks_then _ _ (fun r => forall p, r = inr p -> answer_ok p /\ (height = newHeight -> p = (newHeader, newVals)))).
  { destruct (Z.eqb_spec height newHeight); [apply asks_ret; by intros p [= <-]|].
    eapply asks_weaken; [apply asks_fetch|]. intros r Hr [sh vs] ->. split; [by apply Hr|done]. }
  intros [e|[ih iv]] Hi; [by apply asks_ret|]. destruct (Hi _ eq_refl) as [Hio Hieq].
  eapply asks_then; [apply asks_lift; intros e E; exact E|]. intros [e|] Ev.
  - destruct (isErrInvalidHeader e); [|by apply asks_ret]. apply asks_any; [apply asks_replacePrimaryProvider|].
    intros [e'|]; [by apply asks_ret|]. by eapply IH.
  - pose proof (VerifyAdjacent_verified _ tv _ _ Ev Hio) as Hv.
    rewrite wrap64_id by (unfold int64, MinInt64, MaxInt64 in *; lia).
    eapply (IH ih iv); [by eapply rtc_r|done|lia|]. intros Hlt.
    rewrite <- Hieq by lia. eapply tc_rtc_l; [exact Hp|by apply tc_once].
Qed.

(** ** Forward verification *)

Lemma asks_verifyForward sched c0 latest latestVals newHeader newVals nh lh :
  clLatestHeader c0 = Some latest -> clLatestVals c0 = Some latestVals -> answer_ok (newHeader, newVals) ->
  shHeader latest = Some lh -> shHeader newHeader = Some nh -> 0 <= hHeight lh < hHeight nh -> hHeight nh < MaxInt64 ->
  asks (verifyForward cfg sched c0 newHeader newVals now)
    (fun r => r = None -> tc verified (latest, latestVals) (newHeader, newVals)).
Proof.
  intros El Ev Hnew Elh Enh Hlt Hmax. unfold verifyForward. rewrite El, Ev. cbn [derefOption].
  apply (asks_then _ _ (fun l => l = latest)); [by apply asks_ret|]. intros _ ->. destruct (lcMode cfg).
  - unfold sequence. apply asks_any; [by apply asks_get|]. intros c.
    apply (asks_then _ _ (fun h => h = lh)); [apply asks_lift; unfold theHeader; rewrite Elh; by intros ? [= <-]|]. intros _ ->.
    apply (asks_then _ _ (fun h => h = nh)); [apply asks_lift; unfold theHeader; rewrite Enh; by intros ? [= <-]|]. intros _ ->.
    apply asks_ended. rewrite wrap64_id by (unfold int64, MinInt64, MaxInt64 in *; lia).
    eapply asks_weaken; [apply (asks_sequenceLoop _ (latest, latestVals) _ _ _ _ latestVals); [done..|lia|lia|lia]|].
    intros r Hr a -> ->. by apply Hr.
  - apply (asks_then _ _ (fun v => v = latestVals)); [by apply asks_ret|]. intros _ ->.
    unfold bisection. apply asks_any; [by apply asks_get|]. intros c.
    apply asks_any; [by apply asks_lift|]; intros h1. apply asks_any; [by apply asks_lift|]; intros h2.
    apply asks_ended. eapply asks_weaken; [apply asks_bisectionLoop; [done|done|by apply Forall_singleton|done]|].
    intros r Hr a -> ->. by apply Hr.
Qed.

(** What a successful update leaves *)
Lemma updateTrusted_latest h vals c c' hh latest lh :
  shHeader h = Some hh -> clLatestHeader c = Some latest -> shHeader latest = Some lh -> hHeight lh < hHeight hh ->
  updateTrustedHeaderAndVals cfg h vals c = Done (None, c') ->
  clLatestHeader c' = Some h /\ clLatestVals c' = Some vals /\ clPrimary c' = clPrimary c /\ clWitnesses c' = clWitnesses c /\
  ValidatorSet_Hash vals = Done (hValidatorsHash hh).
Proof.
  intros Eh El Elh Hlt E. unfold updateTrustedHeaderAndVals in E. step E as x c1 E1. apply slift_Done in E1 as [Ex ->].
  unfold theHeader in Ex. rewrite Eh in Ex. injection Ex as <-. step E as vh c1 E1. apply slift_Done in E1 as [Evh ->].
  case_bool_decide as Eq; [|done]. cbn [negb] in E. step E as x c1 E1. injection E1 as <- <-.
  step E as [e st] c1 E1. apply slift_Done in E1 as [_ ->]. step E as u c1 E1. injection E1 as _ <-. destruct e; [done|].
  step E as u1 c2 E2. rewrite El in E. unfold theHeader in E. rewrite Elh in E. cbn in E.
  destruct (Z.ltb_spec (hHeight lh) (hHeight hh)); [|lia]. injection E as <-.
  destruct (0 <? lcPruningSize cfg); injection E2 as _ <-; rewrite Evh, Eq; by split_and!.
Qed.

Lemma verifyHeader_has_header sched newHeader newVals c e c' :
  verifyHeader cfg sched newHeader newVals now c = Done (e, c') -> exists nh, shHeader newHeader = Some nh.
Proof.
  intros E. unfold verifyHeader in E. do 5 (apply sthen_Done in E as (? & ? & _ & E)). step E as nh c1 E1.
  apply slift_Done in E1 as [E1 _]. unfold theHeader in E1. destruct (shHeader newHeader); [by eexists|done].
Qed.

Lemma verifyHeader_forward sched newHeader newVals c c' latest latestVals nh lh :
  client_ok c -> clLatestHeader c = Some latest -> clLatestVals c = Some latestVals -> answer_ok (newHeader, newVals) ->
  shHeader latest = Some lh -> shHeader newHeader = Some nh -> 0 <= hHeight lh < hHeight nh -> hHeight nh < MaxInt64 ->
  verifyHeader cfg sched newHeader newVals now c = Done (None, c') ->
  tc verified (latest, latestVals) (newHeader, newVals) /\ client_ok c' /\
  clLatestHeader c' = Some newHeader /\ clLatestVals c' = Some newVals.
Proof.
  intros Hc El Ev Hnew Elh Enh Hlt Hmax E. unfold verifyHeader in E. step E as x c1 E1. injection E1 as <- <-.
  step E as x c1 E1. apply slift_Done in E1 as [_ ->]. step E as x1 c1 E1. apply slift_Done in E1 as [_ ->].
  rewrite El in E. step E as x2 c1 E1. injection E1 as <- <-.
  step E as x3 c1 E1. apply slift_Done in E1 as [Ex ->]. unfold theHeader in Ex. rewrite Elh in Ex. injection Ex as <-.
  step E as x3 c1 E1. apply slift_Done in E1 as [Ex ->]. unfold theHeader in Ex. rewrite Enh in Ex. injection Ex as <-.
  step E as e c1 E1. destruct (Z.leb_spec (hHeight lh) (hHeight nh)); [|lia]. destruct e; [done|].
  destruct (asks_verifyForward sched c latest latestVals newHeader newVals nh lh El Ev Hnew Elh Enh Hlt Hmax _ _ _ Hc E1)
    as ([Hp1 Hw1] & (_ & El1 & _) & Hpath).
  destruct (updateTrusted_latest newHeader newVals c1 c' nh latest lh) as (? & ? & Ep & Ew & _);
    [done|by rewrite El1|done|lia|done|].
  split_and!; [by apply Hpath|split; by rewrite ?Ep, ?Ew|done|done].
Qed.

End path.

End answers.
End safety.
