(* ===== verification/LightBackwards.v ===== *)
(** * Backwards verification

    backwards of light/client.go walks from a trusted header to the height of an
    older one along the hashes of the previous blocks, but it does not compare the
    older header with the one at which it arrives. *)

From Stdlib Require Import ZArith Lia.
From S2P Require Import Prelude StateMonad SafeMath Proto BitArray Validator ValidatorSet ValidatorSetUpdate BlockTypes.
From S2P Require Import SignBytes Merkle Header ValidatorHash CommitVerify LightVerifier LightStore LightClient LightSearch.
From stdpp Require Import base gmap list option strings numbers sorting relations.

Local Open Scope Z_scope.

(** Only the height of the older header matters. *)
Lemma backwards_same_height `{Crypto} {TH : TmHash} {ST : StdTime} {W : Wrappers} cfg trusted h h' hh hh' now c :
  shHeader h = Some hh -> shHeader h' = Some hh' -> hHeight hh = hHeight hh' ->
  backwards cfg trusted h now c = backwards cfg trusted h' now c.
Proof.
  intros Eh Eh' Ehh. unfold backwards, sthen. destruct (slift (theHeader trusted) c) as [[ih c1]|]; [|done].
  destruct (HeaderExpired ih (lcTrustingPeriod cfg) now); [done|]. unfold theHeader. rewrite Eh, Eh'. simpl. by rewrite Ehh.
Qed.

(** ** A chain of linked headers *)

Section example.
Local Existing Instances exampleCrypto exampleTmHash exampleStdTime exampleWrappers.

Fixpoint linkedHeader (n : nat) : Header :=
  match n with
  | O => chainHeader lightSet 1 10 zeroBlockID
  | S n' => chainHeader lightSet (Z.of_nat (S n)) (10 * Z.of_nat (S n)) (headerID (linkedHeader n'))
  end.
Definition linkedAt (k : Z) : SignedHeader := signHeader (linkedHeader (Z.to_nat (k - 1))) (Validators lightSet).

Definition linkedNode : Provider := {|
  prChainID := exampleChain;
  prSignedHeader := fun _ k => if (1 <=? k) && (k <=? 3) then Answered (Some (linkedAt k)) else NotFound;
  prValidatorSet := fun _ _ => Answered (Some lightSet)
|}.

(** A client that trusts the header of height 3 *)
Definition linkedStore : LightStore :=
  match SaveSignedHeaderAndValidatorSet (linkedAt 3) lightSet emptyStore with Done (_, s) => s | Panic _ => emptyStore end.
Definition linkedClient : Client :=
  mkClient linkedNode [linkedNode; linkedNode] linkedStore (Some (linkedAt 3)) (Some lightSet) 0 [].

(** A header of height 1 with another application hash, whose signatures are not
    those of the validators *)
Definition forgedHeader : Header :=
  let h := chainHeader lightSet 1 10 zeroBlockID in
  mkHeader (hVersion h) (hChainID h) (hHeight h) (hTime h) (hLastBlockID h) (hLastCommitHash h) (hDataHash h)
    (hValidatorsHash h) (hNextValidatorsHash h) (hConsensusHash h) (exampleHash 9) (hResultsHash h) (hEvidenceHash h)
    (hProposerAddress h).
Definition forgedCommit : Commit :=
  NewCommit 1 0 (headerID forgedHeader) ((fun v => NewCommitSigForBlock [byte_of_Z 0] (Address v) 10) <$> Validators lightSet).
Definition forged : SignedHeader := mkSignedHeader (Some forgedHeader) (Some forgedCommit).

Lemma forged_unsigned v : v ∈ Validators lightSet -> ~ signedFor exampleChain forgedCommit v.
Proof.
  intros Hv (i & cs & Hi & _ & E).
  assert (i < 3)%nat as Hlt by (by apply lookup_lt_Some in Hi).
  destruct i as [|[|[|i]]]; [injection Hi as <-..|lia];
    repeat (apply elem_of_cons in Hv as [->|Hv]; [by vm_compute in E|]); by apply elem_of_nil in Hv.
Qed.

Definition storedHash (r : outcome (option ClientError * Client)) : option bytes :=
  match r with
  | Done (None, c) => match store_SignedHeader 1 (clStore c) with
                      | Done (inr sh) => match headerHash sh with Done h => Some h | Panic _ => None end
                      | _ => None
                      end
  | _ => None
  end.

Lemma storedHash_inv r hash : storedHash r = Some hash ->
  exists c sh, r = Done (None, c) /\ store_SignedHeader 1 (clStore c) = Done (inr sh) /\ headerHash sh = Done hash.
Proof.
  destruct r as [[[e|] c]|]; try done. simpl. destruct (store_SignedHeader 1 (clStore c)) as [[e|sh]|] eqn:Es; try done.
  destruct (headerHash sh) as [h|] eqn:Eh; [|done]. intros [= <-]. by exists c, sh.
Qed.

Definition forgedHash : bytes := bidHash (headerID forgedHeader).

Lemma forged_stored : storedHash (VerifyHeader chainConfig id forged lightSet 60 linkedClient) = Some forgedHash.
Proof. vm_compute. reflexivity. Qed.

(** ** Claims *)


End example.
