(* ===== verification/LightWitness.v ===== *)
(** * The comparison with the witnesses

    compareNewHeaderWithWitnesses of light/client.go.  A goroutine that finds a
    conflicting header sends a second message, so that not all messages are read;
    a conflict is noticed all the same, in every order of arrival. *)

From Stdlib Require Import ZArith Lia.
From S2P Require Import Prelude StateMonad SafeMath Proto BitArray Validator ValidatorSet ValidatorSetUpdate BlockTypes.
From S2P Require Import SignBytes Merkle Header ValidatorHash CommitVerify LightVerifier LightStore LightClient LightSearch LightSafety.
From stdpp Require Import base gmap sets list option strings numbers sorting relations.

Local Open Scope Z_scope.

Lemma insert_split {A} (l : list A) i x y : l !! i = Some x ->
  exists l1 l2, l = l1 ++ x :: l2 /\ <[i := y]> l = l1 ++ y :: l2.
Proof.
  intros (l1 & l2 & -> & ->)%list_elem_of_split_length. exists l1, l2. split; [done|].
  by rewrite insert_app_r_alt, Nat.sub_diag by lia.
Qed.

(** ** The order of arrival *)

Definition isConflicting (r : witnessResult) : bool := match r with Conflicting _ => true | _ => false end.

(** A queue with both messages of a conflict, and one with a single other message *)
Definition fork (q : list witnessResult) : Prop := exists alt, q = [Conflicting alt; HeaderMatched].
Definition plain (q : list witnessResult) : Prop := exists r, q = [r] /\ isConflicting r = false.

(** The plain queues *)
Definition plains (queues : list (list witnessResult)) : nat :=
  length (filter (fun q => length q = 1%nat) queues).

Lemma plains_app qs1 qs2 : plains (qs1 ++ qs2) = (plains qs1 + plains qs2)%nat.
Proof. unfold plains. by rewrite filter_app, length_app. Qed.

Lemma plains_cons q qs : plains (q :: qs) = ((if decide (length q = 1%nat) then 1 else 0) + plains qs)%nat.
Proof. unfold plains. rewrite filter_cons. by case_decide. Qed.

Lemma plains_ready qs : (plains (filter (fun q => q <> []) qs) <= plains qs)%nat.
Proof.
  induction qs as [|q qs IH]; [done|]. rewrite filter_cons, (plains_cons q qs). case_decide; rewrite ?plains_cons; lia.
Qed.

(** The plain queues are fewer than the messages read, so a conflict is read. *)
Lemma arrivals_conflict sched n queues :
  Forall (fun q => q = [] \/ plain q \/ fork q) queues -> Exists fork queues -> (plains queues < n)%nat ->
  exists alt, Conflicting alt ∈ arrivals sched n queues.
Proof.
  revert queues. induction n as [|n IH]; intros queues Hall Hex Hlt; [lia|]. simpl.
  set (ready := filter (fun q => q <> []) queues).
  assert (Exists fork ready) as Hex'.
  { apply Exists_exists in Hex as (q & Hq & Hf). apply Exists_exists. exists q. split; [|done].
    apply list_elem_of_filter. split; [by destruct Hf as [? ->]|done]. }
  assert (Forall (fun q => q = [] \/ plain q \/ fork q) ready) as Hall'.
  { apply Forall_forall. intros q [_ Hq]%list_elem_of_filter. by eapply Forall_forall in Hall. }
  assert (plains ready <= plains queues)%nat as Hle.
  { apply plains_ready. }
  destruct (lookup_lt_is_Some_2 ready (sched (S n) mod length ready)) as [q Hq].
  { apply Nat.mod_upper_bound. by destruct ready; [apply Exists_nil in Hex'|]. }
  rewrite Hq. assert (q <> []) as Hne by (apply list_elem_of_lookup_2, list_elem_of_filter in Hq; tauto).
  destruct (Forall_lookup_1 _ _ _ _ Hall' Hq) as [->|[(r & -> & Hr)|(alt & ->)]]; [done| |by exists alt; constructor].
  destruct (insert_split _ _ _ [] Hq) as (l1 & l2 & E & Ei). rewrite Ei. rewrite E in Hex', Hall', Hle.
  destruct (IH (l1 ++ [] :: l2)) as (alt & Halt).
  - apply Forall_app in Hall' as [? Hall']. apply Forall_cons in Hall' as [_ ?]. apply Forall_app. split; [done|]. by constructor; [left|].
  - apply Exists_app in Hex' as [?|Hex']; apply Exists_app; [by left|]. right.
    apply Exists_cons in Hex' as [[? ?]|?]; [done|by apply Exists_cons; right].
  - rewrite plains_app, plains_cons in *. simpl in *. lia.
  - exists alt. by apply list_elem_of_further.
Qed.

(** Every message read was sent. *)
Lemma arrivals_sent sched n queues r : r ∈ arrivals sched n queues -> exists q, q ∈ queues /\ r ∈ q.
Proof.
  revert queues. induction n as [|n IH]; intros queues Hr; simpl in Hr; [by apply elem_of_nil in Hr|].
  set (ready := filter (fun q => q <> []) queues) in *.
  destruct (ready !! _) as [[|r' q]|] eqn:Hq; [by apply elem_of_nil in Hr| |by apply elem_of_nil in Hr].
  assert ((r' :: q) ∈ queues) as Hin by (apply list_elem_of_lookup_2, list_elem_of_filter in Hq; tauto).
  apply elem_of_cons in Hr as [->|Hr]; [exists (r' :: q); split; [done|by constructor]|].
  destruct (insert_split _ _ _ q Hq) as (l1 & l2 & E & Ei). rewrite Ei in Hr.
  assert (forall q', q' ∈ l1 ++ l2 -> q' ∈ queues) as Hsub.
  { intros q' Hq'. cut (q' ∈ ready); [intros [_ ?]%list_elem_of_filter; done|]. rewrite E. set_solver. }
  destruct (IH _ Hr) as (q' & Hq' & Hr'). rewrite elem_of_app, elem_of_cons in Hq'. destruct Hq' as [Hq'|[->|Hq']].
  - exists q'. split; [apply Hsub; set_solver|done].
  - exists (r' :: q). split; [done|by constructor].
  - exists q'. split; [apply Hsub; set_solver|done].
Qed.

(** ** One round *)

Section compare.
Context `{Crypto} {TH : TmHash} {ST : StdTime} {W : Wrappers}.
Variable cfg : ClientConfig.
Variables (h : SignedHeader) (hh : Header).
Hypothesis Hhh : shHeader h = Some hh.

(** The witness has the same header, or another one that validators of the latest
    trusted set have signed. *)
Definition agrees (w : Provider) (k : nat) : Prop :=
  exists alt hash, prSignedHeader w k (hHeight hh) = Answered (Some alt) /\
    SignedHeader_ValidateBasic alt (lcChainID cfg) = Done None /\
    headerHash alt = Done hash /\ headerHash h = Done hash.

Definition conflicts (vals : option ValidatorSet) (w : Provider) (k : nat) : Prop :=
  exists alt altHash hash vs c vs', prSignedHeader w k (hHeight hh) = Answered (Some alt) /\
    SignedHeader_ValidateBasic alt (lcChainID cfg) = Done None /\
    headerHash alt = Done altHash /\ headerHash h = Done hash /\ hash <> altHash /\
    vals = Some vs /\ shCommit alt = Some c /\
    VerifyCommitLightTrusting (lcChainID cfg) c (lcTrustLevel cfg) vs = Done (None, vs').

(** What a witness sends *)
Lemma compareNewHeaderWithWitness_sends vals k w i q :
  compareNewHeaderWithWitness cfg h vals k w i = Done q ->
  (q = [HeaderMatched] /\ agrees w k) \/ (fork q /\ conflicts vals w k) \/
  (exists code, q = [BadWitness code i] /\ ~ agrees w k /\ ~ conflicts vals w k).
Proof.
  intros E. unfold compareNewHeaderWithWitness, theHeader in E. rewrite Hhh, bind_Done in E.
  destruct (prSignedHeader w k (hHeight hh)) as [[alt|]| |err] eqn:Ep; [|done| |];
    try (injection E as <-; right; right; exists noResponse; split; [done|];
         split; [intros (? & ? & ? & _); congruence|intros (? & ? & ? & ? & ? & ? & ? & _); congruence]).
  apply bind_Done_inv in E as (e & Ev & E). destruct e as [e|].
  { injection E as <-. right. right. exists invalidHeader. split; [done|]. split.
    - intros (alt' & ? & Ea & Ev' & _). congruence.
    - intros (alt' & ? & ? & ? & ? & ? & Ea & Ev' & _). congruence. }
  apply bind_Done_inv in E as (hash & Eh & E). apply bind_Done_inv in E as (altHash & Ea & E).
  case_bool_decide as Eq; cbn [negb] in E.
  { injection E as <-. left. split; [done|]. exists alt, altHash. by rewrite Eh, Eq. }
  destruct vals as [vs|]; [|done]. unfold theCommit in E. destruct (shCommit alt) as [c|] eqn:Ec; [|done].
  rewrite bind_Done in E. apply bind_Done_inv in E as ([e vs'] & El & E). destruct e as [e|]; injection E as <-.
  - right. right. exists invalidHeader. split; [done|]. split.
    + intros (alt' & r & Ep' & _ & E1 & E2). congruence.
    + intros (alt' & a & b & vs1 & c1 & vs2 & Ep' & _ & _ & _ & _ & Evs & Ec' & El'). congruence.
  - right. left. split; [by exists alt|]. by exists alt, altHash, hash, vs, c, vs'.
Qed.

Lemma askWitnesses_results vals ws i c queues c' :
  askWitnesses cfg h vals ws i c = Done (queues, c') -> length queues = length ws /\ clWitnesses c' = clWitnesses c /\
  forall j q, queues !! j = Some q -> exists w, ws !! j = Some w /\
    compareNewHeaderWithWitness cfg h vals (clCalls c + j) w (i + j) = Done q.
Proof.
  revert i c queues. induction ws as [|w ws IH]; intros i c queues E; simpl in E.
  { injection E as <- <-. split_and!; [done..|]. by intros j q ?. }
  step E as k c1 E1. injection E1 as <- <-. step E as r c1 E1. apply slift_Done in E1 as [Er ->].
  step E as rs c2 E2. injection E as <- <-. destruct (IH _ _ _ E2) as (El & Ew & Hj). simpl in *.
  split_and!; [by rewrite El|done|]. intros [|j] q Hq; simpl in Hq.
  - injection Hq as <-. exists w. by rewrite !Nat.add_0_r.
  - destruct (Hj _ _ Hq) as (w' & Hw' & Ec). exists w'. split; [done|]. by rewrite !Nat.add_succ_r.
Qed.

Lemma handleResults_spec rs matched conflict toRemove c m cf rm c' :
  handleResults h rs matched conflict toRemove c = Done ((m, cf, rm), c') ->
  (m = true -> matched = true \/ HeaderMatched ∈ rs) /\
  (cf = None -> conflict = None /\ forall alt, Conflicting alt ∉ rs) /\ clWitnesses c' = clWitnesses c.
Proof.
  revert matched conflict toRemove c. induction rs as [|r rs IH]; intros matched conflict toRemove c E.
  - injection E as <- <- <- <-. split_and!; [by left|..|done]. intros ->. split; [done|]. by intros alt ?%elem_of_nil.
  - destruct r as [|alt|[] i]; simpl in E; [|step E as u c1 E1; injection E1 as <- <-|..];
      destruct (IH _ _ _ _ E) as (Hm & Hc & Hw); (split_and!; [|intros Hcf; destruct (Hc Hcf) as [Hn Hno]|done]).
    all: try (intros Hmt; destruct (Hm Hmt) as [?|?]; [first [by left|right; by constructor]|right; by constructor]).
    all: try (by split; [|intros a [?|?%Hno]%elem_of_cons]).
Qed.

Lemma removeWitness_sub idx c u c' : removeWitness idx c = Done (u, c') -> clWitnesses c' ⊆ clWitnesses c.
Proof.
  intros E. unfold removeWitness, sthen, sget in E. destruct (clWitnesses c) as [|w [|w' ws]]; [done|injection E as <- <-; apply list_subseteq_nil|].
  unfold slift in E. destruct (index _ _) as [lastW|] eqn:Ei; [|done]. destruct (set_index _ _ _) as [ws'|] eqn:Es; [|done].
  injection E as <- <-. cbn [clWitnesses]. apply index_Done in Ei as [_ Ei]. apply set_index_Done in Es as [_ ->].
  apply list_elem_of_lookup_2 in Ei. intros x Hx.
  apply list_elem_of_lookup in Hx as [j Hj]. apply lookup_take_Some in Hj as [Hj _]. apply list_lookup_insert_Some in Hj as [(_ & <- & _)|[_ Hj]]; [done|].
  by eapply list_elem_of_lookup_2.
Qed.

Lemma removeWitnesses_sub idxs c u c' : removeWitnesses idxs c = Done (u, c') -> clWitnesses c' ⊆ clWitnesses c.
Proof.
  revert c. induction idxs as [|i idxs IH]; intros c E; simpl in E; [by injection E as <- <-|].
  step E as v c1 E1. apply removeWitness_sub in E1. apply IH in E. set_solver.
Qed.

(** A round that ends without a conflict *)
Record clear_round (c : Client) (vals : option ValidatorSet) : Prop := {
  cr_agrees : exists j w, clWitnesses c !! j = Some w /\ agrees w (clCalls c + j);
  cr_no_fork : forall j w, clWitnesses c !! j = Some w -> ~ conflicts vals w (clCalls c + j)
}.

Lemma round_clear sched vals c queues c1 :
  askWitnesses cfg h vals (clWitnesses c) 0 c = Done (queues, c1) ->
  (forall alt, Conflicting alt ∉ arrivals sched (length (clWitnesses c)) queues) ->
  HeaderMatched ∈ arrivals sched (length (clWitnesses c)) queues -> clear_round c vals.
Proof.
  intros E Hno Hm. destruct (askWitnesses_results _ _ _ _ _ _ E) as (El & _ & Hq).
  assert (Forall (fun q => q = [] \/ plain q \/ fork q) queues) as Hall.
  { apply Forall_lookup. intros j q Hj. destruct (Hq _ _ Hj) as (w & _ & Ec). right.
    destruct (compareNewHeaderWithWitness_sends _ _ _ _ _ Ec) as [[-> _]|[[? _]|(code & -> & _)]]; [left; by eexists|by right|left; by eexists]. }
  assert (forall j q, queues !! j = Some q -> ~ fork q) as Hnf.
  { intros j q Hj Hf. destruct (arrivals_conflict sched (length (clWitnesses c)) queues Hall) as (alt & Halt);
      [by eapply Exists_exists; exists q; split; [eapply list_elem_of_lookup_2|]| |by apply (Hno alt)].
    rewrite <- El. clear -Hj Hf. apply insert_split with (y := []) in Hj as (l1 & l2 & -> & _). destruct Hf as [? ->].
    rewrite plains_app, plains_cons, length_app. simpl. pose proof (length_filter (fun q => length q = 1%nat) l1).
    pose proof (length_filter (fun q => length q = 1%nat) l2). unfold plains. lia. }
  split.
  - destruct (arrivals_sent _ _ _ _ Hm) as (q & [j Hj]%list_elem_of_lookup & Hr). destruct (Hq _ _ Hj) as (w & Hw & Ec).
    exists j, w. split; [done|].
    destruct (compareNewHeaderWithWitness_sends _ _ _ _ _ Ec) as [[_ Ha]|[[Hf _]|(code & -> & _)]]; [done|by destruct (Hnf j q)|].
    by apply list_elem_of_singleton in Hr.
  - intros j w Hw Hcf. destruct (lookup_lt_is_Some_2 queues j) as [q Hj]; [rewrite El; by eapply lookup_lt_Some|].
    destruct (Hq _ _ Hj) as (w' & Hw' & Ec). assert (w' = w) as -> by congruence.
    destruct (compareNewHeaderWithWitness_sends _ _ _ _ _ Ec) as [[-> Ha]|[[Hf _]|(code & -> & _ & Hnc)]]; [|by destruct (Hnf j q)|done].
    destruct Ha as (alt & r & Ea & _ & E1 & E2). destruct Hcf as (alt' & a & b & ? & ? & ? & Ea' & _ & E1' & E2' & Hne & _). congruence.
Qed.

Lemma client_ok_any c : client_ok (fun _ => True) (fun _ => True) c.
Proof. split; [done|]. by apply Forall_forall. Qed.

Lemma compareLoop_clear sched n c c' : compareLoop cfg sched h n false None c = Done (None, c') ->
  exists c1, clWitnesses c1 ⊆ clWitnesses c /\ clear_round c1 (clLatestVals c).
Proof.
  revert c. induction n as [|n IH]; intros c E; simpl in E; [done|]. step E as x c0 E0. injection E0 as <- <-.
  destruct (_ =? _)%nat; [done|]. step E as queues c1 E1. step E as [[m cf] rm] c2 E2. step E as u c3 E3.
  pose proof (handleResults_spec _ _ _ _ _ _ _ _ _ E2) as (Hm & Hcf & Hw2). destruct cf as [alt|]; [done|].
  destruct (Hcf eq_refl) as [_ Hno]. destruct m.
  - exists c. split; [done|]. eapply round_clear; [exact E1|exact Hno|]. by destruct (Hm eq_refl).
  - destruct (IH _ E) as (c4 & Hsub & Hcl). exists c4.
    destruct (askWitnesses_results _ _ _ _ _ _ E1) as (_ & Hw1 & _). pose proof (removeWitnesses_sub _ _ _ _ E3) as E3'.
    rewrite Hw2, Hw1 in E3'. split; [set_solver|].
    destruct (asks_askWitnesses _ _ _ _ _ _ _ _ _ _ (client_ok_any c) E1) as (_ & (_ & _ & T1) & _).
    destruct (asks_handleResults _ _ _ _ _ _ _ _ _ _ (client_ok_any c1) E2) as (_ & (_ & _ & T2) & _).
    destruct (asks_removeWitnesses _ _ _ _ _ _ (client_ok_any c2) E3) as (_ & (_ & _ & T3) & _).
    by rewrite T3, T2, T1 in Hcl.
Qed.

End compare.

(** ** Claims *)

(** [C15] The comparison with the witnesses ends without an error only after a round in which
    a witness sent a valid header with the same hash, and no witness sent a valid
    header with another hash that validators of the latest trusted set have signed.
    This holds for every order in which the answers arrive, although a conflicting
    witness sends two messages and only as many are read as there are witnesses. *)
Theorem compareNewHeaderWithWitnesses_clear `{Crypto} (TH : TmHash) (ST : StdTime) (W : Wrappers) (cfg : ClientConfig)
    (sched : nat -> nat) (h : SignedHeader) (hh : Header) (c c' : Client) :
  shHeader h = Some hh -> compareNewHeaderWithWitnesses cfg sched h c = Done (None, c') ->
  exists c1, clWitnesses c1 ⊆ clWitnesses c /\
    (exists j w, clWitnesses c1 !! j = Some w /\ agrees cfg h hh w (clCalls c1 + j)) /\
    (forall j w, clWitnesses c1 !! j = Some w -> ~ conflicts cfg h hh (clLatestVals c) w (clCalls c1 + j)).
Proof.
  intros Hh E. destruct (compareLoop_clear cfg h hh Hh _ _ _ _ E) as (c1 & Hsub & [Ha Hn]). by exists c1.
Qed.

Section example.
Local Existing Instances exampleCrypto exampleTmHash exampleStdTime exampleWrappers.

Lemma compareNewHeaderWithWitnesses_clear_witness :
  exists hh w k, shHeader (chainAt 5) = Some hh /\ w ∈ clWitnesses chainClient /\ agrees chainConfig (chainAt 5) hh w k.
Proof.
  destruct (succeeded_Done (compareNewHeaderWithWitnesses chainConfig id (chainAt 5) chainClient)) as [c' E]; [by vm_compute|].
  destruct (compareNewHeaderWithWitnesses_clear exampleTmHash exampleStdTime exampleWrappers chainConfig id (chainAt 5)
    (chainHeader lightSet 5 50 zeroBlockID) chainClient c' eq_refl E) as (c1 & Hsub & (j & w & Hw & Ha) & _).
  exists (chainHeader lightSet 5 50 zeroBlockID), w, (clCalls c1 + j)%nat. split; [reflexivity|]. split; [|exact Ha].
  apply Hsub. by eapply list_elem_of_lookup_2.
Defined.

End example.
