(* ===== verification/LightChain.v ===== *)
(** * The light client and the chain

    The headers of a chain whose validators are correct up to a third are the only
    ones that a light client accepts in forward verification. *)

From Stdlib Require Import ZArith Lia.
From S2P Require Import Prelude StateMonad SafeMath Proto BitArray Validator ValidatorSet ValidatorSetUpdate BlockTypes.
From S2P Require Import SignBytes Merkle Header ValidatorHash CommitVerify LightVerifier LightStore LightClient LightSearch LightSafety.
From stdpp Require Import base gmap list option strings numbers sorting relations.

Local Open Scope Z_scope.

Lemma Answered_inj {A} (x y : A) : Answered (Some x) = Answered (Some y) -> x = y.
Proof. by intros [=]. Qed.

(** A part of a list has a counterpart in a list that is related pointwise. *)
Lemma submseteq_Forall2 {A B} (R : A -> B -> Prop) (l k : list A) (k' : list B) :
  l ⊆+ k -> Forall2 R k k' -> exists l', l' ⊆+ k' /\ Forall2 R l l'.
Proof.
  intros Hs. revert k'. induction Hs as [|x l k Hs IH|x y l|x l k Hs IH|l1 l2 l3 H1 IH1 H2 IH2]; intros k' Hk.
  - exists []. split; [apply submseteq_nil_l|constructor].
  - inversion Hk as [|? y ? k1 Hxy Hk1]; subst. destruct (IH _ Hk1) as (l' & Hl' & Hf).
    exists (y :: l'). split; [by apply submseteq_skip|by constructor].
  - inversion Hk as [|? x' ? k1 Hx Hk1]; subst. inversion Hk1 as [|? y' ? k2 Hy Hk2]; subst.
    exists (y' :: x' :: k2). split; [apply submseteq_swap|by repeat constructor].
  - inversion Hk as [|? y ? k1 Hxy Hk1]; subst. destruct (IH _ Hk1) as (l' & Hl' & Hf).
    exists l'. split; [by apply submseteq_cons|done].
  - destruct (IH2 _ Hk) as (l2' & Hl2 & Hf2). destruct (IH1 _ Hf2) as (l1' & Hl1 & Hf1).
    exists l1'. split; [by etrans|done].
Qed.

Section chain.
Context `{Crypto} {TH : TmHash} {ST : StdTime} {W : Wrappers}.
Context {HL : TmHashLaws TH} {SL : StdTimeLaws ST} {WL : WrappersLaws W}.
Variable chainID : bytes.

(** A signature depends on the key of the validator. *)
Lemma signedFor_key c v v' : vPubKey v = vPubKey v' -> signedFor chainID c v -> signedFor chainID c v'.
Proof.
  intros E (i & cs & Hi & Hf & Hv). exists i, cs. split_and!; [done..|]. unfold verifySig in *. by rewrite <- E.
Qed.

(** Signers of a set with the same keys and powers *)
Lemma signers_transfer vals vals' c signers :
  keyPowers vals = keyPowers vals' -> NoDup signers -> NoDup (Validators vals') ->
  (forall v, v ∈ signers -> v ∈ Validators vals /\ signedFor chainID c v) ->
  exists signers', NoDup signers' /\ (forall v, v ∈ signers' -> v ∈ Validators vals' /\ signedFor chainID c v) /\
    sumZ VotingPower signers' = sumZ VotingPower signers.
Proof.
  intros Ek N N' Hs.
  assert (Forall2 (fun v v' => (vPubKey v, VotingPower v) = (vPubKey v', VotingPower v')) (Validators vals) (Validators vals'))
    as Hf by (apply Forall2_fmap, list_eq_Forall2, Ek).
  destruct (submseteq_Forall2 _ signers _ _ (NoDup_submseteq _ _ N (fun v Hv => proj1 (Hs v Hv))) Hf) as (signers' & Hsub & Hf').
  exists signers'. split_and!.
  - apply submseteq_Permutation in Hsub as [rest Hp]. rewrite Hp in N'. by apply NoDup_app in N' as [? _].
  - intros v' Hv'. split; [by eapply elem_of_submseteq|].
    apply list_elem_of_lookup in Hv' as [i Hi]. destruct (Forall2_lookup_r _ _ _ _ _ Hf' Hi) as (v & Hv & [= Ekey _]).
    eapply signedFor_key; [exact Ekey|]. eapply Hs, list_elem_of_lookup_2, Hv.
  - clear -Hf'. induction Hf' as [|v v' l l' [= _ E] _ IH]; [done|]. rewrite !sumZ_cons, IH. lia.
Qed.

(** ** The chain

    [blockAt] are the headers committed up to the height [top], [valsAt] the
    validator sets of the heights up to the next one with their hashes [valsHash],
    and [hashed] are the strings that anyone has hashed. *)
Variables (top : Z) (blockAt : Z -> Header) (valsAt : Z -> ValidatorSet) (valsHash : Z -> bytes).
Variables (faulty : Z -> Validator -> bool) (hashed : list bytes) (period : Z) (now : Time).

(** The values are those of the Go types, and what they hash is known. *)
Definition header_known (h : Header) : Prop := header_typed h /\ headerInputs h ⊆ hashed.
Definition vals_known (vals : ValidatorSet) : Prop :=
  VS_wf vals /\ (forall v, v ∈ Validators vals -> validator_typed v) /\ valsetInputs vals ⊆ hashed.
Definition commit_typed (c : Commit) : Prop := int64 (cHeight c) /\ int32 (cRound c) /\ blockID_typed (cBlockID c).

Record chain_ok : Prop := {
  ch_hash : collision_free hashed;
  (* the headers and their validators *)
  ch_block k : 0 < k <= top -> hHeight (blockAt k) = k /\ header_known (blockAt k) /\ Header_Hash (Some (blockAt k)) <> Done [];
  ch_named k : 0 < k <= top -> hValidatorsHash (blockAt k) = valsHash k /\ hNextValidatorsHash (blockAt k) = valsHash (k + 1);
  ch_vals k : 0 < k <= top + 1 -> vals_known (valsAt k) /\ ValidatorSet_Hash (valsAt k) = Done (valsHash k);
  (* less than a third is faulty in the trusting period *)
  ch_faulty k : 0 < k <= top -> now < hTime (blockAt k) + period ->
    3 * sumZ VotingPower (filter (fun v => faulty k v = true) (Validators (valsAt k))) < sumZ VotingPower (Validators (valsAt k));
  (* a correct validator signs only at heights that have been reached, and only
     blocks that name the validators of their height *)
  ch_valid k v c : 0 < k <= top -> v ∈ Validators (valsAt k) -> faulty k v = false -> commit_typed c -> signedFor chainID c v ->
    0 < cHeight c <= top + 1 /\
    exists h, header_known h /\ Header_Hash (Some h) = Done (bidHash (cBlockID c)) /\ bidHash (cBlockID c) <> [] /\
      hValidatorsHash h = valsHash (cHeight c);
  (* agreement: two thirds of a height's validators sign only the block of the height *)
  ch_agree c signers : 0 < cHeight c <= top + 1 -> commit_typed c -> NoDup signers ->
    (forall v, v ∈ signers -> v ∈ Validators (valsAt (cHeight c)) /\ signedFor chainID c v) ->
    2 * sumZ VotingPower (Validators (valsAt (cHeight c))) < 3 * sumZ VotingPower signers ->
    cHeight c <= top /\ Header_Hash (Some (blockAt (cHeight c))) = Done (bidHash (cBlockID c))
}.

(** A header of the chain with its validators *)
Definition on_chain (p : SignedHeader * ValidatorSet) : Prop :=
  exists h, shHeader p.1 = Some h /\ 0 < hHeight h <= top /\ same_header h (blockAt (hHeight h)) /\
    vals_known p.2 /\ keyPowers p.2 = keyPowers (valsAt (hHeight h)).

(** What is expected of answers *)
Definition header_answer (sh : SignedHeader) : Prop :=
  (forall h, shHeader sh = Some h -> header_known h /\ 0 < hHeight h < MaxInt64) /\
  (forall c, shCommit sh = Some c -> commit_typed c).

Hypothesis (CH : chain_ok) (Htop : top < MaxInt64).

Lemma hash_same h h' r : header_known h -> header_known h' -> r <> [] ->
  Header_Hash (Some h) = Done r -> Header_Hash (Some h') = Done r -> same_header h h'.
Proof.
  intros [T1 S1] [T2 S2] Hr E1 E2. eapply Header_Hash_inj; [done..|].
  eapply collision_free_sub; [|exact (ch_hash CH)]. by intros x [Hx|Hx]%elem_of_app; [apply S1|apply S2].
Qed.

Lemma vals_same vals vals' r : vals_known vals -> vals_known vals' ->
  ValidatorSet_Hash vals = Done r -> ValidatorSet_Hash vals' = Done r -> keyPowers vals = keyPowers vals'.
Proof.
  intros (_ & T1 & S1) (_ & T2 & S2) E1 E2. eapply ValidatorSet_Hash_inj; [done..|].
  eapply collision_free_sub; [|exact (ch_hash CH)]. by intros x [Hx|Hx]%elem_of_app; [apply S1|apply S2].
Qed.

Lemma keyPowers_total vals vals' : keyPowers vals = keyPowers vals' ->
  sumZ VotingPower (Validators vals) = sumZ VotingPower (Validators vals').
Proof.
  intros E. unfold keyPowers in E. apply (f_equal (sumZ snd)) in E. by rewrite !sumZ_fmap in E.
Qed.

Lemma known_nodup vals : vals_known vals -> NoDup (Validators vals).
Proof. intros (Wf & _). eapply NoDup_fmap_1, (vs_nodup _ Wf). Qed.

(** A header that names the validators of its height, and that more than two thirds
    of them have signed, is the one of the chain. *)
Lemma signed_on_chain uh c uv signers :
  header_known uh -> 0 < hHeight uh <= top + 1 -> commit_typed c -> cHeight c = hHeight uh -> vals_known uv ->
  Header_Hash (Some uh) = Done (bidHash (cBlockID c)) -> ValidatorSet_Hash uv = Done (hValidatorsHash uh) ->
  hValidatorsHash uh = valsHash (hHeight uh) -> NoDup signers ->
  (forall v, v ∈ signers -> v ∈ Validators uv /\ signedFor chainID c v) ->
  2 * sumZ VotingPower (Validators uv) < 3 * sumZ VotingPower signers ->
  hHeight uh <= top /\ same_header uh (blockAt (hHeight uh)) /\ keyPowers uv = keyPowers (valsAt (hHeight uh)).
Proof.
  intros Ku Hh Tc Ec Kv Eh Ev En N Hs Hp. destruct (ch_vals CH _ Hh) as [Kw Ew].
  assert (keyPowers uv = keyPowers (valsAt (hHeight uh))) as Ek by (rewrite <- En in Ew; exact (vals_same _ _ _ Kv Kw Ev Ew)).
  destruct (signers_transfer uv _ c signers Ek N (known_nodup _ Kw) Hs) as (signers' & N' & Hs' & Hp').
  destruct (ch_agree CH c signers') as [Hle Eb]; rewrite ?Ec; [lia|done|done|exact Hs'| |].
  { by rewrite Hp', <- (keyPowers_total _ _ Ek). }
  rewrite Ec in Hle, Eb. split_and!; [done| |done]. destruct (ch_block CH (hHeight uh) ltac:(lia)) as (_ & Kb & Hne).
  eapply (hash_same _ _ _ Ku Kb); [|exact Eh|exact Eb]. intros E0. apply Hne. by rewrite Eb, E0.
Qed.

(** The validators named by a header that trusted validators have signed *)
Lemma trusted_names th uh c tv signers lvl :
  ValidateTrustLevel lvl = None -> int64 (Numerator lvl) -> int64 (Denominator lvl) -> 0 < Numerator lvl ->
  0 < hHeight th <= top -> hTime th = hTime (blockAt (hHeight th)) -> now < hTime th + period ->
  vals_known tv -> keyPowers tv = keyPowers (valsAt (hHeight th)) -> header_known uh -> commit_typed c ->
  cHeight c = hHeight uh -> Header_Hash (Some uh) = Done (bidHash (cBlockID c)) -> NoDup signers ->
  (forall v, v ∈ signers -> v ∈ Validators tv /\ signedFor chainID c v) ->
  sumZ VotingPower (Validators tv) * Numerator lvl < sumZ VotingPower signers * Denominator lvl ->
  0 < hHeight uh <= top + 1 /\ hValidatorsHash uh = valsHash (hHeight uh).
Proof.
  intros Hl Hn Hd Hp Hh Htime Hexp Ktv Ekt Ku Tc Ec Eh N Hs Hpow.
  destruct (ch_vals CH (hHeight th) ltac:(lia)) as [Kw _].
  destruct (signers_transfer _ _ c signers Ekt N (known_nodup _ Kw) Hs) as (signers' & N' & Hs' & Hp').
  destruct (trust_level_range lvl Hl Hn Hd Hp) as (_ & _ & Hthird & _).
  assert (0 <= sumZ VotingPower signers).
  { apply sumZ_nonneg. intros v Hin. pose proof (vs_power _ (proj1 Ktv) v (proj1 (Hs v Hin))). lia. }
  destruct (correct_signer (valsAt (hHeight th)) (faulty (hHeight th)) signers' (signedFor chainID c))
    as (v & Hv & Hf & Hsv); [by apply Kw|done|done| |rewrite Hp', <- (keyPowers_total _ _ Ekt); nia|].
  { apply (ch_faulty CH); [done|]. by rewrite <- Htime. }
  destruct (ch_valid CH _ v c Hh Hv Hf Tc Hsv) as (Hr & h & Kh & Ehh & Hne & Ehv). rewrite Ec in Hr, Ehv. split; [done|].
  assert (same_header uh h) as (_ & _ & _ & _ & _ & _ & _ & -> & _) by exact (hash_same _ _ _ Ku Kh Hne Eh Ehh).
  exact Ehv.
Qed.

Lemma Verify_on_chain t tv u uv drift lvl :
  ValidateTrustLevel lvl = None -> int64 (Numerator lvl) -> int64 (Denominator lvl) -> 0 < Numerator lvl ->
  on_chain (t, tv) -> header_answer u -> vals_known uv ->
  Verify chainID t tv u uv period now drift lvl = Done None -> on_chain (u, uv).
Proof.
  intros Hl Hn Hd Hp (th0 & Et & Hht & Hsame & Ktv & Ekt) [Hu Hc] Kuv E. simpl in Et, Ktv, Ekt.
  destruct (Verify_accepted chainID t tv u uv period now drift lvl) as (uh & th & c & Eu & Et' & Ec & Hok & Hexp & Hsig & Hlink);
    [by apply Ktv|by apply Kuv|done..|intros ? ?; simplify_eq; lia|done|].
  assert (th0 = th) as -> by congruence. destruct (Hu _ Eu) as [Ku Hhu]. pose proof (Hc _ Ec) as Tc.
  destruct Hok as [Ho1 _ _ Ho4 Ho5 Ho6]. destruct Hsig as (signers & N & Hs & Hpow).
  destruct Hsame as (_ & _ & _ & Htime & _ & _ & _ & _ & Hnext & _).
  assert (0 < hHeight uh <= top + 1 /\ hValidatorsHash uh = valsHash (hHeight uh)) as [Hr Hv].
  - destruct (Z.eqb_spec (hHeight uh) (hHeight th + 1)) as [Ea|Ea].
    + rewrite Ea, Hlink, Hnext. split; [lia|]. exact (proj2 (ch_named CH _ Hht)).
    + destruct Hlink as (signers1 & N1 & Hs1 & Hpow1). exact (trusted_names th uh c tv signers1 lvl Hl Hn Hd Hp Hht Htime Hexp Ktv Ekt Ku Tc Ho5 Ho4 N1 Hs1 Hpow1).
  - destruct (signed_on_chain uh c uv signers) as (Hle & Hsame & Hk); [done..|]. exists uh. split_and!; (done || lia).
Qed.

Lemma path_on_chain cfg p q : lcChainID cfg = chainID -> lcTrustingPeriod cfg = period ->
  ValidateTrustLevel (lcTrustLevel cfg) = None -> int64 (Numerator (lcTrustLevel cfg)) ->
  int64 (Denominator (lcTrustLevel cfg)) -> 0 < Numerator (lcTrustLevel cfg) ->
  on_chain p -> tc (verified cfg header_answer vals_known now) p q -> on_chain q.
Proof.
  intros Ec Ep Hl Hn Hd Hp Hon Hpath.
  induction Hpath as [[t tv] [u uv] [E [Hu Hv]]|[t tv] [u uv] q [E [Hu Hv]] _ IH]; [|apply IH];
    rewrite Ec, Ep in E; exact (Verify_on_chain t tv u uv _ _ Hl Hn Hd Hp Hon Hu Hv E).
Qed.

End chain.

(** ** Claims *)

(** The client's latest header is of the chain, and its providers send values of the
    Go types whose hashes are known. *)
Definition trusts `{Crypto} {TH : TmHash} {ST : StdTime} {W : Wrappers} (top : Z) (blockAt : Z -> Header)
    (valsAt : Z -> ValidatorSet) (hashed : list bytes) (c : Client) : Prop :=
  client_ok (header_answer hashed) (vals_known hashed) c /\
  exists latest latestVals, clLatestHeader c = Some latest /\ clLatestVals c = Some latestVals /\
    on_chain top blockAt valsAt hashed (latest, latestVals).

(** [C12] A light client stays on the chain, whatever its providers answer.  If
    less than a third of the power of each validator set is faulty in the trusting
    period, correct validators sign only blocks that name the right validators, and
    two thirds of the validators of a height sign only its block, then a later
    header that the client accepts, by bisection or sequentially, is the header of
    the chain at its height with the right validators, and it becomes the client's
    latest header. *)
Theorem verifyHeader_safe `{Crypto} (TH : TmHash) (ST : StdTime) (W : Wrappers)
    (HL : TmHashLaws TH) (SL : StdTimeLaws ST) (WL : WrappersLaws W)
    (cfg : ClientConfig) (sched : nat -> nat) (top : Z) (blockAt : Z -> Header) (valsAt : Z -> ValidatorSet)
    (valsHash : Z -> bytes) (faulty : Z -> Validator -> bool) (hashed : list bytes) (now : Time)
    (newHeader : SignedHeader) (newVals : ValidatorSet) (c c' : Client) :
  chain_ok (lcChainID cfg) top blockAt valsAt valsHash faulty hashed (lcTrustingPeriod cfg) now -> top < MaxInt64 ->
  ValidateTrustLevel (lcTrustLevel cfg) = None -> int64 (Numerator (lcTrustLevel cfg)) ->
  int64 (Denominator (lcTrustLevel cfg)) -> 0 < Numerator (lcTrustLevel cfg) ->
  trusts top blockAt valsAt hashed c -> header_answer hashed newHeader -> vals_known hashed newVals ->
  (forall latest lh nh, clLatestHeader c = Some latest -> shHeader latest = Some lh -> shHeader newHeader = Some nh ->
     hHeight lh < hHeight nh) ->
  verifyHeader cfg sched newHeader newVals now c = Done (None, c') ->
  on_chain top blockAt valsAt hashed (newHeader, newVals) /\ trusts top blockAt valsAt hashed c' /\
  clLatestHeader c' = Some newHeader.
Proof.
  intros CH Htop Hl Hn Hd Hp (Hc & latest & lv & El & Ev & Hon) Hh Hv Hlt E.
  pose proof Hon as (lh & Elh & Hlh & _). destruct (verifyHeader_has_header _ _ _ _ _ _ _ _ E) as [nh Enh].
  specialize (Hlt _ _ _ El Elh Enh). destruct (proj1 Hh _ Enh) as [_ Hnh]. simpl in Elh.
  destruct (verifyHeader_forward cfg (header_answer hashed) (vals_known hashed) now sched newHeader newVals c c' latest lv nh lh)
    as (Hpath & Hc' & El' & Ev'); [done..|lia|lia|done|].
  assert (on_chain top blockAt valsAt hashed (newHeader, newVals)) as Hnew.
  { exact (path_on_chain (HL := HL) (SL := SL) (WL := WL) (lcChainID cfg) top blockAt valsAt valsHash faulty hashed (lcTrustingPeriod cfg) now CH Htop
             cfg _ _ eq_refl eq_refl Hl Hn Hd Hp Hon Hpath). }
  split_and!; [done|split; [done|by exists newHeader, newVals]|done].
Qed.

(** *** An example chain of three blocks *)

Definition keySet : ValidatorSet :=
  mkValidatorSet [mkValidator (exampleAddress 1) (Some (PubKeyEd25519 (exampleHash 1))) 10 0;
                  mkValidator (exampleAddress 2) (Some (PubKeyEd25519 (exampleHash 2))) 5 0;
                  mkValidator (exampleAddress 3) (Some (PubKeyEd25519 (exampleHash 3))) 4 0]
    (Some (mkValidator (exampleAddress 1) (Some (PubKeyEd25519 (exampleHash 1))) 10 0)) 0.

Lemma keySet_wf : VS_wf keySet.
Proof. concrete_wf. Qed.

Lemma keySet_typed v : v ∈ Validators keySet -> validator_typed v.
Proof.
  intros Hv. repeat (apply elem_of_cons in Hv as [->|Hv]; [split; [by vm_compute|eexists; split; [done|by vm_compute]]|]).
  by apply elem_of_nil in Hv.
Qed.

Section example.
Local Existing Instances exampleTmHash exampleStdTime exampleWrappers.

Definition keySetHash : bytes := match ValidatorSet_Hash keySet with Done h => h | Panic _ => [] end.
Definition exampleBlockAt (k : Z) : Header := chainHeader keySet k (10 * k) zeroBlockID.
Definition exampleHeights : list Z := [1; 2; 3].

Definition exampleHashed : list bytes :=
  remove_dups ((exampleHeights ≫= fun k => headerInputs (exampleBlockAt k)) ++ valsetInputs keySet).

(** The votes of the chain, and a signature scheme in which only they are signed *)
Definition voteAt (k : Z) : Vote :=
  mkVote PrecommitType k 0 (headerID (exampleBlockAt k)) (10 * k) [] 0 [].
Definition messageAt (k : Z) : bytes :=
  match VoteSignBytes exampleChain (Vote_ToProto (voteAt k)) with Done bz => bz | Panic _ => [] end.
Definition chainCrypto : Crypto := {|
  pkAddress := fun pk => take 20 (keyOf pk);
  pkVerifyBytes := fun pk msg sig => existsb (fun k => bool_decide (msg = messageAt k)) exampleHeights
|}.
Local Existing Instance chainCrypto.

Lemma voteAt_signed k : k ∈ exampleHeights ->
  vote_typed (voteAt k) /\ VoteSignBytes exampleChain (Vote_ToProto (voteAt k)) = Done (messageAt k).
Proof.
  intros Hk. repeat (apply elem_of_cons in Hk as [->|Hk]; [split; [split; by vm_compute|by vm_compute]|]).
  by apply elem_of_nil in Hk.
Qed.

Lemma chain_signed c v : commit_typed c -> signedFor exampleChain c v ->
  exists k, k ∈ exampleHeights /\ cHeight c = k /\ cBlockID c = headerID (exampleBlockAt k).
Proof.
  intros (T1 & T2 & T3) (i & cs & _ & _ & Hv). unfold verifySig in Hv.
  apply bind_Done_inv in Hv as (msg & Em & Hv). destruct (vPubKey v) as [pk|]; [|done].
  assert (pkVerifyBytes pk msg (csSignature cs) = true) as Hs by congruence. clear Hv. rename Hs into Hv.
  unfold pkVerifyBytes, chainCrypto in Hv. apply existsb_exists in Hv as (k & Hk%list_elem_of_In & ->%bool_decide_eq_true).
  unfold Commit_VoteSignBytes, Commit_GetVote in Em. apply bind_Done_inv in Em as (vote & Ev & Em).
  apply bind_Done_inv in Ev as (cs' & _ & Ev). apply bind_Done_inv in Ev as (b & Eb & [= <-]).
  destruct (voteAt_signed k Hk) as [Tk Ek].
  assert (b = cBlockID c \/ b = zeroBlockID) as Hb
    by (unfold CommitSig_BlockID in Eb; repeat case_match; try done; injection Eb as <-; auto).
  match type of Em with VoteSignBytes _ (Vote_ToProto ?w) = _ => assert (vote_typed w) as Tw end.
  { split; [done|done|done|by destruct Hb as [-> | ->]]. }
  assert (small exampleChain) as Hsm by done.
  destruct (vote_sign_bytes_inj _ _ _ _ _ exampleStdTime_laws Tk Tw Hsm Hsm Ek Em) as (_ & _ & Eh & _ & Ebid & _).
  exists k. split_and!; [done|done|]. destruct Hb as [-> | ->]; [done|]. by apply (f_equal (fun x => pshTotal (bidPartSetHeader x))) in Ebid.
Qed.

Lemma known_headers k : k ∈ exampleHeights -> header_known exampleHashed (exampleBlockAt k).
Proof.
  intros Hk. split.
  - repeat (apply elem_of_cons in Hk as [->|Hk]; [split; [split; by vm_compute|by vm_compute|by vm_compute|split_and!; by vm_compute|
      repeat constructor; by vm_compute]|]). by apply elem_of_nil in Hk.
  - intros x Hx. apply elem_of_remove_dups, elem_of_app. left. apply list_elem_of_bind. by exists k.
Qed.

Lemma known_vals : vals_known exampleHashed keySet.
Proof.
  split_and!; [exact keySet_wf|exact keySet_typed|]. intros x Hx. apply elem_of_remove_dups, elem_of_app. by right.
Qed.

Lemma exampleHashed_free : collision_free exampleHashed.
Proof. apply collision_freeb_spec. vm_compute. reflexivity. Qed.

Lemma exampleHeights_all k : 0 < k <= 3 -> k ∈ exampleHeights.
Proof. intros Hk. assert (k = 1 \/ k = 2 \/ k = 3) as [-> | [-> | ->]] by lia; apply (bool_decide_unpack _); by vm_compute. Qed.

Lemma exampleBlockAt_hash k : k ∈ exampleHeights ->
  Header_Hash (Some (exampleBlockAt k)) = Done (bidHash (headerID (exampleBlockAt k))) /\ bidHash (headerID (exampleBlockAt k)) <> [].
Proof.
  intros Hk. repeat (apply elem_of_cons in Hk as [->|Hk]; [split; [by vm_compute|vm_compute; discriminate]|]).
  by apply elem_of_nil in Hk.
Qed.

Lemma example_chain_ok now : chain_ok exampleChain 3 exampleBlockAt (fun _ => keySet) (fun _ => keySetHash)
  (fun _ v => bool_decide (Address v = exampleAddress 2)) exampleHashed 1000 now.
Proof.
  split.
  - exact exampleHashed_free.
  - intros k Hk%exampleHeights_all. split_and!; [done|by apply known_headers|].
    destruct (exampleBlockAt_hash k Hk) as [-> Hne]. intros E. exact (Hne (Done_inj _ _ E)).
  - done.
  - intros k _. split; [exact known_vals|by vm_compute].
  - intros k _ _. by vm_compute.
  - intros k v c _ _ _ Tc Hs. destruct (chain_signed c v Tc Hs) as (j & Hj & -> & ->).
    destruct (exampleBlockAt_hash j Hj) as [Eh Hne].
    split; [|by exists (exampleBlockAt j); split_and!; [apply known_headers|..]].
    repeat (apply elem_of_cons in Hj as [->|Hj]; [lia|]). by apply elem_of_nil in Hj.
  - intros c signers _ Tc _ Hs Hp.
    destruct signers as [|v signers]; [by vm_compute in Hp|]. destruct (Hs v ltac:(by constructor)) as [_ Hv].
    destruct (chain_signed c v Tc Hv) as (j & Hj & -> & ->). destruct (exampleBlockAt_hash j Hj) as [Eh _].
    split; [|done]. repeat (apply elem_of_cons in Hj as [->|Hj]; [lia|]). by apply elem_of_nil in Hj.
Qed.

Definition signedAt (k : Z) : SignedHeader := signHeader (exampleBlockAt k) (Validators keySet).

(** A provider with the headers of the chain *)
Definition fullNode : Provider := {|
  prChainID := exampleChain;
  prSignedHeader := fun _ k => if bool_decide (k ∈ exampleHeights) then Answered (Some (signedAt k)) else NotFound;
  prValidatorSet := fun _ k => if bool_decide (k ∈ exampleHeights) then Answered (Some keySet) else NotFound
|}.

Definition lightConfig (m : mode) : ClientConfig := mkClientConfig exampleChain 1000 m DefaultTrustLevel 2 1 0 (fun _ => true).
Definition lightStart : Client :=
  mkClient fullNode [fullNode; fullNode] emptyStore (Some (signedAt 1)) (Some keySet) 0 [].

Lemma signedAt_answer k : k ∈ exampleHeights -> header_answer exampleHashed (signedAt k).
Proof.
  intros Hk. split.
  - intros h [= <-]. split; [by apply known_headers|].
    repeat (apply elem_of_cons in Hk as [->|Hk]; [by vm_compute|]). by apply elem_of_nil in Hk.
  - intros c Hc. apply Some_inj in Hc as <-. split_and!; [|done|done]. cbn [cHeight NewCommit].
    repeat (apply elem_of_cons in Hk as [->|Hk]; [done|]). by apply elem_of_nil in Hk.
Qed.

Lemma fullNode_ok : provider_ok (header_answer exampleHashed) (vals_known exampleHashed) fullNode.
Proof.
  split; intros k h a; unfold fullNode; cbn [prSignedHeader prValidatorSet]; case_bool_decide; intros E; try discriminate E;
    apply Answered_inj in E as <-.
  - by apply signedAt_answer.
  - exact known_vals.
Qed.

Lemma lightStart_trusts : trusts 3 exampleBlockAt (fun _ => keySet) exampleHashed lightStart.
Proof.
  split; [split; [exact fullNode_ok|repeat (constructor; [exact fullNode_ok|]); constructor]|].
  exists (signedAt 1), keySet. split; [reflexivity|]. split; [reflexivity|]. exists (exampleBlockAt 1).
  split; [reflexivity|]. split; [by split|]. split; [|by split; [exact known_vals|]].
  change (same_header (exampleBlockAt 1) (exampleBlockAt 1)). repeat split.
Qed.

Lemma verifyHeader_safe_witness :
  exists c', verifyHeader (lightConfig skipping) id (signedAt 3) keySet 60 lightStart = Done (None, c') /\
    clLatestHeader c' = Some (signedAt 3) /\ on_chain 3 exampleBlockAt (fun _ => keySet) exampleHashed (signedAt 3, keySet).
Proof.
  destruct (succeeded_Done (verifyHeader (lightConfig skipping) id (signedAt 3) keySet 60 lightStart)) as [c' E];
    [by vm_compute|]. exists c'. split; [exact E|].
  destruct (verifyHeader_safe exampleTmHash exampleStdTime exampleWrappers exampleTmHash_laws exampleStdTime_laws
    exampleWrappers_laws (lightConfig skipping) id 3 exampleBlockAt (fun _ => keySet) (fun _ => keySetHash)
    (fun _ v => bool_decide (Address v = exampleAddress 2)) exampleHashed 60 (signedAt 3) keySet lightStart c') as (Hon & _ & El).
  - exact (example_chain_ok 60).
  - exact eq_refl.
  - exact eq_refl.
  - split; discriminate.
  - split; discriminate.
  - exact eq_refl.
  - exact lightStart_trusts.
  - apply signedAt_answer, exampleHeights_all. lia.
  - exact known_vals.
  - intros latest lh nh El Elh Enh. apply Some_inj in El as <-. apply Some_inj in Elh as <-. apply Some_inj in Enh as <-. exact eq_refl.
  - exact E.
  - by split.
Defined.

End example.
