(* ===== verification/PrivVal.v ===== *)
(** * The file-based signer

    privval/file.go: the private validator that keeps the height, round and
    step it signed last, with the signature, in a file.

    A state file holds the fields that [tmjson.MarshalIndent] writes; the two
    byte slices are tagged [omitempty], so that an empty one is read back as
    nil.  [tempfile.WriteFileAtomic] replaces the whole file or leaves it as it
    was.  A missing or unreadable file ends the program, modelled as a panic. *)

From Stdlib Require Import ZArith Lia.
From S2P Require Import Prelude Proto Validator BlockTypes SignBytes ProtoDecode ProtoRoundtrip.
From stdpp Require Import base gmap list option strings numbers sorting.

Local Open Scope Z_scope.

(** [crypto.PrivKey]: what the signer uses of the key implementations. *)
Class Signer := {
  PrivKey : Type;
  pvSign : PrivKey -> bytes -> result bytes;
  pvPubKeyOf : PrivKey -> PubKey
}.

Definition stepNone : Z := 0.
Definition stepPropose : Z := 1.
Definition stepPrevote : Z := 2.
Definition stepPrecommit : Z := 3.

Definition voteToStep (vote : protoVote) : outcome Z :=
  if pvType vote =? PrevoteType then Done stepPrevote
  else if pvType vote =? PrecommitType then Done stepPrecommit
  else Panic "Unknown vote type".

Record FilePVLastSignState := mkFilePVLastSignState {
  lssHeight : Z;
  lssRound : Z;
  lssStep : Z;
  lssSignature : option bytes;
  lssSignBytes : option bytes;
  lssFilePath : bytes
}.

(** Whether the last signature should be reused, and the error. *)
Definition CheckHRS (lss : FilePVLastSignState) (height round step : Z) : outcome (bool * option error) :=
  if height <? lssHeight lss then Done (false, Some "height regression")
  else if lssHeight lss =? height then
    if round <? lssRound lss then Done (false, Some "round regression")
    else if lssRound lss =? round then
      if step <? lssStep lss then Done (false, Some "step regression")
      else if lssStep lss =? step then
        match lssSignBytes lss with
        | Some _ =>
          match lssSignature lss with
          | None => Panic "pv: Signature is nil but SignBytes is not!"
          | Some _ => Done (true, None)
          end
        | None => Done (false, Some "no SignBytes found")
        end
      else Done (false, None)
    else Done (false, None)
  else Done (false, None).

Section privval.
Context {ST : StdTime} {G : Gogo} {K : Signer} `{Crypto}.

Record FilePVKey := mkFilePVKey {
  pvkAddress : bytes;
  pvkPubKey : PubKey;
  pvkPrivKey : PrivKey;
  pvkFilePath : bytes
}.

Record FilePV := mkFilePV { Key : FilePVKey; LastSignState : FilePVLastSignState }.

(** The key files and the state files, by path. *)
Record Disk := mkDisk {
  keyFiles : gmap bytes FilePVKey;
  stateFiles : gmap bytes FilePVLastSignState
}.

(** What is read back from the JSON of a state. *)
Definition omitempty (o : option bytes) : option bytes :=
  match o with Some [] => None | _ => o end.
Definition persisted (lss : FilePVLastSignState) : FilePVLastSignState :=
  mkFilePVLastSignState (lssHeight lss) (lssRound lss) (lssStep lss)
    (omitempty (lssSignature lss)) (omitempty (lssSignBytes lss)) [].

Definition FilePVKey_Save (pvKey : FilePVKey) (disk : Disk) : outcome Disk :=
  if bool_decide (pvkFilePath pvKey = []) then Panic "cannot save PrivValidator key: filePath not set"
  else Done (mkDisk (<[pvkFilePath pvKey := pvKey]> (keyFiles disk)) (stateFiles disk)).

Definition FilePVLastSignState_Save (lss : FilePVLastSignState) (disk : Disk) : outcome Disk :=
  if bool_decide (lssFilePath lss = []) then Panic "cannot save FilePVLastSignState: filePath not set"
  else Done (mkDisk (keyFiles disk) (<[lssFilePath lss := persisted lss]> (stateFiles disk))).

Definition FilePV_Save (pv : FilePV) (disk : Disk) : outcome Disk :=
  let! disk := FilePVKey_Save (Key pv) disk in FilePVLastSignState_Save (LastSignState pv) disk.

(** [privKey] is [ed25519.GenPrivKey()]. *)
Definition GenFilePV (privKey : PrivKey) (keyFilePath stateFilePath : bytes) : FilePV :=
  mkFilePV (mkFilePVKey (pkAddress (pvPubKeyOf privKey)) (pvPubKeyOf privKey) privKey keyFilePath)
    (mkFilePVLastSignState 0 0 stepNone None None stateFilePath).

Definition loadFilePV (keyFilePath stateFilePath : bytes) (loadState : bool) (disk : Disk)
    : outcome FilePV :=
  match keyFiles disk !! keyFilePath with
  | None => Panic "exit: cannot read the key file"
  | Some k =>
    let pubKey := pvPubKeyOf (pvkPrivKey k) in
    let pvKey := mkFilePVKey (pkAddress pubKey) pubKey (pvkPrivKey k) keyFilePath in
    let! pvState :=
      (if loadState then
         match stateFiles disk !! stateFilePath with
         | None => Panic "exit: cannot read the state file"
         | Some s => Done s
         end
       else Done (mkFilePVLastSignState 0 0 0 None None [])) in
    Done (mkFilePV pvKey
            (mkFilePVLastSignState (lssHeight pvState) (lssRound pvState) (lssStep pvState)
               (lssSignature pvState) (lssSignBytes pvState) stateFilePath))
  end.

Definition LoadFilePV (keyFilePath stateFilePath : bytes) := loadFilePV keyFilePath stateFilePath true.
Definition LoadFilePVEmptyState (keyFilePath stateFilePath : bytes) :=
  loadFilePV keyFilePath stateFilePath false.

Definition LoadOrGenFilePV (privKey : PrivKey) (keyFilePath stateFilePath : bytes) (disk : Disk)
    : outcome (FilePV * Disk) :=
  if bool_decide (is_Some (keyFiles disk !! keyFilePath)) then
    let! pv := LoadFilePV keyFilePath stateFilePath disk in Done (pv, disk)
  else
    let pv := GenFilePV privKey keyFilePath stateFilePath in
    let! disk := FilePV_Save pv disk in Done (pv, disk).

Definition saveSigned (pv : FilePV) (height round step : Z) (signBytes sig : bytes) (disk : Disk)
    : outcome (FilePV * Disk) :=
  let lss := mkFilePVLastSignState height round step (Some sig) (Some signBytes)
               (lssFilePath (LastSignState pv)) in
  let! disk := FilePVLastSignState_Save lss disk in Done (mkFilePV (Key pv) lss, disk).

(** [FilePV.Reset] *)
Definition FilePV_Reset (pv : FilePV) (disk : Disk) : outcome (FilePV * Disk) :=
  let pv := mkFilePV (Key pv) (mkFilePVLastSignState 0 0 0 None None (lssFilePath (LastSignState pv))) in
  let! disk := FilePV_Save pv disk in Done (pv, disk).

Definition setVoteTime (t : Time) (v : CanonicalVote) : CanonicalVote :=
  mkCanonicalVote (cvType v) (cvHeight v) (cvRound v) (cvBlockID v) t (cvChainID v).
Definition setProposalTime (t : Time) (p : CanonicalProposal) : CanonicalProposal :=
  mkCanonicalProposal (cpType p) (cpHeight p) (cpRound p) (cpPOLRound p) (cpBlockID p) t (cpChainID p).

(** [now] is [tmtime.Now()]. *)
Definition checkVotesOnlyDifferByTimestamp (now : Time) (lastSignBytes newSignBytes : bytes)
    : outcome (Time * bool) :=
  match UnmarshalDelimited CanonicalVote_Unmarshal zeroCanonicalVote lastSignBytes with
  | inl err => Panic ("LastSignBytes cannot be unmarshalled into vote: " +:+ err)
  | inr lastVote =>
    match UnmarshalDelimited CanonicalVote_Unmarshal zeroCanonicalVote newSignBytes with
    | inl err => Panic ("signBytes cannot be unmarshalled into vote: " +:+ err)
    | inr newVote =>
      Done (cvTimestamp lastVote, EqualVote (setVoteTime now newVote) (setVoteTime now lastVote))
    end
  end.

Definition checkProposalsOnlyDifferByTimestamp (now : Time) (lastSignBytes newSignBytes : bytes)
    : outcome (Time * bool) :=
  match UnmarshalDelimited CanonicalProposal_Unmarshal zeroCanonicalProposal lastSignBytes with
  | inl err => Panic ("LastSignBytes cannot be unmarshalled into proposal: " +:+ err)
  | inr lastProposal =>
    match UnmarshalDelimited CanonicalProposal_Unmarshal zeroCanonicalProposal newSignBytes with
    | inl err => Panic ("signBytes cannot be unmarshalled into proposal: " +:+ err)
    | inr newProposal =>
      Done (cpTimestamp lastProposal,
            EqualProposal (setProposalTime now newProposal) (setProposalTime now lastProposal))
    end
  end.

(** [vote.Timestamp = ...; vote.Signature = ...] *)
Definition signedVote (t : Time) (sig : bytes) (v : protoVote) : protoVote :=
  mkProtoVote (pvType v) (pvHeight v) (pvRound v) (pvBlockID v) t (pvValidatorAddress v)
    (pvValidatorIndex v) sig.
Definition signedProposal (t : Time) (sig : bytes) (p : protoProposal) : protoProposal :=
  mkProtoProposal (ppType p) (ppHeight p) (ppRound p) (ppPolRound p) (ppBlockID p) t sig.

(** The error, the vote as the call leaves it, the signer and the disk. *)
Definition signVote (now : Time) (pv : FilePV) (chainID : bytes) (vote : protoVote) (disk : Disk)
    : outcome (option error * protoVote * FilePV * Disk) :=
  let! step := voteToStep vote in
  let height := pvHeight vote in
  let round := pvRound vote in
  let lss := LastSignState pv in
  let! (sameHRS, err) := CheckHRS lss height round step in
  match err with
  | Some err => Done (Some err, vote, pv, disk)
  | None =>
    let! signBytes := VoteSignBytes chainID vote in
    if sameHRS : bool then
      let lastSignBytes := default [] (lssSignBytes lss) in
      let lastSignature := default [] (lssSignature lss) in
      if bool_decide (signBytes = lastSignBytes)
      then Done (None, signedVote (pvTimestamp vote) lastSignature vote, pv, disk)
      else
        let! (timestamp, ok) := checkVotesOnlyDifferByTimestamp now lastSignBytes signBytes in
        if ok : bool then Done (None, signedVote timestamp lastSignature vote, pv, disk)
        else Done (Some "conflicting data", vote, pv, disk)
    else
      match pvSign (pvkPrivKey (Key pv)) signBytes with
      | inl err => Done (Some err, vote, pv, disk)
      | inr sig =>
        let! (pv, disk) := saveSigned pv height round step signBytes sig disk in
        Done (None, signedVote (pvTimestamp vote) sig vote, pv, disk)
      end
  end.

Definition signProposal (now : Time) (pv : FilePV) (chainID : bytes) (proposal : protoProposal) (disk : Disk)
    : outcome (option error * protoProposal * FilePV * Disk) :=
  let height := ppHeight proposal in
  let round := ppRound proposal in
  let lss := LastSignState pv in
  let! (sameHRS, err) := CheckHRS lss height round stepPropose in
  match err with
  | Some err => Done (Some err, proposal, pv, disk)
  | None =>
    let! signBytes := ProposalSignBytes chainID proposal in
    if sameHRS : bool then
      let lastSignBytes := default [] (lssSignBytes lss) in
      let lastSignature := default [] (lssSignature lss) in
      if bool_decide (signBytes = lastSignBytes)
      then Done (None, signedProposal (ppTimestamp proposal) lastSignature proposal, pv, disk)
      else
        let! (timestamp, ok) := checkProposalsOnlyDifferByTimestamp now lastSignBytes signBytes in
        if ok : bool then Done (None, signedProposal timestamp lastSignature proposal, pv, disk)
        else Done (Some "conflicting data", proposal, pv, disk)
    else
      match pvSign (pvkPrivKey (Key pv)) signBytes with
      | inl err => Done (Some err, proposal, pv, disk)
      | inr sig =>
        let! (pv, disk) := saveSigned pv height round stepPropose signBytes sig disk in
        Done (None, signedProposal (ppTimestamp proposal) sig proposal, pv, disk)
      end
  end.

Definition wrapError {A} (what : error) (r : outcome (option error * A * FilePV * Disk))
    : outcome (option error * A * FilePV * Disk) :=
  let! (e, v, pv, disk) := r in
  match e with
  | Some err => Done (Some (what +:+ err), v, pv, disk)
  | None => Done (None, v, pv, disk)
  end.

Definition SignVote now pv chainID vote disk :=
  wrapError "error signing vote: " (signVote now pv chainID vote disk).
Definition SignProposal now pv chainID proposal disk :=
  wrapError "error signing proposal: " (signProposal now pv chainID proposal disk).

End privval.
