(* ===== verification/PrivValSafety.v ===== *)
(** * The signer never signs twice

    Every sequence of signing requests, refusals and crashes, a crash being
    possible at any moment of a request, leaves released messages that agree
    wherever they are for the same height, round and step. *)

From Stdlib Require Import ZArith Lia.
From S2P Require Import Prelude Proto Validator BlockTypes SignBytes ProtoDecode ProtoRoundtrip.
From S2P Require Import ValidatorSetUpdate CommitVerify PrivVal.
From stdpp Require Import base gmap list option strings numbers sorting relations.

Local Open Scope Z_scope.

(** ** Heights, rounds and steps *)

Definition HRS : Type := Z * Z * Z.

Definition hrs_lt (a b : HRS) : Prop :=
  let '(h, r, s) := a in let '(h', r', s') := b in
  h < h' \/ (h = h' /\ (r < r' \/ (r = r' /\ s < s'))).

Lemma hrs_lt_trans a b c : hrs_lt a b -> hrs_lt b c -> hrs_lt a c.
Proof. destruct a as [[??]?], b as [[??]?], c as [[??]?]. simpl. lia. Qed.

Lemma hrs_lt_irrefl a : ~ hrs_lt a a.
Proof. destruct a as [[??]?]. simpl. lia. Qed.

Definition lssHRS (lss : FilePVLastSignState) : HRS := (lssHeight lss, lssRound lss, lssStep lss).

Lemma CheckHRS_spec lss h r s :
  match CheckHRS lss h r s with
  | Done (true, None) => lssHRS lss = (h, r, s) /\ exists sb sig, lssSignBytes lss = Some sb /\ lssSignature lss = Some sig
  | Done (false, None) => hrs_lt (lssHRS lss) (h, r, s)
  | Done (true, Some _) => False
  | Done (false, Some _) => True
  | Panic _ => lssSignature lss = None /\ lssSignBytes lss <> None
  end.
Proof.
  unfold CheckHRS, lssHRS. destruct (Z.ltb_spec h (lssHeight lss)); [done|].
  destruct (Z.eqb_spec (lssHeight lss) h); [|simpl; lia].
  destruct (Z.ltb_spec r (lssRound lss)); [done|]. destruct (Z.eqb_spec (lssRound lss) r); [|simpl; lia].
  destruct (Z.ltb_spec s (lssStep lss)); [done|]. destruct (Z.eqb_spec (lssStep lss) s); [|simpl; lia].
  subst. destruct (lssSignBytes lss), (lssSignature lss); naive_solver.
Qed.

#[global] Arguments hrs_lt : simpl never.

(** ** Messages *)

Section safety.
Context {ST : StdTime} {G : Gogo} {K : Signer} `{Crypto}.
Context (laws : StdTimeLaws ST) (glaws : GogoLaws ST G).

Inductive message :=
  | VoteMsg (chainID : bytes) (v : Vote)
  | ProposalMsg (chainID : bytes) (p : Proposal).

Definition voteStep (v : Vote) : Z := if vType v =? PrevoteType then stepPrevote else stepPrecommit.

Definition msgHRS (m : message) : HRS :=
  match m with
  | VoteMsg _ v => (vHeight v, vRound v, voteStep v)
  | ProposalMsg _ p => (pHeight p, pRound p, stepPropose)
  end.

Definition msgSignBytes (m : message) : outcome bytes :=
  match m with
  | VoteMsg c v => VoteSignBytes c (Vote_ToProto v)
  | ProposalMsg c p => ProposalSignBytes c (Proposal_ToProto (Some p))
  end.

Definition msgSignature (m : message) : bytes :=
  match m with VoteMsg _ v => vSignature v | ProposalMsg _ p => pSignature p end.

Definition withSignature (t : Time) (sig : bytes) (m : message) : message :=
  match m with
  | VoteMsg c v => VoteMsg c (mkVote (vType v) (vHeight v) (vRound v) (vBlockID v) t
                                (vValidatorAddress v) (vValidatorIndex v) sig)
  | ProposalMsg c p => ProposalMsg c (mkProposal (pType p) (pHeight p) (pRound p) (pPOLRound p)
                                        (pBlockID p) t sig)
  end.

Definition msgTime (m : message) : Time :=
  match m with VoteMsg _ v => vTimestamp v | ProposalMsg _ p => pTimestamp p end.

(** Values of their Go types, with a vote type that the signer knows. *)
Definition msg_typed (m : message) : Prop :=
  match m with
  | VoteMsg c v => vote_typed v /\ small c /\ (vType v = PrevoteType \/ vType v = PrecommitType)
  | ProposalMsg c p => proposal_typed p /\ small c
  end.

(** [SignVote] or [SignProposal]: the error, the message as the call leaves
    it, the signer and the disk. *)
Definition signMsg (now : Time) (pv : FilePV) (m : message) (disk : Disk)
    : outcome (option error * message * FilePV * Disk) :=
  match m with
  | VoteMsg c v =>
    let! (e, v', pv, disk) := SignVote now pv c (Vote_ToProto v) disk in
    Done (e, withSignature (pvTimestamp v') (pvSignature v') m, pv, disk)
  | ProposalMsg c p =>
    let! (e, p', pv, disk) := SignProposal now pv c (Proposal_ToProto (Some p)) disk in
    Done (e, withSignature (ppTimestamp p') (ppSignature p') m, pv, disk)
  end.

(** Two messages of the same step whose sign bytes only differ by time. *)
Definition onlyDifferByTimestamp (now : Time) (m : message) (last new : bytes) : outcome (Time * bool) :=
  match m with
  | VoteMsg _ _ => checkVotesOnlyDifferByTimestamp now last new
  | ProposalMsg _ _ => checkProposalsOnlyDifferByTimestamp now last new
  end.

(** The common form of the two methods. *)
Definition signCore (now : Time) (pv : FilePV) (m : message) (disk : Disk)
    : outcome (option error * message * FilePV * Disk) :=
  let '(height, round, step) := msgHRS m in
  let lss := LastSignState pv in
  let! (sameHRS, err) := CheckHRS lss height round step in
  match err with
  | Some err => Done (Some err, m, pv, disk)
  | None =>
    let! signBytes := msgSignBytes m in
    if sameHRS : bool then
      let lastSignBytes := default [] (lssSignBytes lss) in
      let lastSignature := default [] (lssSignature lss) in
      if bool_decide (signBytes = lastSignBytes)
      then Done (None, withSignature (msgTime m) lastSignature m, pv, disk)
      else
        let! (timestamp, ok) := onlyDifferByTimestamp now m lastSignBytes signBytes in
        if ok : bool then Done (None, withSignature timestamp lastSignature m, pv, disk)
        else Done (Some "conflicting data", m, pv, disk)
    else
      match pvSign (pvkPrivKey (Key pv)) signBytes with
      | inl err => Done (Some err, m, pv, disk)
      | inr sig =>
        let! (pv, disk) := saveSigned pv height round step signBytes sig disk in
        Done (None, withSignature (msgTime m) sig m, pv, disk)
      end
  end.

(** [signMsg] is [signCore] up to the text of the error. *)
Definition sameButText (r r' : outcome (option error * message * FilePV * Disk)) : Prop :=
  match r, r' with
  | Done (e, m, pv, d), Done (e', m', pv', d') =>
      (e = None <-> e' = None) /\ m = m' /\ pv = pv' /\ d = d'
  | Panic _, Panic _ => True
  | _, _ => False
  end.

Lemma signMsg_core now pv m disk :
  msg_typed m -> sameButText (signMsg now pv m disk) (signCore now pv m disk).
Proof.
  intros T.
  unfold signMsg, signCore, SignVote, SignProposal, wrapError, signVote, signProposal, voteToStep.
  destruct m as [c v|c p]; cbn [msgHRS msgSignBytes msgTime onlyDifferByTimestamp].
  - assert (pvType (Vote_ToProto v) = vType v) as -> by done.
    assert (forall X (k : Z -> outcome X), obind (if vType v =? PrevoteType then Done stepPrevote
              else if vType v =? PrecommitType then Done stepPrecommit else Panic "Unknown vote type") k
            = k (voteStep v)) as Hstep.
    { intros X k. unfold voteStep. destruct T as (_ & _ & [-> | ->]); done. }
    rewrite Hstep. cbn [Vote_ToProto pvHeight pvRound pvTimestamp].
    destruct (CheckHRS _ _ _ _) as [[b [e|]]|]; simpl; [destruct v; naive_solver| |done].
    destruct (VoteSignBytes _ _) as [sb|]; simpl; [|done].
    destruct b; [case_bool_decide; simpl; [done|]|].
    + destruct (checkVotesOnlyDifferByTimestamp _ _ _) as [[t [|]]|]; simpl; [done| |done].
      destruct v; naive_solver.
    + destruct (pvSign _ _) as [e|sig]; simpl; [destruct v; naive_solver|].
      destruct (saveSigned _ _ _ _ _ _ _) as [[pv' d']|]; done.
  - cbn [Proposal_ToProto ppHeight ppRound ppTimestamp].
    destruct (CheckHRS _ _ _ _) as [[b [e|]]|]; simpl; [destruct p; naive_solver| |done].
    destruct (ProposalSignBytes _ _) as [sb|]; simpl; [|done].
    destruct b; [case_bool_decide; simpl; [done|]|].
    + destruct (checkProposalsOnlyDifferByTimestamp _ _ _) as [[t [|]]|]; simpl; [done| |done].
      destruct p; naive_solver.
    + destruct (pvSign _ _) as [e|sig]; simpl; [destruct p; naive_solver|].
      destruct (saveSigned _ _ _ _ _ _ _) as [[pv' d']|]; done.
Qed.

(** ** Sign bytes and their canonical messages *)

Lemma VoteSignBytes_ext c c' v v' :
  CanonicalizeVote c v = CanonicalizeVote c' v' -> VoteSignBytes c v = VoteSignBytes c' v'.
Proof. intros E. unfold VoteSignBytes. by rewrite E. Qed.

Lemma ProposalSignBytes_ext c c' p p' :
  CanonicalizeProposal c p = CanonicalizeProposal c' p' -> ProposalSignBytes c p = ProposalSignBytes c' p'.
Proof. intros E. unfold ProposalSignBytes. by rewrite E. Qed.

Lemma vote_decoded c v bz :
  vote_typed v -> small c -> VoteSignBytes c (Vote_ToProto v) = Done bz ->
  exists b, CanonicalizeBlockID (BlockID_ToProto (Some (vBlockID v))) = Done b /\
    UnmarshalDelimited CanonicalVote_Unmarshal zeroCanonicalVote bz
    = inr (mkCanonicalVote (vType v) (vHeight v) (vRound v) b (vTimestamp v) c).
Proof.
  intros T Hc E. destruct (VoteSignBytes_inv laws c v bz T Hc E) as (b & w & Eb & Tm & Ew & ->).
  exists b. split; [done|]. rewrite UnmarshalDelimited_exact by exact (cvote_write_fits laws _ _ Tm Ew).
  by apply cvote_roundtrip.
Qed.

Lemma proposal_decoded c p bz :
  proposal_typed p -> small c -> ProposalSignBytes c (Proposal_ToProto (Some p)) = Done bz ->
  exists b, CanonicalizeBlockID (BlockID_ToProto (Some (pBlockID p))) = Done b /\
    UnmarshalDelimited CanonicalProposal_Unmarshal zeroCanonicalProposal bz
    = inr (mkCanonicalProposal ProposalType (pHeight p) (pRound p) (pPOLRound p) b (pTimestamp p) c).
Proof.
  intros T Hc E. destruct (ProposalSignBytes_inv laws c p bz T Hc E) as (b & w & Eb & Tm & Ew & ->).
  exists b. split; [done|]. rewrite UnmarshalDelimited_exact by exact (cproposal_write_fits laws _ _ Tm Ew).
  by apply cproposal_roundtrip.
Qed.

Lemma sign_bytes_nonempty m bz : msg_typed m -> msgSignBytes m = Done bz -> bz <> [].
Proof.
  assert (forall w : bytes, encodeVarint (Z.of_nat (length w)) ++ w <> []) as Hne.
  { intros w. unfold encodeVarint. cbn [varintLoop]. by destruct (128 <=? _). }
  destruct m as [c v|c p]; intros T E.
  - destruct (VoteSignBytes_inv laws c v bz) as (b & w & _ & _ & _ & ->); [apply T..|done|apply Hne].
  - destruct (ProposalSignBytes_inv laws c p bz) as (b & w & _ & _ & _ & ->); [apply T..|done|apply Hne].
Qed.

(** The comparison up to time finds the time of the last message, and
    succeeds exactly when the new message with that time has the last
    message's sign bytes. *)
Lemma onlyDifferByTimestamp_spec now m m0 last bz sig :
  msg_typed m -> msg_typed m0 -> msgHRS m = msgHRS m0 ->
  msgSignBytes m0 = Done last -> msgSignBytes m = Done bz ->
  exists ok, onlyDifferByTimestamp now m last bz = Done (msgTime m0, ok) /\
    (ok = true <-> msgSignBytes (withSignature (msgTime m0) sig m) = Done last).
Proof.
  intros T T0 EH E0 E. destruct m as [c v|c p], m0 as [c0 v0|c0 p0];
    cbn [msgSignBytes msg_typed msgHRS onlyDifferByTimestamp msgTime withSignature] in *.
  - destruct T as (T & Hc & _), T0 as (T0 & Hc0 & _).
    destruct (vote_decoded c v bz T Hc E) as (b & Eb & D), (vote_decoded c0 v0 last T0 Hc0 E0) as (b0 & Eb0 & D0).
    unfold checkVotesOnlyDifferByTimestamp. rewrite D, D0. eexists. split; [done|].
    rewrite (gogo_vote _ _ glaws). unfold setVoteTime. split.
    + intros [= E1 E2 E3 E4 E5]. rewrite <- E0. apply VoteSignBytes_ext. unfold CanonicalizeVote.
      cbn [Vote_ToProto pvBlockID pvType pvHeight pvRound pvTimestamp vBlockID vType vHeight vRound vTimestamp].
      rewrite Eb, Eb0, !bind_Done. congruence.
    + intros E'. set (v' := mkVote _ _ _ _ _ _ _ _) in E'.
      assert (vote_typed v') as T' by by destruct T.
      destruct (vote_decoded c v' last T' Hc E') as (b' & Eb' & D').
      change (vBlockID v') with (vBlockID v) in Eb'. rewrite Eb in Eb'. injection Eb' as <-.
      rewrite D0 in D'. injection D' as -> -> -> -> ->. done.
  - unfold voteStep, stepPrevote, stepPrecommit, stepPropose in EH. destruct (_ =? _); simplify_eq.
  - unfold voteStep, stepPrevote, stepPrecommit, stepPropose in EH. destruct (_ =? _); simplify_eq.
  - destruct T as (T & Hc), T0 as (T0 & Hc0).
    destruct (proposal_decoded c p bz T Hc E) as (b & Eb & D),
      (proposal_decoded c0 p0 last T0 Hc0 E0) as (b0 & Eb0 & D0).
    unfold checkProposalsOnlyDifferByTimestamp. rewrite D, D0. eexists. split; [done|].
    rewrite (gogo_proposal _ _ glaws). unfold setProposalTime. split.
    + intros [= E1 E2 E3 E4 E5]. rewrite <- E0. apply ProposalSignBytes_ext. unfold CanonicalizeProposal.
      cbn [Proposal_ToProto ppBlockID ppHeight ppRound ppPolRound ppTimestamp pBlockID pHeight pRound pPOLRound pTimestamp].
      rewrite Eb, Eb0, !bind_Done. congruence.
    + intros E'. set (p' := mkProposal _ _ _ _ _ _ _) in E'.
      assert (proposal_typed p') as T' by by destruct T.
      destruct (proposal_decoded c p' last T' Hc E') as (b' & Eb' & D').
      change (pBlockID p') with (pBlockID p) in Eb'. rewrite Eb in Eb'. injection Eb' as <-.
      rewrite D0 in D'. injection D' as -> -> -> -> ->. done.
Qed.

(** ** One request *)

Lemma withSignature_HRS t sig m : msgHRS (withSignature t sig m) = msgHRS m.
Proof. by destruct m. Qed.

Lemma withSignature_typed t sig m : msg_typed m -> msg_typed (withSignature t sig m).
Proof. destruct m; intros T; destruct T as [[] T2]; by split. Qed.

Lemma withSignature_bytes sig m : msgSignBytes (withSignature (msgTime m) sig m) = msgSignBytes m.
Proof. by destruct m. Qed.

Lemma withSignature_sig t sig m : msgSignature (withSignature t sig m) = sig.
Proof. by destruct m. Qed.

(** What is known of the message signed last. *)
Definition lss_ok (key : PrivKey) (lss : FilePVLastSignState) : Prop :=
  forall sb, lssSignBytes lss = Some sb ->
    exists m, msg_typed m /\ msgHRS m = lssHRS lss /\ msgSignBytes m = Done sb /\
      (forall sig, lssSignature lss = Some sig -> pvSign key sb = inr sig).

(** The message [m'] is released for the request [m]. *)
Record released_for (pv : FilePV) (disk : Disk) (m m' : message) (pv' : FilePV) (disk' : Disk) : Prop := {
  rf_typed : msg_typed m';
  rf_hrs : msgHRS m' = msgHRS m;
  rf_key : Key pv' = Key pv;
  rf_path : lssFilePath (LastSignState pv') = lssFilePath (LastSignState pv);
  rf_last : lssHRS (LastSignState pv') = msgHRS m;
  rf_bytes : exists sb, msgSignBytes m' = Done sb /\ lssSignBytes (LastSignState pv') = Some sb /\
    lssSignature (LastSignState pv') = Some (msgSignature m') /\
    pvSign (pvkPrivKey (Key pv)) sb = inr (msgSignature m');
  rf_step : (pv' = pv /\ disk' = disk) \/
    (hrs_lt (lssHRS (LastSignState pv)) (msgHRS m) /\
     FilePVLastSignState_Save (LastSignState pv') disk = Done disk')
}.

Lemma signCore_spec now pv m disk e m' pv' disk' :
  msg_typed m -> lss_ok (pvkPrivKey (Key pv)) (LastSignState pv) ->
  signCore now pv m disk = Done (e, m', pv', disk') ->
  match e with
  | Some _ => m' = m /\ pv' = pv /\ disk' = disk
  | None => released_for pv disk m m' pv' disk'
  end.
Proof.
  intros T L E. unfold signCore in E. destruct (msgHRS m) as [[h r] s] eqn:EH.
  pose proof (CheckHRS_spec (LastSignState pv) h r s) as HC.
  destruct (CheckHRS (LastSignState pv) h r s) as [[b [err|]]|]; [|rewrite bind_Done in E|done].
  { rewrite bind_Done in E. by injection E as <- <- <- <-. }
  destruct (msgSignBytes m) as [sb|] eqn:Esb; [rewrite bind_Done in E|done]. destruct b.
  - destruct HC as (EL & last & sig & Hlast & Hsig).
    destruct (L last Hlast) as (m0 & T0 & EH0 & Eb0 & Hs0). specialize (Hs0 sig Hsig).
    rewrite Hlast, Hsig in E. cbn [default from_option] in E. unfold id in E.
    assert (forall t, msgSignBytes (withSignature t sig m) = Done last ->
              released_for pv disk m (withSignature t sig m) pv disk) as Hrel.
    { intros t Et. split; [by apply withSignature_typed|apply withSignature_HRS|done|done| | |by left].
      - congruence.
      - exists last. by rewrite withSignature_sig. }
    case_bool_decide as Eq.
    + injection E as <- <- <- <-. apply Hrel. rewrite withSignature_bytes. congruence.
    + destruct (onlyDifferByTimestamp_spec now m m0 last sb sig T T0) as (ok & Eo & Hok); [congruence..|].
      rewrite Eo, bind_Done in E. destruct ok; injection E as <- <- <- <-; [|done].
      apply Hrel. by apply Hok.
  - destruct (pvSign (pvkPrivKey (Key pv)) sb) as [err|sig] eqn:Esig; [by injection E as <- <- <- <-|].
    unfold saveSigned in E. set (lss := mkFilePVLastSignState _ _ _ _ _ _) in E.
    destruct (FilePVLastSignState_Save lss disk) as [d|] eqn:Esave; [|done].
    rewrite !bind_Done in E. injection E as <- <- <- <-.
    split; [by apply withSignature_typed|apply withSignature_HRS|done|done|by rewrite EH| |].
    + exists sb. rewrite withSignature_bytes, withSignature_sig. done.
    + right. by rewrite EH.
Qed.

Lemma signMsg_spec now pv m disk e m' pv' disk' :
  msg_typed m -> lss_ok (pvkPrivKey (Key pv)) (LastSignState pv) ->
  signMsg now pv m disk = Done (e, m', pv', disk') ->
  match e with
  | Some _ => m' = m /\ pv' = pv /\ disk' = disk
  | None => released_for pv disk m m' pv' disk'
  end.
Proof.
  intros T L E. pose proof (signMsg_core now pv m disk T) as Hc. rewrite E in Hc.
  destruct (signCore now pv m disk) as [[[[e' m''] pv''] d'']|] eqn:E'; [|done].
  simpl in Hc. destruct Hc as (He & <- & <- & <-).
  pose proof (signCore_spec now pv m disk e' m' pv' disk' T L E') as Hs.
  destruct e, e'; try done; naive_solver.
Qed.

(** ** Sequences of requests and crashes *)

Record Sys := mkSys { sysPV : FilePV; sysDisk : Disk; sysReleased : list message }.

Definition reload (pv : FilePV) (disk : Disk) : outcome FilePV :=
  LoadFilePV (pvkFilePath (Key pv)) (lssFilePath (LastSignState pv)) disk.

Inductive pv_step : Sys -> Sys -> Prop :=
  | pv_release now pv disk R m m' pv' disk' :
      msg_typed m -> signMsg now pv m disk = Done (None, m', pv', disk') ->
      pv_step (mkSys pv disk R) (mkSys pv' disk' (m' :: R))
  | pv_refuse now pv disk R m e m' pv' disk' :
      msg_typed m -> signMsg now pv m disk = Done (Some e, m', pv', disk') ->
      pv_step (mkSys pv disk R) (mkSys pv' disk' R)
  | pv_crash pv disk R pv' :
      reload pv disk = Done pv' -> pv_step (mkSys pv disk R) (mkSys pv' disk R)
  | pv_crash_saved now pv disk R m e m' pv1 disk1 pv' :
      msg_typed m -> signMsg now pv m disk = Done (e, m', pv1, disk1) ->
      reload pv1 disk1 = Done pv' -> pv_step (mkSys pv disk R) (mkSys pv' disk1 R).

(** A released message relative to the state that has been saved. *)
Definition accounted (key : PrivKey) (lss : FilePVLastSignState) (m : message) : Prop :=
  msg_typed m /\ exists sb, msgSignBytes m = Done sb /\ pvSign key sb = inr (msgSignature m) /\
    (hrs_lt (msgHRS m) (lssHRS lss) \/ (msgHRS m = lssHRS lss /\ lssSignBytes lss = Some sb)).

Record sys_inv (key : PrivKey) (kp sp : bytes) (s : Sys) : Prop := {
  si_key : pvkPrivKey (Key (sysPV s)) = key;
  si_kp : pvkFilePath (Key (sysPV s)) = kp;
  si_sp : lssFilePath (LastSignState (sysPV s)) = sp;
  si_keyfile : exists k, keyFiles (sysDisk s) !! kp = Some k /\ pvkPrivKey k = key;
  si_file : stateFiles (sysDisk s) !! sp = Some (persisted (LastSignState (sysPV s)));
  si_last : lss_ok key (LastSignState (sysPV s));
  si_accounted : forall m, m ∈ sysReleased s -> accounted key (LastSignState (sysPV s)) m;
  si_agree : forall m m', m ∈ sysReleased s -> m' ∈ sysReleased s -> msgHRS m = msgHRS m' ->
    msgSignBytes m = msgSignBytes m'
}.

Lemma omitempty_Some o x : omitempty o = Some x -> o = Some x.
Proof. by destruct o as [[|]|]. Qed.

Lemma omitempty_keep o x : o = Some x -> x <> [] -> omitempty o = Some x.
Proof. intros -> Hx. by destruct x. Qed.

Lemma reload_inv key kp sp pv disk R pv' :
  sys_inv key kp sp (mkSys pv disk R) -> reload pv disk = Done pv' ->
  sys_inv key kp sp (mkSys pv' disk R).
Proof.
  intros [I1 I2 I3 (k & Hk & Ek) I5 I6 I7 I8] E. simpl in *.
  unfold reload, LoadFilePV, loadFilePV in E. rewrite I2, I3, Hk, I5, bind_Done in E.
  injection E as <-. split; simpl; try done; [by exists k| | |].
  - rewrite I5. unfold persisted. simpl. do 2 f_equal.
    + by destruct (lssSignature (LastSignState pv)) as [[|]|].
    + by destruct (lssSignBytes (LastSignState pv)) as [[|]|].
  - intros sb Hsb%omitempty_Some. destruct (I6 sb Hsb) as (m & T & EH & Eb & Hs).
    exists m. split_and!; try done. intros sig Hsig%omitempty_Some. auto.
  - intros m Hm. destruct (I7 m Hm) as (T & sb & Eb & Hsig & Hc). split; [done|]. exists sb.
    split_and!; [done..|]. destruct Hc as [?|[EH Esb]]; [by left|right]. split; [done|].
    simpl. apply omitempty_keep; [done|]. by eapply sign_bytes_nonempty.
Qed.

Lemma drop_inv key kp sp pv disk m R :
  sys_inv key kp sp (mkSys pv disk (m :: R)) -> sys_inv key kp sp (mkSys pv disk R).
Proof. intros [I1 I2 I3 I4 I5 I6 I7 I8]. split; simpl in *; try done; set_solver. Qed.

Lemma accounted_later key lss lss' m :
  hrs_lt (lssHRS lss) (lssHRS lss') -> accounted key lss m -> accounted key lss' m.
Proof.
  intros Hlt (T & sb & Eb & Hs & Hc). split; [done|]. exists sb. split_and!; [done..|]. left.
  destruct Hc as [Hc|[Hc _]]; [by eapply hrs_lt_trans|by rewrite Hc].
Qed.

Lemma release_inv key kp sp pv disk R m m' pv' disk' :
  sys_inv key kp sp (mkSys pv disk R) -> released_for pv disk m m' pv' disk' ->
  sys_inv key kp sp (mkSys pv' disk' (m' :: R)).
Proof.
  intros [I1 I2 I3 I4 I5 I6 I7 I8] [T' EH EK EP EL (sb & Eb & Elast & Elsig & Esig) St]. simpl in *.
  assert (accounted key (LastSignState pv') m') as Hnew.
  { split; [done|]. exists sb. rewrite <- I1. split_and!; [done..|]. right. by rewrite EH, EL. }
  assert (lss_ok key (LastSignState pv')) as Hlast.
  { intros sb' Hsb'. assert (sb' = sb) as -> by congruence. exists m'.
    split_and!; [done|by rewrite EH|done|]. intros sig Hsig. rewrite <- I1. congruence. }
  assert (forall x, x ∈ R -> accounted key (LastSignState pv') x /\
            (msgHRS x = msgHRS m' -> msgSignBytes x = Done sb)) as Hold.
  { intros x Hx. pose proof (I7 x Hx) as Ax. destruct St as [[-> ->]|[Hlt _]].
    - split; [done|]. intros E. destruct Ax as (_ & sbx & Ex & _ & [Hc|[_ Hc]]); [|congruence].
      exfalso. rewrite E, EH, <- EL in Hc. by apply hrs_lt_irrefl in Hc.
    - split; [apply (accounted_later key (LastSignState pv)); [by rewrite EL|done]|]. intros E. exfalso.
      destruct Ax as (_ & sbx & _ & _ & [Hc|[Hc _]]); apply (hrs_lt_irrefl (msgHRS m)).
      + rewrite E, EH in Hc. by eapply hrs_lt_trans.
      + rewrite <- Hc in Hlt. rewrite E, EH in Hlt. done. }
  assert (exists k, keyFiles disk' !! kp = Some k /\ pvkPrivKey k = key) as Hkf.
  { destruct St as [[-> ->]|[_ Hsv]]; [done|]. unfold FilePVLastSignState_Save in Hsv.
    case_bool_decide; [done|]. by injection Hsv as <-. }
  assert (stateFiles disk' !! sp = Some (persisted (LastSignState pv'))) as Hsf.
  { destruct St as [[-> ->]|[_ Hsv]]; [done|]. unfold FilePVLastSignState_Save in Hsv.
    case_bool_decide; [done|]. injection Hsv as <-. simpl. rewrite EP, I3. by rewrite lookup_insert_eq. }
  split; simpl; try done; [congruence..| |].
  - intros x [->|Hx]%elem_of_cons; [done|by apply Hold].
  - intros x y [->|Hx]%elem_of_cons [->|Hy]%elem_of_cons E; [done| | |auto].
    + destruct (Hold y Hy) as [_ Hb]. by rewrite Eb, Hb.
    + destruct (Hold x Hx) as [_ Hb]. by rewrite Eb, Hb.
Qed.

Lemma pv_step_inv key kp sp s s' : sys_inv key kp sp s -> pv_step s s' -> sys_inv key kp sp s'.
Proof.
  intros I St. destruct St as [now pv disk R m m' pv' disk' T E|now pv disk R m e m' pv' disk' T E
                              |pv disk R pv' E|now pv disk R m e m' pv1 disk1 pv' T E Er].
  - apply signMsg_spec in E; [by eapply release_inv|done|]. pose proof (si_last _ _ _ _ I) as L.
    by rewrite <- (si_key _ _ _ _ I) in L.
  - apply signMsg_spec in E as (-> & -> & ->); [done|done|]. pose proof (si_last _ _ _ _ I) as L.
    by rewrite <- (si_key _ _ _ _ I) in L.
  - by eapply reload_inv.
  - pose proof (si_last _ _ _ _ I) as L. rewrite <- (si_key _ _ _ _ I) in L.
    apply signMsg_spec in E; [|done|done]. eapply reload_inv; [|exact Er]. destruct e.
    + by destruct E as (-> & -> & ->).
    + eapply drop_inv. by eapply release_inv.
Qed.

Lemma pv_steps_inv key kp sp s s' : sys_inv key kp sp s -> rtc pv_step s s' -> sys_inv key kp sp s'.
Proof. intros I St. induction St; [done|]. eauto using pv_step_inv. Qed.

(** The signer of a new validator. *)
Lemma fresh_inv privKey kp sp disk pv disk' :
  keyFiles disk !! kp = None -> LoadOrGenFilePV privKey kp sp disk = Done (pv, disk') ->
  sys_inv privKey kp sp (mkSys pv disk' []).
Proof.
  intros Hno E. unfold LoadOrGenFilePV in E. rewrite bool_decide_eq_false_2 in E by (rewrite Hno; by intros []).
  unfold FilePV_Save, FilePVKey_Save, FilePVLastSignState_Save in E. simpl in E.
  case_bool_decide; [done|]. rewrite bind_Done in E. case_bool_decide; [done|]. rewrite bind_Done in E.
  injection E as <- <-. split; simpl; try done; try set_solver.
  - eexists. by rewrite lookup_insert_eq.
  - by rewrite lookup_insert_eq.
Qed.

(** ** Signing again after a crash *)

Lemma signCore_again now pv m m' disk sb sb' :
  msg_typed m -> msg_typed m' -> withSignature (msgTime m') (msgSignature m') m = m' ->
  lssHRS (LastSignState pv) = msgHRS m' -> lssSignBytes (LastSignState pv) = Some sb ->
  lssSignature (LastSignState pv) = Some (msgSignature m') ->
  msgSignBytes m' = Done sb -> msgSignBytes m = Done sb' ->
  signCore now pv m disk = Done (None, m', pv, disk).
Proof.
  intros T T' Em EL Hsb Hsig Eb Eb'.
  assert (msgHRS m = msgHRS m') as EH by by rewrite <- Em, withSignature_HRS.
  unfold signCore. rewrite EH. destruct (msgHRS m') as [[h r] s] eqn:EH'.
  pose proof (CheckHRS_spec (LastSignState pv) h r s) as HC.
  destruct (CheckHRS (LastSignState pv) h r s) as [[[] [err|]]|] eqn:EC; [done| | | |].
  - rewrite bind_Done, Eb', bind_Done, Hsb, Hsig. cbn [default from_option]. unfold id.
    destruct (onlyDifferByTimestamp_spec now m m' sb sb' (msgSignature m') T T') as (ok & Eo & Hok);
      [by rewrite EH, EH'|done..|]. rewrite Em in Hok. apply Hok in Eb as Eok. subst ok.
    case_bool_decide as Eq.
    + subst sb'. destruct (onlyDifferByTimestamp_spec now m' m sb sb (msgSignature m') T' T)
        as (ok' & Eo' & _); [by rewrite EH, EH'|done..|].
      assert (msgTime m = msgTime m') as ->; [|by rewrite Em].
      destruct m, m'; simpl in *; congruence.
    + rewrite Eo, bind_Done. by rewrite Em.
  - exfalso. unfold CheckHRS in EC. injection EL as E1 E2 E3.
    rewrite E1, E2, E3, !Z.ltb_irrefl, !Z.eqb_refl, Hsb, Hsig in EC. done.
  - rewrite EL in HC. by apply hrs_lt_irrefl in HC.
  - destruct HC as [HC _]. congruence.
Qed.

Lemma signMsg_again now pv m m' disk sb sb' :
  msg_typed m -> msg_typed m' -> withSignature (msgTime m') (msgSignature m') m = m' ->
  lssHRS (LastSignState pv) = msgHRS m' -> lssSignBytes (LastSignState pv) = Some sb ->
  lssSignature (LastSignState pv) = Some (msgSignature m') ->
  msgSignBytes m' = Done sb -> msgSignBytes m = Done sb' ->
  signMsg now pv m disk = Done (None, m', pv, disk).
Proof.
  intros T T' Em EL Hsb Hsig Eb Eb'. pose proof (signMsg_core now pv m disk T) as Hc.
  rewrite (signCore_again now pv m m' disk sb sb') in Hc by done.
  destruct (signMsg now pv m disk) as [[[[e m''] pv'] d']|]; [|done].
  destruct Hc as (He & -> & -> & ->). rewrite (proj2 He eq_refl). done.
Qed.

Lemma reload_again key kp sp pv disk R m now m' pv' disk' :
  sys_inv key kp sp (mkSys pv disk R) -> msg_typed m ->
  signMsg now pv m disk = Done (None, m', pv', disk') -> msgSignature m' <> [] ->
  exists pv2, reload pv' disk' = Done pv2 /\
    forall now2 m2 sb, msg_typed m2 -> withSignature (msgTime m') (msgSignature m') m2 = m' ->
      msgSignBytes m2 = Done sb -> signMsg now2 pv2 m2 disk' = Done (None, m', pv2, disk').
Proof.
  intros I T E Hne. pose proof (si_last _ _ _ _ I) as L. rewrite <- (si_key _ _ _ _ I) in L.
  apply signMsg_spec in E as Rel; [|done|done].
  pose proof (release_inv _ _ _ _ _ _ _ _ _ _ I Rel) as [I1 I2 I3 (k & Hk & _) I5 _ _ _]. simpl in *.
  destruct Rel as [T' EH _ _ EL (sb & Eb & Elast & Elsig & _) _].
  unfold reload, LoadFilePV, loadFilePV. rewrite I2, I3, Hk, I5, bind_Done.
  eexists. split; [done|]. intros now2 m2 sb2 T2 Em Eb2.
  eapply (signMsg_again now2 _ m2 m' disk' sb sb2); try done; simpl.
  - by rewrite EH, <- EL.
  - apply omitempty_keep; [done|]. by apply (sign_bytes_nonempty m' sb).
  - by apply omitempty_keep.
Qed.

End safety.

(** ** Claims *)

(** [C7] Whatever requests a new validator's signer gets, and whenever
    its process crashes and restarts from the files, the messages it releases
    carry the key's signature of their own sign bytes, and two of them for the
    same height, round and step have the same sign bytes. *)
Theorem FilePV_no_double_sign {ST : StdTime} {G : Gogo} {K : Signer} `{Crypto}
    privKey kp sp disk pv disk0 s :
  StdTimeLaws ST -> GogoLaws ST G ->
  keyFiles disk !! kp = None -> LoadOrGenFilePV privKey kp sp disk = Done (pv, disk0) ->
  rtc pv_step (mkSys pv disk0 []) s ->
  forall m m', m ∈ sysReleased s -> m' ∈ sysReleased s ->
    (exists sb, msgSignBytes m = Done sb /\ pvSign privKey sb = inr (msgSignature m)) /\
    (msgHRS m = msgHRS m' -> msgSignBytes m = msgSignBytes m').
Proof.
  intros laws glaws Hno E St m m' Hm Hm'.
  eapply fresh_inv in E as I0; [|done..]. pose proof (pv_steps_inv laws glaws _ _ _ _ _ I0 St) as I. split.
  - destruct (si_accounted _ _ _ _ I m Hm) as (_ & sb & Eb & Hs & _). eauto.
  - by apply (si_agree _ _ _ _ I).
Qed.

(** In particular, two released votes for the same height, round
    and type are for the same block of the same chain. *)
Theorem FilePV_one_vote {ST : StdTime} {G : Gogo} {K : Signer} `{Crypto}
    privKey kp sp disk pv disk0 s chainID chainID' v v' :
  StdTimeLaws ST -> GogoLaws ST G ->
  keyFiles disk !! kp = None -> LoadOrGenFilePV privKey kp sp disk = Done (pv, disk0) ->
  rtc pv_step (mkSys pv disk0 []) s ->
  VoteMsg chainID v ∈ sysReleased s -> VoteMsg chainID' v' ∈ sysReleased s ->
  vHeight v = vHeight v' -> vRound v = vRound v' -> vType v = vType v' ->
  chainID = chainID' /\ vBlockID v = vBlockID v' /\ vTimestamp v = vTimestamp v'.
Proof.
  intros laws glaws Hno E St Hm Hm' Eh Er Et.
  eapply fresh_inv in E as I0; [|done..]. pose proof (pv_steps_inv laws glaws _ _ _ _ _ I0 St) as I.
  destruct (si_accounted _ _ _ _ I _ Hm) as ((T & Hc & _) & sb & Eb & _).
  destruct (si_accounted _ _ _ _ I _ Hm') as ((T' & Hc' & _) & _).
  assert (msgSignBytes (VoteMsg chainID v) = msgSignBytes (VoteMsg chainID' v')) as Es.
  { apply (si_agree _ _ _ _ I); [done..|]. simpl. unfold voteStep. by rewrite Eh, Er, Et. }
  simpl in Eb, Es. rewrite Eb in Es. symmetry in Es.
  destruct (vote_sign_bytes_inj chainID chainID' v v' sb laws T T' Hc Hc' Eb Es) as (? & _ & _ & _ & ? & ?).
  done.
Qed.

(** [C30] A request that was answered can be repeated after a crash: the
    restarted signer answers the same request, whatever time it asks for, with
    the message released before. *)
Theorem FilePV_resign {ST : StdTime} {G : Gogo} {K : Signer} `{Crypto}
    privKey kp sp disk pv disk0 s now m m' pv' disk' :
  StdTimeLaws ST -> GogoLaws ST G ->
  keyFiles disk !! kp = None -> LoadOrGenFilePV privKey kp sp disk = Done (pv, disk0) ->
  rtc pv_step (mkSys pv disk0 []) s -> msg_typed m ->
  signMsg now (sysPV s) m (sysDisk s) = Done (None, m', pv', disk') -> msgSignature m' <> [] ->
  exists pv2, reload pv' disk' = Done pv2 /\
    forall now2 m2 sb, msg_typed m2 -> withSignature (msgTime m') (msgSignature m') m2 = m' ->
      msgSignBytes m2 = Done sb -> signMsg now2 pv2 m2 disk' = Done (None, m', pv2, disk').
Proof.
  intros laws glaws Hno E St T Es Hne.
  eapply fresh_inv in E as I0; [|done..]. pose proof (pv_steps_inv laws glaws _ _ _ _ _ I0 St) as I.
  destruct s as [pvs ds R]. by eapply (reload_again laws glaws).
Qed.

(** The sign bytes of votes and proposals decode to the canonical
    messages they were made from. *)
Theorem signbytes_roundtrip {ST : StdTime} {G : Gogo} chainID bz :
  StdTimeLaws ST -> GogoLaws ST G -> small chainID ->
  (forall v, vote_typed v -> VoteSignBytes chainID (Vote_ToProto v) = Done bz ->
     exists m, CanonicalizeVote chainID (Vote_ToProto v) = Done m /\
       UnmarshalDelimited CanonicalVote_Unmarshal zeroCanonicalVote bz = inr m) /\
  (forall p, proposal_typed p -> ProposalSignBytes chainID (Proposal_ToProto (Some p)) = Done bz ->
     exists m, CanonicalizeProposal chainID (Proposal_ToProto (Some p)) = Done m /\
       UnmarshalDelimited CanonicalProposal_Unmarshal zeroCanonicalProposal bz = inr m).
Proof.
  intros laws glaws Hc. split.
  - intros v T E. destruct (vote_decoded laws glaws chainID v bz T Hc E) as (b & Eb & D).
    eexists. split; [|exact D]. unfold CanonicalizeVote. cbn [Vote_ToProto pvBlockID].
    by rewrite Eb, bind_Done.
  - intros p T E. destruct (proposal_decoded laws glaws chainID p bz T Hc E) as (b & Eb & D).
    eexists. split; [|exact D]. unfold CanonicalizeProposal. cbn [Proposal_ToProto ppBlockID].
    by rewrite Eb, bind_Done.
Qed.

(** ** A concrete instance *)

#[global] Instance protoPartSetHeader_eq_dec : EqDecision protoPartSetHeader.
Proof. solve_decision. Defined.
#[global] Instance CanonicalBlockID_eq_dec : EqDecision CanonicalBlockID.
Proof. solve_decision. Defined.
#[global] Instance CanonicalVote_eq_dec : EqDecision CanonicalVote.
Proof. solve_decision. Defined.
#[global] Instance CanonicalProposal_eq_dec : EqDecision CanonicalProposal.
Proof. solve_decision. Defined.

Definition exampleGogo : Gogo := {|
  StdTimeUnmarshal := fun bz => inr (zeroTime + getUint64LE bz * 10 ^ 9 + getUint64LE (drop 8 bz));
  EqualVote := fun v v' => bool_decide (v = v');
  EqualProposal := fun p p' => bool_decide (p = p')
|}.

Lemma exampleGogo_laws : GogoLaws exampleStdTime exampleGogo.
Proof.
  split; [|intros ??; exact (bool_decide_eq_true _)..].
  unfold StdTimeMarshal, StdTimeUnmarshal, exampleStdTime, exampleGogo. intros t bz.
  case_bool_decide as Hu; [|done]. intros E. apply (inj inr) in E. subst bz. f_equal.
  pose proof (Z.div_mod (t - zeroTime) (10 ^ 9)). pose proof (Z.mod_pos_bound (t - zeroTime) (10 ^ 9)).
  rewrite getUint64LE_put by done. rewrite drop_app_ge by done. rewrite putUint64LE_length, Nat.sub_diag, drop_0.
  rewrite <- (app_nil_r (putUint64LE _)), getUint64LE_put by (unfold uint64; lia). lia.
Qed.

Definition exampleSigner : Signer := {|
  PrivKey := PubKey;
  pvSign := fun k bz => inr (exampleSign k bz);
  pvPubKeyOf := fun k => k
|}.

Definition exampleKey : PubKey := PubKeyEd25519 (exampleAddress 1).
Definition examplePath (n : Z) : bytes := [byte_of_Z n].
Definition emptyDisk : Disk (K := exampleSigner) := mkDisk ∅ ∅.

Definition freshPV : FilePV (K := exampleSigner) :=
  GenFilePV (K := exampleSigner) (H := exampleCrypto) exampleKey (examplePath 1) (examplePath 2).
Definition freshDisk : Disk (K := exampleSigner) :=
  match FilePV_Save freshPV emptyDisk with Done d => d | Panic _ => emptyDisk end.
Definition freshSys : Sys (K := exampleSigner) := mkSys freshPV freshDisk [].

(** The system after a request that is answered. *)
Definition afterMsg (s : Sys (K := exampleSigner)) (m : message) : Sys (K := exampleSigner) :=
  match signMsg (ST := exampleStdTime) (G := exampleGogo) 0 (sysPV s) m (sysDisk s) with
  | Done (None, m', pv, d) => mkSys pv d (m' :: sysReleased s)
  | _ => s
  end.

Lemma afterMsg_step s m :
  msg_typed m ->
  match signMsg (ST := exampleStdTime) (G := exampleGogo) 0 (sysPV s) m (sysDisk s) with
  | Done (None, _, _, _) => true | _ => false end = true ->
  pv_step (ST := exampleStdTime) (G := exampleGogo) (H := exampleCrypto) s (afterMsg s m).
Proof.
  intros T E. unfold afterMsg. destruct (signMsg _ _ _ _) as [[[[[e|] m'] pv] d]|] eqn:Es; try done.
  destruct s as [pv0 d0 R]. by eapply pv_release.
Qed.

(** A vote, and the same vote requested again with a later time. *)
Definition exampleMsg : message := VoteMsg exampleChain exampleVote.
Definition exampleMsgLater : message := VoteMsg exampleChain
  (mkVote PrecommitType 5 1 exampleBlockID 2000 (replicate 20 (byte_of_Z 1)) 0 []).
Definition afterSigning : Sys := afterMsg (afterMsg freshSys exampleMsg) exampleMsgLater.

Lemma exampleMsg_typed : msg_typed exampleMsg /\ msg_typed exampleMsgLater.
Proof. split; (split_and!; [by split; vm_compute|done|by right]). Qed.

Lemma afterSigning_reachable :
  rtc (pv_step (ST := exampleStdTime) (G := exampleGogo) (H := exampleCrypto)) freshSys afterSigning.
Proof.
  eapply rtc_l; [apply (afterMsg_step _ exampleMsg); [apply exampleMsg_typed|by vm_compute]|].
  apply rtc_once, (afterMsg_step _ exampleMsgLater); [apply exampleMsg_typed|by vm_compute].
Qed.

(** The messages released, evaluated. *)
Ltac released_messages E :=
  let R := eval vm_compute in (sysReleased afterSigning) in
  assert (sysReleased afterSigning = R) as E by (vm_compute; reflexivity).

Lemma FilePV_no_double_sign_witness :
  exists m m', sysReleased afterSigning = [m'; m] /\
    msgSignBytes (ST := exampleStdTime) m = msgSignBytes (ST := exampleStdTime) m'.
Proof.
  released_messages E. do 2 eexists. split; [exact E|].
  apply (FilePV_no_double_sign (ST := exampleStdTime) (G := exampleGogo) (K := exampleSigner)
    (H := exampleCrypto) exampleKey (examplePath 1) (examplePath 2) emptyDisk freshPV freshDisk
    afterSigning exampleStdTime_laws exampleGogo_laws eq_refl eq_refl afterSigning_reachable);
    rewrite ?E; [by right; left|by left|done].
Defined.

Lemma FilePV_one_vote_witness :
  exists v v', sysReleased afterSigning = [VoteMsg exampleChain v; VoteMsg exampleChain v'] /\
    vTimestamp v = vTimestamp v'.
Proof.
  released_messages E. do 2 eexists. split; [exact E|].
  eapply (FilePV_one_vote (ST := exampleStdTime) (G := exampleGogo) (K := exampleSigner)
    (H := exampleCrypto) exampleKey (examplePath 1) (examplePath 2) emptyDisk freshPV freshDisk
    afterSigning exampleChain exampleChain _ _ exampleStdTime_laws exampleGogo_laws eq_refl eq_refl
    afterSigning_reachable); rewrite ?E; [by left|by right; left|done..].
Defined.

(** The message that a request is answered with. *)
Definition answer (r : outcome (option error * message * FilePV (K := exampleSigner) * Disk (K := exampleSigner)))
    : option message :=
  match r with Done (None, m, _, _) => Some m | _ => None end.

Lemma exampleMsg_answered :
  exists sig pv disk, sig <> [] /\
    signMsg (ST := exampleStdTime) (G := exampleGogo) 0 freshPV exampleMsg freshDisk
    = Done (None, withSignature 1000 sig exampleMsg, pv, disk).
Proof.
  assert (exists sig, sig <> [] /\
    answer (signMsg (ST := exampleStdTime) (G := exampleGogo) 0 freshPV exampleMsg freshDisk)
    = Some (withSignature 1000 sig exampleMsg)) as (sig & Hne & E)
    by (eexists; split; [|vm_compute; reflexivity]; done).
  exists sig. destruct (signMsg _ _ _ _) as [[[[[e|] m] pv] disk]|]; try done.
  injection E as ->. by exists pv, disk.
Qed.

Lemma FilePV_resign_witness :
  exists m' pv' disk' pv2, reload (K := exampleSigner) (H := exampleCrypto) pv' disk' = Done pv2 /\
    signMsg (ST := exampleStdTime) (G := exampleGogo) 7 pv2 exampleMsgLater disk' = Done (None, m', pv2, disk').
Proof.
  destruct exampleMsg_answered as (sig & pv' & disk' & Hne & E).
  destruct (FilePV_resign (ST := exampleStdTime) (G := exampleGogo) (K := exampleSigner)
    (H := exampleCrypto) exampleKey (examplePath 1) (examplePath 2) emptyDisk freshPV freshDisk
    freshSys 0 exampleMsg (withSignature 1000 sig exampleMsg) pv' disk'
    exampleStdTime_laws exampleGogo_laws eq_refl eq_refl
    (rtc_refl _ _) (proj1 exampleMsg_typed) E) as (pv2 & Hr & Hs); [done|].
  exists (withSignature 1000 sig exampleMsg), pv', disk', pv2. split; [exact Hr|].
  destruct (msgSignBytes (ST := exampleStdTime) exampleMsgLater) as [sb|] eqn:Eb; [|by vm_compute in Eb].
  apply (Hs 7 exampleMsgLater sb); [apply exampleMsg_typed|done|exact Eb].
Defined.

Lemma signbytes_roundtrip_witness :
  exists bz m, VoteSignBytes (ST := exampleStdTime) exampleChain (Vote_ToProto exampleVote) = Done bz /\
    UnmarshalDelimited (CanonicalVote_Unmarshal (G := exampleGogo)) zeroCanonicalVote bz = inr m.
Proof.
  destruct (VoteSignBytes (ST := exampleStdTime) exampleChain (Vote_ToProto exampleVote)) as [bz|] eqn:E;
    [|by vm_compute in E].
  destruct (proj1 (signbytes_roundtrip (ST := exampleStdTime) (G := exampleGogo) exampleChain bz
    exampleStdTime_laws exampleGogo_laws ltac:(done)) exampleVote exampleVote_typed E) as (m & _ & D).
  exists bz, m. split; [reflexivity|exact D].
Defined.
