(* ===== verification/VoteSet.v ===== *)
(** * Vote sets

    types/vote_set.go: the collection of the votes of one height, round and
    type.  [nil] votes are [None]; a block key is the byte string that
    [BlockID.Key] returns.  [voteSet.valSet] is kept by value, with the total
    power that [TotalVotingPower] caches in it. *)

From Stdlib Require Import ZArith Lia.
From S2P Require Import Prelude Proto BitArray Validator ValidatorSet BlockTypes.
From stdpp Require Import base gmap list option strings numbers sorting.

Local Open Scope Z_scope.

(** [P2PID], a string. *)
Notation P2PID := bytes (only parsing).

Record blockVotes := mkBlockVotes {
  bvPeerMaj23 : bool;
  bvBitArray : option BitArray;
  bvVotes : list (option Vote);
  bvSum : Z
}.

Definition newBlockVotes (peerMaj23 : bool) (numValidators : Z) : blockVotes :=
  mkBlockVotes peerMaj23 (NewBitArray numValidators)
    (replicate (Z.to_nat numValidators) None) 0.

Definition blockVotes_addVerifiedVote (vs : blockVotes) (vote : Vote) (votingPower : Z)
    : outcome blockVotes :=
  let valIndex := vValidatorIndex vote in
  let! existing := index (bvVotes vs) valIndex in
  match existing with
  | Some _ => Done vs
  | None =>
    let! (_, bA) := BitArray_SetIndex (bvBitArray vs) valIndex true in
    let! votes := set_index (bvVotes vs) valIndex (Some vote) in
    Done (mkBlockVotes (bvPeerMaj23 vs) bA votes (wrap64 (bvSum vs + votingPower)))
  end.

Definition blockVotes_getByIndex (vs : option blockVotes) (i : Z) : outcome (option Vote) :=
  match vs with None => Done None | Some vs => index (bvVotes vs) i end.

Record VoteSet := mkVoteSet {
  vsChainID : bytes;
  vsHeight : Z;
  vsRound : Z;
  vsType : Z;
  vsValSet : ValidatorSet;
  vsVotesBitArray : option BitArray;
  vsVotes : list (option Vote);
  vsSum : Z;
  vsMaj23 : option BlockID;
  vsVotesByBlock : gmap bytes blockVotes;
  vsPeerMaj23s : gmap P2PID BlockID
}.

(** Field updates. *)
Definition setVote (votes : list (option Vote)) (bA : option BitArray) (sum : Z) (vs : VoteSet) : VoteSet :=
  mkVoteSet (vsChainID vs) (vsHeight vs) (vsRound vs) (vsType vs) (vsValSet vs) bA votes sum
    (vsMaj23 vs) (vsVotesByBlock vs) (vsPeerMaj23s vs).
Definition setVotesByBlock (m : gmap bytes blockVotes) (vs : VoteSet) : VoteSet :=
  mkVoteSet (vsChainID vs) (vsHeight vs) (vsRound vs) (vsType vs) (vsValSet vs)
    (vsVotesBitArray vs) (vsVotes vs) (vsSum vs) (vsMaj23 vs) m (vsPeerMaj23s vs).
Definition setValSet (v : ValidatorSet) (vs : VoteSet) : VoteSet :=
  mkVoteSet (vsChainID vs) (vsHeight vs) (vsRound vs) (vsType vs) v
    (vsVotesBitArray vs) (vsVotes vs) (vsSum vs) (vsMaj23 vs) (vsVotesByBlock vs) (vsPeerMaj23s vs).
Definition setMaj23 (votes : list (option Vote)) (maj23 : option BlockID) (vs : VoteSet) : VoteSet :=
  mkVoteSet (vsChainID vs) (vsHeight vs) (vsRound vs) (vsType vs) (vsValSet vs)
    (vsVotesBitArray vs) votes (vsSum vs) maj23 (vsVotesByBlock vs) (vsPeerMaj23s vs).
Definition setPeerMaj23s (m : gmap P2PID BlockID) (vs : VoteSet) : VoteSet :=
  mkVoteSet (vsChainID vs) (vsHeight vs) (vsRound vs) (vsType vs) (vsValSet vs)
    (vsVotesBitArray vs) (vsVotes vs) (vsSum vs) (vsMaj23 vs) (vsVotesByBlock vs) m.

Definition NewVoteSet (chainID : bytes) (height round signedMsgType : Z) (valSet : ValidatorSet)
    : outcome VoteSet :=
  if height =? 0 then Panic "Cannot make VoteSet for height == 0, doesn't make sense."
  else
    let size := ValidatorSet_Size valSet in
    Done (mkVoteSet chainID height round signedMsgType valSet (NewBitArray size)
            (replicate (Z.to_nat size) None) 0 None ∅ ∅).

Definition VoteSet_GetHeight (vs : option VoteSet) : Z :=
  match vs with None => 0 | Some vs => vsHeight vs end.
Definition VoteSet_GetRound (vs : option VoteSet) : Z :=
  match vs with None => -1 | Some vs => vsRound vs end.
Definition VoteSet_Size (vs : option VoteSet) : Z :=
  match vs with None => 0 | Some vs => ValidatorSet_Size (vsValSet vs) end.

(** The vote known for [valIndex] and [blockKey], if any. *)
Definition getVote (vs : VoteSet) (valIndex : Z) (blockKey : bytes) : outcome (option Vote) :=
  let! existing := index (vsVotes vs) valIndex in
  let! same := (match existing with
                | None => Done false
                | Some e => let! k := BlockID_Key (vBlockID e) in Done (bool_decide (k = blockKey))
                end) in
  if same : bool then Done existing
  else blockVotes_getByIndex (vsVotesByBlock vs !! blockKey) valIndex.

(** The loop that copies the votes of the majority block over. *)
Fixpoint copyVotes (votes from : list (option Vote)) : outcome (list (option Vote)) :=
  match from, votes with
  | [], _ => Done votes
  | Some _ :: _, [] => Panic "index out of range"
  | None :: from', [] => copyVotes [] from'
  | Some v :: from', _ :: votes' => let! r := copyVotes votes' from' in Done (Some v :: r)
  | None :: from', w :: votes' => let! r := copyVotes votes' from' in Done (w :: r)
  end.

(** The first part of [addVerifiedVote]: the canonical vote of the validator.
    Returns the conflicting vote. *)
Definition addCanonical (vs : VoteSet) (vote : Vote) (blockKey : bytes) (votingPower : Z)
    : outcome (option Vote * VoteSet) :=
  let valIndex := vValidatorIndex vote in
  let! existing := index (vsVotes vs) valIndex in
  match existing with
  | Some e =>
    if BlockID_Equals (vBlockID e) (vBlockID vote)
    then Panic "addVerifiedVote does not expect duplicate votes"
    else
      let! replace := (match vsMaj23 vs with
                       | None => Done false
                       | Some m => let! k := BlockID_Key m in Done (bool_decide (k = blockKey))
                       end) in
      if replace : bool then
        let! votes := set_index (vsVotes vs) valIndex (Some vote) in
        let! (_, bA) := BitArray_SetIndex (vsVotesBitArray vs) valIndex true in
        Done (Some e, setVote votes bA (vsSum vs) vs)
      else Done (Some e, vs)
  | None =>
    let! votes := set_index (vsVotes vs) valIndex (Some vote) in
    let! (_, bA) := BitArray_SetIndex (vsVotesBitArray vs) valIndex true in
    Done (None, setVote votes bA (wrap64 (vsSum vs + votingPower)) vs)
  end.

(** The last part of [addVerifiedVote]: the vote is added to [bv], the votes
    of its block, and the majority is updated. *)
Definition addToBlock (vs : VoteSet) (vote : Vote) (blockKey : bytes) (votingPower : Z)
    (bv : blockVotes) : outcome VoteSet :=
  let origSum := bvSum bv in
  let! (total, valSet) := TotalVotingPower (vsValSet vs) in
  let quorum := wrap64 (Z.quot (wrap64 (total * 2)) 3 + 1) in
  let! bv := blockVotes_addVerifiedVote bv vote votingPower in
  let vs := setVotesByBlock (<[blockKey := bv]> (vsVotesByBlock vs)) (setValSet valSet vs) in
  if (origSum <? quorum) && (quorum <=? bvSum bv) then
    match vsMaj23 vs with
    | Some _ => Done vs
    | None =>
      let! votes := copyVotes (vsVotes vs) (bvVotes bv) in
      Done (setMaj23 votes (Some (vBlockID vote)) vs)
    end
  else Done vs.

(** [added], the conflicting vote, and the set after the call. *)
Definition addVerifiedVote (vs : VoteSet) (vote : Vote) (blockKey : bytes) (votingPower : Z)
    : outcome (bool * option Vote * VoteSet) :=
  let! (conflicting, vs) := addCanonical vs vote blockKey votingPower in
  match vsVotesByBlock vs !! blockKey with
  | Some bv =>
    if negb (bool_decide (conflicting = None)) && negb (bvPeerMaj23 bv)
    then Done (false, conflicting, vs)
    else
      let! vs := addToBlock vs vote blockKey votingPower bv in
      Done (true, conflicting, vs)
  | None =>
    if negb (bool_decide (conflicting = None)) then Done (false, conflicting, vs)
    else
      let! vs := addToBlock vs vote blockKey votingPower
                   (newBlockVotes false (ValidatorSet_Size (vsValSet vs))) in
      Done (true, conflicting, vs)
  end.

Section addVote.
Context `{Crypto} {ST : StdTime}.

(** [added], the error, and the set after the call. *)
Definition addVote (vs : VoteSet) (vote : option Vote)
    : outcome (bool * option VoteError * VoteSet) :=
  match vote with
  | None => Done (false, Some ErrVoteNil, vs)
  | Some vote =>
    let valIndex := vValidatorIndex vote in
    let valAddr := vValidatorAddress vote in
    let! blockKey := BlockID_Key (vBlockID vote) in
    if valIndex <? 0 then Done (false, Some ErrVoteInvalidValidatorIndex, vs)
    else if (length valAddr =? 0)%nat then Done (false, Some ErrVoteInvalidValidatorAddress, vs)
    else if negb (vHeight vote =? vsHeight vs) || negb (vRound vote =? vsRound vs)
            || negb (vType vote =? vsType vs)
    then Done (false, Some ErrVoteUnexpectedStep, vs)
    else match GetByIndex (vsValSet vs) valIndex with
    | None => Done (false, Some ErrVoteInvalidValidatorIndex, vs)
    | Some (lookupAddr, val) =>
      if negb (bool_decide (valAddr = lookupAddr))
      then Done (false, Some ErrVoteInvalidValidatorAddress, vs)
      else
        let! known := getVote vs valIndex blockKey in
        match known with
        | Some existing =>
          if bool_decide (vSignature existing = vSignature vote) then Done (false, None, vs)
          else Done (false, Some ErrVoteNonDeterministicSignature, vs)
        | None =>
          match vPubKey val with
          | None => Panic "invalid memory address or nil pointer dereference"
          | Some pk =>
            let! err := Vote_Verify vote (vsChainID vs) pk in
            match err with
            | Some e => Done (false, Some e, vs)
            | None =>
              let! (r, vs) := addVerifiedVote vs vote blockKey (VotingPower val) in
              let '(added, conflicting) := r in
              match conflicting with
              | Some c =>
                let! e := NewConflictingVoteError (Some c) (Some vote) in
                Done (added, Some e, vs)
              | None =>
                if negb added then Panic "Expected to add non-conflicting vote"
                else Done (added, None, vs)
              end
            end
          end
        end
    end
  end.

Definition AddVote (vs : option VoteSet) (vote : option Vote)
    : outcome (bool * option VoteError * VoteSet) :=
  match vs with
  | None => Panic "AddVote() on nil VoteSet"
  | Some vs => addVote vs vote
  end.

End addVote.

(** The error, if any, and the set after the call. *)
Definition SetPeerMaj23 (vs : option VoteSet) (peerID : P2PID) (blockID : BlockID)
    : outcome (option error * VoteSet) :=
  match vs with
  | None => Panic "SetPeerMaj23() on nil VoteSet"
  | Some vs =>
    let! blockKey := BlockID_Key blockID in
    match vsPeerMaj23s vs !! peerID with
    | Some existing =>
      if BlockID_Equals existing blockID then Done (None, vs)
      else Done (Some "setPeerMaj23: Received conflicting blockID from peer", vs)
    | None =>
      let vs := setPeerMaj23s (<[peerID := blockID]> (vsPeerMaj23s vs)) vs in
      match vsVotesByBlock vs !! blockKey with
      | Some bv =>
        if bvPeerMaj23 bv then Done (None, vs)
        else
          let bv := mkBlockVotes true (bvBitArray bv) (bvVotes bv) (bvSum bv) in
          Done (None, setVotesByBlock (<[blockKey := bv]> (vsVotesByBlock vs)) vs)
      | None =>
        let bv := newBlockVotes true (ValidatorSet_Size (vsValSet vs)) in
        Done (None, setVotesByBlock (<[blockKey := bv]> (vsVotesByBlock vs)) vs)
      end
    end
  end.

Definition VoteSet_BitArray (vs : option VoteSet) : option BitArray :=
  match vs with None => None | Some vs => BitArray_Copy (vsVotesBitArray vs) end.

Definition BitArrayByBlockID (vs : option VoteSet) (blockID : BlockID) : outcome (option BitArray) :=
  match vs with
  | None => Done None
  | Some vs =>
    let! k := BlockID_Key blockID in
    match vsVotesByBlock vs !! k with
    | Some bv => Done (BitArray_Copy (bvBitArray bv))
    | None => Done None
    end
  end.

Definition VoteSet_GetByIndex (vs : option VoteSet) (valIndex : Z) : outcome (option Vote) :=
  match vs with None => Done None | Some vs => index (vsVotes vs) valIndex end.

Definition VoteSet_GetByAddress (vs : option VoteSet) (address : bytes) : outcome (option Vote) :=
  match vs with
  | None => Done None
  | Some vs =>
    match GetByAddress (vsValSet vs) address with
    | (_, None) => Panic "GetByAddress(address) returned nil"
    | (valIndex, Some _) => index (vsVotes vs) valIndex
    end
  end.

Definition HasTwoThirdsMajority (vs : option VoteSet) : bool :=
  match vs with None => false | Some vs => bool_decide (is_Some (vsMaj23 vs)) end.

Definition VoteSet_IsCommit (vs : option VoteSet) : bool :=
  match vs with
  | None => false
  | Some vs => (vsType vs =? PrecommitType) && bool_decide (is_Some (vsMaj23 vs))
  end.

Definition HasTwoThirdsAny (vs : option VoteSet) : outcome (bool * option VoteSet) :=
  match vs with
  | None => Done (false, None)
  | Some vs =>
    let! (total, valSet) := TotalVotingPower (vsValSet vs) in
    Done (Z.quot (wrap64 (total * 2)) 3 <? vsSum vs, Some (setValSet valSet vs))
  end.

Definition VoteSet_HasAll (vs : VoteSet) : outcome (bool * VoteSet) :=
  let! (total, valSet) := TotalVotingPower (vsValSet vs) in
  Done (vsSum vs =? total, setValSet valSet vs).

Definition TwoThirdsMajority (vs : option VoteSet) : BlockID * bool :=
  match vs with
  | None => (zeroBlockID, false)
  | Some vs => match vsMaj23 vs with Some b => (b, true) | None => (zeroBlockID, false) end
  end.

(** The body of the loop of [MakeCommit]. *)
Definition commitSigFor (maj23 : BlockID) (v : option Vote) : outcome CommitSig :=
  let! commitSig := Vote_CommitSig v in
  if CommitSig_ForBlock commitSig then
    match v with
    | None => Panic "invalid memory address or nil pointer dereference"
    | Some v => Done (if negb (BlockID_Equals (vBlockID v) maj23) then NewCommitSigAbsent else commitSig)
    end
  else Done commitSig.

Definition MakeCommit (vs : VoteSet) : outcome Commit :=
  if negb (vsType vs =? PrecommitType)
  then Panic "Cannot MakeCommit() unless VoteSet.Type is PrecommitType"
  else match vsMaj23 vs with
  | None => Panic "Cannot MakeCommit() unless a blockhash has +2/3"
  | Some maj23 =>
    let! commitSigs := foldM (fun sigs v =>
        let! commitSig := commitSigFor maj23 v in Done (sigs ++ [commitSig])) [] (vsVotes vs) in
    Done (NewCommit (vsHeight vs) (vsRound vs) maj23 commitSigs)
  end.

(** [CommitToVoteSet] of types/block.go *)
Definition CommitToVoteSet `{Crypto} {ST : StdTime} (chainID : bytes) (commit : Commit)
    (vals : ValidatorSet) : outcome VoteSet :=
  let! voteSet := NewVoteSet chainID (cHeight commit) (cRound commit) PrecommitType vals in
  foldM (fun voteSet (ics : nat * CommitSig) =>
           if CommitSig_Absent (snd ics) then Done voteSet
           else
             let! vote := Commit_GetVote commit (wrap32 (Z.of_nat (fst ics))) in
             let! (r, voteSet) := AddVote (Some voteSet) (Some vote) in
             match r with
             | (true, None) => Done voteSet
             | _ => Panic "Failed to reconstruct LastCommit"
             end)
        voteSet (zip (seq 0 (length (cSignatures commit))) (cSignatures commit)).
