(* ===== verification/VoteSetInv.v ===== *)
(** * Invariant of vote sets

    What every reachable vote set satisfies, and that [AddVote] and
    [SetPeerMaj23] keep it. *)

From Stdlib Require Import ZArith Lia.
From S2P Require Import Prelude Proto BitArray Validator ValidatorSet ValidatorSetUpdate BlockTypes.
From S2P Require Import SignBytes CommitVerify VoteSet.
From stdpp Require Import base gmap list option strings numbers sorting.

Local Open Scope Z_scope.

(** ** Block keys *)

Definition blockKey (b : BlockID) : bytes :=
  bidHash b ++ protoPartSetHeader_write (PartSetHeader_ToProto (Some (bidPartSetHeader b))).

(** A well-typed identifier that passes its basic validation. *)
Definition blockID_good (b : BlockID) : Prop := blockID_typed b /\ BlockID_ValidateBasic b = None.

Lemma BlockID_Key_Done b : blockID_good b -> BlockID_Key b = Done (blockKey b).
Proof.
  intros [Ht Hv]. apply blockID_valid_small in Hv as [H1 H2]. unfold BlockID_Key, protoPartSetHeader_Marshal.
  destruct (psh_Size_length (PartSetHeader_ToProto (Some (bidPartSetHeader b))) Ht H2) as [E _].
  change (protoPartSetHeader_Size ?x) with (CanonicalPartSetHeader_Size x).
  change (protoPartSetHeader_write ?x) with (CanonicalPartSetHeader_write x).
  rewrite E, marshalSized_exact, bind_Done. done.
Qed.

(** Votes are for a complete block identifier or for none. *)
Definition zero_or_complete (b : BlockID) : Prop :=
  BlockID_IsZero b = true \/ BlockID_IsComplete b = true.

Lemma blockKey_inj b b' :
  blockID_typed b -> blockID_typed b' -> zero_or_complete b -> zero_or_complete b' ->
  blockKey b = blockKey b' -> b = b'.
Proof.
  assert (forall c, BlockID_IsComplete c = true ->
    length (bidHash c) = 32%nat /\ length (pshHash (bidPartSetHeader c)) = 32%nat) as Hlen.
  { intros c. unfold BlockID_IsComplete, tmhashSize. rewrite !andb_true_iff, !Z.eqb_eq. lia. }
  assert (forall c, BlockID_IsComplete c = true -> blockKey c <> blockKey zeroBlockID) as Hne.
  { intros c Hc E. apply (f_equal length) in E. unfold blockKey in E. rewrite !length_app in E.
    destruct (Hlen c Hc) as [L _]. simpl in E. lia. }
  intros T T' [Z|C] [Z'|C'] E.
  - by rewrite (IsZero_eq _ Z), (IsZero_eq _ Z').
  - rewrite (IsZero_eq _ Z) in E. by destruct (Hne b' C').
  - rewrite (IsZero_eq _ Z') in E. by destruct (Hne b C).
  - destruct (Hlen b C) as [L1 L2], (Hlen b' C') as [L1' L2'].
    apply app_inv_same_length in E as [Eh Ep]; [|congruence].
    apply psh_write_inj in Ep; [|done|done|unfold small; simpl; rewrite ?L2, ?L2'; lia..].
    destruct b as [h [t p]], b' as [h' [t' p']]. simpl in *. congruence.
Qed.

(** ** Voted power *)

Definition votedPower (vs : list Validator) (votes : list (option Vote)) : Z :=
  sumZ (fun vo => match snd vo with Some _ => VotingPower (fst vo) | None => 0 end) (zip vs votes).

Lemma votedPower_cons v vs o votes :
  votedPower (v :: vs) (o :: votes)
  = (match o with Some _ => VotingPower v | None => 0 end) + votedPower vs votes.
Proof. unfold votedPower. simpl. by rewrite sumZ_cons. Qed.

Lemma votedPower_none vs n : votedPower vs (replicate n None) = 0.
Proof.
  revert n. induction vs as [|v vs IH]; intros [|n]; try done.
  simpl. rewrite votedPower_cons, IH. done.
Qed.

Lemma votedPower_bounds vs votes :
  (forall v, v ∈ vs -> 0 <= VotingPower v) -> 0 <= votedPower vs votes <= sumZ VotingPower vs.
Proof.
  revert votes. induction vs as [|v vs IH]; intros votes Hp.
  - unfold votedPower. simpl. rewrite !sumZ_nil. lia.
  - destruct votes as [|o votes].
    + unfold votedPower. simpl. rewrite sumZ_nil. split; [lia|]. by apply sumZ_nonneg.
    + rewrite votedPower_cons, sumZ_cons. specialize (IH votes ltac:(set_solver)).
      pose proof (Hp v ltac:(set_solver)). destruct o; lia.
Qed.

Lemma votedPower_insert vs votes i v o w :
  vs !! i = Some v -> votes !! i = Some o ->
  votedPower vs (<[i := Some w]> votes)
  = votedPower vs votes + match o with Some _ => 0 | None => VotingPower v end.
Proof.
  revert votes i. induction vs as [|v' vs IH]; intros [|o' votes] [|i] Hv Ho; try done; simpl in *.
  - injection Hv as ->. injection Ho as ->. rewrite !votedPower_cons. destruct o; lia.
  - rewrite !votedPower_cons, (IH votes i Hv Ho). lia.
Qed.

Lemma votedPower_ext vs votes votes' :
  length votes = length votes' -> (forall i, hasVote votes i = hasVote votes' i) ->
  votedPower vs votes = votedPower vs votes'.
Proof.
  revert votes votes'. induction vs as [|v vs IH]; intros [|o votes] [|o' votes'] Hl Hh; try done.
  rewrite !votedPower_cons. rewrite (IH votes votes'); [|by injection Hl|intros i; apply (Hh (S i))].
  pose proof (Hh 0%nat) as H0. unfold hasVote in H0. simpl in H0. by destruct o, o'.
Qed.

(** ** Bit arrays of votes *)

Lemma bits_ok_ext bA (votes votes' : list (option Vote)) :
  length votes = length votes' -> (forall i, hasVote votes i = hasVote votes' i) ->
  bits_ok bA votes -> bits_ok bA votes'.
Proof.
  intros Hl Hh. destruct bA as [b|]; simpl.
  - rewrite Hl. intros (? & ? & Hb). split_and!; [done..|]. intros i Hi. by rewrite Hb, Hh.
  - intros ->. by destruct votes'.
Qed.

(** ** The invariant *)

Section invariant.
Context `{Crypto} {ST : StdTime}.

Notation members vs := (Validators (vsValSet vs)).
Notation total vs := (sumZ VotingPower (Validators (vsValSet vs))).

(** A well-typed vote that passes its basic validation. *)
Definition vote_good (v : Vote) : Prop := vote_typed v /\ Vote_ValidateBasic v = None.

(** [v] is a verified vote of the validator at [i] for the step of [vs]. *)
Definition vote_at (vs : VoteSet) (i : nat) (v : Vote) : Prop :=
  vote_good v /\ vValidatorIndex v = Z.of_nat i /\
  vHeight v = vsHeight vs /\ vRound v = vsRound vs /\ vType v = vsType vs /\
  exists val pk, members vs !! i = Some val /\ vPubKey val = Some pk /\
    vValidatorAddress v = Address val /\ Vote_Verify v (vsChainID vs) pk = Done None.

(** A list of votes with its bit array and its sum. *)
Record votes_inv (vs : VoteSet) (bA : option BitArray) (votes : list (option Vote)) (sum : Z) : Prop := {
  vi_len : length votes = length (members vs);
  vi_votes : forall i v, votes !! i = Some (Some v) -> vote_at vs i v;
  vi_bits : bits_ok bA votes;
  vi_sum : sum = votedPower (members vs) votes
}.

Record block_inv (vs : VoteSet) (k : bytes) (bv : blockVotes) : Prop := {
  bi_votes : votes_inv vs (bvBitArray bv) (bvVotes bv) (bvSum bv);
  bi_key : forall i v, bvVotes bv !! i = Some (Some v) -> blockKey (vBlockID v) = k;
  bi_canonical : forall i v, bvVotes bv !! i = Some (Some v) -> hasVote (vsVotes vs) i = true
}.

(** A vote of [i] for the block with key [k] is tracked. *)
Definition tracked (vs : VoteSet) (k : bytes) (i : nat) (v : Vote) : Prop :=
  exists bv, vsVotesByBlock vs !! k = Some bv /\ bvVotes bv !! i = Some (Some v).

(** The block [m] has the majority: more than two thirds of the power, all of
    it among the canonical votes. *)
Definition majority (vs : VoteSet) (m : BlockID) : Prop :=
  blockID_good m /\ zero_or_complete m /\
  exists bv, vsVotesByBlock vs !! blockKey m = Some bv /\ 2 * total vs < 3 * bvSum bv /\
    forall i v, bvVotes bv !! i = Some (Some v) ->
      exists w, vsVotes vs !! i = Some (Some w) /\ blockKey (vBlockID w) = blockKey m.

(** [X] exempts canonical votes that are not tracked yet, [Y] exempts blocks
    whose quorum has not been recorded yet. *)
Record VoteSetInv_except (X : nat -> Vote -> Prop) (Y : bytes -> Prop) (vs : VoteSet) : Prop := {
  in_wf : VS_wf (vsValSet vs);
  in_keys : forall v, v ∈ members vs -> vPubKey v <> None;
  in_size : Z.of_nat (length (members vs)) <= MaxInt32;
  in_votes : votes_inv vs (vsVotesBitArray vs) (vsVotes vs) (vsSum vs);
  in_blocks : forall k bv, vsVotesByBlock vs !! k = Some bv -> block_inv vs k bv;
  in_canonical : forall i v, vsVotes vs !! i = Some (Some v) ->
    tracked vs (blockKey (vBlockID v)) i v \/
    (exists m, vsMaj23 vs = Some m /\ blockKey m = blockKey (vBlockID v)) \/ X i v;
  in_maj : forall m, vsMaj23 vs = Some m -> majority vs m;
  in_nomaj : vsMaj23 vs = None -> forall k bv, vsVotesByBlock vs !! k = Some bv ->
    3 * bvSum bv <= 2 * total vs \/ Y k
}.

Definition VoteSetInv : VoteSet -> Prop := VoteSetInv_except (fun _ _ => False) (fun _ => False).

(** The parts of a vote set that never change. *)
Definition same_frame (vs vs' : VoteSet) : Prop :=
  vsChainID vs' = vsChainID vs /\ vsHeight vs' = vsHeight vs /\ vsRound vs' = vsRound vs /\
  vsType vs' = vsType vs /\ members vs' = members vs.

Lemma same_frame_refl vs : same_frame vs vs.
Proof. done. Qed.

Lemma same_frame_trans vs1 vs2 vs3 : same_frame vs1 vs2 -> same_frame vs2 vs3 -> same_frame vs1 vs3.
Proof. unfold same_frame. intuition congruence. Qed.

Lemma vote_at_frame vs vs' i v : same_frame vs vs' -> vote_at vs i v -> vote_at vs' i v.
Proof. intros (E1 & E2 & E3 & E4 & E5). unfold vote_at. by rewrite E1, E2, E3, E4, E5. Qed.

Lemma votes_inv_frame vs vs' bA votes sum :
  same_frame vs vs' -> votes_inv vs bA votes sum -> votes_inv vs' bA votes sum.
Proof.
  intros F [V1 V2 V3 V4]. pose proof F as (_ & _ & _ & _ & E). split; rewrite ?E; try done.
  intros i v Hi. eapply vote_at_frame; eauto.
Qed.

Lemma vote_good_block v : vote_good v -> blockID_good (vBlockID v) /\ zero_or_complete (vBlockID v).
Proof.
  intros [Ht Hv]. unfold Vote_ValidateBasic in Hv.
  destruct (negb (IsVoteTypeValid (vType v))); [done|]. destruct (_ <? 0); [done|].
  destruct (_ <? 0); [done|]. destruct (BlockID_ValidateBasic (vBlockID v)) eqn:Eb; [done|].
  destruct (negb (BlockID_IsZero (vBlockID v)) && negb (BlockID_IsComplete (vBlockID v))) eqn:Ez; [done|].
  split; [split; [apply Ht|done]|]. unfold zero_or_complete.
  destruct (BlockID_IsZero _), (BlockID_IsComplete _); auto.
Qed.

Lemma key_neq_Equals v w :
  blockKey (vBlockID v) <> blockKey (vBlockID w) -> BlockID_Equals (vBlockID v) (vBlockID w) = false.
Proof.
  intros Hne. destruct (BlockID_Equals _ _) eqn:E; [|done]. apply BlockID_Equals_eq in E. congruence.
Qed.

(** Adding a verified vote to a list of votes. *)
Lemma votes_inv_add vs bA votes sum i v val o :
  VS_wf (vsValSet vs) -> votes_inv vs bA votes sum -> vote_at vs i v -> members vs !! i = Some val ->
  votes !! i = Some o ->
  exists bA', BitArray_SetIndex bA (Z.of_nat i) true = Done (true, bA') /\
    set_index votes (Z.of_nat i) (Some v) = Done (<[i := Some v]> votes) /\
    let sum' := match o with Some _ => sum | None => sum + VotingPower val end in
    (o = None -> wrap64 (sum + VotingPower val) = sum + VotingPower val) /\
    votes_inv vs bA' (<[i := Some v]> votes) sum'.
Proof.
  intros W [V1 V2 V3 V4] Hv Hval Ho. pose proof (lookup_lt_Some _ _ _ Ho) as Hi.
  destruct (bits_ok_set bA votes i v V3 Hi) as (bA' & Hset & Hok). exists bA'. split; [done|].
  split; [apply set_index_Done; rewrite Nat2Z.id; split; [lia|done]|]. cbn zeta.
  pose proof (votedPower_insert (members vs) votes i val o v Hval Ho) as Hins.
  destruct (wf_powers_ok _ W) as [Hp Ht].
  pose proof (votedPower_bounds (members vs) (<[i := Some v]> votes) Hp) as Hb. split.
  - intros ->. apply wrap64_id. rewrite V4. rewrite <- Hins. power_lia.
  - split; [by rewrite length_insert| |done|].
    + intros j w Hj. apply list_lookup_insert_Some in Hj as [(<- & [= <-] & _)|[_ Hj]]; auto.
    + rewrite Hins, V4. destruct o; lia.
Qed.

Lemma hasVote_or (votes : list (option Vote)) i j :
  (j = i -> hasVote votes i = true) -> hasVote votes j = hasVote votes j || bool_decide (j = i).
Proof. intros Hi. case_bool_decide as E; [|by rewrite orb_false_r]. subst. by rewrite Hi. Qed.

Lemma hasVote_insert_or (votes : list (option Vote)) i v j :
  (i < length votes)%nat ->
  hasVote (<[i := Some v]> votes) j = hasVote votes j || bool_decide (j = i).
Proof.
  intros Hi. rewrite hasVote_insert by done. case_decide as E.
  - by rewrite bool_decide_eq_true_2, orb_true_r.
  - by rewrite bool_decide_eq_false_2, orb_false_r.
Qed.

(** Replacing or adding the canonical vote of [i] by [vote], where the key of
    [vote] is the majority's or [i] had no vote. *)
Lemma setVote_inv vs bA i vote val o :
  VoteSetInv vs -> vote_at vs i vote -> members vs !! i = Some val -> vsVotes vs !! i = Some o ->
  (o = None \/ exists m, vsMaj23 vs = Some m /\ blockKey m = blockKey (vBlockID vote)) ->
  let sum := match o with Some _ => vsSum vs | None => vsSum vs + VotingPower val end in
  votes_inv vs bA (<[i := Some vote]> (vsVotes vs)) sum ->
  VoteSetInv_except (fun j w => o = None /\ j = i /\ w = vote) (fun _ => False)
    (setVote (<[i := Some vote]> (vsVotes vs)) bA sum vs).
Proof.
  intros I Hat Hval Ho Hcase sum V. destruct I as [I1 I2 I3 I4 I5 I6 I7 I8].
  pose proof (lookup_lt_Some _ _ _ Ho) as Hi.
  assert (forall j, hasVote (vsVotes vs) j = true -> hasVote (<[i := Some vote]> (vsVotes vs)) j = true) as Hmono.
  { intros j Hj. rewrite hasVote_insert by done. by case_decide. }
  split; [done|done|done|by apply (votes_inv_frame vs)| | | |done]; simpl.
  - intros k bv Hk. destruct (I5 k bv Hk) as [B1 B2 B3]. split; [by apply (votes_inv_frame vs)|done|].
    intros j w Hj. simpl. apply Hmono. by eapply B3.
  - intros j w Hj. apply list_lookup_insert_Some in Hj as [(<- & [= <-] & _)|[Hne Hj]].
    + destruct Hcase as [->|Hm]; auto.
    + destruct (I6 j w Hj) as [?|[?|[]]]; auto.
  - intros m Hm. destruct (I7 m Hm) as (G & Z & bv & Hbv & Hsum & Hall). split_and!; [done..|].
    exists bv. split_and!; [done..|]. intros j w Hj. simpl. destruct (decide (j = i)) as [->|Hne].
    + exists vote. rewrite list_lookup_insert_eq by done. split; [done|].
      destruct Hcase as [->|(m' & Hm' & Ek)]; [|congruence].
      pose proof (bi_canonical _ _ _ (I5 _ _ Hbv) i w Hj) as Hhas. unfold hasVote in Hhas.
      by rewrite Ho in Hhas.
    + rewrite list_lookup_insert_ne by done. by apply (Hall j w).
Qed.

Lemma addCanonical_spec vs i vote val :
  let k := blockKey (vBlockID vote) in
  VoteSetInv vs -> vote_at vs i vote -> members vs !! i = Some val ->
  (forall e, vsVotes vs !! i = Some (Some e) -> blockKey (vBlockID e) <> k) ->
  exists conflicting vs1,
    addCanonical vs vote k (VotingPower val) = Done (conflicting, vs1) /\
    vsVotes vs !! i = Some conflicting /\
    VoteSetInv_except (fun j w => conflicting = None /\ j = i /\ w = vote) (fun _ => False) vs1 /\
    (forall j, hasVote (vsVotes vs1) j = hasVote (vsVotes vs) j || bool_decide (j = i)) /\
    (forall m, vsMaj23 vs = Some m -> blockKey m = k -> vsVotes vs1 !! i = Some (Some vote)) /\
    same_frame vs vs1 /\ vsMaj23 vs1 = vsMaj23 vs /\ vsVotesByBlock vs1 = vsVotesByBlock vs /\
    vsPeerMaj23s vs1 = vsPeerMaj23s vs.
Proof.
  intros k I Hat Hval Hnew. pose proof (in_votes _ _ _ I) as V.
  assert (is_Some (vsVotes vs !! i)) as [o Ho].
  { apply lookup_lt_is_Some. rewrite (vi_len _ _ _ _ V). by eapply lookup_lt_Some. }
  assert (vValidatorIndex vote = Z.of_nat i) as Eidx by apply Hat.
  assert (index (vsVotes vs) (Z.of_nat i) = Done o) as Hidx
    by (apply index_Done; split; [lia|by rewrite Nat2Z.id]).
  destruct (votes_inv_add vs _ _ _ i vote val o (in_wf _ _ _ I) V Hat Hval Ho)
    as (bA' & Hset & Hseti & Hwrap & V').
  unfold addCanonical. rewrite Eidx, Hidx, bind_Done.
  destruct o as [e|].
  - rewrite key_neq_Equals by by apply Hnew.
    destruct (vsMaj23 vs) as [m|] eqn:Em.
    + destruct (in_maj _ _ _ I m Em) as (G & Z & _).
      rewrite BlockID_Key_Done, !bind_Done by done. case_bool_decide as Ek.
      * rewrite Hseti, bind_Done, Hset, bind_Done. do 2 eexists. split; [done|].
        pose proof (setVote_inv vs bA' i vote val (Some e) I Hat Hval Ho) as Hinv.
        specialize (Hinv (or_intror (ex_intro _ m (conj Em Ek))) V').
        split_and!; try done; simpl.
        -- intros j. apply hasVote_insert_or. by eapply lookup_lt_Some.
        -- intros m' _ _. apply list_lookup_insert_eq. by eapply lookup_lt_Some.
      * do 2 eexists. split; [done|]. split_and!; try done.
        -- destruct I as [I1 I2 I3 I4 I5 I6 I7 I8]. split; try done.
           intros j w Hj. destruct (I6 j w Hj) as [?|[?|[]]]; auto.
        -- intros j. apply hasVote_or. intros ->. apply hasVote_true. eauto.
        -- intros m' [= <-] ?. congruence.
    + rewrite bind_Done. do 2 eexists. split; [done|]. split_and!; try done.
      * destruct I as [I1 I2 I3 I4 I5 I6 I7 I8]. split; try done.
        intros j w Hj. destruct (I6 j w Hj) as [?|[?|[]]]; auto.
      * intros j. apply hasVote_or. intros ->. apply hasVote_true. eauto.
  - rewrite Hseti, bind_Done, Hset, bind_Done. do 2 eexists. split; [done|].
    rewrite (Hwrap eq_refl).
    pose proof (setVote_inv vs bA' i vote val None I Hat Hval Ho (or_introl eq_refl) V') as Hinv.
    split_and!; try done; simpl.
    + intros j. apply hasVote_insert_or. by eapply lookup_lt_Some.
    + intros m' _ _. apply list_lookup_insert_eq. by eapply lookup_lt_Some.
Qed.

Lemma copyVotes_spec votes from :
  length votes = length from ->
  exists r, copyVotes votes from = Done r /\ length r = length votes /\
    forall i, r !! i = match from !! i with Some (Some v) => Some (Some v) | _ => votes !! i end.
Proof.
  revert votes. induction from as [|f from IH]; intros [|o votes] Hl; try done.
  - by exists [].
  - destruct (IH votes ltac:(by injection Hl)) as (r & E & Hr & Hi). cbn [copyVotes].
    destruct f as [v|]; rewrite E, bind_Done; eexists; (split; [done|]); (split; [simpl; lia|]);
      intros [|i]; simpl; try done; apply Hi.
Qed.

(** The votes of the block after the copy, seen through [hasVote]. *)
Lemma copy_hasVote (votes from r : list (option Vote)) :
  length votes = length from ->
  (forall i, r !! i = match from !! i with Some (Some v) => Some (Some v) | _ => votes !! i end) ->
  (forall i v, from !! i = Some (Some v) -> hasVote votes i = true) ->
  forall i, hasVote r i = hasVote votes i.
Proof.
  intros Hl Hr Hc i. unfold hasVote at 1. rewrite Hr.
  destruct (from !! i) as [[v|]|] eqn:E; [|done..]. by rewrite (Hc i v E).
Qed.

(** The votes of the block after [vote] has been added. *)
Lemma block_add vs k bv i vote val :
  VS_wf (vsValSet vs) -> block_inv vs k bv -> vote_at vs i vote -> members vs !! i = Some val ->
  blockKey (vBlockID vote) = k -> bvVotes bv !! i = Some None -> hasVote (vsVotes vs) i = true ->
  exists bv', blockVotes_addVerifiedVote bv vote (VotingPower val) = Done bv' /\
    block_inv vs k bv' /\ bvSum bv' = bvSum bv + VotingPower val /\
    bvVotes bv' = <[i := Some vote]> (bvVotes bv) /\ bvPeerMaj23 bv' = bvPeerMaj23 bv.
Proof.
  intros W [B1 B2 B3] Hat Hval Hk Hnone Hcan.
  destruct (votes_inv_add vs _ _ _ i vote val None W B1 Hat Hval Hnone)
    as (bA' & Hset & Hseti & Hwrap & V').
  assert (vValidatorIndex vote = Z.of_nat i) as Eidx by apply Hat.
  unfold blockVotes_addVerifiedVote. rewrite Eidx.
  rewrite (proj2 (index_Done _ _ None)) by (rewrite Nat2Z.id; split; [lia|done]).
  rewrite bind_Done, Hset, bind_Done, Hseti, bind_Done, (Hwrap eq_refl).
  eexists. split; [done|]. simpl. split_and!; try done. split; simpl; [done| |].
  - intros j w Hj. apply list_lookup_insert_Some in Hj as [(<- & [= <-] & _)|[_ Hj]]; eauto.
  - intros j w Hj. apply list_lookup_insert_Some in Hj as [(<- & [= <-] & _)|[_ Hj]]; eauto.
Qed.

(** The quorum of [addVerifiedVote]. *)
Lemma quorum_spec t sum :
  0 <= t <= MaxTotalVotingPower ->
  wrap64 (Z.quot (wrap64 (t * 2)) 3 + 1) <= sum <-> 2 * t < 3 * sum.
Proof.
  intros Ht. rewrite <- (two_thirds t sum Ht).
  assert (0 <= Z.quot (wrap64 (t * 2)) 3 <= MaxTotalVotingPower) as Hq.
  { rewrite wrap64_id by power_lia. rewrite Z.quot_div_nonneg by lia.
    split; [apply Z.div_pos; lia|apply Z.div_le_upper_bound; lia]. }
  rewrite wrap64_id by power_lia. lia.
Qed.

(** The set with the votes of one block replaced by larger ones. *)
Lemma insert_block_inv X vs k bv bv' valSet i vote :
  VoteSetInv_except X (fun _ => False) vs -> VS_wf valSet -> Validators valSet = members vs ->
  block_inv vs k bv' -> (vsVotesByBlock vs !! k = Some bv \/ vsVotesByBlock vs !! k = None) ->
  (vsVotesByBlock vs !! k = Some bv -> forall j w, bvVotes bv !! j = Some (Some w) ->
     bvVotes bv' !! j = Some (Some w)) ->
  bvVotes bv' !! i = Some (Some vote) -> bvSum bv <= bvSum bv' ->
  (forall j w, bvVotes bv' !! j = Some (Some w) -> bvVotes bv !! j = Some (Some w) \/ (j = i /\ w = vote)) ->
  blockKey (vBlockID vote) = k ->
  (forall m, vsMaj23 vs = Some m -> blockKey m = k -> vsVotes vs !! i = Some (Some vote)) ->
  (forall j w, X j w -> j = i /\ w = vote) ->
  VoteSetInv_except (fun _ _ => False) (fun k' => k' = k) (setVotesByBlock (<[k := bv']> (vsVotesByBlock vs)) (setValSet valSet vs)).
Proof.
  intros I W E B Hold Hkeep Hi Hsum Hnew Hk Hmaj HX.
  set (vs' := setVotesByBlock _ _).
  assert (same_frame vs vs') as F by done.
  assert (forall j w k', tracked vs k' j w -> tracked vs' k' j w) as Htr.
  { intros j w k' (bv0 & Hb0 & Hj). unfold tracked. simpl. destruct (decide (k' = k)) as [->|Hne].
    - exists bv'. rewrite lookup_insert_eq. split; [done|]. destruct Hold as [Ho|Ho]; [|congruence].
      rewrite Ho in Hb0. injection Hb0 as <-. by apply Hkeep.
    - exists bv0. by rewrite lookup_insert_ne. }
  destruct I as [I1 I2 I3 I4 I5 I6 I7 I8]. split; simpl; rewrite ?E; try done.
  - by apply (votes_inv_frame vs).
  - intros k' bv0 Hb0. assert (block_inv vs k' bv0) as [B1 B2 B3].
    { destruct (decide (k' = k)) as [->|Hne].
      - rewrite lookup_insert_eq in Hb0. by injection Hb0 as <-.
      - rewrite lookup_insert_ne in Hb0 by done. by apply I5. }
    split; [by apply (votes_inv_frame vs)|done|done].
  - intros j w Hj. destruct (I6 j w Hj) as [Ht|[Hm|Hx]]; [by left; apply Htr|by right; left|].
    left. apply HX in Hx as [-> ->]. exists bv'. rewrite Hk. simpl. by rewrite lookup_insert_eq.
  - intros m Hm. destruct (I7 m Hm) as (G & Z & bv0 & Hb0 & Hs & Hall). split_and!; [done..|].
    unfold vs'. simpl. rewrite E. destruct (decide (blockKey m = k)) as [Ek|Hne].
    + exists bv'. rewrite Ek, lookup_insert_eq. rewrite Ek in Hb0.
      destruct Hold as [Ho|Ho]; [|congruence]. rewrite Ho in Hb0. injection Hb0 as <-.
      split_and!; [done|lia|]. intros j w Hj. destruct (Hnew j w Hj) as [Hj'|[-> ->]].
      * rewrite <- Ek. by apply (Hall j w).
      * exists vote. split; [by apply (Hmaj m)|done].
    + exists bv0. rewrite lookup_insert_ne by done. by split_and!.
  - intros Hn k' bv0 Hb0. destruct (decide (k' = k)) as [->|Hne]; [by right|].
    rewrite lookup_insert_ne in Hb0 by done. destruct (I8 Hn _ _ Hb0) as [?|[]]. by left.
Qed.

(** Recording the majority of the block [b] and copying its votes over. *)
Lemma setMaj23_inv vs b bv r :
  VoteSetInv_except (fun _ _ => False) (fun k' => k' = blockKey b) vs ->
  vsMaj23 vs = None -> blockID_good b -> zero_or_complete b ->
  vsVotesByBlock vs !! blockKey b = Some bv -> 2 * total vs < 3 * bvSum bv ->
  length r = length (vsVotes vs) ->
  (forall i, r !! i = match bvVotes bv !! i with Some (Some v) => Some (Some v) | _ => vsVotes vs !! i end) ->
  VoteSetInv (setMaj23 r (Some b) vs).
Proof.
  intros I Hn G Z Hb Hs Hl Hr. destruct I as [I1 I2 I3 I4 I5 I6 I7 I8].
  pose proof (I5 _ _ Hb) as [B1 B2 B3]. destruct I4 as [V1 V2 V3 V4].
  assert (forall i, hasVote r i = hasVote (vsVotes vs) i) as Hhas.
  { apply (copy_hasVote _ (bvVotes bv)); [|done|done]. by rewrite V1, (vi_len _ _ _ _ B1). }
  split; simpl; try done.
  - apply (votes_inv_frame vs); [done|]. split; [congruence| | |].
    + intros i v Hi. rewrite Hr in Hi. destruct (bvVotes bv !! i) as [[w|]|] eqn:Ei; [|by apply V2..].
      injection Hi as <-. by apply (vi_votes _ _ _ _ B1).
    + by apply (bits_ok_ext _ (vsVotes vs)).
    + rewrite V4. by apply votedPower_ext.
  - intros k bv0 Hb0. destruct (I5 _ _ Hb0) as [C1 C2 C3]. split; [by apply (votes_inv_frame vs)|done|].
    intros i v Hi. simpl. rewrite Hhas. by apply (C3 i v).
  - intros i v Hi. rewrite Hr in Hi. destruct (bvVotes bv !! i) as [[w|]|] eqn:Ei.
    + injection Hi as <-. left. exists bv. by rewrite (B2 i w Ei).
    + destruct (I6 i v Hi) as [?|[(m & Hm & _)|[]]]; [by left|congruence].
    + destruct (I6 i v Hi) as [?|[(m & Hm & _)|[]]]; [by left|congruence].
  - intros m [= <-]. split_and!; [done..|]. exists bv. simpl. split_and!; [done..|].
    intros i v Hi. exists v. by rewrite Hr, Hi, (B2 i v Hi).
Qed.

Lemma Inv_except_done X Y vs :
  VoteSetInv_except X Y vs -> (forall i v, X i v -> False) ->
  (vsMaj23 vs = None -> forall k bv, vsVotesByBlock vs !! k = Some bv -> Y k ->
     3 * bvSum bv <= 2 * total vs) -> VoteSetInv vs.
Proof.
  intros [I1 I2 I3 I4 I5 I6 I7 I8] HX HY. split; try done.
  - intros i v Hi. destruct (I6 i v Hi) as [?|[?|?]]; [auto..|]. by destruct (HX i v).
  - intros Hn k bv Hk. destruct (I8 Hn k bv Hk) as [?|?]; [auto|]. left. by eapply HY.
Qed.

(** What [addVerifiedVote] leaves when it adds the vote. *)
Record added_to (vs : VoteSet) (i : nat) (vote : Vote) (vs' : VoteSet) : Prop := {
  at_inv : VoteSetInv vs';
  at_frame : same_frame vs vs';
  at_has : forall j, hasVote (vsVotes vs') j = hasVote (vsVotes vs) j;
  at_tracked : forall k j w, tracked vs' k j w <->
    tracked vs k j w \/ (k = blockKey (vBlockID vote) /\ j = i /\ w = vote);
  at_maj : forall m, vsMaj23 vs = Some m -> vsMaj23 vs' = Some m;
  at_newmaj : forall m, vsMaj23 vs = None -> vsMaj23 vs' = Some m -> m = vBlockID vote;
  at_peers : vsPeerMaj23s vs' = vsPeerMaj23s vs
}.

(** The votes tracked after a vote has been added to its block. *)
Lemma insert_block_tracked vs k bv bv' valSet i vote :
  bvVotes bv' = <[i := Some vote]> (bvVotes bv) -> bvVotes bv !! i = Some None ->
  (vsVotesByBlock vs !! k = Some bv \/
   vsVotesByBlock vs !! k = None /\ forall j w, bvVotes bv !! j <> Some (Some w)) ->
  forall k' j w,
    tracked (setVotesByBlock (<[k := bv']> (vsVotesByBlock vs)) (setValSet valSet vs)) k' j w <->
    tracked vs k' j w \/ (k' = k /\ j = i /\ w = vote).
Proof.
  intros Hv Hnone Hold k' j w. unfold tracked. simpl. destruct (decide (k' = k)) as [->|Hne].
  - rewrite lookup_insert_eq. split.
    + intros (b & [= <-] & Hj). rewrite Hv in Hj.
      apply list_lookup_insert_Some in Hj as [(<- & [= <-] & _)|[_ Hj]]; [by right|].
      destruct Hold as [Ho|[_ Hno]]; [left; eauto|by apply Hno in Hj].
    + intros Ht. exists bv'. split; [done|]. rewrite Hv. destruct Ht as [(b & Hb & Hj)|(_ & -> & ->)].
      * destruct Hold as [Ho|[Ho _]]; [|congruence]. rewrite Ho in Hb. injection Hb as <-.
        rewrite list_lookup_insert_ne; [done|]. intros ->. congruence.
      * apply list_lookup_insert_eq. by eapply lookup_lt_Some.
  - rewrite lookup_insert_ne by done. naive_solver.
Qed.

Lemma addToBlock_spec X vs i vote val bv :
  let k := blockKey (vBlockID vote) in
  VoteSetInv_except X (fun _ => False) vs -> (forall j w, X j w -> j = i /\ w = vote) ->
  vote_at vs i vote -> members vs !! i = Some val -> hasVote (vsVotes vs) i = true ->
  (forall m, vsMaj23 vs = Some m -> blockKey m = k -> vsVotes vs !! i = Some (Some vote)) ->
  block_inv vs k bv -> bvVotes bv !! i = Some None ->
  (vsVotesByBlock vs !! k = Some bv \/
   vsVotesByBlock vs !! k = None /\ bvSum bv = 0 /\ forall j w, bvVotes bv !! j <> Some (Some w)) ->
  exists vs', addToBlock vs vote k (VotingPower val) bv = Done vs' /\ added_to vs i vote vs'.
Proof.
  intros k I HX Hat Hval Hcan Hmaj B Hnone Hold. pose proof (in_wf _ _ _ I) as W.
  destruct (block_add vs k bv i vote val W B Hat Hval eq_refl Hnone Hcan)
    as (bv' & Eadd & B' & Hsum & Hvotes & _).
  pose proof (proj1 (wf_powers_ok _ W) val (list_elem_of_lookup_2 _ _ _ Hval)) as Hpow.
  assert (0 <= total vs <= MaxTotalVotingPower) as Ht
    by (split; [apply sumZ_nonneg, (wf_powers_ok _ W)|apply W]).
  unfold addToBlock. rewrite TotalVotingPower_spec by (apply wf_powers_ok, W || apply W).
  rewrite bind_Done, Eadd, bind_Done. set (valSet := setTotalVotingPower _ _).
  set (vs2 := setVotesByBlock _ _).
  assert (VoteSetInv_except (fun _ _ => False) (fun k' => k' = k) vs2) as I2.
  { apply (insert_block_inv X vs k bv bv' valSet i vote); try done.
    - apply cached_wf, W.
    - destruct Hold as [?|[? _]]; auto.
    - intros _ j w Hj. rewrite Hvotes, list_lookup_insert_ne; [done|]. intros ->. congruence.
    - rewrite Hvotes. apply list_lookup_insert_eq. by eapply lookup_lt_Some.
    - lia.
    - intros j w Hj. rewrite Hvotes in Hj.
      apply list_lookup_insert_Some in Hj as [(<- & [= <-] & _)|[_ Hj]]; auto. }
  pose proof (insert_block_tracked vs k bv bv' valSet i vote Hvotes Hnone) as Htr.
  assert (forall k' j w, tracked vs2 k' j w <-> tracked vs k' j w \/ (k' = k /\ j = i /\ w = vote)) as Htr2.
  { intros k' j w. apply Htr. destruct Hold as [?|(? & _ & ?)]; auto. }
  pose proof (quorum_spec (total vs) (bvSum bv') Ht) as Hq'.
  pose proof (quorum_spec (total vs) (bvSum bv) Ht) as Hq.
  destruct (vote_good_block vote) as [G Z]; [apply Hat|].
  change (vsMaj23 vs2) with (vsMaj23 vs). change (vsVotes vs2) with (vsVotes vs).
  set (quorum := wrap64 _) in *.
  destruct (vsMaj23 vs) as [m|] eqn:Em.
  { exists vs2. split; [by destruct (_ && _)|]. split; try done; try (simpl; congruence).
    apply (Inv_except_done _ _ _ I2); [done|]. simpl. congruence. }
  assert (3 * bvSum bv <= 2 * total vs) as Hlow.
  { destruct Hold as [Ho|(_ & -> & _)]; [|lia]. by destruct (in_nomaj _ _ _ I Em _ _ Ho) as [?|[]]. }
  rewrite (proj2 (Z.ltb_lt _ _)) by lia. simpl.
  destruct (Z.leb_spec quorum (bvSum bv')) as [Hge|Hlt].
  - destruct (copyVotes_spec (vsVotes vs) (bvVotes bv')) as (r & -> & Hl & Hr).
    { rewrite (vi_len _ _ _ _ (in_votes _ _ _ I)). symmetry. apply (vi_len _ _ _ _ (bi_votes _ _ _ B')). }
    rewrite bind_Done. eexists. split; [done|]. split; try done; try congruence.
    + apply (setMaj23_inv vs2 (vBlockID vote) bv'); try done; [by simpl; rewrite lookup_insert_eq|].
      by apply Hq'.
    + intros j. apply (copy_hasVote _ (bvVotes bv')); [|done|apply (bi_canonical _ _ _ B')].
      rewrite (vi_len _ _ _ _ (in_votes _ _ _ I)). symmetry. apply (vi_len _ _ _ _ (bi_votes _ _ _ B')).
    + by intros m _ [= <-].
  - exists vs2. split; [done|]. split; try done; try (simpl; congruence).
    apply (Inv_except_done _ _ _ I2); [done|]. simpl. intros _ k0 bv0 Hk0 ->.
    rewrite lookup_insert_eq in Hk0. injection Hk0 as <-. lia.
Qed.

Lemma new_block_inv vs k peer :
  (forall j w, bvVotes (newBlockVotes peer (ValidatorSet_Size (vsValSet vs))) !! j <> Some (Some w)) /\
  block_inv vs k (newBlockVotes peer (ValidatorSet_Size (vsValSet vs))).
Proof.
  unfold newBlockVotes, ValidatorSet_Size. rewrite Nat2Z.id.
  assert (forall n j (w : Vote), replicate n None !! j <> Some (Some w)) as Hno
    by (intros n j w Hj; by apply lookup_replicate in Hj as [? _]).
  split; [apply Hno|]. split; simpl.
  - split; [by rewrite length_replicate| |apply bits_ok_new|by rewrite votedPower_none].
    intros i v Hi. by apply Hno in Hi.
  - intros i v Hi. by apply Hno in Hi.
  - intros i v Hi. by apply Hno in Hi.
Qed.

(** The block of [vote] is followed although its validator voted differently. *)
Definition followed (vs : VoteSet) (k : bytes) : bool :=
  match vsVotesByBlock vs !! k with Some bv => bvPeerMaj23 bv | None => false end.

(** The result of [addVerifiedVote]. *)
Record verified_result (vs : VoteSet) (i : nat) (vote : Vote) (added : bool)
    (conflicting : option Vote) (vs' : VoteSet) : Prop := {
  vr_inv : VoteSetInv vs';
  vr_frame : same_frame vs vs';
  vr_conflict : vsVotes vs !! i = Some conflicting;
  vr_added : added = bool_decide (conflicting = None) || followed vs (blockKey (vBlockID vote));
  vr_has : forall j, hasVote (vsVotes vs') j = hasVote (vsVotes vs) j || bool_decide (j = i);
  vr_tracked : forall k j w, tracked vs' k j w <->
    tracked vs k j w \/ (added = true /\ k = blockKey (vBlockID vote) /\ j = i /\ w = vote);
  vr_maj : forall m, vsMaj23 vs = Some m -> vsMaj23 vs' = Some m;
  vr_newmaj : forall m, vsMaj23 vs = None -> vsMaj23 vs' = Some m -> m = vBlockID vote;
  vr_peers : vsPeerMaj23s vs' = vsPeerMaj23s vs
}.

Lemma block_inv_frame vs vs1 k bv :
  same_frame vs vs1 -> block_inv vs k bv ->
  (forall i, hasVote (vsVotes vs) i = true -> hasVote (vsVotes vs1) i = true) -> block_inv vs1 k bv.
Proof.
  intros F [B1 B2 B3] Hm. split; [by apply (votes_inv_frame vs)|done|]. intros i v Hi.
  eapply Hm, B3, Hi.
Qed.

Lemma addVerifiedVote_spec vs i vote val :
  let k := blockKey (vBlockID vote) in
  VoteSetInv vs -> vote_at vs i vote -> members vs !! i = Some val ->
  (forall e, vsVotes vs !! i = Some (Some e) -> blockKey (vBlockID e) <> k) ->
  (forall bv w, vsVotesByBlock vs !! k = Some bv -> bvVotes bv !! i <> Some (Some w)) ->
  exists added conflicting vs',
    addVerifiedVote vs vote k (VotingPower val) = Done (added, conflicting, vs') /\
    verified_result vs i vote added conflicting vs'.
Proof.
  intros k I Hat Hval Hnew Hnewb. unfold addVerifiedVote.
  destruct (addCanonical_spec vs i vote val I Hat Hval Hnew)
    as (conflicting & vs1 & E & Hc & I1 & Hcan & Hm & F & Em & Eb & Ep).
  fold k in E, Hm. rewrite E, bind_Done, Eb.
  assert (vote_at vs1 i vote) as Hat1 by by eapply vote_at_frame.
  assert (members vs1 = members vs) as Emem by apply F.
  assert (forall k' j w, tracked vs1 k' j w <-> tracked vs k' j w) as Etr
    by (intros; unfold tracked; by rewrite Eb).
  assert (hasVote (vsVotes vs1) i = true) as Hcani
    by (rewrite Hcan, bool_decide_eq_true_2 by done; apply orb_true_r).
  assert (members vs1 !! i = Some val) as Hval1 by by rewrite Emem.
  assert (forall j w, conflicting = None /\ j = i /\ w = vote -> j = i /\ w = vote) as HX by tauto.
  assert (forall m, vsMaj23 vs1 = Some m -> blockKey m = k -> vsVotes vs1 !! i = Some (Some vote)) as Hm1
    by (rewrite Em; exact Hm).
  assert (forall bv, added_to vs1 i vote bv ->
            bool_decide (conflicting = None) || followed vs k = true ->
            verified_result vs i vote true conflicting bv) as Hfin.
  { intros vs' [A1 A2 A2' A3 A4 A5 A6] Hfol. split; try done.
    - by eapply same_frame_trans.
    - intros j. by rewrite A2', Hcan.
    - intros k' j w. rewrite A3, Etr. tauto.
    - rewrite <- Em. apply A4.
    - rewrite <- Em. apply A5.
    - congruence. }
  assert (conflicting <> None -> followed vs k = false ->
          verified_result vs i vote false conflicting vs1) as Hrej.
  { intros Hne Hfol. split; try done.
    - apply (Inv_except_done _ _ _ I1); [by intros j w [? _]|done].
    - fold k. rewrite Hfol. by rewrite bool_decide_eq_false_2.
    - intros k' j w. rewrite Etr. naive_solver.
    - by rewrite Em.
    - intros m. rewrite Em. congruence. }
  destruct (vsVotesByBlock vs !! k) as [bv|] eqn:Ebv.
  - assert (block_inv vs1 k bv) as B by (apply (in_blocks _ _ _ I1); by rewrite Eb).
    assert (bvVotes bv !! i = Some None) as Hnone.
    { destruct (bvVotes bv !! i) as [[w|]|] eqn:Ei; [by destruct (Hnewb bv w eq_refl)|done|].
      apply lookup_ge_None in Ei. rewrite (vi_len _ _ _ _ (bi_votes _ _ _ B)), Emem in Ei.
      apply lookup_lt_Some in Hval. lia. }
    assert (followed vs k = bvPeerMaj23 bv) as Efol by (unfold followed; by rewrite Ebv).
    destruct (negb (bool_decide (conflicting = None)) && negb (bvPeerMaj23 bv)) eqn:Eg.
    + apply andb_true_iff in Eg as [Eg1%negb_true_iff Eg2%negb_true_iff].
      apply bool_decide_eq_false in Eg1. do 3 eexists. split; [done|]. apply Hrej; congruence.
    + destruct (addToBlock_spec _ vs1 i vote val bv I1 HX Hat1 Hval1 Hcani Hm1 B Hnone)
        as (vs' & E' & Hadd); [left; by rewrite Eb|].
      fold k in E'. rewrite E', bind_Done. do 3 eexists. split; [done|]. apply Hfin; [done|]. rewrite Efol.
      by destruct (bool_decide _), (bvPeerMaj23 bv).
  - destruct (new_block_inv vs1 k false) as [Hno B].
    assert (followed vs k = false) as Efol by (unfold followed; by rewrite Ebv).
    case_bool_decide as Ec; simpl.
    + destruct (addToBlock_spec _ vs1 i vote val _ I1 HX Hat1 Hval1 Hcani Hm1 B) as (vs' & E' & Hadd).
      * unfold newBlockVotes, ValidatorSet_Size. simpl. rewrite Nat2Z.id.
        apply lookup_replicate_2. by eapply lookup_lt_Some.
      * right. by rewrite Eb.
      * fold k in E'. rewrite E', bind_Done. do 3 eexists. split; [done|]. by apply Hfin.
    + do 3 eexists. split; [done|]. by apply Hrej.
Qed.

(** ** [AddVote] *)

(** A vote of [i] for the block with key [k] that [getVote] finds. *)
Definition known (vs : VoteSet) (k : bytes) (i : nat) (w : Vote) : Prop :=
  (vsVotes vs !! i = Some (Some w) /\ blockKey (vBlockID w) = k) \/ tracked vs k i w.

(** What a call of [AddVote] returns and leaves. *)
Inductive add_outcome (vs : VoteSet) (vote : Vote) : bool -> option VoteError -> VoteSet -> Prop :=
  | ao_refused e :
      (forall i, ~ vote_at vs i vote) \/
      (e = ErrVoteNonDeterministicSignature /\
       exists i w, vValidatorIndex vote = Z.of_nat i /\ known vs (blockKey (vBlockID vote)) i w /\
         vSignature w <> vSignature vote) ->
      add_outcome vs vote false (Some e) vs
  | ao_duplicate i w :
      vValidatorIndex vote = Z.of_nat i ->
      known vs (blockKey (vBlockID vote)) i w -> vSignature w = vSignature vote ->
      add_outcome vs vote false None vs
  | ao_added i vs' :
      vote_at vs i vote -> verified_result vs i vote true None vs' ->
      add_outcome vs vote true None vs'
  | ao_conflict i c added ev vs' :
      vote_at vs i vote -> vote_at vs i c -> vBlockID c <> vBlockID vote ->
      verified_result vs i vote added (Some c) vs' ->
      ev = mkDuplicateVoteEvidence c vote \/ ev = mkDuplicateVoteEvidence vote c ->
      add_outcome vs vote added (Some (ErrVoteConflictingVotes (Some ev))) vs'.

Lemma vote_good_index v :
  vote_good v -> 0 <= vValidatorIndex v /\ Z.of_nat (length (vValidatorAddress v)) = AddressSize.
Proof.
  intros [Ht Hv]. unfold Vote_ValidateBasic in Hv.
  destruct (negb (IsVoteTypeValid (vType v))); [done|]. destruct (_ <? 0); [done|].
  destruct (_ <? 0); [done|]. destruct (BlockID_ValidateBasic (vBlockID v)); [done|].
  destruct (negb _ && negb _); [done|].
  destruct (Z.eqb_spec (Z.of_nat (length (vValidatorAddress v))) AddressSize); [|done]. simpl in Hv.
  destruct (Z.ltb_spec (vValidatorIndex v) 0); [done|]. lia.
Qed.

Lemma GetByIndex_spec vals (i : nat) :
  GetByIndex vals (Z.of_nat i) = (fun v => (Address v, v)) <$> Validators vals !! i.
Proof.
  unfold GetByIndex. rewrite (proj2 (Z.ltb_ge _ _)) by lia. simpl.
  destruct (Z.leb_spec (Z.of_nat (length (Validators vals))) (Z.of_nat i)).
  - by rewrite lookup_ge_None_2 by lia.
  - rewrite Nat2Z.id. by destruct (Validators vals !! i).
Qed.

Lemma getVote_spec vs k i val :
  VoteSetInv vs -> members vs !! i = Some val ->
  exists o, getVote vs (Z.of_nat i) k = Done o /\
    match o with
    | Some w => known vs k i w
    | None => (forall e, vsVotes vs !! i = Some (Some e) -> blockKey (vBlockID e) <> k) /\
              (forall bv w, vsVotesByBlock vs !! k = Some bv -> bvVotes bv !! i <> Some (Some w))
    end.
Proof.
  intros I Hval. pose proof (in_votes _ _ _ I) as V. apply lookup_lt_Some in Hval as Hlt.
  assert (exists o, vsVotes vs !! i = Some o) as [o Ho]
    by (apply lookup_lt_is_Some; by rewrite (vi_len _ _ _ _ V)).
  unfold getVote. rewrite (proj2 (index_Done _ _ o)) by (rewrite Nat2Z.id; split; [lia|done]).
  rewrite bind_Done.
  assert (exists o', blockVotes_getByIndex (vsVotesByBlock vs !! k) (Z.of_nat i) = Done o' /\
            match o' with
            | Some w => tracked vs k i w
            | None => forall bv w, vsVotesByBlock vs !! k = Some bv -> bvVotes bv !! i <> Some (Some w)
            end) as (o' & Eo' & Ho').
  { destruct (vsVotesByBlock vs !! k) as [bv|] eqn:Eb; [|by exists None].
    pose proof (vi_len _ _ _ _ (bi_votes _ _ _ (in_blocks _ _ _ I _ _ Eb))) as Hl.
    assert (exists o', bvVotes bv !! i = Some o') as [o' Hb] by (apply lookup_lt_is_Some; by rewrite Hl).
    exists o'. split; [apply index_Done; rewrite Nat2Z.id; split; [lia|done]|].
    destruct o' as [w|]; [by exists bv|]. intros bv' w [= <-]. congruence. }
  destruct o as [e|].
  - pose proof (vi_votes _ _ _ _ V i e Ho) as Hat.
    rewrite BlockID_Key_Done, !bind_Done by (apply vote_good_block, Hat).
    case_bool_decide as Ek; [by exists (Some e); split; [|left]|].
    exists o'. split; [done|]. destruct o' as [w|]; [by right|]. split; [|done].
    intros e' He'. rewrite Ho in He'. by injection He' as <-.
  - rewrite bind_Done. exists o'. split; [done|]. destruct o' as [w|]; [by right|]. split; [|done].
    intros e He. congruence.
Qed.

Lemma conflict_evidence c v :
  vote_good c -> vote_good v ->
  exists ev, NewConflictingVoteError (Some c) (Some v) = Done (ErrVoteConflictingVotes (Some ev)) /\
    (ev = mkDuplicateVoteEvidence c v \/ ev = mkDuplicateVoteEvidence v c).
Proof.
  intros Gc Gv. unfold NewConflictingVoteError, NewDuplicateVoteEvidence.
  rewrite !BlockID_Key_Done, !bind_Done by (by apply vote_good_block).
  destruct (bytes_compare _ _); rewrite bind_Done; eauto.
Qed.

Lemma AddVote_spec vs vote bz :
  VoteSetInv vs -> vote_good vote -> VoteSignBytes (vsChainID vs) (Vote_ToProto vote) = Done bz ->
  exists added err vs', AddVote (Some vs) (Some vote) = Done (added, err, vs') /\
    add_outcome vs vote added err vs'.
Proof.
  intros I G Hsb. destruct (vote_good_index vote G) as [Hi Ha].
  assert (exists i, vValidatorIndex vote = Z.of_nat i) as [i Eidx]
    by (exists (Z.to_nat (vValidatorIndex vote)); lia).
  assert (forall j, vote_at vs j vote -> j = i) as Hj by (intros j (_ & E & _); lia).
  unfold AddVote, addVote. rewrite BlockID_Key_Done, bind_Done by by apply vote_good_block.
  rewrite (proj2 (Z.ltb_ge _ _)) by lia.
  rewrite (proj2 (Nat.eqb_neq _ _)) by (unfold AddressSize in Ha; lia).
  destruct (Z.eqb_spec (vHeight vote) (vsHeight vs)) as [Eh|]; simpl;
    [|do 3 eexists; split; [done|]; apply ao_refused; left; intros j Hat; unfold vote_at in Hat; naive_solver].
  destruct (Z.eqb_spec (vRound vote) (vsRound vs)) as [Er|]; simpl;
    [|do 3 eexists; split; [done|]; apply ao_refused; left; intros j Hat; unfold vote_at in Hat; naive_solver].
  destruct (Z.eqb_spec (vType vote) (vsType vs)) as [Et|]; simpl;
    [|do 3 eexists; split; [done|]; apply ao_refused; left; intros j Hat; unfold vote_at in Hat; naive_solver].
  rewrite Eidx, GetByIndex_spec.
  destruct (members vs !! i) as [val|] eqn:Hval; simpl; cycle 1.
  { do 3 eexists; split; [done|]; apply ao_refused; left; intros j Hat.
    pose proof (Hj j Hat) as ->. destruct Hat as (_ & _ & _ & _ & _ & val & pk & Hv & _). congruence. }
  case_bool_decide as Eaddr; simpl; cycle 1.
  { do 3 eexists; split; [done|]; apply ao_refused; left; intros j Hat.
    pose proof (Hj j Hat) as ->. destruct Hat as (_ & _ & _ & _ & _ & v' & pk & Hv & _ & E & _). congruence. }
  destruct (getVote_spec vs (blockKey (vBlockID vote)) i val I Hval) as (o & -> & Ho).
  rewrite bind_Done. destruct o as [w|].
  { case_bool_decide as Esig; do 3 eexists; (split; [done|]);
      [by eapply (ao_duplicate _ _ i w)|apply ao_refused; right; split; [done|]; by exists i, w]. }
  destruct Ho as [Hnew Hnewb].
  destruct (vPubKey val) as [pk|] eqn:Epk;
    [|by destruct (in_keys _ _ _ I val (list_elem_of_lookup_2 _ _ _ Hval))].
  assert (exists r, Vote_Verify vote (vsChainID vs) pk = Done r) as [r Er'].
  { unfold Vote_Verify. destruct (negb _); [eauto|]. rewrite Hsb, bind_Done. destruct (negb _); eauto. }
  rewrite Er', bind_Done. destruct r as [e|].
  { do 3 eexists; split; [done|]; apply ao_refused; left; intros j Hat.
    pose proof (Hj j Hat) as ->. destruct Hat as (_ & _ & _ & _ & _ & v' & pk' & Hv & Hp & _ & E). congruence. }
  assert (vote_at vs i vote) as Hat by (split_and!; try done; by exists val, pk).
  destruct (addVerifiedVote_spec vs i vote val I Hat Hval Hnew Hnewb)
    as (added & conflicting & vs' & -> & R). rewrite bind_Done.
  pose proof (vr_conflict _ _ _ _ _ _ R) as Hc. destruct conflicting as [c|].
  - pose proof (vi_votes _ _ _ _ (in_votes _ _ _ I) i c Hc) as Hatc.
    destruct (conflict_evidence c vote) as (ev & -> & Hev); [apply Hatc|apply Hat|].
    rewrite bind_Done. do 3 eexists. split; [done|]. eapply ao_conflict; try done.
    intros E. apply (Hnew c Hc). congruence.
  - pose proof (vr_added _ _ _ _ _ _ R) as Hadd. rewrite bool_decide_eq_true_2 in Hadd by done.
    simpl in Hadd. subst added. do 3 eexists. split; [done|]. by eapply ao_added.
Qed.

End invariant.
