(* ===== verification/VoteSetClaims.v ===== *)
(** * Correctness of vote sets

    Vote sets reachable from [NewVoteSet] by calls of [AddVote] and
    [SetPeerMaj23] in any order, what their majority means, and the commits
    made from them. *)

From Stdlib Require Import ZArith Lia.
From S2P Require Import Prelude Proto BitArray Validator ValidatorSet ValidatorSetUpdate BlockTypes.
From S2P Require Import SignBytes CommitVerify VoteSet VoteSetInv.
From stdpp Require Import base gmap list option strings numbers sorting relations.

Local Open Scope Z_scope.

Section steps.
Context `{Crypto} {ST : StdTime}.

Notation members vs := (Validators (vsValSet vs)).
Notation total vs := (sumZ VotingPower (Validators (vsValSet vs))).

(** A validator set that vote sets can be made for. *)
Record valset_usable (vals : ValidatorSet) : Prop := {
  vu_wf : VS_wf vals;
  vu_keys : forall v, v ∈ Validators vals -> vPubKey v <> None;
  vu_size : Z.of_nat (length (Validators vals)) <= MaxInt32
}.

Lemma NewVoteSet_inv chainID height round ty vals vs :
  valset_usable vals -> NewVoteSet chainID height round ty vals = Done vs ->
  VoteSetInv vs /\ vsMaj23 vs = None.
Proof.
  intros [W K S] E. unfold NewVoteSet in E. destruct (height =? 0); [done|]. injection E as <-.
  unfold ValidatorSet_Size. rewrite Nat2Z.id. split; [|done].
  assert (forall n j (w : Vote), replicate n None !! j <> Some (Some w)) as Hno
    by (intros n j w Hj; by apply lookup_replicate in Hj as [? _]).
  split; simpl; try done.
  - split; simpl; [by rewrite length_replicate| |apply bits_ok_new|by rewrite votedPower_none].
    intros i v Hi. by apply Hno in Hi.
  - intros i v Hi. by apply Hno in Hi.
Qed.

(** Changing the tracked blocks in ways that keep all votes. *)
Lemma retrack_inv vs vs' :
  VoteSetInv vs -> same_frame vs vs' -> vsValSet vs' = vsValSet vs ->
  vsVotesBitArray vs' = vsVotesBitArray vs -> vsVotes vs' = vsVotes vs -> vsSum vs' = vsSum vs ->
  vsMaj23 vs' = vsMaj23 vs ->
  (forall k bv, vsVotesByBlock vs !! k = Some bv -> exists bv', vsVotesByBlock vs' !! k = Some bv' /\
     bvVotes bv' = bvVotes bv /\ bvSum bv' = bvSum bv) ->
  (forall k bv', vsVotesByBlock vs' !! k = Some bv' -> block_inv vs k bv' /\
     (bvSum bv' = 0 \/ exists bv, vsVotesByBlock vs !! k = Some bv /\ bvSum bv' = bvSum bv)) ->
  VoteSetInv vs'.
Proof.
  intros [I1 I2 I3 I4 I5 I6 I7 I8] F Ev Eb Evo Es Em Hfwd Hbwd.
  assert (0 <= total vs) as Ht by (apply sumZ_nonneg, (wf_powers_ok _ I1)).
  split; rewrite ?Ev, ?Eb, ?Evo, ?Es, ?Em; try done.
  - by apply (votes_inv_frame vs).
  - intros k bv' Hk. destruct (Hbwd k bv' Hk) as [B _].
    apply (block_inv_frame vs); [done..|]. intros i. by rewrite Evo.
  - intros i v Hi. destruct (I6 i v Hi) as [(bv & Hb & Hi')|[?|[]]]; [left|by right; left].
    destruct (Hfwd _ _ Hb) as (bv' & Hb' & E & _). exists bv'. by rewrite E.
  - intros m Hm. destruct (I7 m Hm) as (G & Z & bv & Hb & Hs & Hall). split_and!; [done..|].
    destruct (Hfwd _ _ Hb) as (bv' & Hb' & E & E'). exists bv'. rewrite Ev, E, E', Evo. by split_and!.
  - intros Hn k bv' Hk. left. destruct (Hbwd k bv' Hk) as [_ [->|(bv & Hb & ->)]]; [lia|].
    by destruct (I8 Hn k bv Hb) as [?|[]].
Qed.

Lemma SetPeerMaj23_spec vs peer b :
  VoteSetInv vs -> blockID_good b ->
  exists err vs', SetPeerMaj23 (Some vs) peer b = Done (err, vs') /\ VoteSetInv vs' /\
    same_frame vs vs' /\ vsMaj23 vs' = vsMaj23 vs /\ vsVotes vs' = vsVotes vs.
Proof.
  intros I G. unfold SetPeerMaj23. rewrite BlockID_Key_Done, bind_Done by done.
  destruct (vsPeerMaj23s vs !! peer) as [ex|].
  { destruct (BlockID_Equals ex b); do 2 eexists; (split; [done|]); by split_and!. }
  simpl. destruct (vsVotesByBlock vs !! blockKey b) as [bv|] eqn:Eb.
  - destruct (bvPeerMaj23 bv).
    + do 2 eexists. split; [done|]. split_and!; try done. apply (retrack_inv vs); try done; simpl; [eauto|].
      intros k bv' Hk. split; [by apply (in_blocks _ _ _ I)|eauto].
    + do 2 eexists. split; [done|]. split_and!; try done. apply (retrack_inv vs); try done; simpl.
      * intros k bv0 Hk. destruct (decide (k = blockKey b)) as [->|].
        -- rewrite lookup_insert_eq. eexists. split; [done|]. rewrite Eb in Hk. by injection Hk as <-.
        -- rewrite lookup_insert_ne by done. eauto.
      * intros k bv' Hk. destruct (decide (k = blockKey b)) as [->|].
        -- rewrite lookup_insert_eq in Hk. injection Hk as <-. split; [|right; eauto].
           destruct (in_blocks _ _ _ I _ _ Eb) as [B1 B2 B3]. by split.
        -- rewrite lookup_insert_ne in Hk by done. split; [by apply (in_blocks _ _ _ I)|eauto].
  - do 2 eexists. split; [done|]. split_and!; try done. apply (retrack_inv vs); try done; simpl.
    + intros k bv0 Hk. rewrite lookup_insert_ne by congruence. eauto.
    + intros k bv' Hk. destruct (decide (k = blockKey b)) as [->|].
      * rewrite lookup_insert_eq in Hk. injection Hk as <-. split; [apply new_block_inv|by left].
      * rewrite lookup_insert_ne in Hk by done. split; [by apply (in_blocks _ _ _ I)|eauto].
Qed.

(** ** Sequences of calls *)

(** One call on a vote set.  Votes and block identifiers have passed their
    basic validation, and the sign bytes of a vote can be computed. *)
Inductive vs_step : VoteSet -> VoteSet -> Prop :=
  | step_add vs vote bz added err vs' :
      vote_good vote -> VoteSignBytes (vsChainID vs) (Vote_ToProto vote) = Done bz ->
      AddVote (Some vs) (Some vote) = Done (added, err, vs') -> vs_step vs vs'
  | step_peer vs peer b err vs' :
      blockID_good b -> SetPeerMaj23 (Some vs) peer b = Done (err, vs') -> vs_step vs vs'.

Lemma outcome_inv vs vote added err vs' :
  VoteSetInv vs -> add_outcome vs vote added err vs' ->
  VoteSetInv vs' /\ same_frame vs vs' /\ forall m, vsMaj23 vs = Some m -> vsMaj23 vs' = Some m.
Proof. intros I [e He|i w Hw Es|i vs'' Hat R|i c added' ev vs'' Hat Hc Hne R Hev]; try done; by destruct R. Qed.

Lemma step_inv vs vs' :
  VoteSetInv vs -> vs_step vs vs' ->
  VoteSetInv vs' /\ same_frame vs vs' /\ forall m, vsMaj23 vs = Some m -> vsMaj23 vs' = Some m.
Proof.
  intros I Hst. destruct Hst as [vs vote bz added err vs' G Hsb E|vs peer b err vs' G E].
  - destruct (AddVote_spec vs vote bz I G Hsb) as (a & e & v & E' & O). rewrite E in E'.
    injection E' as <- <- <-. by eapply outcome_inv.
  - destruct (SetPeerMaj23_spec vs peer b I G) as (e & v & E' & I' & F & Em & _). rewrite E in E'.
    injection E' as <- <-. rewrite Em. done.
Qed.

Lemma steps_inv vs vs' :
  VoteSetInv vs -> rtc vs_step vs vs' ->
  VoteSetInv vs' /\ same_frame vs vs' /\ forall m, vsMaj23 vs = Some m -> vsMaj23 vs' = Some m.
Proof.
  intros I Hst. induction Hst as [vs|vs vs1 vs' H1 Hst IH]; [done|].
  destruct (step_inv _ _ I H1) as (I1 & F1 & M1). destruct (IH I1) as (I' & F' & M').
  split_and!; [done|by eapply same_frame_trans|auto].
Qed.

(** ** The majority *)

(** The validators that have a vote in [votes]. *)
Fixpoint voters (vs : list Validator) (votes : list (option Vote)) : list Validator :=
  match vs, votes with
  | v :: vs', Some _ :: votes' => v :: voters vs' votes'
  | _ :: vs', None :: votes' => voters vs' votes'
  | _, _ => []
  end.

Lemma voters_power vs votes : votedPower vs votes = sumZ VotingPower (voters vs votes).
Proof.
  revert votes. induction vs as [|v vs IH]; intros [|[w|] votes]; try done;
    rewrite votedPower_cons; cbn [voters]; rewrite ?sumZ_cons, IH; lia.
Qed.

Lemma voters_sublist vs votes : voters vs votes `sublist_of` vs.
Proof.
  revert votes. induction vs as [|v vs IH]; intros [|[w|] votes]; simpl;
    try apply sublist_nil_l; by constructor.
Qed.

Lemma voters_elem vs votes v :
  v ∈ voters vs votes -> exists i w, vs !! i = Some v /\ votes !! i = Some (Some w).
Proof.
  revert votes. induction vs as [|u vs IH]; intros [|[w|] votes] Hv; simpl in Hv;
    try by apply elem_of_nil in Hv.
  - apply elem_of_cons in Hv as [->|Hv]; [by exists 0%nat, w|].
    destruct (IH _ Hv) as (i & x & ?). by exists (S i), x.
  - destruct (IH _ Hv) as (i & x & ?). by exists (S i), x.
Qed.

(** [v] has a verified vote for the block [m] among the canonical votes. *)
Definition votedFor (vs : VoteSet) (m : BlockID) (v : Validator) : Prop :=
  exists i vote, members vs !! i = Some v /\ vsVotes vs !! i = Some (Some vote) /\
    vote_at vs i vote /\ vBlockID vote = m.

Lemma canonical_block vs m i w :
  VoteSetInv vs -> vsMaj23 vs = Some m -> vsVotes vs !! i = Some (Some w) ->
  blockKey (vBlockID w) = blockKey m -> vBlockID w = m.
Proof.
  intros I Hm Hi Ek. destruct (in_maj _ _ _ I m Hm) as ([T _] & Z & _).
  pose proof (vi_votes _ _ _ _ (in_votes _ _ _ I) i w Hi) as [G _].
  destruct (vote_good_block w G) as [[T' _] Z']. by apply blockKey_inj.
Qed.

Lemma majority_signers vs m :
  VoteSetInv vs -> vsMaj23 vs = Some m ->
  exists signers, NoDup signers /\ (forall v, v ∈ signers -> v ∈ members vs /\ votedFor vs m v) /\
    2 * total vs < 3 * sumZ VotingPower signers.
Proof.
  intros I Hm. pose proof (in_maj _ _ _ I m Hm) as (_ & _ & bv & Hb & Hs & Hall).
  destruct (in_blocks _ _ _ I _ _ Hb) as [B1 B2 B3].
  exists (voters (members vs) (bvVotes bv)). split_and!.
  - eapply sublist_NoDup; [|apply voters_sublist]. eapply NoDup_fmap_1, (vs_nodup _ (in_wf _ _ _ I)).
  - intros v (i & w & Hv & Hw)%voters_elem. split; [by eapply list_elem_of_lookup_2|].
    destruct (Hall i w Hw) as (w' & Hw' & Ek). exists i, w'. split_and!; [done|done| |].
    + by apply (vi_votes _ _ _ _ (in_votes _ _ _ I)).
    + by eapply canonical_block.
  - by rewrite <- voters_power, <- (vi_sum _ _ _ _ B1).
Qed.

(** Two groups of members overlap in the power they have in excess. *)
Lemma quorum_overlap (vals : ValidatorSet) (l1 l2 : list Validator) :
  VS_wf vals -> NoDup l1 -> NoDup l2 ->
  (forall v, v ∈ l1 -> v ∈ Validators vals) -> (forall v, v ∈ l2 -> v ∈ Validators vals) ->
  sumZ VotingPower l1 + sumZ VotingPower l2
    <= sumZ VotingPower (Validators vals) + sumZ VotingPower (filter (fun v => v ∈ l2) l1).
Proof.
  intros W N1 N2 S1 S2.
  rewrite (sumZ_filter_split VotingPower (fun v => v ∈ l2) l1).
  assert (sumZ VotingPower (filter (fun v => v ∉ l2) l1 ++ l2) <= sumZ VotingPower (Validators vals)) as Hle.
  { apply sumZ_submseteq; [|apply (wf_powers_ok _ W)]. apply NoDup_submseteq.
    - apply NoDup_app. split_and!; [by apply NoDup_filter| |done].
      intros v [Hv _]%list_elem_of_filter. done.
    - intros v [[_ Hv]%list_elem_of_filter|Hv]%elem_of_app; auto. }
  rewrite sumZ_app in Hle. lia.
Qed.

(** ** Commits made from a vote set *)

(** The entry of the commit for a canonical vote. *)
Definition commitSigOf (m : BlockID) (o : option Vote) : CommitSig :=
  match o with
  | None => NewCommitSigAbsent
  | Some v =>
    let entry flag := mkCommitSig flag (vValidatorAddress v) (vTimestamp v) (vSignature v) in
    if BlockID_IsComplete (vBlockID v)
    then if BlockID_Equals (vBlockID v) m then entry BlockIDFlagCommit else NewCommitSigAbsent
    else entry BlockIDFlagNil
  end.

Lemma commitSigFor_Done m o :
  (forall v, o = Some v -> zero_or_complete (vBlockID v)) -> commitSigFor m o = Done (commitSigOf m o).
Proof.
  intros G. unfold commitSigFor, Vote_CommitSig. destruct o as [v|]; [|done].
  specialize (G v eq_refl). simpl. destruct (BlockID_IsComplete (vBlockID v)) eqn:Ec.
  - rewrite !bind_Done. cbn [CommitSig_ForBlock csBlockIDFlag Z.eqb]. simpl.
    by destruct (BlockID_Equals _ _).
  - destruct G as [->|?]; [|congruence]. done.
Qed.

Definition madeCommit (vs : VoteSet) (m : BlockID) : Commit :=
  NewCommit (vsHeight vs) (vsRound vs) m (commitSigOf m <$> vsVotes vs).

Lemma MakeCommit_Done vs m :
  VoteSetInv vs -> vsType vs = PrecommitType -> vsMaj23 vs = Some m ->
  MakeCommit vs = Done (madeCommit vs m).
Proof.
  intros I Ht Hm. unfold MakeCommit. rewrite Ht, Hm. simpl.
  rewrite (foldM_append _ (commitSigOf m) (fun y _ => y)); [done|].
  intros o [i Hi]%list_elem_of_lookup. apply commitSigFor_Done. intros v ->.
  apply vote_good_block, (vi_votes _ _ _ _ (in_votes _ _ _ I) i v Hi).
Qed.

(** A present entry gives back the vote it was made from. *)
Lemma madeCommit_GetVote vs m i v :
  VoteSetInv vs -> vsType vs = PrecommitType -> vsVotes vs !! i = Some (Some v) ->
  CommitSig_Absent (commitSigOf m (Some v)) = false ->
  wrap32 (Z.of_nat i) = Z.of_nat i /\ Commit_GetVote (madeCommit vs m) (Z.of_nat i) = Done v.
Proof.
  intros I Ht Hi Hp. pose proof (vi_votes _ _ _ _ (in_votes _ _ _ I) i v Hi) as Hat.
  destruct Hat as (G & Ei & Eh & Er & Et & _). pose proof (proj2 (vote_good_block v G)) as Hz. split.
  - apply wrap32_id. apply lookup_lt_Some in Hi. rewrite (vi_len _ _ _ _ (in_votes _ _ _ I)) in Hi.
    pose proof (in_size _ _ _ I). unfold int32, MinInt32. lia.
  - unfold Commit_GetVote. rewrite (proj2 (index_Done _ _ (commitSigOf m (Some v)))); cycle 1.
    { split; [lia|]. rewrite Nat2Z.id. simpl. by rewrite list_lookup_fmap, Hi. }
    rewrite bind_Done. simpl in Hp |- *. destruct v as [ty h r b ts ad ix sg]. simpl in *. subst. rewrite Ht.
    destruct (BlockID_IsComplete b) eqn:Ec.
    + destruct (BlockID_Equals b m) eqn:Eq; [|done]. apply BlockID_Equals_eq in Eq as ->. done.
    + destruct Hz as [Hz|?]; [|congruence]. by rewrite (IsZero_eq _ Hz).
Qed.

Lemma madeCommit_present vs m :
  VoteSetInv vs -> vsType vs = PrecommitType ->
  presentValid (vsValSet vs) (vsChainID vs) (madeCommit vs m) 0.
Proof.
  intros I Ht i val cs _ Hval Hcs Hp. simpl in Hcs. rewrite list_lookup_fmap in Hcs.
  destruct (vsVotes vs !! i) as [[v|]|] eqn:Hi; cbn [fmap option_fmap option_map] in Hcs;
    [|by injection Hcs as <-|done].
  injection Hcs as <-. destruct (madeCommit_GetVote vs m i v I Ht Hi Hp) as [Ew Eg].
  pose proof (vi_votes _ _ _ _ (in_votes _ _ _ I) i v Hi) as (_ & _ & _ & _ & _ & val' & pk & Hv & Hk & _ & Hok).
  assert (val' = val) as -> by congruence.
  unfold verifySig, Commit_VoteSignBytes. rewrite Ew, Eg, bind_Done, Hk.
  unfold Vote_Verify in Hok. destruct (negb _); [done|].
  destruct (VoteSignBytes (vsChainID vs) (Vote_ToProto v)) as [bz|]; [|done].
  simpl in Hok. rewrite bind_Done. f_equal.
  assert (pkVerifyBytes pk bz (vSignature v) = true) as Hsig by by destruct (pkVerifyBytes _ _ _).
  destruct (BlockID_IsComplete _); [|done]. by destruct (BlockID_Equals _ _).
Qed.

Lemma madeCommit_power vals votes votes' m :
  (forall v, v ∈ vals -> 0 <= VotingPower v) -> BlockID_IsComplete m = true ->
  length votes = length votes' ->
  (forall i v, votes !! i = Some (Some v) ->
     exists w, votes' !! i = Some (Some w) /\ vBlockID w = m) ->
  votedPower vals votes <= blockPower vals (commitSigOf m <$> votes').
Proof.
  intros Hp Hc. revert votes votes'. induction vals as [|v vals IH]; intros [|o votes] [|o' votes'] Hl Hall; try done.
  cbn [fmap list_fmap]. rewrite votedPower_cons, blockPower_cons.
  specialize (IH ltac:(set_solver) votes votes' ltac:(by injection Hl) (fun i w => Hall (S i) w)).
  pose proof (Hp v ltac:(set_solver)). destruct o as [u|]; [|destruct (CommitSig_ForBlock _); lia].
  destruct (Hall 0%nat u eq_refl) as (w & [= ->] & <-).
  assert (CommitSig_ForBlock (commitSigOf (vBlockID w) (Some w)) = true) as ->; [|lia].
  simpl. by rewrite Hc, (proj2 (BlockID_Equals_eq _ _) eq_refl).
Qed.

Lemma MakeCommit_verifies vs m :
  VoteSetInv vs -> vsType vs = PrecommitType -> vsMaj23 vs = Some m -> BlockID_IsComplete m = true ->
  VerifyCommit (vsChainID vs) m (vsHeight vs) (madeCommit vs m) (vsValSet vs)
  = Done (None, setTotalVotingPower (total vs) (vsValSet vs)).
Proof.
  intros I Ht Hm Hc. pose proof (in_maj _ _ _ I m Hm) as (_ & _ & bv & Hb & Hs & Hall).
  pose proof (in_blocks _ _ _ I _ _ Hb) as [B1 _ _].
  apply VerifyCommit_accepts; [apply (in_wf _ _ _ I)|]. split_and!; try done.
  - simpl. rewrite length_fmap. symmetry. apply (vi_len _ _ _ _ (in_votes _ _ _ I)).
  - by apply madeCommit_present.
  - eapply Z.lt_le_trans; [exact Hs|]. rewrite (vi_sum _ _ _ _ B1). apply Z.mul_le_mono_nonneg_l; [lia|].
    apply madeCommit_power; [apply (wf_powers_ok _ (in_wf _ _ _ I))|done| |].
    + by rewrite (vi_len _ _ _ _ B1), (vi_len _ _ _ _ (in_votes _ _ _ I)).
    + intros i v Hi. destruct (Hall i v Hi) as (w & Hw & Ek). exists w. split; [done|].
      by eapply canonical_block.
Qed.

(** ** Rebuilding a vote set from a commit *)

Lemma vote_at_signbytes vs i v :
  vote_at vs i v -> exists bz, VoteSignBytes (vsChainID vs) (Vote_ToProto v) = Done bz.
Proof.
  intros (_ & _ & _ & _ & _ & val & pk & _ & _ & _ & Hok). unfold Vote_Verify in Hok.
  destruct (negb _); [done|]. destruct (VoteSignBytes _ _) as [bz|]; [eauto|done].
Qed.

(** A verified vote of a validator without a vote is added. *)
Lemma AddVote_fresh vs i v :
  VoteSetInv vs -> vote_at vs i v -> hasVote (vsVotes vs) i = false ->
  exists vs', AddVote (Some vs) (Some v) = Done (true, None, vs') /\ verified_result vs i v true None vs'.
Proof.
  intros I Hat Hno. destruct (vote_at_signbytes _ _ _ Hat) as [bz Hbz].
  destruct (AddVote_spec vs v bz I) as (a & e & vs' & -> & O); [apply Hat|done|].
  assert (forall j, vValidatorIndex v = Z.of_nat j -> j = i) as Hj by (intros j; destruct Hat as (_ & -> & _); lia).
  assert (forall w, ~ known vs (blockKey (vBlockID v)) i w) as Hk.
  { intros w [[Hw _]|(bv & Hb & Hw)].
    - rewrite (proj2 (hasVote_true _ _)) in Hno by eauto. done.
    - rewrite (bi_canonical _ _ _ (in_blocks _ _ _ I _ _ Hb) i w Hw) in Hno. done. }
  destruct O as [e [Hr|(_ & j & w & E & Hw & _)]|j w E Hw _|j vs' Hat' R|j c a ev vs' Hat' Hc _ R _].
  - by destruct (Hr i).
  - apply Hj in E as ->. by destruct (Hk w).
  - apply Hj in E as ->. by destruct (Hk w).
  - exists vs'. assert (j = i) as -> by (apply Hj, Hat'). done.
  - assert (j = i) as -> by (apply Hj, Hat'). pose proof (vr_conflict _ _ _ _ _ _ R) as Hcon.
    rewrite (proj2 (hasVote_true _ _)) in Hno by eauto. done.
Qed.

(** [vs] holds exactly the first [n] votes of [exp]. *)
Definition holds (exp : list (option Vote)) (n : nat) (vs : VoteSet) : Prop :=
  (forall j, hasVote (vsVotes vs) j = true -> (j < n)%nat) /\
  (forall k j w, tracked vs k j w <-> (j < n)%nat /\ exp !! j = Some (Some w) /\ k = blockKey (vBlockID w)).

Lemma holds_skip exp n vs :
  exp !! n = Some None -> holds exp n vs -> holds exp (S n) vs.
Proof.
  intros Hn [H1 H2]. split; [intros j Hj; specialize (H1 j Hj); lia|]. intros k j w. rewrite H2.
  split; [intros (? & ? & ?); split_and!; [lia|done..]|].
  intros (Hj & He & ?). split_and!; [|done..]. destruct (decide (j = n)) as [->|]; [congruence|lia].
Qed.

Lemma holds_add exp n vs v vs' :
  exp !! n = Some (Some v) -> holds exp n vs -> verified_result vs n v true None vs' ->
  holds exp (S n) vs'.
Proof.
  intros Hn [H1 H2] R. split.
  - intros j. rewrite (vr_has _ _ _ _ _ _ R), orb_true_iff, bool_decide_eq_true.
    intros [Hj| ->]; [specialize (H1 j Hj)|]; lia.
  - intros k j w. rewrite (vr_tracked _ _ _ _ _ _ R), H2. split.
    + intros [(? & ? & ?)|(_ & -> & -> & ->)]; split_and!; try done; lia.
    + intros (Hj & He & ->). destruct (decide (j = n)) as [->|].
      * rewrite Hn in He. injection He as <-. by right.
      * left. split_and!; [lia|done..].
Qed.

(** The commit [c] lists the votes [exp] of the step of [vs]. *)
Definition lists (c : Commit) (vs : VoteSet) (exp : list (option Vote)) : Prop :=
  length exp = length (cSignatures c) /\
  forall i cs, cSignatures c !! i = Some cs ->
    if CommitSig_Absent cs then exp !! i = Some None
    else exists v, Commit_GetVote c (wrap32 (Z.of_nat i)) = Done v /\ exp !! i = Some (Some v) /\ vote_at vs i v.

Lemma rebuild_loop c vs0 exp sigs n vs :
  lists c vs0 exp -> sigs = drop n (cSignatures c) ->
  VoteSetInv vs -> same_frame vs0 vs -> holds exp n vs ->
  exists vs', foldM (fun voteSet (ics : nat * CommitSig) =>
           if CommitSig_Absent (snd ics) then Done voteSet
           else
             let! vote := Commit_GetVote c (wrap32 (Z.of_nat (fst ics))) in
             let! (r, voteSet) := AddVote (Some voteSet) (Some vote) in
             match r with
             | (true, None) => Done voteSet
             | _ => Panic "Failed to reconstruct LastCommit"
             end) vs (zip (seq n (length sigs)) sigs) = Done vs' /\
    VoteSetInv vs' /\ same_frame vs0 vs' /\ holds exp (n + length sigs) vs'.
Proof.
  intros [Hlen L]. revert n vs. induction sigs as [|cs sigs IH]; intros n vs Hs I F Hh.
  - exists vs. simpl. rewrite Nat.add_0_r. done.
  - assert (cSignatures c !! n = Some cs) as Hcs.
    { rewrite <- (Nat.add_0_r n), <- lookup_drop, <- Hs. done. }
    assert (sigs = drop (S n) (cSignatures c)) as Hs'.
    { rewrite <- Nat.add_1_r, <- drop_drop, <- Hs. done. }
    cbn [length seq zip zip_with foldM snd fst]. rewrite Nat.add_succ_r, <- Nat.add_succ_l.
    specialize (L n cs Hcs). destruct (CommitSig_Absent cs).
    + rewrite bind_Done. apply IH; [done..|]. by apply holds_skip.
    + destruct L as (v & -> & He & Hat). rewrite bind_Done.
      destruct (AddVote_fresh vs n v I) as (vs' & -> & R).
      * by apply (vote_at_frame vs0).
      * destruct (hasVote (vsVotes vs) n) eqn:Eh; [|done]. apply Hh in Eh. lia.
      * rewrite !bind_Done. apply IH; [done|apply R| |by eapply holds_add].
        eapply same_frame_trans; [exact F|apply R].
Qed.

Lemma CommitToVoteSet_lists chainID c vals exp vs0 :
  valset_usable vals -> NewVoteSet chainID (cHeight c) (cRound c) PrecommitType vals = Done vs0 ->
  lists c vs0 exp ->
  exists vs', CommitToVoteSet chainID c vals = Done vs' /\ VoteSetInv vs' /\ same_frame vs0 vs' /\
    holds exp (length (cSignatures c)) vs'.
Proof.
  intros U E L. unfold CommitToVoteSet. rewrite E, bind_Done.
  destruct (NewVoteSet_inv _ _ _ _ _ _ U E) as [I _].
  assert (vsVotesByBlock vs0 = ∅ /\ forall j, hasVote (vsVotes vs0) j = false) as [Eb Hno].
  { unfold NewVoteSet in E. destruct (_ =? 0); [done|]. injection E as <-. split; [done|].
    intros j. simpl. unfold hasVote. destruct (replicate _ _ !! j) as [[w|]|] eqn:Ej; [|done..].
    by apply lookup_replicate in Ej as [? _]. }
  apply (rebuild_loop c vs0 exp (cSignatures c) 0 vs0 L); [done|done|apply same_frame_refl|].
  split; [intros j; by rewrite Hno|]. intros k j w. split; [|lia].
  intros (bv & Hb & _). by rewrite Eb in Hb.
Qed.

(** The votes that the entries of a made commit stand for. *)
Definition keptVotes (m : BlockID) (votes : list (option Vote)) : list (option Vote) :=
  (fun o => if CommitSig_Absent (commitSigOf m o) then None else o) <$> votes.

Lemma madeCommit_lists vs m vs0 :
  VoteSetInv vs -> vsType vs = PrecommitType -> same_frame vs vs0 ->
  lists (madeCommit vs m) vs0 (keptVotes m (vsVotes vs)).
Proof.
  intros I Ht F. split; [simpl; unfold keptVotes; by rewrite !length_fmap|]. intros i cs Hcs.
  unfold keptVotes. rewrite list_lookup_fmap. cbn [madeCommit NewCommit cSignatures] in Hcs.
  rewrite list_lookup_fmap in Hcs.
  destruct (vsVotes vs !! i) as [o|] eqn:Hi; [|done]. injection Hcs as <-. cbn [fmap option_fmap option_map].
  destruct (CommitSig_Absent (commitSigOf m o)) eqn:Ea; [done|].
  destruct o as [v|]; [|done]. exists v.
  destruct (madeCommit_GetVote vs m i v I Ht Hi Ea) as [-> ->]. split_and!; [done..|].
  apply (vote_at_frame vs); [done|]. by apply (vi_votes _ _ _ _ (in_votes _ _ _ I)).
Qed.

Lemma votedPower_mono vals a b :
  (forall v, v ∈ vals -> 0 <= VotingPower v) -> length a = length b ->
  (forall i, hasVote a i = true -> hasVote b i = true) -> votedPower vals a <= votedPower vals b.
Proof.
  intros Hp. revert a b. induction vals as [|v vals IH]; intros [|o a] [|o' b] Hl Hab; try done.
  rewrite !votedPower_cons.
  specialize (IH ltac:(set_solver) a b ltac:(by injection Hl) (fun i => Hab (S i))).
  pose proof (Hp v ltac:(set_solver)). pose proof (Hab 0%nat) as Hab0. unfold hasVote in Hab0. simpl in Hab0.
  destruct o, o'; lia || by specialize (Hab0 eq_refl).
Qed.

Lemma votedPower_disjoint vals a b :
  (forall v, v ∈ vals -> 0 <= VotingPower v) -> length a = length b ->
  (forall i, hasVote a i = true -> hasVote b i = true -> False) ->
  votedPower vals a + votedPower vals b <= sumZ VotingPower vals.
Proof.
  intros Hp. revert a b. induction vals as [|v vals IH]; intros [|o a] [|o' b] Hl Hab; try done.
  - unfold votedPower. simpl. rewrite sumZ_nil. apply sumZ_nonneg. set_solver.
  - rewrite !votedPower_cons, sumZ_cons.
    specialize (IH ltac:(set_solver) a b ltac:(by injection Hl) (fun i => Hab (S i))).
    pose proof (Hp v ltac:(set_solver)). pose proof (Hab 0%nat) as Hab0. unfold hasVote in Hab0. simpl in Hab0.
    destruct o, o'; lia || by destruct Hab0.
Qed.

Lemma votedPower_pos vals votes : 0 < votedPower vals votes -> exists i, hasVote votes i = true.
Proof.
  revert votes. induction vals as [|v vals IH]; intros [|o votes] Hp; try done.
  rewrite votedPower_cons in Hp. destruct o as [w|]; [by exists 0%nat|].
  destruct (IH votes ltac:(lia)) as [i Hi]. by exists (S i).
Qed.

(** A set that tracks all the votes of a majority, one vote per validator,
    has that majority. *)
Lemma rebuilt_majority vs m vs' n exp :
  VoteSetInv vs -> vsMaj23 vs = Some m -> VoteSetInv vs' -> same_frame vs vs' -> holds exp n vs' ->
  (forall i w, vsVotes vs !! i = Some (Some w) -> vBlockID w = m -> exists w', tracked vs' (blockKey m) i w') ->
  vsMaj23 vs' = Some m.
Proof.
  intros I Hm I' F [_ Hh] Htr. pose proof (in_maj _ _ _ I m Hm) as ([T G] & Z & bv & Hb & Hs & Hall).
  pose proof (bi_votes _ _ _ (in_blocks _ _ _ I _ _ Hb)) as B.
  assert (total vs' = total vs) as Et by (destruct F as (_ & _ & _ & _ & ->); done).
  assert (members vs' = members vs) as Emem by apply F.
  pose proof (wf_powers_ok _ (in_wf _ _ _ I)) as [Hp _].
  assert (forall i, hasVote (bvVotes bv) i = true -> exists w', tracked vs' (blockKey m) i w') as Hhas.
  { intros i [v Hv]%hasVote_true. destruct (Hall i v Hv) as (w & Hw & Ek).
    apply (Htr i w Hw). by apply (canonical_block vs m i w). }
  assert (exists bv', vsVotesByBlock vs' !! blockKey m = Some bv') as [bv' Hb'].
  { destruct (votedPower_pos (members vs) (bvVotes bv)) as [i Hi].
    - rewrite <- (vi_sum _ _ _ _ B). assert (0 <= total vs) by by apply sumZ_nonneg. lia.
    - destruct (Hhas i Hi) as (w' & bv' & Hb' & _). eauto. }
  pose proof (bi_votes _ _ _ (in_blocks _ _ _ I' _ _ Hb')) as B'.
  assert (2 * total vs < 3 * bvSum bv') as Hs'.
  { eapply Z.lt_le_trans; [exact Hs|]. rewrite (vi_sum _ _ _ _ B), (vi_sum _ _ _ _ B'), Emem.
    apply Z.mul_le_mono_nonneg_l; [lia|]. apply votedPower_mono; [done| |].
    - by rewrite (vi_len _ _ _ _ B), (vi_len _ _ _ _ B'), Emem.
    - intros i Hi. destruct (Hhas i Hi) as (w' & bv0 & Hb0 & Hw). rewrite Hb' in Hb0. injection Hb0 as <-.
      apply hasVote_true. eauto. }
  destruct (vsMaj23 vs') as [m'|] eqn:Em'.
  2:{ destruct (in_nomaj _ _ _ I' Em' _ _ Hb') as [?|[]]. lia. }
  destruct (in_maj _ _ _ I' m' Em') as ([T' G'] & Z' & bv2 & Hb2 & Hs2 & _). f_equal.
  apply blockKey_inj; [done..|]. destruct (decide (blockKey m' = blockKey m)) as [|Hne]; [done|exfalso].
  pose proof (bi_votes _ _ _ (in_blocks _ _ _ I' _ _ Hb2)) as B2.
  pose proof (votedPower_disjoint (members vs) (bvVotes bv') (bvVotes bv2) Hp) as Hdis.
  rewrite (vi_sum _ _ _ _ B'), Emem in Hs'. rewrite (vi_sum _ _ _ _ B2), Emem in Hs2.
  assert (0 <= total vs) by by apply sumZ_nonneg.
  enough (votedPower (members vs) (bvVotes bv') + votedPower (members vs) (bvVotes bv2) <= total vs) by lia.
  apply Hdis; [by rewrite (vi_len _ _ _ _ B'), (vi_len _ _ _ _ B2)|].
  intros i [w Hw]%hasVote_true [w2 Hw2]%hasVote_true.
  destruct (proj1 (Hh (blockKey m) i w) ltac:(by exists bv')) as (_ & E1 & K1).
  destruct (proj1 (Hh (blockKey m') i w2) ltac:(by exists bv2)) as (_ & E2 & K2). congruence.
Qed.

Lemma CommitToVoteSet_MakeCommit vs m :
  VoteSetInv vs -> vsType vs = PrecommitType -> vsHeight vs <> 0 -> vsMaj23 vs = Some m ->
  BlockID_IsComplete m = true ->
  exists vs', CommitToVoteSet (vsChainID vs) (madeCommit vs m) (vsValSet vs) = Done vs' /\
    VoteSetInv vs' /\ same_frame vs vs' /\ vsMaj23 vs' = Some m.
Proof.
  intros I Ht Hh Hm Hc.
  assert (valset_usable (vsValSet vs)) as U by (destruct I; by split).
  destruct (NewVoteSet (vsChainID vs) (vsHeight vs) (vsRound vs) PrecommitType (vsValSet vs))
    as [vs0|] eqn:E0; [|unfold NewVoteSet in E0; by rewrite (proj2 (Z.eqb_neq _ _) Hh) in E0].
  assert (same_frame vs vs0) as F0.
  { unfold NewVoteSet in E0. rewrite (proj2 (Z.eqb_neq _ _) Hh) in E0. by injection E0 as <-. }
  destruct (CommitToVoteSet_lists _ (madeCommit vs m) _ _ vs0 U E0 (madeCommit_lists vs m vs0 I Ht F0))
    as (vs' & E & I' & F & Hholds).
  exists vs'. assert (same_frame vs vs') as F' by by eapply same_frame_trans.
  split_and!; [done..|]. eapply (rebuilt_majority vs m vs'); try done.
  intros i w Hi <-. exists w. apply Hholds. simpl. rewrite length_fmap.
  split_and!; [by eapply lookup_lt_Some| |done].
  unfold keptVotes. rewrite list_lookup_fmap, Hi. simpl.
  by rewrite Hc, (proj2 (BlockID_Equals_eq _ _) eq_refl).
Qed.

(** ** Reachable vote sets *)

Definition reachable (chainID : bytes) (height round ty : Z) (vals : ValidatorSet) (vs : VoteSet) : Prop :=
  valset_usable vals /\
  exists vs0, NewVoteSet chainID height round ty vals = Done vs0 /\ rtc vs_step vs0 vs.

Lemma reachable_inv chainID height round ty vals vs :
  reachable chainID height round ty vals vs ->
  VoteSetInv vs /\ height <> 0 /\ vsChainID vs = chainID /\ vsHeight vs = height /\
  vsRound vs = round /\ vsType vs = ty /\ members vs = Validators vals.
Proof.
  intros (U & vs0 & E & St). destruct (NewVoteSet_inv _ _ _ _ _ _ U E) as [I _].
  destruct (steps_inv _ _ I St) as (I' & (F1 & F2 & F3 & F4 & F5) & _).
  unfold NewVoteSet in E. destruct (Z.eqb_spec height 0); [done|]. injection E as <-.
  by split_and!.
Qed.

Lemma TwoThirdsMajority_maj vs m : TwoThirdsMajority (Some vs) = (m, true) <-> vsMaj23 vs = Some m.
Proof. simpl. destruct (vsMaj23 vs); naive_solver. Qed.

End steps.

(** ** Claims *)

(** [C9] In every vote set that calls of [AddVote] and [SetPeerMaj23]
    can produce, [AddVote] of a vote that passed its basic validation never
    panics, and it either refuses a vote that is not a verified vote of a
    member for this step or contradicts a known signature, or recognises a
    duplicate, or adds the vote, or reports the conflicting verified vote of
    the same validator; the bit arrays and sums stay those of the stored
    votes. *)
Theorem AddVote_correct `{Crypto} {ST : StdTime} chainID height round ty vals vs vote bz :
  reachable chainID height round ty vals vs ->
  vote_good vote -> VoteSignBytes chainID (Vote_ToProto vote) = Done bz ->
  VoteSetInv vs /\
  exists added err vs', AddVote (Some vs) (Some vote) = Done (added, err, vs') /\
    add_outcome vs vote added err vs'.
Proof.
  intros R G Hb. destruct (reachable_inv _ _ _ _ _ _ R) as (I & _ & Ec & _). split; [done|].
  apply (AddVote_spec vs vote bz); [done..|]. by rewrite Ec.
Qed.

(** [C27] The majority of a reachable vote set: distinct members with
    more than two thirds of the power have verified votes for the block; it
    never changes once it is set; and while there is none, no block has
    votes of more than two thirds. *)
Theorem TwoThirdsMajority_correct `{Crypto} {ST : StdTime} chainID height round ty vals vs :
  reachable chainID height round ty vals vs ->
  (forall m, TwoThirdsMajority (Some vs) = (m, true) ->
     (exists signers, NoDup signers /\
        (forall v, v ∈ signers -> v ∈ Validators vals /\ votedFor vs m v) /\
        2 * sumZ VotingPower (Validators vals) < 3 * sumZ VotingPower signers) /\
     (forall vs', rtc vs_step vs vs' -> TwoThirdsMajority (Some vs') = (m, true))) /\
  (HasTwoThirdsMajority (Some vs) = false ->
     forall k bv, vsVotesByBlock vs !! k = Some bv ->
       3 * votedPower (Validators vals) (bvVotes bv) <= 2 * sumZ VotingPower (Validators vals)).
Proof.
  intros R. destruct (reachable_inv _ _ _ _ _ _ R) as (I & _ & _ & _ & _ & _ & Em). split.
  - intros m Hm%TwoThirdsMajority_maj. rewrite <- Em. split; [by apply majority_signers|].
    intros vs' St. apply TwoThirdsMajority_maj. by apply (steps_inv vs vs').
  - intros Hn%bool_decide_eq_false k bv Hk. rewrite <- Em.
    rewrite <- (vi_sum _ _ _ _ (bi_votes _ _ _ (in_blocks _ _ _ I k bv Hk))).
    destruct (in_nomaj _ _ _ I) with k bv as [?|[]]; [|done|done].
    destruct (vsMaj23 vs); [by destruct Hn|done].
Qed.

(** Two majorities seen over the same validators, by different
    nodes or in different rounds, have in common distinct validators with more
    than a third of the power, each with a verified vote for either block. *)
Theorem majorities_overlap `{Crypto} {ST : StdTime} chainID height r1 r2 ty vals vs1 vs2 m1 m2 :
  reachable chainID height r1 ty vals vs1 -> reachable chainID height r2 ty vals vs2 ->
  TwoThirdsMajority (Some vs1) = (m1, true) -> TwoThirdsMajority (Some vs2) = (m2, true) ->
  exists both, NoDup both /\ (forall v, v ∈ both -> votedFor vs1 m1 v /\ votedFor vs2 m2 v) /\
    sumZ VotingPower (Validators vals) < 3 * sumZ VotingPower both.
Proof.
  intros R1 R2 M1%TwoThirdsMajority_maj M2%TwoThirdsMajority_maj.
  destruct (reachable_inv _ _ _ _ _ _ R1) as (I1 & _ & _ & _ & _ & _ & E1).
  destruct (reachable_inv _ _ _ _ _ _ R2) as (I2 & _ & _ & _ & _ & _ & E2).
  destruct (majority_signers vs1 m1 I1 M1) as (l1 & N1 & S1 & P1).
  destruct (majority_signers vs2 m2 I2 M2) as (l2 & N2 & S2 & P2). rewrite E1 in S1, P1. rewrite E2 in S2, P2.
  exists (filter (fun v => v ∈ l2) l1). split_and!; [by apply NoDup_filter| |].
  - intros v [Hv2 Hv1]%list_elem_of_filter. split; [by apply S1|by apply S2].
  - destruct R1 as [[W _ _] _].
    pose proof (quorum_overlap vals l1 l2 W N1 N2 ltac:(naive_solver) ltac:(naive_solver)). lia.
Qed.

(** [C6] The commit made from the precommits that decided a block
    passes [VerifyCommit] for that block and height, and [CommitToVoteSet]
    rebuilds from it a vote set with the same majority. *)
Theorem MakeCommit_correct `{Crypto} {ST : StdTime} chainID height round vals vs m :
  reachable chainID height round PrecommitType vals vs ->
  TwoThirdsMajority (Some vs) = (m, true) -> BlockID_IsComplete m = true ->
  exists commit, MakeCommit vs = Done commit /\
    (exists vals', VerifyCommit chainID m height commit (vsValSet vs) = Done (None, vals')) /\
    (exists vs', CommitToVoteSet chainID commit (vsValSet vs) = Done vs' /\
       VoteSetInv vs' /\ TwoThirdsMajority (Some vs') = (m, true)).
Proof.
  intros R M%TwoThirdsMajority_maj Hc.
  destruct (reachable_inv _ _ _ _ _ _ R) as (I & Hh & Ec & Eh & Er & Et & _).
  exists (madeCommit vs m). split; [by apply MakeCommit_Done|]. rewrite <- Ec, <- Eh. split.
  - eexists. by apply MakeCommit_verifies.
  - destruct (CommitToVoteSet_MakeCommit vs m I Et ltac:(congruence) M Hc) as (vs' & ? & ? & _ & ?).
    exists vs'. split_and!; [done..|]. by apply TwoThirdsMajority_maj.
Qed.

(** ** A concrete instance *)

Definition afterVote `{Crypto} {ST : StdTime} (vs : VoteSet) (vote : Vote) : VoteSet :=
  match AddVote (Some vs) (Some vote) with Done (_, _, vs') => vs' | Panic _ => vs end.

Definition newExample (round : Z) : VoteSet :=
  match NewVoteSet exampleChain 5 round PrecommitType exampleSet with
  | Done vs => vs
  | Panic _ => mkVoteSet [] 0 0 0 exampleSet None [] 0 None ∅ ∅
  end.

Definition exampleVotes (round : Z) : VoteSet :=
  let add := afterVote (H := exampleCrypto) (ST := exampleStdTime) in
  add (add (newExample round) (examplePrecommit round 0 (exampleValidator 1 10 3)))
      (examplePrecommit round 1 (exampleValidator 2 5 (-3))).

Lemma afterVote_step `{Crypto} {ST : StdTime} vs vote :
  vote_good vote ->
  match AddVote (Some vs) (Some vote), VoteSignBytes (vsChainID vs) (Vote_ToProto vote) with
  | Done _, Done _ => true | _, _ => false
  end = true -> vs_step vs (afterVote vs vote).
Proof.
  intros G E. unfold afterVote. destruct (AddVote _ _) as [[[a e] vs']|] eqn:Ea; [|done].
  destruct (VoteSignBytes _ _) as [bz|] eqn:Eb; [|done]. by eapply step_add.
Qed.

Lemma exampleSet_usable : valset_usable exampleSet.
Proof. split; [apply exampleSet_wf|each_element|done]. Qed.

Lemma exampleVotes_reachable round :
  round = 0 \/ round = 1 ->
  reachable (H := exampleCrypto) (ST := exampleStdTime) exampleChain 5 round PrecommitType exampleSet
    (exampleVotes round).
Proof.
  intros Hr. split; [apply exampleSet_usable|]. exists (newExample round). split; [done|].
  destruct Hr as [-> | ->].
  - do 2 (eapply rtc_r; [|apply afterVote_step; [by repeat split; vm_compute|by vm_compute]]). done.
  - do 2 (eapply rtc_r; [|apply afterVote_step; [by repeat split; vm_compute|by vm_compute]]). done.
Qed.

Lemma AddVote_correct_witness :
  VoteSetInv (H := exampleCrypto) (ST := exampleStdTime) (exampleVotes 0) /\
  exists added err vs', AddVote (H := exampleCrypto) (ST := exampleStdTime)
      (Some (exampleVotes 0)) (Some (examplePrecommit 0 0 (exampleValidator 1 10 3)))
    = Done (added, err, vs').
Proof.
  destruct (VoteSignBytes (ST := exampleStdTime) exampleChain
    (Vote_ToProto (examplePrecommit 0 0 (exampleValidator 1 10 3)))) as [bz|] eqn:E;
    [|by vm_compute in E].
  destruct (AddVote_correct (H := exampleCrypto) (ST := exampleStdTime) exampleChain 5 0 PrecommitType
    exampleSet (exampleVotes 0) (examplePrecommit 0 0 (exampleValidator 1 10 3)) bz
    (exampleVotes_reachable 0 (or_introl eq_refl)) ltac:(by repeat split; vm_compute) E)
    as [I (a & e & vs' & Ha & _)].
  split; [exact I|]. exists a, e, vs'. exact Ha.
Defined.

Lemma exampleVotes_majority round :
  round = 0 \/ round = 1 -> TwoThirdsMajority (Some (exampleVotes round)) = (exampleBlockID, true).
Proof. intros [-> | ->]; by vm_compute. Qed.

Lemma TwoThirdsMajority_correct_witness :
  exists signers, NoDup signers /\
    (forall v, v ∈ signers -> v ∈ Validators exampleSet /\
       votedFor (H := exampleCrypto) (ST := exampleStdTime) (exampleVotes 0) exampleBlockID v) /\
    2 * sumZ VotingPower (Validators exampleSet) < 3 * sumZ VotingPower signers.
Proof.
  apply (TwoThirdsMajority_correct (H := exampleCrypto) (ST := exampleStdTime) exampleChain 5 0
    PrecommitType exampleSet (exampleVotes 0)).
  - apply exampleVotes_reachable. by left.
  - apply exampleVotes_majority. by left.
Defined.

Lemma majorities_overlap_witness :
  exists both, NoDup both /\
    (forall v, v ∈ both -> votedFor (H := exampleCrypto) (ST := exampleStdTime) (exampleVotes 0) exampleBlockID v /\
       votedFor (H := exampleCrypto) (ST := exampleStdTime) (exampleVotes 1) exampleBlockID v) /\
    sumZ VotingPower (Validators exampleSet) < 3 * sumZ VotingPower both.
Proof.
  exact (majorities_overlap (H := exampleCrypto) (ST := exampleStdTime) exampleChain 5 0 1 PrecommitType
    exampleSet (exampleVotes 0) (exampleVotes 1) exampleBlockID exampleBlockID
    (exampleVotes_reachable 0 (or_introl eq_refl)) (exampleVotes_reachable 1 (or_intror eq_refl))
    (exampleVotes_majority 0 (or_introl eq_refl)) (exampleVotes_majority 1 (or_intror eq_refl))).
Defined.

Lemma MakeCommit_correct_witness :
  exists commit, MakeCommit (exampleVotes 0) = Done commit /\
    exists vals', VerifyCommit (H := exampleCrypto) (ST := exampleStdTime) exampleChain exampleBlockID 5
      commit (vsValSet (exampleVotes 0)) = Done (None, vals').
Proof.
  destruct (MakeCommit_correct (H := exampleCrypto) (ST := exampleStdTime) exampleChain 5 0 exampleSet
    (exampleVotes 0) exampleBlockID (exampleVotes_reachable 0 (or_introl eq_refl))
    (exampleVotes_majority 0 (or_introl eq_refl)) ltac:(by vm_compute)) as (c & Hc & Hv & _).
  exists c. split; [exact Hc|exact Hv].
Defined.
