(* ===== verification/LockChange.v ===== *)
(** * Proofs of lock change

    [ProofOfLockChange] of types/evidence.go: the prevotes that justify that a
    validator has changed the block it was locked on.  A proof made from a vote
    set with a majority is accepted by [ValidateVotes]. *)

From Stdlib Require Import ZArith Lia.
From S2P Require Import Prelude Proto BitArray Validator ValidatorSet ValidatorSetUpdate BlockTypes.
From S2P Require Import SignBytes CommitVerify VoteSet VoteSetInv VoteSetClaims.
From stdpp Require Import base gmap list option strings numbers sorting relations.

Local Open Scope Z_scope.

(** The votes are [nil] or a slice of pointers, the key may be missing. *)
Record ProofOfLockChange := mkPOLC {
  pcVotes : option (list (option Vote));
  pcPubKey : option PubKey
}.

Definition NewPOLC (votes : option (list (option Vote))) (pubKey : option PubKey) : ProofOfLockChange :=
  mkPOLC votes pubKey.
Definition NewEmptyPOLC : ProofOfLockChange := mkPOLC None None.

Definition POLC_IsAbsent (e : ProofOfLockChange) : bool :=
  match pcVotes e, pcPubKey e with None, None => true | _, _ => false end.

(** The slice of the votes, and the first of them *)
Definition polcVotes (e : ProofOfLockChange) : list (option Vote) := default [] (pcVotes e).
Definition derefVote (o : option Vote) : outcome Vote :=
  match o with
  | None => Panic "invalid memory address or nil pointer dereference"
  | Some v => Done v
  end.
Definition firstVote (e : ProofOfLockChange) : outcome Vote :=
  let! o := index (polcVotes e) 0 in derefVote o.

Definition POLC_Height (e : ProofOfLockChange) : outcome Z := let! v := firstVote e in Done (vHeight v).
Definition POLC_Round (e : ProofOfLockChange) : outcome Z := let! v := firstVote e in Done (vRound v).
Definition POLC_BlockID (e : ProofOfLockChange) : outcome BlockID := let! v := firstVote e in Done (vBlockID v).

(** The time of the latest vote *)
Definition POLC_Time (e : ProofOfLockChange) : outcome Time :=
  let! first := firstVote e in
  foldM (fun latest o => let! v := derefVote o in
           Done (if latest <? vTimestamp v then vTimestamp v else latest)) (vTimestamp first) (polcVotes e).

Section polc.
Context `{Crypto} {ST : StdTime}.

Definition POLC_Address (e : ProofOfLockChange) : outcome bytes :=
  match pcPubKey e with
  | None => Panic "invalid memory address or nil pointer dereference"
  | Some pk => Done (pkAddress pk)
  end.

Definition POLC_Equal (e e2 : ProofOfLockChange) : outcome bool :=
  let! a := POLC_Address e in
  let! a2 := POLC_Address e2 in
  if negb (bool_decide (a = a2)) then Done false
  else
    let! h := POLC_Height e in
    let! h2 := POLC_Height e2 in
    if negb (h =? h2) then Done false
    else
      let! r := POLC_Round e in
      let! r2 := POLC_Round e2 in
      Done (r =? r2).

(** The inner loop over the later votes *)
Fixpoint laterDuplicate (vote : Vote) (later : list (option Vote)) : outcome bool :=
  match later with
  | [] => Done false
  | o :: later' =>
    let! v := derefVote o in
    if bool_decide (vValidatorAddress vote = vValidatorAddress v) then Done true
    else laterDuplicate vote later'
  end.

(** The loop over the votes *)
Fixpoint validatePolcVotes (height round voteType : Z) (blockID : BlockID) (pk : PubKey)
    (votes : list (option Vote)) : outcome (option error) :=
  match votes with
  | [] => Done None
  | None :: _ => Done (Some "nil vote")
  | Some vote :: votes' =>
    match Vote_ValidateBasic vote with
    | Some err => Done (Some ("invalid vote: " +:+ err))
    | None =>
      if negb (vHeight vote =? height) then Done (Some "invalid height for vote")
      else if negb (vRound vote =? round) then Done (Some "invalid round for vote")
      else if negb (vType vote =? voteType) then Done (Some "invalid vote type for vote")
      else if negb (BlockID_Equals (vBlockID vote) blockID)
      then Done (Some "vote must be for the same block id")
      else if bool_decide (vValidatorAddress vote = pkAddress pk)
      then Done (Some "vote validator address cannot be the same as the public key address")
      else
        let! dup := laterDuplicate vote votes' in
        if (dup : bool) then Done (Some "duplicate votes")
        else validatePolcVotes height round voteType blockID pk votes'
    end
  end.

Definition POLC_ValidateBasic (e : option ProofOfLockChange) : outcome (option error) :=
  match e with
  | None => Done (Some "empty proof of lock change")
  | Some e =>
    if POLC_IsAbsent e then Done None
    else match pcPubKey e with
    | None => Done (Some "missing public key")
    | Some pk =>
      match polcVotes e with
      | [] => Done (Some "missing votes")
      | votes =>
        let! first := firstVote e in
        if vRound first =? 0 then Done (Some "can't have a polc for the first round")
        else validatePolcVotes (vHeight first) (vRound first) (vType first) (vBlockID first) pk votes
      end
    end
  end.

(** The loop over the validators: whether the signer is there, and the power *)
Fixpoint tallyVote (chainID : bytes) (vote : Vote) (vals : list Validator) (exists_ : bool) (tallied : Z)
    : outcome (option error * bool * Z) :=
  match vals with
  | [] => Done (None, exists_, tallied)
  | val :: vals' =>
    if bool_decide (Address val = vValidatorAddress vote) then
      match vPubKey val with
      | None => Panic "invalid memory address or nil pointer dereference"
      | Some pk =>
        let! bz := VoteSignBytes chainID (Vote_ToProto vote) in
        if negb (pkVerifyBytes pk bz (vSignature vote))
        then Done (Some "cannot verify vote against signature", true, tallied)
        else tallyVote chainID vote vals' true (wrap64 (tallied + VotingPower val))
      end
    else tallyVote chainID vote vals' exists_ tallied
  end.

Fixpoint tallyVotes (chainID : bytes) (vals : list Validator) (votes : list (option Vote)) (tallied : Z)
    : outcome (error + Z) :=
  match votes with
  | [] => Done (inr tallied)
  | o :: votes' =>
    let! vote := derefVote o in
    let! (err, exists_, tallied) := tallyVote chainID vote vals false tallied in
    match err with
    | Some err => Done (inl err)
    | None => if negb exists_ then Done (inl "vote was not from a validator in this set")
              else tallyVotes chainID vals votes' tallied
    end
  end.

Definition POLC_ValidateVotes (e : ProofOfLockChange) (valSet : ValidatorSet) (chainID : bytes)
    : outcome (option error) :=
  if POLC_IsAbsent e then Done (Some "polc is empty")
  else
    let! (total, _) := TotalVotingPower valSet in
    let votingPowerNeeded := Z.quot (wrap64 (total * 2)) 3 in
    let! r := tallyVotes chainID (Validators valSet) (polcVotes e) 0 in
    match r with
    | inl err => Done (Some err)
    | inr tallied => Done (if tallied <=? votingPowerNeeded
                           then Some "not enough voting power signed" else None)
    end.

(** The body of the loop over the indices *)
Definition collectVote (vs : VoteSet) (blockID : BlockID) (votes : list (option Vote)) (valIdx : nat)
    : outcome (list (option Vote)) :=
  let! vote := VoteSet_GetByIndex (Some vs) (Z.of_nat valIdx) in
  match vote with
  | Some v => if BlockID_Equals (vBlockID v) blockID then Done (votes ++ [Some v]) else Done votes
  | None => Done votes
  end.

(** The votes of the set for [blockID]; the slice stays [nil] without any. *)
Definition newPOLCFromVoteSet (voteSet : option VoteSet) (pubKey : PubKey) (blockID : BlockID)
    : outcome (option ProofOfLockChange) :=
  match voteSet with
  | None => Done None
  | Some vs =>
    let! votes := foldM (collectVote vs blockID) [] (seq 0 (Z.to_nat (VoteSet_Size voteSet))) in
    Done (Some (NewPOLC (match votes with [] => None | _ => Some votes end) (Some pubKey)))
  end.

Definition NewPOLCFromVoteSet (voteSet : option VoteSet) (pubKey : PubKey) (blockID : BlockID)
    : outcome (option ProofOfLockChange * option error) :=
  let! polc := newPOLCFromVoteSet voteSet pubKey blockID in
  let! err := POLC_ValidateBasic polc in
  Done (polc, err).

(** ** Proofs made from a majority *)

(** The vote of a slot if it is for the block *)
Definition votedBlock (b : BlockID) (o : option Vote) : option Vote :=
  match o with Some v => if BlockID_Equals (vBlockID v) b then Some v else None | None => None end.

Definition votesFor (b : BlockID) (votes : list (option Vote)) : list Vote := omap (votedBlock b) votes.

Lemma votesFor_cons b o votes :
  votesFor b (o :: votes) = match votedBlock b o with Some v => v :: votesFor b votes | None => votesFor b votes end.
Proof. done. Qed.

Lemma votesFor_elem b votes v :
  v ∈ votesFor b votes -> exists i, votes !! i = Some (Some v) /\ vBlockID v = b.
Proof.
  intros (o & [i Ho]%list_elem_of_lookup & Ev)%list_elem_of_omap. exists i. destruct o as [w|]; [|done]. simpl in Ev.
  destruct (BlockID_Equals _ _) eqn:Eb; [|done]. injection Ev as ->. split; [done|]. by apply BlockID_Equals_eq.
Qed.

Lemma collectVote_loop vs b n k acc :
  (k + n <= length (vsVotes vs))%nat ->
  foldM (collectVote vs b) acc (seq k n) = Done (acc ++ (Some <$> votesFor b (take n (drop k (vsVotes vs))))).
Proof.
  revert k acc. induction n as [|n IH]; intros k acc Hl; [by rewrite take_0, app_nil_r|].
  cbn [seq foldM]. destruct (lookup_lt_is_Some_2 (vsVotes vs) k ltac:(lia)) as [o Ho].
  rewrite (drop_S _ _ _ Ho). cbn [take]. rewrite votesFor_cons.
  unfold collectVote at 1. cbn [VoteSet_GetByIndex]. rewrite (index_nat _ _ _ Ho).
  rewrite bind_Done. destruct o as [v|]; cbn [votedBlock]; [|rewrite bind_Done; apply IH; lia].
  destruct (BlockID_Equals _ _); rewrite bind_Done, IH by lia; [|done]. by rewrite <- app_assoc.
Qed.

Lemma tallyVote_absent chainID vote vals e t :
  vValidatorAddress vote ∉ addresses vals -> tallyVote chainID vote vals e t = Done (None, e, t).
Proof.
  induction vals as [|val vals IH]; intros Hn; [done|]. unfold addresses in *. simpl in *.
  rewrite bool_decide_eq_false_2 by set_solver. apply IH. set_solver.
Qed.

Lemma tallyVote_present chainID vote vals val pk e t :
  NoDup (addresses vals) -> val ∈ vals -> vValidatorAddress vote = Address val -> vPubKey val = Some pk ->
  Vote_Verify vote chainID pk = Done None ->
  tallyVote chainID vote vals e t = Done (None, true, wrap64 (t + VotingPower val)).
Proof.
  induction vals as [|val' vals IH]; intros N Hin Ha Hk Hv; [by apply elem_of_nil in Hin|].
  unfold addresses in *. cbn [fmap list_fmap] in N. apply NoDup_cons in N as [Hn N]. simpl.
  apply elem_of_cons in Hin as [->|Hin].
  - rewrite bool_decide_eq_true_2 by done. rewrite Hk. unfold Vote_Verify in Hv.
    destruct (negb (bool_decide _)); [done|]. destruct (VoteSignBytes _ _) as [bz|]; [|done].
    simpl in Hv |- *. destruct (pkVerifyBytes pk bz _); [|done]. cbn [negb].
    apply tallyVote_absent. by rewrite Ha.
  - rewrite bool_decide_eq_false_2; [by apply IH|]. intros E. apply Hn. rewrite E, Ha. by apply list_elem_of_fmap_2.
Qed.

(** The votes of a suffix of the validators, against all validators *)
Lemma tallyVotes_power chainID b all vals votes t :
  NoDup (addresses all) -> vals ⊆ all -> (forall v, v ∈ all -> 0 <= VotingPower v) ->
  (forall i v, votes !! i = Some (Some v) -> exists val pk, vals !! i = Some val /\ vPubKey val = Some pk /\
     vValidatorAddress v = Address val /\ Vote_Verify v chainID pk = Done None) ->
  0 <= t -> t + sumZ VotingPower vals <= MaxInt64 ->
  tallyVotes chainID all (Some <$> votesFor b votes) t = Done (inr (t + votedPower vals (votedBlock b <$> votes))).
Proof.
  intros N. revert vals t. induction votes as [|o votes IH]; intros vals t Hs Hp Hv Ht Hb.
  { simpl. destruct vals; unfold votedPower; simpl; by rewrite sumZ_nil, Z.add_0_r. }
  destruct vals as [|val vals].
  { destruct o as [v|].
    - destruct (Hv 0%nat v eq_refl) as (? & ? & [=] & _).
    - rewrite votesFor_cons. cbn [votedBlock fmap list_fmap]. rewrite (IH []); [done|done|done| |done|done].
      intros i v Hi. destruct (Hv (S i) v Hi) as (? & ? & [=] & _). }
  rewrite sumZ_cons in Hb. pose proof (Hp val ltac:(set_solver)) as Hpv.
  assert (0 <= sumZ VotingPower vals) by (apply sumZ_nonneg; set_solver).
  rewrite votesFor_cons. cbn [fmap list_fmap]. rewrite votedPower_cons.
  destruct (votedBlock b o) as [v|] eqn:Ev.
  - assert (o = Some v) as ->.
    { destruct o as [w|]; [|done]. simpl in Ev. by destruct (BlockID_Equals _ _). }
    destruct (Hv 0%nat v eq_refl) as (val' & pk & [= <-] & Hk & Ha & Hok).
    cbn [fmap list_fmap tallyVotes derefVote]. rewrite bind_Done.
    rewrite (tallyVote_present _ _ _ val pk) by (done || set_solver). rewrite bind_Done. cbn [negb].
    rewrite wrap64_id by (unfold int64, MinInt64; lia). rewrite (IH vals); [by rewrite Z.add_assoc|set_solver|done| |lia|lia].
    intros i w Hi. exact (Hv (S i) w Hi).
  - rewrite (IH vals); [done|set_solver|done| |lia|lia]. intros i w Hi. exact (Hv (S i) w Hi).
Qed.

Lemma votesFor_addresses b vals votes :
  (forall i v, votes !! i = Some (Some v) -> exists val, vals !! i = Some val /\ vValidatorAddress v = Address val) ->
  (vValidatorAddress <$> votesFor b votes) `sublist_of` addresses vals.
Proof.
  revert vals. induction votes as [|o votes IH]; intros vals Hv; [apply sublist_nil_l|].
  rewrite votesFor_cons. destruct vals as [|val vals].
  - assert (votedBlock b o = None) as -> by (destruct o as [v|]; [destruct (Hv 0%nat v eq_refl) as (? & [=] & _)|done]).
    apply (IH []). intros i v Hi. destruct (Hv (S i) v Hi) as (? & [=] & _).
  - assert ((vValidatorAddress <$> votesFor b votes) `sublist_of` addresses vals) as Hs
      by (apply IH; intros i v Hi; exact (Hv (S i) v Hi)).
    destruct (votedBlock b o) as [v|] eqn:Ev; [|by apply sublist_cons].
    assert (o = Some v) as -> by (destruct o as [w|]; [simpl in Ev; by destruct (BlockID_Equals _ _)|done]).
    destruct (Hv 0%nat v eq_refl) as (val' & [= <-] & Ha). unfold addresses. cbn [fmap list_fmap]. rewrite Ha.
    by apply sublist_skip.
Qed.

Lemma laterDuplicate_none vote votes :
  vValidatorAddress vote ∉ vValidatorAddress <$> votes -> laterDuplicate vote (Some <$> votes) = Done false.
Proof.
  induction votes as [|v votes IH]; intros Hn; [done|]. cbn [fmap list_fmap] in *. simpl.
  rewrite bool_decide_eq_false_2 by set_solver. apply IH. set_solver.
Qed.

Lemma validatePolcVotes_spec height round ty b pk votes :
  (forall v, v ∈ votes -> Vote_ValidateBasic v = None /\ vHeight v = height /\ vRound v = round /\ vType v = ty /\
     vBlockID v = b) ->
  NoDup (vValidatorAddress <$> votes) ->
  exists e, validatePolcVotes height round ty b pk (Some <$> votes) = Done e /\
    (e = None <-> pkAddress pk ∉ vValidatorAddress <$> votes).
Proof.
  induction votes as [|v votes IH]; intros Hv N.
  { exists None. split; [done|]. simpl. set_solver. }
  cbn [fmap list_fmap] in *. apply NoDup_cons in N as [Hn N].
  destruct (Hv v ltac:(set_solver)) as (B & E1 & E2 & E3 & E4).
  cbn [validatePolcVotes]. rewrite B, E1, E2, E3, !Z.eqb_refl, (proj2 (BlockID_Equals_eq _ _) E4). cbn [negb].
  case_bool_decide as Ep.
  { eexists. split; [done|]. split; [done|]. set_solver. }
  rewrite laterDuplicate_none by done. rewrite bind_Done.
  destruct (IH ltac:(set_solver) N) as (e & -> & He). exists e. split; [done|]. rewrite He. set_solver.
Qed.

(** A vote set with a majority for [b] *)
Section majority.
Variables (vs : VoteSet) (b : BlockID).
Hypothesis vs_inv : VoteSetInv vs.
Hypothesis vs_maj : vsMaj23 vs = Some b.

Notation members := (Validators (vsValSet vs)).
Notation votes := (votesFor b (vsVotes vs)).
Notation power := (votedPower members (votedBlock b <$> vsVotes vs)).

Lemma slot_validator i v : vsVotes vs !! i = Some (Some v) ->
  exists val pk, members !! i = Some val /\ vPubKey val = Some pk /\
     vValidatorAddress v = Address val /\ Vote_Verify v (vsChainID vs) pk = Done None.
Proof.
  intros Hi. destruct (vi_votes _ _ _ _ (in_votes _ _ _ vs_inv) i v Hi) as (_ & _ & _ & _ & _ & val & pk & ? & ? & ? & ?).
  by exists val, pk.
Qed.

Lemma members_nonneg v : v ∈ members -> 0 <= VotingPower v.
Proof. intros Hv. pose proof (vs_power _ (in_wf _ _ _ vs_inv) v Hv). lia. Qed.

Lemma members_total : 0 <= sumZ VotingPower members <= MaxTotalVotingPower.
Proof. split; [apply sumZ_nonneg, members_nonneg|apply (vs_total _ (in_wf _ _ _ vs_inv))]. Qed.

(** The canonical votes for the block have the power of the majority. *)
Lemma votesFor_power : 2 * sumZ VotingPower members < 3 * power.
Proof.
  pose proof (in_maj _ _ _ vs_inv b vs_maj) as (_ & _ & bv & Hb & Hs & Hall).
  destruct (in_blocks _ _ _ vs_inv _ _ Hb) as [B1 _ _]. pose proof (vi_len _ _ _ _ (in_votes _ _ _ vs_inv)) as V1.
  enough (bvSum bv <= power) by lia.
  rewrite (vi_sum _ _ _ _ B1). apply votedPower_mono;
    [apply members_nonneg|by rewrite length_fmap, (vi_len _ _ _ _ B1), V1|].
  intros i Hi. unfold hasVote in *. rewrite list_lookup_fmap. destruct (bvVotes bv !! i) as [[w|]|] eqn:Ew; try done.
  destruct (Hall i w Ew) as (w' & Hw' & Ek). rewrite Hw'. simpl.
  by rewrite (proj2 (BlockID_Equals_eq _ _) (canonical_block vs b i w' vs_inv vs_maj Hw' Ek)).
Qed.

Lemma votesFor_tally : tallyVotes (vsChainID vs) members (Some <$> votes) 0 = Done (inr power).
Proof.
  pose proof members_total. pose proof MaxTotalVotingPower_bound.
  rewrite (tallyVotes_power _ b members members); [by rewrite Z.add_0_l| |done|apply members_nonneg|apply slot_validator|lia|lia].
  apply (vs_nodup _ (in_wf _ _ _ vs_inv)).
Qed.

Lemma votesFor_nonempty : votes <> [].
Proof.
  intros E. pose proof votesFor_tally as Et. rewrite E in Et. injection Et as Et.
  pose proof votesFor_power. pose proof members_total. lia.
Qed.

Lemma votesFor_all v : v ∈ votes ->
  Vote_ValidateBasic v = None /\ vHeight v = vsHeight vs /\ vRound v = vsRound vs /\ vType v = vsType vs /\ vBlockID v = b.
Proof.
  intros (i & Hi & Eb)%votesFor_elem.
  by destruct (vi_votes _ _ _ _ (in_votes _ _ _ vs_inv) i v Hi) as ([_ ?] & _ & ? & ? & ? & _).
Qed.

Lemma votesFor_NoDup : NoDup (vValidatorAddress <$> votes).
Proof.
  eapply sublist_NoDup; [apply (vs_nodup _ (in_wf _ _ _ vs_inv))|]. apply votesFor_addresses. intros i v Hi.
  destruct (slot_validator i v Hi) as (val & pk & ? & ? & ? & _). eauto.
Qed.

Lemma newPOLC_Done pk :
  newPOLCFromVoteSet (Some vs) pk b = Done (Some (mkPOLC (Some (Some <$> votes)) (Some pk))).
Proof.
  pose proof (vi_len _ _ _ _ (in_votes _ _ _ vs_inv)) as V1. unfold newPOLCFromVoteSet. cbn [VoteSet_Size].
  unfold ValidatorSet_Size. rewrite Nat2Z.id, <- V1, collectVote_loop by lia. rewrite drop_0, firstn_all, bind_Done.
  pose proof votesFor_nonempty. by destruct votes.
Qed.

Lemma POLC_votes_valid pk :
  POLC_ValidateVotes (mkPOLC (Some (Some <$> votes)) (Some pk)) (vsValSet vs) (vsChainID vs) = Done None.
Proof.
  pose proof members_total as Ht. pose proof MaxTotalVotingPower_bound as Hmax. pose proof votesFor_power as Hp.
  unfold POLC_ValidateVotes. cbn [POLC_IsAbsent pcVotes pcPubKey].
  rewrite TotalVotingPower_spec by (apply (wf_powers_ok _ (in_wf _ _ _ vs_inv)) || apply (vs_cache _ (in_wf _ _ _ vs_inv))).
  rewrite bind_Done. unfold polcVotes. cbn [pcVotes from_option]. unfold id. rewrite votesFor_tally, bind_Done.
  rewrite wrap64_id by (unfold int64, MinInt64; lia).
  destruct (Z.leb_spec power (Z.quot (sumZ VotingPower members * 2) 3)) as [Hq|]; [|done].
  exfalso. rewrite Z.quot_div_nonneg in Hq by lia.
  pose proof (Z.mul_div_le (sumZ VotingPower members * 2) 3 ltac:(lia)). lia.
Qed.

Lemma POLC_basic pk :
  exists e, POLC_ValidateBasic (Some (mkPOLC (Some (Some <$> votes)) (Some pk))) = Done e /\
    (e = None <-> vsRound vs <> 0 /\ pkAddress pk ∉ vValidatorAddress <$> votes).
Proof.
  pose proof votesFor_all as Hv. pose proof votesFor_NoDup as N. pose proof votesFor_nonempty as Hne.
  destruct votes as [|v0 votes0]; [done|]. destruct (Hv v0 ltac:(set_solver)) as (_ & E1 & E2 & E3 & E4).
  set (polc := mkPOLC (Some (Some <$> v0 :: votes0)) (Some pk)). assert (firstVote polc = Done v0) as Ef by done.
  unfold POLC_ValidateBasic. cbn [POLC_IsAbsent pcVotes pcPubKey polc]. unfold polcVotes at 1.
  cbn [pcVotes polc fmap list_fmap from_option id]. rewrite Ef, bind_Done, E1, E2, E3, E4.
  destruct (Z.eqb_spec (vsRound vs) 0) as [->|Hr]; [eexists; split; [done|]; split; [done|lia]|].
  destruct (validatePolcVotes_spec _ _ _ _ pk _ Hv N) as (e & Ee & He). exists e. split; [exact Ee|]. rewrite He. tauto.
Qed.

End majority.

End polc.

(** From a vote set with a two-thirds majority for a block, a proof of lock
    change can be made: it has the votes of the majority, for that height, round
    and block, and [ValidateVotes] accepts it against the validator set.  The basic
    validation accepts it exactly when the round is not the first one and the key
    is not that of one of the voters. *)
Theorem POLC_from_majority `{Crypto} {ST : StdTime} chainID height round ty vals vs b pk :
  reachable chainID height round ty vals vs -> TwoThirdsMajority (Some vs) = (b, true) ->
  exists polc e, NewPOLCFromVoteSet (Some vs) pk b = Done (Some polc, e) /\
    POLC_ValidateVotes polc (vsValSet vs) chainID = Done None /\
    POLC_Height polc = Done height /\ POLC_Round polc = Done round /\ POLC_BlockID polc = Done b /\
    (e = None <-> round <> 0 /\ forall v, Some v ∈ polcVotes polc -> vValidatorAddress v <> pkAddress pk).
Proof.
  intros R M%TwoThirdsMajority_maj. destruct (reachable_inv _ _ _ _ _ _ R) as (I & _ & Ec & Eh & Er & _ & _).
  destruct (POLC_basic vs b I M pk) as (e & Ee & He). pose proof (votesFor_nonempty vs b I M) as Hne.
  exists (mkPOLC (Some (Some <$> votesFor b (vsVotes vs))) (Some pk)), e.
  split_and!.
  - unfold NewPOLCFromVoteSet. by rewrite newPOLC_Done, bind_Done, Ee.
  - rewrite <- Ec. by apply POLC_votes_valid.
  - pose proof (votesFor_all vs b I) as Hv. destruct (votesFor b (vsVotes vs)) as [|v l]; [done|].
    destruct (Hv v ltac:(set_solver)) as (_ & ? & _). unfold POLC_Height, firstVote. simpl. congruence.
  - pose proof (votesFor_all vs b I) as Hv. destruct (votesFor b (vsVotes vs)) as [|v l]; [done|].
    destruct (Hv v ltac:(set_solver)) as (_ & _ & ? & _). unfold POLC_Round, firstVote. simpl. congruence.
  - pose proof (votesFor_all vs b I) as Hv. destruct (votesFor b (vsVotes vs)) as [|v l]; [done|].
    destruct (Hv v ltac:(set_solver)) as (_ & _ & _ & _ & ?). unfold POLC_BlockID, firstVote. simpl. congruence.
  - rewrite He, Er. unfold polcVotes. simpl. unfold id. split; intros [Hr Hn]; (split; [done|]).
    + intros v (w & [= <-] & Hv)%list_elem_of_fmap Ea. apply Hn. rewrite <- Ea. by apply list_elem_of_fmap_2.
    + intros (v & Ea & Hv)%list_elem_of_fmap. apply (Hn v); [by apply list_elem_of_fmap_2|done].
Qed.

Lemma POLC_from_majority_witness :
  exists polc, NewPOLCFromVoteSet (H := exampleCrypto) (Some (exampleVotes 1)) (PubKeyEd25519 (exampleAddress 7)) exampleBlockID
    = Done (Some polc, None) /\
    POLC_ValidateVotes (H := exampleCrypto) (ST := exampleStdTime) polc (vsValSet (exampleVotes 1)) exampleChain = Done None.
Proof.
  destruct (POLC_from_majority (H := exampleCrypto) (ST := exampleStdTime) exampleChain 5 1 PrecommitType exampleSet
    (exampleVotes 1) exampleBlockID (PubKeyEd25519 (exampleAddress 7)) (exampleVotes_reachable 1 (or_intror eq_refl))
    (exampleVotes_majority 1 (or_intror eq_refl))) as (polc & e & E & Hv & _).
  exists polc. assert (e = None) as ->.
  { vm_compute in E. by injection E as _ <-. }
  split; [exact E|exact Hv].
Defined.
