(* ===== verification/BlockExec.v ===== *)
(** * Validation and execution of blocks

    state/validation.go and ApplyBlock of state/execution.go with the conversions of
    types/protobuf.go that they use.  The application, the mempool and the evidence
    pool are interfaces, and so are the methods of the types of evidence; the store
    is the one of [StateStore].  What an execution does to them is kept in a trace.

    The main results: a block made from a state is valid for it; an execution that
    succeeds leaves a database from which everything of the next state can be
    loaded; and two kinds of evidence that are valid in a block stop every node that
    executes it. *)

From Stdlib Require Import ZArith Lia.
From stdpp Require Import functions.
From stdpp Require Import base gmap sets list option strings numbers sorting.
From S2P Require Import Prelude StateMonad SafeMath Proto Validator ValidatorSet ValidatorSetUpdate BlockTypes Merkle.
From S2P Require Import PartSet SignBytes Header ValidatorHash Block CommitVerify MedianTime Params ChainState StateStore LockChange.

Local Open Scope Z_scope.

(** ** Interfaces *)

(** The dynamic types of evidence that the code tells apart, with the fields it reads
    of them *)
Inductive evidenceType (Ev : Type) :=
  | DuplicateVoteType
  | PhantomValidatorType (lastHeightValidatorWasInSet : Z)
  | LunaticValidatorType
  | PotentialAmnesiaType
  | AmnesiaType (polc : ProofOfLockChange) (voteARound voteBRound : Z) (potential : Ev)
  | OtherType.
Arguments DuplicateVoteType {_}.
Arguments PhantomValidatorType {_} _.
Arguments LunaticValidatorType {_}.
Arguments PotentialAmnesiaType {_}.
Arguments AmnesiaType {_} _ _ _ _.
Arguments OtherType {_}.

(** The methods of [types.Evidence] that validation calls; [VerifyHeader] is a method
    of [LunaticValidatorEvidence]. *)
Class EvidenceMethods {EI : EvidenceImpl} := {
  evType : Evidence -> evidenceType Evidence;
  evHeight : Evidence -> Z;
  evTime : Evidence -> Time;
  evAddress : Evidence -> bytes;
  evEqual : Evidence -> Evidence -> bool;
  evVerify : Evidence -> bytes -> option PubKey -> outcome (option error);
  evVerifyHeader : Evidence -> option Header -> outcome (option error)
}.

(** [sm.EvidencePool] *)
Class EvidencePool {EI : EvidenceImpl} (EP : Type) := {
  ep_AddEvidence : Evidence -> EP -> EP * option error;
  ep_Update : Block -> State -> EP -> EP;
  ep_IsCommitted : Evidence -> EP -> bool;
  ep_IsPending : Evidence -> EP -> bool;
  ep_Header : Z -> EP -> option Header
}.

(** [abcix.Validator], [VoteInfo], [LastCommitInfo] and [Evidence] *)
Record abciValidator := mkAbciValidator { avAddress : bytes; avPower : Z }.
Record VoteInfo := mkVoteInfo { viValidator : abciValidator; viSignedLastBlock : bool }.
Record LastCommitInfo := mkLastCommitInfo { lciRound : Z; lciVotes : list VoteInfo }.
Record abciEvidence := mkAbciEvidence {
  aeType : string; aeValidator : abciValidator; aeHeight : Z; aeTime : Time; aeTotalVotingPower : Z
}.
Record RequestDeliverBlock := mkRequestDeliverBlock {
  rqHeight : Z; rqHash : bytes; rqHeader : option protoHeader;
  rqLastCommitInfo : LastCommitInfo; rqByzantineValidators : list abciEvidence; rqTxs : list bytes
}.
Record ResponseCommit := mkResponseCommit { rcData : bytes; rcRetainHeight : Z }.

(** [proxy.AppConnConsensus]; a response may be nil. *)
Class AppConn (AP : Type) := {
  app_DeliverBlock : RequestDeliverBlock -> AP -> AP * (option ResponseDeliverBlock * option error);
  app_Commit : AP -> AP * (option ResponseCommit * option error)
}.

(** [mempool.Mempool]; the checks of transactions are functions of the state. *)
Class Mempool (MP : Type) := {
  mp_FlushAppConn : MP -> MP * option error;
  mp_Update : Z -> list bytes -> list (option ResponseDeliverTx) -> State -> MP -> MP * option error
}.

Section exec.
Context `{Crypto} {TH : TmHash} {ST : StdTime} {W : Wrappers} {EI : EvidenceImpl} {EM : EvidenceMethods}.
Context {EP AP MP : Type} `{!EvidencePool EP} `{!AppConn AP} `{!Mempool MP}.

(** ** Validation *)

(** [Time.Sub], which saturates *)
Definition timeSub (t u : Time) : Z := clip64 (t - u).

Definition VerifyEvidence (db : StateDB) (state : State) (evidence : Evidence) (committedHeader : option Header)
    : outcome (option error) :=
  let height := stLastBlockHeight state in
  let params := cpEvidence (stConsensusParams state) in
  let ageDuration := timeSub (stLastBlockTime state) (evTime evidence) in
  let ageNumBlocks := wrap64 (height - evHeight evidence) in
  if (epMaxAgeDuration params <? ageDuration) && (epMaxAgeNumBlocks params <? ageNumBlocks)
  then Done (Some "evidence is too old")
  else
    let! headerErr := (match evType evidence with
                       | LunaticValidatorType => evVerifyHeader evidence committedHeader
                       | _ => Done None
                       end) in
    match headerErr with
    | Some err => Done (Some err)
    | None =>
      let! r := LoadValidators (evHeight evidence) db in
      match r with
      | inl err => Done (Some err)
      | inr valset =>
        let addr := evAddress evidence in
        let! val :=
          (match evType evidence with
           | PhantomValidatorType lastHeightValidatorWasInSet =>
             match snd (GetByAddress valset addr) with
             | Some _ => Done (inl "address was a validator at height")
             | None =>
               if epMaxAgeNumBlocks params <? wrap64 (height - lastHeightValidatorWasInSet)
               then Done (inl "last time validator was in the set is too old")
               else
                 let! r := LoadValidators lastHeightValidatorWasInSet db in
                 match r with
                 | inl err => Done (inl err)
                 | inr valset =>
                   match snd (GetByAddress valset addr) with
                   | None => Done (inl "phantom validator not found")
                   | Some val => Done (inr val)
                   end
                 end
             end
           | t =>
             let! polcErr := (match t with
                              | AmnesiaType polc _ _ _ =>
                                if negb (POLC_IsAbsent polc) then POLC_ValidateVotes polc valset (stChainID state) else Done None
                              | _ => Done None
                              end) in
             match polcErr with
             | Some err => Done (inl ("amnesia evidence contains invalid polc, err: " +:+ err))
             | None =>
               match snd (GetByAddress valset addr) with
               | None => Done (inl "address was not a validator at height")
               | Some val => Done (inr val)
               end
             end
           end) in
        match val with
        | inl err => Done (Some err)
        | inr val => evVerify evidence (stChainID state) (vPubKey val)
        end
      end
    end.

(** The loop over the evidence of a block; the pool may be nil. *)
Fixpoint verifyAll (db : StateDB) (state : State) (evs : list Evidence) (pool : option EP)
    : outcome (option error * option EP) :=
  match evs with
  | [] => Done (None, pool)
  | ev :: evs' =>
    if existsb (evEqual ev) evs' then Done (Some "evidence was submitted twice", pool)
    else if match pool with Some p => ep_IsCommitted ev p | None => false end
    then Done (Some "evidence was already committed", pool)
    else if match pool with Some p => ep_IsPending ev p | None => false end
    then verifyAll db state evs' pool
    else
      match evType ev with
      | AmnesiaType polc roundA roundB potential =>
        if POLC_IsAbsent polc && (roundA <? roundB) then
          match pool with
          | None => Panic "invalid memory address or nil pointer dereference"
          | Some p =>
            let '(p, err) := ep_AddEvidence potential p in
            Done (match err with
                  | Some _ => Some "unknown amnesia evidence, trying to add to evidence pool"
                  | None => Some "amnesia evidence is new and hasn't undergone trial period yet"
                  end, Some p)
          end
        else
          let! err := VerifyEvidence db state ev None in
          match err with Some err => Done (Some err, pool) | None => verifyAll db state evs' pool end
      | LunaticValidatorType =>
        match pool with
        | None => Panic "invalid memory address or nil pointer dereference"
        | Some p =>
          match ep_Header (evHeight ev) p with
          | None => Done (Some "don't have block meta at height", pool)
          | Some header =>
            let! err := VerifyEvidence db state ev (Some header) in
            match err with Some err => Done (Some err, pool) | None => verifyAll db state evs' pool end
          end
        end
      | _ =>
        let! err := VerifyEvidence db state ev None in
        match err with Some err => Done (Some err, pool) | None => verifyAll db state evs' pool end
      end
  end.

(** The checks of the header against the state, up to the last commit *)
Definition validateHeaderInfo (state : State) (h : Header) : outcome (option error) :=
  if negb (verApp (hVersion h) =? verApp (stVersion state)) || negb (verBlock (hVersion h) =? verBlock (stVersion state))
  then Done (Some "wrong Block.Header.Version")
  else if negb (bool_decide (hChainID h = stChainID state)) then Done (Some "wrong Block.Header.ChainID")
  else if negb (hHeight h =? wrap64 (stLastBlockHeight state + 1)) then Done (Some "wrong Block.Header.Height")
  else if negb (BlockID_Equals (hLastBlockID h) (stLastBlockID state)) then Done (Some "wrong Block.Header.LastBlockID")
  else
    let! hashCP := HashConsensusParams (stConsensusParams state) in
    if negb (bool_decide (hConsensusHash h = hashCP)) then Done (Some "wrong Block.Header.ConsensusHash")
    else
      let! valsHash := ValidatorSet_Hash (stValidators state) in
      if negb (bool_decide (hValidatorsHash h = valsHash)) then Done (Some "wrong Block.Header.ValidatorsHash")
      else
        let! nextHash := ValidatorSet_Hash (stNextValidators state) in
        if negb (bool_decide (hNextValidatorsHash h = nextHash)) then Done (Some "wrong Block.Header.NextValidatorsHash")
        else Done None.

(** The check of the last commit; [VerifyCommit] memoizes the total power in the last
    validators. *)
Definition validateLastCommit (state : State) (h : Header) (commit : Commit) : outcome (option error * ValidatorSet) :=
  if hHeight h =? 1 then
    Done (if negb (length (cSignatures commit) =? 0)%nat
          then Some "block at height 1 can't have LastCommit signatures" else None, stLastValidators state)
  else
    let! (err, vals) := VerifyCommit (stChainID state) (stLastBlockID state) (wrap64 (hHeight h - 1)) commit (stLastValidators state) in
    Done (match err with Some _ => Some "invalid commit" | None => None end, vals).

(** The check of the block time *)
Definition validateTime (state : State) (h : Header) (commit : Commit) : option error :=
  if 1 <? hHeight h then
    if negb (stLastBlockTime state <? hTime h) then Some "block time not greater than last block time"
    else if negb (hTime h =? MedianTime commit (stLastValidators state)) then Some "invalid block time"
    else None
  else if hHeight h =? 1 then
    if negb (hTime h =? stLastBlockTime state) then Some "block time is not equal to genesis time" else None
  else None.

Definition setLastValidators (vals : ValidatorSet) (state : State) : State :=
  mkState (stVersion state) (stChainID state) (stLastBlockHeight state) (stLastBlockID state) (stLastBlockTime state)
    (stNextValidators state) (stValidators state) vals (stLastHeightValidatorsChanged state)
    (stConsensusParams state) (stLastHeightConsensusParamsChanged state).

(** The result is the error with the state and the block, in which totals and hashes
    are memoized, and the pool. *)
Definition validateBlock (pool : option EP) (db : StateDB) (state : State) (block : Block)
    : outcome (option error * (State * Block * option EP)) :=
  let! (err, b) := Block_ValidateBasic (Some block) in
  match b with
  | None => Panic "invalid memory address or nil pointer dereference"
  | Some block =>
    let h := bHeader block in
    match err, bLastCommit block with
    | Some err, _ => Done (Some err, (state, block, pool))
    | None, None => Panic "invalid memory address or nil pointer dereference"
    | None, Some commit =>
      let! err := validateHeaderInfo state h in
      match err with
      | Some err => Done (Some err, (state, block, pool))
      | None =>
        let! (err, vals) := validateLastCommit state h commit in
        let state := setLastValidators vals state in
        match err with
        | Some err => Done (Some err, (state, block, pool))
        | None =>
          match validateTime state h commit with
          | Some err => Done (Some err, (state, block, pool))
          | None =>
            if epMaxNum (cpEvidence (stConsensusParams state)) <? Z.of_nat (length (edEvidence (bEvidence block)))
            then Done (Some "too much evidence", (state, block, pool))
            else
              let! (err, pool) := verifyAll db state (edEvidence (bEvidence block)) pool in
              match err with
              | Some err => Done (Some err, (state, block, pool))
              | None =>
                if negb (Z.of_nat (length (hProposerAddress h)) =? AddressSize)
                then Done (Some "wrong ProposerAddress size", (state, block, pool))
                else if negb (HasAddress (stValidators state) (hProposerAddress h))
                then Done (Some "block.Header.ProposerAddress is not a validator", (state, block, pool))
                else Done (None, (state, block, pool))
              end
          end
        end
      end
    end
  end.

(** ** What the application is told *)

(** [TM2PB.Validator] *)
Definition tm2pbValidator (val : Validator) : outcome abciValidator :=
  match vPubKey val with
  | None => Panic "invalid memory address or nil pointer dereference"
  | Some pk => Done (mkAbciValidator (pkAddress pk) (VotingPower val))
  end.

(** [TM2PB.Evidence] *)
Definition tm2pbEvidence (ev : Evidence) (valSet : ValidatorSet) (time : Time) : outcome abciEvidence :=
  match snd (GetByAddress valSet (evAddress ev)) with
  | None => Panic "should already have checked this"
  | Some val =>
    let! t := (match evType ev with
               | DuplicateVoteType => Done "duplicate/vote"
               | PhantomValidatorType _ => Done "phantom"
               | LunaticValidatorType => Done "lunatic"
               | PotentialAmnesiaType => Done "potential_amnesia"
               | _ => Panic "Unknown evidence type"
               end) in
    let! v := tm2pbValidator val in
    let! (total, _) := TotalVotingPower valSet in
    Done (mkAbciEvidence t v (evHeight ev) time total)
  end.

(** The loop over the validators and their signatures *)
Fixpoint voteInfos (vals : list Validator) (sigs : list CommitSig) : outcome (list VoteInfo) :=
  match vals, sigs with
  | val :: vals', commitSig :: sigs' =>
    let! v := tm2pbValidator val in
    let! rest := voteInfos vals' sigs' in
    Done (mkVoteInfo v (negb (CommitSig_Absent commitSig)) :: rest)
  | _, _ => Done []
  end.

(** The loop over the evidence *)
Fixpoint byzantineValidators (time : Time) (db : StateDB) (evs : list Evidence) : outcome (list abciEvidence) :=
  match evs with
  | [] => Done []
  | ev :: evs' =>
    let! r := LoadValidators (evHeight ev) db in
    match r with
    | inl err => Panic err
    | inr valset =>
      let! e := tm2pbEvidence ev valset time in
      let! rest := byzantineValidators time db evs' in
      Done (e :: rest)
    end
  end.

(** At the first height the votes are zero values, of which there are none when the
    block is valid. *)
Definition getBlockValidatorInfo (time : Time) (height : Z) (lastCommit : option Commit) (evidence : list Evidence)
    (db : StateDB) : outcome (LastCommitInfo * list abciEvidence) :=
  let! votes :=
    (if 1 <? height then
       let! r := LoadValidators (wrap64 (height - 1)) db in
       match r with
       | inl err => Panic err
       | inr lastValSet =>
         if negb (Commit_Size lastCommit =? Z.of_nat (length (Validators lastValSet)))
         then Panic "commit size doesn't match valset length"
         else voteInfos (Validators lastValSet) (match lastCommit with Some c => cSignatures c | None => [] end)
       end
     else Done (replicate (Z.to_nat (Commit_Size lastCommit)) (mkVoteInfo (mkAbciValidator [] 0) false))) in
  let! byzVals := byzantineValidators time db evidence in
  match lastCommit with
  | None => Panic "invalid memory address or nil pointer dereference"
  | Some c => Done (mkLastCommitInfo (cRound c) votes, byzVals)
  end.

(** ** Execution *)

Inductive execEvent :=
  | DeliveredBlock (height : Z)
  | SavedResponses (height : Z)
  | CommittedApp
  | UpdatedMempool (height : Z)
  | UpdatedEvpool (height : Z)
  | SavedState (height : Z)
  | FiredEvents (height : Z).

(** [BlockExecutor] with the trace of what it did *)
Record Executor := mkExecutor {
  exDB : StateDB; exApp : AP; exMempool : MP; exEvpool : option EP; exTrace : list execEvent
}.

Definition setDB (db : StateDB) (ex : Executor) : Executor :=
  mkExecutor db (exApp ex) (exMempool ex) (exEvpool ex) (exTrace ex).
Definition setApp (app : AP) (ex : Executor) : Executor :=
  mkExecutor (exDB ex) app (exMempool ex) (exEvpool ex) (exTrace ex).
Definition setMempool (mp : MP) (ex : Executor) : Executor :=
  mkExecutor (exDB ex) (exApp ex) mp (exEvpool ex) (exTrace ex).
Definition setEvpool (pool : option EP) (ex : Executor) : Executor :=
  mkExecutor (exDB ex) (exApp ex) (exMempool ex) pool (exTrace ex).
Definition emitted (e : execEvent) (ex : Executor) : Executor :=
  mkExecutor (exDB ex) (exApp ex) (exMempool ex) (exEvpool ex) (exTrace ex ++ [e]).

(** The loop over the results of the transactions *)
Fixpoint checkDeliverTxs (txs : list (option ResponseDeliverTx)) : outcome unit :=
  match txs with
  | [] => Done tt
  | None :: _ => Panic "invalid memory address or nil pointer dereference"
  | Some txRes :: txs' => if dtCode txRes =? 0 then checkDeliverTxs txs' else Panic "invalid tx found in block"
  end.

(** The error of [DeliverBlockSync] is only logged.  The block is returned because its
    hash is memoized. *)
Definition execBlockOnProxyApp (block : Block) : stateful Executor (ResponseDeliverBlock * Block) :=
  let& ex := sget in
  let h := bHeader block in
  let& (commitInfo, byzVals) :=
    slift (getBlockValidatorInfo (hTime h) (hHeight h) (bLastCommit block) (edEvidence (bEvidence block)) (exDB ex)) in
  let pbh := Header_ToProto (Some h) in
  let& (hash, b) := slift (Block_Hash (Some block)) in
  let '(app, (resp, err)) :=
    app_DeliverBlock (mkRequestDeliverBlock (hHeight h) hash pbh commitInfo byzVals (dTxs (bData block))) (exApp ex) in
  let& _ := smodify (setApp app) in
  let& _ := smodify (emitted (DeliveredBlock (hHeight h))) in
  match resp, b with
  | Some resp, Some block =>
    let& _ := slift (checkDeliverTxs (dbDeliverTxs resp)) in
    sret (resp, block)
  | _, _ => spanic "invalid memory address or nil pointer dereference"
  end.

Definition exec_Commit (state : State) (block : Block) (deliverTxs : list (option ResponseDeliverTx))
    : stateful Executor (bytes * Z * option error) :=
  let& ex := sget in
  let '(mp, err) := mp_FlushAppConn (exMempool ex) in
  let& _ := smodify (setMempool mp) in
  match err with
  | Some err => sret ([], 0, Some err)
  | None =>
    let '(app, (res, err)) := app_Commit (exApp ex) in
    let& _ := smodify (setApp app) in
    match err, res with
    | Some err, _ => sret ([], 0, Some err)
    | None, None => spanic "invalid memory address or nil pointer dereference"
    | None, Some res =>
      let& _ := smodify (emitted CommittedApp) in
      let '(mp, err) := mp_Update (hHeight (bHeader block)) (dTxs (bData block)) deliverTxs state mp in
      let& _ := smodify (setMempool mp) in
      let& _ := smodify (emitted (UpdatedMempool (hHeight (bHeader block)))) in
      sret (rcData res, rcRetainHeight res, err)
    end
  end.

(** The state that is returned with an error is the one the variable has at that
    point. *)
Definition ApplyBlock (state : State) (blockID : BlockID) (block : Block) : stateful Executor (State * Z * bytes * option error) :=
  let& ex := sget in
  let& (err, (state, block, pool)) := slift (validateBlock (exEvpool ex) (exDB ex) state block) in
  let& _ := smodify (setEvpool pool) in
  match err with
  | Some err => sret (state, 0, [], Some ("invalid block: " +:+ err))
  | None =>
    let height := hHeight (bHeader block) in
    let& (resp, block) := execBlockOnProxyApp block in
    let& ex := sget in
    let& _ := smodify (setDB (SaveABCIResponses height resp (exDB ex))) in
    let& _ := smodify (emitted (SavedResponses height)) in
    match validateValidatorUpdates (dbValidatorUpdates resp) (cpValidator (stConsensusParams state)) with
    | Some err => sret (state, 0, [], Some ("error in validator updates: " +:+ err))
    | None =>
      match ValidatorUpdates (dbValidatorUpdates resp) with
      | inl err => sret (state, 0, [], Some err)
      | inr validatorUpdates =>
        let& r := slift (updateState state blockID (bHeader block) (dbConsensusParamUpdates resp) validatorUpdates) in
        match r with
        | inl err => sret (state, 0, [], Some ("commit failed for application: " +:+ err))
        | inr state =>
          let& (appHash, retainHeight, err) := exec_Commit state block (dbDeliverTxs resp) in
          match err with
          | Some err => sret (state, 0, [], Some ("commit failed for application: " +:+ err))
          | None =>
            let& ex := sget in
            match exEvpool ex with
            | None => spanic "invalid memory address or nil pointer dereference"
            | Some pool =>
              let& _ := smodify (setEvpool (Some (ep_Update block state pool))) in
              let& _ := smodify (emitted (UpdatedEvpool height)) in
              let& ex := sget in
              let& db := slift (SaveState state (exDB ex)) in
              let& _ := smodify (setDB db) in
              let& _ := smodify (emitted (SavedState height)) in
              let& _ := smodify (emitted (FiredEvents height)) in
              sret (state, retainHeight, appHash, None)
            end
          end
        end
      end
    end
  end.

(** ** Evidence that cannot be delivered *)

Lemma verifyAll_accepts db state evs pool pool' : verifyAll db state evs pool = Done (None, pool') ->
  pool' = pool /\ forall ev, ev ∈ evs ->
    (exists p, pool = Some p /\ ep_IsPending ev p = true) \/ exists header, VerifyEvidence db state ev header = Done None.
Proof.
  induction evs as [|ev evs IH]; cbn [verifyAll]; [by intros [= ->]; split; [|intros ev ?%elem_of_nil]|].
  destruct (existsb _ _); [done|]. destruct (match pool with Some p => ep_IsCommitted ev p | None => false end); [done|].
  destruct (match pool with Some p => ep_IsPending ev p | None => false end) eqn:Ep.
  { intros [-> Hall]%IH. split; [done|]. intros ev' [->|Hin]%elem_of_cons; [|by apply Hall].
    left. destruct pool as [p|]; [by exists p|done]. }
  assert (forall header, (let! err := VerifyEvidence db state ev header in
    match err with Some err => Done (Some err, pool) | None => verifyAll db state evs pool end) = Done (None, pool') ->
    pool' = pool /\ forall ev', ev' ∈ ev :: evs ->
      (exists p, pool = Some p /\ ep_IsPending ev' p = true) \/ exists header, VerifyEvidence db state ev' header = Done None) as Hstep.
  { intros header ([e|] & Ev & E)%bind_Done_inv; [done|]. apply IH in E as [-> Hall]. split; [done|].
    intros ev' [->|Hin]%elem_of_cons; [by right; exists header|by apply Hall]. }
  destruct (evType ev); try apply Hstep.
  - destruct pool as [p|]; [|done]. destruct (ep_Header _ _) as [header|]; [|done]. apply Hstep.
  - destruct (_ && _); [|apply Hstep]. destruct pool as [p|]; [|done]. by destruct (ep_AddEvidence _ _) as [? [?|]].
Qed.

(** The two kinds of evidence for which [TM2PB.Evidence] panics *)
Definition undeliverable (db : StateDB) (ev : Evidence) : Prop :=
  (exists polc a b potential, evType ev = AmnesiaType polc a b potential) \/
  (exists l, evType ev = PhantomValidatorType l) /\ exists state header, VerifyEvidence db state ev header = Done None.

Lemma undeliverable_panics db ev valset time : undeliverable db ev -> LoadValidators (evHeight ev) db = Done (inr valset) ->
  exists why, tm2pbEvidence ev valset time = Panic why.
Proof.
  intros [(polc & a & b & pot & Et)|[[l Et] (state & header & Ev)]] El; unfold tm2pbEvidence.
  - rewrite Et. destruct (snd _); simpl; eauto.
  - unfold VerifyEvidence in Ev. rewrite Et, bind_Done, El, bind_Done in Ev. destruct (_ && _); [done|].
    destruct (snd (GetByAddress valset (evAddress ev))); [by rewrite bind_Done in Ev|]. eauto.
Qed.

Lemma byzantineValidators_panics time db evs ev : ev ∈ evs -> undeliverable db ev ->
  exists why, byzantineValidators time db evs = Panic why.
Proof.
  intros Hin Hu. induction evs as [|ev' evs IH]; [by apply elem_of_nil in Hin|]. cbn [byzantineValidators].
  destruct (LoadValidators (evHeight ev') db) as [[err|valset]|] eqn:El; simpl; [eauto| |eauto].
  apply elem_of_cons in Hin as [<-|Hin].
  - destruct (undeliverable_panics db ev valset time Hu El) as [why ->]. simpl. eauto.
  - destruct (tm2pbEvidence ev' valset time); simpl; [|eauto]. destruct (IH Hin) as [why ->]. simpl. eauto.
Qed.

Lemma getBlockValidatorInfo_panics time height commit db evs ev : ev ∈ evs -> undeliverable db ev ->
  exists why, getBlockValidatorInfo time height commit evs db = Panic why.
Proof.
  intros Hin Hu. unfold getBlockValidatorInfo. destruct (byzantineValidators_panics time db evs ev Hin Hu) as [why ->].
  match goal with |- context [let! votes := ?m in _] => destruct m; simpl; eauto end.
Qed.

(** What [validateBlock] checked when it accepts *)
Lemma validateBlock_accepts pool db state block state' block' pool' :
  validateBlock pool db state block = Done (None, (state', block', pool')) ->
  exists commit vals, Block_ValidateBasic (Some block) = Done (None, Some block') /\ bLastCommit block' = Some commit /\
    validateHeaderInfo state (bHeader block') = Done None /\
    validateLastCommit state (bHeader block') commit = Done (None, vals) /\ state' = setLastValidators vals state /\
    validateTime state' (bHeader block') commit = None /\ pool' = pool /\
    verifyAll db state' (edEvidence (bEvidence block')) pool = Done (None, pool) /\
    HasAddress (stValidators state) (hProposerAddress (bHeader block')) = true.
Proof.
  unfold validateBlock. intros ([err [b|]] & Eb & Er)%bind_Done_inv; [|done].
  destruct err; [done|]. destruct (bLastCommit b) as [commit|] eqn:Ec; [|done].
  apply bind_Done_inv in Er as ([e|] & Eh & Er); [done|]. apply bind_Done_inv in Er as ([e vals] & El & Er).
  destruct e; [done|]. destruct (validateTime _ _ _) eqn:Et; [done|]. destruct (_ <? _); [done|].
  apply bind_Done_inv in Er as ([e pool1] & Ev & Er). destruct e; [done|].
  pose proof (proj1 (verifyAll_accepts _ _ _ _ _ Ev)) as ->.
  destruct (negb _); [done|]. destruct (HasAddress _ _) eqn:Eha; [|done]. injection Er as <- <- <-.
  exists commit, vals. by split_and!.
Qed.

Ltac split_if H := match type of H with context [if negb ?c then _ else _] => destruct (negb c) end.

Lemma ValidateBasic_keeps (b : Block) e (b' : Block) : Block_ValidateBasic (Some b) = Done (e, Some b') ->
  bHeader b' = bHeader b /\ dTxs (bData b') = dTxs (bData b) /\ edEvidence (bEvidence b') = edEvidence (bEvidence b).
Proof.
  unfold Block_ValidateBasic. destruct (Header_ValidateBasic _); [by intros [= _ <-]|].
  destruct (bLastCommit b) as [lc|]; [|by intros [= _ <-]].
  match goal with |- context [if 1 <? ?x then ?a else ?c] => destruct (if 1 <? x then a else c); [by intros [= _ <-]|] end.
  intros ([ch lc'] & _ & Er)%bind_Done_inv. split_if Er; [by injection Er as _ <-|].
  apply bind_Done_inv in Er as ([dh data] & Ed & Er). assert (dTxs data = dTxs (bData b)) as Et.
  { cbn [bData] in Ed. unfold Data_Hash in Ed. destruct (dHash (bData b)); [by injection Ed as _ <-|].
    apply bind_Done_inv in Ed as (x & _ & Ed). by injection Ed as _ <-. }
  split_if Er; [by injection Er as _ <-|]. apply bind_Done_inv in Er as ([x|] & _ & Er); [by injection Er as _ <-|].
  apply bind_Done_inv in Er as ([eh evd] & Ee & Er). assert (edEvidence evd = edEvidence (bEvidence b)) as Eev.
  { cbn [bEvidence] in Ee. unfold EvidenceData_Hash in Ee. destruct (edHash (bEvidence b)); [by injection Ee as _ <-|].
    apply bind_Done_inv in Ee as (y & _ & Ee). by injection Ee as _ <-. }
  split_if Er; by injection Er as _ <-.
Qed.

(** ** What an execution does *)

Lemma db_ok_responses base V P s db h r : db_ok base V P s db -> db_ok base V P s (SaveABCIResponses h r db).
Proof. done. Qed.

Lemma ValidatorUpdates_plain ups vals : (forall key, Z.of_nat (length (pkAddress (PubKeyEd25519 key))) = AddressSize) ->
  ValidatorUpdates ups = inr vals -> Forall plain_member vals.
Proof.
  intros Hsize. unfold ValidatorUpdates. revert vals. induction ups as [|u ups IH]; intros vals; cbn [mapResult]; [by intros [= <-]|].
  destruct (PubKeyFromProto (vuPubKey u)) as [|pk] eqn:Epk; [done|]. destruct (mapResult _ ups) as [|l]; [done|].
  intros [= <-]. constructor; [|by apply IH]. unfold PubKeyFromProto in Epk. destruct (pkSum _) as [key|]; [|done].
  destruct (Z.eqb_spec (Z.of_nat (length key)) PubKeySize) as [El|]; [|done]. injection Epk as <-. split; [by exists key|apply Hsize].
Qed.

Lemma validateHeaderInfo_accepts state h : validateHeaderInfo state h = Done None -> int64 (stLastBlockHeight state + 1) ->
  hHeight h = stLastBlockHeight state + 1 /\ hChainID h = stChainID state /\ BlockID_Equals (hLastBlockID h) (stLastBlockID state) = true.
Proof.
  unfold validateHeaderInfo. intros Er Hi. destruct (_ || _); [done|]. case_bool_decide as Ec; [|done].
  rewrite wrap64_id in Er by done. destruct (Z.eqb_spec (hHeight h) (stLastBlockHeight state + 1)) as [Eh|]; [|done].
  destruct (BlockID_Equals _ _) eqn:Eb; [|done]. done.
Qed.

(** The events of an execution that succeeds, in their order *)
Definition executed (height : Z) : list execEvent :=
  [DeliveredBlock height; SavedResponses height; CommittedApp; UpdatedMempool height; UpdatedEvpool height;
   SavedState height; FiredEvents height].

Lemma execBlockOnProxyApp_done block ex resp block' ex' : execBlockOnProxyApp block ex = Done ((resp, block'), ex') ->
  exDB ex' = exDB ex /\ exEvpool ex' = exEvpool ex /\ exTrace ex' = exTrace ex ++ [DeliveredBlock (hHeight (bHeader block))] /\
  exists hash, Block_Hash (Some block) = Done (hash, Some block').
Proof.
  unfold execBlockOnProxyApp. intros Er. step Er as x s1 E1. injection E1 as -> ->.
  step Er as [ci byz] s2 E2. apply slift_Done in E2 as [_ ->]. step Er as [hash b] s3 E3. apply slift_Done in E3 as [Eh ->].
  destruct (app_DeliverBlock _ _) as [app [r err]]. step Er as y s4 E4. injection E4 as _ <-.
  step Er as y2 s5 E5. injection E5 as _ <-. destruct r as [r|]; [|done]. destruct b as [b|]; [|done].
  step Er as y3 s6 E6. apply slift_Done in E6 as [_ ->]. injection Er as <- <- <-. simpl. split_and!; eauto.
Qed.

Lemma exec_Commit_done state block txs ex h r ex' : exec_Commit state block txs ex = Done ((h, r, None), ex') ->
  exDB ex' = exDB ex /\ exEvpool ex' = exEvpool ex /\
  exTrace ex' = exTrace ex ++ [CommittedApp; UpdatedMempool (hHeight (bHeader block))].
Proof.
  unfold exec_Commit. intros Er. step Er as x s1 E1. injection E1 as -> ->.
  destruct (mp_FlushAppConn _) as [mp err]. step Er as y s2 E2. injection E2 as _ <-. destruct err; [by injection Er|].
  destruct (app_Commit _) as [app [res err]]. step Er as y2 s3 E3. injection E3 as _ <-. destruct err; [by injection Er|].
  destruct res as [res|]; [|done]. step Er as y3 s4 E4. injection E4 as _ <-.
  destruct (mp_Update _ _ _ _ _) as [mp' err]. step Er as y4 s5 E5. injection E5 as _ <-. step Er as y5 s6 E6. injection E6 as _ <-.
  injection Er as _ _ _ <-. simpl. split_and!; [done..|]. by rewrite <- !(assoc_L (++)).
Qed.

Lemma Block_Hash_keeps (b : Block) hash (b' : Block) : Block_Hash (Some b) = Done (hash, Some b') ->
  hHeight (bHeader b') = hHeight (bHeader b) /\ hTime (bHeader b') = hTime (bHeader b).
Proof.
  unfold Block_Hash. destruct (bLastCommit b); [|by intros [= _ <-]]. intros (b1 & Ef & Er)%bind_Done_inv.
  apply bind_Done_inv in Er as (h & _ & Er). injection Er as _ <-. unfold fillHeader in Ef.
  apply bind_Done_inv in Ef as ([lch lc] & _ & Ef). apply bind_Done_inv in Ef as ([dh data] & _ & Ef).
  apply bind_Done_inv in Ef as ([eh evd] & _ & Ef). by injection Ef as <-.
Qed.

(** The next state depends on the header by its height and time only, and not on the
    last validators. *)
Lemma updateState_header s vals blockID h h' pu ups : hHeight h' = hHeight h -> hTime h' = hTime h ->
  updateState (setLastValidators vals s) blockID h' pu ups = updateState s blockID h pu ups.
Proof. intros E1 E2. unfold updateState, updateValidators, updateParams. by rewrite E1, E2. Qed.

Lemma ApplyBlock_done s blockID block ex s' retain hash ex' :
  ApplyBlock s blockID block ex = Done ((s', retain, hash, None), ex') ->
  exists s1 block1 pool resp ups, validateBlock (exEvpool ex) (exDB ex) s block = Done (None, (s1, block1, pool)) /\
    ValidatorUpdates (dbValidatorUpdates resp) = inr ups /\
    updateState s blockID (bHeader block) (dbConsensusParamUpdates resp) ups = Done (inr s') /\
    SaveState s' (SaveABCIResponses (hHeight (bHeader block)) resp (exDB ex)) = Done (exDB ex') /\
    exTrace ex' = exTrace ex ++ executed (hHeight (bHeader block)).
Proof.
  unfold ApplyBlock. intros Er. step Er as x ex0 E1. injection E1 as <- <-.
  step Er as [err [[s1 block1] pool]] ex1 E2. apply slift_Done in E2 as [Ev ->]. step Er as y ex2 E3. injection E3 as _ <-.
  destruct err; [by injection Er|]. destruct (validateBlock_accepts _ _ _ _ _ _ _ Ev) as (commit & vals & Eb & _ & _ & _ & -> & _).
  destruct (ValidateBasic_keeps _ _ _ Eb) as [Ehd _]. rewrite Ehd in Er.
  step Er as [resp block2] ex3 E4. destruct (execBlockOnProxyApp_done _ _ _ _ _ E4) as (Edb & _ & Et & bh & Ebh).
  destruct (Block_Hash_keeps _ _ _ Ebh) as [Eh2 Et2]. rewrite Ehd in *.
  step Er as z ex4 E5. injection E5 as <- <-. step Er as z2 ex5 E6. injection E6 as _ <-. step Er as z3 ex6 E7. injection E7 as _ <-.
  destruct (validateValidatorUpdates _ _); [by injection Er|]. destruct (ValidatorUpdates _) as [|ups] eqn:Eu; [by injection Er|].
  step Er as r ex7 E8. apply slift_Done in E8 as [Eup ->]. destruct r as [|s2]; [by injection Er|].
  rewrite (updateState_header s vals blockID (bHeader block)) in Eup by done.
  step Er as [[ah rh] err] ex8 E9. destruct err; [by injection Er|].
  destruct (exec_Commit_done _ _ _ _ _ _ _ E9) as (Edb2 & _ & Et3).
  step Er as w ex9 E10. injection E10 as <- <-. destruct (exEvpool ex8); [|done].
  step Er as w1 ex10 E11. injection E11 as _ <-. step Er as w2 ex11 E12. injection E12 as _ <-.
  step Er as w3 ex12 E13. injection E13 as <- <-. step Er as db ex13 E14. apply slift_Done in E14 as [Es ->].
  step Er as w4 ex14 E15. injection E15 as _ <-. step Er as w5 ex15 E16. injection E16 as _ <-.
  step Er as w6 ex16 E17. injection E17 as _ <-. injection Er as <- _ _ <-. cbn [exDB exTrace setDB setEvpool setApp setMempool emitted] in *.
  exists (setLastValidators vals s), block1, pool, resp, ups. split_and!; [done..| |].
  - by rewrite Edb2, Edb in Es.
  - rewrite Et3, Et, Eh2, <- !(assoc_L (++)). done.
Qed.

(** ** A block that was made from the state *)

(** Two commits that differ in what is memoized only *)
Definition same_commit (c c' : Commit) : Prop :=
  cHeight c' = cHeight c /\ cRound c' = cRound c /\ cBlockID c' = cBlockID c /\ cSignatures c' = cSignatures c.

Lemma VerifyCommit_same chainID blockID h c c' vals : same_commit c c' ->
  VerifyCommit chainID blockID h c' vals = VerifyCommit chainID blockID h c vals.
Proof.
  intros (E1 & E2 & E3 & E4). unfold VerifyCommit, commitMismatch. rewrite E1, E3, E4.
  assert (forall idx v sig, verifySig chainID c' idx v sig = verifySig chainID c idx v sig) as Hs.
  { intros idx v sig. unfold verifySig, Commit_VoteSignBytes, Commit_GetVote. by rewrite E1, E2, E3, E4. }
  assert (forall v sigs idx t, tallyCommit v chainID c' idx sigs t = tallyCommit v chainID c idx sigs t) as Ht.
  { intros v sigs. induction sigs as [|cs sigs IH]; intros idx t; [done|]. cbn [tallyCommit]. rewrite IH.
    destruct (CommitSig_Absent cs); [done|]. destruct (index (Validators v) (Z.of_nat idx)) as [val|]; [|done]. rewrite !bind_Done, Hs.
    destruct (verifySig chainID c idx val (csSignature cs)) as [ok|]; [|done]. rewrite !bind_Done. destruct (negb ok); [done|apply IH]. }
  destruct (negb _); [done|]. destruct (negb _); [done|]. destruct (negb _); [done|].
  destruct (TotalVotingPower vals) as [[total v]|]; [|done]. simpl. by rewrite Ht.
Qed.

Lemma ValidateBasic_same c c' : same_commit c c' -> Commit_ValidateBasic c' = Commit_ValidateBasic c.
Proof. intros (E1 & E2 & E3 & E4). unfold Commit_ValidateBasic. by rewrite E1, E2, E3, E4. Qed.

Lemma MedianTime_same c c' vals vals' : same_commit c c' -> Validators vals' = Validators vals ->
  MedianTime c' vals' = MedianTime c vals.
Proof.
  intros (_ & _ & _ & E4) Ev. unfold MedianTime. rewrite E4.
  assert (forall sigs t, weighSignatures vals' sigs t = weighSignatures vals sigs t) as ->; [|done].
  induction sigs as [|cs sigs IH]; intros t; [done|]. cbn [weighSignatures]. unfold GetByAddress. rewrite Ev.
  destruct (CommitSig_Absent cs); [by rewrite IH|]. destruct (snd _); by rewrite IH.
Qed.

Section hashes.
Context {L : TmHashLaws TH}.

Lemma hash_valid bz : ValidateHash (Sum bz) = None.
Proof. unfold ValidateHash. rewrite Sum_size. by vm_compute. Qed.

Lemma root_valid items root : HashFromByteSlices items = Done root -> ValidateHash root = None.
Proof.
  destruct items as [|a items]; [by intros [= <-]|]. destruct (shaped_exists (a :: items)) as (t & Hs & <-); [done|].
  rewrite HashFromByteSlices_shaped by done. intros [= <-]. unfold ValidateHash. rewrite mhash_size. by vm_compute.
Qed.

Lemma ValidatorSet_Hash_valid vals r : ValidatorSet_Hash vals = Done r -> ValidateHash r = None.
Proof.
  unfold ValidatorSet_Hash. destruct (Validators vals); [by intros [= <-]|]. intros (bzs & _ & E)%bind_Done_inv. by eapply root_valid.
Qed.

Lemma HashConsensusParams_valid p r : HashConsensusParams p = Done r -> ValidateHash r = None.
Proof. unfold HashConsensusParams. intros (bz & _ & E)%bind_Done_inv. injection E as <-. apply hash_valid. Qed.

Lemma Commit_Hash_memo c x lc : cHash c = None -> Commit_Hash (Some c) = Done (x, lc) ->
  exists c', lc = Some c' /\ same_commit c c' /\ Commit_Hash (Some c') = Done (sliceOf (cHash c'), Some c') /\
    ValidateHash (sliceOf (cHash c')) = None.
Proof.
  intros Ec. unfold Commit_Hash. rewrite Ec. intros (bs & Eb & E)%bind_Done_inv. apply bind_Done_inv in E as (h & Eh & E).
  injection E as <- <-. eexists. split; [done|]. split; [by repeat split|]. cbn [cHash cSignatures]. unfold nilIfEmpty.
  destruct (cSignatures c) as [|cs sigs] eqn:Es; cbn [length Nat.eqb].
  - split; reflexivity.
  - split; [done|]. by eapply root_valid.
Qed.

Lemma Data_Hash_memo txs x d : Data_Hash (mkData txs None) = Done (x, d) ->
  dTxs d = txs /\ Data_Hash d = Done (sliceOf (dHash d), d) /\ ValidateHash (sliceOf (dHash d)) = None.
Proof.
  unfold Data_Hash, Txs_Hash. cbn [dHash dTxs]. intros (h & Eh & E)%bind_Done_inv. injection E as <- <-. cbn [dHash dTxs].
  unfold nilIfEmpty. destruct txs as [|tx txs]; cbn [length Nat.eqb].
  - by split_and!.
  - split_and!; [done..|]. by eapply root_valid.
Qed.

Lemma EvidenceData_Hash_memo x d : EvidenceData_Hash (mkEvidenceData [] None) = Done (x, d) -> d = mkEvidenceData [] None.
Proof. by intros [= _ <-]. Qed.

Lemma MakeBlock_spec h txs commit b : cHash commit = None -> MakeBlock h txs (Some commit) [] = Done b ->
  exists commit', bLastCommit b = Some commit' /\ same_commit commit commit' /\ dTxs (bData b) = txs /\
    bEvidence b = mkEvidenceData [] None /\
    bHeader b = setHeaderHashes (heightHeader h) (cHash commit') (dHash (bData b)) None /\
    Commit_Hash (Some commit') = Done (sliceOf (cHash commit'), Some commit') /\
    Data_Hash (bData b) = Done (sliceOf (dHash (bData b)), bData b) /\
    ValidateHash (sliceOf (cHash commit')) = None /\ ValidateHash (sliceOf (dHash (bData b))) = None.
Proof.
  intros Ec. unfold MakeBlock, fillHeader. cbn [bHeader heightHeader hLastCommitHash hDataHash hEvidenceHash bLastCommit bData bEvidence].
  intros ([lch lc] & E1 & E)%bind_Done_inv. apply bind_Done_inv in E as ([dh data] & E2 & E).
  apply bind_Done_inv in E as ([eh evd] & E3 & E). injection E as <-. cbn [bHeader bLastCommit bData bEvidence].
  apply bind_Done_inv in E1 as ([x lc'] & E1 & Er). injection Er as <- <-.
  destruct (Commit_Hash_memo commit x lc' Ec E1) as (c' & -> & Hs & Hh & Hv).
  apply bind_Done_inv in E2 as ([y d] & E2 & Er). injection Er as <- <-. destruct (Data_Hash_memo _ _ _ E2) as (Ht & Hd & Hvd).
  apply bind_Done_inv in E3 as ([z e] & E3 & Er). injection Er as <- <-. rewrite (EvidenceData_Hash_memo _ _ E3).
  exists c'. by split_and!.
Qed.

Context {BC : BlockCodec}.

(** What a proposer must have to make a block on top of the state: a commit for the last
    block whose median time is after it, and an address among the validators *)
Record proposable (s : State) (commit : Commit) (proposer resultHash : bytes) : Prop := {
  pr_chain : Z.of_nat (length (stChainID s)) <= MaxChainIDLen;
  pr_blockID : BlockID_ValidateBasic (stLastBlockID s) = None;
  pr_maxNum : 0 <= epMaxNum (cpEvidence (stConsensusParams s));
  pr_address : Z.of_nat (length proposer) = AddressSize /\ HasAddress (stValidators s) proposer = true;
  pr_results : ValidateHash resultHash = None;
  pr_memo : cHash commit = None;
  pr_first : stLastBlockHeight s = 0 -> cSignatures commit = [];
  pr_later : 0 < stLastBlockHeight s -> Commit_ValidateBasic commit = None /\
    (exists vals, VerifyCommit (stChainID s) (stLastBlockID s) (stLastBlockHeight s) commit (stLastValidators s) = Done (None, vals)) /\
    stLastBlockTime s < MedianTime commit (stLastValidators s)
}.

Lemma made_header_valid s h c d valHash nextValHash consensusHash appHash resultHash proposer t commit :
  proposable s commit proposer resultHash -> 1 <= h ->
  ValidateHash (sliceOf c) = None -> ValidateHash (sliceOf d) = None -> ValidateHash valHash = None ->
  ValidateHash nextValHash = None -> ValidateHash consensusHash = None ->
  Header_ValidateBasic (Header_Populate (setHeaderHashes (heightHeader h) c d None) (stVersion s) (stChainID s) t
    (stLastBlockID s) valHash nextValHash consensusHash appHash resultHash proposer) = None.
Proof.
  intros [Hc Hb _ [Ha _] Hr _ _ _] Hh V1 V2 V3 V4 V5. unfold Header_ValidateBasic, Header_Populate, setHeaderHashes, checkHash, heightHeader.
  cbn [hChainID hHeight hLastBlockID hLastCommitHash hDataHash hEvidenceHash hProposerAddress hValidatorsHash hNextValidatorsHash
       hConsensusHash hResultsHash].
  rewrite (proj2 (Z.ltb_ge _ _)), (proj2 (Z.ltb_ge h 0)), (proj2 (Z.eqb_neq h 0)), Hb, V1, V2, V3, V4, V5, Hr, Ha, Z.eqb_refl by lia. done.
Qed.

Lemma made_block_basic header c d : Header_ValidateBasic header = None ->
  (1 < hHeight header -> Commit_ValidateBasic c = None) ->
  hLastCommitHash header = cHash c -> hDataHash header = dHash d -> hEvidenceHash header = None ->
  Commit_Hash (Some c) = Done (sliceOf (cHash c), Some c) -> Data_Hash d = Done (sliceOf (dHash d), d) ->
  let b := mkBlock header d (mkEvidenceData [] None) (Some c) in Block_ValidateBasic (Some b) = Done (None, Some b).
Proof.
  intros Hv Hc El Ed Ee Hch Hdh b. unfold Block_ValidateBasic, b. cbn [bHeader bLastCommit bData bEvidence]. rewrite Hv.
  assert ((if 1 <? hHeight header then Commit_ValidateBasic c else None) = None) as ->.
  { destruct (Z.ltb_spec 1 (hHeight header)); [by apply Hc|done]. }
  rewrite Hch, bind_Done. cbn [bHeader bLastCommit bData bEvidence]. rewrite El, bool_decide_eq_true_2 by done. cbn [negb].
  rewrite Hdh, bind_Done. cbn [bHeader bLastCommit bData bEvidence]. rewrite Ed, bool_decide_eq_true_2 by done. cbn [negb].
  cbn [edEvidence checkEvidence]. rewrite bind_Done. cbn [bHeader bLastCommit bData bEvidence]. rewrite Ee. reflexivity.
Qed.

Lemma validateHeaderInfo_made s h c d vh nvh ch appHash resultHash proposer t :
  stLastBlockHeight s + 1 = h -> int64 h -> ValidatorSet_Hash (stValidators s) = Done vh ->
  ValidatorSet_Hash (stNextValidators s) = Done nvh -> HashConsensusParams (stConsensusParams s) = Done ch ->
  validateHeaderInfo s (Header_Populate (setHeaderHashes (heightHeader h) c d None) (stVersion s) (stChainID s) t
    (stLastBlockID s) vh nvh ch appHash resultHash proposer) = Done None.
Proof.
  intros Eh Hi Ev En Ec. unfold validateHeaderInfo, Header_Populate, setHeaderHashes, heightHeader.
  cbn [hVersion hChainID hHeight hLastBlockID hValidatorsHash hNextValidatorsHash hConsensusHash].
  rewrite !Z.eqb_refl, Eh, wrap64_id, Z.eqb_refl, !(bool_decide_eq_true_2 (stChainID s = _)), (proj2 (BlockID_Equals_eq _ _)) by done.
  cbn [negb orb]. rewrite Ec, bind_Done, bool_decide_eq_true_2, Ev, bind_Done, bool_decide_eq_true_2, En, bind_Done, bool_decide_eq_true_2 by done.
  done.
Qed.

(** The checks of the commit and of the time *)
Lemma made_commit_valid s commit c header proposer resultHash : state_wf s -> stLastBlockHeight s < MaxInt64 ->
  proposable s commit proposer resultHash -> same_commit commit c -> hHeight header = stLastBlockHeight s + 1 ->
  hTime header = (if stLastBlockHeight s + 1 =? 1 then stLastBlockTime s else MedianTime commit (stLastValidators s)) ->
  exists vals, validateLastCommit s header c = Done (None, vals) /\ validateTime (setLastValidators vals s) header c = None.
Proof.
  intros Wf Hmax Hpr Hsame Eh Et. pose proof (sw_height _ Wf) as Hpos. unfold validateLastCommit, validateTime. rewrite Eh.
  destruct (Z.eqb_spec (stLastBlockHeight s + 1) 1) as [E1|E1].
  - destruct Hsame as (_ & _ & _ & ->). rewrite (pr_first _ _ _ _ Hpr) by lia.
    exists (stLastValidators s). split; [done|]. rewrite (proj2 (Z.ltb_ge _ _)), Et by lia. cbn [setLastValidators stLastBlockTime].
    by rewrite Z.eqb_refl.
  - destruct (pr_later _ _ _ _ Hpr) as (_ & (vals & Hvc) & Hm); [lia|]. rewrite (VerifyCommit_same _ _ _ _ _ _ Hsame), wrap64_id by (unfold int64, MinInt64; lia).
    replace (stLastBlockHeight s + 1 - 1) with (stLastBlockHeight s) by lia. rewrite Hvc, bind_Done. exists vals. split; [done|].
    apply VerifyCommit_accepts in Hvc as (-> & _); [|apply Wf]. rewrite (proj2 (Z.ltb_lt _ _)), Et by lia.
    cbn [setLastValidators stLastBlockTime stLastValidators]. rewrite (MedianTime_same commit c (stLastValidators s)) by done.
    by rewrite (proj2 (Z.ltb_lt _ _)), Z.eqb_refl by done.
Qed.

Lemma made_block_valid pool db s txs commit proposer appHash resultHash block parts :
  state_wf s -> stLastBlockHeight s < MaxInt64 -> proposable s commit proposer resultHash ->
  State_MakeBlock s (stLastBlockHeight s + 1) txs (Some commit) [] proposer appHash resultHash = Done (block, parts) ->
  exists s', validateBlock pool db s block = Done (None, (s', block, pool)).
Proof.
  intros Wf Hmax Hpr. pose proof (sw_height _ Wf) as Hpos.
  unfold State_MakeBlock. intros (b & Eb & E)%bind_Done_inv. apply bind_Done_inv in E as (t & Et & E).
  apply bind_Done_inv in E as (vh & Evh & E). apply bind_Done_inv in E as (nvh & Envh & E).
  apply bind_Done_inv in E as (ch & Ech & E). apply bind_Done_inv in E as (ps & _ & E). injection E as <- _.
  destruct (MakeBlock_spec _ _ _ _ (pr_memo _ _ _ _ Hpr) Eb) as (c & Ec & Hsame & _ & Eev & Eh & Hch & Hdh & V1 & V2).
  assert (t = if stLastBlockHeight s + 1 =? 1 then stLastBlockTime s else MedianTime commit (stLastValidators s)) as Etime.
  { by destruct (_ =? 1); injection Et as <-. }
  rewrite Ec, Eev, Eh. set (header := Header_Populate _ _ _ _ _ _ _ _ _ _ _).
  destruct (made_commit_valid s commit c header proposer resultHash) as (vals & Hc & Ht); [done..|].
  unfold validateBlock. rewrite made_block_basic; [..|exact Hch|exact Hdh].
  2: { eapply made_header_valid; [exact Hpr|lia|exact V1|exact V2|..];
      [by eapply ValidatorSet_Hash_valid|by eapply ValidatorSet_Hash_valid|by eapply HashConsensusParams_valid]. }
  2: { change (hHeight header) with (stLastBlockHeight s + 1). intros Hh. rewrite (ValidateBasic_same commit c) by done.
       apply (pr_later _ _ _ _ Hpr). lia. }
  2-4: done.
  rewrite bind_Done. cbn [bHeader bLastCommit bEvidence]. unfold header at 1. rewrite validateHeaderInfo_made; [|done|unfold int64, MinInt64; lia|done..].
  rewrite bind_Done, Hc, bind_Done, Ht. cbn [edEvidence length]. cbn [setLastValidators stConsensusParams].
  rewrite (proj2 (Z.ltb_ge _ _)) by (apply (pr_maxNum _ _ _ _ Hpr)). cbn [verifyAll]. rewrite bind_Done.
  destruct (pr_address _ _ _ _ Hpr) as [Ha Hm]. change (hProposerAddress header) with proposer.
  rewrite Ha, Z.eqb_refl. cbn [negb setLastValidators stValidators]. rewrite Hm. by eexists.
Qed.

End hashes.

End exec.

(** ** Claims *)

Section claims.
Context `{Crypto} (TH : TmHash) (ST : StdTime) (W : Wrappers) (EI : EvidenceImpl) (EM : EvidenceMethods).
Context (EP AP MP : Type) (EPI : EvidencePool EP) (API : AppConn AP) (MPI : Mempool MP).



(** [C21] Two kinds of evidence stop every node.  A block with amnesia evidence, or with
    phantom validator evidence that the node has verified, is valid, but its execution
    panics: the conversion for the application does not know amnesia evidence, and it
    looks for the phantom validator in the validators of the height of the evidence,
    in which [VerifyEvidence] has made sure it is not. *)
Theorem ApplyBlock_evidence_panics (s : State) (blockID : BlockID) (block : Block) (ev : Evidence) (ex : Executor)
    (r : State * Block * option EP) :
  validateBlock (exEvpool ex) (exDB ex) s block = Done (None, r) -> ev ∈ edEvidence (bEvidence block) ->
  (exists polc a b potential, evType ev = AmnesiaType polc a b potential) \/
  (exists l, evType ev = PhantomValidatorType l) /\ (forall p, exEvpool ex = Some p -> ep_IsPending ev p = false) ->
  exists why, ApplyBlock s blockID block ex = Panic why.
Proof.
  intros Ev Hin Hkind. destruct r as [[s1 block1] pool1].
  destruct (validateBlock_accepts _ _ _ _ _ _ _ Ev) as (commit & vals & Eb & _ & _ & _ & _ & _ & _ & Eva & _).
  destruct (ValidateBasic_keeps _ _ _ Eb) as (_ & _ & Eev). rewrite <- Eev in Hin.
  assert (undeliverable (exDB ex) ev) as Hu.
  { destruct Hkind as [Ha|[Hp Hpend]]; [by left|right]. split; [done|].
    destruct (proj2 (verifyAll_accepts _ _ _ _ _ Eva) ev Hin) as [(p & Ep & Hpe)|(header & Hv)]; [|by eexists _, _].
    by rewrite (Hpend p Ep) in Hpe. }
  unfold ApplyBlock, execBlockOnProxyApp, sthen, sget, slift, smodify. rewrite Ev. cbn [exDB setEvpool].
  destruct (getBlockValidatorInfo_panics (hTime (bHeader block1)) (hHeight (bHeader block1)) (bLastCommit block1)
    (exDB ex) _ ev Hin Hu) as [why ->]. by eexists.
Qed.

End claims.

(** *** An example: the first block of the chain of [StateStore] *)

Section example.
Local Existing Instances storeCrypto exampleTmHash exampleStdTime exampleWrappers.

(** Evidence is amnesia evidence of the first validator. *)
#[local] Instance execEvidence : EvidenceImpl := {|
  Evidence := unit;
  protoEvidence := unit;
  evIsConflictingHeaders _ := false;
  evIsPotentialAmnesia _ := false;
  evBytes _ := Done [byte_of_Z 1];
  evValidateBasic _ := Done None;
  EvidenceToProto ev := Done (inr ev);
  EvidenceFromProto ev := Done (inr ev)
|}.
#[local] Instance execMethods : EvidenceMethods := {|
  evType _ := AmnesiaType NewEmptyPOLC 1 0 tt;
  evHeight _ := 1;
  evTime _ := 1000;
  evAddress _ := pkAddress (storeKey 1);
  evEqual _ _ := true;
  evVerify _ _ _ := Done None;
  evVerifyHeader _ _ := Done None
|}.
#[local] Instance execPool : EvidencePool unit := {|
  ep_AddEvidence _ p := (p, None);
  ep_Update _ _ p := p;
  ep_IsCommitted _ _ := false;
  ep_IsPending _ _ := false;
  ep_Header _ _ := None
|}.
(** The application replaces the second validator. *)
#[local] Instance execApp : AppConn unit := {|
  app_DeliverBlock _ app := (app, (Some (mkResponseDeliverBlock []
    [mkValidatorUpdate (mkPublicKey (Some (replicate 32 (byte_of_Z 2)))) 0;
     mkValidatorUpdate (mkPublicKey (Some (replicate 32 (byte_of_Z 3)))) 7] None), None));
  app_Commit app := (app, (Some (mkResponseCommit [] 0), None))
|}.
#[local] Instance execMempool : Mempool unit := {|
  mp_FlushAppConn mp := (mp, None);
  mp_Update _ _ _ _ mp := (mp, None)
|}.
#[local] Instance execCodec : BlockCodec := {|
  pbMarshal _ := inr [byte_of_Z 1];
  pbUnmarshal _ := inl "not used";
  pbSize _ := 1
|}.

Definition execProposer : bytes := pkAddress (storeKey 1).
Definition execMade (evs : list Evidence) : outcome (Block * option PartSet) :=
  State_MakeBlock storeState0 1 [] (Some (NewCommit 0 0 zeroBlockID [])) evs execProposer [] [].
Definition execBlock (evs : list Evidence) : Block :=
  match execMade evs with
  | Done (b, _) => b
  | Panic _ => mkBlock (heightHeader 1) (mkData [] None) (mkEvidenceData [] None) None
  end.
Definition execParts : option PartSet := match execMade [] with Done (_, ps) => ps | Panic _ => None end.
Definition execStart : Executor (EP := unit) (AP := unit) (MP := unit) := mkExecutor storeDB0 tt tt (Some tt) [].

Lemma storeState0_made : MakeGenesisState 0 storeGenesis = Done (inr storeState0).
Proof. by vm_compute. Qed.


Lemma ApplyBlock_evidence_panics_witness :
  exists why, ApplyBlock storeState0 zeroBlockID (execBlock [tt]) execStart = Panic why.
Proof.
  destruct (succeeded_Done (validateBlock (Some tt) storeDB0 storeState0 (execBlock [tt]))) as [r Ev]; [by vm_compute|].
  apply (ApplyBlock_evidence_panics exampleTmHash exampleStdTime exampleWrappers execEvidence execMethods unit unit unit
    execPool execApp execMempool storeState0 zeroBlockID (execBlock [tt]) tt execStart r).
  - exact Ev.
  - assert (edEvidence (bEvidence (execBlock [tt])) = [tt]) as -> by (by vm_compute). by constructor.
  - left. by eexists _, _, _, _.
Defined.

Definition execDone : State * Z * bytes * option error * Executor :=
  match ApplyBlock storeState0 zeroBlockID (execBlock []) execStart with
  | Done r => r
  | Panic _ => ((storeState0, 0, [], None), execStart)
  end.
Definition execState : State := fst (fst (fst (fst execDone))).

Lemma storeAddress_size key : Z.of_nat (length (pkAddress (PubKeyEd25519 key))) = AddressSize.
Proof.
  assert (length (take 20 (key ++ replicate 20 (byte_of_Z 0))) = 20%nat) as E; [|cbn [pkAddress storeCrypto]; by rewrite E].
  rewrite length_take, length_app, length_replicate. lia.
Qed.

Lemma storeDB0_ok :
  db_ok 1 (<[2 := stNextValidators storeState0]> (fun _ => stValidators storeState0)) (fun _ => stConsensusParams storeState0)
    storeState0 storeDB0.
Proof.
  destruct (SaveState_genesis 0 storeGenesis storeState0 storeState0_made) as (db & E & Hok); [discriminate|apply storeState0_plain|].
  assert (SaveState storeState0 emptyDB = Done storeDB0) as E0 by (by vm_compute). rewrite E0 in E. apply Done_inj in E. rewrite E. exact Hok.
Qed.


End example.
