(* ===== verification/HeightVoteSet.v ===== *)
(** * Vote sets of a height

    consensus/types/height_vote_set.go: the prevotes and precommits of every
    round up to the current one, and of at most two later rounds per peer. *)

From Stdlib Require Import ZArith Lia.
From S2P Require Import Prelude SafeMath Proto BitArray Validator ValidatorSet ValidatorSetUpdate.
From S2P Require Import BlockTypes SignBytes CommitVerify VoteSet VoteSetInv VoteSetClaims.
From stdpp Require Import base gmap list option strings numbers sorting relations.

Local Open Scope Z_scope.

Record RoundVoteSet := mkRoundVoteSet { rvsPrevotes : VoteSet; rvsPrecommits : VoteSet }.

Record HeightVoteSet := mkHeightVoteSet {
  hvsChainID : bytes;
  hvsHeight : Z;
  hvsValSet : ValidatorSet;
  hvsRound : Z;
  hvsRoundVoteSets : gmap Z RoundVoteSet;
  hvsPeerCatchupRounds : gmap bytes (list Z)
}.

(** The errors of [AddVote]. *)
Inductive HVSError := HVSVoteError (e : VoteError) | ErrGotVoteFromUnwantedRound.

Definition setRoundVoteSets (m : gmap Z RoundVoteSet) (hvs : HeightVoteSet) : HeightVoteSet :=
  mkHeightVoteSet (hvsChainID hvs) (hvsHeight hvs) (hvsValSet hvs) (hvsRound hvs) m
    (hvsPeerCatchupRounds hvs).
Definition setHvsRound (round : Z) (hvs : HeightVoteSet) : HeightVoteSet :=
  mkHeightVoteSet (hvsChainID hvs) (hvsHeight hvs) (hvsValSet hvs) round (hvsRoundVoteSets hvs)
    (hvsPeerCatchupRounds hvs).
Definition setCatchup (m : gmap bytes (list Z)) (hvs : HeightVoteSet) : HeightVoteSet :=
  mkHeightVoteSet (hvsChainID hvs) (hvsHeight hvs) (hvsValSet hvs) (hvsRound hvs)
    (hvsRoundVoteSets hvs) m.

Definition addRound (round : Z) (hvs : HeightVoteSet) : outcome HeightVoteSet :=
  match hvsRoundVoteSets hvs !! round with
  | Some _ => Panic "addRound() for an existing round"
  | None =>
    let! prevotes := NewVoteSet (hvsChainID hvs) (hvsHeight hvs) round PrevoteType (hvsValSet hvs) in
    let! precommits := NewVoteSet (hvsChainID hvs) (hvsHeight hvs) round PrecommitType (hvsValSet hvs) in
    Done (setRoundVoteSets (<[round := mkRoundVoteSet prevotes precommits]> (hvsRoundVoteSets hvs)) hvs)
  end.

Definition HeightVoteSet_Reset (height : Z) (valSet : ValidatorSet) (hvs : HeightVoteSet)
    : outcome HeightVoteSet :=
  let! hvs := addRound 0 (mkHeightVoteSet (hvsChainID hvs) height valSet (hvsRound hvs) ∅ ∅) in
  Done (setHvsRound 0 hvs).

Definition NewHeightVoteSet (chainID : bytes) (height : Z) (valSet : ValidatorSet)
    : outcome HeightVoteSet :=
  HeightVoteSet_Reset height valSet (mkHeightVoteSet chainID 0 valSet 0 ∅ ∅).

(** [r], [r + 1], ..., [n] numbers. *)
Definition roundsFrom (r : Z) (n : nat) : list Z := (fun k => r + Z.of_nat k) <$> seq 0 n.

(** The loop of [SetRound] ends because the counter passes [round]; at the
    largest [int32] it would wrap around instead. *)
Definition SetRound (round : Z) (hvs : HeightVoteSet) : outcome HeightVoteSet :=
  let! newRound := SafeSubInt32 (hvsRound hvs) 1 in
  if negb (hvsRound hvs =? 0) && (round <? newRound)
  then Panic "SetRound() must increment hvs.round"
  else if round =? MaxInt32 then Panic "the loop over the rounds does not end"
  else
    let! hvs := foldM (fun hvs r =>
        match hvsRoundVoteSets hvs !! r with
        | Some _ => Done hvs
        | None => addRound r hvs
        end) hvs (roundsFrom newRound (Z.to_nat (round - newRound + 1))) in
    Done (setHvsRound round hvs).

Definition getVoteSet (round voteType : Z) (hvs : HeightVoteSet) : outcome (option VoteSet) :=
  match hvsRoundVoteSets hvs !! round with
  | None => Done None
  | Some rvs =>
    if voteType =? PrevoteType then Done (Some (rvsPrevotes rvs))
    else if voteType =? PrecommitType then Done (Some (rvsPrecommits rvs))
    else Panic "Unexpected vote type"
  end.

(** The change that a call on the vote set [getVoteSet round voteType] makes. *)
Definition putVoteSet (round voteType : Z) (vs : VoteSet) (hvs : HeightVoteSet) : HeightVoteSet :=
  match hvsRoundVoteSets hvs !! round with
  | None => hvs
  | Some rvs =>
    let rvs := if voteType =? PrevoteType then mkRoundVoteSet vs (rvsPrecommits rvs)
               else mkRoundVoteSet (rvsPrevotes rvs) vs in
    setRoundVoteSets (<[round := rvs]> (hvsRoundVoteSets hvs)) hvs
  end.

Definition HVS_Prevotes (round : Z) (hvs : HeightVoteSet) : outcome (option VoteSet) :=
  getVoteSet round PrevoteType hvs.
Definition HVS_Precommits (round : Z) (hvs : HeightVoteSet) : outcome (option VoteSet) :=
  getVoteSet round PrecommitType hvs.

(** The loop of [POLInfo], down from [r]; [n] is the number of rounds left. *)
Fixpoint polLoop (n : nat) (r : Z) (hvs : HeightVoteSet) : outcome (Z * BlockID) :=
  match n with
  | O => Done (-1, zeroBlockID)
  | S n' =>
    let! rvs := getVoteSet r PrevoteType hvs in
    match TwoThirdsMajority rvs with
    | (polBlockID, true) => Done (r, polBlockID)
    | (_, false) => polLoop n' (r - 1) hvs
    end
  end.

Definition POLInfo (hvs : HeightVoteSet) : outcome (Z * BlockID) :=
  polLoop (Z.to_nat (hvsRound hvs + 1)) (hvsRound hvs) hvs.

Section hvs.
Context `{Crypto} {ST : StdTime}.

(** [added], the error, and the set after the call. *)
Definition HVS_AddVote (vote : Vote) (peerID : bytes) (hvs : HeightVoteSet)
    : outcome (bool * option HVSError * HeightVoteSet) :=
  if negb (IsVoteTypeValid (vType vote)) then Done (false, None, hvs)
  else
    let! voteSet := getVoteSet (vRound vote) (vType vote) hvs in
    let finish (voteSet : option VoteSet) (hvs : HeightVoteSet) :=
      let! (added, err, vs) := AddVote voteSet (Some vote) in
      Done (added, HVSVoteError <$> err, putVoteSet (vRound vote) (vType vote) vs hvs) in
    match voteSet with
    | Some _ => finish voteSet hvs
    | None =>
      let rndz := default [] (hvsPeerCatchupRounds hvs !! peerID) in
      if (length rndz <? 2)%nat then
        let! hvs := addRound (vRound vote) hvs in
        let! voteSet := getVoteSet (vRound vote) (vType vote) hvs in
        let hvs := setCatchup (<[peerID := rndz ++ [vRound vote]]> (hvsPeerCatchupRounds hvs)) hvs in
        finish voteSet hvs
      else Done (false, Some ErrGotVoteFromUnwantedRound, hvs)
    end.

Definition HVS_SetPeerMaj23 (round voteType : Z) (peerID : bytes) (blockID : BlockID)
    (hvs : HeightVoteSet) : outcome (option error * HeightVoteSet) :=
  if negb (IsVoteTypeValid voteType) then Done (Some "setPeerMaj23: Invalid vote type", hvs)
  else
    let! voteSet := getVoteSet round voteType hvs in
    match voteSet with
    | None => Done (None, hvs)
    | Some _ =>
      let! (err, vs) := SetPeerMaj23 voteSet peerID blockID in
      Done (err, putVoteSet round voteType vs hvs)
    end.

End hvs.

(** ** The invariant *)

Section invariant.
Context `{Crypto} {ST : StdTime}.

(** [vs] is a vote set of [hvs] for the round [r] and the type [ty]. *)
Definition set_of (hvs : HeightVoteSet) (r ty : Z) (vs : VoteSet) : Prop :=
  VoteSetInv vs /\ vsChainID vs = hvsChainID hvs /\ vsHeight vs = hvsHeight hvs /\
  vsRound vs = r /\ vsType vs = ty /\ Validators (vsValSet vs) = Validators (hvsValSet hvs).

Record HVSInv (hvs : HeightVoteSet) : Prop := {
  hi_vals : valset_usable (hvsValSet hvs);
  hi_height : hvsHeight hvs <> 0;
  hi_round : 0 <= hvsRound hvs < MaxInt32;
  hi_sets : forall r rvs, hvsRoundVoteSets hvs !! r = Some rvs ->
    set_of hvs r PrevoteType (rvsPrevotes rvs) /\ set_of hvs r PrecommitType (rvsPrecommits rvs);
  hi_present : forall r, 0 <= r <= hvsRound hvs -> is_Some (hvsRoundVoteSets hvs !! r);
  hi_known : forall r, is_Some (hvsRoundVoteSets hvs !! r) ->
    -1 <= r <= hvsRound hvs \/
    exists peer rs, hvsPeerCatchupRounds hvs !! peer = Some rs /\ r ∈ rs;
  hi_catchup : forall peer rs, hvsPeerCatchupRounds hvs !! peer = Some rs -> (length rs <= 2)%nat
}.

(** The parts that do not change within a height. *)
Definition hvs_frame (hvs hvs' : HeightVoteSet) : Prop :=
  hvsChainID hvs' = hvsChainID hvs /\ hvsHeight hvs' = hvsHeight hvs /\ hvsValSet hvs' = hvsValSet hvs.

Lemma set_of_frame hvs hvs' r ty vs : hvs_frame hvs hvs' -> set_of hvs r ty vs -> set_of hvs' r ty vs.
Proof. intros (E1 & E2 & E3). unfold set_of. by rewrite E1, E2, E3. Qed.

Lemma NewVoteSet_set_of hvs r ty :
  valset_usable (hvsValSet hvs) -> hvsHeight hvs <> 0 ->
  exists vs, NewVoteSet (hvsChainID hvs) (hvsHeight hvs) r ty (hvsValSet hvs) = Done vs /\ set_of hvs r ty vs.
Proof.
  intros U Hh. destruct (NewVoteSet (hvsChainID hvs) (hvsHeight hvs) r ty (hvsValSet hvs)) as [vs|] eqn:E.
  - exists vs. split; [done|]. destruct (NewVoteSet_inv _ _ _ _ _ _ U E) as [I _]. split; [done|].
    unfold NewVoteSet in E. rewrite (proj2 (Z.eqb_neq _ _) Hh) in E. by injection E as <-.
  - unfold NewVoteSet in E. by rewrite (proj2 (Z.eqb_neq _ _) Hh) in E.
Qed.

(** Adding the sets of a round that is not there yet. *)
Lemma addRound_spec hvs r :
  valset_usable (hvsValSet hvs) -> hvsHeight hvs <> 0 -> hvsRoundVoteSets hvs !! r = None ->
  exists rvs, addRound r hvs = Done (setRoundVoteSets (<[r := rvs]> (hvsRoundVoteSets hvs)) hvs) /\
    (set_of hvs r PrevoteType (rvsPrevotes rvs) /\ set_of hvs r PrecommitType (rvsPrecommits rvs)) /\
    NewVoteSet (hvsChainID hvs) (hvsHeight hvs) r PrevoteType (hvsValSet hvs) = Done (rvsPrevotes rvs) /\
    NewVoteSet (hvsChainID hvs) (hvsHeight hvs) r PrecommitType (hvsValSet hvs) = Done (rvsPrecommits rvs).
Proof.
  intros U Hh Hno. unfold addRound. rewrite Hno.
  destruct (NewVoteSet_set_of hvs r PrevoteType U Hh) as (v1 & E1 & S1).
  destruct (NewVoteSet_set_of hvs r PrecommitType U Hh) as (v2 & E2 & S2).
  rewrite E1, E2, !bind_Done. by eexists.
Qed.

(** What the loop of [SetRound] does to the sets. *)
Record extended (hvs hvs' : HeightVoteSet) (rs : list Z) : Prop := {
  ex_frame : hvs_frame hvs hvs';
  ex_round : hvsRound hvs' = hvsRound hvs;
  ex_catchup : hvsPeerCatchupRounds hvs' = hvsPeerCatchupRounds hvs;
  ex_keep : forall r rvs, hvsRoundVoteSets hvs !! r = Some rvs -> hvsRoundVoteSets hvs' !! r = Some rvs;
  ex_new : forall r, r ∈ rs -> is_Some (hvsRoundVoteSets hvs' !! r);
  ex_only : forall r rvs, hvsRoundVoteSets hvs' !! r = Some rvs ->
    hvsRoundVoteSets hvs !! r = Some rvs \/
    (r ∈ rs /\ set_of hvs r PrevoteType (rvsPrevotes rvs) /\ set_of hvs r PrecommitType (rvsPrecommits rvs))
}.

Lemma extend_rounds rs hvs :
  valset_usable (hvsValSet hvs) -> hvsHeight hvs <> 0 ->
  exists hvs', foldM (fun hvs r =>
        match hvsRoundVoteSets hvs !! r with
        | Some _ => Done hvs
        | None => addRound r hvs
        end) hvs rs = Done hvs' /\ extended hvs hvs' rs.
Proof.
  revert hvs. induction rs as [|r rs IH]; intros hvs U Hh.
  { exists hvs. split; [done|]. split; try done; [by intros r Hr; apply elem_of_nil in Hr|auto]. }
  cbn [foldM]. destruct (hvsRoundVoteSets hvs !! r) as [rvs|] eqn:Er.
  - rewrite bind_Done. destruct (IH hvs U Hh) as (hvs' & E & [F1 F2 F3 F4 F5 F6]).
    exists hvs'. split; [done|]. split; try done.
    + intros q [->|Hq]%elem_of_cons; [|auto]. exists rvs. auto.
    + intros q x Hq. destruct (F6 q x Hq) as [?|(? & ?)]; [auto|]. right. split; [set_solver|done].
  - destruct (addRound_spec hvs r U Hh Er) as (rvs & -> & [S1 S2] & _). rewrite bind_Done.
    set (hvs1 := setRoundVoteSets _ hvs). destruct (IH hvs1 U Hh) as (hvs' & E & [F1 F2 F3 F4 F5 F6]).
    exists hvs'. split; [done|]. split; try done.
    + intros q x Hq. apply F4. simpl. rewrite lookup_insert_ne; [done|]. intros ->. congruence.
    + intros q [->|Hq]%elem_of_cons; [|auto]. exists rvs. apply F4. simpl. by rewrite lookup_insert_eq.
    + intros q x Hq. destruct (F6 q x Hq) as [Hq'|(? & ?)]; [|right; split; [set_solver|done]].
      simpl in Hq'. apply lookup_insert_Some in Hq' as [[<- <-]|[_ ?]]; [right|auto].
      split; [set_solver|done].
Qed.

Lemma elem_of_roundsFrom r n q : q ∈ roundsFrom r n <-> r <= q < r + Z.of_nat n.
Proof.
  unfold roundsFrom. rewrite list_elem_of_fmap. split.
  - intros (k & -> & Hk%elem_of_seq). lia.
  - intros Hq. exists (Z.to_nat (q - r)). split; [lia|]. apply elem_of_seq. lia.
Qed.

Lemma SetRound_spec hvs round :
  HVSInv hvs -> hvsRound hvs <= round < MaxInt32 ->
  exists hvs', SetRound round hvs = Done hvs' /\ HVSInv hvs' /\ hvs_frame hvs hvs' /\
    hvsRound hvs' = round /\
    forall r rvs, hvsRoundVoteSets hvs !! r = Some rvs -> hvsRoundVoteSets hvs' !! r = Some rvs.
Proof.
  intros [I1 I2 I3 I4 I5 I6 I7] Hr. unfold SetRound.
  rewrite SafeSubInt32_exact by (unfold int32, MinInt32, MaxInt32 in *; lia).
  unfold exact32. rewrite decide_True by (unfold int32, MinInt32, MaxInt32 in *; lia). rewrite bind_Done.
  rewrite (proj2 (Z.ltb_ge round (hvsRound hvs - 1))), andb_false_r by lia.
  rewrite (proj2 (Z.eqb_neq round MaxInt32)) by lia.
  set (rs := roundsFrom _ _).
  assert (forall q, q ∈ rs <-> hvsRound hvs - 1 <= q <= round) as Hrs
    by (intros q; unfold rs; rewrite elem_of_roundsFrom; lia).
  destruct (extend_rounds rs hvs I1 I2) as (hvs' & -> & [(E1 & E2 & E3) E4 E5 F4 F5 F6]). rewrite bind_Done.
  eexists. split; [done|]. split; [|by split_and!]. split; simpl; rewrite ?E2, ?E3, ?E5; try done; [lia| | |].
  - intros r rvs Hl. assert (hvs_frame hvs (setHvsRound round hvs')) as F by done.
    destruct (F6 r rvs Hl) as [Ho|(_ & S1 & S2)]; [apply I4 in Ho as [S1 S2]|];
      split; by apply (set_of_frame hvs).
  - intros r Hle. destruct (decide (r <= hvsRound hvs)) as [Hle'|].
    + destruct (I5 r ltac:(lia)) as [rvs Hl]. exists rvs. auto.
    + apply F5, Hrs. lia.
  - intros r [rvs Hl]. destruct (F6 r rvs Hl) as [Ho|(Hin%Hrs & _)]; [|lia].
    destruct (I6 r ltac:(eauto)) as [?|?]; [lia|auto].
Qed.

Lemma vote_good_type v : vote_good v -> vType v = PrevoteType \/ vType v = PrecommitType.
Proof.
  intros [_ Hv]. unfold Vote_ValidateBasic in Hv.
  destruct (IsVoteTypeValid (vType v)) eqn:E; [|done]. unfold IsVoteTypeValid in E. lia.
Qed.

Lemma valid_type ty : ty = PrevoteType \/ ty = PrecommitType -> IsVoteTypeValid ty = true.
Proof. by intros [-> | ->]. Qed.

(** The set for a round and a type, and its replacement. *)
Lemma getVoteSet_spec hvs r ty :
  HVSInv hvs -> ty = PrevoteType \/ ty = PrecommitType ->
  exists o, getVoteSet r ty hvs = Done o /\ (o = None <-> hvsRoundVoteSets hvs !! r = None) /\
    forall vs, o = Some vs -> set_of hvs r ty vs.
Proof.
  intros I Hty. unfold getVoteSet. destruct (hvsRoundVoteSets hvs !! r) as [rvs|] eqn:E; [|by exists None].
  destruct (hi_sets _ I r rvs E) as [S1 S2].
  destruct Hty as [-> | ->]; eexists; (split; [done|]); (split; [done|]); by intros vs [= <-].
Qed.

Lemma putVoteSet_inv hvs r ty vs :
  HVSInv hvs -> ty = PrevoteType \/ ty = PrecommitType -> set_of hvs r ty vs ->
  is_Some (hvsRoundVoteSets hvs !! r) ->
  HVSInv (putVoteSet r ty vs hvs) /\ hvs_frame hvs (putVoteSet r ty vs hvs) /\
  hvsRound (putVoteSet r ty vs hvs) = hvsRound hvs /\
  hvsPeerCatchupRounds (putVoteSet r ty vs hvs) = hvsPeerCatchupRounds hvs /\
  getVoteSet r ty (putVoteSet r ty vs hvs) = Done (Some vs) /\
  (forall r' ty', (ty' = PrevoteType \/ ty' = PrecommitType) -> (r', ty') <> (r, ty) ->
     getVoteSet r' ty' (putVoteSet r ty vs hvs) = getVoteSet r' ty' hvs).
Proof.
  intros [I1 I2 I3 I4 I5 I6 I7] Hty S [rvs Hl]. unfold putVoteSet. rewrite Hl.
  set (rvs' := if ty =? PrevoteType then _ else _). set (hvs' := setRoundVoteSets _ hvs).
  assert (hvs_frame hvs hvs') as F by done.
  assert (forall q, is_Some (hvsRoundVoteSets hvs' !! q) <-> is_Some (hvsRoundVoteSets hvs !! q)) as Hdom.
  { intros q. simpl. rewrite lookup_insert_is_Some. destruct (decide (r = q)) as [->|]; naive_solver. }
  destruct (I4 r rvs Hl) as [S1 S2]. split_and!; try done.
  - split; try done.
    + intros q x Hq. simpl in Hq. apply lookup_insert_Some in Hq as [[<- <-]|[_ Hq]]; [|by apply I4].
      unfold rvs'. destruct Hty as [-> | ->]; split; by apply (set_of_frame hvs).
    + intros q Hq. apply Hdom. by apply I5.
    + intros q Hq%Hdom. by apply I6.
  - unfold getVoteSet. simpl. rewrite lookup_insert_eq. unfold rvs'. by destruct Hty as [-> | ->].
  - intros r' ty' Hty' Hne. unfold getVoteSet. simpl. destruct (decide (r = r')) as [->|].
    + rewrite lookup_insert_eq, Hl. unfold rvs'.
      destruct Hty as [-> | ->], Hty' as [-> | ->]; done.
    + by rewrite lookup_insert_ne.
Qed.

(** What a call of [AddVote] returns and leaves. *)
Inductive hvs_outcome (hvs : HeightVoteSet) (vote : Vote) (peer : bytes)
    : bool -> option HVSError -> HeightVoteSet -> Prop :=
  | ho_unwanted rs :
      hvsRoundVoteSets hvs !! vRound vote = None ->
      hvsPeerCatchupRounds hvs !! peer = Some rs -> length rs = 2%nat ->
      hvs_outcome hvs vote peer false (Some ErrGotVoteFromUnwantedRound) hvs
  | ho_vote vs added err vs' hvs' :
      (getVoteSet (vRound vote) (vType vote) hvs = Done (Some vs) \/
       (hvsRoundVoteSets hvs !! vRound vote = None /\
        NewVoteSet (hvsChainID hvs) (hvsHeight hvs) (vRound vote) (vType vote) (hvsValSet hvs) = Done vs)) ->
      add_outcome vs vote added err vs' ->
      getVoteSet (vRound vote) (vType vote) hvs' = Done (Some vs') ->
      (forall r ty, (ty = PrevoteType \/ ty = PrecommitType) -> r <> vRound vote \/ (ty <> vType vote /\
         is_Some (hvsRoundVoteSets hvs !! vRound vote)) -> getVoteSet r ty hvs' = getVoteSet r ty hvs) ->
      hvs_outcome hvs vote peer added (HVSVoteError <$> err) hvs'.

Lemma set_of_add hvs vs vote added err vs' :
  set_of hvs (vRound vote) (vType vote) vs -> add_outcome vs vote added err vs' ->
  set_of hvs (vRound vote) (vType vote) vs'.
Proof.
  intros (I & E1 & E2 & E3 & E4 & E5) O. destruct (outcome_inv _ _ _ _ _ I O) as (I' & (F1 & F2 & F3 & F4 & F5) & _).
  split; [done|]. by rewrite F1, F2, F3, F4, F5.
Qed.

(** A call on a set that is there. *)
Lemma addVote_known hvs vote bz vs :
  HVSInv hvs -> vote_good vote -> VoteSignBytes (hvsChainID hvs) (Vote_ToProto vote) = Done bz ->
  getVoteSet (vRound vote) (vType vote) hvs = Done (Some vs) ->
  exists added err vs', AddVote (Some vs) (Some vote) = Done (added, err, vs') /\
    add_outcome vs vote added err vs' /\ set_of hvs (vRound vote) (vType vote) vs' /\
    is_Some (hvsRoundVoteSets hvs !! vRound vote).
Proof.
  intros I G Hb Hg. pose proof (vote_good_type vote G) as Hty.
  destruct (getVoteSet_spec hvs (vRound vote) (vType vote) I Hty) as (o & Eo & Hno & Hs).
  rewrite Hg in Eo. injection Eo as <-. specialize (Hs vs eq_refl).
  destruct (AddVote_spec vs vote bz) as (a & e & vs' & E & O); [apply Hs|done| |].
  { destruct Hs as (_ & -> & _). done. }
  exists a, e, vs'. split_and!; try done; [by eapply set_of_add|].
  destruct (hvsRoundVoteSets hvs !! vRound vote) eqn:El; [eauto|]. by destruct Hno as [_ Hno]; specialize (Hno eq_refl).
Qed.

Lemma HVS_AddVote_spec hvs vote peer bz :
  HVSInv hvs -> vote_good vote -> VoteSignBytes (hvsChainID hvs) (Vote_ToProto vote) = Done bz ->
  exists added err hvs', HVS_AddVote vote peer hvs = Done (added, err, hvs') /\
    hvs_outcome hvs vote peer added err hvs' /\ HVSInv hvs' /\ hvs_frame hvs hvs' /\
    hvsRound hvs' = hvsRound hvs.
Proof.
  intros I G Hb. pose proof (vote_good_type vote G) as Hty. unfold HVS_AddVote.
  rewrite (valid_type _ Hty). cbn [negb].
  destruct (getVoteSet_spec hvs (vRound vote) (vType vote) I Hty) as (o & Eo & Hno & Hs).
  rewrite Eo, bind_Done. destruct o as [vs|].
  - destruct (addVote_known hvs vote bz vs I G Hb Eo) as (a & e & vs' & -> & O & S & Hin).
    rewrite bind_Done. do 3 eexists. split; [done|].
    destruct (putVoteSet_inv hvs (vRound vote) (vType vote) vs' I Hty S Hin) as (I' & F & Er & _ & Eg & Hoth).
    split_and!; [|done..]. eapply ho_vote; [by left|done|done|].
    intros r ty Ht Hne. apply Hoth; [done|]. naive_solver.
  - destruct Hno as [Hno _]. specialize (Hno eq_refl). set (rs := default [] _).
    destruct (Nat.ltb_spec (length rs) 2) as [Hlt|Hge]; cycle 1.
    { do 3 eexists. split; [done|]. split_and!; try done.
      unfold rs in Hge. destruct (hvsPeerCatchupRounds hvs !! peer) as [l|] eqn:El; [|simpl in Hge; lia].
      eapply ho_unwanted; [done..|]. pose proof (hi_catchup _ I peer l El). simpl in Hge. unfold id in Hge. lia. }
    destruct (addRound_spec hvs (vRound vote) (hi_vals _ I) (hi_height _ I) Hno) as (rvs & Ea & [S1 S2] & N1 & N2).
    rewrite Ea, bind_Done. set (hvs1 := setRoundVoteSets _ hvs).
    set (hvs2 := setCatchup _ hvs1).
    assert (HVSInv hvs2) as I2.
    { destruct I as [I1 I2 I3 I4 I5 I6 I7]. split; try done.
      - intros r x Hr. simpl in Hr. apply lookup_insert_Some in Hr as [[<- <-]|[_ Hr]]; [done|].
        destruct (I4 r x Hr). split; by apply (set_of_frame hvs).
      - intros r Hr. simpl. rewrite lookup_insert_is_Some. destruct (decide (vRound vote = r)); [by left|auto].
      - intros r Hr. simpl in Hr |- *. apply lookup_insert_is_Some in Hr as [<-|[_ Hr]].
        + right. exists peer, (rs ++ [vRound vote]). rewrite lookup_insert_eq. split; [done|set_solver].
        + destruct (I6 r Hr) as [?|(p & l & Hp & Hin)]; [by left|right].
          destruct (decide (p = peer)) as [->|].
          * exists peer, (rs ++ [vRound vote]). rewrite lookup_insert_eq. split; [done|].
            unfold rs. rewrite Hp. set_solver.
          * exists p, l. by rewrite lookup_insert_ne.
      - intros p l Hp. simpl in Hp. apply lookup_insert_Some in Hp as [[_ <-]|[_ Hp]]; [|by eapply I7].
        rewrite length_app. simpl. lia. }
    assert (exists vs, getVoteSet (vRound vote) (vType vote) hvs2 = Done (Some vs) /\
              NewVoteSet (hvsChainID hvs) (hvsHeight hvs) (vRound vote) (vType vote) (hvsValSet hvs) = Done vs)
      as (vs & Eg2 & En).
    { unfold getVoteSet. simpl. rewrite lookup_insert_eq. destruct Hty as [-> | ->]; eauto. }
    change (getVoteSet (vRound vote) (vType vote) hvs1) with (getVoteSet (vRound vote) (vType vote) hvs2).
    rewrite Eg2, bind_Done.
    destruct (addVote_known hvs2 vote bz vs I2 G Hb Eg2) as (a & e & vs' & -> & O & S & Hin).
    rewrite bind_Done. do 3 eexists. split; [done|].
    destruct (putVoteSet_inv hvs2 (vRound vote) (vType vote) vs' I2 Hty S Hin) as (I' & F & Er & _ & Eg & Hoth).
    split_and!; [|done..]. eapply ho_vote; [by right|done|done|].
    intros r ty Ht [Hne|[_ [x Hx]]]; [|congruence]. rewrite Hoth by naive_solver.
    unfold getVoteSet. simpl. by rewrite lookup_insert_ne.
Qed.

Lemma HVS_SetPeerMaj23_spec hvs r ty peer b :
  HVSInv hvs -> blockID_good b ->
  exists err hvs', HVS_SetPeerMaj23 r ty peer b hvs = Done (err, hvs') /\
    HVSInv hvs' /\ hvs_frame hvs hvs' /\ hvsRound hvs' = hvsRound hvs.
Proof.
  intros I G. unfold HVS_SetPeerMaj23. destruct (IsVoteTypeValid ty) eqn:Ev; cbn [negb]; [|by do 2 eexists].
  assert (ty = PrevoteType \/ ty = PrecommitType) as Hty by (unfold IsVoteTypeValid in Ev; lia).
  destruct (getVoteSet_spec hvs r ty I Hty) as (o & -> & Hno & Hs). rewrite bind_Done.
  destruct o as [vs|]; [|by do 2 eexists]. specialize (Hs vs eq_refl).
  assert (is_Some (hvsRoundVoteSets hvs !! r)) as Hin.
  { destruct (hvsRoundVoteSets hvs !! r) eqn:El; [eauto|]. destruct Hno as [_ Hno]. by specialize (Hno eq_refl). }
  destruct Hs as (Iv & E1 & E2 & E3 & E4 & E5).
  destruct (SetPeerMaj23_spec vs peer b Iv G) as (err & vs' & -> & I' & (F1 & F2 & F3 & F4 & F5) & _).
  rewrite bind_Done. do 2 eexists. split; [done|].
  destruct (putVoteSet_inv hvs r ty vs' I Hty) as (I2 & F & Er & _); [|done|done].
  split; [done|]. by rewrite F1, F2, F3, F4, F5.
Qed.

Lemma NewHeightVoteSet_inv chainID height vals hvs :
  valset_usable vals -> NewHeightVoteSet chainID height vals = Done hvs -> HVSInv hvs /\
  hvsChainID hvs = chainID /\ hvsHeight hvs = height /\ hvsValSet hvs = vals.
Proof.
  intros U E. unfold NewHeightVoteSet, HeightVoteSet_Reset in E. cbn [hvsChainID hvsRound] in E.
  set (h0 := mkHeightVoteSet _ _ _ _ _ _) in E.
  destruct (Z.eq_dec height 0) as [->|Hh].
  { unfold addRound, NewVoteSet in E. simpl in E. done. }
  destruct (addRound_spec h0 0 U Hh) as (rvs & Ea & [S1 S2] & _); [apply lookup_empty|].
  rewrite Ea, bind_Done in E. injection E as <-. split; [|done].
  split; simpl; try done.
  - intros r x Hr. apply lookup_insert_Some in Hr as [[<- <-]|[_ Hr]]; [|by rewrite lookup_empty in Hr].
    split; by apply (set_of_frame h0).
  - intros r Hr. assert (r = 0) as -> by lia. by rewrite lookup_insert_eq.
  - intros r Hr. apply lookup_insert_is_Some in Hr as [<-|[_ [x Hr]]]; [lia|by rewrite lookup_empty in Hr].
Qed.

(** ** Sequences of calls *)

Inductive hvs_step : HeightVoteSet -> HeightVoteSet -> Prop :=
  | hs_add hvs vote peer bz added err hvs' :
      vote_good vote -> VoteSignBytes (hvsChainID hvs) (Vote_ToProto vote) = Done bz ->
      HVS_AddVote vote peer hvs = Done (added, err, hvs') -> hvs_step hvs hvs'
  | hs_peer hvs r ty peer b err hvs' :
      blockID_good b -> HVS_SetPeerMaj23 r ty peer b hvs = Done (err, hvs') -> hvs_step hvs hvs'
  | hs_round hvs round hvs' :
      hvsRound hvs <= round < MaxInt32 -> SetRound round hvs = Done hvs' -> hvs_step hvs hvs'.

Lemma hvs_step_inv hvs hvs' :
  HVSInv hvs -> hvs_step hvs hvs' -> HVSInv hvs' /\ hvs_frame hvs hvs' /\ hvsRound hvs <= hvsRound hvs'.
Proof.
  intros I St. destruct St as [hvs vote peer bz a e hvs' G Hb E|hvs r ty peer b e hvs' G E|hvs round hvs' Hr E].
  - destruct (HVS_AddVote_spec hvs vote peer bz I G Hb) as (a' & e' & h & E' & _ & I' & F & Er).
    rewrite E in E'. injection E' as <- <- <-. split_and!; [done..|lia].
  - destruct (HVS_SetPeerMaj23_spec hvs r ty peer b I G) as (e' & h & E' & I' & F & Er).
    rewrite E in E'. injection E' as <- <-. split_and!; [done..|lia].
  - destruct (SetRound_spec hvs round I Hr) as (h & E' & I' & F & Er & _).
    rewrite E in E'. injection E' as <-. split_and!; [done..|lia].
Qed.

Lemma hvs_steps_inv hvs hvs' :
  HVSInv hvs -> rtc hvs_step hvs hvs' -> HVSInv hvs' /\ hvs_frame hvs hvs' /\ hvsRound hvs <= hvsRound hvs'.
Proof.
  intros I St. induction St as [h|h h1 h' H1 St IH]; [done|].
  destruct (hvs_step_inv _ _ I H1) as (I1 & (A1 & A2 & A3) & R1). destruct (IH I1) as (I' & (B1 & B2 & B3) & R').
  split; [done|]. split; [|lia]. unfold hvs_frame. by rewrite B1, B2, B3.
Qed.

(** ** The number of rounds kept *)

Lemma rounds_bound hvs :
  HVSInv hvs ->
  Z.of_nat (size (hvsRoundVoteSets hvs))
    <= hvsRound hvs + 2 + 2 * Z.of_nat (size (hvsPeerCatchupRounds hvs)).
Proof.
  intros I. set (catchup := mjoin (map_to_list (hvsPeerCatchupRounds hvs)).*2).
  set (l := roundsFrom (-1) (Z.to_nat (hvsRound hvs + 2)) ++ catchup).
  pose proof (hi_round _ I) as Hr.
  assert (dom (hvsRoundVoteSets hvs) ⊆ (list_to_set l : gset Z)) as Hsub.
  { intros r Hin. apply elem_of_dom in Hin. apply elem_of_list_to_set, elem_of_app.
    destruct (hi_known _ I r Hin) as [Hle|(p & rs & Hp & Hrs)]; [left; apply elem_of_roundsFrom; lia|right].
    apply list_elem_of_join. exists rs. split; [done|]. apply list_elem_of_fmap. exists (p, rs).
    split; [done|]. by apply elem_of_map_to_list. }
  assert (forall kvs : list (bytes * list Z), Forall (fun kv => (length (kv.2) <= 2)%nat) kvs ->
            (length (mjoin kvs.*2) <= 2 * length kvs)%nat) as Hjoin.
  { induction 1 as [|kv kvs Hkv _ IHk]; [done|]. cbn [fmap list_fmap]. simpl. rewrite length_app. lia. }
  assert (length catchup <= 2 * size (hvsPeerCatchupRounds hvs))%nat as Hc.
  { rewrite <- length_map_to_list. apply Hjoin, Forall_forall. intros [p rs] Hin.
    apply elem_of_map_to_list in Hin. by apply (hi_catchup _ I p). }
  apply subseteq_size in Hsub. rewrite size_dom in Hsub.
  assert (size (list_to_set l : gset Z) <= length l)%nat as Hsz.
  { rewrite <- (list_to_set_elements_L (list_to_set l : gset Z)) at 1.
    rewrite size_list_to_set by apply NoDup_elements. apply submseteq_length, NoDup_submseteq; [apply NoDup_elements|].
    intros x Hx. by apply elem_of_elements, elem_of_list_to_set in Hx. }
  assert (length l = Z.to_nat (hvsRound hvs + 2) + length catchup)%nat as Hl
    by (unfold l, roundsFrom; by rewrite length_app, length_fmap, length_seq). lia.
Qed.

(** ** The proof-of-lock round *)

(** The majority of the prevotes of the round [r], if any. *)
Definition polka (hvs : HeightVoteSet) (r : Z) : option BlockID :=
  match hvsRoundVoteSets hvs !! r with Some rvs => vsMaj23 (rvsPrevotes rvs) | None => None end.

Lemma polLoop_spec n r hvs :
  (Z.of_nat n = r + 1) ->
  exists polRound b, polLoop n r hvs = Done (polRound, b) /\ -1 <= polRound <= r /\
    (forall q, polRound < q <= r -> polka hvs q = None) /\
    (if decide (0 <= polRound) then polka hvs polRound = Some b else b = zeroBlockID).
Proof.
  revert r. induction n as [|n IH]; intros r Hn.
  { exists (-1), zeroBlockID. split; [done|]. split_and!; [lia..| |by rewrite decide_False by lia]. intros q Hq. lia. }
  cbn [polLoop]. unfold getVoteSet. destruct (hvsRoundVoteSets hvs !! r) as [rvs|] eqn:El.
  - cbn [Z.eqb]. change (PrevoteType =? PrevoteType) with true. cbn match. rewrite bind_Done.
    unfold TwoThirdsMajority. destruct (vsMaj23 (rvsPrevotes rvs)) as [b|] eqn:Em.
    + exists r, b. split; [done|]. split_and!; [lia..|intros q Hq; lia|].
      rewrite decide_True by lia. unfold polka. by rewrite El.
    + destruct (IH (r - 1) ltac:(lia)) as (p & b & E & Hp & Hno & Hm). exists p, b. split; [done|].
      split_and!; [lia..| |done]. intros q Hq. destruct (decide (q = r)) as [->|]; [|apply Hno; lia].
      unfold polka. by rewrite El.
  - rewrite bind_Done. simpl.
    destruct (IH (r - 1) ltac:(lia)) as (p & b & E & Hp & Hno & Hm). exists p, b. split; [done|].
    split_and!; [lia..| |done]. intros q Hq. destruct (decide (q = r)) as [->|]; [|apply Hno; lia].
    unfold polka. by rewrite El.
Qed.

End invariant.

(** ** Claims *)

(** The vote sets of a height after any sequence of calls. *)
Definition hvs_reachable `{Crypto} {ST : StdTime} (chainID : bytes) (height : Z) (vals : ValidatorSet)
    (hvs : HeightVoteSet) : Prop :=
  valset_usable vals /\
  exists hvs0, NewHeightVoteSet chainID height vals = Done hvs0 /\ rtc hvs_step hvs0 hvs.

Lemma hvs_reachable_inv `{Crypto} {ST : StdTime} chainID height vals hvs :
  hvs_reachable chainID height vals hvs ->
  HVSInv hvs /\ hvsChainID hvs = chainID /\ hvsHeight hvs = height /\ hvsValSet hvs = vals.
Proof.
  intros (U & h0 & E & St). destruct (NewHeightVoteSet_inv _ _ _ _ U E) as (I & E1 & E2 & E3).
  destruct (hvs_steps_inv _ _ I St) as (I' & (F1 & F2 & F3) & _). split; [done|]. by rewrite F1, F2, F3.
Qed.

(** In every reachable set, [AddVote] of a vote that passed its basic
    validation never panics: it refuses the vote of a peer that has already
    opened two rounds beyond the ones kept, and otherwise does to the vote set
    of the vote's round and type what [VoteSet.AddVote] does, and leaves all
    other sets alone. *)
Theorem HVS_AddVote_correct `{Crypto} {ST : StdTime} chainID height vals hvs vote peer bz :
  hvs_reachable chainID height vals hvs -> vote_good vote ->
  VoteSignBytes chainID (Vote_ToProto vote) = Done bz ->
  exists added err hvs', HVS_AddVote vote peer hvs = Done (added, err, hvs') /\
    hvs_outcome hvs vote peer added err hvs'.
Proof.
  intros R G Hb. destruct (hvs_reachable_inv _ _ _ _ R) as (I & E1 & _).
  destruct (HVS_AddVote_spec hvs vote peer bz I G) as (a & e & h & E & O & _); [by rewrite E1|]. eauto.
Qed.

(** Peers cannot make a node keep arbitrarily many rounds: a
    reachable set holds at most two rounds per peer beyond those up to its
    own round, and [SetRound] to a later round always succeeds. *)
Theorem HVS_bounded `{Crypto} {ST : StdTime} chainID height vals hvs :
  hvs_reachable chainID height vals hvs ->
  (forall peer rs, hvsPeerCatchupRounds hvs !! peer = Some rs -> (length rs <= 2)%nat) /\
  Z.of_nat (size (hvsRoundVoteSets hvs))
    <= hvsRound hvs + 2 + 2 * Z.of_nat (size (hvsPeerCatchupRounds hvs)) /\
  (forall round, hvsRound hvs <= round < MaxInt32 ->
     exists hvs', SetRound round hvs = Done hvs' /\ hvsRound hvs' = round /\
       forall r, 0 <= r <= round -> is_Some (hvsRoundVoteSets hvs' !! r)).
Proof.
  intros R. destruct (hvs_reachable_inv _ _ _ _ R) as (I & _).
  split_and!; [apply (hi_catchup _ I)|by apply rounds_bound|].
  intros round Hr. destruct (SetRound_spec hvs round I Hr) as (h & E & I' & _ & Er & _).
  exists h. split_and!; [done..|]. intros r Hr'. apply (hi_present _ I'). lia.
Qed.

(** [POLInfo] returns the last round up to the current one whose
    prevotes have a majority, with the block that distinct members with more
    than two thirds of the power prevoted for in that round, and -1 when there
    is no such round. *)
Theorem POLInfo_correct `{Crypto} {ST : StdTime} chainID height vals hvs :
  hvs_reachable chainID height vals hvs ->
  exists polRound b, POLInfo hvs = Done (polRound, b) /\ -1 <= polRound <= hvsRound hvs /\
    (forall r, polRound < r <= hvsRound hvs -> polka hvs r = None) /\
    (0 <= polRound -> exists vs signers, getVoteSet polRound PrevoteType hvs = Done (Some vs) /\
       NoDup signers /\ (forall v, v ∈ signers -> v ∈ Validators vals /\ votedFor vs b v) /\
       2 * sumZ VotingPower (Validators vals) < 3 * sumZ VotingPower signers).
Proof.
  intros R. destruct (hvs_reachable_inv _ _ _ _ R) as (I & _ & _ & Ev). pose proof (hi_round _ I) as Hr.
  destruct (polLoop_spec (Z.to_nat (hvsRound hvs + 1)) (hvsRound hvs) hvs ltac:(lia)) as (p & b & E & Hp & Hno & Hm).
  exists p, b. split_and!; [done|lia|lia|done|]. intros Hp0. rewrite decide_True in Hm by done.
  unfold polka in Hm. destruct (hvsRoundVoteSets hvs !! p) as [rvs|] eqn:El; [|done].
  destruct (hi_sets _ I p rvs El) as [(Iv & _ & _ & _ & _ & Em) _].
  destruct (majority_signers _ _ Iv Hm) as (signers & N & S & Q). rewrite Em, Ev in S, Q.
  exists (rvsPrevotes rvs), signers. split_and!; try done. unfold getVoteSet. by rewrite El.
Qed.

(** ** A concrete instance *)

Definition exampleHVS : HeightVoteSet :=
  match NewHeightVoteSet exampleChain 5 exampleSet with
  | Done h => h
  | Panic _ => mkHeightVoteSet [] 0 exampleSet 0 ∅ ∅
  end.

Lemma exampleHVS_reachable :
  hvs_reachable (H := exampleCrypto) (ST := exampleStdTime) exampleChain 5 exampleSet exampleHVS.
Proof. split; [apply exampleSet_usable|]. exists exampleHVS. by split. Qed.

Lemma HVS_AddVote_correct_witness :
  exists added err hvs', HVS_AddVote (H := exampleCrypto) (ST := exampleStdTime)
    (examplePrecommit 1 0 (exampleValidator 1 10 3)) [byte_of_Z 1] exampleHVS = Done (added, err, hvs').
Proof.
  destruct (VoteSignBytes (ST := exampleStdTime) exampleChain
    (Vote_ToProto (examplePrecommit 1 0 (exampleValidator 1 10 3)))) as [bz|] eqn:E;
    [|by vm_compute in E].
  destruct (HVS_AddVote_correct (H := exampleCrypto) (ST := exampleStdTime) exampleChain 5 exampleSet
    exampleHVS (examplePrecommit 1 0 (exampleValidator 1 10 3)) [byte_of_Z 1] bz
    exampleHVS_reachable ltac:(by repeat split; vm_compute) E) as (a & e & h & Ha & _).
  exists a, e, h. exact Ha.
Defined.

Lemma HVS_bounded_witness :
  exists hvs', SetRound 3 exampleHVS = Done hvs' /\ hvsRound hvs' = 3.
Proof.
  destruct (HVS_bounded (H := exampleCrypto) (ST := exampleStdTime) exampleChain 5 exampleSet exampleHVS
    exampleHVS_reachable) as (_ & _ & Hset).
  destruct (Hset 3 ltac:(by vm_compute)) as (h & E & Er & _). exists h. split; [exact E|exact Er].
Defined.

Lemma POLInfo_correct_witness : exists polRound b, POLInfo exampleHVS = Done (polRound, b) /\ polRound <= 0.
Proof.
  destruct (POLInfo_correct (H := exampleCrypto) (ST := exampleStdTime) exampleChain 5 exampleSet exampleHVS
    exampleHVS_reachable) as (p & b & E & Hp & _).
  exists p, b. split; [exact E|apply Hp].
Defined.
