(* ===== verification/VoteOrigin.v ===== *)
(** * Where the votes of a height come from

    A vote set holds only votes that were passed to [AddVote], so a majority in
    the votes of a height means that members with more than two thirds of the
    power signed votes that were received. *)

From Stdlib Require Import ZArith Lia.
From S2P Require Import Prelude Proto BitArray Validator ValidatorSet ValidatorSetUpdate BlockTypes.
From S2P Require Import SignBytes CommitVerify VoteSet VoteSetInv VoteSetClaims HeightVoteSet.
From stdpp Require Import base gmap list option strings numbers sorting relations.

Local Open Scope Z_scope.

(** ** Origin of the votes of a set *)

Section origin.
Context `{Crypto} {ST : StdTime}.
Variable P : Vote -> Prop.

Definition slots_from (votes : list (option Vote)) : Prop := forall w, Some w ∈ votes -> P w.

Definition set_from (vs : VoteSet) : Prop :=
  slots_from (vsVotes vs) /\
  forall k bv, vsVotesByBlock vs !! k = Some bv -> slots_from (bvVotes bv).

Lemma slots_from_replicate n : slots_from (replicate n None).
Proof. intros w [? _]%elem_of_replicate. done. Qed.

Lemma slots_from_set votes i v votes' :
  slots_from votes -> P v -> set_index votes i (Some v) = Done votes' -> slots_from votes'.
Proof.
  intros Hv Hp E w Hw. apply set_index_Done in E as [_ ->].
  apply list_elem_of_lookup in Hw as [j Hj]. destruct (decide (j = Z.to_nat i)) as [->|].
  - rewrite list_lookup_insert in Hj. case_decide; [|apply Hv; by eapply list_elem_of_lookup_2].
    by injection Hj as ->.
  - rewrite list_lookup_insert_ne in Hj by done. apply Hv. by eapply list_elem_of_lookup_2.
Qed.

Lemma copyVotes_from votes from r :
  slots_from votes -> slots_from from -> copyVotes votes from = Done r -> slots_from r.
Proof.
  revert votes r. induction from as [|o from IH]; intros votes r Hv Hf E.
  { destruct votes; simpl in E; by injection E as <-. }
  assert (slots_from from) as Hf' by (intros w Hw; apply Hf; set_solver).
  destruct o as [v|], votes as [|w votes]; simpl in E; [done| |exact (IH [] r Hv Hf' E)|];
    apply bind_Done_inv in E as (r' & E & [= <-]);
    (assert (slots_from votes) as Hv' by (intros x Hx; apply Hv; set_solver));
    specialize (IH _ _ Hv' Hf' E); intros x [Hx|Hx]%elem_of_cons; auto.
  - apply Hf. rewrite Hx. set_solver.
  - apply Hv. rewrite Hx. set_solver.
Qed.

Lemma addCanonical_from vs vote k p c vs' :
  set_from vs -> P vote -> addCanonical vs vote k p = Done (c, vs') -> set_from vs'.
Proof.
  intros [H1 H2] Hp E. unfold addCanonical in E.
  assert (forall votes bA sum, set_index (vsVotes vs) (vValidatorIndex vote) (Some vote) = Done votes ->
            set_from (setVote votes bA sum vs)) as Hset
    by (intros votes bA sum Es; split; [by eapply slots_from_set|done]).
  apply bind_Done_inv in E as (ex & _ & E). destruct ex as [e|].
  - destruct (BlockID_Equals _ _); [done|]. apply bind_Done_inv in E as (b & _ & E).
    destruct b; [|by injection E as <- <-].
    apply bind_Done_inv in E as (votes & Es & E). apply bind_Done_inv in E as ([? bA] & _ & E).
    injection E as <- <-. auto.
  - apply bind_Done_inv in E as (votes & Es & E). apply bind_Done_inv in E as ([? bA] & _ & E).
    injection E as <- <-. auto.
Qed.

Lemma addToBlock_from vs vote k p bv vs' :
  set_from vs -> P vote -> slots_from (bvVotes bv) -> addToBlock vs vote k p bv = Done vs' -> set_from vs'.
Proof.
  intros [H1 H2] Hp Hb E. unfold addToBlock in E.
  apply bind_Done_inv in E as ([total valSet] & _ & E). apply bind_Done_inv in E as (bv' & Eb & E).
  assert (slots_from (bvVotes bv')) as Hb'.
  { unfold blockVotes_addVerifiedVote in Eb. apply bind_Done_inv in Eb as (ex & _ & Eb).
    destruct ex; [by injection Eb as <-|]. apply bind_Done_inv in Eb as ([? bA] & _ & Eb).
    apply bind_Done_inv in Eb as (votes & Es & Eb). injection Eb as <-. by eapply slots_from_set. }
  assert (forall k' x, <[k := bv']> (vsVotesByBlock vs) !! k' = Some x -> slots_from (bvVotes x)) as Hm.
  { intros k' x Hk. apply lookup_insert_Some in Hk as [[_ <-]|[_ Hk]]; eauto. }
  destruct (_ && _); [|by injection E as <-]. cbn [vsMaj23 setVotesByBlock setValSet] in E.
  destruct (vsMaj23 vs); [by injection E as <-|]. apply bind_Done_inv in E as (votes & Ec & E).
  injection E as <-. split; [|done]. exact (copyVotes_from _ _ _ H1 Hb' Ec).
Qed.

Lemma AddVote_from vs vote a e vs' :
  set_from vs -> P vote -> AddVote (Some vs) (Some vote) = Done (a, e, vs') -> set_from vs'.
Proof.
  intros Hs Hp E. simpl in E. apply bind_Done_inv in E as (k & _ & E).
  destruct (_ <? 0); [by injection E as <- <- <-|]. destruct (_ =? 0)%nat; [by injection E as <- <- <-|].
  destruct (_ || _); [by injection E as <- <- <-|].
  destruct (GetByIndex _ _) as [[la val]|]; [|by injection E as <- <- <-].
  destruct (negb _); [by injection E as <- <- <-|].
  apply bind_Done_inv in E as (kn & _ & E). destruct kn as [x|]; [by destruct (bool_decide _); injection E as <- <- <-|].
  destruct (vPubKey val) as [pk|]; [|done]. apply bind_Done_inv in E as (err & _ & E).
  destruct err as [err|]; [by injection E as <- <- <-|].
  apply bind_Done_inv in E as ([[added c] vs1] & Ev & E).
  assert (set_from vs1) as Hs1.
  { unfold addVerifiedVote in Ev. apply bind_Done_inv in Ev as ([c' vs2] & Ec & Ev).
    pose proof (addCanonical_from _ _ _ _ _ _ Hs Hp Ec) as Hs2.
    destruct (vsVotesByBlock vs2 !! k) as [bv|] eqn:Ek.
    - destruct (_ && _); [by injection Ev as <- <- <-|]. apply bind_Done_inv in Ev as (vs3 & Ea & Ev).
      injection Ev as <- <- <-. eapply addToBlock_from; [exact Hs2|done| |done]. by eapply (proj2 Hs2).
    - destruct (negb _); [by injection Ev as <- <- <-|]. apply bind_Done_inv in Ev as (vs3 & Ea & Ev).
      injection Ev as <- <- <-. eapply addToBlock_from; [exact Hs2|done| |done].
      apply slots_from_replicate. }
  destruct c as [c|].
  - apply bind_Done_inv in E as (x & _ & E). by injection E as <- <- <-.
  - destruct added; [|done]. by injection E as <- <- <-.
Qed.

Lemma NewVoteSet_from chainID height round ty vals vs :
  NewVoteSet chainID height round ty vals = Done vs -> set_from vs.
Proof.
  unfold NewVoteSet. destruct (height =? 0); [done|]. intros [= <-].
  split; [apply slots_from_replicate|]. intros k bv Hk. simpl in Hk. by rewrite lookup_empty in Hk.
Qed.

(** ** Origin of the votes of a height *)

Definition hvs_from (hvs : HeightVoteSet) : Prop :=
  forall r rvs, hvsRoundVoteSets hvs !! r = Some rvs ->
    set_from (rvsPrevotes rvs) /\ set_from (rvsPrecommits rvs).

Lemma addRound_from r hvs hvs' : hvs_from hvs -> addRound r hvs = Done hvs' -> hvs_from hvs'.
Proof.
  intros Hf E. unfold addRound in E. destruct (hvsRoundVoteSets hvs !! r); [done|].
  apply bind_Done_inv in E as (v1 & E1 & E). apply bind_Done_inv in E as (v2 & E2 & E). injection E as <-.
  intros q x Hq. simpl in Hq. apply lookup_insert_Some in Hq as [[_ <-]|[_ Hq]]; [|by eapply Hf].
  split; by eapply NewVoteSet_from.
Qed.

Lemma SetRound_from r hvs hvs' : hvs_from hvs -> SetRound r hvs = Done hvs' -> hvs_from hvs'.
Proof.
  intros Hf E. unfold SetRound in E. apply bind_Done_inv in E as (nr & _ & E).
  destruct (_ && _); [done|]. destruct (_ =? _); [done|]. apply bind_Done_inv in E as (h1 & E & E').
  injection E' as <-. enough (hvs_from h1) by done.
  refine (foldM_Done_inv (fun _ h => hvs_from h) _ _ _ _ Hf _ E).
  intros i r' h h' _ Hh Eh. destruct (hvsRoundVoteSets h !! r'); [by injection Eh as <-|].
  by eapply addRound_from.
Qed.

Lemma getVoteSet_from r ty hvs vs : hvs_from hvs -> getVoteSet r ty hvs = Done (Some vs) -> set_from vs.
Proof.
  intros Hf E. unfold getVoteSet in E. destruct (hvsRoundVoteSets hvs !! r) as [rvs|] eqn:El; [|done].
  destruct (Hf _ _ El). destruct (ty =? PrevoteType); [by injection E as <-|].
  destruct (ty =? PrecommitType); [by injection E as <-|done].
Qed.

Lemma putVoteSet_from r ty vs hvs : hvs_from hvs -> set_from vs -> hvs_from (putVoteSet r ty vs hvs).
Proof.
  intros Hf Hs. unfold putVoteSet. destruct (hvsRoundVoteSets hvs !! r) as [rvs|] eqn:El; [|done].
  intros q x Hq. simpl in Hq. apply lookup_insert_Some in Hq as [[_ <-]|[_ Hq]]; [|by eapply Hf].
  destruct (Hf _ _ El). by destruct (ty =? PrevoteType).
Qed.

Lemma HVS_AddVote_from vote peer hvs a e hvs' :
  hvs_from hvs -> P vote -> HVS_AddVote vote peer hvs = Done (a, e, hvs') -> hvs_from hvs'.
Proof.
  intros Hf Hp E. unfold HVS_AddVote in E. destruct (negb _); [by injection E as <- <- <-|].
  apply bind_Done_inv in E as (o & Eo & E).
  assert (forall vs h, hvs_from h -> set_from vs ->
    (let! (added, err, vs) := AddVote (Some vs) (Some vote) in
      Done (added, HVSVoteError <$> err, putVoteSet (vRound vote) (vType vote) vs h)) = Done (a, e, hvs') ->
    hvs_from hvs') as Hfin.
  { intros vs h Hh Hs Ef. apply bind_Done_inv in Ef as ([[a' e'] vs'] & Ea & Ef). injection Ef as _ _ <-.
    apply putVoteSet_from; [done|]. by eapply AddVote_from. }
  destruct o as [vs|]; [eapply Hfin; [done| |exact E]; by eapply getVoteSet_from|].
  destruct (_ <? _)%nat; [|by injection E as <- <- <-].
  apply bind_Done_inv in E as (h1 & E1 & E). apply bind_Done_inv in E as (o & E2 & E).
  pose proof (addRound_from _ _ _ Hf E1) as Hf1. destruct o as [vs|]; [|done].
  eapply Hfin; [|by eapply getVoteSet_from|exact E]. exact Hf1.
Qed.

Lemma NewHeightVoteSet_from chainID height vals hvs :
  NewHeightVoteSet chainID height vals = Done hvs -> hvs_from hvs.
Proof.
  intros E. unfold NewHeightVoteSet, HeightVoteSet_Reset in E. apply bind_Done_inv in E as (h1 & E & E').
  injection E' as <-. enough (hvs_from h1) by done. eapply addRound_from; [|done].
  intros r rvs Hr. simpl in Hr. by rewrite lookup_empty in Hr.
Qed.

End origin.

(** ** Quorums among received votes *)

Section quorum.
Context `{Crypto} {ST : StdTime}.
Variables (chainID : bytes) (h : Z) (vals : ValidatorSet).

(** [w] is a vote of type [ty] for [b] in the round [r], signed by [val]. *)
Definition signed_by (val : Validator) (ty r : Z) (b : BlockID) (w : Vote) : Prop :=
  vType w = ty /\ vHeight w = h /\ vRound w = r /\ vBlockID w = b /\
  exists pk, vPubKey val = Some pk /\ Vote_Verify w chainID pk = Done None.

(** Members with more than two thirds of the power have such a vote in [R]. *)
Definition quorum (R : list Vote) (ty r : Z) (b : BlockID) : Prop :=
  exists signers, NoDup signers /\
    (forall val, val ∈ signers -> val ∈ Validators vals /\ exists w, w ∈ R /\ signed_by val ty r b w) /\
    2 * sumZ VotingPower (Validators vals) < 3 * sumZ VotingPower signers.

Lemma quorum_mono R R' ty r b : R ⊆ R' -> quorum R ty r b -> quorum R' ty r b.
Proof.
  intros Hsub (l & N & Hl & Hp). exists l. split_and!; [done| |done].
  intros val Hval. destruct (Hl val Hval) as (Hin & w & Hw & Hs). split; [done|]. exists w. auto.
Qed.

(** The majority of a vote set of the height is a quorum. *)
Lemma majority_quorum R hvs r ty vs b :
  HVSInv hvs -> hvs_from (fun w => w ∈ R) hvs ->
  hvsChainID hvs = chainID -> hvsHeight hvs = h -> hvsValSet hvs = vals ->
  ty = PrevoteType \/ ty = PrecommitType -> getVoteSet r ty hvs = Done vs ->
  TwoThirdsMajority vs = (b, true) -> quorum R ty r b.
Proof.
  intros I Hf Ec Eh Ev Hty Eg Hm. destruct vs as [vs|]; [|done].
  destruct (getVoteSet_spec hvs r ty I Hty) as (o & Eo & _ & Hs). rewrite Eg in Eo. injection Eo as <-.
  destruct (Hs vs eq_refl) as (Iv & E1 & E2 & E3 & E4 & E5).
  destruct (majority_signers vs b Iv (proj1 (TwoThirdsMajority_maj vs b) Hm)) as (l & N & Hl & Hp).
  exists l. rewrite <- Ev, <- E5. split_and!; [done| |done]. intros val Hval.
  destruct (Hl val Hval) as [Hin (i & w & Hi & Hw & Hat & Hb)]. split; [done|].
  exists w. split.
  - apply (proj1 (getVoteSet_from _ _ _ _ _ Hf Eg)). by eapply list_elem_of_lookup_2.
  - destruct Hat as (_ & _ & A1 & A2 & A3 & val' & pk & Hv & Hk & _ & Hok).
    assert (val' = val) as -> by congruence. unfold signed_by. split_and!; try congruence.
    exists pk. split; [done|]. by rewrite <- Ec, <- E1.
Qed.

(** A majority is for a round that is not negative: its votes are. *)
Lemma majority_round hvs r ty vs b :
  HVSInv hvs -> ty = PrevoteType \/ ty = PrecommitType -> getVoteSet r ty hvs = Done vs ->
  TwoThirdsMajority vs = (b, true) -> 0 <= r.
Proof.
  intros I Hty Eg Hm. destruct vs as [vs|]; [|done].
  destruct (getVoteSet_spec hvs r ty I Hty) as (o & Eo & _ & Hs). rewrite Eg in Eo. injection Eo as <-.
  destruct (Hs vs eq_refl) as (Iv & E1 & E2 & E3 & E4 & E5).
  destruct (majority_signers vs b Iv (proj1 (TwoThirdsMajority_maj vs b) Hm)) as (l & N & Hl & Hp).
  assert (0 <= sumZ VotingPower (Validators (vsValSet vs))) as Ht
    by (apply sumZ_nonneg, (wf_powers_ok _ (in_wf _ _ _ Iv))).
  destruct l as [|val l]; [rewrite sumZ_nil in Hp; lia|].
  destruct (Hl val ltac:(set_solver)) as [_ (i & w & _ & _ & ([_ Hv] & _ & _ & Er & _) & _)].
  rewrite <- E3, <- Er. unfold Vote_ValidateBasic in Hv.
  destruct (negb (IsVoteTypeValid _)); [done|]. destruct (vHeight w <? 0); [done|].
  destruct (Z.ltb_spec (vRound w) 0); [done|lia].
Qed.

(** Two quorums share a member outside any group with less than a third of the
    power. *)
Lemma quorums_meet R R' ty ty' r r' b b' (faulty : list Validator) :
  VS_wf vals -> (forall v, v ∈ faulty -> v ∈ Validators vals) -> NoDup faulty ->
  3 * sumZ VotingPower faulty < sumZ VotingPower (Validators vals) ->
  quorum R ty r b -> quorum R' ty' r' b' ->
  exists val w w', val ∈ Validators vals /\ val ∉ faulty /\
    w ∈ R /\ signed_by val ty r b w /\ w' ∈ R' /\ signed_by val ty' r' b' w'.
Proof.
  intros W Hf Nf Hlt (l & N & Hl & Hp) (l' & N' & Hl' & Hp').
  pose proof (quorum_overlap vals l l' W N N' (fun v Hv => proj1 (Hl v Hv)) (fun v Hv => proj1 (Hl' v Hv))) as Ho.
  set (both := filter (fun v => v ∈ l') l) in Ho.
  destruct (decide (Exists (fun v => v ∉ faulty) both)) as [(val & Hin & Hno)%Exists_exists|Hnone].
  - apply list_elem_of_filter in Hin as [Hin' Hin].
    destruct (Hl val Hin) as (Hm & w & Hw & Hs), (Hl' val Hin') as (_ & w' & Hw' & Hs').
    by exists val, w, w'.
  - assert (sumZ VotingPower both <= sumZ VotingPower faulty) as Hle; [|lia].
    apply sumZ_submseteq; [|intros v Hv; apply (wf_powers_ok _ W); auto].
    apply NoDup_submseteq; [by apply NoDup_filter|]. intros v Hv. destruct (decide (v ∈ faulty)); [done|].
    destruct Hnone. apply Exists_exists. eauto.
Qed.

End quorum.
