(* ===== verification/Consensus.v ===== *)
(** * The consensus state machine

    consensus/state.go, with the round state of consensus/types/round_state.go
    and the timeouts of config/config.go.  A handler is a function of the state
    that may panic, in a state monad.  The components it drives are classes: the
    private validator, the block executor and the block store.  What it sends,
    schedules, logs and publishes is recorded in a trace.

    The write-ahead log, the metrics and the logger have no effect on the state.
    Part sets are shared between the proposal, locked and valid block, and so
    live in a heap that the state points into.  The time is read from a clock. *)

From Stdlib Require Import ZArith Lia.
From S2P Require Import Prelude SafeMath Proto BitArray Validator ValidatorSet BlockTypes SignBytes.
From S2P Require Import Merkle PartSet Header Block VoteSet LockChange HeightVoteSet.
From stdpp Require Import base gmap list option strings numbers sorting.

Local Open Scope Z_scope.

(** ** Steps *)

Definition RoundStepNewHeight : Z := 1.
Definition RoundStepNewRound : Z := 2.
Definition RoundStepPropose : Z := 3.
Definition RoundStepPrevote : Z := 4.
Definition RoundStepPrevoteWait : Z := 5.
Definition RoundStepPrecommit : Z := 6.
Definition RoundStepPrecommitWait : Z := 7.
Definition RoundStepCommit : Z := 8.

(** [CompareHRS] *)
Definition CompareHRS (h1 r1 s1 h2 r2 s2 : Z) : Z :=
  if h1 <? h2 then -1 else if h2 <? h1 then 1
  else if r1 <? r2 then -1 else if r2 <? r1 then 1
  else if s1 <? s2 then -1 else if s2 <? s1 then 1
  else 0.

(** ** Configuration *)

Record ConsensusConfig := mkConsensusConfig {
  TimeoutPropose : Z;
  TimeoutProposeDelta : Z;
  TimeoutPrevote : Z;
  TimeoutPrevoteDelta : Z;
  TimeoutPrecommit : Z;
  TimeoutPrecommitDelta : Z;
  TimeoutCommit : Z;
  SkipTimeoutCommit : bool;
  CreateEmptyBlocks : bool;
  CreateEmptyBlocksInterval : Z
}.

Definition cfg_WaitForTxs (cfg : ConsensusConfig) : bool :=
  negb (CreateEmptyBlocks cfg) || (0 <? CreateEmptyBlocksInterval cfg).
Definition cfg_Propose (cfg : ConsensusConfig) (round : Z) : Z :=
  wrap64 (TimeoutPropose cfg + wrap64 (TimeoutProposeDelta cfg * round)).
Definition cfg_Prevote (cfg : ConsensusConfig) (round : Z) : Z :=
  wrap64 (TimeoutPrevote cfg + wrap64 (TimeoutPrevoteDelta cfg * round)).
Definition cfg_Precommit (cfg : ConsensusConfig) (round : Z) : Z :=
  wrap64 (TimeoutPrecommit cfg + wrap64 (TimeoutPrecommitDelta cfg * round)).
Definition cfg_Commit (cfg : ConsensusConfig) (t : Time) : Time := t + TimeoutCommit cfg.

(** ** What the machine drives *)

(** The fields of [sm.State] that the consensus reads; the rest belongs to the
    block executor. *)
Record smState (Rest : Type) := mkSmState {
  smChainID : bytes;
  smLastBlockHeight : Z;
  smValidators : option ValidatorSet;
  smLastValidators : option ValidatorSet;
  smTimeIotaMs : Z;
  smRest : Rest
}.
Arguments mkSmState {_} _ _ _ _ _ _.
Arguments smChainID {_} _.
Arguments smLastBlockHeight {_} _.
Arguments smValidators {_} _.
Arguments smLastValidators {_} _.
Arguments smTimeIotaMs {_} _.
Arguments smRest {_} _.

Definition sm_IsEmpty {Rest} (state : smState Rest) : bool :=
  match smValidators state with None => true | Some _ => false end.

(** [types.PrivValidator] *)
Class PrivValidator (PV : Type) := {
  pv_GetPubKey : PV -> result PubKey;
  pv_SignVote : PV -> bytes -> protoVote -> outcome (PV * protoVote * option error);
  pv_SignProposal : PV -> bytes -> protoProposal -> outcome (PV * protoProposal * option error)
}.

(** The block executor with the application, the mempool and the state store *)
Class BlockExecutor {EI : EvidenceImpl} (EX Rest : Type) := {
  ex_ValidateBlock : EX -> smState Rest -> Block -> option error;
  ex_CheckBlock : EX -> Block -> option error;
  ex_CreateProposalBlock : EX -> Z -> smState Rest -> Commit -> bytes -> outcome (option (Block * PartSet));
  ex_ApplyBlock : EX -> smState Rest -> BlockID -> Block -> outcome (EX * result (smState Rest * Z));
  ex_PruneStates : EX -> Z -> Z -> EX * option error
}.

(** The block store *)
Class BlockStore {EI : EvidenceImpl} (BS : Type) := {
  bs_Height : BS -> Z;
  bs_Base : BS -> Z;
  bs_SaveBlock : BS -> Block -> PartSet -> Commit -> outcome BS;
  bs_PruneBlocks : BS -> Z -> BS * result Z;
  bs_LoadSeenCommit : BS -> Z -> option Commit
}.

(** ** Messages, timeouts and effects *)

Inductive Message :=
  | ProposalMessage (proposal : Proposal)
  | BlockPartMessage (height round : Z) (part : option Part)
  | VoteMessage (vote : Vote).

Record timeoutInfo := mkTimeoutInfo { tiDuration : Z; tiHeight : Z; tiRound : Z; tiStep : Z }.

Inductive csError :=
  | ErrInvalidProposalSignature
  | ErrInvalidProposalPOLRound
  | ErrAddingVote
  | ErrPart (e : PartSetError)
  | ErrVote (e : HVSError)
  | ErrOther (e : error).

Inductive csEvent :=
  | EventNewRoundStep | EventNewRound | EventCompleteProposal | EventPolka | EventUnlock | EventRelock
  | EventLock | EventValidBlock | EventTimeoutPropose | EventTimeoutWait | EventVote (vote : Vote).

Inductive effect {EI : EvidenceImpl} :=
  | Schedule (ti : timeoutInfo)
  | SendInternal (msg : Message)
  | Publish (e : csEvent) (height round step : Z)
  | SavedBlock (height : Z) (block : Block) (parts : PartSet) (seenCommit : Commit)
  | WroteEndHeight (height : Z)
  | AppliedBlock (height : Z) (blockID : BlockID) (block : Block)
  | AddedPOLC (polc : option ProofOfLockChange)
  | AddedEvidence (ev : option DuplicateVoteEvidence)
  | SentStats (msg : Message) (peer : bytes).

Section consensus.
Context `{Crypto} {TH : TmHash} {ST : StdTime} {W : Wrappers} {EI : EvidenceImpl} {BC : BlockCodec}.
Context {PV EX BS Rest : Type} `{!PrivValidator PV} `{!BlockExecutor EX Rest} `{!BlockStore BS}.

Variable cfg : ConsensusConfig.
Variable clock : nat -> Time.
Variable readSizes : nat -> nat.

(** ** The state *)

(** The fields of [RoundState]; a part set is an address of the heap. *)
Record RoundState := mkRoundState {
  rsHeight : Z;
  rsRound : Z;
  rsStep : Z;
  rsStartTime : Time;
  rsCommitTime : Time;
  rsValidators : ValidatorSet;
  rsProposal : option Proposal;
  rsProposalBlock : option Block;
  rsProposalBlockParts : option nat;
  rsLockedRound : Z;
  rsLockedBlock : option Block;
  rsLockedBlockParts : option nat;
  rsValidRound : Z;
  rsValidBlock : option Block;
  rsValidBlockParts : option nat;
  rsVotes : HeightVoteSet;
  rsCommitRound : Z;
  rsLastCommit : option VoteSet;
  rsLastValidators : option ValidatorSet;
  rsTriggeredTimeoutPrecommit : bool
}.

Record State := mkState {
  csRS : RoundState;
  csState : smState Rest;
  csPrivValidator : option PV;
  csBlockExec : EX;
  csBlockStore : BS;
  csHeap : list PartSet;
  csTick : nat;
  csTrace : list effect
}.

(** ** The monad *)

Definition M (A : Type) : Type := State -> outcome (A * State).
Definition ret {A} (a : A) : M A := fun s => Done (a, s).
Definition sbind {A B} (m : M A) (f : A -> M B) : M B :=
  fun s => match m s with Done (a, s') => f a s' | Panic why => Panic why end.
Definition lift {A} (m : outcome A) : M A :=
  fun s => match m with Done a => Done (a, s) | Panic why => Panic why end.
Definition panic {A} (why : string) : M A := fun _ => Panic why.
Definition gets {A} (f : State -> A) : M A := fun s => Done (f s, s).
Definition modify (f : State -> State) : M unit := fun s => Done (tt, f s).

Local Notation "'let*' x := m 'in' k" := (sbind m (fun x => k))
  (at level 200, x pattern, m at level 100, k at level 200,
   format "'[v' 'let*'  x  :=  m  'in' '/' k ']'").

Definition theRS : M RoundState := gets csRS.
Definition modifyRS (f : RoundState -> RoundState) : M unit :=
  modify (fun s => mkState (f (csRS s)) (csState s) (csPrivValidator s) (csBlockExec s) (csBlockStore s)
                     (csHeap s) (csTick s) (csTrace s)).
Definition emit (e : effect) : M unit :=
  modify (fun s => mkState (csRS s) (csState s) (csPrivValidator s) (csBlockExec s) (csBlockStore s)
                     (csHeap s) (csTick s) (csTrace s ++ [e])).
Definition setPrivValidator (pv : PV) : M unit :=
  modify (fun s => mkState (csRS s) (csState s) (Some pv) (csBlockExec s) (csBlockStore s)
                     (csHeap s) (csTick s) (csTrace s)).
Definition setBlockExec (ex : EX) : M unit :=
  modify (fun s => mkState (csRS s) (csState s) (csPrivValidator s) ex (csBlockStore s)
                     (csHeap s) (csTick s) (csTrace s)).
Definition setBlockStore (bs : BS) : M unit :=
  modify (fun s => mkState (csRS s) (csState s) (csPrivValidator s) (csBlockExec s) bs
                     (csHeap s) (csTick s) (csTrace s)).
Definition setSmState (st : smState Rest) : M unit :=
  modify (fun s => mkState (csRS s) st (csPrivValidator s) (csBlockExec s) (csBlockStore s)
                     (csHeap s) (csTick s) (csTrace s)).
Definition setHeap (h : list PartSet) : M unit :=
  modify (fun s => mkState (csRS s) (csState s) (csPrivValidator s) (csBlockExec s) (csBlockStore s)
                     h (csTick s) (csTrace s)).

(** [tmtime.Now] *)
Definition Now : M Time :=
  fun s => Done (clock (csTick s),
    mkState (csRS s) (csState s) (csPrivValidator s) (csBlockExec s) (csBlockStore s)
      (csHeap s) (S (csTick s)) (csTrace s)).

(** ** Assignments to the fields of the round state *)

Definition setRoundStep (round step : Z) (r : RoundState) : RoundState :=
  mkRoundState (rsHeight r) round step (rsStartTime r) (rsCommitTime r) (rsValidators r) (rsProposal r)
    (rsProposalBlock r) (rsProposalBlockParts r) (rsLockedRound r) (rsLockedBlock r) (rsLockedBlockParts r)
    (rsValidRound r) (rsValidBlock r) (rsValidBlockParts r) (rsVotes r) (rsCommitRound r) (rsLastCommit r)
    (rsLastValidators r) (rsTriggeredTimeoutPrecommit r).
Definition setValidators (v : ValidatorSet) (r : RoundState) : RoundState :=
  mkRoundState (rsHeight r) (rsRound r) (rsStep r) (rsStartTime r) (rsCommitTime r) v (rsProposal r)
    (rsProposalBlock r) (rsProposalBlockParts r) (rsLockedRound r) (rsLockedBlock r) (rsLockedBlockParts r)
    (rsValidRound r) (rsValidBlock r) (rsValidBlockParts r) (rsVotes r) (rsCommitRound r) (rsLastCommit r)
    (rsLastValidators r) (rsTriggeredTimeoutPrecommit r).
Definition setProposal (p : option Proposal) (r : RoundState) : RoundState :=
  mkRoundState (rsHeight r) (rsRound r) (rsStep r) (rsStartTime r) (rsCommitTime r) (rsValidators r) p
    (rsProposalBlock r) (rsProposalBlockParts r) (rsLockedRound r) (rsLockedBlock r) (rsLockedBlockParts r)
    (rsValidRound r) (rsValidBlock r) (rsValidBlockParts r) (rsVotes r) (rsCommitRound r) (rsLastCommit r)
    (rsLastValidators r) (rsTriggeredTimeoutPrecommit r).
Definition setProposalBlock (b : option Block) (r : RoundState) : RoundState :=
  mkRoundState (rsHeight r) (rsRound r) (rsStep r) (rsStartTime r) (rsCommitTime r) (rsValidators r) (rsProposal r)
    b (rsProposalBlockParts r) (rsLockedRound r) (rsLockedBlock r) (rsLockedBlockParts r)
    (rsValidRound r) (rsValidBlock r) (rsValidBlockParts r) (rsVotes r) (rsCommitRound r) (rsLastCommit r)
    (rsLastValidators r) (rsTriggeredTimeoutPrecommit r).
Definition setProposalBlockParts (p : option nat) (r : RoundState) : RoundState :=
  mkRoundState (rsHeight r) (rsRound r) (rsStep r) (rsStartTime r) (rsCommitTime r) (rsValidators r) (rsProposal r)
    (rsProposalBlock r) p (rsLockedRound r) (rsLockedBlock r) (rsLockedBlockParts r)
    (rsValidRound r) (rsValidBlock r) (rsValidBlockParts r) (rsVotes r) (rsCommitRound r) (rsLastCommit r)
    (rsLastValidators r) (rsTriggeredTimeoutPrecommit r).
Definition setLocked (round : Z) (b : option Block) (p : option nat) (r : RoundState) : RoundState :=
  mkRoundState (rsHeight r) (rsRound r) (rsStep r) (rsStartTime r) (rsCommitTime r) (rsValidators r) (rsProposal r)
    (rsProposalBlock r) (rsProposalBlockParts r) round b p
    (rsValidRound r) (rsValidBlock r) (rsValidBlockParts r) (rsVotes r) (rsCommitRound r) (rsLastCommit r)
    (rsLastValidators r) (rsTriggeredTimeoutPrecommit r).
Definition setValid (round : Z) (b : option Block) (p : option nat) (r : RoundState) : RoundState :=
  mkRoundState (rsHeight r) (rsRound r) (rsStep r) (rsStartTime r) (rsCommitTime r) (rsValidators r) (rsProposal r)
    (rsProposalBlock r) (rsProposalBlockParts r) (rsLockedRound r) (rsLockedBlock r) (rsLockedBlockParts r)
    round b p (rsVotes r) (rsCommitRound r) (rsLastCommit r)
    (rsLastValidators r) (rsTriggeredTimeoutPrecommit r).
Definition setVotes (v : HeightVoteSet) (r : RoundState) : RoundState :=
  mkRoundState (rsHeight r) (rsRound r) (rsStep r) (rsStartTime r) (rsCommitTime r) (rsValidators r) (rsProposal r)
    (rsProposalBlock r) (rsProposalBlockParts r) (rsLockedRound r) (rsLockedBlock r) (rsLockedBlockParts r)
    (rsValidRound r) (rsValidBlock r) (rsValidBlockParts r) v (rsCommitRound r) (rsLastCommit r)
    (rsLastValidators r) (rsTriggeredTimeoutPrecommit r).
Definition setCommit (round : Z) (t : Time) (r : RoundState) : RoundState :=
  mkRoundState (rsHeight r) (rsRound r) (rsStep r) (rsStartTime r) t (rsValidators r) (rsProposal r)
    (rsProposalBlock r) (rsProposalBlockParts r) (rsLockedRound r) (rsLockedBlock r) (rsLockedBlockParts r)
    (rsValidRound r) (rsValidBlock r) (rsValidBlockParts r) (rsVotes r) round (rsLastCommit r)
    (rsLastValidators r) (rsTriggeredTimeoutPrecommit r).
Definition setLastCommit (c : option VoteSet) (r : RoundState) : RoundState :=
  mkRoundState (rsHeight r) (rsRound r) (rsStep r) (rsStartTime r) (rsCommitTime r) (rsValidators r) (rsProposal r)
    (rsProposalBlock r) (rsProposalBlockParts r) (rsLockedRound r) (rsLockedBlock r) (rsLockedBlockParts r)
    (rsValidRound r) (rsValidBlock r) (rsValidBlockParts r) (rsVotes r) (rsCommitRound r) c
    (rsLastValidators r) (rsTriggeredTimeoutPrecommit r).
Definition setTriggered (b : bool) (r : RoundState) : RoundState :=
  mkRoundState (rsHeight r) (rsRound r) (rsStep r) (rsStartTime r) (rsCommitTime r) (rsValidators r) (rsProposal r)
    (rsProposalBlock r) (rsProposalBlockParts r) (rsLockedRound r) (rsLockedBlock r) (rsLockedBlockParts r)
    (rsValidRound r) (rsValidBlock r) (rsValidBlockParts r) (rsVotes r) (rsCommitRound r) (rsLastCommit r)
    (rsLastValidators r) b.

(** ** Helpers *)

(** A new part set on the heap, and the part set at an address *)
Definition newPartSet (header : PartSetHeader) : M (option nat) :=
  let* h := gets csHeap in
  let* _ := setHeap (h ++ [NewPartSetFromHeader header]) in
  ret (Some (length h)).
Definition partsAt (s : State) (p : option nat) : option PartSet :=
  match p with None => None | Some i => csHeap s !! i end.

(** The methods of a block, without the memoization of its hashes *)
Definition blockHash (b : option Block) : M bytes :=
  lift (let! (h, _) := Block_Hash b in Done h).
Definition HashesTo (b : option Block) (hash : bytes) : M bool :=
  lift (let! (r, _) := Block_HashesTo b hash in Done r).

Definition updateRoundStep (round step : Z) : M unit := modifyRS (setRoundStep round step).

Definition publish (e : csEvent) : M unit :=
  let* rs := theRS in emit (Publish e (rsHeight rs) (rsRound rs) (rsStep rs)).

Definition newStep : M unit := publish EventNewRoundStep.

Definition scheduleTimeout (duration height round step : Z) : M unit :=
  emit (Schedule (mkTimeoutInfo duration height round step)).

Definition scheduleRound0 : M unit :=
  let* rs := theRS in
  let* now := Now in
  scheduleTimeout (rsStartTime rs - now) (rsHeight rs) 0 RoundStepNewHeight.

Definition sendInternalMessage (msg : Message) : M unit := emit (SendInternal msg).

Definition Prevotes (round : Z) : M (option VoteSet) :=
  let* rs := theRS in lift (HVS_Prevotes round (rsVotes rs)).
Definition Precommits (round : Z) : M (option VoteSet) :=
  let* rs := theRS in lift (HVS_Precommits round (rsVotes rs)).
Definition TwoThirdsAny (vs : option VoteSet) : M bool :=
  lift (let! (r, _) := HasTwoThirdsAny vs in Done r).
Definition HasAll (vs : option VoteSet) : M bool :=
  match vs with
  | None => panic "invalid memory address or nil pointer dereference"
  | Some vs => lift (let! (r, _) := VoteSet_HasAll vs in Done r)
  end.

(** The address of the proposer *)
Definition proposer : M Validator :=
  let* rs := theRS in
  let* (p, _) := lift (GetProposer (rsValidators rs)) in
  match p with
  | None => panic "invalid memory address or nil pointer dereference"
  | Some p => ret p
  end.

Definition isProposer (address : bytes) : M bool :=
  let* p := proposer in ret (bool_decide (Address p = address)).

(** ** Signing *)

Definition voteTime : M Time :=
  let* now := Now in
  let* s := gets id in
  let rs := csRS s in
  let timeIota := wrap64 (smTimeIotaMs (csState s) * 1000000) in
  let minVoteTime := match rsLockedBlock rs, rsProposalBlock rs with
                     | Some b, _ => hTime (bHeader b) + timeIota
                     | None, Some b => hTime (bHeader b) + timeIota
                     | None, None => now
                     end in
  ret (if minVoteTime <? now then now else minVoteTime).

(** Only the signature is taken from the signed message. *)
Definition signVote (msgType : Z) (hash : bytes) (header : PartSetHeader) : M (option Vote * option error) :=
  let* s := gets id in
  match csPrivValidator s with
  | None => panic "invalid memory address or nil pointer dereference"
  | Some pv =>
    match pv_GetPubKey pv with
    | inl err => ret (None, Some ("can't get pubkey: " +:+ err))
    | inr pubKey =>
      let addr := pkAddress pubKey in
      let rs := csRS s in
      let '(valIdx, _) := GetByAddress (rsValidators rs) addr in
      let* t := voteTime in
      let vote := mkVote msgType (rsHeight rs) (rsRound rs) (mkBlockID hash header) t addr valIdx [] in
      let* (pv', v, err) := lift (pv_SignVote pv (smChainID (csState s)) (Vote_ToProto vote)) in
      let* _ := setPrivValidator pv' in
      ret (Some (mkVote msgType (rsHeight rs) (rsRound rs) (mkBlockID hash header) t addr valIdx
                   (pvSignature v)), err)
    end
  end.

Definition signAddVote (msgType : Z) (hash : bytes) (header : PartSetHeader) : M unit :=
  let* s := gets id in
  match csPrivValidator s with
  | None => ret tt
  | Some pv =>
    match pv_GetPubKey pv with
    | inl _ => ret tt
    | inr pubKey =>
      if negb (HasAddress (rsValidators (csRS s)) (pkAddress pubKey)) then ret tt
      else
        let* (vote, err) := signVote msgType hash header in
        match err, vote with
        | None, Some vote => sendInternalMessage (VoteMessage vote)
        | _, _ => ret tt
        end
    end
  end.

(** ** Proposals *)

Definition isProposalComplete : M bool :=
  let* rs := theRS in
  match rsProposal rs, rsProposalBlock rs with
  | Some proposal, Some _ =>
    if pPOLRound proposal <? 0 then ret true
    else let* prevotes := Prevotes (pPOLRound proposal) in ret (HasTwoThirdsMajority prevotes)
  | _, _ => ret false
  end.

Definition createProposalBlock : M (option (Block * PartSet)) :=
  let* s := gets id in
  let rs := csRS s in
  let* commit := (if rsHeight rs =? 1 then ret (Some (NewCommit 0 0 zeroBlockID []))
    else match rsLastCommit rs with
    | Some vs => if HasTwoThirdsMajority (Some vs)
                 then let* c := lift (MakeCommit vs) in ret (Some c) else ret None
    | None => ret None
    end) in
  match commit, csPrivValidator s with
  | None, _ => ret None
  | Some _, None => panic "entered createProposalBlock with privValidator being nil"
  | Some commit, Some pv =>
    match pv_GetPubKey pv with
    | inl _ => ret None
    | inr pubKey =>
      lift (ex_CreateProposalBlock (csBlockExec s) (rsHeight rs) (csState s) commit (pkAddress pubKey))
    end
  end.

(** The loop that sends the parts *)
Fixpoint sendParts (height round : Z) (parts : list (option Part)) : M unit :=
  match parts with
  | [] => ret tt
  | part :: rest =>
    let* _ := sendInternalMessage (BlockPartMessage height round part) in sendParts height round rest
  end.

Definition defaultDecideProposal (height round : Z) : M unit :=
  let* s := gets id in
  let rs := csRS s in
  let* bp := (match rsValidBlock rs with
    | Some b => ret (Some (b, partsAt s (rsValidBlockParts rs)))
    | None => let* r := createProposalBlock in
              ret (match r with Some (b, ps) => Some (b, Some ps) | None => None end)
    end) in
  match bp with
  | None => ret tt
  | Some (block, blockParts) =>
    let* h := blockHash (Some block) in
    let propBlockID := mkBlockID h (PartSet_Header blockParts) in
    let* now := Now in
    let proposal := NewProposal now height round (rsValidRound rs) propBlockID in
    match csPrivValidator s with
    | None => panic "invalid memory address or nil pointer dereference"
    | Some pv =>
      let* (pv', p, err) := lift (pv_SignProposal pv (smChainID (csState s)) (Proposal_ToProto (Some proposal))) in
      let* _ := setPrivValidator pv' in
      match err with
      | Some _ => ret tt
      | None =>
        let proposal := mkProposal (pType proposal) height round (pPOLRound proposal) propBlockID
                          (pTimestamp proposal) (ppSignature p) in
        let* _ := sendInternalMessage (ProposalMessage proposal) in
        sendParts (rsHeight rs) (rsRound rs) (match blockParts with Some ps => psParts ps | None => [] end)
      end
    end
  end.

Definition defaultSetProposal (proposal : Proposal) : M (option csError) :=
  let* s := gets id in
  let rs := csRS s in
  match rsProposal rs with
  | Some _ => ret None
  | None =>
    if negb (pHeight proposal =? rsHeight rs) || negb (pRound proposal =? rsRound rs) then ret None
    else if (pPOLRound proposal <? -1) || ((0 <=? pPOLRound proposal) && (pRound proposal <=? pPOLRound proposal))
    then ret (Some ErrInvalidProposalPOLRound)
    else
      let* prop := proposer in
      let* bz := lift (ProposalSignBytes (smChainID (csState s)) (Proposal_ToProto (Some proposal))) in
      match vPubKey prop with
      | None => panic "invalid memory address or nil pointer dereference"
      | Some key =>
        if negb (pkVerifyBytes key bz (pSignature proposal)) then ret (Some ErrInvalidProposalSignature)
        else
          let* _ := modifyRS (setProposal (Some proposal)) in
          match rsProposalBlockParts rs with
          | Some _ => ret None
          | None =>
            let* p := newPartSet (bidPartSetHeader (pBlockID proposal)) in
            let* _ := modifyRS (setProposalBlockParts p) in
            ret None
          end
      end
  end.

(** ** Entering the steps of a round *)

Definition defaultDoPrevote : M unit :=
  let* s := gets id in
  let rs := csRS s in
  match rsLockedBlock rs with
  | Some b =>
    let* h := blockHash (Some b) in
    signAddVote PrevoteType h (PartSet_Header (partsAt s (rsLockedBlockParts rs)))
  | None =>
    match rsProposalBlock rs with
    | None => signAddVote PrevoteType [] zeroPartSetHeader
    | Some b =>
      match ex_ValidateBlock (csBlockExec s) (csState s) b with
      | Some _ => signAddVote PrevoteType [] zeroPartSetHeader
      | None =>
        let* h := blockHash (Some b) in
        signAddVote PrevoteType h (PartSet_Header (partsAt s (rsProposalBlockParts rs)))
      end
    end
  end.

(** [if cs.Height != height || round < cs.Round || (cs.Round == round && step <= cs.Step)] *)
Definition tooLate (rs : RoundState) (height round step : Z) : bool :=
  negb (rsHeight rs =? height) || (round <? rsRound rs) || ((rsRound rs =? round) && (step <=? rsStep rs)).

Definition enterPrevote (height round : Z) : M unit :=
  let* rs := theRS in
  if tooLate rs height round RoundStepPrevote then ret tt
  else
    let* _ := defaultDoPrevote in
    let* _ := updateRoundStep round RoundStepPrevote in
    newStep.

(** The body of [enterPropose] before its deferred part *)
Definition propose (height round : Z) : M unit :=
  let* _ := scheduleTimeout (cfg_Propose cfg round) height round RoundStepPropose in
  let* s := gets id in
  match csPrivValidator s with
  | None => ret tt
  | Some pv =>
    match pv_GetPubKey pv with
    | inl _ => ret tt
    | inr pubKey =>
      if negb (HasAddress (rsValidators (csRS s)) (pkAddress pubKey)) then ret tt
      else
        let* mine := isProposer (pkAddress pubKey) in
        if (mine : bool) then defaultDecideProposal height round else ret tt
    end
  end.

Definition enterPropose (height round : Z) : M unit :=
  let* rs := theRS in
  if tooLate rs height round RoundStepPropose then ret tt
  else
    let* _ := propose height round in
    let* _ := updateRoundStep round RoundStepPropose in
    let* _ := newStep in
    let* complete := isProposalComplete in
    if (complete : bool) then let* rs := theRS in enterPrevote height (rsRound rs) else ret tt.

Definition enterNewRound (height round : Z) : M unit :=
  let* rs := theRS in
  if negb (rsHeight rs =? height) || (round <? rsRound rs)
     || ((rsRound rs =? round) && negb (rsStep rs =? RoundStepNewHeight))
  then ret tt
  else
    let* _ := Now in
    let* validators := (if rsRound rs <? round then
        let* times := lift (SafeSubInt32 round (rsRound rs)) in
        lift (IncrementProposerPriority times (ValidatorSet_Copy (rsValidators rs)))
      else ret (rsValidators rs)) in
    let* _ := updateRoundStep round RoundStepNewRound in
    let* _ := modifyRS (setValidators validators) in
    let* _ := (if round =? 0 then ret tt
      else modifyRS (fun r => setProposalBlockParts None (setProposalBlock None (setProposal None r)))) in
    let* next := lift (SafeAddInt32 round 1) in
    let* rs := theRS in
    let* votes := lift (SetRound next (rsVotes rs)) in
    let* _ := modifyRS (setVotes votes) in
    let* _ := modifyRS (setTriggered false) in
    let* _ := proposer in
    let* _ := publish EventNewRound in
    if cfg_WaitForTxs cfg && (round =? 0) && (1 <? height) then
      if 0 <? CreateEmptyBlocksInterval cfg
      then scheduleTimeout (CreateEmptyBlocksInterval cfg) height round RoundStepNewRound else ret tt
    else enterPropose height round.

Definition enterPrevoteWait (height round : Z) : M unit :=
  let* rs := theRS in
  if tooLate rs height round RoundStepPrevoteWait then ret tt
  else
    let* prevotes := Prevotes round in
    let* any := TwoThirdsAny prevotes in
    if negb any then panic "enterPrevoteWait, but Prevotes does not have any +2/3 votes"
    else
      let* _ := scheduleTimeout (cfg_Prevote cfg round) height round RoundStepPrevoteWait in
      let* _ := updateRoundStep round RoundStepPrevoteWait in
      newStep.

Definition unlock : M unit := modifyRS (setLocked (-1) None None).

(** [if !cs.ProposalBlockParts.HasHeader(header)] ... start over with a part set for [header] *)
Definition partsFor (header : PartSetHeader) : M unit :=
  let* s := gets id in
  if PartSet_HasHeader (partsAt s (rsProposalBlockParts (csRS s))) header then ret tt
  else let* p := newPartSet header in modifyRS (setProposalBlockParts p).

(** The body of [enterPrecommit] before its deferred part *)
Definition precommit (round : Z) : M unit :=
  let* prevotes := Prevotes round in
  match TwoThirdsMajority prevotes with
  | (_, false) => signAddVote PrecommitType [] zeroPartSetHeader
  | (blockID, true) =>
    let* _ := publish EventPolka in
    let* rs := theRS in
    let* (polRound, _) := lift (POLInfo (rsVotes rs)) in
    if polRound <? round then panic "This POLRound should be the round"
    else if (length (bidHash blockID) =? 0)%nat then
      let* _ := (match rsLockedBlock rs with
        | None => ret tt
        | Some _ => let* _ := unlock in publish EventUnlock
        end) in
      signAddVote PrecommitType [] zeroPartSetHeader
    else
      let* relock := HashesTo (rsLockedBlock rs) (bidHash blockID) in
      if (relock : bool) then
        let* _ := modifyRS (setLocked round (rsLockedBlock rs) (rsLockedBlockParts rs)) in
        let* _ := publish EventRelock in
        signAddVote PrecommitType (bidHash blockID) (bidPartSetHeader blockID)
      else
        let* lock := HashesTo (rsProposalBlock rs) (bidHash blockID) in
        let* s := gets id in
        match lock, rsProposalBlock rs with
        | true, Some b =>
          match ex_ValidateBlock (csBlockExec s) (csState s) b with
          | Some _ => panic "enterPrecommit: +2/3 prevoted for an invalid block"
          | None =>
            let* _ := modifyRS (setLocked round (rsProposalBlock rs) (rsProposalBlockParts rs)) in
            let* _ := publish EventLock in
            signAddVote PrecommitType (bidHash blockID) (bidPartSetHeader blockID)
          end
        | _, _ =>
          let* _ := unlock in
          let* _ := (if PartSet_HasHeader (partsAt s (rsProposalBlockParts rs)) (bidPartSetHeader blockID)
            then ret tt
            else
              let* _ := modifyRS (setProposalBlock None) in
              let* p := newPartSet (bidPartSetHeader blockID) in
              modifyRS (setProposalBlockParts p)) in
          let* _ := publish EventUnlock in
          signAddVote PrecommitType [] zeroPartSetHeader
        end
  end.

Definition enterPrecommit (height round : Z) : M unit :=
  let* rs := theRS in
  if tooLate rs height round RoundStepPrecommit then ret tt
  else
    let* _ := precommit round in
    let* _ := updateRoundStep round RoundStepPrecommit in
    newStep.

Definition enterPrecommitWait (height round : Z) : M unit :=
  let* rs := theRS in
  if negb (rsHeight rs =? height) || (round <? rsRound rs)
     || ((rsRound rs =? round) && rsTriggeredTimeoutPrecommit rs) then ret tt
  else
    let* precommits := Precommits round in
    let* any := TwoThirdsAny precommits in
    if negb any then panic "enterPrecommitWait, but Precommits does not have any +2/3 votes"
    else
      let* _ := scheduleTimeout (cfg_Precommit cfg round) height round RoundStepPrecommitWait in
      let* _ := modifyRS (setTriggered true) in
      newStep.

(** ** Moving to the next height *)

Definition derefM {A} (p : option A) : outcome A :=
  match p with
  | None => Panic "invalid memory address or nil pointer dereference"
  | Some a => Done a
  end.
Definition deref {A} (p : option A) : M A := lift (derefM p).

Definition reconstructLastCommit (state : smState Rest) (bs : BS) : outcome VoteSet :=
  match bs_LoadSeenCommit bs (smLastBlockHeight state) with
  | None => Panic "Failed to reconstruct LastCommit: seen commit not found"
  | Some seenCommit =>
    let! vals := derefM (smLastValidators state) in
    let! lastPrecommits := CommitToVoteSet (smChainID state) seenCommit vals in
    if negb (HasTwoThirdsMajority (Some lastPrecommits))
    then Panic "Failed to reconstruct LastCommit: Does not have +2/3 maj"
    else Done lastPrecommits
  end.

(** The last commit of the new height; [fromVotes] is the commit in the votes
    of the old height when there is one. *)
Definition nextLastCommit (state : smState Rest) (fromVotes : option (outcome (option VoteSet)))
    (lastCommit : option VoteSet) : outcome (option VoteSet) :=
  if smLastBlockHeight state =? 0 then Done None
  else match fromVotes with
  | Some precommits =>
    let! precommits := precommits in
    if negb (HasTwoThirdsMajority precommits)
    then Panic "Wanted to form a Commit, but Precommits didn't have 2/3+"
    else Done precommits
  | None =>
    match lastCommit with
    | None => Panic "LastCommit cannot be empty in heights > 1"
    | Some _ => Done lastCommit
    end
  end.

(** The fields of the round state that are reset for the height after [state] *)
Definition resetRoundState (state : smState Rest) (startTime commitTime : Time) (lastCommit : option VoteSet)
    : outcome RoundState :=
  let height := wrap64 (smLastBlockHeight state + 1) in
  let! validators := derefM (smValidators state) in
  let! votes := NewHeightVoteSet (smChainID state) height validators in
  Done (mkRoundState height 0 RoundStepNewHeight startTime commitTime validators
          None None None (-1) None None (-1) None None votes (-1) lastCommit (smLastValidators state) false).

Definition updateToState (state : smState Rest) : M unit :=
  let* s := gets id in
  let rs := csRS s in
  if (-1 <? rsCommitRound rs) && (0 <? rsHeight rs) && negb (rsHeight rs =? smLastBlockHeight state)
  then panic "updateToState() expected another state height"
  else if negb (sm_IsEmpty (csState s)) && negb (wrap64 (smLastBlockHeight (csState s) + 1) =? rsHeight rs)
  then panic "Inconsistent cs.state.LastBlockHeight+1 vs cs.Height"
  else if negb (sm_IsEmpty (csState s)) && (smLastBlockHeight state <=? smLastBlockHeight (csState s))
  then newStep
  else
    let* lastCommit := lift (nextLastCommit state
      (if -1 <? rsCommitRound rs then Some (HVS_Precommits (rsCommitRound rs) (rsVotes rs)) else None)
      (rsLastCommit rs)) in
    let* startTime := (if rsCommitTime rs =? zeroTime then let* now := Now in ret (cfg_Commit cfg now)
                       else ret (cfg_Commit cfg (rsCommitTime rs))) in
    let* rs' := lift (resetRoundState state startTime (rsCommitTime rs) lastCommit) in
    let* _ := modifyRS (fun _ => rs') in
    let* _ := setSmState state in
    newStep.

(** [NewState]: the last commit comes from the block store, and the calls of
    [updateToState] and [newStep] find no state, no votes and no event bus. *)
Definition NewState (state : smState Rest) (ex : EX) (bs : BS) : outcome State :=
  let! lastCommit := (if 0 <? smLastBlockHeight state
                      then let! vs := reconstructLastCommit state bs in Done (Some vs) else Done None) in
  let! lastCommit := nextLastCommit state None lastCommit in
  let! rs := resetRoundState state (cfg_Commit cfg (clock 0)) zeroTime lastCommit in
  Done (mkState rs state None ex bs [] 1 []).

(** [SetPrivValidator] *)
Definition SetPrivValidator (pv : PV) : M unit := setPrivValidator pv.

(** The checks that the metrics make on the way *)
Definition recordMetrics (height : Z) (block : Block) : M unit :=
  let* rs := theRS in
  if 1 <? height then
    let* vals := deref (rsLastValidators rs) in
    if negb (Commit_Size (bLastCommit block) =? Z.of_nat (length (Validators vals)))
    then panic "commit size doesn't match valset length" else ret tt
  else ret tt.

Definition pruneBlocks (retainHeight : Z) : M unit :=
  let* s := gets id in
  let base := bs_Base (csBlockStore s) in
  if retainHeight <=? base then ret tt
  else
    let '(bs, r) := bs_PruneBlocks (csBlockStore s) retainHeight in
    let* _ := setBlockStore bs in
    match r with
    | inl _ => ret tt
    | inr _ => let '(ex, _) := ex_PruneStates (csBlockExec s) base retainHeight in setBlockExec ex
    end.

(** The block goes to the store with the precommits, unless it is there. *)
Definition saveBlock (block : Block) (blockParts : PartSet) : M unit :=
  let* s := gets id in
  let rs := csRS s in
  if bs_Height (csBlockStore s) <? hHeight (bHeader block) then
    let* precommits := Precommits (rsCommitRound rs) in
    let* vs := deref precommits in
    let* seenCommit := lift (MakeCommit vs) in
    let* bs := lift (bs_SaveBlock (csBlockStore s) block blockParts seenCommit) in
    let* _ := setBlockStore bs in
    emit (SavedBlock (rsHeight rs) block blockParts seenCommit)
  else ret tt.

(** The last part of [finalizeCommit], once the block is known to be right *)
Definition commitBlock (height : Z) (block : Block) (blockParts : PartSet) : M unit :=
  let* s := gets id in
  let rs := csRS s in
  let* _ := saveBlock block blockParts in
  let* _ := emit (WroteEndHeight height) in
  let* h := blockHash (Some block) in
  let blockID := mkBlockID h (PartSet_Header (Some blockParts)) in
  let* (ex, r) := lift (ex_ApplyBlock (csBlockExec s) (csState s) blockID block) in
  let* _ := setBlockExec ex in
  match r with
  | inl _ => ret tt
  | inr (stateCopy, retainHeight) =>
    let* _ := emit (AppliedBlock height blockID block) in
    let* _ := (if 0 <? retainHeight then pruneBlocks retainHeight else ret tt) in
    let* _ := recordMetrics height block in
    let* _ := updateToState stateCopy in
    scheduleRound0
  end.

Definition finalizeCommit (height : Z) : M unit :=
  let* s := gets id in
  let rs := csRS s in
  if negb (rsHeight rs =? height) || negb (rsStep rs =? RoundStepCommit) then ret tt
  else
    let* precommits := Precommits (rsCommitRound rs) in
    let '(blockID, ok) := TwoThirdsMajority precommits in
    if negb ok then panic "Cannot finalizeCommit, commit does not have two thirds majority"
    else if negb (PartSet_HasHeader (partsAt s (rsProposalBlockParts rs)) (bidPartSetHeader blockID))
    then panic "Expected ProposalBlockParts header to be commit header"
    else
      let* hashes := HashesTo (rsProposalBlock rs) (bidHash blockID) in
      if negb hashes then panic "Cannot finalizeCommit, ProposalBlock does not hash to commit hash"
      else
        let* block := deref (rsProposalBlock rs) in
        let* blockParts := deref (partsAt s (rsProposalBlockParts rs)) in
        match ex_ValidateBlock (csBlockExec s) (csState s) block with
        | Some _ => panic "+2/3 committed an invalid block"
        | None => commitBlock height block blockParts
        end.

Definition tryFinalizeCommit (height : Z) : M unit :=
  let* rs := theRS in
  if negb (rsHeight rs =? height) then panic "tryFinalizeCommit() cs.Height vs height"
  else
    let* precommits := Precommits (rsCommitRound rs) in
    let '(blockID, ok) := TwoThirdsMajority precommits in
    if negb ok || (length (bidHash blockID) =? 0)%nat then ret tt
    else
      let* hashes := HashesTo (rsProposalBlock rs) (bidHash blockID) in
      if negb hashes then ret tt else finalizeCommit height.

Definition enterCommit (height commitRound : Z) : M unit :=
  let* rs := theRS in
  if negb (rsHeight rs =? height) || (RoundStepCommit <=? rsStep rs) then ret tt
  else
    let* precommits := Precommits commitRound in
    let '(blockID, ok) := TwoThirdsMajority precommits in
    if negb ok then panic "RunActionCommit() expects +2/3 precommits"
    else
      let* locked := HashesTo (rsLockedBlock rs) (bidHash blockID) in
      let* _ := (if (locked : bool) then
          modifyRS (fun r => setProposalBlockParts (rsLockedBlockParts r) (setProposalBlock (rsLockedBlock r) r))
        else ret tt) in
      let* s := gets id in
      let rs := csRS s in
      let* have := HashesTo (rsProposalBlock rs) (bidHash blockID) in
      let* _ := (if (have : bool) || PartSet_HasHeader (partsAt s (rsProposalBlockParts rs)) (bidPartSetHeader blockID)
        then ret tt
        else
          let* _ := modifyRS (setProposalBlock None) in
          let* p := newPartSet (bidPartSetHeader blockID) in
          let* _ := modifyRS (setProposalBlockParts p) in
          publish EventValidBlock) in
      let* _ := updateRoundStep (rsRound rs) RoundStepCommit in
      let* now := Now in
      let* _ := modifyRS (setCommit commitRound now) in
      let* _ := newStep in
      tryFinalizeCommit height.

(** ** Block parts *)

(** [proto.Unmarshal] and [BlockFromProto] of the bytes of a complete part set *)
Definition decodeBlock (ps : PartSet) : M (result Block) :=
  let* psr := lift (PartSet_GetReader ps) in
  let* bz := lift (ReadAll readSizes (S (length (concat (partsBytesOf (psParts ps))))) psr []) in
  match pbUnmarshal bz with
  | inl err => ret (inl err)
  | inr pbb => lift (BlockFromProto (Some pbb))
  end.

(** What follows once the proposal block is known *)
Definition gotProposalBlock (height : Z) (block : Block) : M unit :=
  let* _ := modifyRS (setProposalBlock (Some block)) in
  let* _ := publish EventCompleteProposal in
  let* rs := theRS in
  let* prevotes := Prevotes (rsRound rs) in
  let '(blockID, hasTwoThirds) := TwoThirdsMajority prevotes in
  let* _ := (if hasTwoThirds && negb (BlockID_IsZero blockID) && (rsValidRound rs <? rsRound rs) then
      let* same := HashesTo (Some block) (bidHash blockID) in
      if (same : bool) then
        modifyRS (fun r => setValid (rsRound r) (rsProposalBlock r) (rsProposalBlockParts r) r)
      else ret tt
    else ret tt) in
  let* complete := (if rsStep rs <=? RoundStepPropose then isProposalComplete else ret false) in
  if (complete : bool) then
    let* _ := enterPrevote height (rsRound rs) in
    if hasTwoThirds then let* rs := theRS in enterPrecommit height (rsRound rs) else ret tt
  else if rsStep rs =? RoundStepCommit then tryFinalizeCommit height
  else ret tt.

Definition addProposalBlockPart (height : Z) (part : option Part) : M (bool * option csError) :=
  let* s := gets id in
  let rs := csRS s in
  if negb (rsHeight rs =? height) then ret (false, None)
  else
    let* part := deref part in
    match rsProposalBlockParts rs with
    | None => ret (false, None)
    | Some i =>
      let* ps := deref (csHeap s !! i) in
      let* (ps', added, err) := lift (addPart ps part) in
      let* _ := setHeap (<[i := ps']> (csHeap s)) in
      match err with
      | Some err => ret (added, Some (ErrPart err))
      | None =>
        if added && PartSet_IsComplete ps' then
          let* r := decodeBlock ps' in
          match r with
          | inl err => ret (added, Some (ErrOther err))
          | inr block =>
            match ex_CheckBlock (csBlockExec s) block with
            | Some err => ret (false, Some (ErrOther err))
            | None => let* _ := gotProposalBlock height block in ret (added, None)
            end
          end
        else ret (added, None)
      end
    end.

(** ** Votes *)

Definition savePOLC (round : Z) (blockID : BlockID) : M unit :=
  if round =? 0 then ret tt
  else
    let* s := gets id in
    let* pv := deref (csPrivValidator s) in
    match pv_GetPubKey pv with
    | inl _ => ret tt
    | inr pubKey =>
      let* prevotes := Prevotes round in
      let* (polc, err) := lift (NewPOLCFromVoteSet prevotes pubKey blockID) in
      match err with
      | Some _ => ret tt
      | None => emit (AddedPOLC polc)
      end
    end.

(** A polka in the round of a prevote: unlock, and update the valid block. *)
Definition onPolka (vote : Vote) (blockID : BlockID) : M unit :=
  let* rs := theRS in
  let* _ := (if bool_decide (is_Some (rsLockedBlock rs)) && (rsLockedRound rs <? vRound vote)
                && (vRound vote <=? rsRound rs) then
      let* same := HashesTo (rsLockedBlock rs) (bidHash blockID) in
      if (same : bool) then ret tt
      else
        let* _ := unlock in
        let* _ := savePOLC (vRound vote) blockID in
        publish EventUnlock
    else ret tt) in
  if negb (length (bidHash blockID) =? 0)%nat && (rsValidRound rs <? vRound vote) && (vRound vote =? rsRound rs) then
    let* known := HashesTo (rsProposalBlock rs) (bidHash blockID) in
    let* _ := (if (known : bool)
      then modifyRS (fun r => setValid (vRound vote) (rsProposalBlock r) (rsProposalBlockParts r) r)
      else modifyRS (setProposalBlock None)) in
    let* _ := partsFor (bidPartSetHeader blockID) in
    publish EventValidBlock
  else ret tt.

Definition onPrevote (height : Z) (vote : Vote) : M unit :=
  let* prevotes := Prevotes (vRound vote) in
  let '(blockID, ok) := TwoThirdsMajority prevotes in
  let* _ := (if ok then onPolka vote blockID else ret tt) in
  let* rs := theRS in
  let* skip := (if rsRound rs <? vRound vote then TwoThirdsAny prevotes else ret false) in
  if (skip : bool) then enterNewRound height (vRound vote)
  else if (rsRound rs =? vRound vote) && (RoundStepPrevote <=? rsStep rs) then
    let* complete := (if ok then isProposalComplete else ret false) in
    if ok && (complete || (length (bidHash blockID) =? 0)%nat) then enterPrecommit height (vRound vote)
    else
      let* any := TwoThirdsAny prevotes in
      if (any : bool) then enterPrevoteWait height (vRound vote) else ret tt
  else match rsProposal rs with
  | Some proposal =>
    if (0 <=? pPOLRound proposal) && (pPOLRound proposal =? vRound vote) then
      let* complete := isProposalComplete in
      if (complete : bool) then enterPrevote height (rsRound rs) else ret tt
    else ret tt
  | None => ret tt
  end.

Definition onPrecommit (height : Z) (vote : Vote) : M unit :=
  let* precommits := Precommits (vRound vote) in
  let '(blockID, ok) := TwoThirdsMajority precommits in
  if (ok : bool) then
    let* _ := enterNewRound height (vRound vote) in
    let* _ := enterPrecommit height (vRound vote) in
    if negb (length (bidHash blockID) =? 0)%nat then
      let* _ := enterCommit height (vRound vote) in
      let* all := (if SkipTimeoutCommit cfg then HasAll precommits else ret false) in
      if (all : bool) then let* rs := theRS in enterNewRound (rsHeight rs) 0 else ret tt
    else enterPrecommitWait height (vRound vote)
  else
    let* rs := theRS in
    let* any := (if rsRound rs <=? vRound vote then TwoThirdsAny precommits else ret false) in
    if (any : bool) then
      let* _ := enterNewRound height (vRound vote) in
      enterPrecommitWait height (vRound vote)
    else ret tt.

(** A precommit for the previous height *)
Definition addLastPrecommit (vote : Vote) : M (bool * option csError) :=
  let* rs := theRS in
  if negb (rsStep rs =? RoundStepNewHeight) then ret (false, None)
  else
    let* (added, err, vs) := lift (AddVote (rsLastCommit rs) (Some vote)) in
    let* _ := modifyRS (setLastCommit (Some vs)) in
    let err := match err with Some e => Some (ErrVote (HVSVoteError e)) | None => None end in
    if negb added then ret (added, err)
    else
      let* _ := publish (EventVote vote) in
      let* all := (if SkipTimeoutCommit cfg then HasAll (Some vs) else ret false) in
      let* _ := (if (all : bool) then enterNewRound (rsHeight rs) 0 else ret tt) in
      ret (added, err).

Definition csAddVote (vote : Vote) (peerID : bytes) : M (bool * option csError) :=
  let* rs := theRS in
  if (wrap64 (vHeight vote + 1) =? rsHeight rs) && (vType vote =? PrecommitType) then addLastPrecommit vote
  else if negb (vHeight vote =? rsHeight rs) then ret (false, None)
  else
    let* (added, err, votes) := lift (HVS_AddVote vote peerID (rsVotes rs)) in
    let* _ := modifyRS (setVotes votes) in
    let err := match err with Some e => Some (ErrVote e) | None => None end in
    if negb added then ret (added, err)
    else
      let* _ := publish (EventVote vote) in
      let* _ := (if vType vote =? PrevoteType then onPrevote (rsHeight rs) vote
                 else if vType vote =? PrecommitType then onPrecommit (rsHeight rs) vote
                 else panic "Unexpected vote type") in
      ret (added, err).

(** The inner [err] of a conflicting vote hides the outer one. *)
Definition tryAddVote (vote : Vote) (peerID : bytes) : M (bool * option csError) :=
  let* (added, err) := csAddVote vote peerID in
  match err with
  | None => ret (added, None)
  | Some (ErrVote (HVSVoteError (ErrVoteConflictingVotes ev))) =>
    let* s := gets id in
    let* pv := deref (csPrivValidator s) in
    match pv_GetPubKey pv with
    | inl e => ret (false, Some (ErrOther ("can't get pubkey: " +:+ e)))
    | inr pubKey =>
      if bool_decide (vValidatorAddress vote = pkAddress pubKey) then ret (added, None)
      else
        let* _ := emit (AddedEvidence ev) in
        ret (added, None)
    end
  | Some _ => ret (added, Some ErrAddingVote)
  end.

(** ** Input *)

Definition handleMsg (msg : Message) (peerID : bytes) : M unit :=
  match msg with
  | ProposalMessage proposal => let* _ := defaultSetProposal proposal in ret tt
  | BlockPartMessage height round part =>
    let* (added, _) := addProposalBlockPart height part in
    if (added : bool) then emit (SentStats msg peerID) else ret tt
  | VoteMessage vote =>
    let* (added, _) := tryAddVote vote peerID in
    if (added : bool) then emit (SentStats msg peerID) else ret tt
  end.

Definition handleTimeout (ti : timeoutInfo) : M unit :=
  let* rs := theRS in
  if negb (tiHeight ti =? rsHeight rs) || (tiRound ti <? rsRound rs)
     || ((tiRound ti =? rsRound rs) && (tiStep ti <? rsStep rs)) then ret tt
  else if tiStep ti =? RoundStepNewHeight then enterNewRound (tiHeight ti) 0
  else if tiStep ti =? RoundStepNewRound then enterPropose (tiHeight ti) 0
  else if tiStep ti =? RoundStepPropose then
    let* _ := publish EventTimeoutPropose in enterPrevote (tiHeight ti) (tiRound ti)
  else if tiStep ti =? RoundStepPrevoteWait then
    let* _ := publish EventTimeoutWait in enterPrecommit (tiHeight ti) (tiRound ti)
  else if tiStep ti =? RoundStepPrecommitWait then
    let* _ := publish EventTimeoutWait in
    let* _ := enterPrecommit (tiHeight ti) (tiRound ti) in
    enterNewRound (tiHeight ti) (wrap32 (tiRound ti + 1))
  else panic "Invalid timeout step".

Definition handleTxsAvailable : M unit :=
  let* rs := theRS in
  if negb (rsRound rs =? 0) then ret tt
  else if rsStep rs =? RoundStepNewRound then enterPropose (rsHeight rs) 0
  else ret tt.

(** One turn of [receiveRoutine] *)
Inductive input :=
  | PeerMsg (msg : Message) (peerID : bytes)
  | InternalMsg (msg : Message)
  | Timeout (ti : timeoutInfo)
  | TxsAvailable.

Definition receive (i : input) : M unit :=
  match i with
  | PeerMsg msg peerID => handleMsg msg peerID
  | InternalMsg msg => handleMsg msg []
  | Timeout ti => handleTimeout ti
  | TxsAvailable => handleTxsAvailable
  end.

End consensus.
