(* ===== verification/ConsensusInv.v ===== *)
(** * Invariant of the consensus state machine

    What the votes that a node sends at a height obey, and that every handler of
    Consensus.v keeps it: a node casts at most one vote of each type in a round,
    in order; it precommits a block only on a quorum of prevotes for it in that
    round; after that it prevotes something else only on a quorum of prevotes
    for something else in a later round; and it applies a block only on a quorum
    of precommits for it. *)

From Stdlib Require Import ZArith Lia.
From S2P Require Import Prelude SafeMath Proto BitArray Validator ValidatorSet BlockTypes SignBytes.
From S2P Require Import Merkle PartSet Header Block CommitVerify VoteSet VoteSetInv VoteSetClaims LockChange HeightVoteSet.
From S2P Require Import VoteOrigin Consensus.
From stdpp Require Import base gmap list option strings numbers sorting.

Local Open Scope Z_scope.

Create HintDb quiet.

Section quiet.
Context `{Crypto} {TH : TmHash} {ST : StdTime} {W : Wrappers} {EI : EvidenceImpl} {BC : BlockCodec}.
Context {PV EX BS Rest : Type} `{!PrivValidator PV} `{!BlockExecutor EX Rest} `{!BlockStore BS}.
Notation State := (@State EI PV EX BS Rest).
Notation M := (@M EI PV EX BS Rest).
Implicit Types (s : State).

(** ** Steps that do not matter for safety *)

(** The fields of the round state that the invariant is about *)
Definition view (r : RoundState) :=
  (rsHeight r, rsRound r, rsStep r, rsLockedRound r, rsLockedBlock r, rsVotes r, rsCommitRound r).

(** Effects other than votes, timeouts and the blocks saved and applied *)
Definition boring (e : effect) : bool :=
  match e with
  | SendInternal (VoteMessage _) | Schedule _ | AppliedBlock _ _ _ | SavedBlock _ _ _ _ => false
  | _ => true
  end.

Definition quiet s s' : Prop :=
  view (csRS s') = view (csRS s) /\ exists l, csTrace s' = csTrace s ++ l /\ Forall boring l.

Definition quietly {A} (m : M A) : Prop := forall s a s', m s = Done (a, s') -> quiet s s'.

Lemma quiet_refl s : quiet s s.
Proof. split; [done|]. exists []. by rewrite app_nil_r. Qed.

Lemma quiet_trans s1 s2 s3 : quiet s1 s2 -> quiet s2 s3 -> quiet s1 s3.
Proof.
  intros [V1 (l1 & E1 & F1)] [V2 (l2 & E2 & F2)]. split; [congruence|].
  exists (l1 ++ l2). rewrite E2, E1, app_assoc. split; [done|]. by apply Forall_app.
Qed.

Lemma sbind_inv {A B} (m : M A) (f : A -> M B) s b s' :
  sbind m f s = Done (b, s') -> exists a s1, m s = Done (a, s1) /\ f a s1 = Done (b, s').
Proof. unfold sbind. destruct (m s) as [[a s1]|]; [eauto|done]. Qed.

Lemma lift_inv {A} (m : outcome A) s a s' : (lift m : M A) s = Done (a, s') -> m = Done a /\ s' = s.
Proof. unfold lift. destruct m; [|done]. by intros [= <- <-]. Qed.

Lemma quietly_bind {A B} (m : M A) (f : A -> M B) :
  quietly m -> (forall a, quietly (f a)) -> quietly (sbind m f).
Proof.
  intros Hm Hf s b s' (a & s1 & E1 & E2)%sbind_inv. eapply quiet_trans; [by eapply Hm|by eapply Hf].
Qed.

Lemma quietly_ret {A} (a : A) : quietly (ret a : M A).
Proof. intros s b s' [= <- <-]. apply quiet_refl. Qed.

Lemma quietly_lift {A} (m : outcome A) : quietly (lift m : M A).
Proof. intros s b s' [_ ->]%lift_inv. apply quiet_refl. Qed.

Lemma quietly_panic {A} why : quietly (panic why : M A).
Proof. intros s b s' [=]. Qed.

Lemma quietly_gets {A} (f : State -> A) : quietly (gets f).
Proof. intros s b s' [= <- <-]. apply quiet_refl. Qed.

Lemma quietly_modify f :
  (forall s, csTrace (f s) = csTrace s /\ view (csRS (f s)) = view (csRS s)) -> quietly (modify f : M unit).
Proof.
  intros Hf s b s' [= <- <-]. destruct (Hf s) as [Et Ev]. split; [done|]. exists []. by rewrite app_nil_r.
Qed.

Lemma quietly_modifyRS f : (forall r, view (f r) = view r) -> quietly (modifyRS f : M unit).
Proof. intros Hf. apply quietly_modify. intros s. simpl. by rewrite Hf. Qed.

Lemma quietly_emit e : boring e -> quietly (emit e : M unit).
Proof. intros He s b s' [= <- <-]. split; [done|]. exists [e]. split; [done|]. by repeat constructor. Qed.

Lemma quietly_theRS : quietly (theRS : M _).
Proof. apply quietly_gets. Qed.

Lemma quietly_setPrivValidator pv : quietly (setPrivValidator pv : M unit).
Proof. by apply quietly_modify. Qed.
Lemma quietly_setBlockExec ex : quietly (setBlockExec ex : M unit).
Proof. by apply quietly_modify. Qed.
Lemma quietly_setBlockStore bs : quietly (setBlockStore bs : M unit).
Proof. by apply quietly_modify. Qed.
Lemma quietly_setSmState st : quietly (setSmState st : M unit).
Proof. by apply quietly_modify. Qed.
Lemma quietly_setHeap hp : quietly (setHeap hp : M unit).
Proof. by apply quietly_modify. Qed.

Lemma quietly_Now clock : quietly (Now clock : M Time).
Proof. intros s b s' [= <- <-]. split; [done|]. exists []. by rewrite app_nil_r. Qed.

End quiet.

#[export] Hint Resolve quietly_ret quietly_lift quietly_panic quietly_gets quietly_theRS : quiet.
#[export] Hint Resolve quietly_setPrivValidator quietly_setBlockExec quietly_setBlockStore : quiet.
#[export] Hint Resolve quietly_setSmState quietly_setHeap quietly_Now : quiet.

(** Splits a handler into its parts, and looks each of them up. *)
Ltac quiet_step :=
  first
  [ solve [auto with quiet]
  | apply quietly_bind; [|intros ?]
  | apply quietly_modifyRS; by intros []
  | apply quietly_emit; reflexivity
  | match goal with |- quietly (match ?x with _ => _ end) => destruct x end ].
Ltac quiet_auto := repeat quiet_step.

Section quiet_handlers.
Context `{Crypto} {TH : TmHash} {ST : StdTime} {W : Wrappers} {EI : EvidenceImpl} {BC : BlockCodec}.
Context {PV EX BS Rest : Type} `{!PrivValidator PV} `{!BlockExecutor EX Rest} `{!BlockStore BS}.
Notation M := (@M EI PV EX BS Rest).
Variables (cfg : ConsensusConfig) (clock : nat -> Time) (readSizes : nat -> nat).

Lemma quietly_publish e : quietly (publish e : M unit).
Proof. unfold publish. quiet_auto. Qed.
Lemma quietly_newStep : quietly (newStep : M unit).
Proof. apply quietly_publish. Qed.
Lemma quietly_newPartSet hd : quietly (newPartSet hd : M _).
Proof. unfold newPartSet. quiet_auto. Qed.
Lemma quietly_Prevotes r : quietly (Prevotes r : M _).
Proof. unfold Prevotes. quiet_auto. Qed.
Lemma quietly_Precommits r : quietly (Precommits r : M _).
Proof. unfold Precommits. quiet_auto. Qed.
Lemma quietly_TwoThirdsAny vs : quietly (TwoThirdsAny vs : M _).
Proof. unfold TwoThirdsAny. quiet_auto. Qed.
Lemma quietly_HasAll vs : quietly (HasAll vs : M _).
Proof. unfold HasAll. quiet_auto. Qed.
Lemma quietly_blockHash b : quietly (blockHash b : M _).
Proof. unfold blockHash. quiet_auto. Qed.
Lemma quietly_HashesTo b hash : quietly (HashesTo b hash : M _).
Proof. unfold HashesTo. quiet_auto. Qed.
Lemma quietly_proposer : quietly (proposer : M _).
Proof. unfold proposer. quiet_auto. Qed.
Lemma quietly_deref {A} (p : option A) : quietly (deref p : M _).
Proof. unfold deref. quiet_auto. Qed.
#[local] Hint Resolve quietly_publish quietly_newStep quietly_newPartSet quietly_Prevotes : quiet.
#[local] Hint Resolve quietly_Precommits quietly_TwoThirdsAny quietly_HasAll quietly_blockHash : quiet.
#[local] Hint Resolve quietly_HashesTo quietly_proposer quietly_deref : quiet.

Lemma quietly_isProposer a : quietly (isProposer a : M _).
Proof. unfold isProposer. quiet_auto. Qed.
Lemma quietly_isProposalComplete : quietly (isProposalComplete : M _).
Proof. unfold isProposalComplete. quiet_auto. Qed.
Lemma quietly_createProposalBlock : quietly (createProposalBlock : M _).
Proof. unfold createProposalBlock. quiet_auto. Qed.
Lemma quietly_sendParts height round parts : quietly (sendParts height round parts : M _).
Proof. induction parts as [|part parts IH]; simpl; unfold sendInternalMessage; quiet_auto. Qed.
#[local] Hint Resolve quietly_isProposer quietly_isProposalComplete quietly_createProposalBlock : quiet.
#[local] Hint Resolve quietly_sendParts : quiet.

Lemma quietly_defaultDecideProposal height round : quietly (defaultDecideProposal clock height round : M _).
Proof. unfold defaultDecideProposal, sendInternalMessage. quiet_auto. Qed.
Lemma quietly_defaultSetProposal p : quietly (defaultSetProposal p : M _).
Proof. unfold defaultSetProposal. quiet_auto. Qed.
Lemma quietly_partsFor hd : quietly (partsFor hd : M _).
Proof. unfold partsFor. quiet_auto. Qed.
Lemma quietly_savePOLC r b : quietly (savePOLC r b : M _).
Proof. unfold savePOLC. quiet_auto. Qed.
Lemma quietly_decodeBlock ps : quietly (decodeBlock readSizes ps : M _).
Proof. unfold decodeBlock. quiet_auto. Qed.
Lemma quietly_recordMetrics height b : quietly (recordMetrics height b : M _).
Proof. unfold recordMetrics. quiet_auto. Qed.
Lemma quietly_pruneBlocks r : quietly (pruneBlocks r : M _).
Proof. unfold pruneBlocks. quiet_auto. Qed.
Lemma quietly_signVote ty hash hd : quietly (signVote clock ty hash hd : M _).
Proof. unfold signVote, voteTime. quiet_auto. Qed.

End quiet_handlers.

#[export] Hint Resolve quietly_publish quietly_newStep quietly_newPartSet quietly_Prevotes : quiet.
#[export] Hint Resolve quietly_Precommits quietly_TwoThirdsAny quietly_HasAll quietly_blockHash : quiet.
#[export] Hint Resolve quietly_HashesTo quietly_proposer quietly_deref quietly_isProposer : quiet.
#[export] Hint Resolve quietly_isProposalComplete quietly_createProposalBlock quietly_sendParts : quiet.
#[export] Hint Resolve quietly_defaultDecideProposal quietly_defaultSetProposal quietly_partsFor : quiet.
#[export] Hint Resolve quietly_savePOLC quietly_decodeBlock quietly_recordMetrics quietly_pruneBlocks : quiet.
#[export] Hint Resolve quietly_signVote : quiet.

(** ** The rules for the votes of a node *)

(** The votes of height [h] that were sent, in order *)
Definition sentVote {EI : EvidenceImpl} (h : Z) (e : effect) : option Vote :=
  match e with
  | SendInternal (VoteMessage v) => if vHeight v =? h then Some v else None
  | _ => None
  end.
Definition sent {EI : EvidenceImpl} (h : Z) (trace : list effect) : list Vote := omap (sentVote h) trace.

(** Prevotes come before precommits of the same round. *)
Definition vote_lt (v w : Vote) : Prop :=
  vRound v < vRound w \/ (vRound v = vRound w /\ vType v < vType w).

(** A precommit for a block *)
Definition commits (v : Vote) : Prop := vType v = PrecommitType /\ bidHash (vBlockID v) <> [].

Section rules.
Context `{Crypto} {ST : StdTime}.
Variables (chainID : bytes) (h : Z) (vals : ValidatorSet) (R : list Vote).

(** A quorum of prevotes for something else than [p], in a round after that of
    [p] and not after [r] *)
Definition released (p : Vote) (r : Z) : Prop :=
  exists r' b, vRound p < r' <= r /\ bidHash b <> bidHash (vBlockID p) /\
    quorum chainID h vals R PrevoteType r' b.

Record lawful (L : list Vote) : Prop := {
  law_sorted : StronglySorted vote_lt L;
  law_type : forall v, v ∈ L -> vType v = PrevoteType \/ vType v = PrecommitType;
  law_precommit : forall v, v ∈ L -> commits v ->
    quorum chainID h vals R PrevoteType (vRound v) (vBlockID v);
  law_prevote : forall p v, p ∈ L -> v ∈ L -> commits p -> vType v = PrevoteType ->
    vRound p < vRound v -> bidHash (vBlockID v) <> bidHash (vBlockID p) -> released p (vRound v)
}.

Lemma released_le p r r' : released p r -> r <= r' -> released p r'.
Proof. intros (q & b & ? & ?) Hle. exists q, b. split; [lia|done]. Qed.

Lemma StronglySorted_snoc {A} (P : A -> A -> Prop) l x :
  StronglySorted P l -> (forall y, y ∈ l -> P y x) -> StronglySorted P (l ++ [x]).
Proof.
  induction 1 as [|y l Hs IH Hf]; intros Hx; [repeat constructor|]. simpl. constructor.
  - apply IH. intros z Hz. apply Hx. set_solver.
  - apply Forall_app. split; [done|]. constructor; [|done]. apply Hx. set_solver.
Qed.

(** One more vote *)
Lemma lawful_snoc L v :
  lawful L -> (forall w, w ∈ L -> vote_lt w v) -> vType v = PrevoteType \/ vType v = PrecommitType ->
  (commits v -> quorum chainID h vals R PrevoteType (vRound v) (vBlockID v)) ->
  (vType v = PrevoteType -> forall p, p ∈ L -> commits p ->
     bidHash (vBlockID v) <> bidHash (vBlockID p) -> released p (vRound v)) ->
  lawful (L ++ [v]).
Proof.
  intros [L1 L2 L3 L4] Hlt Hty Hc Hp. split.
  - by apply StronglySorted_snoc.
  - intros w [Hw|Hw]%elem_of_app; [auto|]. apply list_elem_of_singleton in Hw as ->. done.
  - intros w [Hw|Hw]%elem_of_app; [auto|]. apply list_elem_of_singleton in Hw as ->. done.
  - intros p w [Hpl|Hpl]%elem_of_app [Hw|Hw]%elem_of_app Hcp Hwt Hr Hne; [eauto| | |].
    + apply list_elem_of_singleton in Hw as ->. eauto.
    + apply list_elem_of_singleton in Hpl as ->. destruct (Hlt _ Hw) as [?|[? _]]; lia.
    + apply list_elem_of_singleton in Hpl as ->. apply list_elem_of_singleton in Hw as ->. lia.
Qed.

End rules.

(** ** The invariant *)

Section invariant.
Context `{Crypto} {TH : TmHash} {ST : StdTime} {W : Wrappers} {EI : EvidenceImpl} {BC : BlockCodec}.
Context {PV EX BS Rest : Type} `{!PrivValidator PV} `{!BlockExecutor EX Rest} `{!BlockStore BS}.
Notation State := (@State EI PV EX BS Rest).
Notation M := (@M EI PV EX BS Rest).
Implicit Types (s : State).

(** The height, its chain and validators, and the votes received so far *)
Variables (chainID : bytes) (h : Z) (vals : ValidatorSet) (R : list Vote).
Hypothesis h_pos : 1 <= h.

Definition hashOf (b : Block) : option bytes :=
  match Block_Hash (Some b) with Done (x, _) => Some x | Panic _ => None end.

(** The node is locked on the block that [p] is for, since a round not before
    that of [p]. *)
Definition holds_lock (r : RoundState) (p : Vote) : Prop :=
  vRound p <= rsLockedRound r /\
  exists b, rsLockedBlock r = Some b /\ hashOf b = Some (bidHash (vBlockID p)).

(** The part of the invariant while the node is at height [h]; [st] is the step
    up to which it has voted in its round. *)
Record active (st : Z) s : Prop := {
  ac_hvs : HVSInv (rsVotes (csRS s));
  ac_from : hvs_from (fun w => w ∈ R) (rsVotes (csRS s));
  ac_chain : hvsChainID (rsVotes (csRS s)) = chainID;
  ac_height : hvsHeight (rsVotes (csRS s)) = h;
  ac_vals : hvsValSet (rsVotes (csRS s)) = vals;
  ac_round : 0 <= rsRound (csRS s) /\ hvsRound (rsVotes (csRS s)) <= rsRound (csRS s) + 1;
  ac_bound : forall v, v ∈ sent h (csTrace s) ->
    vRound v < rsRound (csRS s) \/
    (vRound v = rsRound (csRS s) /\
     (if vType v =? PrevoteType then RoundStepPrevote else RoundStepPrecommit) <= st);
  ac_lock : forall p, p ∈ sent h (csTrace s) -> commits p ->
    holds_lock (csRS s) p \/ released chainID h vals R p (rsRound (csRS s));
  ac_timeouts : forall ti, Schedule ti ∈ csTrace s -> tiHeight ti = h -> tiRound ti <= rsRound (csRS s)
}.

(** A block applied at height [h] *)
Definition justified (b : BlockID) (block : Block) : Prop :=
  bidHash b <> [] /\ hashOf block = Some (bidHash b) /\
  exists r, quorum chainID h vals R PrecommitType r b.

(** A block saved at height [h] with a commit: it is the block of the commit, and
    the commit verifies. *)
Definition saved_right (block : Block) (parts : PartSet) (commit : Commit) : Prop :=
  exists r b vs power, hashOf block = Some (bidHash b) /\ PartSet_Header (Some parts) = bidPartSetHeader b /\
    quorum chainID h vals R PrecommitType r b /\ Validators vs = Validators vals /\
    VerifyCommit chainID b h commit vs = Done (None, setTotalVotingPower power vs).

Record Inv (st : Z) s : Prop := {
  inv_lawful : lawful chainID h vals R (sent h (csTrace s));
  inv_applied : forall b block, AppliedBlock h b block ∈ csTrace s -> justified b block;
  inv_height : h <= rsHeight (csRS s);
  inv_commit : rsStep (csRS s) = RoundStepCommit -> -1 < rsCommitRound (csRS s);
  inv_active : rsHeight (csRS s) = h -> active st s;
  inv_saved : forall block parts commit, SavedBlock h block parts commit ∈ csTrace s ->
    saved_right block parts commit
}.

Lemma sent_app l1 l2 : sent h (l1 ++ l2) = sent h l1 ++ sent h l2.
Proof. unfold sent. apply omap_app. Qed.

Lemma sent_boring l : Forall boring l -> sent h l = [].
Proof.
  induction 1 as [|e l He _ IH]; [done|].
  change (sent h (e :: l)) with (match sentVote h e with Some v => v :: sent h l | None => sent h l end).
  rewrite IH. destruct e; try done. simpl. by destruct msg.
Qed.

Lemma quiet_sent s s' : quiet s s' -> sent h (csTrace s') = sent h (csTrace s).
Proof. intros [_ (l & -> & Hl)]. by rewrite sent_app, (sent_boring l Hl), app_nil_r. Qed.

Lemma quiet_elem s s' e : quiet s s' -> boring e = false -> e ∈ csTrace s' -> e ∈ csTrace s.
Proof.
  intros [_ (l & -> & Hl)] He [?|Hin]%elem_of_app; [done|].
  rewrite Forall_forall in Hl. specialize (Hl e Hin). by rewrite He in Hl.
Qed.

Lemma quiet_Inv st s s' : quiet s s' -> Inv st s -> Inv st s'.
Proof.
  intros Q [I1 I2 I3 I4 I5 I6]. pose proof (quiet_sent _ _ Q) as Es. pose proof (fun e => quiet_elem _ _ e Q) as He.
  destruct Q as [V _]. injection V as V1 V2 V3 V4 V5 V6 V7. split.
  - by rewrite Es.
  - intros b block Hin. apply I2, He; done.
  - by rewrite V1.
  - by rewrite V3, V7.
  - rewrite V1. intros Eh. destruct (I5 Eh) as [A1 A2 A3 A4 A5 A6 A7 A8 A9].
    split; rewrite ?V6, ?V2, ?Es; try done.
    + intros p Hp Hc. destruct (A8 p Hp Hc) as [[? L]|?]; [left|by right].
      split; [by rewrite V4|]. by rewrite V5.
    + intros ti Hti. apply A9, He; done.
  - intros block parts commit Hin. apply I6, He; done.
Qed.

Lemma Inv_mono st st' s : st <= st' -> Inv st s -> Inv st' s.
Proof.
  intros Hle [I1 I2 I3 I4 I5 I6]. split; try done. intros Eh. destruct (I5 Eh) as [A1 A2 A3 A4 A5 A6 A7 A8 A9].
  split; try done. intros v Hv. destruct (A7 v Hv) as [?|[? ?]]; [by left|right]. split; [done|lia].
Qed.

Lemma Inv_quietly {A} (m : M A) st s a s' : quietly m -> m s = Done (a, s') -> Inv st s -> Inv st s'.
Proof. intros Hq E. by apply quiet_Inv, (Hq s a s'). Qed.

(** The part of the state of [s'] other than the round state and the trace is
    not in the invariant. *)
Lemma Inv_eq st s s' : csRS s' = csRS s -> csTrace s' = csTrace s -> Inv st s -> Inv st s'.
Proof.
  intros E1 E2. apply quiet_Inv. split; [by rewrite E1|]. exists []. by rewrite E2, app_nil_r.
Qed.

(** *** Changes of the round state *)

Lemma Inv_updateRoundStep st st' round step s a s' :
  updateRoundStep round step s = Done (a, s') -> Inv st s ->
  rsRound (csRS s) <= round -> (rsRound (csRS s) = round -> st <= st') ->
  (step = RoundStepCommit -> -1 < rsCommitRound (csRS s)) -> Inv st' s'.
Proof.
  intros [= <- <-] [I1 I2 I3 I4 I5 I6] Hr Hst Hc. split; try done. intros Eh.
  destruct (I5 Eh) as [A1 A2 A3 A4 A5 A6 A7 A8 A9]. split; try done; simpl.
  - lia.
  - intros v Hv. destruct (A7 v Hv) as [?|[? ?]]; [left; lia|].
    destruct (Z.eq_dec (rsRound (csRS s)) round); [right; split; lia|left; lia].
  - intros p Hp Hcp. destruct (A8 p Hp Hcp) as [[? L]|?]; [left; by split|right].
    by eapply released_le.
  - intros ti Hti Et. specialize (A9 ti Hti Et). lia.
Qed.

Lemma Inv_setLocked st lr b parts s a s' :
  modifyRS (setLocked lr b parts) s = Done (a, s') -> Inv st s ->
  (rsHeight (csRS s) = h -> forall p, p ∈ sent h (csTrace s) -> commits p -> holds_lock (csRS s) p ->
     holds_lock (csRS s') p \/ released chainID h vals R p (rsRound (csRS s))) ->
  Inv st s'.
Proof.
  intros [= <- <-] [I1 I2 I3 I4 I5 I6] Hl. split; try done. intros Eh.
  destruct (I5 Eh) as [A1 A2 A3 A4 A5 A6 A7 A8 A9]. split; try done; simpl in *.
  intros p Hp Hcp. destruct (A8 p Hp Hcp) as [L|?]; [auto|by right].
Qed.

Lemma Inv_setVotes st votes s a s' :
  modifyRS (setVotes votes) s = Done (a, s') -> Inv st s ->
  (rsHeight (csRS s) = h -> HVSInv votes /\ hvs_from (fun w => w ∈ R) votes /\
     hvs_frame (rsVotes (csRS s)) votes /\ hvsRound votes <= rsRound (csRS s) + 1) ->
  Inv st s'.
Proof.
  intros [= <- <-] [I1 I2 I3 I4 I5 I6] Hv. split; try done. intros Eh.
  destruct (I5 Eh) as [A1 A2 A3 A4 A5 A6 A7 A8 A9]. destruct (Hv Eh) as (V1 & V2 & (F1 & F2 & F3) & V3).
  split; try done; simpl in *; [congruence..|lia].
Qed.

Lemma Inv_setCommit st round t s a s' :
  modifyRS (setCommit round t) s = Done (a, s') -> Inv st s -> -1 < round -> Inv st s'.
Proof.
  intros [= <- <-] [I1 I2 I3 I4 I5 I6] Hv. split; try done. intros Eh. by destruct (I5 Eh).
Qed.

(** *** Effects *)

Lemma Inv_schedule st d height round step s a s' :
  scheduleTimeout d height round step s = Done (a, s') -> Inv st s ->
  (height = h -> rsHeight (csRS s) = h -> round <= rsRound (csRS s)) -> Inv st s'.
Proof.
  intros [= <- <-] [I1 I2 I3 I4 I5 I6] Hr.
  assert (forall d, sent h (csTrace s ++ [Schedule d]) = sent h (csTrace s)) as Es
    by (intros; rewrite sent_app; apply app_nil_r).
  split; simpl; rewrite ?Es; try done.
  - intros b block [?|[=]%list_elem_of_singleton]%elem_of_app. auto.
  - intros Eh. destruct (I5 Eh) as [A1 A2 A3 A4 A5 A6 A7 A8 A9]. split; simpl; rewrite ?Es; try done.
    intros ti [?|Hti]%elem_of_app Et; [auto|]. apply list_elem_of_singleton in Hti as [= ->]. simpl in *. auto.
  - intros block parts commit [?|[=]%list_elem_of_singleton]%elem_of_app. auto.
Qed.

Definition stepOf (ty : Z) : Z := if ty =? PrevoteType then RoundStepPrevote else RoundStepPrecommit.

(** The effect of a vote *)
Lemma signAddVote_inv clock ty hash hd s a s' :
  signAddVote clock ty hash hd s = Done (a, s') ->
  quiet s s' \/
  exists v, view (csRS s') = view (csRS s) /\ csTrace s' = csTrace s ++ [SendInternal (VoteMessage v)] /\
    vType v = ty /\ vHeight v = rsHeight (csRS s) /\ vRound v = rsRound (csRS s) /\ vBlockID v = mkBlockID hash hd.
Proof.
  intros E. unfold signAddVote in E. apply sbind_inv in E as (s1 & s2 & [= -> ->] & E). unfold id in E.
  destruct (csPrivValidator s2) as [pv|] eqn:Ep; [|injection E as <- <-; left; apply quiet_refl].
  destruct (pv_GetPubKey pv) as [?|pk] eqn:Ek; [injection E as <- <-; left; apply quiet_refl|].
  destruct (negb _); [injection E as <- <-; left; apply quiet_refl|].
  apply sbind_inv in E as ([vote err] & s3 & E1 & E).
  assert (csTrace s3 = csTrace s2 /\ view (csRS s3) = view (csRS s2) /\
    forall v, vote = Some v -> vType v = ty /\ vHeight v = rsHeight (csRS s2) /\ vRound v = rsRound (csRS s2) /\
      vBlockID v = mkBlockID hash hd) as (Et & Ev & Hv).
  { unfold signVote in E1. apply sbind_inv in E1 as (s4 & s5 & [= -> ->] & E1). unfold id in E1.
    rewrite Ep, Ek in E1. destruct (GetByAddress _ _) as [idx ?].
    apply sbind_inv in E1 as (t & s6 & Et & E1). unfold voteTime in Et.
    apply sbind_inv in Et as (now & s7 & [= <- <-] & Et). injection Et as <- <-.
    apply sbind_inv in E1 as ([[pv' v] err'] & s8 & [_ ->]%lift_inv & E1). injection E1 as <- <- <-.
    split_and!; [done..|]. by intros ? [= <-]. }
  destruct err as [e|].
  { injection E as <- <-. left. split; [done|]. exists []. by rewrite Et, app_nil_r. }
  destruct vote as [v|]; injection E as <- <-.
  - right. exists v. destruct (Hv v eq_refl) as (? & ? & ? & ?). simpl. by rewrite Et.
  - left. split; [done|]. exists []. by rewrite Et, app_nil_r.
Qed.

Lemma active_lt st s v w :
  active st s -> w ∈ sent h (csTrace s) -> vType w = PrevoteType \/ vType w = PrecommitType ->
  vType v = PrevoteType \/ vType v = PrecommitType ->
  st < stepOf (vType v) -> vRound v = rsRound (csRS s) -> vote_lt w v.
Proof.
  intros A Hw Tw Tv Hst Er. unfold vote_lt. rewrite Er.
  destruct (ac_bound _ _ A w Hw) as [?|[-> Hle]]; [by left|right]. split; [done|].
  unfold stepOf, RoundStepPrevote, RoundStepPrecommit, PrevoteType, PrecommitType in *.
  destruct (Z.eqb_spec (vType v) 1), (Z.eqb_spec (vType w) 1); lia.
Qed.

Lemma Inv_vote clock ty hash hd st s a s' :
  signAddVote clock ty hash hd s = Done (a, s') -> Inv st s ->
  ty = PrevoteType \/ ty = PrecommitType -> st < stepOf ty ->
  (rsHeight (csRS s) = h -> ty = PrecommitType -> hash <> [] ->
     quorum chainID h vals R PrevoteType (rsRound (csRS s)) (mkBlockID hash hd) /\
     rsRound (csRS s) <= rsLockedRound (csRS s) /\
     exists b, rsLockedBlock (csRS s) = Some b /\ hashOf b = Some hash) ->
  (rsHeight (csRS s) = h -> ty = PrevoteType -> forall p, p ∈ sent h (csTrace s) -> commits p ->
     hash <> bidHash (vBlockID p) -> released chainID h vals R p (rsRound (csRS s))) ->
  Inv (stepOf ty) s' /\ view (csRS s') = view (csRS s).
Proof.
  intros E I Hty Hst Hpc Hpv.
  destruct (signAddVote_inv _ _ _ _ _ _ _ E) as [Q|(v & V & Et & E1 & E2 & E3 & E4)].
  { split; [|apply Q]. apply (Inv_mono st); [lia|]. by eapply quiet_Inv. }
  split; [|done]. injection V as V1 V2 V3 V4 V5 V6 V7. destruct I as [I1 I2 I3 I4 I5 I6].
  assert (sent h (csTrace s') = sent h (csTrace s) ++ (if rsHeight (csRS s) =? h then [v] else [])) as Es.
  { rewrite Et, sent_app. unfold sent at 2. simpl. rewrite E2. by destruct (_ =? h). }
  assert (forall e, e ∈ csTrace s' -> e = SendInternal (VoteMessage v) \/ e ∈ csTrace s) as Hin.
  { intros e. rewrite Et, elem_of_app, list_elem_of_singleton. tauto. }
  destruct (Z.eqb_spec (rsHeight (csRS s)) h) as [Eh|Hne]; cycle 1.
  { rewrite app_nil_r in Es. split; rewrite ?Es, ?V1, ?V3, ?V7; try done.
    - intros b block [?|?]%Hin; [done|auto].
    - intros block parts commit [?|?]%Hin; [done|auto]. }
  specialize (I5 Eh). specialize (Hpc Eh). specialize (Hpv Eh).
  assert (forall w, w ∈ sent h (csTrace s) -> vote_lt w v) as Hlt.
  { intros w Hw. eapply active_lt; [done|done|by eapply law_type|by rewrite E1|by rewrite E1|done]. }
  assert (commits v -> hash <> [] /\ ty = PrecommitType) as Hcv.
  { intros [C1 C2]. rewrite E4 in C2. split; [done|congruence]. }
  split; rewrite ?V1, ?V3, ?V7; try done.
  - rewrite Es. apply lawful_snoc; [done|done|by rewrite E1| |].
    + intros Hc. destruct (Hcv Hc). rewrite E3, E4. by apply Hpc.
    + intros Hp p Hin' Hc Hne. rewrite E3. apply Hpv; [congruence|done|done|]. by rewrite E4 in Hne.
  - intros b block [?|?]%Hin; [done|auto].
  - intros _. destruct I5 as [A1 A2 A3 A4 A5 A6 A7 A8 A9]. split; rewrite ?V6, ?V2; try done.
    + rewrite Es. intros w [Hw|Hw]%elem_of_app.
      * destruct (A7 w Hw) as [?|[? ?]]; [by left|right]. split; [done|]. lia.
      * apply list_elem_of_singleton in Hw as ->. right. split; [done|]. rewrite E1. done.
    + rewrite Es. intros p [Hp|Hp]%elem_of_app Hc.
      * destruct (A8 p Hp Hc) as [[L1 L2]|?]; [left|by right]. split; [by rewrite V4|by rewrite V5].
      * apply list_elem_of_singleton in Hp as ->. left. destruct (Hcv Hc) as [Hne Ht].
        destruct (Hpc Ht Hne) as (_ & Hr & b & Hb & Hh). split; [by rewrite E3, V4|].
        exists b. rewrite V5, E4. done.
    + intros ti [?|?]%Hin Eti; [done|]. auto.
  - intros block parts commit [?|?]%Hin; [done|auto].
Qed.

(** *** Reading the state *)

Lemma theRS_inv s r s' : theRS s = Done (r, s') -> r = csRS s /\ s' = s.
Proof. by intros [= <- <-]. Qed.

Lemma Prevotes_inv r s o s' :
  Prevotes r s = Done (o, s') -> s' = s /\ getVoteSet r PrevoteType (rsVotes (csRS s)) = Done o.
Proof. intros E. apply sbind_inv in E as (x & s1 & [= <- <-] & E). by apply lift_inv in E as [E ->]. Qed.

Lemma Precommits_inv r s o s' :
  Precommits r s = Done (o, s') -> s' = s /\ getVoteSet r PrecommitType (rsVotes (csRS s)) = Done o.
Proof. intros E. apply sbind_inv in E as (x & s1 & [= <- <-] & E). by apply lift_inv in E as [E ->]. Qed.

Lemma blockHash_inv b s x s' : blockHash (Some b) s = Done (x, s') -> s' = s /\ hashOf b = Some x.
Proof.
  intros E. apply lift_inv in E as [E ->]. split; [done|]. unfold hashOf.
  apply bind_Done_inv in E as ([y ?] & -> & E). by injection E as ->.
Qed.

Lemma HashesTo_inv o hash s r s' :
  HashesTo o hash s = Done (r, s') ->
  s' = s /\ (r = true <-> hash <> [] /\ exists b, o = Some b /\ hashOf b = Some hash).
Proof.
  intros E. apply lift_inv in E as [E ->]. split; [done|]. unfold Block_HashesTo in E.
  destruct hash as [|x hash]; simpl in E.
  { injection E as <-. split; [done|]. by intros [? _]. }
  destruct o as [b|]; [|injection E as <-; split; [done|]; by intros (_ & ? & ? & _)].
  assert (exists y, hashOf b = Some y /\ r = bool_decide (y = x :: hash)) as (y & Ey & ->).
  { unfold hashOf. destruct (Block_Hash (Some b)) as [[y ?]|]; [|done]. simpl in E. injection E as <-. eauto. }
  rewrite bool_decide_eq_true. split; [intros ->; eauto|]. intros (_ & b' & [= <-] & Eb). congruence.
Qed.

End invariant.
