(* ===== verification/ConsensusSteps.v ===== *)
(** * The handlers keep the invariant

    Each handler of Consensus.v that returns keeps the invariant of
    ConsensusInv.v, for the votes received up to then. *)

From Stdlib Require Import ZArith Lia.
From S2P Require Import Prelude SafeMath Proto BitArray Validator ValidatorSet BlockTypes SignBytes.
From S2P Require Import Merkle PartSet Header Block CommitVerify VoteSet VoteSetInv VoteSetClaims LockChange HeightVoteSet.
From S2P Require Import VoteOrigin Consensus ConsensusInv.
From stdpp Require Import base gmap list option strings numbers sorting.

Local Open Scope Z_scope.

(** One bind of a handler that returned *)
Tactic Notation "run" hyp(E) "as" simple_intropattern(x) ident(s1) ident(E1) :=
  apply sbind_inv in E as (x & s1 & E1 & E).

(** The state after a quiet step *)
Ltac quiet_of E Q :=
  match type of E with
  | ?m ?s = Done (?a, ?s') =>
    assert (quiet s s') as Q by (refine ((_ : quietly m) s a s' E); quiet_auto)
  end.

(** A bind of a quiet step *)
Tactic Notation "skip" hyp(E) "as" simple_intropattern(x) ident(s1) ident(Q) :=
  let E1 := fresh "E" in
  apply sbind_inv in E as (x & s1 & E1 & E); quiet_of E1 Q; clear E1.

Section steps.
Context `{Crypto} {TH : TmHash} {ST : StdTime} {W : Wrappers} {EI : EvidenceImpl} {BC : BlockCodec}.
Context {PV EX BS Rest : Type} `{!PrivValidator PV} `{!BlockExecutor EX Rest} `{!BlockStore BS}.
Notation State := (@State EI PV EX BS Rest).
Notation M := (@M EI PV EX BS Rest).
Implicit Types (s : State).
Variables (cfg : ConsensusConfig) (clock : nat -> Time) (readSizes : nat -> nat).
Variables (chainID : bytes) (h : Z) (vals : ValidatorSet) (R : list Vote).
Hypothesis h_pos : 1 <= h.

Notation Inv := (Inv chainID h vals R).
Notation active := (active chainID h vals R).
Notation released := (released chainID h vals R).
Notation quorum := (quorum chainID h vals R).

(** The node has voted up to its step. *)
Definition Good s : Prop := Inv (rsStep (csRS s)) s.

(** Steps within a height *)
Definition within s s' : Prop :=
  rsHeight (csRS s') = rsHeight (csRS s) /\
  (rsRound (csRS s) < rsRound (csRS s') \/
   (rsRound (csRS s') = rsRound (csRS s) /\ rsStep (csRS s) <= rsStep (csRS s'))).

(** Steps that may end a height *)
Definition later s s' : Prop := rsHeight (csRS s) < rsHeight (csRS s') \/ within s s'.

Lemma within_refl s : within s s.
Proof. split; [done|lia]. Qed.
Lemma within_trans s1 s2 s3 : within s1 s2 -> within s2 s3 -> within s1 s3.
Proof. intros [? ?] [? ?]. split; [congruence|lia]. Qed.
Lemma within_later s s' : within s s' -> later s s'.
Proof. by right. Qed.
Lemma later_trans s1 s2 s3 : later s1 s2 -> later s2 s3 -> later s1 s3.
Proof.
  intros [?|W1] [?|W2]; [left; lia|left; destruct W2; lia|left; destruct W1; lia|right].
  by eapply within_trans.
Qed.
Lemma later_refl s : later s s.
Proof. right. apply within_refl. Qed.

Lemma view_fields (r r' : RoundState) :
  view r' = view r -> rsHeight r' = rsHeight r /\ rsRound r' = rsRound r /\ rsStep r' = rsStep r /\
    rsLockedRound r' = rsLockedRound r /\ rsLockedBlock r' = rsLockedBlock r /\ rsVotes r' = rsVotes r /\
    rsCommitRound r' = rsCommitRound r.
Proof. by intros [= -> -> -> -> -> -> ->]. Qed.

Lemma quiet_within s s' : quiet s s' -> within s s'.
Proof. intros [V _]. apply view_fields in V as (E1 & E2 & E3 & _). split; [done|lia]. Qed.

Lemma quiet_Good s s' : quiet s s' -> Good s -> Good s' /\ within s s'.
Proof.
  intros Q G. split; [|by apply quiet_within]. unfold Good.
  destruct (view_fields _ _ (proj1 Q)) as (_ & _ & -> & _). by eapply quiet_Inv.
Qed.

(** The round of a call is not ahead of the node. *)
Definition timely height round s : Prop :=
  rsHeight (csRS s) = height -> height = h -> round <= rsRound (csRS s).

(** At other heights the step does not matter. *)
Lemma Inv_other st st' s : Inv st s -> rsHeight (csRS s) <> h -> Inv st' s.
Proof. intros [I1 I2 I3 I4 I5 I6] Hne. by split. Qed.

Lemma Inv_below st st' s :
  Inv st s -> (rsHeight (csRS s) = h -> st <= st') -> Inv st' s.
Proof.
  intros I Hle. destruct (Z.eq_dec (rsHeight (csRS s)) h) as [Eh|]; [|by eapply Inv_other].
  eapply Inv_mono; [|done]. auto.
Qed.

(** *** Locks *)

Lemma lock_free st s p :
  active st s -> rsLockedBlock (csRS s) = None -> p ∈ sent h (csTrace s) -> commits p ->
  released p (rsRound (csRS s)).
Proof.
  intros A El Hp Hc. destruct (ac_lock _ _ _ _ _ _ A p Hp Hc) as [(_ & b & Hb & _)|?]; [congruence|done].
Qed.

Lemma defaultDoPrevote_ok st s a s' :
  defaultDoPrevote clock s = Done (a, s') -> Inv st s -> st < RoundStepPrevote ->
  Inv RoundStepPrevote s' /\ view (csRS s') = view (csRS s).
Proof.
  intros E I Hst. unfold defaultDoPrevote in E. run E as x s1 E1. injection E1 as -> ->. unfold id in E.
  assert (forall hash hd s2, signAddVote clock PrevoteType hash hd s1 = Done (a, s2) ->
    (rsHeight (csRS s1) = h -> forall p, p ∈ sent h (csTrace s1) -> commits p ->
       hash <> bidHash (vBlockID p) -> released p (rsRound (csRS s1))) ->
    Inv RoundStepPrevote s2 /\ view (csRS s2) = view (csRS s1)) as Hvote.
  { intros hash hd s2 Es Hr. change RoundStepPrevote with (stepOf PrevoteType).
    eapply Inv_vote; try done; [by left|]. intros Eh _. auto. }
  destruct (rsLockedBlock (csRS s1)) as [b|] eqn:El.
  - run E as hash s2 E1. apply blockHash_inv in E1 as [-> Eh1]. eapply Hvote; [done|].
    intros Eh p Hp Hc Hne.
    destruct (ac_lock _ _ _ _ _ _ (inv_active _ _ _ _ _ _ I Eh) p Hp Hc) as [(_ & b' & Hb & Hh)|?]; [|done].
    congruence.
  - assert (rsHeight (csRS s1) = h -> forall p, p ∈ sent h (csTrace s1) -> commits p ->
              released p (rsRound (csRS s1))) as Hfree
      by (intros Eh p Hp Hc; exact (lock_free st s1 p (inv_active _ _ _ _ _ _ I Eh) El Hp Hc)).
    destruct (rsProposalBlock (csRS s1)) as [b|]; [|eapply Hvote; [done|auto]].
    destruct (ex_ValidateBlock _ _ _); [eapply Hvote; [done|auto]|].
    run E as hash s2 E1. apply blockHash_inv in E1 as [-> _]. eapply Hvote; [done|auto].
Qed.

Lemma tooLate_false (rs : RoundState) height round step :
  tooLate rs height round step = false ->
  rsHeight rs = height /\ rsRound rs <= round /\ (rsRound rs = round -> rsStep rs < step).
Proof. unfold tooLate. intros E. lia. Qed.

(** A timely call that is not too late is for the round of the node, which has
    not voted at the step yet. *)
Lemma on_time step height round s :
  Good s -> tooLate (csRS s) height round step = false -> timely height round s ->
  rsHeight (csRS s) = height /\ (rsRound (csRS s) < round \/ (rsRound (csRS s) = round /\ rsStep (csRS s) < step)) /\
  Inv (step - 1) s /\ (rsHeight (csRS s) = h -> rsRound (csRS s) = round).
Proof.
  intros G Et Hr. apply tooLate_false in Et as (Eh & Hle & Hst).
  assert (rsHeight (csRS s) = h -> rsRound (csRS s) = round) as Er
    by (intros E; specialize (Hr Eh ltac:(congruence)); lia).
  split_and!; [done|lia| |done]. eapply Inv_below; [exact G|]. intros E. specialize (Hst (Er E)). lia.
Qed.

(** The end of a handler: the step is set and published *)
Lemma finish_step round step s a s' st :
  sbind (updateRoundStep round step) (fun _ => newStep) s = Done (a, s') -> Inv st s ->
  rsRound (csRS s) <= round -> (rsRound (csRS s) = round -> st <= step) -> step <> RoundStepCommit ->
  Good s' /\ rsHeight (csRS s') = rsHeight (csRS s) /\ rsRound (csRS s') = round /\ rsStep (csRS s') = step.
Proof.
  intros E I Hr Hle Hne. run E as x s1 E1. quiet_of E Q.
  assert (Inv step s1) as I1 by (by eapply Inv_updateRoundStep).
  injection E1 as _ <-. destruct (quiet_Good _ _ Q I1) as [G _].
  destruct (view_fields _ _ (proj1 Q)) as (V1 & V2 & V3 & _). simpl in V1, V2, V3. done.
Qed.

Lemma enterPrevote_ok height round s a s' :
  enterPrevote clock height round s = Done (a, s') -> Good s ->
  timely height round s -> Good s' /\ within s s'.
Proof.
  intros E G Hr. unfold enterPrevote in E. run E as x s1 E1. apply theRS_inv in E1 as [-> ->].
  destruct (tooLate (csRS s) height round RoundStepPrevote) eqn:Et.
  { injection E as <- <-. split; [done|apply within_refl]. }
  destruct (on_time _ _ _ _ G Et Hr) as (Eh & Hle & I & Er).
  run E as x s1 E1. destruct (defaultDoPrevote_ok _ _ _ _ E1 I ltac:(done)) as [I1 V].
  apply view_fields in V as (V1 & V2 & _).
  eapply finish_step in E as (G' & E' & Er' & Es'); [|done|lia|done|done].
  split; [done|]. split; [congruence|lia].
Qed.

(** *** Rounds *)

Lemma propose_ok st height round s a s' :
  propose cfg clock height round s = Done (a, s') -> Inv st s -> timely height round s ->
  Inv st s' /\ view (csRS s') = view (csRS s).
Proof.
  intros E I Hr. unfold propose in E. run E as x s1 E1.
  assert (Inv st s1) as I1 by (eapply Inv_schedule; [done|done|]; intros -> ?; by apply Hr).
  injection E1 as _ <-. quiet_of E Q. split; [by eapply quiet_Inv|apply Q].
Qed.

Lemma enterPropose_ok height round s a s' :
  enterPropose cfg clock height round s = Done (a, s') -> Good s ->
  timely height round s -> Good s' /\ within s s'.
Proof.
  intros E G Hr. unfold enterPropose in E. run E as x s1 E1. apply theRS_inv in E1 as [-> ->].
  destruct (tooLate (csRS s) height round RoundStepPropose) eqn:Et.
  { injection E as <- <-. split; [done|apply within_refl]. }
  destruct (on_time _ _ _ _ G Et Hr) as (Eh & Hle & I & Er).
  run E as x s1 E1. destruct (propose_ok _ _ _ _ _ _ E1 I Hr) as [I1 V].
  apply view_fields in V as (V1 & V2 & _). run E as x2 s2 E2.
  assert (Inv RoundStepPropose s2) as I2
    by (eapply Inv_updateRoundStep; [done|done|lia|done|done]).
  injection E2 as _ <-. skip E as x3 s3 Q3. destruct (quiet_Good _ _ Q3 I2) as [G3 [W1 W2]].
  skip E as complete s4 Q4. destruct (quiet_Good _ _ Q4 G3) as [G4 [W3 W4]]. simpl in W1, W2.
  assert (within s s4) as W5 by (split; [congruence|lia]).
  destruct complete; [|by injection E as <- <-].
  run E as rs s5 E5. apply theRS_inv in E5 as [-> ->].
  apply enterPrevote_ok in E as [G' W']; [|done|by intros _ _]. split; [done|by eapply within_trans].
Qed.

Lemma SafeAddInt32_succ r n : 0 <= r -> SafeAddInt32 r 1 = Done n -> n = r + 1.
Proof.
  intros Hr E. unfold SafeAddInt32 in E. destruct (Z.ltb_spec (MaxInt32 - 1) r); [done|]. simpl in E.
  injection E as <-. apply wrap32_id. unfold int32, MinInt32. lia.
Qed.

Lemma SetRound_bound n hvs hvs' : n <= MaxInt32 -> SetRound n hvs = Done hvs' -> n < MaxInt32.
Proof.
  intros Hle E. unfold SetRound in E. apply bind_Done_inv in E as (nr & _ & E).
  destruct (_ && _); [done|]. destruct (Z.eqb_spec n MaxInt32); [done|lia].
Qed.

(** The new vote sets of a round *)
Lemma newRound_votes st round next votes s a s' :
  SafeAddInt32 round 1 = Done next -> SetRound next (rsVotes (csRS s)) = Done votes ->
  modifyRS (setVotes votes) s = Done (a, s') -> rsRound (csRS s) = round -> Inv st s -> Inv st s'.
Proof.
  intros En Es E Er I. eapply Inv_setVotes; [done|done|]. intros Eh.
  destruct (inv_active _ _ _ _ _ _ I Eh) as [A1 A2 A3 A4 A5 [A6 A6'] A7 A8 A9].
  assert (next <= MaxInt32) as Hmax.
  { unfold SafeAddInt32 in En. destruct (_ && _); [done|]. destruct (_ && _); [done|]. injection En as <-.
    pose proof (wrap32_range (round + 1)). unfold int32 in *. lia. }
  pose proof (SetRound_bound _ _ _ Hmax Es). apply SafeAddInt32_succ in En as ->; [|lia].
  destruct (SetRound_spec (rsVotes (csRS s)) (round + 1) A1 ltac:(lia)) as (v & Ev & I' & F & Er' & _).
  rewrite Es in Ev. injection Ev as <-. split_and!; try done; [|lia]. by eapply SetRound_from.
Qed.

Lemma enterNewRound_ok height round s a s' :
  enterNewRound cfg clock height round s = Done (a, s') -> Good s ->
  Good s' /\ within s s' /\ (rsHeight (csRS s) = height -> round <= rsRound (csRS s')).
Proof.
  intros E G. unfold enterNewRound in E. run E as x s1 E1. apply theRS_inv in E1 as [-> ->].
  destruct (_ || _ || _) eqn:Et.
  { injection E as <- <-. split; [done|]. split; [apply within_refl|]. intros Eh. lia. }
  assert (rsHeight (csRS s) = height /\ rsRound (csRS s) <= round /\
    (rsRound (csRS s) = round -> rsStep (csRS s) = RoundStepNewHeight)) as (Eh & Hle & Hst) by lia.
  skip E as x1 s1 Q1. skip E as vs s2 Q2. pose proof (quiet_trans _ _ _ Q1 Q2) as Q.
  assert (Inv (rsStep (csRS s)) s2) as I2 by (by eapply quiet_Inv).
  destruct (view_fields _ _ (proj1 Q)) as (V1 & V2 & V3 & _). clear Q1 Q2 Q.
  run E as x3 s3 E3. assert (Inv RoundStepNewRound s3) as I3.
  { eapply Inv_updateRoundStep; [done|done|lia|rewrite V2; intros Er; rewrite (Hst Er)|]; done. }
  injection E3 as _ <-. skip E as x4 s4 Q4. skip E as x5 s5 Q5. pose proof (quiet_trans _ _ _ Q4 Q5) as Q6.
  run E as next s6 E6. apply lift_inv in E6 as [En ->]. run E as rs s7 E7. apply theRS_inv in E7 as [-> ->].
  run E as votes s8 E8. apply lift_inv in E8 as [Es ->].
  assert (Inv RoundStepNewRound s5) as I5 by (by eapply quiet_Inv).
  destruct (view_fields _ _ (proj1 Q6)) as (U1 & U2 & U3 & _). simpl in U1, U2, U3. clear Q4 Q5 Q6.
  run E as x9 s9 E9. assert (Inv RoundStepNewRound s9) as I9 by (by eapply newRound_votes).
  injection E9 as _ <-. skip E as x10 s10 Q10. skip E as x11 s11 Q11. skip E as x12 s12 Q12.
  pose proof (quiet_trans _ _ _ Q10 (quiet_trans _ _ _ Q11 Q12)) as Q13.
  destruct (view_fields _ _ (proj1 Q13)) as (T1 & T2 & T3 & _). simpl in T1, T2, T3.
  assert (Good s12) as G12 by (unfold Good; rewrite T3, U3; by eapply quiet_Inv). clear Q10 Q11 Q12 Q13.
  assert (RoundStepNewHeight <= RoundStepNewRound) as Hsteps by done.
  assert (within s s12 /\ rsRound (csRS s12) = round) as [W12 Er]
    by (split; [split; [congruence|lia]|congruence]).
  destruct (_ && _ && _).
  - destruct (0 <? _).
    + assert (rsStep (csRS s') = rsStep (csRS s12) /\ rsRound (csRS s') = round /\
              rsHeight (csRS s') = rsHeight (csRS s12)) as (S1 & S2 & S3) by (by injection E as _ <-).
      split; [|split; [eapply within_trans; [exact W12|split; [done|lia]]|lia]].
      unfold Good. rewrite S1. eapply Inv_schedule; [done|done|]. intros _ _. lia.
    + injection E as _ <-. split; [done|]. split; [done|lia].
  - apply enterPropose_ok in E as [G' [W1 W2]]; [|done|intros _ _; lia]. split; [done|].
    split; [by eapply within_trans|lia].
Qed.

Lemma enterPrevoteWait_ok height round s a s' :
  enterPrevoteWait cfg height round s = Done (a, s') -> Good s ->
  timely height round s -> Good s' /\ within s s'.
Proof.
  intros E G Hr. unfold enterPrevoteWait in E. run E as x s1 E1. apply theRS_inv in E1 as [-> ->].
  destruct (tooLate (csRS s) height round RoundStepPrevoteWait) eqn:Et.
  { injection E as <- <-. split; [done|apply within_refl]. }
  destruct (on_time _ _ _ _ G Et Hr) as (Eh & Hle & I & Er).
  skip E as o s1 Q1. skip E as any s2 Q2. pose proof (quiet_trans _ _ _ Q1 Q2) as Q.
  apply (quiet_Inv _ _ _ _ _ _ _ Q) in I. destruct (view_fields _ _ (proj1 Q)) as (V1 & V2 & _).
  destruct any; [|done]. simpl in E. run E as x3 s3 E3.
  assert (Inv (RoundStepPrevoteWait - 1) s3) as I3
    by (eapply Inv_schedule; [done|done|]; intros _ ?; rewrite V2, Er by congruence; lia).
  injection E3 as _ <-.
  eapply finish_step in E as (G' & E' & Er' & Es'); [|done|simpl; lia|done|done].
  simpl in E'. split; [done|]. split; [congruence|lia].
Qed.

Lemma enterPrecommitWait_ok height round s a s' :
  enterPrecommitWait cfg height round s = Done (a, s') -> Good s ->
  timely height round s -> Good s' /\ within s s'.
Proof.
  intros E G Hr. unfold enterPrecommitWait in E. run E as x s1 E1. apply theRS_inv in E1 as [-> ->].
  destruct (_ || _ || _) eqn:Et; [injection E as <- <-; split; [done|apply within_refl]|].
  assert (rsHeight (csRS s) = height) as Eh by lia.
  skip E as o s1 Q1. skip E as any s2 Q2. pose proof (quiet_trans _ _ _ Q1 Q2) as Q.
  destruct (quiet_Good _ _ Q G) as [G2 [W1 W2]].
  destruct any; [|done]. simpl in E. run E as x3 s3 E3.
  assert (Inv (rsStep (csRS s2)) s3) as I3
    by (eapply Inv_schedule; [done|done|]; intros -> _; specialize (Hr Eh eq_refl); lia).
  injection E3 as _ <-. quiet_of E Q4. apply (quiet_Good _ _ Q4) in I3 as [G' [W3 W4]].
  simpl in W3, W4. split; [done|]. split; [congruence|lia].
Qed.

(** *** Precommits *)

(** Precommits sent before the step are for earlier rounds. *)
Lemma earlier st s p :
  active st s -> st < RoundStepPrecommit -> p ∈ sent h (csTrace s) -> commits p -> vRound p < rsRound (csRS s).
Proof.
  intros A Hst Hp [Hc _]. destruct (ac_bound _ _ _ _ _ _ A p Hp) as [?|[_ Hle]]; [done|].
  rewrite Hc in Hle. change (PrecommitType =? PrevoteType) with false in Hle. cbn match in Hle. lia.
Qed.

(** A nil precommit, or one for a block with a quorum that is locked *)
Lemma precommit_vote hash hd st s a s' :
  signAddVote clock PrecommitType hash hd s = Done (a, s') -> Inv st s -> st < RoundStepPrecommit ->
  (rsHeight (csRS s) = h -> hash <> [] ->
     quorum PrevoteType (rsRound (csRS s)) (mkBlockID hash hd) /\
     rsRound (csRS s) <= rsLockedRound (csRS s) /\
     exists b, rsLockedBlock (csRS s) = Some b /\ hashOf b = Some hash) ->
  Inv RoundStepPrecommit s' /\ view (csRS s') = view (csRS s).
Proof.
  intros E I Hst Hq. change RoundStepPrecommit with (stepOf PrecommitType).
  eapply Inv_vote; try done; [by right|]. intros Eh _. auto.
Qed.

(** The step is left with a vote, and with the height and the round as they were. *)
Definition precommitted s s' : Prop :=
  Inv RoundStepPrecommit s' /\ rsHeight (csRS s') = rsHeight (csRS s) /\ rsRound (csRS s') = rsRound (csRS s).

Lemma view_precommitted s1 s2 s' :
  rsHeight (csRS s2) = rsHeight (csRS s1) -> rsRound (csRS s2) = rsRound (csRS s1) ->
  Inv RoundStepPrecommit s' /\ view (csRS s') = view (csRS s2) -> precommitted s1 s'.
Proof. intros E1 E2 [I V]. apply view_fields in V as (V1 & V2 & _). split; [done|]. split; congruence. Qed.

(** Giving up the lock on a quorum of prevotes of the round for something else *)
Lemma unlock_ok st b s a s' :
  unlock s = Done (a, s') -> Inv st s -> st < RoundStepPrecommit ->
  (rsHeight (csRS s) = h -> quorum PrevoteType (rsRound (csRS s)) b) ->
  (forall blk, rsLockedBlock (csRS s) = Some blk -> hashOf blk = Some (bidHash b) -> bidHash b = []) ->
  Inv st s'.
Proof.
  intros E I Hst Hq Hne. eapply Inv_setLocked; [exact E|done|]. intros Eh p Hp Hc (_ & blk & Hb & Hh). right.
  exists (rsRound (csRS s)), b. split_and!; [|lia| |by apply Hq].
  - by eapply earlier; [apply (inv_active _ _ _ _ _ _ I Eh)|..].
  - intros Eb. destruct Hc as [_ Hc]. rewrite <- Eb in Hh, Hc. by apply Hc, (Hne blk).
Qed.

(** Locking on a block with a quorum of prevotes in the round, and precommitting it *)
Lemma lock_ok st b blk parts round e s a s' :
  sbind (modifyRS (setLocked round (Some blk) parts)) (fun _ => sbind (publish e) (fun _ =>
    signAddVote clock PrecommitType (bidHash b) (bidPartSetHeader b))) s = Done (a, s') ->
  Inv st s -> st < RoundStepPrecommit -> (rsHeight (csRS s) = h -> rsRound (csRS s) = round) ->
  (rsHeight (csRS s) = h -> quorum PrevoteType (rsRound (csRS s)) b) ->
  hashOf blk = Some (bidHash b) -> precommitted s s'.
Proof.
  intros E I Hst Er Hq Hh. run E as x3 s3 E3.
  assert (Inv st s3) as I3.
  { eapply Inv_setLocked; [done|done|]. injection E3 as _ <-. intros Eh p Hp Hc _.
    pose proof (earlier _ _ _ (inv_active _ _ _ _ _ _ I Eh) Hst Hp Hc) as Hlt.
    destruct (decide (bidHash b = bidHash (vBlockID p))) as [Ep|Hnp].
    - left. rewrite (Er Eh) in Hlt. split; [simpl; lia|]. exists blk. simpl. by rewrite <- Ep.
    - right. exists (rsRound (csRS s)), b. split_and!; [lia..|done|auto]. }
  injection E3 as _ <-. skip E as x4 s4 Q4.
  destruct (view_fields _ _ (proj1 Q4)) as (U1 & U2 & U3 & U4 & U5 & _). simpl in U1, U2, U3, U4, U5.
  eapply (view_precommitted s s4); [congruence|congruence|].
  eapply precommit_vote; [exact E|by eapply quiet_Inv|done|]. rewrite U1, U2, U4, U5. intros Eh _.
  split_and!; [|by rewrite (Er Eh)|eauto]. destruct b as [? ?]. auto.
Qed.

(** Giving up the lock and precommitting nil *)
Lemma give_up_ok st b s a3 s3 s4 a s' :
  unlock s = Done (a3, s3) -> quiet s3 s4 ->
  signAddVote clock PrecommitType [] zeroPartSetHeader s4 = Done (a, s') ->
  Inv st s -> st < RoundStepPrecommit ->
  (rsHeight (csRS s) = h -> quorum PrevoteType (rsRound (csRS s)) b) ->
  (forall blk, rsLockedBlock (csRS s) = Some blk -> hashOf blk = Some (bidHash b) -> bidHash b = []) ->
  precommitted s s'.
Proof.
  intros E3 Q E I Hst Hq Hne. assert (Inv st s3) as I3 by (by eapply (unlock_ok _ b)).
  injection E3 as _ <-. destruct (view_fields _ _ (proj1 Q)) as (U1 & U2 & _). simpl in U1, U2.
  eapply (view_precommitted s s4); [done|done|].
  eapply precommit_vote; [exact E|by eapply quiet_Inv|done|done].
Qed.

Lemma precommitted_quiet s s1 s' : quiet s s1 -> precommitted s1 s' -> precommitted s s'.
Proof.
  intros Q (I & E1 & E2). destruct (view_fields _ _ (proj1 Q)) as (V1 & V2 & _).
  split; [done|]. split; congruence.
Qed.

Lemma precommit_ok st round s a s' :
  precommit clock round s = Done (a, s') -> Inv st s -> st < RoundStepPrecommit ->
  (rsHeight (csRS s) = h -> rsRound (csRS s) = round) -> precommitted s s'.
Proof.
  intros E I Hst Er. unfold precommit in E. run E as prevotes s1 E1. apply Prevotes_inv in E1 as [-> Eg].
  destruct (TwoThirdsMajority prevotes) as [b ok] eqn:Em. destruct ok; cycle 1.
  { eapply (view_precommitted s s); [done|done|]. by eapply precommit_vote. }
  assert (rsHeight (csRS s) = h -> quorum PrevoteType (rsRound (csRS s)) b) as Hq.
  { intros Eh. rewrite (Er Eh). destruct (inv_active _ _ _ _ _ _ I Eh) as [A1 A2 A3 A4 A5 _ _ _ _].
    eapply majority_quorum; try done. by left. }
  skip E as x1 s1 Q1. run E as rs s2 E2. apply theRS_inv in E2 as [-> ->].
  destruct (view_fields _ _ (proj1 Q1)) as (V1 & V2 & _). rewrite <- V1, <- V2 in Hq, Er.
  assert (Inv st s1) as I1 by (by eapply quiet_Inv). eapply precommitted_quiet; [exact Q1|]. clear Q1 I Eg V1 V2.
  run E as pol s2 E2. apply lift_inv in E2 as [_ ->]. destruct pol as [polRound ?]. destruct (polRound <? _); [done|].
  destruct (Nat.eqb_spec (length (bidHash b)) 0) as [Eb%length_zero_iff_nil|Hb].
  { run E as x3 s3 E3. destruct (rsLockedBlock (csRS s1)) as [blk|].
    - run E3 as x4 s4 E4. quiet_of E3 Q. by eapply give_up_ok.
    - injection E3 as _ <-. eapply (view_precommitted s1 s1); [done|done|]. eapply precommit_vote; [exact E|done..]. }
  run E as relock s2 E2. apply HashesTo_inv in E2 as [-> Hrl]. destruct relock.
  { destruct (proj1 Hrl eq_refl) as (Hne & blk & Hblk & Hh). rewrite Hblk in E. by eapply lock_ok. }
  run E as lock s2 E2. apply HashesTo_inv in E2 as [-> Hlk]. run E as sx s2 E2. injection E2 as -> ->. unfold id in E.
  destruct lock.
  { destruct (proj1 Hlk eq_refl) as (Hne & blk & Hblk & Hh). rewrite Hblk in E.
    destruct (ex_ValidateBlock _ _ _); [done|]. by eapply lock_ok. }
  run E as x3 s3 E3. skip E as x4 s4 Q4. skip E as x5 s5 Q5.
  eapply (give_up_ok _ b); [done|by eapply quiet_trans|exact E|done..|].
  intros blk Hblk Hh. assert (bidHash b <> []) by (intros E0; by rewrite E0 in Hb). by assert (false = true) by (apply Hrl; eauto).
Qed.

Lemma enterPrecommit_ok height round s a s' :
  enterPrecommit clock height round s = Done (a, s') -> Good s ->
  timely height round s -> Good s' /\ within s s'.
Proof.
  intros E G Hr. unfold enterPrecommit in E. run E as x s1 E1. apply theRS_inv in E1 as [-> ->].
  destruct (tooLate (csRS s) height round RoundStepPrecommit) eqn:Et.
  { injection E as <- <-. split; [done|apply within_refl]. }
  destruct (on_time _ _ _ _ G Et Hr) as (Eh & Hle & I & Er). run E as x s1 E1.
  destruct (precommit_ok _ _ _ _ _ E1 I ltac:(done) Er) as (I1 & V1 & V2).
  eapply finish_step in E as (G' & E' & Er' & Es'); [|done|lia|done|done].
  split; [done|]. split; [congruence|lia].
Qed.

(** *** Commits *)

Lemma Inv_applied st height b block s a s' :
  emit (AppliedBlock height b block) s = Done (a, s') -> Inv st s ->
  (height = h -> justified chainID h vals R b block) -> Inv st s'.
Proof.
  intros [= <- <-] [I1 I2 I3 I4 I5 I6] Hj.
  assert (sent h (csTrace s ++ [AppliedBlock height b block]) = sent h (csTrace s)) as Es
    by (rewrite sent_app; apply app_nil_r).
  split; simpl; rewrite ?Es; try done.
  - intros b' block' [?|Hin]%elem_of_app; [auto|].
    apply list_elem_of_singleton in Hin. injection Hin as <- -> ->. auto.
  - intros Eh. destruct (I5 Eh) as [A1 A2 A3 A4 A5 A6 A7 A8 A9]. split; simpl; rewrite ?Es; try done.
    intros ti [?|[=]%list_elem_of_singleton]%elem_of_app. auto.
  - intros block' parts' commit' [?|[=]%list_elem_of_singleton]%elem_of_app. auto.
Qed.

(** A majority of precommits gives a commit that verifies. *)
Lemma majority_commit st s r vs b :
  active st s -> getVoteSet r PrecommitType (rsVotes (csRS s)) = Done (Some vs) ->
  TwoThirdsMajority (Some vs) = (b, true) -> bidHash b <> [] ->
  MakeCommit vs = Done (madeCommit vs b) /\ Validators (vsValSet vs) = Validators vals /\
  VerifyCommit chainID b h (madeCommit vs b) (vsValSet vs)
  = Done (None, setTotalVotingPower (sumZ VotingPower (Validators (vsValSet vs))) (vsValSet vs)).
Proof.
  intros [A1 A2 A3 A4 A5 _ _ _ _] Ep Em Hne.
  destruct (getVoteSet_spec _ r PrecommitType A1 (or_intror eq_refl)) as (o & Eo & _ & Hs).
  rewrite Ep in Eo. injection Eo as <-.
  destruct (Hs vs eq_refl) as (Iv & C1 & C2 & C3 & C4 & C5). pose proof (proj1 (TwoThirdsMajority_maj vs b) Em) as Hm.
  split_and!; [by apply MakeCommit_Done|congruence|].
  rewrite <- A3, <- C1. replace h with (vsHeight vs) by congruence. apply MakeCommit_verifies; try done.
  destruct (in_maj _ _ _ Iv b Hm) as (_ & [Hz|?] & _); [|done].
  unfold BlockID_IsZero in Hz. destruct (bidHash b); done.
Qed.

Lemma Inv_saved st height block parts commit s a s' :
  emit (SavedBlock height block parts commit) s = Done (a, s') -> Inv st s ->
  (height = h -> saved_right chainID h vals R block parts commit) -> Inv st s'.
Proof.
  intros [= <- <-] [I1 I2 I3 I4 I5 I6] Hj.
  assert (sent h (csTrace s ++ [SavedBlock height block parts commit]) = sent h (csTrace s)) as Es
    by (rewrite sent_app; apply app_nil_r).
  split; simpl; rewrite ?Es; try done.
  - intros b' block' [?|[=]%list_elem_of_singleton]%elem_of_app. auto.
  - intros Eh. destruct (I5 Eh) as [A1 A2 A3 A4 A5 A6 A7 A8 A9]. split; simpl; rewrite ?Es; try done.
    intros ti [?|[=]%list_elem_of_singleton]%elem_of_app. auto.
  - intros block' parts' commit' [?|Hin]%elem_of_app; [auto|].
    apply list_elem_of_singleton in Hin. injection Hin as <- -> -> ->. auto.
Qed.

(** The invariant is kept, and the node does not go back. *)
Definition reaches s s' : Prop := Good s' /\ later s s'.

Lemma reaches_refl s : Good s -> reaches s s.
Proof. intros G. split; [done|apply later_refl]. Qed.
Lemma reaches_within s s' : Good s' /\ within s s' -> reaches s s'.
Proof. intros [G ?]. split; [done|by right]. Qed.
Lemma reaches_after s s1 s' : within s s1 -> reaches s1 s' -> reaches s s'.
Proof. intros W1 [G L]. split; [done|]. eapply later_trans; [by right|done]. Qed.
Lemma reaches_trans s s1 s' : later s s1 -> reaches s1 s' -> reaches s s'.
Proof. intros W1 [G L]. split; [done|]. by eapply later_trans. Qed.
Lemma quiet_reaches s s' : quiet s s' -> Good s -> reaches s s'.
Proof. intros Q G. by apply reaches_within, quiet_Good. Qed.

(** The next height *)
Lemma updateToState_ok state s a s' :
  updateToState cfg clock state s = Done (a, s') -> Good s -> -1 < rsCommitRound (csRS s) ->
  rsHeight (csRS s) < MaxInt64 -> reaches s s'.
Proof.
  intros E G Hc Hmax. unfold updateToState in E. run E as x s1 E1. injection E1 as -> ->. unfold id in E.
  pose proof (inv_height _ _ _ _ _ _ G) as Hh.
  destruct (_ && _ && _) eqn:E1; [done|]. destruct (_ && negb (wrap64 _ =? _)); [done|].
  destruct (_ && (_ <=? _)); [quiet_of E Q; by apply quiet_reaches|].
  assert (smLastBlockHeight state = rsHeight (csRS s1)) as El by lia.
  run E as lc s2 E2. apply lift_inv in E2 as [_ ->]. skip E as t s2 Q2. run E as rs s3 E3.
  apply lift_inv in E3 as [Er ->]. run E as x4 s4 E4. injection E4 as _ <-. quiet_of E Q.
  assert (rsHeight rs = rsHeight (csRS s1) + 1 /\ rsStep rs = RoundStepNewHeight) as [E5 E6].
  { unfold resetRoundState in Er. apply bind_Done_inv in Er as (v & _ & Er).
    apply bind_Done_inv in Er as (w & _ & Er). injection Er as <-. simpl. split; [|done].
    rewrite El. apply wrap64_id. unfold int64, MinInt64 in *. lia. }
  split; cycle 1.
  { left. destruct (view_fields _ _ (proj1 Q)) as (V1 & _). simpl in V1. lia. }
  eapply quiet_Good; [exact Q|]. apply (quiet_Inv _ _ _ _ _ _ _ Q2) in G as [I1 I2 I3 I4 I5 I6].
  split; simpl; try done; [lia|by rewrite E6|lia].
Qed.

Lemma scheduleRound0_ok s a s' : scheduleRound0 clock s = Done (a, s') -> Good s -> reaches s s'.
Proof.
  intros E G. unfold scheduleRound0 in E. run E as x s1 E1. apply theRS_inv in E1 as [-> ->].
  skip E as now s1 Q. destruct (quiet_Good _ _ Q G) as [G1 W1].
  assert (csRS s' = csRS s1) as Er by (by injection E as _ <-).
  split; [|right; unfold within in *; by rewrite Er]. unfold Good. rewrite Er.
  eapply Inv_schedule; [done|done|]. intros _ Eh. apply (ac_round _ _ _ _ _ _ (inv_active _ _ _ _ _ _ G1 Eh)).
Qed.

Lemma saveBlock_ok block parts b precommits s a s' :
  saveBlock block parts s = Done (a, s') -> Good s ->
  getVoteSet (rsCommitRound (csRS s)) PrecommitType (rsVotes (csRS s)) = Done precommits ->
  TwoThirdsMajority precommits = (b, true) ->
  bidHash b <> [] -> hashOf block = Some (bidHash b) -> PartSet_Header (Some parts) = bidPartSetHeader b ->
  Good s' /\ view (csRS s') = view (csRS s).
Proof.
  intros E G Ep Em Hne Hh Hp. unfold saveBlock in E. run E as x s1 E1. injection E1 as -> ->. unfold id in E.
  destruct (_ <? _); [|by injection E as _ <-].
  run E as y s2 E2. apply Precommits_inv in E2 as [-> E2]. assert (y = precommits) as -> by congruence.
  run E as vs s2 E3. apply lift_inv in E3 as [E3 ->]. destruct precommits as [vs'|]; [|done]. injection E3 as ->.
  run E as commit s2 E4. apply lift_inv in E4 as [E4 ->]. run E as bs s2 E5. apply lift_inv in E5 as [_ ->].
  skip E as z s2 Q. destruct (quiet_Good _ _ Q G) as [G2 _].
  assert (csRS s' = csRS s2) as Er by (by injection E as _ <-). unfold Good. rewrite Er. split; [|apply Q].
  eapply Inv_saved; [exact E|exact G2|]. intros Eh. pose proof (inv_active _ _ _ _ _ _ G Eh) as A.
  destruct (majority_commit _ _ _ _ _ A Ep Em Hne) as (Ec & Ev & Hv). assert (commit = madeCommit vs b) as -> by congruence.
  exists (rsCommitRound (csRS s1)), b, (vsValSet vs). eexists. split_and!; try done.
  destruct A as [A1 A2 A3 A4 A5 _ _ _ _]. eapply majority_quorum; try done. by right.
Qed.

Lemma commitBlock_ok height block parts b precommits s a s' :
  commitBlock cfg clock height block parts s = Done (a, s') -> Good s -> -1 < rsCommitRound (csRS s) ->
  rsHeight (csRS s) = height -> height < MaxInt64 ->
  getVoteSet (rsCommitRound (csRS s)) PrecommitType (rsVotes (csRS s)) = Done precommits ->
  TwoThirdsMajority precommits = (b, true) ->
  bidHash b <> [] -> hashOf block = Some (bidHash b) -> PartSet_Header (Some parts) = bidPartSetHeader b ->
  reaches s s'.
Proof.
  intros E G0 Hc Eh Hmax Ep Em Hne Hh Hp. unfold commitBlock in E.
  run E as x s0 E1. injection E1 as -> ->. unfold id in E.
  run E as x1 s1 E1. apply (saveBlock_ok _ _ b precommits) in E1 as [G V]; [|done..].
  assert (height = h -> quorum PrecommitType (rsCommitRound (csRS s0)) b) as Hq.
  { intros E0. destruct (inv_active _ _ _ _ _ _ G0 ltac:(congruence)) as [A1 A2 A3 A4 A5 _ _ _ _].
    eapply majority_quorum; try done. by right. }
  pose proof (view_fields _ _ V) as (V01 & V02 & V03 & _ & _ & _ & V07). rewrite <- V07 in Hc, Hq. rewrite <- V01 in Eh.
  assert (within s0 s1) as W0 by (split; [done|lia]). eapply reaches_after; [exact W0|]. clear Ep V V01 V02 V03 V07 W0 G0.
  skip E as x2 s3 Q3. run E as hash s4 E4. apply blockHash_inv in E4 as [-> Eb].
  run E as y s5 E5. apply lift_inv in E5 as [_ ->]. destruct y as [ex r].
  skip E as x3 s4 Q4. pose proof (quiet_trans _ _ _ Q3 Q4) as Q5. clear Q3 Q4.
  destruct (quiet_Good _ _ Q5 G) as [G4 W4]. destruct (view_fields _ _ (proj1 Q5)) as (V1 & _ & _ & _ & _ & _ & V7).
  eapply reaches_after; [exact W4|].
  destruct r as [e|[st' retain]]; [injection E as _ <-; by apply reaches_refl|].
  run E as x5 s5 E5. assert (Good s5) as G5.
  { assert (csRS s5 = csRS s4) as Er by (by injection E5 as _ <-). unfold Good. rewrite Er.
    eapply Inv_applied; [done|done|]. intros E0. rewrite Hp. split_and!; simpl; [congruence|done|].
    exists (rsCommitRound (csRS s1)). replace hash with (bidHash b) by congruence. destruct b. auto. }
  injection E5 as _ <-. skip E as x6 s6 Q6. skip E as x7 s7 Q7. pose proof (quiet_trans _ _ _ Q6 Q7) as Q8.
  destruct (quiet_Good _ _ Q8 G5) as [G7 W7]. destruct (view_fields _ _ (proj1 Q8)) as (U1 & _ & _ & _ & _ & _ & U7).
  simpl in U1, U7. run E as x8 s8 E8. eapply reaches_after; [exact W7|].
  apply updateToState_ok in E8 as [G8 L8]; [|done|lia|lia]. eapply reaches_trans; [exact L8|].
  by eapply scheduleRound0_ok.
Qed.

Lemma PartSetHeader_Equals_eq a b : PartSetHeader_Equals a b = true -> a = b.
Proof.
  unfold PartSetHeader_Equals. destruct a as [t x], b as [t' x']. simpl.
  rewrite andb_true_iff, Z.eqb_eq, bool_decide_eq_true. by intros [-> ->].
Qed.

Lemma finalizeCommit_ok height s a s' :
  finalizeCommit cfg clock height s = Done (a, s') -> Good s -> rsHeight (csRS s) < MaxInt64 -> reaches s s'.
Proof.
  intros E G Hmax. unfold finalizeCommit in E. run E as x s1 E1. injection E1 as -> ->. unfold id in E.
  destruct (_ || _) eqn:Eg; [injection E as _ <-; by apply reaches_refl|].
  assert (rsHeight (csRS s1) = height /\ rsStep (csRS s1) = RoundStepCommit) as [Eh Est] by lia.
  pose proof (inv_commit _ _ _ _ _ _ G Est) as Hc.
  run E as precommits s2 E2. apply Precommits_inv in E2 as [-> Ep].
  destruct (TwoThirdsMajority precommits) as [b ok] eqn:Em. destruct ok; [|done]. simpl in E.
  destruct (PartSet_HasHeader _ _) eqn:Ehd; [|done]. simpl in E.
  run E as hashes s2 E2. apply HashesTo_inv in E2 as [-> Hhash]. destruct hashes; [|done]. simpl in E.
  destruct (proj1 Hhash eq_refl) as (Hne & blk & Hblk & Hh).
  run E as block s2 E2. apply lift_inv in E2 as [Hb ->]. rewrite Hblk in Hb. injection Hb as <-.
  run E as parts s2 E2. apply lift_inv in E2 as [Hp ->].
  destruct (partsAt s1 _) as [ps|]; [|done]. injection Hp as <-.
  destruct (ex_ValidateBlock _ _ _); [done|].
  eapply (commitBlock_ok _ _ _ b precommits); try done; [lia|by apply PartSetHeader_Equals_eq].
Qed.

Lemma tryFinalizeCommit_ok height s a s' :
  tryFinalizeCommit cfg clock height s = Done (a, s') -> Good s -> rsHeight (csRS s) < MaxInt64 -> reaches s s'.
Proof.
  intros E G Hmax. unfold tryFinalizeCommit in E. run E as x s1 E1. apply theRS_inv in E1 as [-> ->].
  destruct (negb _); [done|]. run E as precommits s2 E2. apply Precommits_inv in E2 as [-> Ep].
  destruct (TwoThirdsMajority precommits) as [b ok].
  destruct (_ || _); [injection E as _ <-; by apply reaches_refl|].
  run E as hashes s2 E2. apply HashesTo_inv in E2 as [-> _].
  destruct hashes; [eapply finalizeCommit_ok; [exact E|done..]|injection E as _ <-; by apply reaches_refl].
Qed.

(** The step and the round of the commit are set together. *)
Lemma commit_step commitRound s x1 s1 now s2 x3 s3 :
  updateRoundStep (rsRound (csRS s)) RoundStepCommit s = Done (x1, s1) -> Now clock s1 = Done (now, s2) ->
  modifyRS (setCommit commitRound now) s2 = Done (x3, s3) ->
  Good s -> rsStep (csRS s) < RoundStepCommit -> -1 < commitRound ->
  Good s3 /\ within s s3.
Proof.
  intros [= _ <-] [= <- <-] [= _ <-] G Hst Hc. split; [|split; [done|right; simpl; lia]].
  assert (exists y sc, modifyRS (setCommit commitRound (clock (csTick s))) s = Done (y, sc)) as (y & sc & Ec)
    by (do 2 eexists; reflexivity).
  pose proof (Inv_setCommit _ _ _ _ _ _ _ _ _ _ Ec G Hc) as I1. injection Ec as _ <-.
  match type of I1 with ConsensusInv.Inv _ _ _ _ _ ?sc =>
    assert (exists y sd, updateRoundStep (rsRound (csRS s)) RoundStepCommit sc = Done (y, sd)) as (y' & sd & Ed)
      by (do 2 eexists; reflexivity) end.
  eapply (Inv_updateRoundStep _ _ _ _ _ RoundStepCommit) in I1; [|exact Ed|simpl; lia|simpl; lia|done].
  injection Ed as _ <-. eapply Inv_eq; [| |exact I1]; done.
Qed.

Lemma enterCommit_ok height commitRound s a s' :
  enterCommit cfg clock height commitRound s = Done (a, s') -> Good s -> rsHeight (csRS s) < MaxInt64 ->
  -1 < commitRound -> reaches s s'.
Proof.
  intros E G Hmax Hc. unfold enterCommit in E. run E as x s1 E1. apply theRS_inv in E1 as [-> ->].
  destruct (_ || _) eqn:Eg; [injection E as _ <-; by apply reaches_refl|].
  run E as precommits s1 E1. apply Precommits_inv in E1 as [-> _].
  destruct (TwoThirdsMajority precommits) as [b ok]. destruct ok; [|done]. simpl in E.
  skip E as locked s1 Q1. skip E as x2 s2 Q2. run E as sx s3 E3. injection E3 as -> ->. unfold id in E.
  skip E as have s4 Q4. skip E as x5 s5 Q5.
  pose proof (quiet_trans _ _ _ Q1 (quiet_trans _ _ _ Q2 (quiet_trans _ _ _ Q4 Q5))) as Q.
  destruct (quiet_Good _ _ Q G) as [G5 W5]. destruct (view_fields _ _ (proj1 Q)) as (V1 & _ & V3 & _).
  destruct (view_fields _ _ (proj1 (quiet_trans _ _ _ Q4 Q5))) as (_ & V2 & _). rewrite <- V2 in E.
  run E as x6 s6 E6. run E as now s7 E7. run E as x8 s8 E8.
  destruct (commit_step _ _ _ _ _ _ _ _ E6 E7 E8 G5 ltac:(lia) Hc) as [G8 W8].
  skip E as x9 s9 Q9. destruct (quiet_Good _ _ Q9 G8) as [G9 W9].
  pose proof (within_trans _ _ _ W5 (within_trans _ _ _ W8 W9)) as Ws. eapply reaches_after; [exact Ws|].
  eapply tryFinalizeCommit_ok; [exact E|done|destruct Ws; lia].
Qed.

(** *** Blocks *)

Lemma gotProposalBlock_ok height block s a s' :
  gotProposalBlock cfg clock height block s = Done (a, s') -> Good s -> rsHeight (csRS s) < MaxInt64 -> reaches s s'.
Proof.
  intros E G Hmax. unfold gotProposalBlock in E. skip E as x1 s1 Q1. skip E as x2 s2 Q2.
  run E as rs s3 E3. apply theRS_inv in E3 as [-> ->]. skip E as prevotes s3 Q3.
  destruct (TwoThirdsMajority prevotes) as [b ok]. skip E as x4 s4 Q4. skip E as complete s5 Q5.
  pose proof (quiet_trans _ _ _ Q1 Q2) as Q12. pose proof (quiet_trans _ _ _ Q3 (quiet_trans _ _ _ Q4 Q5)) as Q35.
  destruct (quiet_Good _ _ (quiet_trans _ _ _ Q12 Q35) G) as [G5 W5]. eapply reaches_after; [exact W5|].
  destruct (view_fields _ _ (proj1 Q35)) as (V1 & V2 & _). destruct W5 as [W1 _].
  destruct complete.
  - run E as x6 s6 E6. apply enterPrevote_ok in E6 as [G6 W6]; [|done|intros _ _; lia].
    eapply reaches_after; [exact W6|].
    destruct ok; [|injection E as _ <-; by apply reaches_refl]. run E as rs s7 E7. apply theRS_inv in E7 as [-> ->].
    apply enterPrecommit_ok in E; [by apply reaches_within|done|by intros _ _].
  - destruct (_ =? RoundStepCommit); [|injection E as _ <-; by apply reaches_refl].
    eapply tryFinalizeCommit_ok; [exact E|done|lia].
Qed.

Lemma addProposalBlockPart_ok height part s a s' :
  addProposalBlockPart cfg clock readSizes height part s = Done (a, s') -> Good s ->
  rsHeight (csRS s) < MaxInt64 -> reaches s s'.
Proof.
  intros E G Hmax. unfold addProposalBlockPart in E. run E as x s1 E1. injection E1 as -> ->. unfold id in E.
  destruct (negb _); [injection E as _ <-; by apply reaches_refl|]. skip E as pt s2 Q2.
  destruct (rsProposalBlockParts _); [|injection E as _ <-; by apply quiet_reaches].
  skip E as ps s3 Q3. skip E as y s4 Q4. destruct y as [[ps' added] err]. skip E as x5 s5 Q5.
  pose proof (quiet_trans _ _ _ Q2 (quiet_trans _ _ _ Q3 (quiet_trans _ _ _ Q4 Q5))) as Q.
  destruct (quiet_Good _ _ Q G) as [G5 W5]. clear Q2 Q3 Q4 Q5 Q. eapply reaches_after; [exact W5|]. destruct W5 as [W5 _].
  destruct err; [injection E as _ <-; by apply reaches_refl|].
  destruct (_ && _); [|injection E as _ <-; by apply reaches_refl].
  skip E as r s6 Q6. destruct (quiet_Good _ _ Q6 G5) as [G6 W6]. eapply reaches_after; [exact W6|]. destruct W6 as [W6 _].
  destruct r as [e|blk]; [injection E as _ <-; by apply reaches_refl|].
  destruct (ex_CheckBlock _ _); [injection E as _ <-; by apply reaches_refl|].
  run E as x7 s7 E7. injection E as _ <-. eapply gotProposalBlock_ok; [exact E7|done|lia].
Qed.

(** *** Votes *)

Lemma onPolka_ok vote b s a s' :
  onPolka vote b s = Done (a, s') -> Good s ->
  (rsHeight (csRS s) = h -> quorum PrevoteType (vRound vote) b) ->
  Good s' /\ rsHeight (csRS s') = rsHeight (csRS s) /\ rsRound (csRS s') = rsRound (csRS s) /\
  rsStep (csRS s') = rsStep (csRS s).
Proof.
  intros E G Hq. unfold onPolka in E. run E as rs s1 E1. apply theRS_inv in E1 as [-> ->].
  run E as x1 s1 E1. assert (Good s1 /\ rsHeight (csRS s1) = rsHeight (csRS s) /\
    rsRound (csRS s1) = rsRound (csRS s) /\ rsStep (csRS s1) = rsStep (csRS s)) as (G1 & V1 & V2 & V3).
  { destruct (bool_decide _ && _ && _) eqn:Eg; [|by injection E1 as _ <-].
    run E1 as same s2 E2. apply HashesTo_inv in E2 as [-> Hs]. destruct same; [by injection E1 as _ <-|].
    run E1 as x3 s3 E3. assert (Good s3) as G3.
    { assert (rsStep (csRS s3) = rsStep (csRS s)) as Est by (by injection E3 as _ <-). unfold Good. rewrite Est.
      eapply Inv_setLocked; [exact E3|done|]. intros Eh p Hp Hc (Hr & blk & Hb & Hh). right.
      exists (vRound vote), b. split_and!; [lia..| |auto]. intros Eb. destruct Hc as [_ Hc].
      assert (false = true) as ?; [|done]. apply Hs. rewrite Eb. eauto. }
    injection E3 as _ <-. quiet_of E1 Q. destruct (quiet_Good _ _ Q G3) as [G4 _].
    destruct (view_fields _ _ (proj1 Q)) as (V1 & V2 & V3 & _). done. }
  quiet_of E Q. destruct (quiet_Good _ _ Q G1) as [G2 _]. destruct (view_fields _ _ (proj1 Q)) as (U1 & U2 & U3 & _).
  split; [done|]. split_and!; congruence.
Qed.

Lemma onPrevote_ok height vote s a s' :
  onPrevote cfg clock height vote s = Done (a, s') -> Good s -> Good s' /\ within s s'.
Proof.
  intros E G. unfold onPrevote in E. run E as prevotes s1 E1. apply Prevotes_inv in E1 as [-> Eg].
  destruct (TwoThirdsMajority prevotes) as [b ok] eqn:Em. run E as x1 s1 E1.
  assert (Good s1 /\ within s s1) as [G1 W1].
  { destruct ok; [|injection E1 as _ <-; split; [done|apply within_refl]].
    eapply onPolka_ok in E1 as (? & ? & ? & ?); [split; [done|split; [done|lia]]|done|]. intros Eh.
    destruct (inv_active _ _ _ _ _ _ G Eh) as [A1 A2 A3 A4 A5 _ _ _ _].
    eapply majority_quorum; try done. by left. }
  run E as rs s2 E2. apply theRS_inv in E2 as [-> ->]. skip E as sk s2 Q2. destruct (quiet_Good _ _ Q2 G1) as [G2 W2].
  destruct (view_fields _ _ (proj1 Q2)) as (_ & V2 & _). pose proof (within_trans _ _ _ W1 W2) as W3.
  enough (Good s' /\ within s2 s') as [? ?] by (split; [done|by eapply within_trans]).
  destruct sk; [by apply enterNewRound_ok in E as (? & ? & _)|]. destruct (_ && _) eqn:Ec.
  - skip E as complete s3 Q3. destruct (quiet_Good _ _ Q3 G2) as [G3 W3'].
    destruct (view_fields _ _ (proj1 Q3)) as (_ & V3 & _).
    enough (Good s' /\ within s3 s') as [? ?] by (split; [done|by eapply within_trans]).
    assert (timely height (vRound vote) s3) as T by (intros _ _; lia).
    destruct (ok && _); [by apply enterPrecommit_ok in E|].
    skip E as any s4 Q4. destruct (quiet_Good _ _ Q4 G3) as [G4 W4].
    destruct (view_fields _ _ (proj1 Q4)) as (_ & V4 & _).
    destruct any; [|by injection E as _ <-].
    apply enterPrevoteWait_ok in E as [? ?]; [split; [done|by eapply within_trans]|done|intros _ _; lia].
  - assert (forall s3, quiet s2 s3 -> Good s3 /\ within s2 s3) as Hq by (intros s3 Q; by apply quiet_Good).
    destruct (rsProposal _); [|injection E as _ <-; by apply Hq, quiet_refl].
    destruct ((0 <=? _) && _); [|injection E as _ <-; by apply Hq, quiet_refl].
    skip E as complete s3 Q3. destruct (quiet_Good _ _ Q3 G2) as [G3 W3'].
    destruct (view_fields _ _ (proj1 Q3)) as (_ & V3 & _). destruct complete; [|by injection E as _ <-].
    apply enterPrevote_ok in E as [? ?]; [split; [done|by eapply within_trans]|done|intros _ _; lia].
Qed.

Lemma onPrecommit_ok height vote s a s' :
  onPrecommit cfg clock height vote s = Done (a, s') -> Good s -> rsHeight (csRS s) < MaxInt64 ->
  rsHeight (csRS s) = height -> 0 <= vRound vote -> reaches s s'.
Proof.
  intros E G Hmax Eh Hr. unfold onPrecommit in E. run E as precommits s1 E1. apply Precommits_inv in E1 as [-> Eg].
  destruct (TwoThirdsMajority precommits) as [b ok] eqn:Em. destruct ok.
  - run E as x1 s1 E1. apply enterNewRound_ok in E1 as (G1 & W1 & T1); [|done]. specialize (T1 Eh).
    run E as x2 s2 E2. apply enterPrecommit_ok in E2 as [G2 W2]; [|done|by intros _ _].
    pose proof (within_trans _ _ _ W1 W2) as W3. eapply reaches_after; [exact W3|]. destruct W2 as [_ W2'], W3 as [W3 _].
    destruct (negb _).
    + run E as x3 s3 E3. apply enterCommit_ok in E3 as [G3 L3]; [|done|lia|lia]. eapply reaches_trans; [exact L3|].
      skip E as all s4 Q4. destruct (quiet_Good _ _ Q4 G3) as [G4 W4]. eapply reaches_after; [exact W4|].
      destruct all; [|injection E as _ <-; by apply reaches_refl].
      run E as rs s5 E5. apply theRS_inv in E5 as [-> ->]. apply enterNewRound_ok in E as (? & ? & _); [|done].
      by apply reaches_within.
    + apply reaches_within. apply enterPrecommitWait_ok in E; [done|done|intros _ _; lia].
  - run E as rs s1 E1. apply theRS_inv in E1 as [-> ->]. skip E as any s1 Q1.
    destruct (quiet_Good _ _ Q1 G) as [G1 W1]. eapply reaches_after; [exact W1|]. destruct W1 as [W1 _].
    destruct any; [|injection E as _ <-; by apply reaches_refl].
    run E as x2 s2 E2. apply enterNewRound_ok in E2 as (G2 & W2 & T2); [|done]. eapply reaches_after; [exact W2|].
    apply reaches_within. apply enterPrecommitWait_ok in E; [done|done|intros _ _; apply T2; congruence].
Qed.

(** A vote that is handled was received, passed its basic validation, and has
    sign bytes. *)
Definition handled (vote : Vote) : Prop :=
  vote ∈ R /\ vote_good vote /\ exists bz, VoteSignBytes chainID (Vote_ToProto vote) = Done bz.

Lemma handled_round vote : handled vote -> 0 <= vRound vote.
Proof.
  intros (_ & [_ Hv] & _). unfold Vote_ValidateBasic in Hv.
  destruct (negb (IsVoteTypeValid _)); [done|]. destruct (vHeight vote <? 0); [done|].
  destruct (Z.ltb_spec (vRound vote) 0); [done|lia].
Qed.

Lemma addLastPrecommit_ok vote s a s' :
  addLastPrecommit cfg clock vote s = Done (a, s') -> Good s -> reaches s s'.
Proof.
  intros E G. unfold addLastPrecommit in E. run E as rs s1 E1. apply theRS_inv in E1 as [-> ->].
  destruct (negb _); [injection E as _ <-; by apply reaches_refl|]. skip E as y s1 Q1. destruct y as [[added err] vs].
  skip E as x2 s2 Q2. destruct (quiet_Good _ _ (quiet_trans _ _ _ Q1 Q2) G) as [G2 W2].
  eapply reaches_after; [exact W2|].
  destruct (negb _); [injection E as _ <-; by apply reaches_refl|]. skip E as x3 s3 Q3. skip E as all s4 Q4.
  destruct (quiet_Good _ _ (quiet_trans _ _ _ Q3 Q4) G2) as [G4 W4]. eapply reaches_after; [exact W4|].
  run E as x5 s5 E5. injection E as _ <-.
  destruct all; [|injection E5 as _ <-; by apply reaches_refl].
  apply enterNewRound_ok in E5 as (? & ? & _); [by apply reaches_within|done].
Qed.

Lemma csAddVote_ok vote peer s a s' :
  csAddVote cfg clock vote peer s = Done (a, s') -> Good s -> rsHeight (csRS s) < MaxInt64 ->
  handled vote -> reaches s s'.
Proof.
  intros E G Hmax Hv. unfold csAddVote in E. run E as rs s1 E1. apply theRS_inv in E1 as [-> ->].
  destruct (_ && _); [by eapply addLastPrecommit_ok|]. destruct (negb _); [injection E as _ <-; by apply reaches_refl|].
  run E as y s1 E1. apply lift_inv in E1 as [Ea ->]. destruct y as [[added err] votes].
  run E as x2 s2 E2. assert (Good s2 /\ within s s2) as [G2 W2].
  { split; [|injection E2 as _ <-; split; [done|right; done]].
    assert (rsStep (csRS s2) = rsStep (csRS s)) as Est by (by injection E2 as _ <-). unfold Good. rewrite Est.
    eapply Inv_setVotes; [exact E2|done|]. intros Eh.
    destruct (inv_active _ _ _ _ _ _ G Eh) as [A1 A2 A3 A4 A5 [A6 A6'] A7 A8 A9].
    destruct Hv as (Hin & Hg & bz & Hbz). rewrite <- A3 in Hbz.
    destruct (HVS_AddVote_spec _ vote peer bz A1 Hg Hbz) as (a' & e' & v' & Ea' & _ & I' & F & Er).
    rewrite Ea in Ea'. injection Ea' as <- <- <-. split_and!; [done| |done|lia].
    by eapply HVS_AddVote_from. }
  destruct (negb _); [injection E as _ <-; by apply reaches_within|].
  skip E as x3 s3 Q3. destruct (quiet_Good _ _ Q3 G2) as [G3 W3]. pose proof (within_trans _ _ _ W2 W3) as W23.
  eapply reaches_after; [exact W23|]. destruct W23 as [W23 _].
  run E as x4 s4 E4. injection E as _ <-.
  destruct (vType vote =? PrevoteType); [by eapply reaches_within, onPrevote_ok|].
  destruct (vType vote =? PrecommitType); [|done].
  eapply onPrecommit_ok; [exact E4|done|lia|congruence|by apply handled_round].
Qed.

Lemma tryAddVote_ok vote peer s a s' :
  tryAddVote cfg clock vote peer s = Done (a, s') -> Good s -> rsHeight (csRS s) < MaxInt64 ->
  handled vote -> reaches s s'.
Proof.
  intros E G Hmax Hv. unfold tryAddVote in E. run E as y s1 E1. destruct y as [added err].
  apply csAddVote_ok in E1 as [G1 L1]; [|done..]. quiet_of E Q.
  eapply reaches_trans; [exact L1|]. by apply quiet_reaches.
Qed.

Lemma handleMsg_ok msg peer s a s' :
  handleMsg cfg clock readSizes msg peer s = Done (a, s') -> Good s -> rsHeight (csRS s) < MaxInt64 ->
  (forall vote, msg = VoteMessage vote -> handled vote) -> reaches s s'.
Proof.
  intros E G Hmax Hv. unfold handleMsg in E. destruct msg as [proposal|height round part|vote].
  - quiet_of E Q. by apply quiet_reaches.
  - run E as y s1 E1. destruct y as [added err]. apply addProposalBlockPart_ok in E1 as [G1 L1]; [|done..].
    quiet_of E Q. eapply reaches_trans; [exact L1|]. by apply quiet_reaches.
  - run E as y s1 E1. destruct y as [added err]. apply tryAddVote_ok in E1 as [G1 L1]; [|auto..].
    quiet_of E Q. eapply reaches_trans; [exact L1|]. by apply quiet_reaches.
Qed.

Lemma handleTimeout_ok ti s a s' :
  handleTimeout cfg clock ti s = Done (a, s') -> Good s -> Schedule ti ∈ csTrace s -> Good s' /\ within s s'.
Proof.
  intros E G Hti. unfold handleTimeout in E. run E as rs s1 E1. apply theRS_inv in E1 as [-> ->].
  assert (timely (tiHeight ti) (tiRound ti) s) as T.
  { intros E0 Eh. apply (ac_timeouts _ _ _ _ _ _ (inv_active _ _ _ _ _ _ G ltac:(congruence)) ti Hti Eh). }
  destruct (_ || _ || _); [injection E as _ <-; split; [done|apply within_refl]|].
  destruct (_ =? RoundStepNewHeight); [by apply enterNewRound_ok in E as (? & ? & _)|].
  destruct (_ =? RoundStepNewRound).
  { apply enterPropose_ok in E; [done|done|]. intros E0 Eh.
    apply (ac_round _ _ _ _ _ _ (inv_active _ _ _ _ _ _ G ltac:(congruence))). }
  assert (forall s1, quiet s s1 -> Good s1 /\ within s s1 /\ timely (tiHeight ti) (tiRound ti) s1) as Hq.
  { intros s1 Q. destruct (quiet_Good _ _ Q G) as [G1 [W1 W2]]. split_and!; [done..|].
    intros E0 Eh. specialize (T ltac:(congruence) Eh). lia. }
  assert (forall s1 s2, within s s1 -> Good s2 /\ within s1 s2 -> Good s2 /\ within s s2) as Ht.
  { intros s1 s2 W1 [? W2]. split; [done|by eapply within_trans]. }
  destruct (_ =? RoundStepPropose).
  { skip E as x s1 Q. destruct (Hq _ Q) as (? & Ws & ?). apply (Ht s1); [done|]. by apply enterPrevote_ok in E. }
  destruct (_ =? RoundStepPrevoteWait).
  { skip E as x s1 Q. destruct (Hq _ Q) as (? & Ws & ?). apply (Ht s1); [done|]. by apply enterPrecommit_ok in E. }
  destruct (_ =? RoundStepPrecommitWait); [|done].
  skip E as x s1 Q. destruct (Hq _ Q) as (? & Ws & ?). run E as x2 s2 E2.
  apply enterPrecommit_ok in E2 as [G2 W2]; [|done..].
  apply (Ht s2); [by eapply within_trans|]. by apply enterNewRound_ok in E as (? & ? & _).
Qed.

Lemma handleTxsAvailable_ok s a s' :
  handleTxsAvailable cfg clock s = Done (a, s') -> Good s -> Good s' /\ within s s'.
Proof.
  intros E G. unfold handleTxsAvailable in E. run E as rs s1 E1. apply theRS_inv in E1 as [-> ->].
  assert (Good s /\ within s s) as Hs by (split; [done|apply within_refl]).
  destruct (negb _); [by injection E as _ <-|]. destruct (_ =? RoundStepNewRound); [|by injection E as _ <-].
  apply enterPropose_ok in E; [done|done|]. intros _ Eh.
  apply (ac_round _ _ _ _ _ _ (inv_active _ _ _ _ _ _ G Eh)).
Qed.

(** What the reactor, the queue and the ticker promise about an input *)
Definition input_ok (i : input) s : Prop :=
  match i with
  | PeerMsg (VoteMessage vote) _ | InternalMsg (VoteMessage vote) => handled vote
  | Timeout ti => Schedule ti ∈ csTrace s
  | _ => True
  end.

Lemma receive_ok i s a s' :
  receive cfg clock readSizes i s = Done (a, s') -> Good s -> rsHeight (csRS s) < MaxInt64 ->
  input_ok i s -> reaches s s'.
Proof.
  intros E G Hmax Hi. destruct i as [msg peer|msg|ti|]; simpl in E, Hi.
  - eapply handleMsg_ok; [exact E|done|done|]. by intros vote ->.
  - eapply handleMsg_ok; [exact E|done|done|]. by intros vote ->.
  - by eapply reaches_within, handleTimeout_ok.
  - by eapply reaches_within, handleTxsAvailable_ok.
Qed.

End steps.
