(* ===== verification/ConsensusSafety.v ===== *)
(** * Safety of the consensus protocol

    Runs of one node, and of a network of nodes that exchange votes with
    validators of which less than a third of the voting power is faulty: no two
    correct nodes apply different blocks at a height. *)

From Stdlib Require Import ZArith Lia.
From S2P Require Import Prelude SafeMath Proto BitArray Validator ValidatorSet ValidatorSetUpdate BlockTypes SignBytes.
From S2P Require Import Merkle PartSet Header Block VoteSet VoteSetInv VoteSetClaims LockChange HeightVoteSet.
From S2P Require Import VoteOrigin Consensus ConsensusInv ConsensusSteps.
From stdpp Require Import base gmap list option strings numbers sorting relations.

Local Open Scope Z_scope.

(** ** The trace only grows *)

Create HintDb grow.

Section grow.
Context {EI : EvidenceImpl} {PV EX BS Rest : Type}.
Notation State := (@State EI PV EX BS Rest).
Notation M := (@M EI PV EX BS Rest).

Definition grows {A} (m : M A) : Prop := forall s a s', m s = Done (a, s') -> csTrace s `prefix_of` csTrace s'.

Lemma grows_bind {A B} (m : M A) (f : A -> M B) : grows m -> (forall a, grows (f a)) -> grows (sbind m f).
Proof. intros Hm Hf s b s' (a & s1 & E1 & E2)%sbind_inv. etrans; [by eapply Hm|by eapply Hf]. Qed.

Lemma grows_quietly {A} (m : M A) : quietly m -> grows m.
Proof. intros Hq s a s' E. destruct (Hq _ _ _ E) as [_ (l & -> & _)]. by exists l. Qed.

Lemma grows_modifyRS f : grows (modifyRS f : M unit).
Proof. intros s a s' [= <- <-]. done. Qed.
Lemma grows_emit e : grows (emit e : M unit).
Proof. intros s a s' [= <- <-]. by exists [e]. Qed.
Lemma grows_panic {A} why : grows (panic why : M A).
Proof. by intros s a s' [=]. Qed.

End grow.

#[export] Hint Resolve grows_modifyRS grows_emit grows_panic : grow.

Ltac grow_step :=
  first
  [ solve [auto with grow]
  | lazymatch goal with
    | |- grows (sbind _ _) => apply grows_bind; [|intros ?]
    | |- grows (match ?x with _ => _ end) => destruct x
    end
  | solve [apply grows_quietly; quiet_auto] ].
Ltac grow_auto := repeat grow_step.

Section grow_handlers.
Context `{Crypto} {TH : TmHash} {ST : StdTime} {W : Wrappers} {EI : EvidenceImpl} {BC : BlockCodec}.
Context {PV EX BS Rest : Type} `{!PrivValidator PV} `{!BlockExecutor EX Rest} `{!BlockStore BS}.
Notation M := (@M EI PV EX BS Rest).
Variables (cfg : ConsensusConfig) (clock : nat -> Time) (readSizes : nat -> nat).

Lemma grows_signAddVote ty hash hd : grows (signAddVote clock ty hash hd : M _).
Proof. unfold signAddVote, sendInternalMessage. grow_auto. Qed.
#[local] Hint Resolve grows_signAddVote : grow.
Lemma grows_enterPrevote height round : grows (enterPrevote clock height round : M _).
Proof. unfold enterPrevote, defaultDoPrevote, updateRoundStep. grow_auto. Qed.
#[local] Hint Resolve grows_enterPrevote : grow.
Lemma grows_enterPropose height round : grows (enterPropose cfg clock height round : M _).
Proof. unfold enterPropose, propose, updateRoundStep, scheduleTimeout. grow_auto. Qed.
#[local] Hint Resolve grows_enterPropose : grow.
Lemma grows_enterNewRound height round : grows (enterNewRound cfg clock height round : M _).
Proof. unfold enterNewRound, updateRoundStep, scheduleTimeout. grow_auto. Qed.
Lemma grows_enterPrevoteWait height round : grows (enterPrevoteWait cfg height round : M _).
Proof. unfold enterPrevoteWait, updateRoundStep, scheduleTimeout. grow_auto. Qed.
Lemma grows_enterPrecommitWait height round : grows (enterPrecommitWait cfg height round : M _).
Proof. unfold enterPrecommitWait, scheduleTimeout. grow_auto. Qed.
Lemma grows_enterPrecommit height round : grows (enterPrecommit clock height round : M _).
Proof. unfold enterPrecommit, precommit, unlock, updateRoundStep. grow_auto. Qed.
Lemma grows_updateToState state : grows (updateToState cfg clock state : M _).
Proof. unfold updateToState. grow_auto. Qed.
#[local] Hint Resolve grows_enterNewRound grows_enterPrevoteWait grows_enterPrecommitWait : grow.
#[local] Hint Resolve grows_enterPrecommit grows_updateToState : grow.
Lemma grows_tryFinalizeCommit height : grows (tryFinalizeCommit cfg clock height : M _).
Proof. unfold tryFinalizeCommit, finalizeCommit, commitBlock, saveBlock, scheduleRound0, scheduleTimeout. grow_auto. Qed.
#[local] Hint Resolve grows_tryFinalizeCommit : grow.
Lemma grows_enterCommit height round : grows (enterCommit cfg clock height round : M _).
Proof. unfold enterCommit, updateRoundStep. grow_auto. Qed.
#[local] Hint Resolve grows_enterCommit : grow.
Lemma grows_addProposalBlockPart height part : grows (addProposalBlockPart cfg clock readSizes height part : M _).
Proof. unfold addProposalBlockPart, gotProposalBlock. grow_auto. Qed.
Lemma grows_tryAddVote vote peer : grows (tryAddVote cfg clock vote peer : M _).
Proof.
  unfold tryAddVote, csAddVote, addLastPrecommit, onPrevote, onPrecommit, onPolka, unlock. grow_auto.
Qed.
#[local] Hint Resolve grows_addProposalBlockPart grows_tryAddVote : grow.
Lemma grows_handleMsg msg peer : grows (handleMsg cfg clock readSizes msg peer : M _).
Proof. unfold handleMsg. grow_auto. Qed.
#[local] Hint Resolve grows_handleMsg : grow.
Lemma grows_receive i : grows (receive cfg clock readSizes i : M _).
Proof. unfold receive, handleTimeout, handleTxsAvailable. grow_auto. Qed.

End grow_handlers.

(** ** Runs of a node *)

Section runs.
Context `{Crypto} {TH : TmHash} {ST : StdTime} {W : Wrappers} {EI : EvidenceImpl} {BC : BlockCodec}.
Context {PV EX BS Rest : Type} `{!PrivValidator PV} `{!BlockExecutor EX Rest} `{!BlockStore BS}.
Notation State := (@State EI PV EX BS Rest).
Implicit Types (s : State).

(** A node that has just entered the height [h] *)
Record atStart (chainID : bytes) (h : Z) (vals : ValidatorSet) s : Prop := {
  fr_height : rsHeight (csRS s) = h;
  fr_round : rsRound (csRS s) = 0;
  fr_step : rsStep (csRS s) = RoundStepNewHeight;
  fr_lock : rsLockedBlock (csRS s) = None;
  fr_votes : NewHeightVoteSet chainID h vals = Done (rsVotes (csRS s));
  fr_sent : forall e, e ∈ csTrace s -> sentVote h e = None;
  fr_applied : forall b block, AppliedBlock h b block ∉ csTrace s;
  fr_timeouts : forall ti, Schedule ti ∈ csTrace s -> tiHeight ti = h -> tiRound ti <= 0;
  fr_saved : forall block parts commit, SavedBlock h block parts commit ∉ csTrace s
}.

Lemma sent_none h (l : list effect) : (forall e, e ∈ l -> sentVote h e = None) -> sent h l = [].
Proof.
  induction l as [|e l IH]; intros Hl; [done|]. unfold sent. simpl. rewrite Hl by set_solver.
  apply IH. intros e' He'. apply Hl. set_solver.
Qed.

Lemma atStart_Good chainID h vals s :
  1 <= h -> valset_usable vals -> atStart chainID h vals s -> Good chainID h vals [] s.
Proof.
  intros Hh U [F1 F2 F3 F4 F5 F6 F7 F8 F9]. destruct (NewHeightVoteSet_inv _ _ _ _ U F5) as (I & E1 & E2 & E3).
  pose proof (sent_none h (csTrace s) F6) as Es.
  assert (hvsRound (rsVotes (csRS s)) = 0) as Er.
  { unfold NewHeightVoteSet, HeightVoteSet_Reset in F5. apply bind_Done_inv in F5 as (v & _ & F5).
    injection F5 as F5. by rewrite <- F5. }
  split; rewrite ?Es, ?F1; try done.
  - split; try (intros ? Hin; by apply elem_of_nil in Hin); [constructor|].
    intros p v Hin. by apply elem_of_nil in Hin.
  - intros b block Hin. by destruct (F7 b block).
  - by rewrite F3.
  - intros _. split; rewrite ?Es, ?F2, ?Er; try done.
    + by eapply NewHeightVoteSet_from.
    + intros v Hin. by apply elem_of_nil in Hin.
    + intros v Hin. by apply elem_of_nil in Hin.
  - intros block parts commit Hin. by destruct (F9 block parts commit).
Qed.

(** A new node starts afresh at the height after its state's. *)
Lemma NewState_atStart cfg clock state ex bs vals s :
  NewState cfg clock state ex bs = Done s -> 0 <= smLastBlockHeight state < MaxInt64 ->
  smValidators state = Some vals -> atStart (smChainID state) (smLastBlockHeight state + 1) vals s.
Proof.
  intros E Hh Hv. unfold NewState in E. apply bind_Done_inv in E as (lc & _ & E).
  apply bind_Done_inv in E as (lc' & _ & E). apply bind_Done_inv in E as (rs & E & E'). injection E' as <-.
  unfold resetRoundState in E. rewrite Hv in E. cbn [derefM] in E. rewrite bind_Done in E.
  rewrite wrap64_id in E by (unfold int64, MinInt64 in *; lia).
  apply bind_Done_inv in E as (votes & Ev & E). injection E as <-.
  split; simpl; try done; [intros e Hin|intros b block Hin|intros ti Hin|intros block parts commit Hin]; by apply elem_of_nil in Hin.
Qed.

(** More votes received *)
Lemma lawful_mono chainID h vals R R' L :
  R ⊆ R' -> lawful chainID h vals R L -> lawful chainID h vals R' L.
Proof.
  intros Hs [L1 L2 L3 L4]. split; try done.
  - intros v Hv Hc. eapply quorum_mono; eauto.
  - intros p v Hp Hv Hc Ht Hr Hne. destruct (L4 p v Hp Hv Hc Ht Hr Hne) as (r & b & ? & ? & Hq).
    exists r, b. split_and!; [lia..|done|]. by eapply quorum_mono.
Qed.

Lemma Good_mono chainID h vals R R' s : R ⊆ R' -> Good chainID h vals R s -> Good chainID h vals R' s.
Proof.
  intros Hs [I1 I2 I3 I4 I5 I6]. split; try done.
  - by eapply lawful_mono.
  - intros b block Hin. destruct (I2 b block Hin) as (? & ? & r & Hq). split_and!; [done..|].
    exists r. by eapply quorum_mono.
  - intros Eh. destruct (I5 Eh) as [A1 A2 A3 A4 A5 A6 A7 A8 A9]. split; try done.
    + intros r rvs Hr. destruct (A2 r rvs Hr) as [[S1 S2] [S3 S4]].
      split; split; try (intros w Hw; by apply Hs, S1); try (intros w Hw; by apply Hs, S3);
        intros k bv Hk w Hw; apply Hs; [by eapply S2|by eapply S4].
    + intros p Hp Hc. destruct (A8 p Hp Hc) as [?|(r & b & ? & ? & Hq)]; [by left|right].
      exists r, b. split_and!; [lia..|done|]. by eapply quorum_mono.
  - intros block parts commit Hin. destruct (I6 block parts commit Hin) as (r & b & vs & p & ? & ? & Hq & ? & ?).
    exists r, b, vs, p. split_and!; try done. by eapply quorum_mono.
Qed.

(** The votes that come with an input *)
Definition votesOf (i : input) : list Vote :=
  match i with
  | PeerMsg (VoteMessage v) _ | InternalMsg (VoteMessage v) => [v]
  | _ => []
  end.

(** A vote that passed its basic validation and has sign bytes *)
Definition well_formed (chainID : bytes) (v : Vote) : Prop :=
  vote_good v /\ exists bz, VoteSignBytes chainID (Vote_ToProto v) = Done bz.

(** Votes are well formed, and a timeout is one that was scheduled. *)
Definition admissible (chainID : bytes) (i : input) s : Prop :=
  (forall v, v ∈ votesOf i -> well_formed chainID v) /\
  match i with Timeout ti => Schedule ti ∈ csTrace s | _ => True end.

(** One turn of the receive routine keeps the invariant, with the votes of the
    input added to those received. *)
Lemma receive_Good cfg clock readSizes chainID h vals R i s s' :
  1 <= h -> receive cfg clock readSizes i s = Done (tt, s') -> Good chainID h vals R s ->
  rsHeight (csRS s) < MaxInt64 -> admissible chainID i s ->
  Good chainID h vals (R ++ votesOf i) s' /\ later s s'.
Proof.
  intros Hh E G Hmax [Hv Ht]. eapply receive_ok; [done|exact E| |done|].
  - eapply Good_mono; [|done]. set_solver.
  - assert (forall v, v ∈ votesOf i -> handled chainID (R ++ votesOf i) v) as Hh'.
    { intros v Hin. destruct (Hv v Hin) as [? ?]. split_and!; [set_solver|done..]. }
    destruct i as [[| |v] peer|[| |v]|ti|]; simpl in *; try done; apply Hh'; set_solver.
Qed.

(** A sequence of turns, with the votes received *)
Inductive run (cfg : ConsensusConfig) (clock : nat -> Time) (readSizes : nat -> nat) (chainID : bytes)
    : State -> list Vote -> State -> Prop :=
  | run_nil s : run cfg clock readSizes chainID s [] s
  | run_snoc s R s1 i s2 :
      run cfg clock readSizes chainID s R s1 -> rsHeight (csRS s1) < MaxInt64 -> admissible chainID i s1 ->
      receive cfg clock readSizes i s1 = Done (tt, s2) -> run cfg clock readSizes chainID s (R ++ votesOf i) s2.

Lemma run_Good cfg clock readSizes chainID h vals s R s' :
  1 <= h -> valset_usable vals -> atStart chainID h vals s -> run cfg clock readSizes chainID s R s' ->
  Good chainID h vals R s'.
Proof.
  intros Hh U F. induction 1 as [s|s R s1 i s2 Hr IH Hmax Ha E]; [by apply atStart_Good|].
  eapply receive_Good; eauto.
Qed.

End runs.

(** ** A network of nodes *)

Section network.
Context `{Crypto} {TH : TmHash} {ST : StdTime} {W : Wrappers} {EI : EvidenceImpl} {BC : BlockCodec}.
Context {PV EX BS Rest : Type} `{!PrivValidator PV} `{!BlockExecutor EX Rest} `{!BlockStore BS}.
Notation State := (@State EI PV EX BS Rest).

(** The configuration, the clock and the reads of each node *)
Variables (cfgs : bytes -> ConsensusConfig) (clocks : bytes -> nat -> Time) (sizes : bytes -> nat -> nat).
Variables (chainID : bytes) (h : Z) (vals : ValidatorSet).

(** A correct node and the votes it has received *)
Record node := mkNode { ndState : State; ndVotes : list Vote }.

(** The correct nodes by the address of their validator *)
Notation network := (gmap bytes node).

Definition votesSent (nd : node) : list Vote := sent h (csTrace (ndState nd)).

(** Signatures of correct validators are not forged: a vote of the height that
    verifies with the key of a correct node was sent by it. *)
Definition authentic (net : network) (v : Vote) : Prop :=
  forall val pk nd, val ∈ Validators vals -> vPubKey val = Some pk -> net !! Address val = Some nd ->
    vHeight v = h -> Vote_Verify v chainID pk = Done None ->
    exists v', v' ∈ votesSent nd /\ vType v' = vType v /\ vRound v' = vRound v /\ vBlockID v' = vBlockID v.

(** A correct node handles an input.  Faulty validators may send any votes that
    they can sign, and the network may reorder, repeat and lose messages. *)
Inductive net_step : network -> network -> Prop :=
  | deliver net a nd i s' :
      net !! a = Some nd -> rsHeight (csRS (ndState nd)) < MaxInt64 ->
      admissible chainID i (ndState nd) -> (forall v, v ∈ votesOf i -> authentic net v) ->
      receive (cfgs a) (clocks a) (sizes a) i (ndState nd) = Done (tt, s') ->
      net_step net (<[a := mkNode s' (ndVotes nd ++ votesOf i)]> net).

Definition net_init (net : network) : Prop :=
  forall a nd, net !! a = Some nd -> atStart chainID h vals (ndState nd) /\ ndVotes nd = [].

(** The members without a correct node *)
Definition faulty (net : network) : list Validator :=
  filter (fun val => net !! Address val = None) (Validators vals).

Record NetInv (net : network) : Prop := {
  ni_good : forall a nd, net !! a = Some nd -> Good chainID h vals (ndVotes nd) (ndState nd);
  ni_authentic : forall a nd v, net !! a = Some nd -> v ∈ ndVotes nd -> authentic net v
}.

(** The traces of all nodes grow *)
Definition net_le (net net' : network) : Prop :=
  forall a, (net !! a = None <-> net' !! a = None) /\
  forall nd, net !! a = Some nd -> exists nd', net' !! a = Some nd' /\
    csTrace (ndState nd) `prefix_of` csTrace (ndState nd').

Lemma net_le_refl net : net_le net net.
Proof. intros a. split; [done|]. intros nd Hnd. by exists nd. Qed.
Lemma net_le_trans n1 n2 n3 : net_le n1 n2 -> net_le n2 n3 -> net_le n1 n3.
Proof.
  intros H1 H2 a. destruct (H1 a) as [D1 P1], (H2 a) as [D2 P2]. split; [tauto|]. intros nd Hnd.
  destruct (P1 _ Hnd) as (nd' & Hnd' & ?). destruct (P2 _ Hnd') as (nd'' & Hnd'' & ?).
  exists nd''. split; [done|]. by etrans.
Qed.

Lemma net_step_le net net' : net_step net net' -> net_le net net'.
Proof.
  intros [net0 a nd i s' Hnd Hmax Ha Hau E] b. destruct (decide (a = b)) as [->|Hne].
  - rewrite lookup_insert_eq. split; [split; congruence|]. intros nd' Hnd'. eexists. split; [done|].
    simpl. replace nd' with nd by congruence. by eapply grows_receive.
  - rewrite lookup_insert_ne by done. split; [done|]. eauto.
Qed.

Lemma sent_prefix (l1 l2 : list effect) : l1 `prefix_of` l2 -> sent h l1 `prefix_of` sent h l2.
Proof. intros [k ->]. rewrite sent_app. by exists (sent h k). Qed.

Lemma votesSent_mono nd nd' v :
  csTrace (ndState nd) `prefix_of` csTrace (ndState nd') -> v ∈ votesSent nd -> v ∈ votesSent nd'.
Proof. intros [k E]%sent_prefix Hv. unfold votesSent. rewrite E. set_solver. Qed.

Lemma authentic_mono net net' v : net_le net net' -> authentic net v -> authentic net' v.
Proof.
  intros Hle Hau val pk nd' Hval Hpk Hnd' Hh Hv. destruct (Hle (Address val)) as [D P].
  destruct (net !! Address val) as [nd|] eqn:E; [|naive_solver].
  destruct (P nd eq_refl) as (nd2 & Hnd2 & Hpre). assert (nd2 = nd') as -> by congruence.
  destruct (Hau val pk nd Hval Hpk E Hh Hv) as (v' & Hin & ?). exists v'. split; [|done].
  by eapply votesSent_mono.
Qed.

Lemma NetInv_init net : 1 <= h -> valset_usable vals -> net_init net -> NetInv net.
Proof.
  intros Hh U Hi. split.
  - intros a nd Hnd. destruct (Hi a nd Hnd) as [F ->]. by apply atStart_Good.
  - intros a nd v Hnd Hin. destruct (Hi a nd Hnd) as [_ E]. rewrite E in Hin. by apply elem_of_nil in Hin.
Qed.

Lemma NetInv_step net net' : 1 <= h -> NetInv net -> net_step net net' -> NetInv net'.
Proof.
  intros Hh I Hst. pose proof (net_step_le _ _ Hst) as Hle.
  destruct I as [I1 I2]. destruct Hst as [net a nd i s' Hnd Hmax Ha Hau E]. split.
  - intros b nd' Hb. apply lookup_insert_Some in Hb as [[_ <-]|[_ Hb]]; [|eauto].
    eapply receive_Good; eauto.
  - intros b nd' v Hb Hin. eapply authentic_mono; [exact Hle|].
    apply lookup_insert_Some in Hb as [[_ <-]|[_ Hb]]; [|eauto].
    simpl in Hin. apply elem_of_app in Hin as [?|?]; eauto.
Qed.

Lemma NetInv_steps net net' : 1 <= h -> NetInv net -> rtc net_step net net' -> NetInv net' /\ net_le net net'.
Proof.
  intros Hh I Hst. induction Hst as [n|n n1 n' H1 Hst IH]; [split; [done|apply net_le_refl]|].
  destruct (IH (NetInv_step _ _ Hh I H1)) as [I' Hle]. split; [done|].
  eapply net_le_trans; [by apply net_step_le|done].
Qed.

(** *** Agreement *)

Section agreement.
Variable final : network.
Hypothesis h_pos : 1 <= h.
Hypothesis usable : valset_usable vals.
Hypothesis final_inv : NetInv final.
Hypothesis few_faulty : 3 * sumZ VotingPower (faulty final) < sumZ VotingPower (Validators vals).

(** A correct member of a quorum at a node and of another one *)
Lemma correct_voter a1 nd1 R2 ty1 ty2 r1 r2 b1 b2 :
  final !! a1 = Some nd1 -> quorum chainID h vals (ndVotes nd1) ty1 r1 b1 -> quorum chainID h vals R2 ty2 r2 b2 ->
  exists val pk ndf v1 w2, val ∈ Validators vals /\ vPubKey val = Some pk /\ final !! Address val = Some ndf /\
    (v1 ∈ votesSent ndf /\ vType v1 = ty1 /\ vRound v1 = r1 /\ vBlockID v1 = b1) /\
    (w2 ∈ R2 /\ vHeight w2 = h /\ Vote_Verify w2 chainID pk = Done None /\
     vType w2 = ty2 /\ vRound w2 = r2 /\ vBlockID w2 = b2).
Proof.
  intros H1 Q1 Q2.
  destruct (quorums_meet chainID h vals _ _ _ _ _ _ _ _ (faulty final) (vu_wf _ usable)
    ltac:(by intros v [_ ?]%list_elem_of_filter)
    ltac:(apply NoDup_filter; eapply NoDup_fmap_1, (vs_nodup _ (vu_wf _ usable))) few_faulty Q1 Q2)
    as (val & w1 & w2 & Hval & Hok & Hw1 & (T1 & E1 & R1 & B1 & pk1 & Hk1 & V1) & Hw2 & (T2 & E2 & R2' & B2 & pk2 & Hk2 & V2)).
  assert (exists ndf, final !! Address val = Some ndf) as [ndf Hf].
  { destruct (final !! Address val) eqn:Ef; [eauto|]. destruct Hok. by apply list_elem_of_filter. }
  destruct (ni_authentic _ final_inv a1 nd1 w1 H1 Hw1 val pk1 ndf Hval Hk1 Hf E1 V1) as (v1 & ? & ? & ? & ?).
  exists val, pk2, ndf, v1, w2. split_and!; congruence.
Qed.

(** In the list of a correct node, votes of the same type and round are equal,
    and a later one is for a later round. *)
Lemma sorted_unique L v w :
  StronglySorted vote_lt L -> v ∈ L -> w ∈ L -> vType v = vType w -> vRound v = vRound w -> v = w.
Proof.
  induction 1 as [|x L Hs IH Hf]; intros Hv Hw Et Er; [by apply elem_of_nil in Hv|].
  rewrite Forall_forall in Hf.
  apply elem_of_cons in Hv as [->|Hv]; apply elem_of_cons in Hw as [->|Hw]; [done| | |auto].
  - destruct (Hf w Hw); lia.
  - destruct (Hf v Hv); lia.
Qed.

Lemma sorted_prefix L L' v w :
  StronglySorted vote_lt L' -> L `prefix_of` L' -> v ∈ L -> w ∈ L' -> vRound w < vRound v -> w ∈ L.
Proof.
  intros Hs [k ->] Hv Hw Hr. apply elem_of_app in Hw as [?|Hw]; [done|]. exfalso.
  clear -Hs Hv Hw Hr. induction L as [|x L IH]; [by apply elem_of_nil in Hv|].
  simpl in Hs. apply StronglySorted_inv in Hs as [Hs Hf]. apply elem_of_cons in Hv as [->|Hv]; [|auto].
  rewrite Forall_forall in Hf. destruct (Hf w ltac:(set_solver)); lia.
Qed.

(** Correct nodes that precommit the block of a commit do not prevote anything
    else in later rounds. *)
Section later_rounds.
Variables (a0 : bytes) (nd0 : node) (r0 : Z) (b0 : BlockID).
Hypothesis committed : final !! a0 = Some nd0.
Hypothesis commit : quorum chainID h vals (ndVotes nd0) PrecommitType r0 b0.
Hypothesis commit_block : bidHash b0 <> [].

(** [a] precommits the block of the commit in the end, and has prevoted
    something else in a later round in [net]. *)
Definition strays (net : network) (a : bytes) : Prop :=
  exists ndf nd p v, final !! a = Some ndf /\ net !! a = Some nd /\
    p ∈ votesSent ndf /\ vType p = PrecommitType /\ vRound p = r0 /\ vBlockID p = b0 /\
    v ∈ votesSent nd /\ vType v = PrevoteType /\ r0 < vRound v /\ bidHash (vBlockID v) <> bidHash b0.

(** A node that strays has seen a quorum of prevotes for something else. *)
Lemma strays_quorum net a :
  net_le net final -> NetInv net -> strays net a ->
  exists nd r b, net !! a = Some nd /\ r0 < r /\ bidHash b <> bidHash b0 /\
    quorum chainID h vals (ndVotes nd) PrevoteType r b.
Proof.
  intros Hle I (ndf & nd & p & v & Hf & Hn & Hp & Tp & Rp & Bp & Hv & Tv & Rv & Hne).
  destruct (Hle a) as [_ Hpre]. destruct (Hpre nd Hn) as (ndf' & Hf' & Hpr). assert (ndf' = ndf) as -> by congruence.
  pose proof (ni_good _ final_inv a ndf Hf) as Gf. pose proof (ni_good _ I a nd Hn) as G.
  assert (p ∈ votesSent nd) as Hp'.
  { eapply sorted_prefix; [apply (law_sorted _ _ _ _ _ (inv_lawful _ _ _ _ _ _ Gf))|by apply sent_prefix|exact Hv|done|lia]. }
  destruct (law_prevote _ _ _ _ _ (inv_lawful _ _ _ _ _ _ G) p v Hp' Hv) as (r & b & Hr & Hb & Q);
    [split; congruence|done|lia|congruence|].
  exists nd, r, b. split_and!; [done|lia|congruence|done].
Qed.

(** The first node to stray would have to follow another one. *)
Lemma no_strays net : forall init, NetInv init -> (forall a nd, init !! a = Some nd -> votesSent nd = []) ->
  rtc net_step init net -> net_le net final -> forall a, ~ strays net a.
Proof.
  intros init Ii Hi Hst. apply rtc_ind_r with (P := fun net => net_le net final -> forall a, ~ strays net a) (3 := Hst).
  - intros _ a (ndf & nd & p & v & _ & Hn & _ & _ & _ & _ & Hv & _). rewrite (Hi a nd Hn) in Hv.
    by apply elem_of_nil in Hv.
  - intros n1 n2 Hst1 H12 IH Hle2 a Hstray.
    assert (net_le n1 final) as Hle1 by (eapply net_le_trans; [by apply net_step_le|done]).
    destruct (NetInv_steps _ _ h_pos Ii Hst1) as [I1 _]. pose proof (NetInv_step _ _ h_pos I1 H12) as I2.
    destruct (strays_quorum n2 a Hle2 I2 Hstray) as (nd & r & b & Hn & Hr & Hb & Q).
    destruct (correct_voter a0 nd0 _ _ _ _ _ _ _ committed commit Q)
      as (val & pk & ndf & v1 & w2 & Hval & Hk & Hf & (Hv1 & T1 & R1 & B1) & (Hw2 & E2 & V2 & T2 & R2 & B2)).
    assert (exists ndv, n1 !! Address val = Some ndv) as [ndv Hv].
    { destruct (n1 !! Address val) eqn:En; [eauto|]. apply Hle1 in En. congruence. }
    (* the voters of the quorum had sent their votes before the step *)
    assert (authentic n1 w2) as Hau.
    { inversion H12 as [net0 a' nd' i s' Hnd' _ _ Hau' _ En1 En2]. subst net0 n2.
      apply lookup_insert_Some in Hn as [[_ <-]|[_ Hn]]; [|exact (ni_authentic _ I1 a nd w2 Hn Hw2)].
      simpl in Hw2. apply elem_of_app in Hw2 as [Hw2|?]; [exact (ni_authentic _ I1 a' nd' w2 Hnd' Hw2)|auto]. }
    destruct (Hau val pk ndv Hval Hk Hv E2 V2) as (v2 & ? & ? & ? & ?).
    apply (IH Hle1 (Address val)). exists ndf, ndv, v1, v2. split_and!; try congruence; lia.
Qed.

End later_rounds.

(** Two commits are for the same block, the second one in the same round or later. *)
Lemma commits_agree init a1 a2 nd1 nd2 r1 r2 b1 b2 :
  net_init init -> rtc net_step init final -> final !! a1 = Some nd1 -> final !! a2 = Some nd2 ->
  quorum chainID h vals (ndVotes nd1) PrecommitType r1 b1 ->
  quorum chainID h vals (ndVotes nd2) PrecommitType r2 b2 ->
  bidHash b1 <> [] -> bidHash b2 <> [] -> r1 <= r2 -> bidHash b1 = bidHash b2.
Proof.
  intros Hi Hst H1 H2 Q1 Q2 N1 N2 Hr.
  destruct (correct_voter a1 nd1 _ _ _ _ _ _ _ H1 Q1 Q2)
    as (val & pk & ndf & v1 & w2 & Hval & Hk & Hf & (Hv1 & T1 & R1 & B1) & (Hw2 & E2 & V2 & T2 & R2 & B2)).
  destruct (ni_authentic _ final_inv a2 nd2 w2 H2 Hw2 val pk ndf Hval Hk Hf E2 V2) as (v2 & Hv2 & T2' & R2' & B2').
  pose proof (inv_lawful _ _ _ _ _ _ (ni_good _ final_inv _ _ Hf)) as L.
  destruct (Z.eq_dec r1 r2) as [<-|Hne].
  { assert (v1 = v2) as E by (eapply sorted_unique; [apply L|done|done|congruence|congruence]). congruence. }
  destruct (decide (bidHash b1 = bidHash b2)) as [|Hb]; [done|]. exfalso.
  (* the second commit needs a quorum of prevotes, and so a node that strays *)
  assert (quorum chainID h vals (ndVotes ndf) PrevoteType r2 b2) as Q.
  { pose proof (law_precommit _ _ _ _ _ L v2 Hv2 ltac:(split; congruence)) as Q. congruence. }
  destruct (correct_voter a1 nd1 _ _ _ _ _ _ _ H1 Q1 Q)
    as (val' & pk' & ndf' & v1' & w' & Hval' & Hk' & Hf' & (Hv1' & T1' & R1' & B1') & (Hw' & E' & V' & T' & R' & B')).
  destruct (ni_authentic _ final_inv _ ndf w' Hf Hw' val' pk' ndf' Hval' Hk' Hf' E' V') as (v' & ? & ? & ? & ?).
  unshelve eapply (no_strays a1 nd1 r1 b1 H1 Q1 N1 final init _ _ Hst (net_le_refl _) (Address val')).
  - by apply NetInv_init.
  - intros a nd Hnd. destruct (Hi a nd Hnd) as [F _]. apply sent_none, (fr_sent _ _ _ _ F).
  - exists ndf', ndf', v1', v'. split_and!; try congruence. lia.
Qed.

End agreement.

End network.
