(* ===== verification/ConsensusClaims.v ===== *)
(** * Claims about the consensus

    The statements of ConsensusSteps.v and ConsensusSafety.v for runs of a node
    and of a network, and a concrete network in which two nodes commit a block. *)

From Stdlib Require Import ZArith Lia.
From S2P Require Import Prelude SafeMath Proto BitArray Validator ValidatorSet ValidatorSetUpdate BlockTypes SignBytes.
From S2P Require Import ProtoDecode Merkle PartSet Header Block CommitVerify PrivVal PrivValSafety VoteSet VoteSetInv VoteSetClaims.
From S2P Require Import LockChange HeightVoteSet VoteOrigin Consensus ConsensusInv ConsensusSteps ConsensusSafety.
From stdpp Require Import base gmap list option strings numbers sorting relations.

Local Open Scope Z_scope.

(** ** The file-based signer as the private validator of a node *)

Section filePV.
Context `{Crypto} {ST : StdTime} {G : Gogo} {K : Signer}.

(** The signer with its disk; the time that [checkVotesOnlyDifferByTimestamp]
    writes into both messages does not matter. *)
Definition filePVValidator : PrivValidator (FilePV * Disk) := {|
  pv_GetPubKey pv := inr (pvkPubKey (Key (fst pv)));
  pv_SignVote pv chainID vote :=
    let! (err, v, pv', disk) := SignVote 0 (fst pv) chainID vote (snd pv) in
    Done ((pv', disk), v, err);
  pv_SignProposal pv chainID proposal :=
    let! (err, p, pv', disk) := SignProposal 0 (fst pv) chainID proposal (snd pv) in
    Done ((pv', disk), p, err)
|}.

End filePV.

(** ** Committing a block *)

Section committing.
Context `{Crypto} {TH : TmHash} {ST : StdTime} {W : Wrappers} {EI : EvidenceImpl} {BC : BlockCodec}.
Context {PV EX BS Rest : Type} `{!PrivValidator PV} `{!BlockExecutor EX Rest} `{!BlockStore BS}.
Notation State := (@State EI PV EX BS Rest).
Notation M := (@M EI PV EX BS Rest).
Implicit Types (s : State).
Variables (cfg : ConsensusConfig) (clock : nat -> Time).

Lemma saveBlock_trace block parts s a s' :
  saveBlock block parts s = Done (a, s') ->
  (bs_Height (csBlockStore s) < hHeight (bHeader block) /\
   exists commit, csTrace s' = csTrace s ++ [SavedBlock (rsHeight (csRS s)) block parts commit]) \/
  (hHeight (bHeader block) <= bs_Height (csBlockStore s) /\ csTrace s' = csTrace s).
Proof.
  intros E. unfold saveBlock in E. run E as x s1 E1. injection E1 as -> ->. unfold id in E.
  destruct (Z.ltb_spec (bs_Height (csBlockStore s1)) (hHeight (bHeader block)));
    [left|right; split; [lia|by injection E as _ <-]].
  run E as y s2 E2. apply Precommits_inv in E2 as [-> _]. run E as vs s2 E3. apply lift_inv in E3 as [_ ->].
  run E as commit s2 E4. apply lift_inv in E4 as [_ ->]. run E as bs s2 E5. apply lift_inv in E5 as [_ ->].
  run E as z s2 E6. injection E6 as _ <-. injection E as _ <-. split; [done|]. by exists commit.
Qed.

(** [C5] When a block is committed, it is in the store before the end of the
    height is written to the log, and it is applied only after that: if the
    node crashes anywhere in between, the block is not lost. *)
Theorem commitBlock_order height block parts s a s' :
  commitBlock cfg clock height block parts s = Done (a, s') ->
  exists saved l,
    csTrace s' = csTrace s ++ saved ++ WroteEndHeight height :: l /\
    (bs_Height (csBlockStore s) < hHeight (bHeader block) ->
       exists commit, saved = [SavedBlock (rsHeight (csRS s)) block parts commit]) /\
    (hHeight (bHeader block) <= bs_Height (csBlockStore s) -> saved = []) /\
    (forall hash, hashOf block = Some hash ->
       (l = [] \/ exists l', l = AppliedBlock height (mkBlockID hash (PartSet_Header (Some parts))) block :: l')).
Proof.
  intros E. unfold commitBlock in E. run E as x s1 E1. injection E1 as -> ->. unfold id in E.
  run E as x1 s2 E2. run E as x2 s3 E3. injection E3 as _ <-.
  run E as hash s4 E4. apply blockHash_inv in E4 as [-> Hh]. run E as y s5 E5. apply lift_inv in E5 as [_ ->].
  destruct y as [ex r]. run E as x3 s5 E5. injection E5 as _ <-.
  assert (exists l, csTrace s' = (csTrace s2 ++ [WroteEndHeight height]) ++ l /\
    (l = [] \/ exists l', l = AppliedBlock height (mkBlockID hash (PartSet_Header (Some parts))) block :: l')) as (l & El & Hl).
  { destruct r as [e|[st retain]]; [injection E as _ <-; exists []; rewrite app_nil_r; by auto|].
    run E as x4 s6 E6. injection E6 as _ <-.
    lazymatch type of E with ?m _ = _ => assert (grows m) as Hg
      by (unfold scheduleRound0, scheduleTimeout; grow_auto; apply grows_updateToState) end.
    destruct (Hg _ _ _ E) as [l El]. simpl in El. rewrite <- app_assoc in El. eauto. }
  destruct (saveBlock_trace _ _ _ _ _ E2) as [[Hlt [commit Et]]|[Hle Et]]; rewrite Et in El.
  - exists [SavedBlock (rsHeight (csRS s1)) block parts commit], l. split_and!; [by rewrite El, <- !app_assoc|eauto|lia|].
    intros hash' Hh'. by assert (hash' = hash) as -> by congruence.
  - exists [], l. split_and!; [by rewrite El, <- !app_assoc|lia|done|].
    intros hash' Hh'. by assert (hash' = hash) as -> by congruence.
Qed.

End committing.

(** ** Nodes and networks *)

Section claims.
Context `{Crypto} {TH : TmHash} {ST : StdTime} {W : Wrappers} {EI : EvidenceImpl} {BC : BlockCodec}.
Context {PV EX BS Rest : Type} `{!PrivValidator PV} `{!BlockExecutor EX Rest} `{!BlockStore BS}.
Notation State := (@State EI PV EX BS Rest).
Notation network := (gmap bytes (@node EI PV EX BS Rest)).
Implicit Types (s : State).

(** [C1] Agreement.  Let fewer than a third of the voting power be faulty, and
    let the correct nodes start a height together and handle, in any order and
    in any number of rounds, timeouts they scheduled and messages, among them any
    votes of the faulty validators.  Then all blocks that correct nodes apply at
    the height are the same. *)
Theorem consensus_agreement (cfgs : bytes -> ConsensusConfig) (clocks : bytes -> nat -> Time)
    (sizes : bytes -> nat -> nat) (chainID : bytes) (h : Z) (vals : ValidatorSet) 
    (init final : network) a1 a2 nd1 nd2 b1 b2 block1 block2 :
  1 <= h -> valset_usable vals -> net_init chainID h vals init ->
  rtc (net_step cfgs clocks sizes chainID h vals) init final ->
  3 * sumZ VotingPower (faulty vals final) < sumZ VotingPower (Validators vals) ->
  final !! a1 = Some nd1 -> final !! a2 = Some nd2 ->
  AppliedBlock h b1 block1 ∈ csTrace (ndState nd1) -> AppliedBlock h b2 block2 ∈ csTrace (ndState nd2) ->
  bidHash b1 = bidHash b2 /\ hashOf block1 = Some (bidHash b1) /\ hashOf block2 = Some (bidHash b1).
Proof.
  intros Hh U Hi Hst Hf H1 H2 A1 A2.
  destruct (NetInv_steps _ _ _ _ _ _ _ _ Hh (NetInv_init _ _ _ _ Hh U Hi) Hst) as [I _].
  destruct (inv_applied _ _ _ _ _ _ (ni_good _ _ _ _ I _ _ H1) _ _ A1) as (N1 & Hb1 & r1 & Q1).
  destruct (inv_applied _ _ _ _ _ _ (ni_good _ _ _ _ I _ _ H2) _ _ A2) as (N2 & Hb2 & r2 & Q2).
  assert (bidHash b1 = bidHash b2) as E; [|by rewrite Hb1, Hb2, E].
  destruct (Z.le_ge_cases r1 r2).
  - by eapply (commits_agree cfgs clocks sizes chainID h vals final Hh U I Hf init a1 a2).
  - symmetry. by eapply (commits_agree cfgs clocks sizes chainID h vals final Hh U I Hf init a2 a1).
Qed.

(** [C2] The voting rules of a node.  However a node gets from the start of a
    height to a later state, its votes of the height come in the order of rounds
    with at most one prevote and then one precommit in each; it precommits a block
    only with prevotes for it of more than two thirds of the power in that round;
    and it prevotes against a block that it has precommitted only after it has seen
    such a majority of prevotes for something else in a later round. *)
Theorem run_lawful cfg clock sizes chainID h vals s R s' :
  1 <= h -> valset_usable vals -> atStart chainID h vals s -> run cfg clock sizes chainID s R s' ->
  lawful chainID h vals R (sent h (csTrace s')).
Proof. intros Hh U F Hr. by eapply inv_lawful, run_Good. Qed.

(** [C3] Every block that a node saves at the height is the block of a majority of
    precommits it received, its parts have the header that was voted on, and the
    commit saved with it passes the verification of commits. *)
Theorem run_saved cfg clock sizes chainID h vals s R s' block parts commit :
  1 <= h -> valset_usable vals -> atStart chainID h vals s -> run cfg clock sizes chainID s R s' ->
  SavedBlock h block parts commit ∈ csTrace s' ->
  saved_right chainID h vals R block parts commit.
Proof. intros Hh U F Hr. by eapply inv_saved, run_Good. Qed.

(** [C4] A node never goes back: an input takes it to a state that is not before the
    old one in the order of heights, rounds and steps. *)
Theorem receive_forward cfg clock sizes chainID h vals s0 R s i s' :
  1 <= h -> valset_usable vals -> atStart chainID h vals s0 -> run cfg clock sizes chainID s0 R s ->
  rsHeight (csRS s) < MaxInt64 -> admissible chainID i s -> receive cfg clock sizes i s = Done (tt, s') ->
  CompareHRS (rsHeight (csRS s)) (rsRound (csRS s)) (rsStep (csRS s))
    (rsHeight (csRS s')) (rsRound (csRS s')) (rsStep (csRS s')) <= 0.
Proof.
  intros Hh U F Hr Hmax Ha E. pose proof (run_Good _ _ _ _ _ _ _ _ _ Hh U F Hr) as G.
  destruct (receive_Good _ _ _ _ _ _ _ _ _ _ Hh E G Hmax Ha) as [_ L].
  unfold CompareHRS. unfold later, within in L.
  repeat match goal with |- context [?x <? ?y] => destruct (Z.ltb_spec x y) end; lia.
Qed.

(** The votes and states of a node of a network form a run. *)
Lemma net_run (cfgs : bytes -> ConsensusConfig) (clocks : bytes -> nat -> Time) (sizes : bytes -> nat -> nat) (chainID : bytes) (h : Z) (vals : ValidatorSet)
    (init final : network) a nd0 :
  rtc (net_step cfgs clocks sizes chainID h vals) init final -> init !! a = Some nd0 -> ndVotes nd0 = [] ->
  exists nd, final !! a = Some nd /\ run (cfgs a) (clocks a) (sizes a) chainID (ndState nd0) (ndVotes nd) (ndState nd).
Proof.
  intros Hst Ha Hv. revert final Hst. apply rtc_ind_r.
  - exists nd0. split; [done|]. rewrite Hv. apply run_nil.
  - intros n1 n2 _ Hs (nd & Hn & Hr). inversion Hs as [net' b ndb i s' Hb Hmax Hadm Hau E E1 E2]. subst net' n2.
    destruct (decide (b = a)) as [->|Hne].
    + exists (mkNode s' (ndVotes ndb ++ votesOf i)). rewrite lookup_insert_eq. split; [done|].
      assert (ndb = nd) as -> by congruence. by eapply run_snoc.
    + exists nd. by rewrite lookup_insert_ne.
Qed.

End claims.

(** ** A network that commits a block *)

#[local] Instance netTmHash : TmHash := exampleTmHash.
#[local] Instance netCrypto : Crypto := exampleCrypto.
#[local] Instance netStdTime : StdTime := exampleStdTime.
#[local] Instance netWrappers : Wrappers := exampleWrappers.
#[local] Instance netEvidence : EvidenceImpl := exampleEvidence.
#[local] Instance netCodec : BlockCodec := exampleCodec.
#[local] Instance netGogo : Gogo := exampleGogo.
#[local] Instance netSigner : Signer := exampleSigner.
#[local] Instance netPV : PrivValidator (FilePV * Disk) := filePVValidator.

(** An executor that proposes one block and accepts all, and an empty store *)
#[local] Instance netExecutor : BlockExecutor unit unit := {|
  ex_ValidateBlock _ _ _ := None;
  ex_CheckBlock _ _ := None;
  ex_CreateProposalBlock _ _ _ _ _ :=
    let! ps := MakePartSet (Some exampleValidated) 65536 in
    Done (match ps with Some ps => Some (exampleValidated, ps) | None => None end);
  ex_ApplyBlock _ st _ _ := Done (tt, inr (mkSmState (smChainID st) (smLastBlockHeight st + 1)
    (smValidators st) (smValidators st) (smTimeIotaMs st) tt, 0));
  ex_PruneStates _ _ _ := (tt, None)
|}.
#[local] Instance netStore : BlockStore (list Block) := {|
  bs_Height bs := Z.of_nat (length bs);
  bs_Base _ := 1;
  bs_SaveBlock bs b _ _ := Done (bs ++ [b]);
  bs_PruneBlocks bs _ := (bs, inr 0);
  bs_LoadSeenCommit _ _ := None
|}.

Definition netConfig : ConsensusConfig := mkConsensusConfig 3000 500 1000 500 1000 500 1000 false true 0.
Definition netClock (n : nat) : Time := 1000 + Z.of_nat n.
Definition netSizes (n : nat) : nat := 512.
Definition netSet : ValidatorSet :=
  mkValidatorSet [exampleValidator 1 20 3; exampleValidator 2 5 (-3)] None 0.
Definition netGenesis : smState unit := mkSmState exampleChain 0 (Some netSet) None 1 tt.

Notation netState := (@State netEvidence (FilePV * Disk) unit (list Block) unit).

(** [NewState], [SetPrivValidator] and the timeout of [OnStart] *)
Definition startNode (pv : option (FilePV * Disk)) : outcome netState :=
  let! s := NewState netConfig netClock netGenesis tt [] in
  let! (_, s) := (match pv with Some pv => SetPrivValidator pv | None => ret tt end) s in
  let! (_, s) := scheduleRound0 netClock s in
  Done s.

Definition messages (s : netState) : list Message :=
  omap (fun e => match e with SendInternal m => Some m | _ => None end) (csTrace s).

Definition exec (i : input) (s : outcome netState) : outcome netState :=
  let! s := s in let! (_, s) := receive netConfig netClock netSizes i s in Done s.

Notation netNode := (@node netEvidence (FilePV * Disk) unit (list Block) unit).
Notation netNetwork := (gmap bytes netNode).

(** An executable check of the conditions of a step of the network *)
#[local] Instance timeoutInfo_eq_dec : EqDecision timeoutInfo.
Proof. solve_decision. Defined.

Definition checkVote (v : Vote) : bool :=
  bool_decide (int32 (vType v)) && bool_decide (int64 (vHeight v)) && bool_decide (int32 (vRound v))
  && bool_decide (uint32 (pshTotal (bidPartSetHeader (vBlockID v))))
  && bool_decide (Vote_ValidateBasic v = None) && negb (panics (VoteSignBytes exampleChain (Vote_ToProto v))).

Definition checkOrigin (net : netNetwork) (v : Vote) (val : Validator) : bool :=
  match net !! Address val with
  | Some nd => existsb (fun v' => (vType v' =? vType v) && (vRound v' =? vRound v)
                 && bool_decide (vBlockID v' = vBlockID v)) (votesSent 1 nd)
  | None => true
  end.

Definition checkInput (net : netNetwork) (s : netState) (i : input) : bool :=
  forallb (fun v => checkVote v && forallb (checkOrigin net v) (Validators netSet)) (votesOf i)
  && match i with
     | Timeout ti => existsb (fun e => match e with Schedule ti' => bool_decide (ti' = ti) | _ => false end) (csTrace s)
     | _ => true
     end.

(** The network after an input that passes the check *)
Definition netDo (net : netNetwork) (a : bytes) (i : input) : option netNetwork :=
  match net !! a with
  | None => None
  | Some nd =>
    if checkInput net (ndState nd) i && (rsHeight (csRS (ndState nd)) <? MaxInt64) then
      match receive netConfig netClock netSizes i (ndState nd) with
      | Done (_, s') => Some (<[a := mkNode s' (ndVotes nd ++ votesOf i)]> net)
      | Panic _ => None
      end
    else None
  end.

Notation netStep := (net_step (fun _ => netConfig) (fun _ => netClock) (fun _ => netSizes) exampleChain 1 netSet).

Lemma checkVote_spec v : checkVote v = true -> well_formed exampleChain v.
Proof.
  unfold checkVote. rewrite !andb_true_iff, !bool_decide_eq_true, negb_true_iff. intros (((((? & ?) & ?) & ?) & ?) & Hb).
  split; [by split|]. destruct (VoteSignBytes _ _) as [bz|]; [by exists bz|done].
Qed.

Lemma netDo_step net a i net' : netDo net a i = Some net' -> netStep net net'.
Proof.
  unfold netDo. destruct (net !! a) as [nd|] eqn:Ea; [|done].
  destruct (checkInput net (ndState nd) i) eqn:Ec; [|done].
  destruct (Z.ltb_spec (rsHeight (csRS (ndState nd))) MaxInt64); [|done]. simpl.
  destruct (receive _ _ _ _ _) as [[[] s']|] eqn:Er; [|done]. intros [= <-].
  unfold checkInput in Ec. apply andb_true_iff in Ec as [Hv Ht]. rewrite forallb_forall in Hv.
  assert (forall v, v ∈ votesOf i -> checkVote v = true /\ forallb (checkOrigin net v) (Validators netSet) = true) as Hv'
    by (intros v Hin; apply andb_true_iff, Hv; by apply list_elem_of_In).
  apply deliver; [done|done| | |done].
  - split; [intros v Hin; by apply checkVote_spec, Hv'|]. destruct i; try done.
    apply existsb_exists in Ht as (e & Hin & He). destruct e; try done.
    apply bool_decide_eq_true in He as ->. by apply list_elem_of_In.
  - intros v Hin val pk nd' Hval Hpk Hnd' _ _. destruct (Hv' v Hin) as [_ Ho]. rewrite forallb_forall in Ho.
    specialize (Ho val ltac:(by apply list_elem_of_In)). unfold checkOrigin in Ho. rewrite Hnd' in Ho.
    apply existsb_exists in Ho as (v' & Hin' & Ho). exists v'. split; [by apply list_elem_of_In|].
    rewrite !andb_true_iff, bool_decide_eq_true, !Z.eqb_eq in Ho. tauto.
Qed.

(** A sequence of inputs; the messages are those that the first node has sent. *)
Inductive event := Tick (ti : timeoutInfo) | Own (k : nat) | Peer (a : bytes) (k : nat).
Definition proposerAddress : bytes := exampleAddress 1.
Definition observerAddress : bytes := exampleAddress 9.

Definition netEvent (net : netNetwork) (e : event) : option netNetwork :=
  let msg k := match net !! proposerAddress with Some nd => messages (ndState nd) !! k | None => None end in
  match e with
  | Tick ti => netDo net proposerAddress (Timeout ti)
  | Own k => match msg k with Some m => netDo net proposerAddress (InternalMsg m) | None => None end
  | Peer a k => match msg k with Some m => netDo net a (PeerMsg m proposerAddress) | None => None end
  end.

Fixpoint netRun (net : netNetwork) (es : list event) : option netNetwork :=
  match es with
  | [] => Some net
  | e :: es' => match netEvent net e with Some net' => netRun net' es' | None => None end
  end.

Lemma netRun_steps es net net' : netRun net es = Some net' -> rtc netStep net net'.
Proof.
  revert net. induction es as [|e es IH]; intros net E; simpl in E; [by injection E as ->; apply rtc_refl|].
  destruct (netEvent net e) as [net1|] eqn:Ee; [|done]. eapply rtc_l; [|by apply IH].
  unfold netEvent in Ee. destruct e as [ti|k|a k]; [by eapply netDo_step| |];
    (destruct (match net !! proposerAddress with Some nd => _ | None => _ end); [|done]); by eapply netDo_step.
Qed.

Lemma atStart_rs `{EI : EvidenceImpl} {PV EX BS Rest} chainID h vals (s s' : @State EI PV EX BS Rest) l :
  csRS s' = csRS s -> csTrace s' = csTrace s ++ l ->
  (forall e, e ∈ l -> exists ti, e = Schedule ti /\ tiRound ti = 0) ->
  atStart chainID h vals s -> atStart chainID h vals s'.
Proof.
  intros Er Et Hl [F1 F2 F3 F4 F5 F6 F7 F8 F9]. split; rewrite ?Er, ?Et; try done.
  - intros e [?|Hin]%elem_of_app; [auto|]. by destruct (Hl e Hin) as (ti & -> & _).
  - intros b block [Hin|Hin]%elem_of_app; [by destruct (F7 b block)|]. by destruct (Hl _ Hin) as (ti & ? & _).
  - intros ti [?|Hin]%elem_of_app Eti; [auto|]. destruct (Hl _ Hin) as (ti' & [= ->] & ->). lia.
  - intros block parts commit [Hin|Hin]%elem_of_app; [by destruct (F9 block parts commit)|].
    by destruct (Hl _ Hin) as (ti & ? & _).
Qed.

Lemma startNode_atStart pv s : startNode pv = Done s -> atStart exampleChain 1 netSet s.
Proof.
  intros E. unfold startNode in E. apply bind_Done_inv in E as (s0 & E0 & E).
  apply (NewState_atStart _ _ _ _ _ netSet) in E0; [|done|done].
  apply bind_Done_inv in E as ([[] s1] & E1 & E). apply bind_Done_inv in E as ([[] s2] & E2 & [= <-]).
  assert (atStart exampleChain 1 netSet s1) as F1.
  { eapply (atStart_rs _ _ _ s0 _ []); [| | |exact E0].
    - destruct pv as [p|]; by injection E1 as <-.
    - rewrite app_nil_r. destruct pv as [p|]; by injection E1 as <-.
    - intros e He. by apply elem_of_nil in He. }
  eapply (atStart_rs _ _ _ s1); [| | |exact F1].
  - by injection E2 as <-.
  - injection E2 as <-. reflexivity.
  - intros e He. apply list_elem_of_singleton in He as ->. by eexists.
Qed.

Definition nodeOf (s : outcome netState) : netNetwork -> bytes -> netNetwork :=
  fun net a => match s with Done s => <[a := mkNode s []]> net | Panic _ => net end.
(** The first validator and a node without a key; the second validator is
    faulty. *)
Definition netInit : netNetwork :=
  nodeOf (startNode (Some (freshPV, freshDisk)))
    (nodeOf (startNode None) ∅ observerAddress) proposerAddress.

Lemma netInit_init : net_init exampleChain 1 netSet netInit.
Proof.
  unfold netInit, nodeOf. intros a nd Ha.
  destruct (startNode None) as [s2|] eqn:E2, (startNode (Some (freshPV, freshDisk))) as [s1|] eqn:E1;
    repeat (apply lookup_insert_Some in Ha as [[_ <-]|[_ Ha]]; [split; [|done]; by eapply startNode_atStart|]);
    by rewrite lookup_empty in Ha.
Qed.

Lemma netSet_usable : valset_usable netSet.
Proof. split; [concrete_wf|each_element|done]. Qed.

Definition netEvents : list event :=
  [Tick (mkTimeoutInfo 999 1 0 RoundStepNewHeight); Own 0; Own 1; Own 2; Own 3;
   Peer observerAddress 0; Peer observerAddress 1; Peer observerAddress 2; Peer observerAddress 3].

Definition isSome {A} (o : option A) : bool := match o with Some _ => true | None => false end.
Definition fromSome {A} (d : A) (o : option A) : A := match o with Some x => x | None => d end.

Definition netFinal : netNetwork := fromSome ∅ (netRun netInit netEvents).

(** The blocks that a node has applied *)
Definition appliedAt (net : netNetwork) (a : bytes) : list (Z * BlockID * Block) :=
  match net !! a with
  | Some nd => omap (fun e => match e with AppliedBlock h b blk => Some (h, b, blk) | _ => None end)
                 (csTrace (ndState nd))
  | None => []
  end.
Definition firstHeight (l : list (Z * BlockID * Block)) : Z :=
  match l with (h, _, _) :: _ => h | [] => 0 end.
(** The votes and the first block of height 1 that a node has sent and saved *)
Definition votesAt (net : netNetwork) (a : bytes) : list Vote :=
  match net !! a with Some nd => votesSent 1 nd | None => [] end.
Definition savedAt (net : netNetwork) (a : bytes) : option (Block * PartSet * Commit) :=
  match net !! a with
  | Some nd => head (omap (fun e => match e with
      | SavedBlock h block parts commit => if h =? 1 then Some (block, parts, commit) else None
      | _ => None end) (csTrace (ndState nd)))
  | None => None
  end.

(** Both nodes apply a block at height 1, the first one votes twice and saves a
    block, and the second validator, with 5 of 25, has no correct node. *)
Definition reachesCommit (o : option netNetwork) : bool :=
  match o with
  | None => false
  | Some net =>
    (firstHeight (appliedAt net proposerAddress) =? 1) && (firstHeight (appliedAt net observerAddress) =? 1)
    && bool_decide (fmap vType (votesAt net proposerAddress) = [PrevoteType; PrecommitType])
    && isSome (savedAt net proposerAddress)
    && (3 * sumZ VotingPower (faulty netSet net) <? sumZ VotingPower (Validators netSet))
  end.

Record committed (net : netNetwork) : Prop := {
  cm_proposer : firstHeight (appliedAt net proposerAddress) = 1;
  cm_observer : firstHeight (appliedAt net observerAddress) = 1;
  cm_votes : fmap vType (votesAt net proposerAddress) = [PrevoteType; PrecommitType];
  cm_saved : isSome (savedAt net proposerAddress) = true;
  cm_faulty : 3 * sumZ VotingPower (faulty netSet net) < sumZ VotingPower (Validators netSet)
}.

Lemma reachesCommit_spec o : reachesCommit o = true -> o = Some (fromSome ∅ o) /\ committed (fromSome ∅ o).
Proof.
  destruct o as [net|]; [|done]. unfold reachesCommit, fromSome.
  rewrite !andb_true_iff, bool_decide_eq_true, !Z.eqb_eq, Z.ltb_lt. intros ((((? & ?) & ?) & ?) & ?). by split.
Qed.

Lemma netRun_commits : reachesCommit (netRun netInit netEvents) = true.
Proof. vm_cast_no_check (eq_refl true). Qed.

Lemma netFinal_run : netRun netInit netEvents = Some netFinal.
Proof. unfold netFinal. exact (proj1 (reachesCommit_spec _ netRun_commits)). Qed.

Lemma netFinal_committed : committed netFinal.
Proof. unfold netFinal. exact (proj2 (reachesCommit_spec _ netRun_commits)). Qed.

Lemma appliedAt_elem (net : netNetwork) (a : bytes) h b block l :
  appliedAt net a = (h, b, block) :: l ->
  exists nd, net !! a = Some nd /\ AppliedBlock h b block ∈ csTrace (ndState nd).
Proof.
  unfold appliedAt. destruct (net !! a) as [nd|]; [|done]. intros E. exists nd. split; [done|].
  assert ((h, b, block) ∈ (h, b, block) :: l) as Hin by set_solver. rewrite <- E in Hin.
  apply list_elem_of_omap in Hin as (e & He & Ee). destruct e; try done. by injection Ee as -> -> ->.
Qed.

Lemma firstHeight_elem (net : netNetwork) (a : bytes) :
  firstHeight (appliedAt net a) = 1 -> exists nd b block, net !! a = Some nd /\ AppliedBlock 1 b block ∈ csTrace (ndState nd).
Proof.
  intros E. destruct (appliedAt net a) as [|[[h b] block] l] eqn:El; [done|]. simpl in E. subst h.
  destruct (appliedAt_elem _ _ _ _ _ _ El) as (nd & Hn & Hin). by exists nd, b, block.
Qed.

Lemma consensus_agreement_witness : exists nd1 nd2 b1 b2 block1 block2,
  netFinal !! proposerAddress = Some nd1 /\ netFinal !! observerAddress = Some nd2 /\
  AppliedBlock 1 b1 block1 ∈ csTrace (ndState nd1) /\ AppliedBlock 1 b2 block2 ∈ csTrace (ndState nd2) /\
  bidHash b1 = bidHash b2 /\ hashOf block1 = Some (bidHash b1) /\ hashOf block2 = Some (bidHash b1).
Proof.
  destruct (firstHeight_elem _ _ (cm_proposer _ netFinal_committed)) as (nd1 & b1 & block1 & H1 & A1).
  destruct (firstHeight_elem _ _ (cm_observer _ netFinal_committed)) as (nd2 & b2 & block2 & H2 & A2).
  exists nd1, nd2, b1, b2, block1, block2. split; [exact H1|]. split; [exact H2|]. split; [exact A1|]. split; [exact A2|].
  apply (consensus_agreement (fun _ => netConfig) (fun _ => netClock) (fun _ => netSizes) exampleChain 1 netSet netInit netFinal
    proposerAddress observerAddress nd1 nd2 b1 b2 block1 block2); [lia|apply netSet_usable|apply netInit_init| | |assumption..].
  - apply (netRun_steps netEvents), netFinal_run.
  - apply (cm_faulty _ netFinal_committed).
Defined.

Definition stateAt (net : netNetwork) (a : bytes) : option netState :=
  match net !! a with Some nd => Some (ndState nd) | None => None end.

Lemma netInit_proposer : isSome (netInit !! proposerAddress) = true.
Proof. vm_cast_no_check (eq_refl true). Qed.

Lemma isSome_spec {A} (o : option A) : isSome o = true -> exists x, o = Some x.
Proof. destruct o; [eauto|done]. Qed.

Lemma proposer_run : exists nd0 nd,
  netFinal !! proposerAddress = Some nd /\ atStart exampleChain 1 netSet (ndState nd0) /\
  run netConfig netClock netSizes exampleChain (ndState nd0) (ndVotes nd) (ndState nd).
Proof.
  destruct (isSome_spec _ netInit_proposer) as [nd0 H0]. destruct (netInit_init _ _ H0) as [F Hv].
  destruct (net_run _ _ _ _ _ _ _ _ _ _ (netRun_steps _ _ _ netFinal_run) H0 Hv) as (nd & Hn & Hr).
  exists nd0, nd. split; [exact Hn|]. split; [exact F|exact Hr].
Qed.

Lemma run_lawful_witness : exists s R s', run netConfig netClock netSizes exampleChain s R s' /\
  fmap vType (sent 1 (csTrace s')) = [PrevoteType; PrecommitType] /\
  lawful exampleChain 1 netSet R (sent 1 (csTrace s')).
Proof.
  destruct proposer_run as (nd0 & nd & Hn & F & Hr). exists (ndState nd0), (ndVotes nd), (ndState nd).
  split; [exact Hr|]. split.
  - pose proof (cm_votes _ netFinal_committed) as E. unfold votesAt in E. rewrite Hn in E. exact E.
  - apply (run_lawful netConfig netClock netSizes exampleChain 1 netSet (ndState nd0)); [lia|apply netSet_usable|exact F|exact Hr].
Defined.

Lemma savedAt_elem (net : netNetwork) (a : bytes) (nd : netNode) block parts commit :
  net !! a = Some nd -> savedAt net a = Some (block, parts, commit) ->
  SavedBlock 1 block parts commit ∈ csTrace (ndState nd).
Proof.
  intros Hn E. unfold savedAt in E. rewrite Hn in E. apply head_Some_elem_of in E.
  apply list_elem_of_omap in E as (e & He & Ee). destruct e; try done.
  destruct (Z.eqb_spec height 1) as [->|]; [|done]. by injection Ee as -> -> ->.
Qed.

Lemma run_saved_witness : exists s R s' block parts commit,
  run netConfig netClock netSizes exampleChain s R s' /\ SavedBlock 1 block parts commit ∈ csTrace s' /\
  saved_right exampleChain 1 netSet R block parts commit.
Proof.
  destruct proposer_run as (nd0 & nd & Hn & F & Hr).
  destruct (isSome_spec _ (cm_saved _ netFinal_committed)) as [[[block parts] commit] E].
  pose proof (savedAt_elem _ _ _ _ _ _ Hn E) as Hin.
  exists (ndState nd0), (ndVotes nd), (ndState nd), block, parts, commit. split; [exact Hr|]. split; [exact Hin|].
  apply (run_saved netConfig netClock netSizes exampleChain 1 netSet (ndState nd0) (ndVotes nd) (ndState nd));
    [lia|apply netSet_usable|exact F|exact Hr|exact Hin].
Defined.

(** The first timeout of the first node *)
Definition firstTimeout : input := Timeout (mkTimeoutInfo 999 1 0 RoundStepNewHeight).
Definition isDone {A} (m : outcome A) : bool := match m with Done _ => true | Panic _ => false end.
Definition afterTimeout (s : netState) : outcome (unit * netState) := receive netConfig netClock netSizes firstTimeout s.

Lemma netInit_ready : match netInit !! proposerAddress with
  | Some nd => isDone (afterTimeout (ndState nd)) && checkInput netInit (ndState nd) firstTimeout
  | None => false
  end = true.
Proof. vm_cast_no_check (eq_refl true). Qed.

Lemma receive_forward_witness : exists s s', receive netConfig netClock netSizes firstTimeout s = Done (tt, s') /\
  CompareHRS (rsHeight (csRS s)) (rsRound (csRS s)) (rsStep (csRS s))
    (rsHeight (csRS s')) (rsRound (csRS s')) (rsStep (csRS s')) <= 0.
Proof.
  pose proof netInit_ready as Hr. destruct (netInit !! proposerAddress) as [nd|] eqn:Hn; [|discriminate].
  apply andb_true_iff in Hr as [Hd Hc]. destruct (netInit_init _ _ Hn) as [F _].
  unfold afterTimeout in Hd. destruct (receive _ _ _ _ _) as [[[] s']|] eqn:E; [|discriminate].
  exists (ndState nd), s'. split; [exact E|].
  apply (receive_forward netConfig netClock netSizes exampleChain 1 netSet (ndState nd) [] (ndState nd) firstTimeout s');
    [lia|apply netSet_usable|exact F|apply run_nil| | |exact E].
  - rewrite (fr_height _ _ _ _ F). reflexivity.
  - split; [intros v Hv; by apply elem_of_nil in Hv|]. apply andb_true_iff in Hc as [_ Ht].
    apply existsb_exists in Ht as (e & Hin & He). destruct e; try done.
    apply bool_decide_eq_true in He as ->. by apply list_elem_of_In.
Defined.

(** The second node gets the precommit before the block. *)
Definition earlyEvents : list event :=
  [Tick (mkTimeoutInfo 999 1 0 RoundStepNewHeight); Own 0; Own 1; Own 2; Peer observerAddress 3].
Definition earlyCommit : option netState := stateAt (fromSome ∅ (netRun netInit earlyEvents)) observerAddress.
Definition exampleParts1 : outcome (option PartSet) := MakePartSet (Some exampleValidated) 65536.

Definition commitsAt (o : option netState) (p : outcome (option PartSet)) : bool :=
  match o, p with
  | Some s, Done (Some parts) => isDone (commitBlock netConfig netClock 1 exampleValidated parts s)
  | _, _ => false
  end.

Lemma commitsAt_spec o p : commitsAt o p = true ->
  exists (s : netState) parts s', commitBlock netConfig netClock 1 exampleValidated parts s = Done (tt, s').
Proof.
  destruct o as [s|]; [|done]. destruct p as [[parts|]|]; try done. unfold commitsAt.
  destruct (commitBlock _ _ _ _ _ _) as [[[] s']|] eqn:Ec; [eauto|done].
Qed.

Lemma earlyCommit_commits : commitsAt earlyCommit exampleParts1 = true.
Proof. vm_cast_no_check (eq_refl true). Qed.

Lemma commitBlock_order_witness : exists (s : netState) parts s' saved l,
  commitBlock netConfig netClock 1 exampleValidated parts s = Done (tt, s') /\
  csTrace s' = csTrace s ++ saved ++ WroteEndHeight 1 :: l.
Proof.
  destruct (commitsAt_spec _ _ earlyCommit_commits) as (s & parts & s' & Ec).
  destruct (commitBlock_order netConfig netClock 1 exampleValidated parts s tt s' Ec) as (saved & l & Et & _).
  exists s, parts, s', saved, l. split; [exact Ec|exact Et].
Defined.
